(* ===== verification/_CoqProject ===== *)
-Q . S2P
Prelude.v
Types.v
Env.v
Wal.v
Memory.v
Spec.v
Commands.v
Refinement.v
Invariant.v
Models.v
Storage.v
StorageFn.v
Deliveries.v
Maintenance.v
Interface.v
Recovery.v
Durability.v
Restarts.v
Bytes.v
RaftLog.v
Replica.v
RaftModels.v
RaftStore.v
Replication.v
Agreement.v
Http.v
HttpModels.v
Router.v
Api.v
Config.v
Startup.v
Telemetry.v
Cluster.v
Lifecycle.v
Threads.v
Alone.v
Account.v
Progress.v
Interleave.v
Sweep.v
Readers.v
Applying.v
Crash.v
Survival.v
ClusterRestart.v
Program.v
