(* ===== verification/Prelude.v ===== *)
(** * OxideQ: verification development (root file)

    OxideQ ([src/src]) is an HTTP message queue: named queues of byte messages,
    delivery with acknowledgement and retry, a dead letter queue after five
    deliveries, an optional write-ahead log, and a cluster mode that replicates
    the queues with openraft.  This library models the program and proves what
    makes it correct; where the code falls short of what it means to do, a
    theorem says exactly how.

    ** Parts and files

    The definitions are a shallow embedding.  Stateful code is a computation of
    the monad [M S A], from a state to an outcome and a state; an outcome is a
    returned value or a panic, and the state at a panic is kept.  Rust's [Result]
    is the inductive type [Result].  Machine integers are [Z] with their wrap or
    panic written out; maps are [gmap]s, iterated in an arbitrary order.

    - [Prelude.v]: results, outcomes, the monad with its laws and the tactics
      that run and invert it, strings as bytes, lemmas on lists and maps.
    - [Types.v]: [QueueItem], [InFlightTask], [WalOp], [WalEntry],
      [ClientRequest], [ClientResponse] with the source's fields.
    - [Env.v]: what the program takes from outside its source, as type classes of
      operations and classes of the documented laws: clock, uuid, files, map
      iteration order, chrono, the codec of log entries.  [Models.v] has concrete
      instances, used by the witnesses only.
    - [Wal.v]: [storage/wal/manager.rs]; [wal_new], [append], [replay].
    - [Memory.v]: [storage/memory.rs]; one definition per method of
      [InMemoryStorage] and of its [Storage] implementation ([enqueue] is the
      method [queue]), snapshots included.  [Sys] is the storage with its host.
    - [Commands.v]: the dispatch of a [ClientRequest] to the storage.
    - [Spec.v]: the abstract queue service, a step relation on queues and
      in-flight tasks without log, clock or iteration order.
    - [Refinement.v], [Invariant.v]: the simulation of the service by the methods
      and the invariants of the service, carried to the code.  [LogMode] there is
      the interface of a log that refuses nothing: no log, or one on a disk without
      faults ([Durability.logged_mode]).
    - [Storage.v]: reachable states (requests and cleanup passes from an empty
      node) and the theorems on them.  [StorageFn.v]: totality and the
      behaviour of each operation.  [Maintenance.v]: cleanup, timeouts, statistics.
    - [Recovery.v]: [InMemoryStorage::new_persistent] and what a log entry does
      when replayed.  [Durability.v]: a log always replays to the running state.
      [Restarts.v]: traces of commands, cleanup passes and restarts.
    - [Interface.v]: the [Storage] trait of [storage/mod.rs] as a type class, the
      laws its clients are reasoned with (an interface of this library, stronger
      than the comments of the trait), which [InMemoryStorage] satisfies.
    - [Deliveries.v]: the account of the delivery counts and their [u32] range.
    - [Threads.v]: every command as a state machine that stops at each await and
      each shard-lock acquisition, with the locks it holds and wants; pools of
      calls under any schedule, cancellation, a bounded number of worker threads.
      [Alone.v]: a call that runs alone is its method of [Memory.v].  [Account.v]:
      what each call has in hand.  [Progress.v]: completion and starvation.
      [Interleave.v]: the races.  [Sweep.v]: the cleanup pass beside the calls,
      conservation and completion of both.  [Readers.v]: snapshots and statistics
      read shard by shard beside the calls.  [Crash.v]: what the log holds at any
      moment of a schedule, and so what a restart after a crash there finds.
      [Survival.v]: the account of the messages across such a crash.
    - [Bytes.v], [RaftLog.v], [RaftStore.v]: the log half of
      [replication/combined_storage.rs] over an ordered byte-keyed database, its
      abstract log, and the refinement.  [Replica.v], [Replication.v]: the state
      machine half: applying entries, building and installing snapshots.
      [RaftModels.v] has the instances.  [Applying.v]: the apply loop as a machine
      that stops at its awaits, beside a reader such as the snapshot builder, and
      what it refines.  [Agreement.v]: a replica that installs a
      snapshot and applies the rest of the log beside the one that built it.
      [ClusterRestart.v]: a node brought up again from its log.
    - [Http.v]: every handler of [lib.rs] in standalone and in cluster mode.
      [Router.v]: routes, [auth_middleware], the body limits, the cleanup task.
      [Api.v]: the theorems on them.  [HttpModels.v] has the instances.
    - [Config.v], [Startup.v]: the settings of [main.rs], [tls/mod.rs], the log
      format of [telemetry/mod.rs], the drain timeout of [shutdown/mod.rs], the
      RPCs of [replication/network.rs].  [Telemetry.v]: [init_logging].
    - [Cluster.v]: the RPCs of the network delivered to the routers of the peers.
      [Lifecycle.v]: [server/mod.rs], [shutdown_signal] and the end of [main].
    - [Program.v]: [main] as a whole, with [app] of [lib.rs]; a program that is
      started, serves and is run again.

    A handler ([Http.v]) calls the storage directly on a standalone node, and
    proposes a command to openraft in a cluster; openraft hands the committed
    commands to [Replica.v], which runs the same storage methods through
    [Commands.v].  The cleanup task calls the storage's scan in both modes.  A
    persistent standalone node logs each command and replays the log at start-up.
    Replicas reach each other through [Config.rpc_call], whose requests arrive at
    the [Router.serve] of the peer.

    ** What is proved

    - Storage: whatever the disk does, the methods are steps of the abstract
      service; reachable maps are well formed; requests conserve the multiset of
      messages; commands return; a message rejected at every delivery is
      delivered five times and then dead-lettered; batches are iterated single
      operations and first in, first out; each delivery is counted once and no count
      wraps before 2^32 commands; the range of the timeout; an error leaves the maps
      unchanged but for one documented case; cleanup removes exactly what is expired;
      what was settled is never handed out again.
    - Durability: with a reliable disk a restart at any moment rebuilds the queues
      and the in-flight tasks, up to the instants of delivery, which the replay
      takes from the clock of the restart; to clients the restarts do not exist,
      and what was settled stays settled.  A process that ends at any moment of
      concurrent calls restarts to a state that has every answered command and each
      unanswered one wholly or not at all, and no accepted message is lost but to an
      acknowledgement, for the queues there were at the start of the calls; a line
      torn inside one write is the exception, it discards the log.
    - Concurrency: a call alone is its sequential method; under every schedule of
      calls and a cleanup pass, with disk failures and cancelled calls, messages are
      conserved up to those that cancelled and racing calls lose, which are named;
      concurrent enqueues keep every accepted item; of many acks and nacks of a task
      one succeeds; a snapshot or statistics read meanwhile has each key as it was
      at some moment of the reading; every call can be completed and no schedule goes on for ever,
      but with fewer worker threads than callers the runtime can deadlock; a
      cancelled dequeue loses its message, a heartbeat after the scan of the cleanup does not keep
      its task, a batch acknowledgement can race with a nack, a race of two
      creations loses a message, and the log may order enqueues otherwise.
    - Replication: the log store refines the abstract log; applying entries is
      running their commands in order, in any batches, whatever reads the maps
      meanwhile; snapshots transfer the state, but one built while an entry is
      applied can be of either side of the entry; replicas agree on commands without task identifiers, and after a common
      snapshot also on those that name only its tasks; they can part on the
      acknowledgement of a later task, since each draws its own identifiers.  A restarted node
      replays its log from the first entry: commands that name no task rebuild its
      queues, but every acknowledgement of its first life is undone, and what was
      purged from the log is gone; a dead letter queue the first life created, and
      what was enqueued there, can be lost too.
    - Interface: handlers render the answers of commands; a leader answers as a
      standalone node would; all routes but two need the password and bodies have
      limits; the queue-name check; batch formats; the cleanup tick in both modes.
    - Process: which settings are accepted, when TLS is on, what is logged and how;
      when [main] comes up, on an existing log too, and with which node; that the first storage satisfies the
      invariant the theorems on a running node start from; that a persistent
      program run again in the same environment has what it had; when the process
      exits after a signal.
    - Cluster: no RPC between nodes succeeds, since none carries the password.

    ** Assumptions, bounds and fuel

    All loops of the program run over finite data and are structural recursions;
    no definition has fuel.  Threads are stepped by an explicit schedule, and
    [Alone.alone_is_method], [Sweep.node_completes] and [Applying.apply_ends] show
    that a schedule that finishes them exists.  A theorem states that a call returns by an equation with
    [Ret].  Theorems that need identifiers to be fresh assume that [Uuid::new_v4]
    never repeats; the
    durability theorems assume a disk without faults and a log codec that reads
    back what it writes on one line, and those on crashes a log of fewer than
    2^32 entries, so that no [u32] count overflows in the replay; the cluster theorems on handlers assume what
    openraft documents of a leader's write.  Each class of laws has an instance.

    ** Not modelled

    - openraft, sled, axum's matching and extraction of requests, serde, rustls,
      reqwest, tokio and tracing are other crates: parameters where the code uses
      their results, otherwise left out.
    - The middle of a write to the log: [append] is one step of a call, so a process
      that ends, or a call that is cancelled, between the [write_all] and the
      [flush] of an entry or inside a long [write_all] is not among the schedules
      of [Threads.v] (a torn last line is, as a state of the file).
    - openraft's start-up: [ClusterRestart.reapply] stands for it.
    - Memory exhaustion, and the loss of flushed but unsynced data when the
      machine stops.
    - The order in which openraft calls the store and the state machine: the
      theorems on them hold for every order, or say which they take.

    ** Plan

    Next: [install_snapshot] as a machine beside the readers, since
    [restore_from_snapshot] clears the maps and fills them entry by entry. *)

From stdpp Require Import prelude base gmap strings list fin_maps.
From Stdlib Require Import ZArith Lia Strings.Byte.
Set Warnings "-clear-no-such-hyp".

Create HintDb oxide.
Declare Scope oxide_scope.
Delimit Scope oxide_scope with oxide.

(** ** Results, panics and the state monad *)

(** Rust's [Result]: the code's fallible functions all use [String] errors. *)
Inductive Result (A E : Type) :=
| Ok (a : A)
| Err (e : E).
Arguments Ok {A E} a.
Arguments Err {A E} e.

(** A call either returns or panics; the state at the panic is kept, since a
    panicking handler is unwound while the storage lives on. *)
Inductive outcome (A : Type) :=
| Ret (a : A)
| Panic (msg : string).
Arguments Ret {A} a.
Arguments Panic {A} msg.

(** Stateful code over a state [S]. *)
Definition M (S A : Type) : Type := S → outcome A * S.

#[export] Instance M_ret {S} : MRet (M S) := λ A a s, (Ret a, s).

#[export] Instance M_bind {S} : MBind (M S) := λ A B f c s,
  match c s with
  | (Ret a, s') => f a s'
  | (Panic msg, s') => (Panic msg, s')
  end.

Definition gets {S A} (f : S → A) : M S A := λ s, (Ret (f s), s).
Definition modify {S} (f : S → S) : M S unit := λ s, (Ret tt, f s).
Definition panic {S A} (msg : string) : M S A := λ s, (Panic msg, s).

(** The [?] operator on a [Result]-returning call. *)
Definition try_bind {S A B E} (c : M S (Result A E)) (f : A → M S (Result B E))
  : M S (Result B E) :=
  r ← c;
  match r with
  | Ok a => f a
  | Err e => mret (Err e)
  end.

Notation "x ←? c ; k" := (try_bind c (λ x, k%oxide))
  (at level 20, c at level 100, k at level 200, right associativity) : oxide_scope.
(** [for x in l { f x }] *)
Fixpoint for_each {S A} (f : A → M S unit) (l : list A) : M S unit :=
  match l with
  | [] => mret tt
  | x :: l' => f x;; for_each f l'
  end.

Section monad_lemmas.
Context {S : Type}.

Lemma bind_ret_l {A B} (a : A) (f : A → M S B) s : (mret a ≫= f) s = f a s.
Proof. reflexivity. Qed.

Lemma bind_gets {A B} (g : S → A) (f : A → M S B) s : (gets g ≫= f) s = f (g s) s.
Proof. reflexivity. Qed.

Lemma bind_modify {B} (g : S → S) (f : unit → M S B) s : (modify g ≫= f) s = f tt (g s).
Proof. reflexivity. Qed.

Lemma bind_step {A B} (c : M S A) (f : A → M S B) s a s' :
  c s = (Ret a, s') → (c ≫= f) s = f a s'.
Proof. intros Hc. unfold mbind, M_bind. by rewrite Hc. Qed.

(** Inversion of a bind that returned. *)
Lemma bind_Ret_inv {A B} (c : M S A) (f : A → M S B) s b s' :
  (c ≫= f) s = (Ret b, s') → ∃ a s1, c s = (Ret a, s1) ∧ f a s1 = (Ret b, s').
Proof.
  unfold mbind, M_bind. destruct (c s) as [[a|msg] s1]; intros H; [eauto | discriminate].
Qed.

Lemma mret_Ret_inv {A} (a b : A) (s s' : S) :
  mret (M := M S) a s = (Ret b, s') → b = a ∧ s' = s.
Proof. intros H. injection H. auto. Qed.

Lemma gets_Ret_inv {A} (g : S → A) b s s' : gets g s = (Ret b, s') → b = g s ∧ s' = s.
Proof. intros H. injection H. auto. Qed.

Lemma modify_Ret_inv (g : S → S) u s s' : modify g s = (Ret u, s') → s' = g s.
Proof. intros H. injection H. auto. Qed.

Lemma try_Ret_inv {A B E} (c : M S (Result A E)) (f : A → M S (Result B E)) s r s' :
  try_bind c f s = (Ret r, s') →
  (∃ e, c s = (Ret (Err e), s') ∧ r = Err e) ∨
  (∃ a s1, c s = (Ret (Ok a), s1) ∧ f a s1 = (Ret r, s')).
Proof.
  intros ([a|e] & s1 & Hc & Hf)%bind_Ret_inv; [eauto|].
  apply mret_Ret_inv in Hf as [-> ->]. eauto.
Qed.

(** Computations that return rather than panic. *)
Definition returns {A} (c : M S A) (s : S) : Prop := ∃ a s', c s = (Ret a, s').

Lemma returns_ret {A} (a : A) s : returns (mret a) s.
Proof. by eexists _, _. Qed.
Lemma returns_gets {A} (g : S → A) s : returns (gets g) s.
Proof. by eexists _, _. Qed.
Lemma returns_modify (g : S → S) s : returns (modify g) s.
Proof. by eexists _, _. Qed.
Lemma returns_bind {A B} (c : M S A) (f : A → M S B) s :
  returns c s → (∀ a s1, c s = (Ret a, s1) → returns (f a) s1) → returns (c ≫= f) s.
Proof.
  intros (a & s1 & Hc) Hf. destruct (Hf a s1 Hc) as (b & s2 & Hb).
  exists b, s2. by erewrite bind_step by exact Hc.
Qed.
Lemma returns_try {A B E} (c : M S (Result A E)) (f : A → M S (Result B E)) s :
  returns c s → (∀ a s1, c s = (Ret (Ok a), s1) → returns (f a) s1) → returns (try_bind c f) s.
Proof.
  intros Hc Hf. apply returns_bind; [done|]. intros [a|e] s1 H; [by apply Hf | apply returns_ret].
Qed.

Lemma for_each_app {A} (f : A → M S unit) l1 l2 s :
  for_each f (l1 ++ l2) s = (for_each f l1;; for_each f l2) s.
Proof.
  revert s. induction l1 as [|x l1 IH]; intros s; [reflexivity|].
  cbn. unfold mbind, M_bind. destruct (f x s) as [[[]|msg] s1]; [|reflexivity].
  rewrite IH. reflexivity.
Qed.
End monad_lemmas.

#[export] Hint Resolve returns_ret returns_gets returns_modify : oxide.

(** ** Machine integers *)

(** Rust integers are [Z] with their ranges; [as] casts wrap. *)
Definition u32_modulus : Z := 2 ^ 32.
Definition u64_modulus : Z := 2 ^ 64.
Definition i64_max : Z := 2 ^ 63 - 1.
Definition isize_max : Z := 2 ^ 63 - 1.

Definition in_u32 (z : Z) : Prop := (0 ≤ z < u32_modulus)%Z.
Definition in_u64 (z : Z) : Prop := (0 ≤ z < u64_modulus)%Z.

(** [x as i64] for [x : u64]: reinterpret as two's complement. *)
Definition u64_as_i64 (z : Z) : Z :=
  if (z <? 2 ^ 63)%Z then z else (z - 2 ^ 64)%Z.

(** ** Bytes and strings *)

Abbreviation bytes := (list Byte.byte).

#[export] Instance byte_eq_dec : EqDecision Byte.byte := Byte.byte_eq_dec.

#[export] Program Instance byte_countable : Countable Byte.byte :=
  inj_countable' (λ b, Byte.to_N b)
    (λ n, match Byte.of_N n with Some b => b | None => Byte.x00 end) _.
Next Obligation. intros b. by destruct b. Qed.

(** [String::as_bytes] and the unsigned value of a byte. *)
Definition as_bytes (s : string) : bytes := String.list_byte_of_string s.
Definition byte_val (b : Byte.byte) : Z := Z.of_N (Byte.to_N b).

(** UTF-8 decoding, as [str::chars] does it.  Rust's [String] is valid UTF-8 by
    construction; the decoder returns [None] where that invariant fails. *)
Definition is_cont (b : Z) : bool := ((128 <=? b) && (b <? 192))%Z.
Definition cont_bits (b : Z) : Z := Z.land b 63.

Fixpoint decode_utf8 (l : list Z) : option (list Z) :=
  match l with
  | [] => Some []
  | b0 :: l0 =>
    if (b0 <? 128)%Z then cons b0 <$> decode_utf8 l0
    else match l0 with
    | b1 :: l1 =>
      if negb (is_cont b1) then None
      else if ((194 <=? b0) && (b0 <? 224))%Z then
        cons (Z.lor (Z.shiftl (Z.land b0 31) 6) (cont_bits b1)) <$> decode_utf8 l1
      else match l1 with
      | b2 :: l2 =>
        if negb (is_cont b2) then None
        else if ((224 <=? b0) && (b0 <? 240))%Z then
          let c := Z.lor (Z.shiftl (Z.land b0 15) 12)
                     (Z.lor (Z.shiftl (cont_bits b1) 6) (cont_bits b2)) in
          if ((c <? 2048) || ((55296 <=? c) && (c <? 57344)))%Z then None
          else cons c <$> decode_utf8 l2
        else match l2 with
        | b3 :: l3 =>
          if negb (is_cont b3) then None
          else if ((240 <=? b0) && (b0 <? 245))%Z then
            let c := Z.lor (Z.shiftl (Z.land b0 7) 18)
                       (Z.lor (Z.shiftl (cont_bits b1) 12)
                          (Z.lor (Z.shiftl (cont_bits b2) 6) (cont_bits b3))) in
            if ((c <? 65536) || (1114112 <=? c))%Z then None
            else cons c <$> decode_utf8 l3
          else None
        | [] => None
        end
      | [] => None
      end
    | [] => None
    end
  end.

Definition str_bytes (s : string) : list Z := byte_val <$> as_bytes s.
Lemma str_bytes_cons c s :
  str_bytes (String c s) = byte_val (Ascii.byte_of_ascii c) :: str_bytes s.
Proof. reflexivity. Qed.
Lemma decode_utf8_ascii b l :
  (b <? 128)%Z = true → decode_utf8 (b :: l) = cons b <$> decode_utf8 l.
Proof. intros Hb. cbn. by rewrite Hb. Qed.

Definition valid_utf8 (s : string) : bool :=
  bool_decide (is_Some (decode_utf8 (str_bytes s))).
Definition chars (s : string) : list Z := default [] (decode_utf8 (str_bytes s)).

(** [char::is_whitespace] (Unicode White_Space). *)
Definition char_is_whitespace (c : Z) : bool :=
  (((9 <=? c) && (c <=? 13)) || (c =? 32) || (c =? 133) || (c =? 160) || (c =? 5760)
   || ((8192 <=? c) && (c <=? 8202)) || (c =? 8232) || (c =? 8233) || (c =? 8239)
   || (c =? 8287) || (c =? 12288))%Z.

(** [s.trim().is_empty()] *)
Definition trim_is_empty (s : string) : bool := forallb char_is_whitespace (chars s).

Definition newline : string := String (Ascii.ascii_of_nat 10) EmptyString.

Lemma string_length_app (s1 s2 : string) :
  String.length (s1 +:+ s2) = String.length s1 + String.length s2.
Proof. induction s1 as [|c s1 IH]; [done|]. exact (f_equal S IH). Qed.

(** [c] occurs in [s]. *)
Fixpoint has_char (c : Ascii.ascii) (s : string) : bool :=
  match s with
  | EmptyString => false
  | String c' s' => Ascii.eqb c c' || has_char c s'
  end.

(** ** Sums over lists *)

Lemma sum_list_indicator {A} `{!EqDecision A} (x : A) (l : list A) :
  NoDup l → x ∈ l → sum_list ((λ y, if decide (x = y) then 1 else 0) <$> l) = 1.
Proof.
  assert (∀ l, x ∉ l → sum_list ((λ y, if decide (x = y) then 1 else 0) <$> l) = 0) as H0.
  { induction l0 as [|y l0 IH]; intros Hn; cbn; [done|].
    rewrite decide_False by set_solver. apply IH. set_solver. }
  induction 1 as [|y l Hy _ IH]; intros Hin; [by apply not_elem_of_nil in Hin|]. cbn.
  case_decide as Hxy; [subst y; by rewrite H0|]. apply IH. set_solver.
Qed.

Lemma sum_list_add {A} (f g : A → nat) (l : list A) :
  sum_list ((λ y, f y + g y) <$> l) = sum_list (f <$> l) + sum_list (g <$> l).
Proof. induction l as [|y l IH]; cbn; [done|]. rewrite IH. lia. Qed.

(** Counting the elements of [l] by key counts each once, when the keys are
    among [ks]. *)
Lemma sum_list_partition {A B} `{!EqDecision B} (key : A → B) (ks : list B) (l : list A) :
  NoDup ks → Forall (λ x, key x ∈ ks) l →
  sum_list ((λ k, length (filter (λ x, key x = k) l)) <$> ks) = length l.
Proof.
  intros Hks. induction 1 as [|x l Hx _ IH].
  - clear Hks. induction ks; done.
  - trans (sum_list ((λ k, (if decide (key x = k) then 1 else 0)
                            + length (filter (λ x, key x = k) l)) <$> ks)).
    + f_equal. apply list_fmap_ext. intros _ k _. rewrite filter_cons. by repeat case_decide.
    + rewrite sum_list_add, sum_list_indicator, IH by done. done.
Qed.

(** ** Finite maps as lists *)

Section maps.
Context {V : Type}.
Implicit Types m : gmap string V.

Lemma map_to_list_filter_perm (P : string * V → Prop) `{!∀ x, Decision (P x)} m :
  map_to_list (filter P m) ≡ₚ filter P (map_to_list m).
Proof.
  apply NoDup_Permutation; [apply NoDup_map_to_list | apply NoDup_filter, NoDup_map_to_list |].
  intros [k v]. rewrite elem_of_map_to_list, map_lookup_filter_Some, list_elem_of_filter,
    elem_of_map_to_list. tauto.
Qed.

Lemma elem_of_map_keys m k : k ∈ (map_to_list m).*1 ↔ is_Some (m !! k).
Proof.
  rewrite list_elem_of_fmap. split.
  - intros ([k' v] & -> & Hin%elem_of_map_to_list). by eexists.
  - intros [v Hv]. exists (k, v). by rewrite elem_of_map_to_list.
Qed.
End maps.

(** ** Tactics *)

(** Run a computation that returned backwards: every bind of a hypothesis
    [c s = (Ret r, s')] is split, pure steps are substituted. *)
Ltac minv_step :=
  match goal with
  | H : (_ ≫= _) _ = (Ret _, _) |- _ =>
    apply bind_Ret_inv in H; destruct H as (? & ? & ? & H)
  | H : try_bind _ _ _ = (Ret _, _) |- _ =>
    apply try_Ret_inv in H; destruct H as [(? & H & ?)|(? & ? & ? & H)]
  | H : mret _ _ = (Ret _, _) |- _ =>
    apply mret_Ret_inv in H; destruct H as [? ?]
  | H : gets _ _ = (Ret _, _) |- _ =>
    apply gets_Ret_inv in H; destruct H as [? ?]
  | H : modify _ _ = (Ret _, _) |- _ => apply modify_Ret_inv in H
  | H : panic _ _ = (Ret _, _) |- _ => discriminate H
  | H : Ok _ = Ok _ |- _ => injection H as H
  | H : Err _ = Err _ |- _ => injection H as H
  | H : Ok _ = Err _ |- _ => discriminate H
  | H : Err _ = Ok _ |- _ => discriminate H
  end.
Ltac minv := repeat (minv_step; subst).
