(* ===== verification/Types.v ===== *)
(** * The data of OxideQ

    The records and tagged unions of [storage/mod.rs], [storage/memory.rs],
    [storage/wal/mod.rs] and [replication/types.rs], with the source's fields and
    constructors.  Instants ([DateTime<Utc>]) are nanoseconds since the epoch. *)

From stdpp Require Import prelude base gmap strings list.
From Stdlib Require Import ZArith Strings.Byte.
From S2P Require Import Prelude.

(** [QueueItem]; [delivery_attempts] is a [u32]. *)
Record QueueItem := mkQueueItem {
  qi_data : bytes;
  qi_attempts : Z }.

(** [InFlightTask] *)
Record InFlightTask := mkTask {
  t_id : string;
  t_data : bytes;
  t_consumed_at : Z;
  t_queue_name : string;
  t_attempts : Z }.

(** [WalOp] *)
Inductive WalOp :=
| WCreateQueue (name : string)
| WEnqueue (queue : string) (data : bytes)
| WEnqueueBatch (queue : string) (data : list bytes)
| WDequeued (queue task_id : string)
| WDequeuedBatch (queue : string) (task_ids : list string)
| WAck (task_id : string)
| WAckBatch (task_ids : list string)
| WNack (task_id : string)
| WExtendVisibility (task_id : string) (duration : Z).

(** [WalEntry]; [timestamp] is an [i64] in milliseconds. *)
Record WalEntry := mkWalEntry {
  we_op : WalOp;
  we_timestamp : Z }.

(** [ClientRequest]: the commands that modify the state machine. *)
Inductive ClientRequest :=
| RCreateQueue (name : string)
| REnqueue (queue : string) (data : bytes)
| RDequeue (queue : string)
| RAck (task_id : string)
| RNack (task_id : string)
| RExtendVisibility (task_id : string) (duration_seconds : Z)
| REnqueueBatch (queue : string) (data : list bytes)
| RDequeueBatch (queue : string) (count : Z)
| RAckBatch (task_ids : list string).

(** [ClientResponse] *)
Inductive ClientResponse :=
| ROk
| RTask (task : option InFlightTask)
| RTasks (tasks : list InFlightTask)
| RErr (e : string).

(** [NodeId] is [u64]. *)
Abbreviation NodeId := Z (only parsing).

#[export] Instance QueueItem_eq_dec : EqDecision QueueItem.
Proof. solve_decision. Defined.
#[export] Instance InFlightTask_eq_dec : EqDecision InFlightTask.
Proof. solve_decision. Defined.
#[export] Instance WalOp_eq_dec : EqDecision WalOp.
Proof. solve_decision. Defined.
#[export] Instance WalEntry_eq_dec : EqDecision WalEntry.
Proof. solve_decision. Defined.
#[export] Instance ClientRequest_eq_dec : EqDecision ClientRequest.
Proof. solve_decision. Defined.
#[export] Instance ClientResponse_eq_dec : EqDecision ClientResponse.
Proof. solve_decision. Defined.
