(* ===== verification/Env.v ===== *)
(** * What the program takes from outside its own source

    The crates and the operating system, as type classes: each class lists the
    operations the source calls and a companion class states the documented
    behaviour the theorems rely on.  Nothing here is defined: [Models.v] holds
    concrete instances used by the witnesses. *)

From stdpp Require Import prelude base gmap strings list.
From Stdlib Require Import ZArith.
From S2P Require Import Prelude Types.

(** [chrono]: arithmetic on instants and durations (both in nanoseconds). *)
Class Chrono := {
  (** [Duration::seconds]; [None] is its documented panic. *)
  duration_seconds : Z → option Z;
  signed_duration_since : Z → Z → Z;
  timestamp_millis : Z → Z }.

Class ChronoLaws `{!Chrono} : Prop := {
  duration_seconds_in_range n :
    (Z.abs n ≤ i64_max / 1000)%Z → duration_seconds n = Some (n * 1000000000)%Z;
  duration_seconds_out_of_range n :
    (i64_max / 1000 < Z.abs n)%Z → duration_seconds n = None;
  signed_duration_since_spec a b : signed_duration_since a b = (a - b)%Z }.

(** The running process' surroundings: the clock, the UUID generator, the file
    system as [tokio::fs] shows it, and the iteration order of a [DashMap].
    A [Host] value is the state of all of them. *)
Class Runtime := {
  Host : Type;
  (** [true] when the binary is built with overflow checks (a debug build). *)
  overflow_checks : bool;
  utc_now : Host → Z * Host;
  new_v4 : Host → string * Host;
  dash_iter {V : Type} : gmap string V → Host → list (string * V) * Host;
  (** An open file handle of [tokio::fs::File]. *)
  File : Type;
  (** [OpenOptions::read(true).open(path)], then the results [next_line] yields
      on the handle until [Ok(None)]. *)
  open_lines : string → Host → Result (list (Result string string)) string * Host;
  (** [OpenOptions::create(true).append(true).read(true).open(path)] *)
  open_append : string → Host → Result File string * Host;
  write_all : File → string → Host → Result unit string * (File * Host);
  flush : File → Host → Result unit string * (File * Host) }.

(** A [DashMap] visits every entry exactly once, in an unspecified order. *)
Class DashLaws `{!Runtime} : Prop := {
  dash_iter_perm {V : Type} (m : gmap string V) h :
    (dash_iter m h).1 ≡ₚ map_to_list m }.

(** A version-4 UUID differs from every one drawn before.  [issued] observes the
    identifiers a host has handed out. *)
Class UuidLaws `{!Runtime} := {
  issued : Host → gset string;
  new_v4_issued h : issued (new_v4 h).2 = {[ (new_v4 h).1 ]} ∪ issued h;
  new_v4_fresh h : (new_v4 h).1 ∉ issued h;
  utc_now_issued h : issued (utc_now h).2 = issued h;
  dash_iter_issued {V : Type} (m : gmap string V) h : issued (dash_iter m h).2 = issued h;
  write_all_issued f s h : issued (write_all f s h).2.2 = issued h;
  flush_issued f h : issued (flush f h).2.2 = issued h;
  open_lines_issued p h : issued (open_lines p h).2 = issued h;
  open_append_issued p h : issued (open_append p h).2 = issued h }.

(** [serde_json] on a [WalEntry]. *)
Class WalCodec := {
  wal_to_string : WalEntry → Result string string;
  wal_from_str : string → Result WalEntry string }.

(** What is written parses back, and is one non-blank line of text. *)
Class WalCodecLaws `{!WalCodec} : Prop := {
  wal_codec_total e : ∃ s, wal_to_string e = Ok s;
  wal_codec_roundtrip e s : wal_to_string e = Ok s → wal_from_str s = Ok e;
  wal_codec_line e s :
    wal_to_string e = Ok s →
    has_char (Ascii.ascii_of_nat 10) s = false ∧
    has_char (Ascii.ascii_of_nat 13) s = false ∧
    trim_is_empty s = false ∧ valid_utf8 s = true }.

(** What [tokio::fs] guarantees of one log file.  [content p h] is what is stored
    under [p]; a handle is [clean] when none of its writes is still buffered. *)
Class FsLaws `{!Runtime} := {
  content : string → Host → option string;
  file_path : File → string;
  clean : File → Prop;
  (** The results [next_line] yields on a given content. *)
  lines_of : string → list (Result string string);
  open_lines_content p h q : content q (open_lines p h).2 = content q h;
  open_lines_ok p h ls : (open_lines p h).1 = Ok ls → ∃ c, content p h = Some c ∧ ls = lines_of c;
  open_lines_absent p h : content p h = None → ∃ e, (open_lines p h).1 = Err e;
  open_append_ok p h f h' :
    open_append p h = (Ok f, h') →
    file_path f = p ∧ clean f ∧ content p h' = Some (default "" (content p h));
  append_ok f s h f1 h1 f2 h2 :
    clean f → write_all f s h = (Ok tt, (f1, h1)) → flush f1 h1 = (Ok tt, (f2, h2)) →
    content (file_path f) h2 = Some (default "" (content (file_path f) h) +:+ s)%string ∧
    file_path f2 = file_path f ∧ clean f2;
  utc_now_content h q : content q (utc_now h).2 = content q h;
  new_v4_content h q : content q (new_v4 h).2 = content q h;
  dash_iter_content {V : Type} (m : gmap string V) h q :
    content q (dash_iter m h).2 = content q h;
  (** Lines end at a line feed; an unterminated last line is a line too. *)
  lines_of_lines ls tail :
    Forall (λ l, has_char (Ascii.ascii_of_nat 10) l = false ∧
                 has_char (Ascii.ascii_of_nat 13) l = false ∧ valid_utf8 l = true) (ls ++ [tail]) →
    lines_of (foldr (λ l acc, l +:+ newline +:+ acc)%string tail ls)
    = Ok <$> (ls ++ if bool_decide (tail = "") then [] else [tail]) }.

(** A disk on which no call fails. *)
Class ReliableDisk `{RT : !Runtime} `{FL : !FsLaws} : Prop := {
  open_append_reliable p h : ∃ f h', open_append p h = (Ok f, h');
  open_lines_reliable p h c : content p h = Some c → ∃ ls, (open_lines p h).1 = Ok ls;
  write_all_reliable f s h : ∃ f' h', write_all f s h = (Ok tt, (f', h'));
  flush_reliable f h : ∃ f' h', flush f h = (Ok tt, (f', h')) }.
