(* ===== verification/Wal.v ===== *)
(** * The write-ahead log manager ([storage/wal/manager.rs])

    [WalManager] owns an append-mode file.  [append] serialises an entry, writes
    it as one line and flushes; [replay] reads the lines of the file back. *)

From stdpp Require Import prelude base gmap strings list.
From Stdlib Require Import ZArith.
From S2P Require Import Prelude Types Env.
Local Open Scope oxide_scope.

Section wal.
Context `{RT : !Runtime} `{CD : !WalCodec}.

Record WalManager := mkWalManager { wm_file : File }.

(** The calls on the manager's file, with [file] borrowed mutably. *)
Definition on_file (op : File → Host → Result unit string * (File * Host))
  : M (WalManager * Host) (Result unit string) := λ '(mgr, h),
  let '(r, (f, h')) := op (wm_file mgr) h in
  (Ret r, (mkWalManager f, h')).

(** [WalManager::new] *)
Definition wal_new (path : string) : M Host WalManager := λ h,
  match open_append path h with
  | (Ok f, h') => (Ret (mkWalManager f), h')
  | (Err _, h') => (Panic "Failed to open WAL file", h')
  end.

(** [WalManager::append] *)
Definition append (entry : WalEntry) : M (WalManager * Host) (Result unit string) :=
  match wal_to_string entry with
  | Err e => mret (Err e)
  | Ok line =>
    let line := (line +:+ newline)%string in
    _ ←? on_file (λ f, write_all f line);
    _ ←? on_file flush;
    mret (Ok tt)
  end.

(** The loop of [WalManager::replay]: it stops at the end of the file or at the
    first unreadable line, skips blank lines, and fails on a line that does not
    parse. *)
Fixpoint replay_loop (lines : list (Result string string)) (entries : list WalEntry)
  : Result (list WalEntry) string :=
  match lines with
  | [] => Ok entries
  | Err _ :: _ => Ok entries
  | Ok line :: lines' =>
    if trim_is_empty line then replay_loop lines' entries
    else match wal_from_str line with
    | Err e => Err e
    | Ok entry => replay_loop lines' (entries ++ [entry])
    end
  end.

(** [WalManager::replay] *)
Definition replay (path : string) : M Host (Result (list WalEntry) string) := λ h,
  match open_lines path h with
  | (Ok lines, h') => (Ret (replay_loop lines []), h')
  | (Err _, h') => (Ret (Ok []), h')
  end.

Lemma replay_loop_acc lines acc :
  replay_loop lines acc =
  match replay_loop lines [] with Ok es => Ok (acc ++ es) | Err e => Err e end.
Proof.
  revert acc. induction lines as [|[line|e] lines IH]; intros acc; cbn.
  - by rewrite app_nil_r.
  - destruct (trim_is_empty line); [apply IH|].
    destruct (wal_from_str line) as [en|e]; [|done].
    rewrite IH, (IH [en]). destruct (replay_loop lines []); [|done].
    by rewrite <- app_assoc.
  - by rewrite app_nil_r.
Qed.

(** The lines of entries that were written successfully parse back, in order. *)
Lemma replay_loop_written `{!WalCodecLaws} es ls :
  Forall2 (λ e l, wal_to_string e = Ok l) es ls →
  replay_loop (Ok <$> ls) [] = Ok es.
Proof.
  induction 1 as [|e l es ls Hel _ IH]; [done|]. cbn.
  destruct (wal_codec_line e l Hel) as (_ & _ & -> & _).
  rewrite (wal_codec_roundtrip e l Hel). cbn.
  by rewrite replay_loop_acc, IH.
Qed.

(** One line that does not parse makes the whole replay fail. *)
Lemma replay_loop_corrupt `{!WalCodecLaws} es ls bad rest e :
  Forall2 (λ e l, wal_to_string e = Ok l) es ls →
  trim_is_empty bad = false → wal_from_str bad = Err e →
  replay_loop ((Ok <$> ls) ++ Ok bad :: rest) [] = Err e.
Proof.
  intros Hls Hblank Hbad. induction Hls as [|en l es ls Hel _ IH]; cbn.
  - by rewrite Hblank, Hbad.
  - destruct (wal_codec_line en l Hel) as (_ & _ & -> & _).
    rewrite (wal_codec_roundtrip en l Hel). cbn. by rewrite replay_loop_acc, IH.
Qed.
End wal.
