(* ===== verification/Memory.v ===== *)
(** * The in-memory storage ([storage/memory.rs])

    [InMemoryStorage] holds the queues, the in-flight tasks and, in a persistent
    deployment, the write-ahead log.  Each method of the [Storage] trait is a
    computation in the state monad over [Sys], the storage together with its
    host; the trait's [Result]s are values, panics are outcomes. *)

From stdpp Require Import prelude base gmap strings list fin_maps.
From Stdlib Require Import ZArith Lia.
From S2P Require Import Prelude Types Env Wal.
Local Open Scope oxide_scope.

Section memory.
Context `{RT : !Runtime} `{CH : !Chrono} `{CD : !WalCodec}.

(** ** State *)

Record InMemoryStorage := mkStorage {
  queues : gmap string (list QueueItem);
  in_flight : gmap string InFlightTask;
  wal : option WalManager }.

Record Sys := mkSys {
  store : InMemoryStorage;
  host : Host }.

Definition set_queues (f : gmap string (list QueueItem) → gmap string (list QueueItem))
  (s : Sys) : Sys :=
  mkSys (mkStorage (f (queues (store s))) (in_flight (store s)) (wal (store s))) (host s).
Definition set_in_flight (f : gmap string InFlightTask → gmap string InFlightTask)
  (s : Sys) : Sys :=
  mkSys (mkStorage (queues (store s)) (f (in_flight (store s))) (wal (store s))) (host s).

(** [InMemoryStorage::new] (and [Default::default]) *)
Definition storage_new : InMemoryStorage := mkStorage ∅ ∅ None.

(** ** Primitive steps on the maps, the clock and the log *)

Definition get_queue (name : string) : M Sys (option (list QueueItem)) :=
  gets (λ s, queues (store s) !! name).
Definition contains_queue (name : string) : M Sys bool :=
  gets (λ s, bool_decide (is_Some (queues (store s) !! name))).
Definition put_queue (name : string) (q : list QueueItem) : M Sys unit :=
  modify (set_queues (insert name q)).
Definition get_task (id : string) : M Sys (option InFlightTask) :=
  gets (λ s, in_flight (store s) !! id).
Definition put_task (id : string) (t : InFlightTask) : M Sys unit :=
  modify (set_in_flight (insert id t)).
Definition drop_task (id : string) : M Sys unit :=
  modify (set_in_flight (delete id)).

(** A call on the host. *)
Definition on_host {A} (op : Host → A * Host) : M Sys A := λ s,
  let '(a, h) := op (host s) in (Ret a, mkSys (store s) h).
Definition now : M Sys Z := on_host utc_now.
Definition new_uuid : M Sys string := on_host new_v4.
Definition iter_map {V} (get : InMemoryStorage → gmap string V) : M Sys (list (string * V)) :=
  m ← gets (λ s, get (store s)); on_host (dash_iter m).

(** [wal.lock().await.append(&entry).await] on the storage's manager. *)
Definition append_entry (entry : WalEntry) : M Sys (Result unit string) := λ s,
  match wal (store s) with
  | None => (Ret (Ok tt), s)
  | Some mgr =>
    let '(o, (mgr', h')) := append entry (mgr, host s) in
    (o, mkSys (mkStorage (queues (store s)) (in_flight (store s)) (Some mgr')) h')
  end.

(** The block every mutating method has:
    [if let Some(wal) = &self.wal { wal.lock().await.append(&WalEntry{..}).await }] *)
Definition wal_append (op : WalOp) : M Sys (Result unit string) :=
  w ← gets (λ s, wal (store s));
  match w with
  | None => mret (Ok tt)
  | Some _ => n ← now; append_entry (mkWalEntry op (timestamp_millis n))
  end.

(** [u32] addition: a panic with overflow checks, else wrap-around. *)
Definition u32_add (a b : Z) : M Sys Z :=
  if (a + b <? u32_modulus)%Z then mret (a + b)%Z
  else if overflow_checks then panic "attempt to add with overflow"
  else mret ((a + b) mod u32_modulus)%Z.

(** [Vec::with_capacity(count)] panics when the byte size exceeds [isize::MAX]. *)
Definition vec_with_capacity (count elem_size : Z) : M Sys unit :=
  if (isize_max <? count * elem_size)%Z then panic "capacity overflow" else mret tt.
Definition size_of_QueueItem : Z := 32.

(** ** Error messages *)

Definition queue_exists_msg (name : string) : string :=
  ("Queue '" +:+ name +:+ "' already exists")%string.
Definition queue_not_found_msg (name : string) : string :=
  ("Queue '" +:+ name +:+ "' not found")%string.
Definition original_not_found_msg (name : string) : string :=
  ("Original queue '" +:+ name +:+ "' not found")%string.
Definition task_not_found_msg : string := "Task not found".
Definition wal_failed_msg (e : string) : string := ("WAL write failed: " +:+ e)%string.
Definition tasks_not_found_msg (ids : list string) : string :=
  ("Tasks not found: " +:+ String.concat ", " ids)%string.

(** [format!("{}_dlq", name)] and the retry limit of [nack]. *)
Definition dlq_name (name : string) : string := (name +:+ "_dlq")%string.
Definition max_delivery_attempts : Z := 5.

(** ** The methods of [Storage] *)

Definition create_queue (name : string) : M Sys (Result unit string) :=
  exists_ ← contains_queue name;
  if (exists_ : bool) then mret (Err (queue_exists_msg name)) else
  _ ←? wal_append (WCreateQueue name);
  put_queue name [];;
  mret (Ok tt).

(** [self.queues.get_mut(name).ok_or_else(..)?] *)
Definition get_mut_queue (name : string) : M Sys (Result (list QueueItem) string) :=
  q ← get_queue name;
  mret (match q with
        | Some q => Ok q
        | None => Err (queue_not_found_msg name)
        end).

Definition enqueue (queue_name : string) (item : bytes) : M Sys (Result unit string) :=
  exists_ ← contains_queue queue_name;
  if negb exists_ then mret (Err (queue_not_found_msg queue_name)) else
  _ ←? wal_append (WEnqueue queue_name item);
  q ←? get_mut_queue queue_name;
  put_queue queue_name (q ++ [mkQueueItem item 0]);;
  mret (Ok tt).

(** The literal [InFlightTask { id, data, consumed_at: Utc::now(), queue_name,
    delivery_attempts: item.delivery_attempts + 1 }]. *)
Definition make_task (id : string) (item : QueueItem) (queue_name : string)
  : M Sys InFlightTask :=
  n ← now;
  attempts ← u32_add (qi_attempts item) 1;
  mret (mkTask id (qi_data item) n queue_name attempts).

Definition dequeue (queue_name : string) : M Sys (Result (option InFlightTask) string) :=
  q ←? get_mut_queue queue_name;
  match q with
  | [] => mret (Ok None)
  | item :: rest =>
    put_queue queue_name rest;;
    task_id ← new_uuid;
    logged ← wal_append (WDequeued queue_name task_id);
    match logged with
    | Err e =>
      put_queue queue_name (item :: rest);;
      mret (Err e)
    | Ok _ =>
      task ← make_task task_id item queue_name;
      put_task (t_id task) task;;
      mret (Ok (Some task))
    end
  end.

Definition ack (task_id : string) : M Sys (Result unit string) :=
  t ← get_task task_id;
  match t with
  | None => mret (Err task_not_found_msg)
  | Some _ =>
    drop_task task_id;;
    logged ← wal_append (WAck task_id);
    match logged with
    | Err e => mret (Err (wal_failed_msg e))
    | Ok _ => mret (Ok tt)
    end
  end.

(** The second half of [nack]: back to the queue, or to the dead letter queue. *)
Definition requeue (task : InFlightTask) : M Sys (Result unit string) :=
  let item := mkQueueItem (t_data task) (t_attempts task) in
  if (max_delivery_attempts <=? t_attempts task)%Z then
    let dlq := dlq_name (t_queue_name task) in
    q ← get_queue dlq;
    put_queue dlq (default [] q ++ [item]);;
    mret (Ok tt)
  else
    q ← get_queue (t_queue_name task);
    match q with
    | Some q => put_queue (t_queue_name task) (item :: q);; mret (Ok tt)
    | None => mret (Err (original_not_found_msg (t_queue_name task)))
    end.

Definition nack (task_id : string) : M Sys (Result unit string) :=
  t ← get_task task_id;
  match t with
  | None => mret (Err task_not_found_msg)
  | Some task =>
    drop_task task_id;;
    logged ← wal_append (WNack task_id);
    match logged with
    | Err e =>
      put_task task_id task;;
      mret (Err (wal_failed_msg e))
    | Ok _ => requeue task
    end
  end.

Definition set_consumed_at (n : Z) (t : InFlightTask) : InFlightTask :=
  mkTask (t_id t) (t_data t) n (t_queue_name t) (t_attempts t).

Definition extend_visibility (task_id : string) (duration_seconds : Z)
  : M Sys (Result unit string) :=
  t ← get_task task_id;
  match t with
  | None => mret (Err task_not_found_msg)
  | Some task =>
    _ ←? wal_append (WExtendVisibility task_id duration_seconds);
    n ← now;
    put_task task_id (set_consumed_at n task);;
    mret (Ok tt)
  end.

(** [now.signed_duration_since(task.consumed_at) > timeout] *)
Definition expired (n timeout : Z) (t : InFlightTask) : bool :=
  (timeout <? signed_duration_since n (t_consumed_at t))%Z.

Definition scan_expired_tasks (timeout_seconds : Z) : M Sys (list string) :=
  n ← now;
  match duration_seconds (u64_as_i64 timeout_seconds) with
  | None => panic "TimeDelta::seconds out of bounds"
  | Some timeout =>
    entries ← iter_map in_flight;
    mret (filter (λ kv, expired n timeout kv.2 = true) entries).*1
  end.

(** The loop of [cleanup_expired_tasks]: [nack] each id, count the successes. *)
Fixpoint nack_all (ids : list string) (count : Z) : M Sys Z :=
  match ids with
  | [] => mret count
  | id :: ids' =>
    r ← nack id;
    nack_all ids' (match r with Ok _ => count + 1 | Err _ => count end)%Z
  end.

Definition cleanup_expired_tasks (timeout_seconds : Z) : M Sys (Result Z string) :=
  expired_ids ← scan_expired_tasks timeout_seconds;
  count ← nack_all expired_ids 0;
  mret (Ok count).

(** The JSON object [get_stats] builds: the total, and per queue the pending and
    in-flight counts. *)
Record QueueStats := mkQueueStats { pending_count : nat; in_flight_count : nat }.
Record Stats := mkStats { total_in_flight : nat; queue_stats : gmap string QueueStats }.

Fixpoint collect_stats (rs : list (string * list QueueItem)) (acc : gmap string QueueStats)
  : M Sys (gmap string QueueStats) :=
  match rs with
  | [] => mret acc
  | (name, queue) :: rs' =>
    tasks ← iter_map in_flight;
    let n := length (filter (λ kv : string * InFlightTask, t_queue_name kv.2 = name) tasks) in
    collect_stats rs' (<[name := mkQueueStats (length queue) n]> acc)
  end.

Definition get_stats : M Sys (Result Stats string) :=
  total ← gets (λ s, size (in_flight (store s)));
  rs ← iter_map queues;
  stats ← collect_stats rs ∅;
  mret (Ok (mkStats total stats)).

Definition queue_batch (queue_name : string) (items : list bytes)
  : M Sys (Result unit string) :=
  exists_ ← contains_queue queue_name;
  if negb exists_ then mret (Err (queue_not_found_msg queue_name)) else
  _ ←? wal_append (WEnqueueBatch queue_name items);
  q ←? get_mut_queue queue_name;
  put_queue queue_name (foldl (λ q d, q ++ [mkQueueItem d 0]) q items);;
  mret (Ok tt).

(** [for _ in 0..count { if let Some(item) = queue.pop_front() { .. } else { break } }] *)
Fixpoint pop_upto (count : Z) (q : list QueueItem) : list QueueItem * list QueueItem :=
  match q with
  | [] => ([], [])
  | item :: q' =>
    if (count <=? 0)%Z then ([], q)
    else let '(popped, rest) := pop_upto (count - 1) q' in (item :: popped, rest)
  end.

Fixpoint new_uuids (n : nat) : M Sys (list string) :=
  match n with
  | O => mret []
  | S n' => id ← new_uuid; ids ← new_uuids n'; mret (id :: ids)
  end.

(** [for (i, item) in popped_items.into_iter().enumerate() { .. }]; indexing out
    of range panics. *)
Fixpoint make_tasks (queue_name : string) (task_ids : list string) (i : nat)
  (items : list QueueItem) : M Sys (list InFlightTask) :=
  match items with
  | [] => mret []
  | item :: items' =>
    match task_ids !! i with
    | None => panic "index out of bounds"
    | Some task_id =>
      task ← make_task task_id item queue_name;
      put_task task_id task;;
      tasks ← make_tasks queue_name task_ids (S i) items';
      mret (task :: tasks)
    end
  end.

Definition dequeue_batch (queue_name : string) (count : Z)
  : M Sys (Result (list InFlightTask) string) :=
  q ←? get_mut_queue queue_name;
  if bool_decide (q = []) then mret (Ok []) else
  vec_with_capacity count size_of_QueueItem;;
  let '(popped_items, rest) := pop_upto count q in
  put_queue queue_name rest;;
  if bool_decide (popped_items = []) then mret (Ok []) else
  task_ids ← new_uuids (length popped_items);
  logged ← wal_append (WDequeuedBatch queue_name task_ids);
  match logged with
  | Err e =>
    put_queue queue_name (foldl (λ q item, item :: q) rest (rev popped_items));;
    mret (Err e)
  | Ok _ =>
    tasks ← make_tasks queue_name task_ids 0 popped_items;
    mret (Ok tasks)
  end.

Definition ack_batch (task_ids : list string) : M Sys (Result unit string) :=
  missing_ids ← gets (λ s,
    filter (λ id, in_flight (store s) !! id = None) task_ids);
  if bool_decide (missing_ids ≠ []) then mret (Err (tasks_not_found_msg missing_ids)) else
  _ ←? wal_append (WAckBatch task_ids);
  for_each drop_task task_ids;;
  mret (Ok tt).

(** ** Snapshots *)

(** [get_snapshot_data]: both maps collected into [HashMap]s. *)
Definition get_snapshot_data
  : M Sys (gmap string (list QueueItem) * gmap string InFlightTask) :=
  qs ← iter_map queues;
  ts ← iter_map in_flight;
  mret (list_to_map qs, list_to_map ts).

(** [restore_from_snapshot]: clear each map, then insert every entry. *)
Definition restore_from_snapshot (qs : gmap string (list QueueItem))
  (ts : gmap string InFlightTask) : M Sys unit :=
  modify (set_queues (λ _, ∅));;
  for_each (λ '(k, v), put_queue k v) (map_to_list qs);;
  modify (set_in_flight (λ _, ∅));;
  for_each (λ '(k, v), put_task k v) (map_to_list ts).
End memory.
