(* ===== verification/Spec.v ===== *)
(** * What the storage promises

    The abstract queue service: queues of items and a map of in-flight tasks,
    with no log, no clock and no iteration order.  [spec_step persistent req a
    resp a'] says which response and which next state a request may have.  With
    [persistent = false] the rules leave no freedom but the identifiers and the
    instants; a persistent storage may also fail to log. *)

From stdpp Require Import prelude base gmap strings list fin_maps.
From Stdlib Require Import ZArith Lia.
From S2P Require Import Prelude Types Env Wal Memory.

(** ** The abstract service *)

Record AState := mkAState {
  a_queues : gmap string (list QueueItem);
  a_tasks : gmap string InFlightTask }.

Definition a_set_queue (name : string) (q : list QueueItem) (a : AState) : AState :=
  mkAState (<[name := q]> (a_queues a)) (a_tasks a).
Definition a_set_task (id : string) (t : InFlightTask) (a : AState) : AState :=
  mkAState (a_queues a) (<[id := t]> (a_tasks a)).
Definition a_del_task (id : string) (a : AState) : AState :=
  mkAState (a_queues a) (delete id (a_tasks a)).
Definition a_del_tasks (ids : list string) (a : AState) : AState :=
  foldl (λ a id, a_del_task id a) a ids.
Definition a_set_tasks (ts : list InFlightTask) (a : AState) : AState :=
  foldl (λ a t, a_set_task (t_id t) t a) a ts.

(** The delivery count after one more delivery, at [u32] width. *)
Definition next_attempt (n : Z) : Z :=
  if (n + 1 <? u32_modulus)%Z then (n + 1)%Z else ((n + 1) mod u32_modulus)%Z.

(** [t] is a delivery of [item] from queue [name]. *)
Definition delivery (name : string) (item : QueueItem) (t : InFlightTask) : Prop :=
  t_data t = qi_data item ∧ t_queue_name t = name ∧
  t_attempts t = next_attempt (qi_attempts item).

(** The tasks carry identifiers no in-flight task has, pairwise distinct. *)
Definition fresh_tasks (ts : list InFlightTask) (a : AState) : Prop :=
  NoDup (t_id <$> ts) ∧ Forall (λ t, a_tasks a !! t_id t = None) ts.

Definition item_of (t : InFlightTask) : QueueItem := mkQueueItem (t_data t) (t_attempts t).

Inductive spec_step (persistent : bool) : ClientRequest → AState → ClientResponse → AState → Prop :=
| S_create a name :
    a_queues a !! name = None →
    spec_step persistent (RCreateQueue name) a ROk (a_set_queue name [] a)
| S_create_exists a name :
    is_Some (a_queues a !! name) →
    spec_step persistent (RCreateQueue name) a (RErr (queue_exists_msg name)) a
| S_enqueue a name data q :
    a_queues a !! name = Some q →
    spec_step persistent (REnqueue name data) a ROk
      (a_set_queue name (q ++ [mkQueueItem data 0]) a)
| S_enqueue_missing a name data :
    a_queues a !! name = None →
    spec_step persistent (REnqueue name data) a (RErr (queue_not_found_msg name)) a
| S_dequeue a name item rest t :
    a_queues a !! name = Some (item :: rest) →
    delivery name item t → fresh_tasks [t] a →
    spec_step persistent (RDequeue name) a (RTask (Some t))
      (a_set_task (t_id t) t (a_set_queue name rest a))
| S_dequeue_empty a name :
    a_queues a !! name = Some [] →
    spec_step persistent (RDequeue name) a (RTask None) a
| S_dequeue_missing a name :
    a_queues a !! name = None →
    spec_step persistent (RDequeue name) a (RErr (queue_not_found_msg name)) a
| S_ack a id t :
    a_tasks a !! id = Some t →
    spec_step persistent (RAck id) a ROk (a_del_task id a)
| S_ack_missing a id :
    a_tasks a !! id = None →
    spec_step persistent (RAck id) a (RErr task_not_found_msg) a
| S_ack_unlogged a id t e :
    persistent = true → a_tasks a !! id = Some t →
    spec_step persistent (RAck id) a (RErr (wal_failed_msg e)) (a_del_task id a)
| S_nack_retry a id t q :
    a_tasks a !! id = Some t → (t_attempts t < max_delivery_attempts)%Z →
    a_queues a !! t_queue_name t = Some q →
    spec_step persistent (RNack id) a ROk
      (a_set_queue (t_queue_name t) (item_of t :: q) (a_del_task id a))
| S_nack_dead a id t :
    a_tasks a !! id = Some t → (max_delivery_attempts ≤ t_attempts t)%Z →
    spec_step persistent (RNack id) a ROk
      (a_set_queue (dlq_name (t_queue_name t))
         (default [] (a_queues a !! dlq_name (t_queue_name t)) ++ [item_of t])
         (a_del_task id a))
| S_nack_orphan a id t :
    a_tasks a !! id = Some t → (t_attempts t < max_delivery_attempts)%Z →
    a_queues a !! t_queue_name t = None →
    spec_step persistent (RNack id) a (RErr (original_not_found_msg (t_queue_name t)))
      (a_del_task id a)
| S_nack_missing a id :
    a_tasks a !! id = None →
    spec_step persistent (RNack id) a (RErr task_not_found_msg) a
| S_extend a id t d n :
    a_tasks a !! id = Some t →
    spec_step persistent (RExtendVisibility id d) a ROk (a_set_task id (set_consumed_at n t) a)
| S_extend_missing a id d :
    a_tasks a !! id = None →
    spec_step persistent (RExtendVisibility id d) a (RErr task_not_found_msg) a
| S_enqueue_batch a name data q :
    a_queues a !! name = Some q →
    spec_step persistent (REnqueueBatch name data) a ROk
      (a_set_queue name (q ++ ((λ d, mkQueueItem d 0) <$> data)) a)
| S_enqueue_batch_missing a name data :
    a_queues a !! name = None →
    spec_step persistent (REnqueueBatch name data) a (RErr (queue_not_found_msg name)) a
| S_dequeue_batch a name count q ts :
    a_queues a !! name = Some q →
    Forall2 (delivery name) (take (Z.to_nat count) q) ts → fresh_tasks ts a →
    spec_step persistent (RDequeueBatch name count) a (RTasks ts)
      (a_set_tasks ts (a_set_queue name (drop (Z.to_nat count) q) a))
| S_dequeue_batch_missing a name count :
    a_queues a !! name = None →
    spec_step persistent (RDequeueBatch name count) a (RErr (queue_not_found_msg name)) a
| S_ack_batch a ids :
    Forall (λ id, is_Some (a_tasks a !! id)) ids →
    spec_step persistent (RAckBatch ids) a ROk (a_del_tasks ids a)
| S_ack_batch_missing a ids missing :
    missing ≠ [] → missing = filter (λ id, a_tasks a !! id = None) ids →
    spec_step persistent (RAckBatch ids) a (RErr (tasks_not_found_msg missing)) a
| S_unlogged a req e :
    persistent = true → (∀ id, req ≠ RAck id) →
    spec_step persistent req a (RErr e) a.

(** A session: requests answered one after the other. *)
Inductive spec_run (persistent : bool) :
  list ClientRequest → AState → list ClientResponse → AState → Prop :=
| R_nil a : spec_run persistent [] a [] a
| R_cons req reqs a resp a1 resps a2 :
    spec_step persistent req a resp a1 → spec_run persistent reqs a1 resps a2 →
    spec_run persistent (req :: reqs) a (resp :: resps) a2.

(** Without a log the step of a delivering or returning command is determined. *)
Lemma spec_dequeue_inv a name item rest resp a' :
  spec_step false (RDequeue name) a resp a' → a_queues a !! name = Some (item :: rest) →
  ∃ t, resp = RTask (Some t) ∧ delivery name item t ∧ fresh_tasks [t] a ∧
       a' = a_set_task (t_id t) t (a_set_queue name rest a).
Proof. intros Hs Hq. inversion Hs; simplify_eq; eauto 10. Qed.

Lemma spec_dequeue_batch_inv a name count q resp a' :
  spec_step false (RDequeueBatch name count) a resp a' → a_queues a !! name = Some q →
  ∃ ts, resp = RTasks ts ∧ Forall2 (delivery name) (take (Z.to_nat count) q) ts ∧
        fresh_tasks ts a ∧
        a' = a_set_tasks ts (a_set_queue name (drop (Z.to_nat count) q) a).
Proof. intros Hs Hq. inversion Hs; simplify_eq; eauto 10. Qed.

Lemma spec_nack_inv a id t q resp a' :
  spec_step false (RNack id) a resp a' →
  a_tasks a !! id = Some t → a_queues a !! t_queue_name t = Some q →
  resp = ROk ∧
  a' = if (max_delivery_attempts <=? t_attempts t)%Z
       then a_set_queue (dlq_name (t_queue_name t))
              (default [] (a_queues a !! dlq_name (t_queue_name t)) ++ [item_of t])
              (a_del_task id a)
       else a_set_queue (t_queue_name t) (item_of t :: q) (a_del_task id a).
Proof.
  intros Hs Ht Hq. inversion Hs; simplify_eq; split; try done.
  - by rewrite (proj2 (Z.leb_gt _ _)) by lia.
  - by rewrite (proj2 (Z.leb_le _ _)) by lia.
Qed.

(** The items a batch enqueue adds. *)
Definition new_items (ds : list bytes) : list QueueItem := (λ d, mkQueueItem d 0) <$> ds.

Lemma spec_enqueue_batch_inv a name ds q resp a' :
  spec_step false (REnqueueBatch name ds) a resp a' → a_queues a !! name = Some q →
  resp = ROk ∧ a' = a_set_queue name (q ++ new_items ds) a.
Proof. intros Hs Hq. by inversion Hs; simplify_eq. Qed.
