(* ===== verification/Commands.v ===== *)
(** * Applying a command to the storage

    The dispatch of [CombinedStorage::apply_to_state_machine] on a
    [ClientRequest]: each arm calls one method of the storage and wraps its
    result in a [ClientResponse]. *)

From stdpp Require Import prelude base gmap strings list fin_maps.
From Stdlib Require Import ZArith.
From S2P Require Import Prelude Types Env Wal Memory.

Section commands.
Context `{RT : !Runtime} `{CH : !Chrono} `{CD : !WalCodec}.

(** [match r { Ok(_) => ClientResponse::Ok, Err(e) => ClientResponse::Err(e) }] *)
Definition unit_response (r : Result unit string) : ClientResponse :=
  match r with Ok _ => ROk | Err e => RErr e end.

Definition apply_request (req : ClientRequest) : M Sys ClientResponse :=
  match req with
  | RCreateQueue name => r ← create_queue name; mret (unit_response r)
  | REnqueue queue data => r ← enqueue queue data; mret (unit_response r)
  | RDequeue queue =>
    r ← dequeue queue; mret (match r with Ok task => RTask task | Err e => RErr e end)
  | RAck task_id => r ← ack task_id; mret (unit_response r)
  | RNack task_id => r ← nack task_id; mret (unit_response r)
  | RExtendVisibility task_id duration_seconds =>
    r ← extend_visibility task_id duration_seconds; mret (unit_response r)
  | REnqueueBatch queue data => r ← queue_batch queue data; mret (unit_response r)
  | RDequeueBatch queue count =>
    r ← dequeue_batch queue count;
    mret (match r with Ok tasks => RTasks tasks | Err e => RErr e end)
  | RAckBatch task_ids => r ← ack_batch task_ids; mret (unit_response r)
  end.

(** A client session: commands applied one after the other. *)
Fixpoint apply_requests (reqs : list ClientRequest) : M Sys (list ClientResponse) :=
  match reqs with
  | [] => mret []
  | req :: reqs' =>
    resp ← apply_request req;
    resps ← apply_requests reqs';
    mret (resp :: resps)
  end.
End commands.
