(* ===== verification/Refinement.v ===== *)
(** * The storage implements the abstract service

    Frame lemmas for the primitive steps, then one simulation lemma per method:
    whatever the host does, a call that returns is a step of [Spec.spec_step], and a
    step without the rules for a refusing log where the log refuses nothing. *)

From stdpp Require Import prelude base gmap strings list fin_maps.
From Stdlib Require Import ZArith Lia.
From S2P Require Import Prelude Types Env Wal Memory Spec Commands.
Set Warnings "-clear-no-such-hyp".
Local Open Scope oxide_scope.

Section refinement.
Context `{RT : !Runtime} `{CH : !Chrono} `{CD : !WalCodec}.

(** The abstraction function. *)
Definition abs (s : Sys) : AState := mkAState (queues (store s)) (in_flight (store s)).
Definition persistent (s : Sys) : bool := bool_decide (is_Some (wal (store s))).

Context `{UL : !UuidLaws}.

(** Steps that leave the two maps and the identifiers alone. *)
Definition quiet (s s' : Sys) : Prop :=
  abs s' = abs s ∧ persistent s' = persistent s ∧ issued (host s') = issued (host s).

#[export] Instance quiet_preorder : PreOrder quiet.
Proof. split; [done|]. intros s1 s2 s3 (?&?&?) (?&?&?). split_and!; congruence. Qed.

Lemma append_returns entry mgr h :
  ∃ r mgr' h', append entry (mgr, h) = (Ret r, (mgr', h')) ∧ issued h' = issued h.
Proof.
  unfold append. destruct (wal_to_string entry) as [line|e]; [|by eexists _, _, _].
  unfold try_bind, mbind, M_bind, on_file.
  pose proof (write_all_issued (wm_file mgr) (line +:+ newline)%string h) as Hi1.
  destruct (write_all _ _ _) as [[[]|e] [f h1]]; cbn in Hi1; [|by eexists _, _, _]. cbn.
  pose proof (flush_issued f h1) as Hi2.
  destruct (flush _ _) as [[[]|e] [f' h2]]; cbn in Hi2; eexists _, _, _; split; done || congruence.
Qed.

Lemma append_entry_returns entry s :
  ∃ r s', append_entry entry s = (Ret r, s') ∧ quiet s s'.
Proof.
  unfold append_entry. destruct (wal (store s)) as [mgr|] eqn:Hw; [|by eexists _, _].
  destruct (append_returns entry mgr (host s)) as (r & mgr' & h' & -> & Hi).
  eexists _, _. split; [done|]. split; [done|].
  split; [|done]. unfold persistent. cbn. by rewrite Hw.
Qed.

Lemma now_returns s : ∃ n s', now s = (Ret n, s') ∧ quiet s s'.
Proof.
  unfold now, on_host. pose proof (utc_now_issued (host s)) as Hi.
  destruct (utc_now _) as [n h]. by eexists _, _.
Qed.

Lemma wal_append_returns op s :
  ∃ r s', wal_append op s = (Ret r, s') ∧ quiet s s' ∧
          (persistent s = false → r = Ok tt).
Proof.
  unfold wal_append. rewrite bind_gets.
  unfold persistent. case_bool_decide as Hp.
  - destruct Hp as [mgr Hw]. rewrite Hw.
    destruct (now_returns s) as (n & s1 & Hn & Hq1).
    destruct (append_entry_returns (mkWalEntry op (timestamp_millis n)) s1)
      as (r & s2 & Ha & Hq2).
    exists r, s2. erewrite bind_step by exact Hn. split; [done|].
    split; [by etrans|done].
  - destruct (wal (store s)); [by destruct Hp; eexists|]. by eexists _, _.
Qed.

Lemma wal_append_quiet op s r s' :
  wal_append op s = (Ret r, s') → quiet s s' ∧ (persistent s = false → r = Ok tt).
Proof.
  destruct (wal_append_returns op s) as (r1 & s1 & -> & ? & ?). by intros [= <- <-].
Qed.

Lemma now_quiet s n s' : now s = (Ret n, s') → quiet s s'.
Proof. destruct (now_returns s) as (n1 & s1 & -> & ?). by intros [= <- <-]. Qed.

Lemma iter_map_quiet {V} (get : InMemoryStorage → gmap string V) s l s' :
  iter_map get s = (Ret l, s') → quiet s s'.
Proof.
  unfold iter_map. rewrite bind_gets. unfold on_host.
  pose proof (dash_iter_issued (get (store s)) (host s)) as Hi.
  destruct (dash_iter _ _). by intros [= <- <-].
Qed.

(** ** Logs that take what is written

    A set of states that the steps of the program keep and in which, unless [f],
    the log refuses no entry: [f] is whether a theorem has to reckon with refusals.
    A node without a log is in such a set with [f = false], and so is a node whose
    log lies on a disk without faults ([Durability.logged_mode]). *)
Class LogMode (f : bool) (ok : Sys → Prop) : Prop := {
  mode_append op s r s' : ok s → wal_append op s = (Ret r, s') → ok s' ∧ (f = false → r = Ok tt);
  mode_now s n s' : ok s → now s = (Ret n, s') → ok s';
  mode_uuid s id s' : ok s → new_uuid s = (Ret id, s') → ok s';
  mode_iter {V} (get : InMemoryStorage → gmap string V) s l s' :
    ok s → iter_map get s = (Ret l, s') → ok s';
  mode_queues g s : ok s → ok (set_queues g s);
  mode_in_flight g s : ok s → ok (set_in_flight g s) }.

(** Drawing identifiers: each is new. *)
Lemma new_uuid_Ret s id s' :
  new_uuid s = (Ret id, s') →
  abs s' = abs s ∧ persistent s' = persistent s ∧
  (id ∉ issued (host s)) ∧ issued (host s') = {[id]} ∪ issued (host s).
Proof.
  unfold new_uuid, on_host.
  pose proof (new_v4_fresh (host s)). pose proof (new_v4_issued (host s)).
  destruct (new_v4 _) as [i h]. by intros [= <- <-].
Qed.

(** Whether a node has a log never changes, and no log refuses nothing. *)
#[export] Instance persistent_mode f : LogMode f (λ s, persistent s = f).
Proof.
  constructor; try done.
  - intros op s r s' <- ((_ & Hp & _) & Hr)%wal_append_quiet. by rewrite <- Hp in Hr |- *.
  - by intros s n s' <- (_ & Hp & _)%now_quiet.
  - by intros s id s' <- (_ & Hp & _)%new_uuid_Ret.
  - by intros V get s l s' <- (_ & Hp & _)%iter_map_quiet.
Qed.

(** Any log, when refusals are reckoned with. *)
Lemma any_mode : LogMode true (λ _, True).
Proof. by constructor. Qed.

Lemma new_uuids_Ret n s ids s' :
  new_uuids n s = (Ret ids, s') →
  abs s' = abs s ∧ persistent s' = persistent s ∧ length ids = n ∧ NoDup ids ∧
  Forall (λ id, id ∉ issued (host s)) ids ∧
  issued (host s') = list_to_set ids ∪ issued (host s).
Proof.
  revert s ids s'. induction n as [|n IH]; intros s ids s' H; cbn in H; minv.
  - split_and!; [done|done|done|apply NoDup_nil_2|apply Forall_nil_2|set_solver].
  - match goal with H : new_uuid _ = _ |- _ =>
      apply new_uuid_Ret in H as (Habs & Hp & Hnew & Hi) end.
    match goal with H : new_uuids _ _ = _ |- _ =>
      apply IH in H as (Habs' & Hp' & Hlen & Hnd & Hall & Hi') end.
    rewrite Hi in Hi'. rewrite Hi in Hall. cbn.
    split_and!; try congruence.
    + constructor; [|done]. intros Hin. rewrite Forall_forall in Hall.
      specialize (Hall _ Hin). set_solver.
    + constructor; [done|]. eapply Forall_impl; [exact Hall|]. set_solver.
    + rewrite Hi'. set_solver.
Qed.

Lemma mode_uuids `{LM : !LogMode f ok} n s ids s' : ok s → new_uuids n s = (Ret ids, s') → ok s'.
Proof.
  revert s ids. induction n as [|n IH]; intros s ids Hok H; cbn in H; minv; [done|].
  eapply IH; [|done]. by eapply mode_uuid.
Qed.

Lemma u32_add_Ret n s r s' :
  u32_add n 1 s = (Ret r, s') → r = next_attempt n ∧ s' = s.
Proof.
  unfold u32_add, next_attempt. intros H. destruct (n + 1 <? u32_modulus)%Z; [by minv|].
  by destruct overflow_checks; minv.
Qed.

Lemma make_task_Ret id item name s t s' :
  make_task id item name s = (Ret t, s') → quiet s s' ∧ t_id t = id ∧ delivery name item t.
Proof.
  unfold make_task. intros H. minv.
  match goal with H : u32_add _ _ _ = _ |- _ => apply u32_add_Ret in H as [-> ->] end.
  split; [by eapply now_quiet | done].
Qed.

End refinement.

(** ** Simulation, method by method *)

(** Follow the states of a [LogMode], where there is one. *)
Ltac mode_ok :=
  lazymatch goal with
  | |- _ (set_queues _ _) => apply mode_queues; mode_ok
  | |- _ (set_in_flight _ _) => apply mode_in_flight; mode_ok
  | |- _ => assumption
  end.
Ltac track :=
  try match goal with
  | _ : LogMode ?f ?ok |- _ =>
    let ask s' tac := (lazymatch goal with _ : ok s' |- _ => fail | _ => tac end) in
    repeat match goal with
    | H : wal_append _ ?s = (Ret ?r, ?s') |- _ =>
      ask s' ltac:(destruct (mode_append (f := f) (ok := ok) _ s r s' ltac:(mode_ok) H))
    | H : now ?s = (Ret ?n, ?s') |- _ =>
      ask s' ltac:(pose proof (mode_now (f := f) (ok := ok) s n s' ltac:(mode_ok) H))
    | H : new_uuid ?s = (Ret ?n, ?s') |- _ =>
      ask s' ltac:(pose proof (mode_uuid (f := f) (ok := ok) s n s' ltac:(mode_ok) H))
    | H : new_uuids ?n ?s = (Ret ?ids, ?s') |- _ =>
      ask s' ltac:(pose proof (mode_uuids (f := f) (ok := ok) n s ids s' ltac:(mode_ok) H))
    end
  end.

(** Replace what a quiet step returned by what it says about [abs]. *)
Ltac quieten :=
  track;
  repeat match goal with
  | H : wal_append _ _ = (Ret _, _) |- _ =>
    apply wal_append_quiet in H; destruct H as [(? & ? & ?) ?]
  | H : now _ = (Ret _, _) |- _ => apply now_quiet in H; destruct H as (? & ? & ?)
  | H : iter_map _ _ = (Ret _, _) |- _ => apply iter_map_quiet in H; destruct H as (? & ? & ?)
  end.

(** Updating a map touches neither the log nor the host. *)
Ltac simpl_sets :=
  repeat match goal with
  | H : context [persistent (set_queues ?f ?s)] |- _ =>
    change (persistent (set_queues f s)) with (persistent s) in H
  | H : context [persistent (set_in_flight ?f ?s)] |- _ =>
    change (persistent (set_in_flight f s)) with (persistent s) in H
  | H : context [host (set_queues ?f ?s)] |- _ =>
    change (host (set_queues f s)) with (host s) in H
  | H : context [host (set_in_flight ?f ?s)] |- _ =>
    change (host (set_in_flight f s)) with (host s) in H
  end.

(** Run a method backwards down to its primitive steps. *)
Ltac run H :=
  unfold get_mut_queue, get_queue, contains_queue, put_queue, get_task, put_task, drop_task in H;
  minv; quieten; simpl_sets.

Section sims.
Context `{RT : !Runtime} `{CH : !Chrono} `{CD : !WalCodec} `{UL : !UuidLaws}.

(** Every in-flight identifier was drawn from the generator. *)
Definition ids_issued (s : Sys) : Prop :=
  ∀ id, is_Some (a_tasks (abs s) !! id) → id ∈ issued (host s).

(** A log that refused an entry may refuse entries. *)
Lemma log_refused (f : bool) (e : string) : (f = false → Err e = Ok tt) → f = true.
Proof. intros H. destruct f; [done|]. discriminate (H eq_refl). Qed.

End sims.

Ltac refused_here := eapply log_refused; eassumption.

(** The branch where the log refused the entry and the state is as before. *)
Ltac unlogged :=
  cbn [unit_response]; apply S_unlogged; [refused_here | by intros].

(** Present the maps of a concrete state as those of its abstraction. *)
Ltac abstract_maps :=
  repeat match goal with
  | H : context [queues (store ?s)] |- _ =>
    change (queues (store s)) with (a_queues (abs s)) in H
  | H : context [in_flight (store ?s)] |- _ =>
    change (in_flight (store s)) with (a_tasks (abs s)) in H
  | |- context [queues (store ?s)] =>
    change (queues (store s)) with (a_queues (abs s))
  | |- context [in_flight (store ?s)] =>
    change (in_flight (store s)) with (a_tasks (abs s))
  | |- context [abs (set_queues (insert ?n ?q) ?s)] =>
    change (abs (set_queues (insert n q) s)) with (a_set_queue n q (abs s))
  | |- context [abs (set_in_flight (insert ?i ?t) ?s)] =>
    change (abs (set_in_flight (insert i t) s)) with (a_set_task i t (abs s))
  | |- context [abs (set_in_flight (delete ?i) ?s)] =>
    change (abs (set_in_flight (delete i) s)) with (a_del_task i (abs s))
  | E : abs ?s' = _ |- context [abs ?s'] => rewrite E
  | E : abs ?s' = _, H : context [abs ?s'] |- _ =>
    lazymatch type of H with abs s' = _ => fail | _ => rewrite E in H end
  end.

Section methods.
Context `{RT : !Runtime} `{CH : !Chrono} `{CD : !WalCodec} `{UL : !UuidLaws} {f : bool} {ok : Sys → Prop} `{LM : !LogMode f ok}.

Lemma create_queue_sim name s r s' :
  ok s → create_queue name s = (Ret r, s') →
  spec_step f (RCreateQueue name) (abs s) (unit_response r) (abs s').
Proof.
  unfold create_queue. intros Hok H. run H.
  case_bool_decide as Hq; run H.
  - by apply S_create_exists.
  - abstract_maps. unlogged.
  - abstract_maps. apply S_create. by apply eq_None_not_Some.
Qed.

Lemma enqueue_sim name data s r s' :
  ok s → enqueue name data s = (Ret r, s') →
  spec_step f (REnqueue name data) (abs s) (unit_response r) (abs s').
Proof.
  unfold enqueue. intros Hok H. run H.
  case_bool_decide as Hq; cbn in H; run H.
  - abstract_maps. unlogged.
  - abstract_maps. destruct (a_queues (abs s) !! name); [done|]. by destruct Hq.
  - abstract_maps. destruct (a_queues (abs s) !! name) eqn:Hl; [|done]. minv.
    by apply S_enqueue.
  - apply S_enqueue_missing. by apply eq_None_not_Some.
Qed.

Lemma queue_batch_foldl items q :
  foldl (λ q d, q ++ [mkQueueItem d 0]) q items = q ++ ((λ d, mkQueueItem d 0) <$> items).
Proof.
  revert q. induction items as [|d items IH]; intros q; cbn; [by rewrite app_nil_r|].
  by rewrite IH, <- app_assoc.
Qed.

Lemma queue_batch_sim name items s r s' :
  ok s → queue_batch name items s = (Ret r, s') →
  spec_step f (REnqueueBatch name items) (abs s) (unit_response r) (abs s').
Proof.
  unfold queue_batch. intros Hok H. run H.
  case_bool_decide as Hq; cbn in H; run H.
  - abstract_maps. unlogged.
  - abstract_maps. destruct (a_queues (abs s) !! name); [done|]. by destruct Hq.
  - abstract_maps. destruct (a_queues (abs s) !! name) eqn:Hl; [|done]. minv.
    rewrite queue_batch_foldl. by apply S_enqueue_batch.
  - apply S_enqueue_batch_missing. by apply eq_None_not_Some.
Qed.

Lemma ack_sim id s r s' :
  ok s → ack id s = (Ret r, s') →
  spec_step f (RAck id) (abs s) (unit_response r) (abs s').
Proof.
  unfold ack. intros Hok H. run H.
  destruct (in_flight (store s) !! id) as [t|] eqn:Ht; run H; [|by apply S_ack_missing].
  case_match; run H; abstract_maps.
  - by eapply S_ack.
  - eapply S_ack_unlogged; [refused_here|done].
Qed.

Lemma requeue_sim id t s r s' :
  ok s → requeue t s = (Ret r, s') →
  ∀ a, abs s = a_del_task id a → a_tasks a !! id = Some t →
  spec_step f (RNack id) a (unit_response r) (abs s').
Proof.
  unfold requeue. intros Hok H a Ha Ht.
  destruct (Z.leb_spec max_delivery_attempts (t_attempts t)); run H; abstract_maps.
  - by apply (S_nack_dead _ a id t).
  - change (a_queues (a_del_task id a)) with (a_queues a) in H.
    destruct (a_queues a !! t_queue_name t) as [q|] eqn:Hq; run H; abstract_maps.
    + by apply S_nack_retry.
    + by apply S_nack_orphan.
Qed.

Lemma nack_sim id s r s' :
  ok s → nack id s = (Ret r, s') →
  spec_step f (RNack id) (abs s) (unit_response r) (abs s').
Proof.
  unfold nack. intros Hok H. run H.
  destruct (in_flight (store s) !! id) as [t|] eqn:Ht; run H; [|by apply S_nack_missing].
  case_match; run H.
  - eapply requeue_sim; [|exact H| |exact Ht]; [mode_ok|]. by abstract_maps.
  - abstract_maps. 
    assert (a_set_task id t (a_del_task id (abs s)) = abs s) as ->.
    { unfold a_set_task, a_del_task. cbn. by rewrite insert_delete_eq, insert_id by done. }
    unlogged.
Qed.

Lemma extend_visibility_sim id d s r s' :
  ok s → extend_visibility id d s = (Ret r, s') →
  spec_step f (RExtendVisibility id d) (abs s) (unit_response r) (abs s').
Proof.
  unfold extend_visibility. intros Hok H. run H.
  destruct (in_flight (store s) !! id) as [t|] eqn:Ht; run H; [| |by apply S_extend_missing].
  - abstract_maps. unlogged.
  - abstract_maps.  by apply S_extend.
Qed.

Lemma ids_issued_fresh s id :
  ids_issued s → id ∉ issued (host s) → a_tasks (abs s) !! id = None.
Proof. intros Hids Hid. apply eq_None_not_Some. intros Hs. by apply Hid, Hids. Qed.

Lemma dequeue_sim name s r s' :
  ids_issued s → ok s → dequeue name s = (Ret r, s') →
  spec_step f (RDequeue name) (abs s)
    (match r with Ok t => RTask t | Err e => RErr e end) (abs s').
Proof.
  unfold dequeue. intros Hids Hok H. run H; abstract_maps.
  - destruct (a_queues (abs s) !! name) eqn:Hl; minv. by apply S_dequeue_missing.
  - destruct (a_queues (abs s) !! name) as [q|] eqn:Hl; minv.
    destruct q as [|item rest]; run H; [by apply S_dequeue_empty|].
    match goal with H : new_uuid _ = _ |- _ =>
      apply new_uuid_Ret in H as (Ha & Hp & Hnew & Hi) end.
    simpl_sets. case_match; run H.
    + match goal with H : make_task _ _ _ _ = _ |- _ =>
        apply make_task_Ret in H as ((Ha' & Hp' & Hi') & Hid & Hd) end.
      abstract_maps. apply S_dequeue with item; [done..|].
      split; [by apply NoDup_singleton|]. constructor; [|done].
      rewrite Hid. by apply ids_issued_fresh.
    + abstract_maps.
      assert (a_set_queue name (item :: rest) (a_set_queue name rest (abs s)) = abs s) as ->.
      { unfold a_set_queue. cbn. by rewrite insert_insert_eq, insert_id by done. }
      unlogged.
Qed.

Lemma pop_upto_take_drop count q :
  pop_upto count q = (take (Z.to_nat count) q, drop (Z.to_nat count) q).
Proof.
  revert count. induction q as [|item q IH]; intros count; cbn.
  - by rewrite take_nil, drop_nil.
  - destruct (Z.leb_spec count 0).
    + by replace (Z.to_nat count) with 0 by lia.
    + rewrite IH. by replace (Z.to_nat count) with (S (Z.to_nat (count - 1))) by lia.
Qed.

Lemma push_back_popped (rest popped : list QueueItem) :
  foldl (λ q item, item :: q) rest (rev popped) = popped ++ rest.
Proof.
  revert rest. induction popped as [|item popped IH] using rev_ind; intros rest; [done|].
  rewrite rev_app_distr. cbn. by rewrite IH, <- app_assoc.
Qed.

(** Delivering a batch: the tasks get the identifiers in order, from the [i]-th. *)
Lemma make_tasks_Ret name ids items i s ts s' :
  make_tasks name ids i items s = (Ret ts, s') →
  abs s' = a_set_tasks ts (abs s) ∧ persistent s' = persistent s ∧
  issued (host s') = issued (host s) ∧
  Forall2 (delivery name) items ts ∧ t_id <$> ts = take (length items) (drop i ids).
Proof.
  revert i s ts s'. induction items as [|item items IH]; intros i s ts s' H; cbn in H.
  { minv. by split_and!. }
  destruct (ids !! i) as [id|] eqn:Hid; run H.
  match goal with H : make_task _ _ _ _ = _ |- _ =>
    apply make_task_Ret in H as ((Ha & Hp & Hi) & <- & Hd) end.
  match goal with H : make_tasks _ _ _ _ _ = _ |- _ =>
    apply IH in H as (Ha' & Hp' & Hi' & Hds & Hts) end.
  simpl_sets. split_and!; try congruence.
  - rewrite Ha'. by abstract_maps.
  - by constructor.
  - rewrite (drop_S _ _ _ Hid). cbn. by rewrite Hts.
Qed.

Lemma dequeue_batch_sim name count s r s' :
  ids_issued s → ok s → dequeue_batch name count s = (Ret r, s') →
  spec_step f (RDequeueBatch name count) (abs s)
    (match r with Ok ts => RTasks ts | Err e => RErr e end) (abs s').
Proof.
  unfold dequeue_batch. intros Hids Hok H. run H; abstract_maps;
    destruct (a_queues (abs s) !! name) as [q|] eqn:Hl; try discriminate; minv;
    [by apply S_dequeue_batch_missing|].
  assert (∀ rest, take (Z.to_nat count) q = [] → drop (Z.to_nat count) q = rest →
    spec_step f (RDequeueBatch name count) (abs s) (RTasks [])
      (a_set_queue name rest (abs s))) as Hnone.
  { intros rest Ht <-. apply (S_dequeue_batch _ _ _ _ q []); [done|by rewrite Ht|].
    split; [apply NoDup_nil_2 | apply Forall_nil_2]. }
  assert (a_set_queue name q (abs s) = abs s) as Hsame.
  { unfold a_set_queue. by rewrite insert_id. }
  case_bool_decide as Hq; run H.
  { rewrite <- Hsame at 2. by apply Hnone; rewrite ?take_nil, ?drop_nil. }
  match goal with H : vec_with_capacity _ _ _ = _ |- _ =>
    unfold vec_with_capacity in H; destruct (isize_max <? _)%Z; minv end.
  rewrite pop_upto_take_drop in H. run H.
  case_bool_decide as Hpop; run H; [by apply Hnone|].
  match goal with H : new_uuids _ _ = _ |- _ =>
    apply new_uuids_Ret in H as (Ha & Hp & Hlen & Hnd & Hnew & Hi) end.
  simpl_sets. case_match; run H.
  - match goal with H : make_tasks _ _ _ _ _ = _ |- _ =>
      apply make_tasks_Ret in H as (Ha' & Hp' & Hi' & Hds & Hts) end.
    rewrite drop_0, take_ge in Hts by lia.
    abstract_maps. apply S_dequeue_batch; [done..|]. rewrite <- Hts in Hnd, Hnew.
    split; [done|]. apply Forall_forall. intros t Ht.
    pose proof (proj1 (Forall_forall _ _) Hnew) as Hnew'.
    apply ids_issued_fresh; [done|]. by apply Hnew', list_elem_of_fmap_2.
  - abstract_maps. rewrite push_back_popped, take_drop.
    assert (a_set_queue name q (a_set_queue name (drop (Z.to_nat count) q) (abs s)) = abs s) as ->.
    { rewrite <- Hsame at 2. unfold a_set_queue. cbn. by rewrite insert_insert_eq. }
    unlogged.
Qed.

Lemma drop_tasks_Ret ids s u s' :
  for_each drop_task ids s = (Ret u, s') →
  abs s' = a_del_tasks ids (abs s) ∧ persistent s' = persistent s ∧ host s' = host s.
Proof.
  revert s. induction ids as [|id ids IH]; intros s H; cbn in H; run H; [done|].
  by apply IH in H as (-> & Hp & Hh).
Qed.

Lemma ack_batch_sim ids s r s' :
  ok s → ack_batch ids s = (Ret r, s') →
  spec_step f (RAckBatch ids) (abs s) (unit_response r) (abs s').
Proof.
  unfold ack_batch. intros Hok H. run H. abstract_maps.
  case_bool_decide as Hm; run H.
  - by eapply S_ack_batch_missing.
  - abstract_maps. unlogged.
  - match goal with H : for_each _ _ _ = _ |- _ => apply drop_tasks_Ret in H as (Ha & _) end.
    abstract_maps. apply S_ack_batch. rewrite Forall_forall. intros id Hin.
    apply not_eq_None_Some. intros Hn.
    apply (not_elem_of_nil id). rewrite <- Hm.
    by apply list_elem_of_filter.
Qed.

(** *** The methods keep the mode *)

Lemma make_task_ok id item name s t s' : ok s → make_task id item name s = (Ret t, s') → ok s'.
Proof.
  unfold make_task. intros Hok H. run H.
  match goal with H : u32_add _ _ _ = _ |- _ => apply u32_add_Ret in H as [_ ->] end. mode_ok.
Qed.

Lemma make_tasks_ok name ids items : ∀ i s ts s',
  ok s → make_tasks name ids i items s = (Ret ts, s') → ok s'.
Proof.
  induction items as [|item items IH]; intros i s ts s' Hok H; cbn in H; [by minv|].
  destruct (ids !! i) as [id|]; run H.
  match goal with H : make_task _ _ _ _ = _ |- _ => apply make_task_ok in H; [|done] end.
  match goal with H : make_tasks _ _ _ _ _ = _ |- _ => eapply IH; [|exact H]; mode_ok end.
Qed.

Lemma drop_tasks_ok ids s u s' : ok s → for_each drop_task ids s = (Ret u, s') → ok s'.
Proof.
  revert s. induction ids as [|id ids IH]; intros s Hok H; cbn in H; run H; [done|].
  eapply IH; [|done]. mode_ok.
Qed.

Lemma nack_ok id s r s' : ok s → nack id s = (Ret r, s') → ok s'.
Proof.
  unfold nack. intros Hok H. run H. case_match; run H; [|done]. case_match; run H; [|mode_ok].
  unfold requeue in H. case_match; run H; [mode_ok|]. case_match; run H; mode_ok.
Qed.

Lemma dequeue_ok name s r s' : ok s → dequeue name s = (Ret r, s') → ok s'.
Proof.
  unfold dequeue. intros Hok H. run H; (destruct (queues (store s) !! name) as [q|]; [|by minv]); minv.
  destruct q as [|item rest]; run H; [done|]. case_match; run H; [|mode_ok].
  match goal with H : make_task _ _ _ _ = _ |- _ => apply make_task_ok in H; [|mode_ok] end. mode_ok.
Qed.

Lemma dequeue_batch_ok name count s r s' : ok s → dequeue_batch name count s = (Ret r, s') → ok s'.
Proof.
  unfold dequeue_batch. intros Hok H. run H; (destruct (queues (store s) !! name) as [q|]; [|by minv]); minv.
  case_bool_decide; run H; [done|].
  match goal with H : vec_with_capacity _ _ _ = _ |- _ =>
    unfold vec_with_capacity in H; destruct (isize_max <? _)%Z; minv end.
  rewrite pop_upto_take_drop in H. run H. case_bool_decide; run H; [mode_ok|]. case_match; run H; [|mode_ok].
  match goal with H : make_tasks _ _ _ _ _ = _ |- _ => by apply make_tasks_ok in H end.
Qed.

Lemma apply_request_ok req s resp s' : ok s → apply_request req s = (Ret resp, s') → ok s'.
Proof.
  intros Hok. destruct req; cbn; intros H; minv; eauto using nack_ok, dequeue_ok, dequeue_batch_ok;
    match goal with H : _ = (Ret _, _) |- _ =>
      unfold create_queue, enqueue, queue_batch, ack, extend_visibility, ack_batch in H; run H end;
    repeat (case_match; minv; track; try mode_ok); track; try mode_ok; eauto using drop_tasks_ok.
Qed.

(** The simulation theorem: where the log refuses nothing, every command is a step
    of the service without the rules for a refusing log. *)
Lemma apply_request_mode req s resp s' :
  ids_issued s → ok s → apply_request req s = (Ret resp, s') →
  spec_step f req (abs s) resp (abs s').
Proof.
  intros Hids Hok. destruct req; cbn; intros H; minv;
    eauto using create_queue_sim, enqueue_sim, dequeue_sim, ack_sim, nack_sim,
      extend_visibility_sim, queue_batch_sim, dequeue_batch_sim, ack_batch_sim.
Qed.

End methods.

(** ** The identifiers stay issued *)

Section issuing.
Context `{RT : !Runtime} `{CH : !Chrono} `{CD : !WalCodec} `{UL : !UuidLaws}.

(** The identifiers a response hands to the client. *)
Definition response_ids (resp : ClientResponse) : list string :=
  match resp with
  | RTask (Some t) => [t_id t]
  | RTasks ts => t_id <$> ts
  | _ => []
  end.

(** What a request does to the issued identifiers, and that it keeps the log:
    those it hands out are new. *)
Definition issues (s : Sys) (ids : list string) (s' : Sys) : Prop :=
  persistent s' = persistent s ∧ issued (host s) ⊆ issued (host s') ∧
  Forall (λ id, id ∈ issued (host s') ∧ id ∉ issued (host s)) ids.

Lemma issues_same s s' :
  persistent s' = persistent s → issued (host s') = issued (host s) → issues s [] s'.
Proof. intros Hp H. split_and!; [done | by rewrite H | apply Forall_nil_2]. Qed.

Lemma persistent_set_queues g s : persistent (set_queues g s) = persistent s.
Proof. done. Qed.
Lemma persistent_set_in_flight g s : persistent (set_in_flight g s) = persistent s.
Proof. done. Qed.

Ltac same_ids :=
  apply issues_same;
  [rewrite ?persistent_set_queues, ?persistent_set_in_flight; congruence | cbn; congruence].

Lemma create_queue_issues name s r s' :
  create_queue name s = (Ret r, s') → issues s [] s'.
Proof. unfold create_queue. intros H. run H. case_bool_decide; run H; same_ids. Qed.

Lemma enqueue_issues name data s r s' : enqueue name data s = (Ret r, s') → issues s [] s'.
Proof.
  unfold enqueue. intros H. run H. case_bool_decide; cbn in H; run H; try same_ids;
    case_match; minv; same_ids.
Qed.

Lemma queue_batch_issues name data s r s' :
  queue_batch name data s = (Ret r, s') → issues s [] s'.
Proof.
  unfold queue_batch. intros H. run H. case_bool_decide; cbn in H; run H; try same_ids;
    case_match; minv; same_ids.
Qed.

Lemma ack_issues id s r s' : ack id s = (Ret r, s') → issues s [] s'.
Proof. unfold ack. intros H. run H. case_match; run H; [case_match; run H|]; same_ids. Qed.

Lemma requeue_issues t s r s' : requeue t s = (Ret r, s') → issues s [] s'.
Proof.
  unfold requeue. intros H. case_match; run H; [same_ids|]. case_match; run H; same_ids.
Qed.

Lemma nack_issues id s r s' : nack id s = (Ret r, s') → issues s [] s'.
Proof.
  unfold nack. intros H. run H. case_match; run H; [|same_ids].
  case_match; run H; [|same_ids]. apply requeue_issues in H as (Hp & Hsub & _).
  split_and!; [congruence| |apply Forall_nil_2].
  etrans; [|exact Hsub]. cbn in *. apply reflexive_eq. congruence.
Qed.

Lemma extend_visibility_issues id d s r s' :
  extend_visibility id d s = (Ret r, s') → issues s [] s'.
Proof. unfold extend_visibility. intros H. run H. case_match; run H; same_ids. Qed.

Lemma ack_batch_issues ids s r s' : ack_batch ids s = (Ret r, s') → issues s [] s'.
Proof.
  unfold ack_batch. intros H. run H. case_bool_decide; run H; [same_ids..|].
  match goal with H : for_each _ _ _ = _ |- _ => apply drop_tasks_Ret in H as (_ & Hp & Hh) end.
  apply issues_same; [|rewrite Hh]; congruence.
Qed.

Lemma dequeue_issues name s r s' :
  dequeue name s = (Ret r, s') →
  issues s (response_ids (match r with Ok t => RTask t | Err e => RErr e end)) s'.
Proof.
  unfold dequeue. intros H. run H;
    try solve [destruct (queues (store s) !! name); try discriminate; run H; same_ids].
  destruct (queues (store s) !! name) as [[|item rest]|]; try discriminate; run H; [same_ids|].
  match goal with H : new_uuid _ = _ |- _ => apply new_uuid_Ret in H as (_ & Hp & Hnew & Hi) end.
  simpl_sets. case_match; run H.
  - match goal with H : make_task _ _ _ _ = _ |- _ =>
      apply make_task_Ret in H as ((_ & Hp' & Hi') & Hid & _) end.
    simpl_sets. rewrite <- Hid in *.
    split_and!; cbn; [rewrite ?persistent_set_in_flight; congruence | set_solver|]. apply Forall_singleton. set_solver.
  - split_and!; [rewrite ?persistent_set_queues; congruence | cbn; set_solver | apply Forall_nil_2].
Qed.

Lemma dequeue_batch_issues name count s r s' :
  dequeue_batch name count s = (Ret r, s') →
  issues s (response_ids (match r with Ok ts => RTasks ts | Err e => RErr e end)) s'.
Proof.
  unfold dequeue_batch. intros H. run H;
    try solve [destruct (queues (store s) !! name); try discriminate; run H; same_ids].
  destruct (queues (store s) !! name) as [q|]; try discriminate; run H.
  case_bool_decide; run H; [same_ids|].
  match goal with H : vec_with_capacity _ _ _ = _ |- _ =>
    unfold vec_with_capacity in H; destruct (isize_max <? _)%Z; minv end.
  rewrite pop_upto_take_drop in H. run H. case_bool_decide; run H; [same_ids|].
  match goal with H : new_uuids _ _ = _ |- _ =>
    apply new_uuids_Ret in H as (_ & Hp & Hlen & _ & Hnew & Hi) end.
  simpl_sets. case_match; run H.
  - match goal with H : make_tasks _ _ _ _ _ = _ |- _ =>
      apply make_tasks_Ret in H as (_ & Hp' & Hi' & _ & Hts) end.
    rewrite drop_0, take_ge in Hts by lia. simpl_sets. cbn. rewrite Hts.
    split_and!; [congruence | set_solver|]. rewrite Forall_forall in Hnew |- *. set_solver.
  - split_and!; [rewrite ?persistent_set_queues; congruence | cbn; set_solver | apply Forall_nil_2].
Qed.

Lemma apply_request_issues req s resp s' :
  apply_request req s = (Ret resp, s') → issues s (response_ids resp) s'.
Proof.
  destruct req; cbn; intros H; minv;
    match goal with
    | H : create_queue _ _ = _ |- _ => apply create_queue_issues in H
    | H : enqueue _ _ _ = _ |- _ => apply enqueue_issues in H
    | H : dequeue _ _ = _ |- _ => by apply dequeue_issues in H
    | H : ack _ _ = _ |- _ => apply ack_issues in H
    | H : nack _ _ = _ |- _ => apply nack_issues in H
    | H : extend_visibility _ _ _ = _ |- _ => apply extend_visibility_issues in H
    | H : queue_batch _ _ _ = _ |- _ => apply queue_batch_issues in H
    | H : dequeue_batch _ _ _ = _ |- _ => by apply dequeue_batch_issues in H
    | H : ack_batch _ _ = _ |- _ => apply ack_batch_issues in H
    end;
    match goal with |- context [unit_response ?r] => by destruct r end.
Qed.

Lemma apply_request_sim req s resp s' :
  ids_issued s → apply_request req s = (Ret resp, s') →
  spec_step (persistent s) req (abs s) resp (abs s').
Proof. intros Hids. by apply (apply_request_mode (ok := λ s0, persistent s0 = persistent s)). Qed.

(** A step adds no in-flight identifier but those it hands out. *)
Lemma spec_step_tasks p req a resp a' id :
  spec_step p req a resp a' → is_Some (a_tasks a' !! id) →
  is_Some (a_tasks a !! id) ∨ id ∈ response_ids resp.
Proof.
  assert (∀ ts a, is_Some (a_tasks (a_set_tasks ts a) !! id) →
    is_Some (a_tasks a !! id) ∨ id ∈ t_id <$> ts) as Hset.
  { induction ts as [|t ts IH]; intros a0 Hs; cbn in *; [by left|].
    apply IH in Hs as [Hs|]; [|set_solver]. cbn in Hs.
    apply lookup_insert_is_Some in Hs as [->|[_ ?]]; set_solver. }
  assert (∀ ids a, is_Some (a_tasks (a_del_tasks ids a) !! id) → is_Some (a_tasks a !! id))
    as Hdel.
  { induction ids as [|i ids IH]; intros a0 Hs; cbn in *; [done|].
    apply IH in Hs. cbn in Hs. by apply lookup_delete_is_Some in Hs as [_ ?]. }
  destruct 1; cbn; intros Hs; eauto;
    try (apply lookup_delete_is_Some in Hs as [_ ?]; by left).
  - apply lookup_insert_is_Some in Hs as [<-|[_ ?]]; set_solver.
  - apply lookup_insert_is_Some in Hs as [<-|[_ ?]]; eauto.
  - by apply Hset in Hs.
Qed.

Lemma apply_request_ids req s resp s' :
  ids_issued s → apply_request req s = (Ret resp, s') → ids_issued s'.
Proof.
  intros Hids H id Hs.
  destruct (apply_request_issues _ _ _ _ H) as (_ & Hsub & Hnew).
  eapply spec_step_tasks in Hs as [Hs|Hin]; [|..|by eapply apply_request_sim].
  - by apply Hsub, Hids.
  - rewrite Forall_forall in Hnew. by destruct (Hnew id Hin).
Qed.
End issuing.
