(* ===== verification/Invariant.v ===== *)
(** * Invariants of the service

    Well-formedness of the maps, the bound on deliveries outside dead letter
    queues, and conservation of messages: each is proved of the abstract steps
    and carried to the code by the simulation of [Refinement.v]. *)

From stdpp Require Import prelude base gmap gmultiset strings list fin_maps.
From Stdlib Require Import ZArith Lia.
From S2P Require Import Prelude Types Env Wal Memory Spec Commands Refinement.
Set Warnings "-clear-no-such-hyp".

(** ** Well-formed states *)

(** A dead letter queue is recognised by its name. *)
Definition is_dlq (name : string) : Prop := ∃ base, name = dlq_name base.

(** Items waiting in an ordinary queue were delivered at most four times. *)
Definition item_ok (name : string) (item : QueueItem) : Prop :=
  ¬ is_dlq name → (0 ≤ qi_attempts item < max_delivery_attempts)%Z.

Record task_ok (a : AState) (id : string) (t : InFlightTask) : Prop := {
  task_key : t_id t = id;
  task_queue : is_Some (a_queues a !! t_queue_name t);
  task_bound : ¬ is_dlq (t_queue_name t) →
    (1 ≤ t_attempts t ≤ max_delivery_attempts)%Z }.

Record a_wf (a : AState) : Prop := {
  wf_items name q item : a_queues a !! name = Some q → item ∈ q → item_ok name item;
  wf_tasks id t : a_tasks a !! id = Some t → task_ok a id t }.

Lemma a_wf_new : a_wf (mkAState ∅ ∅).
Proof. split; intros *; cbn; by rewrite lookup_empty. Qed.

(** Replacing one queue by well-formed items. *)
Lemma wf_set_queue a name q :
  a_wf a → Forall (item_ok name) q → a_wf (a_set_queue name q a).
Proof.
  intros [Hi Ht] Hq. split; cbn.
  - intros n q' item. rewrite lookup_insert. case_decide as Hn; [|by apply Hi].
    intros [= <-] Hin. subst n. by eapply Forall_forall in Hq.
  - intros id t Hl. destruct (Ht id t Hl) as [Hk Hs Hb]. split; [done| |done].
    cbn. rewrite lookup_insert. by case_decide.
Qed.

Lemma wf_del_task a id : a_wf a → a_wf (a_del_task id a).
Proof.
  intros [Hi Ht]. split; cbn; [by apply Hi|].
  intros i t [_ Hl]%lookup_delete_Some. by destruct (Ht i t Hl).
Qed.

Lemma wf_del_tasks a ids : a_wf a → a_wf (a_del_tasks ids a).
Proof. revert a. induction ids as [|id ids IH]; intros a Ha; [done|]. by apply IH, wf_del_task. Qed.

Lemma wf_set_task a id t : a_wf a → task_ok a id t → a_wf (a_set_task id t a).
Proof.
  intros [Hi Ht] Hok. split; cbn; [by apply Hi|].
  intros i t' Hl. apply lookup_insert_Some in Hl as [[<- <-]|[_ Hl]].
  - by destruct Hok.
  - by destruct (Ht i t' Hl).
Qed.

Lemma wf_queue_items a name q : a_wf a → a_queues a !! name = Some q → Forall (item_ok name) q.
Proof. intros [Hi _] Hq. apply Forall_forall. intros item. by apply Hi. Qed.

Lemma next_attempt_bound n :
  (0 ≤ n < max_delivery_attempts)%Z → (1 ≤ next_attempt n ≤ max_delivery_attempts)%Z.
Proof.
  unfold next_attempt, max_delivery_attempts, u32_modulus. intros ?.
  destruct (Z.ltb_spec (n + 1) (2 ^ 32)); lia.
Qed.

(** Delivering an item of a well-formed queue gives a well-formed task. *)
Lemma delivery_ok a name item t :
  is_Some (a_queues a !! name) → item_ok name item → delivery name item t →
  task_ok a (t_id t) t.
Proof.
  intros Hs Hok (_ & <- & Hn). split; [done|done|]. intros Hd. rewrite Hn.
  by apply next_attempt_bound, Hok.
Qed.

Lemma wf_set_tasks a name items ts :
  a_wf a → is_Some (a_queues a !! name) → Forall (item_ok name) items →
  Forall2 (delivery name) items ts → a_wf (a_set_tasks ts a).
Proof.
  intros Hwf Hs Hok Hds. revert a Hwf Hs.
  induction Hds as [|item t items ts Hd _ IH]; intros a Hwf Hs; cbn; [done|].
  inversion_clear Hok. apply IH; [done| |done].
  apply wf_set_task; [done|]. by eapply delivery_ok.
Qed.

#[export] Hint Resolve wf_set_queue wf_del_task wf_del_tasks : oxide.

Lemma item_ok_new name data : item_ok name (mkQueueItem data 0).
Proof. intros _. cbn. unfold max_delivery_attempts. lia. Qed.

Lemma spec_step_wf p req a resp a' : a_wf a → spec_step p req a resp a' → a_wf a'.
Proof.
  intros Hwf Hstep. destruct Hstep; eauto with oxide.
  - apply wf_set_queue; [done|]. apply Forall_app_2; [by eapply wf_queue_items|].
    apply Forall_singleton, item_ok_new.
  - assert (Forall (item_ok name) (item :: rest)) as Hq by by eapply wf_queue_items.
    inversion_clear Hq. apply wf_set_task; [by apply wf_set_queue|].
    eapply delivery_ok; [|done..]. cbn. by rewrite lookup_insert_eq.
  - destruct (wf_tasks _ Hwf _ _ H) as [Hk Hs Hb].
    apply wf_set_queue; [by apply wf_del_task|]. constructor.
    + intros Hd. cbn. specialize (Hb Hd). lia.
    + by eapply wf_queue_items.
  - apply wf_set_queue; [by apply wf_del_task|]. apply Forall_app_2.
    + destruct (a_queues a !! _) eqn:Hq; [by eapply wf_queue_items | apply Forall_nil_2].
    + apply Forall_singleton. intros Hd. destruct Hd. by eexists.
  - destruct (wf_tasks _ Hwf _ _ H) as [Hk Hs Hb]. by apply wf_set_task.
  - apply wf_set_queue; [done|]. apply Forall_app_2; [by eapply wf_queue_items|].
    apply Forall_fmap, Forall_forall. intros d _. apply item_ok_new.
  - assert (Forall (item_ok name) q) as Hq by by eapply wf_queue_items.
    eapply wf_set_tasks; [| |by apply Forall_take|done].
    + apply wf_set_queue; [done|]. by apply Forall_drop.
    + cbn. by rewrite lookup_insert_eq.
Qed.

(** ** Conservation of messages *)

(** The payloads in the queues and in flight, with multiplicity. *)
Definition payloads (q : list QueueItem) : gmultiset bytes := list_to_set_disj (qi_data <$> q).
Arguments payloads : simpl never.
Definition queue_msgs (m : gmap string (list QueueItem)) : gmultiset bytes :=
  map_fold (λ _ q acc, payloads q ⊎ acc) ∅ m.
Definition task_msgs (m : gmap string InFlightTask) : gmultiset bytes :=
  map_fold (λ _ t acc, {[+ t_data t +]} ⊎ acc) ∅ m.
Arguments queue_msgs : simpl never.
Arguments task_msgs : simpl never.
Definition messages (a : AState) : gmultiset bytes :=
  queue_msgs (a_queues a) ⊎ task_msgs (a_tasks a).

(** The payloads a request brings in: a successful enqueue, single or batch. *)
Definition produced (req : ClientRequest) (resp : ClientResponse) : gmultiset bytes :=
  match req, resp with
  | REnqueue _ d, ROk => {[+ d +]}
  | REnqueueBatch _ ds, ROk => list_to_set_disj ds
  | _, _ => ∅
  end.

(** The identifiers a request takes out of the in-flight map for good. *)
Definition retired_ids (req : ClientRequest) (resp : ClientResponse) : list string :=
  match req, resp with
  | RAck id, _ => [id]
  | RAckBatch ids, ROk => remove_dups ids
  | _, _ => []
  end.

(** The payloads that leave: those of the acknowledged tasks. *)
Definition consumed (a : AState) (req : ClientRequest) (resp : ClientResponse)
  : gmultiset bytes :=
  list_to_set_disj (omap (λ id, t_data <$> a_tasks a !! id) (retired_ids req resp)).

Lemma queue_msgs_insert_None m name q :
  m !! name = None → queue_msgs (<[name := q]> m) = payloads q ⊎ queue_msgs m.
Proof.
  intros H. unfold queue_msgs. rewrite map_fold_insert_L; [done| |done].
  intros. multiset_solver.
Qed.

Lemma queue_msgs_delete m name q :
  m !! name = Some q → queue_msgs m = payloads q ⊎ queue_msgs (delete name m).
Proof.
  intros H. rewrite <- (queue_msgs_insert_None _ name) by apply lookup_delete_eq.
  by rewrite insert_delete_id.
Qed.

Lemma queue_msgs_insert m name q :
  queue_msgs (<[name := q]> m) = payloads q ⊎ queue_msgs (delete name m).
Proof.
  rewrite <- (queue_msgs_insert_None _ name) by apply lookup_delete_eq.
  by rewrite insert_delete_eq.
Qed.

Lemma task_msgs_insert_None m id t :
  m !! id = None → task_msgs (<[id := t]> m) = {[+ t_data t +]} ⊎ task_msgs m.
Proof.
  intros H. unfold task_msgs. rewrite map_fold_insert_L; [done| |done].
  intros. multiset_solver.
Qed.

Lemma task_msgs_delete m id t :
  m !! id = Some t → task_msgs m = {[+ t_data t +]} ⊎ task_msgs (delete id m).
Proof.
  intros H. rewrite <- (task_msgs_insert_None _ id) by apply lookup_delete_eq.
  by rewrite insert_delete_id.
Qed.

Lemma payloads_app q1 q2 : payloads (q1 ++ q2) = payloads q1 ⊎ payloads q2.
Proof. unfold payloads. by rewrite fmap_app, list_to_set_disj_app. Qed.
Lemma payloads_cons i q : payloads (i :: q) = {[+ qi_data i +]} ⊎ payloads q.
Proof. done. Qed.
Lemma payloads_nil : payloads [] = ∅.
Proof. done. Qed.
Lemma payloads_new ds : payloads ((λ d, mkQueueItem d 0) <$> ds) = list_to_set_disj ds.
Proof. unfold payloads. rewrite <- list_fmap_compose. cbn. by rewrite list_fmap_id. Qed.

(** Changing one queue changes the messages by the difference of the queue. *)
Lemma messages_set_queue a name q :
  messages (a_set_queue name q a) ⊎ payloads (default [] (a_queues a !! name))
  = messages a ⊎ payloads q.
Proof.
  unfold messages. cbn [a_queues a_tasks a_set_queue a_set_task a_del_task]. rewrite queue_msgs_insert.
  destruct (a_queues a !! name) as [q0|] eqn:Hq; cbn [default].
  - rewrite (queue_msgs_delete _ _ _ Hq). multiset_solver.
  - rewrite delete_id by done. rewrite payloads_nil. multiset_solver.
Qed.

Lemma messages_del_task a id t :
  a_tasks a !! id = Some t → messages a = {[+ t_data t +]} ⊎ messages (a_del_task id a).
Proof.
  intros Ht. unfold messages. cbn [a_queues a_tasks a_set_queue a_set_task a_del_task]. rewrite (task_msgs_delete _ _ _ Ht). multiset_solver.
Qed.

Lemma messages_set_task a id t :
  a_tasks a !! id = None → messages (a_set_task id t a) = {[+ t_data t +]} ⊎ messages a.
Proof. intros Ht. unfold messages. cbn [a_queues a_tasks a_set_queue a_set_task a_del_task]. rewrite task_msgs_insert_None by done. multiset_solver. Qed.

Arguments a_del_tasks : simpl never.
Arguments a_set_tasks : simpl never.
Lemma del_tasks_cons id ids a : a_del_tasks (id :: ids) a = a_del_tasks ids (a_del_task id a).
Proof. done. Qed.
Lemma set_tasks_cons t ts a : a_set_tasks (t :: ts) a = a_set_tasks ts (a_set_task (t_id t) t a).
Proof. done. Qed.

Lemma set_tasks_queues ts a : a_queues (a_set_tasks ts a) = a_queues a.
Proof. revert a. induction ts as [|t ts IH]; intros a; [done|]. by rewrite set_tasks_cons, IH. Qed.

(** Removing a batch of tasks, as a function of the identifiers only. *)
Lemma del_tasks_lookup ids a i :
  a_tasks (a_del_tasks ids a) !! i = if decide (i ∈ ids) then None else a_tasks a !! i.
Proof.
  revert a. induction ids as [|id ids IH]; intros a; [by rewrite decide_False by set_solver|].
  rewrite del_tasks_cons, IH. cbn. rewrite lookup_delete. repeat case_decide; set_solver.
Qed.

Lemma del_tasks_queues ids a : a_queues (a_del_tasks ids a) = a_queues a.
Proof. revert a. induction ids as [|id ids IH]; intros a; [done|]. by rewrite del_tasks_cons, IH. Qed.

Lemma del_tasks_remove_dups ids a : a_del_tasks (remove_dups ids) a = a_del_tasks ids a.
Proof.
  assert (∀ b c, a_queues b = a_queues c → a_tasks b = a_tasks c → b = c) as Heq
    by (by intros [] [] ? ?; simplify_eq/=).
  apply Heq; [by rewrite !del_tasks_queues|].
  apply map_eq. intros i. rewrite !del_tasks_lookup.
  by rewrite (decide_ext (i ∈ remove_dups ids) (i ∈ ids)) by apply elem_of_remove_dups.
Qed.

Lemma messages_del_tasks ids a :
  NoDup ids →
  messages a = messages (a_del_tasks ids a)
    ⊎ list_to_set_disj (omap (λ id, t_data <$> a_tasks a !! id) ids).
Proof.
  intros Hnd. revert a. induction Hnd as [|id ids Hid _ IH]; intros a.
  { change (messages a = messages a ⊎ ∅). multiset_solver. }
  assert (omap (λ i, t_data <$> a_tasks (a_del_task id a) !! i) ids =
          omap (λ i, t_data <$> a_tasks a !! i) ids) as Ho.
  { clear IH. induction ids as [|i ids IHi]; [done|]. cbn.
    rewrite lookup_delete_ne by set_solver. destruct (a_tasks a !! i); cbn;
      [f_equal|]; apply IHi; set_solver. }
  specialize (IH (a_del_task id a)). rewrite Ho in IH.
  rewrite del_tasks_cons. cbn [omap list_omap].
  destruct (a_tasks a !! id) as [t|] eqn:Ht; cbn [fmap option_fmap option_map].
  - rewrite (messages_del_task _ _ _ Ht), list_to_set_disj_cons, IH. multiset_solver.
  - rewrite <- IH. unfold messages, a_del_task. cbn [a_queues a_tasks].
    by rewrite delete_id.
Qed.

(** Adding a batch of fresh tasks. *)
Lemma messages_set_tasks ts a :
  fresh_tasks ts a → messages (a_set_tasks ts a) = list_to_set_disj (t_data <$> ts) ⊎ messages a.
Proof.
  unfold fresh_tasks. intros [Hnd Hfr]. revert a Hnd Hfr.
  induction ts as [|t ts IH]; intros a Hnd Hfr.
  { change (messages a = ∅ ⊎ messages a). multiset_solver. }
  rewrite fmap_cons in Hnd. apply NoDup_cons in Hnd as [Ht Hnd].
  apply Forall_cons in Hfr as [Hft Hfr].
  rewrite set_tasks_cons, fmap_cons, list_to_set_disj_cons, IH; [rewrite messages_set_task by done; multiset_solver|done|].
  apply Forall_forall. intros t' Hin. cbn. rewrite lookup_insert_ne.
  - by eapply Forall_forall in Hfr.
  - intros Heq. apply Ht. rewrite Heq. by apply list_elem_of_fmap_2.
Qed.

Lemma delivered_payloads name items ts :
  Forall2 (delivery name) items ts → list_to_set_disj (t_data <$> ts) = payloads items.
Proof.
  unfold payloads. induction 1 as [|item t items ts Hd _ IH]; [done|].
  destruct Hd as (Hd & _). by rewrite !fmap_cons, !list_to_set_disj_cons, IH, Hd.
Qed.

(** Rewriting a task in place. *)
Lemma messages_update_task a id t t' :
  a_tasks a !! id = Some t → t_data t' = t_data t →
  messages (a_set_task id t' a) = messages a.
Proof.
  intros Ht Hd. rewrite (messages_del_task _ _ _ Ht), <- Hd.
  rewrite <- (messages_set_task (a_del_task id a) id t') by apply lookup_delete_eq.
  unfold a_set_task, a_del_task. cbn. by rewrite insert_delete_eq.
Qed.

(** Every step keeps the messages, up to what it brings in and retires. *)
Lemma spec_step_messages p req a resp a' :
  a_wf a → spec_step p req a resp a' →
  messages a' ⊎ consumed a req resp = messages a ⊎ produced req resp.
Proof.
  intros Hwf Hstep. unfold consumed. destruct Hstep; cbn [retired_ids produced omap list_omap];
    try match goal with
    | H : a_tasks ?a !! ?id = Some ?t |- _ =>
      pose proof (messages_del_task a id t H) as Hdel; rewrite ?H
    | H : a_tasks ?a !! ?id = None |- _ => rewrite ?H
    end; cbn [fmap option_fmap option_map list_to_set_disj];
    try match goal with
    | |- context [a_set_queue ?n ?q ?a] => pose proof (messages_set_queue a n q) as Hset
    end.
  all: try multiset_solver.
  - rewrite H in Hset. cbn [default Datatypes.id] in Hset. rewrite payloads_nil in Hset. multiset_solver.
  - rewrite H in Hset. cbn [default Datatypes.id] in Hset.
    rewrite payloads_app, payloads_cons, payloads_nil in Hset. multiset_solver.
  - destruct H1 as [_ Hfr]. rewrite Forall_singleton in Hfr. destruct H0 as (Hd & _).
    rewrite messages_set_task by done. rewrite H in Hset. cbn [default Datatypes.id] in Hset.
    rewrite payloads_cons in Hset. rewrite Hd. multiset_solver.
  - cbn [a_queues a_del_task] in Hset. rewrite H1 in Hset. cbn [default Datatypes.id] in Hset.
    rewrite payloads_cons in Hset. multiset_solver.
  - cbn [a_queues a_del_task] in Hset.
    rewrite payloads_app, payloads_cons, payloads_nil in Hset. cbn [qi_data item_of] in Hset.
    multiset_solver.
  - destruct (wf_tasks _ Hwf _ _ H) as [_ [q Hq] _]. congruence.
  - rewrite (messages_update_task a id t) by done. multiset_solver.
  - rewrite H in Hset. cbn [default Datatypes.id] in Hset.
    rewrite payloads_app, payloads_new in Hset. multiset_solver.
  - rewrite messages_set_tasks by done. rewrite H in Hset. cbn [default Datatypes.id] in Hset.
    rewrite (delivered_payloads _ _ _ H0).
    pose proof (payloads_app (take (Z.to_nat count) q) (drop (Z.to_nat count) q)) as Hp.
    rewrite take_drop in Hp. rewrite Hp in Hset. multiset_solver.
  - rewrite (messages_del_tasks (remove_dups ids) a) by apply NoDup_remove_dups.
    rewrite del_tasks_remove_dups. multiset_solver.
  - destruct req; try (by destruct (H0 task_id)); multiset_solver.
Qed.
