(* ===== verification/Models.v ===== *)
(** * Concrete instances of the interfaces of [Env.v]

    A simulated host (a counting clock, numbered identifiers, files in a map,
    a schedule of disk faults), chrono on integers, and a codec for log entries.
    The theorems are proved against the interfaces; these instances show that
    the interfaces can be met and let witnesses evaluate the code. *)

From stdpp Require Import prelude base gmap strings list fin_maps pretty fin_sets.
From Stdlib Require Import ZArith Lia Strings.Ascii.
From S2P Require Import Prelude Types Env.
Set Warnings "-clear-no-such-hyp".

(** ** chrono *)

#[export] Instance sim_chrono : Chrono := {
  duration_seconds n :=
    if bool_decide (Z.abs n ≤ i64_max / 1000)%Z then Some (n * 1000000000)%Z else None;
  signed_duration_since a b := (a - b)%Z;
  timestamp_millis n := (n / 1000000)%Z }.

#[export] Instance sim_chrono_laws : ChronoLaws.
Proof.
  split; cbn -[i64_max]; [| |done].
  - intros n Hn. by rewrite bool_decide_true.
  - intros n Hn. rewrite bool_decide_false by lia. done.
Qed.

(** ** The host *)

(** A disk call that fails stores only the first [kept] bytes. *)
Record Fault := mkFault { kept : nat; fault_msg : string }.

(** [sim_clock] advances by [tick] at each reading; [sim_prefix] tells the
    identifiers of different nodes apart; [sim_io] counts the disk calls. *)
Record SimHost := mkHost {
  sim_clock : Z;
  sim_prefix : string;
  sim_drawn : nat;
  sim_files : gmap string string;
  sim_io : nat }.
Record SimFile := mkFile { sf_path : string; sf_pending : string }.

Definition sim_id (prefix : string) (n : nat) : string := (prefix +:+ pretty n)%string.

Definition host_io (h : SimHost) (fs : gmap string string) : SimHost :=
  mkHost (sim_clock h) (sim_prefix h) (sim_drawn h) fs (S (sim_io h)).

(** Splitting a content into lines, the way a buffered reader does. *)
Fixpoint split_lines (cur : string) (s : string) : list string :=
  match s with
  | EmptyString => if bool_decide (cur = "") then [] else [cur]
  | String c s' =>
    if Ascii.eqb c (Ascii.ascii_of_nat 10) then cur :: split_lines "" s'
    else split_lines (cur +:+ String c "")%string s'
  end.
Fixpoint strip_cr (s : string) : string :=
  match s with
  | EmptyString => ""
  | String c EmptyString => if Ascii.eqb c (Ascii.ascii_of_nat 13) then "" else s
  | String c s' => String c (strip_cr s')
  end.
Definition sim_lines (content : string) : list (Result string string) :=
  (λ l, if valid_utf8 l then Ok (strip_cr l)
        else Err "stream did not contain valid UTF-8") <$> split_lines "" content.

(** [checks]: overflow checks of the build; [faults]: which disk calls fail. *)
Definition sim_runtime (checks : bool) (faults : nat → option Fault) : Runtime := {|
  Host := SimHost;
  overflow_checks := checks;
  utc_now h := (sim_clock h,
    mkHost (sim_clock h + 1000000) (sim_prefix h) (sim_drawn h) (sim_files h) (sim_io h));
  new_v4 h := (sim_id (sim_prefix h) (sim_drawn h),
    mkHost (sim_clock h) (sim_prefix h) (S (sim_drawn h)) (sim_files h) (sim_io h));
  dash_iter V m h := (map_to_list m, h);
  File := SimFile;
  open_lines p h :=
    match sim_files h !! p, faults (sim_io h) with
    | Some c, None => (Ok (sim_lines c), host_io h (sim_files h))
    | None, _ => (Err "No such file or directory", host_io h (sim_files h))
    | _, Some f => (Err (fault_msg f), host_io h (sim_files h))
    end;
  open_append p h :=
    match faults (sim_io h) with
    | None => (Ok (mkFile p ""), host_io h (<[p := default "" (sim_files h !! p)]> (sim_files h)))
    | Some f => (Err (fault_msg f), host_io h (sim_files h))
    end;
  write_all f s h :=
    match faults (sim_io h) with
    | None => (Ok tt, (mkFile (sf_path f) (sf_pending f +:+ s)%string, host_io h (sim_files h)))
    | Some e =>
      let old := default "" (sim_files h !! sf_path f) in
      (Err (fault_msg e), (f, host_io h
        (<[sf_path f := (old +:+ String.substring 0 (kept e) s)%string]> (sim_files h))))
    end;
  flush f h :=
    let old := default "" (sim_files h !! sf_path f) in
    match faults (sim_io h) with
    | None => (Ok tt, (mkFile (sf_path f) "", host_io h
        (<[sf_path f := (old +:+ sf_pending f)%string]> (sim_files h))))
    | Some e => (Err (fault_msg e), (mkFile (sf_path f) "", host_io h
        (<[sf_path f := (old +:+ String.substring 0 (kept e) (sf_pending f))%string]> (sim_files h))))
    end |}.

Definition no_faults : nat → option Fault := λ _, None.
Definition fresh_host : SimHost := mkHost 0 "task-" 0 ∅ 0.

Section laws.
Context (checks : bool) (faults : nat → option Fault).

#[export] Instance sim_dash_laws : @DashLaws (sim_runtime checks faults).
Proof. by split. Qed.

Lemma sim_id_inj p m n : sim_id p m = sim_id p n → m = n.
Proof. unfold sim_id. intros H. apply (inj (String.append p)) in H. by apply (inj pretty) in H. Qed.

#[export] Program Instance sim_uuid_laws : @UuidLaws (sim_runtime checks faults) := {|
  issued h := set_map (sim_id (sim_prefix h)) (set_seq (C := gset nat) 0 (sim_drawn h)) |}.
Next Obligation.
  intros h. cbn [new_v4 sim_runtime fst snd sim_prefix sim_drawn].
  rewrite set_seq_S_end_union_L, set_map_union_L, set_map_singleton_L. set_solver.
Qed.
Next Obligation.
  intros h. cbn [new_v4 sim_runtime fst snd]. intros (n & Heq & Hn)%elem_of_map.
  apply sim_id_inj in Heq as <-. apply elem_of_set_seq in Hn. lia.
Qed.
Next Obligation. done. Qed.
Next Obligation. done. Qed.
Next Obligation.
  intros f s h. cbn. by destruct (faults (sim_io h)).
Qed.
Next Obligation. intros f h. cbn. by destruct (faults (sim_io h)). Qed.
Next Obligation. intros p h. cbn. by destruct (sim_files h !! p), (faults (sim_io h)). Qed.
Next Obligation. intros p h. cbn. by destruct (faults (sim_io h)). Qed.
End laws.

(** *** The file system *)

Lemma string_app_assoc (s1 s2 s3 : string) : (s1 +:+ (s2 +:+ s3) = (s1 +:+ s2) +:+ s3)%string.
Proof. induction s1 as [|c s1 IH]; [done|]. exact (f_equal (String c) IH). Qed.
Lemma string_app_nil_r (s : string) : (s +:+ "" = s)%string.
Proof. induction s as [|c s IH]; [done|]. exact (f_equal (String c) IH). Qed.

Lemma strip_cr_id l : has_char (Ascii.ascii_of_nat 13) l = false → strip_cr l = l.
Proof.
  induction l as [|c l IH]; [done|]. cbn [has_char]. intros [Hc Hl]%orb_false_iff.
  rewrite Ascii.eqb_sym in Hc. destruct l as [|c' l]; cbn [strip_cr]; [by rewrite Hc|].
  f_equal. by apply IH.
Qed.

Lemma split_lines_line cur l s :
  has_char (Ascii.ascii_of_nat 10) l = false →
  split_lines cur (l +:+ newline +:+ s) = (cur +:+ l)%string :: split_lines "" s.
Proof.
  revert cur. induction l as [|c l IH]; intros cur.
  - intros _. cbn. by rewrite string_app_nil_r.
  - cbn [has_char]. intros [Hc Hl]%orb_false_iff. rewrite Ascii.eqb_sym in Hc. cbn [split_lines].
    change (String c l +:+ newline +:+ s)%string with (String c (l +:+ newline +:+ s)).
    cbn [split_lines]. rewrite Hc, IH by done. by rewrite <- string_app_assoc.
Qed.

Lemma split_lines_tail cur l :
  has_char (Ascii.ascii_of_nat 10) l = false →
  split_lines cur l = if bool_decide (cur +:+ l = "")%string then [] else [(cur +:+ l)%string].
Proof.
  revert cur. induction l as [|c l IH]; intros cur.
  - intros _. cbn. by rewrite string_app_nil_r.
  - cbn [has_char]. intros [Hc Hl]%orb_false_iff. rewrite Ascii.eqb_sym in Hc.
    cbn [split_lines]. rewrite Hc, IH by done. by rewrite <- string_app_assoc.
Qed.

Lemma sim_lines_lines ls tail :
  Forall (λ l, has_char (Ascii.ascii_of_nat 10) l = false ∧
               has_char (Ascii.ascii_of_nat 13) l = false ∧ valid_utf8 l = true) (ls ++ [tail]) →
  sim_lines (foldr (λ l acc, l +:+ newline +:+ acc)%string tail ls)
  = Ok <$> (ls ++ if bool_decide (tail = "") then [] else [tail]).
Proof.
  unfold sim_lines. induction ls as [|l ls IH]; cbn [foldr app].
  - intros (Hn & Hr & Hu)%Forall_singleton. rewrite split_lines_tail by done.
    change ("" +:+ tail)%string with tail. case_bool_decide; [done|].
    cbn. by rewrite Hu, strip_cr_id.
  - intros [(Hn & Hr & Hu) Hls]%Forall_cons. rewrite split_lines_line by done.
    cbn [fmap list_fmap]. change ("" +:+ l)%string with l.
    rewrite Hu, strip_cr_id by done. f_equal. by apply IH.
Qed.

#[export] Program Instance sim_fs_laws checks faults : @FsLaws (sim_runtime checks faults) := {|
  content p h := sim_files h !! p;
  file_path := sf_path;
  clean f := sf_pending f = "";
  lines_of := sim_lines |}.
Next Obligation. intros ? faults p h q. cbn. by destruct (sim_files h !! p), (faults (sim_io h)). Qed.
Next Obligation.
  intros ? faults p h ls. cbn.
  destruct (sim_files h !! p) as [c|], (faults (sim_io h)); try done. intros [= <-]. eauto.
Qed.
Next Obligation. intros ? faults p h. cbn. intros ->. by eexists. Qed.
Next Obligation.
  intros ? faults p h f h'. cbn. destruct (faults (sim_io h)); [done|]. intros [= <- <-].
  cbn. by rewrite lookup_insert_eq.
Qed.
Next Obligation.
  intros ? faults f s h f1 h1 f2 h2. cbn. intros Hc.
  destruct (faults (sim_io h)); [done|]. intros [= <- <-]. cbn.
  destruct (faults (S (sim_io h))); [done|]. intros [= <- <-]. cbn.
  by rewrite lookup_insert_eq, Hc.
Qed.
Next Obligation. done. Qed.
Next Obligation. done. Qed.
Next Obligation. done. Qed.
Next Obligation. intros. by apply sim_lines_lines. Qed.

#[export] Instance sim_reliable_disk checks : @ReliableDisk (sim_runtime checks no_faults) _.
Proof.
  split.
  - intros p h. by eexists _, _.
  - intros p h c Hc. cbn in Hc |- *. rewrite Hc. by eexists.
  - intros f s h. by eexists _, _.
  - intros f h. by eexists _, _.
Qed.

(** ** A codec for log entries *)

#[export] Program Instance WalOp_countable : Countable WalOp :=
  inj_countable'
    (λ op, match op with
     | WCreateQueue n => inl (inl (inl n))
     | WEnqueue q d => inl (inl (inr (q, d)))
     | WEnqueueBatch q ds => inl (inr (inl (q, ds)))
     | WDequeued q i => inl (inr (inr (inl (q, i))))
     | WDequeuedBatch q ids => inl (inr (inr (inr (q, ids))))
     | WAck i => inr (inl (inl i))
     | WAckBatch ids => inr (inl (inr ids))
     | WNack i => inr (inr (inl i))
     | WExtendVisibility i d => inr (inr (inr (i, d)))
     end)
    (λ c, match c with
     | inl (inl (inl n)) => WCreateQueue n
     | inl (inl (inr (q, d))) => WEnqueue q d
     | inl (inr (inl (q, ds))) => WEnqueueBatch q ds
     | inl (inr (inr (inl (q, i)))) => WDequeued q i
     | inl (inr (inr (inr (q, ids)))) => WDequeuedBatch q ids
     | inr (inl (inl i)) => WAck i
     | inr (inl (inr ids)) => WAckBatch ids
     | inr (inr (inl i)) => WNack i
     | inr (inr (inr (i, d))) => WExtendVisibility i d
     end) _.
Next Obligation. by intros []. Qed.

#[export] Program Instance WalEntry_countable : Countable WalEntry :=
  inj_countable' (λ e, (we_op e, we_timestamp e)) (λ p, mkWalEntry p.1 p.2) _.
Next Obligation. by intros []. Qed.

Fixpoint bits (p : positive) : string :=
  match p with
  | xH => ""
  | xO p => String "0"%char (bits p)
  | xI p => String "1"%char (bits p)
  end.
Fixpoint unbits (s : string) : option positive :=
  match s with
  | EmptyString => Some xH
  | String c s => if Ascii.eqb c "0"%char then xO <$> unbits s
                  else if Ascii.eqb c "1"%char then xI <$> unbits s else None
  end.

#[export] Instance sim_codec : WalCodec := {
  wal_to_string e := Ok (String "#"%char (bits (encode e)));
  wal_from_str s :=
    match s with
    | String c s =>
      if Ascii.eqb c "#"%char then
        match unbits s ≫= decode with Some e => Ok e | None => Err "expected value" end
      else Err "expected value"
    | EmptyString => Err "expected value"
    end }.

Lemma unbits_bits p : unbits (bits p) = Some p.
Proof. induction p as [p IH|p IH|]; cbn; rewrite ?IH; done. Qed.

Lemma bits_decode p : is_Some (decode_utf8 (str_bytes (bits p))).
Proof.
  induction p as [p [l IH]|p [l IH]|]; [| |by eexists]; cbn [bits];
    rewrite str_bytes_cons, decode_utf8_ascii, IH by done; by eexists.
Qed.

Lemma bits_no_char c p : Ascii.eqb c "0"%char = false → Ascii.eqb c "1"%char = false → has_char c (bits p) = false.
Proof. intros H0 H1. induction p; cbn; rewrite ?H0, ?H1; done. Qed.

#[export] Instance sim_codec_laws : WalCodecLaws.
Proof.
  split.
  - intros e. by eexists.
  - intros e s [= <-]. cbn. rewrite unbits_bits. cbn. by rewrite decode_encode.
  - intros e s [= <-].
    destruct (bits_decode (encode e)) as [l Hl].
    assert (decode_utf8 (str_bytes (String "#"%char (bits (encode e)))) = Some (35%Z :: l)) as Hd.
    { by rewrite str_bytes_cons, decode_utf8_ascii, Hl by done. }
    split_and!.
    + cbn. by apply bits_no_char.
    + cbn. by apply bits_no_char.
    + unfold trim_is_empty, chars. rewrite Hd. done.
    + unfold valid_utf8. rewrite Hd. by apply bool_decide_eq_true_2.
Qed.

(** The state a computation ends in, to name the states of an example run. *)
Definition exec {S A} (c : M S A) (s : S) : S := (c s).2.

(** An example run is checked by its result alone. *)
Lemma exec_Ret {S A} (c : M S A) s r : (c s).1 = Ret r → c s = (Ret r, exec c s).
Proof. unfold exec. destruct (c s) as [o s']. by intros [= ->]. Qed.

(** The value a computation returns, and that it returned. *)
Definition value {A} (d : A) (o : outcome A) : A := match o with Ret a => a | Panic _ => d end.
Definition is_ret {A} (o : outcome A) : bool := match o with Ret _ => true | Panic _ => false end.

Lemma value_Ret {S A} (c : M S A) s d : is_ret (c s).1 = true → c s = (Ret (value d (c s).1), exec c s).
Proof. unfold exec. by destruct (c s) as [[a|] s']. Qed.
