(* ===== verification/Storage.v ===== *)
(** * What the storage guarantees

    Reachable states of a running node, and the theorems on them: the storage
    refines the abstract service, keeps its maps well formed, neither loses nor
    duplicates a message, and bounds deliveries outside dead letter queues. *)

From stdpp Require Import prelude base gmap gmultiset strings list fin_maps.
From Stdlib Require Import ZArith Lia Strings.Byte.
From S2P Require Import Prelude Types Env Wal Memory Spec Commands Refinement Invariant Models.
Set Warnings "-clear-no-such-hyp".

Section storage.
Context `{RT : !Runtime} `{CH : !Chrono} `{CD : !WalCodec} `{UL : !UuidLaws} `{DL : !DashLaws}.

(** A node starts with empty maps, with or without a log, and then serves
    requests and runs the periodic cleanup in any order. *)
Inductive reachable : Sys → Prop :=
| reach_new w h : reachable (mkSys (mkStorage ∅ ∅ w) h)
| reach_request s req resp s' :
    reachable s → apply_request req s = (Ret resp, s') → reachable s'
| reach_cleanup s timeout r s' :
    reachable s → cleanup_expired_tasks timeout s = (Ret r, s') → reachable s'.

(** The invariant of a running node. *)
Definition node_inv (s : Sys) : Prop := ids_issued s ∧ a_wf (abs s).

Lemma node_inv_new w h : node_inv (mkSys (mkStorage ∅ ∅ w) h).
Proof.
  split; [|apply a_wf_new]. intros id [t Ht]. cbn in Ht. by rewrite lookup_empty in Ht.
Qed.

Lemma node_inv_request s req resp s' :
  node_inv s → apply_request req s = (Ret resp, s') → node_inv s'.
Proof.
  intros [Hids Hwf] H. split; [by eapply apply_request_ids|].
  eapply spec_step_wf; [exact Hwf|]. by eapply apply_request_sim.
Qed.

Lemma quiet_node_inv s s' : quiet s s' → node_inv s → node_inv s'.
Proof.
  intros (Ha & _ & Hi) [Hids Hwf]. split; [|by rewrite Ha].
  intros id. rewrite Ha, Hi. apply Hids.
Qed.

Lemma nack_as_request id s r s' :
  nack id s = (Ret r, s') → apply_request (RNack id) s = (Ret (unit_response r), s').
Proof. intros H. cbn. by erewrite bind_step by exact H. Qed.

(** A property of states that [nack] keeps is kept by a whole cleanup pass. *)
Lemma nack_all_ind (P : Sys → Prop) ids n s m s' :
  (∀ id s r s', P s → nack id s = (Ret r, s') → P s') →
  P s → nack_all ids n s = (Ret m, s') → P s'.
Proof.
  intros Hstep. revert n s. induction ids as [|id ids IH]; intros n s HP H; cbn in H; minv; [done|].
  by eapply IH; [eapply Hstep|].
Qed.

Lemma scan_quiet timeout s ids s' :
  scan_expired_tasks timeout s = (Ret ids, s') → quiet s s'.
Proof.
  unfold scan_expired_tasks. intros H. run H. destruct (duration_seconds _); run H.
  split_and!; congruence.
Qed.

Lemma cleanup_ind (P : Sys → Prop) timeout s r s' :
  (∀ id s r s', P s → nack id s = (Ret r, s') → P s') →
  (∀ s s', quiet s s' → P s → P s') →
  P s → cleanup_expired_tasks timeout s = (Ret r, s') → P s'.
Proof.
  unfold cleanup_expired_tasks. intros Hnack Hquiet HP H. minv.
  match goal with H : scan_expired_tasks _ _ = _ |- _ => apply scan_quiet in H end.
  by eapply nack_all_ind; [..|eassumption]; eauto.
Qed.

Lemma node_inv_nack id s r s' : node_inv s → nack id s = (Ret r, s') → node_inv s'.
Proof. intros Hi H%nack_as_request. by eapply node_inv_request. Qed.

Lemma node_inv_cleanup timeout s r s' :
  node_inv s → cleanup_expired_tasks timeout s = (Ret r, s') → node_inv s'.
Proof. eapply cleanup_ind; [apply node_inv_nack | apply quiet_node_inv]. Qed.

Lemma reachable_inv s : reachable s → node_inv s.
Proof.
  induction 1; [apply node_inv_new | by eapply node_inv_request | by eapply node_inv_cleanup].
Qed.
End storage.

#[export] Hint Resolve reachable_inv node_inv_request node_inv_cleanup node_inv_nack : oxide.

(** ** The theorems *)

Section theorems.
Context `{RT : !Runtime} `{CH : !Chrono} `{CD : !WalCodec} `{UL : !UuidLaws} `{DL : !DashLaws}.

Lemma apply_requests_mode `{LM : !LogMode f ok} reqs : ∀ s resps s',
  ids_issued s → ok s → apply_requests reqs s = (Ret resps, s') → spec_run f reqs (abs s) resps (abs s').
Proof.
  induction reqs as [|req reqs IH]; intros s resps s' Hids Hok H; cbn in H; minv; [constructor|].
  eapply R_cons; [by eapply apply_request_mode|].
  eapply IH; [by eapply apply_request_ids|by eapply apply_request_ok|done].
Qed.

(** C1. Refinement: the responses of a node to any sequence of commands, and the
    maps it ends with, are those of the abstract queue service [spec_run]; a node
    without a log, or whose log refuses nothing, has no failure the service does
    not have. *)
Theorem storage_refines_service s reqs resps s' :
  node_inv s → apply_requests reqs s = (Ret resps, s') →
  spec_run (persistent s) reqs (abs s) resps (abs s') ∧
  ∀ ok, LogMode false ok → ok s → spec_run false reqs (abs s) resps (abs s').
Proof.
  intros [Hids _] H. split; [|intros ok LM Hok; by eapply apply_requests_mode].
  by eapply (apply_requests_mode (ok := λ s0, persistent s0 = persistent s)).
Qed.

(** C6. Well-formedness: in every reachable state an in-flight task is stored
    under its own identifier, its queue exists, and outside dead letter queues
    no item was delivered more than four times nor any task more than five. *)
Theorem reachable_well_formed s : reachable s → a_wf (abs s).
Proof. by intros [_ Hwf]%reachable_inv. Qed.

(** C7. Conservation: whatever a request answers, errors and disk failures
    included, the messages of the node change by exactly what a successful
    enqueue brings in and what an acknowledgement retires. *)
Theorem request_conserves_messages s req resp s' :
  reachable s → apply_request req s = (Ret resp, s') →
  messages (abs s') ⊎ consumed (abs s) req resp = messages (abs s) ⊎ produced req resp.
Proof.
  intros [Hids Hwf]%reachable_inv H.
  eapply spec_step_messages; [exact Hwf|]. by eapply apply_request_sim.
Qed.
End theorems.

(** ** Example run

    A node without a log serves a short session. *)

#[local] Instance ex_runtime : Runtime := sim_runtime true no_faults.

Definition ex_session : list ClientRequest :=
  [RCreateQueue "q"; REnqueue "q" [Byte.x61]; REnqueue "q" [Byte.x62]; RDequeue "q"].
Definition ex_start : Sys := mkSys (mkStorage ∅ ∅ None) fresh_host.
Definition ex_state : Sys := exec (apply_requests ex_session) ex_start.

(** A state reached by a session is reachable. *)
Lemma reachable_session reqs s resps s' :
  reachable s → apply_requests reqs s = (Ret resps, s') → reachable s'.
Proof.
  revert s resps. induction reqs as [|req reqs IH]; intros s resps Hs H; cbn in H; minv; [done|].
  eapply IH; [|done]. by eapply reach_request.
Qed.

Lemma ex_run : ∃ resps, apply_requests ex_session ex_start = (Ret resps, ex_state).
Proof. eexists. apply exec_Ret. vm_compute. reflexivity. Qed.

Lemma ex_reachable : reachable ex_state.
Proof. destruct ex_run as [resps H]. by eapply (reachable_session _ ex_start); [apply reach_new|]. Qed.

Lemma storage_refines_service_witness :
  ∃ resps, apply_requests ex_session ex_start = (Ret resps, ex_state) ∧
           spec_run false ex_session (abs ex_start) resps (abs ex_state).
Proof.
  destruct ex_run as [resps H]. exists resps. split; [exact H|].
  apply (storage_refines_service ex_start); [apply reachable_inv, reach_new | exact H].
Defined.

Lemma reachable_well_formed_witness :
  a_wf (abs ex_state) ∧ size (a_tasks (abs ex_state)) = 1.
Proof.
  split; [apply (reachable_well_formed ex_state ex_reachable)|]. vm_compute. reflexivity.
Defined.

Lemma request_conserves_messages_witness :
  ∃ s', apply_request (RAck "task-0") ex_state = (Ret ROk, s') ∧
    messages (abs s') ⊎ consumed (abs ex_state) (RAck "task-0") ROk
    = messages (abs ex_state) ⊎ ∅.
Proof.
  assert (apply_request (RAck "task-0") ex_state
          = (Ret ROk, exec (apply_request (RAck "task-0")) ex_state)) as H.
  { apply exec_Ret. vm_compute. reflexivity. }
  eexists. split; [exact H|].
  exact (request_conserves_messages ex_state _ _ _ ex_reachable H).
Defined.
