(* ===== verification/StorageFn.v ===== *)
(** * The behaviour of each storage method

    Totality of the commands, and what the batch operations, the retry path and
    the failing commands do.  Where a log could refuse an entry, the theorems are
    about any node in a [LogMode] without refusals, with or without a log. *)

From stdpp Require Import prelude base gmap gmultiset strings list fin_maps.
From Stdlib Require Import ZArith Lia Strings.Byte.
From S2P Require Import Prelude Types Env Wal Memory Spec Commands Refinement Invariant Models Storage.
Local Open Scope oxide_scope.
Set Warnings "-clear-no-such-hyp".

(** ** Commands return *)

Section returning.
Context `{RT : !Runtime} `{CH : !Chrono} `{CD : !WalCodec} `{UL : !UuidLaws} `{DL : !DashLaws}.

(** No item is one delivery away from the end of [u32]. *)
Definition attempts_below (s : Sys) : Prop :=
  ∀ name q item, queues (store s) !! name = Some q → item ∈ q →
    (qi_attempts item + 1 < u32_modulus)%Z.

(** A batch size a [Vec] can be allocated for. *)
Definition count_ok (req : ClientRequest) : Prop :=
  match req with
  | RDequeueBatch _ count => (count * size_of_QueueItem ≤ isize_max)%Z
  | _ => True
  end.

Lemma get_mut_queue_Ok name s q s1 :
  get_mut_queue name s = (Ret (Ok q), s1) → s1 = s ∧ queues (store s) !! name = Some q.
Proof.
  unfold get_mut_queue, get_queue. rewrite bind_gets. intros H. minv.
  destruct (queues (store s) !! name); [|done]. by injection H as ->.
Qed.
Lemma returns_get_mut name s : returns (get_mut_queue name) s.
Proof. by eexists _, _. Qed.

Lemma returns_wal op s : returns (wal_append op) s.
Proof. destruct (wal_append_returns op s) as (r & s' & H & _). by exists r, s'. Qed.
Lemma returns_now s : returns now s.
Proof. destruct (now_returns s) as (r & s' & H & _). by exists r, s'. Qed.
Lemma returns_new_uuid s : returns new_uuid s.
Proof. unfold returns, new_uuid, on_host. destruct (new_v4 (host s)). by eexists _, _. Qed.
Lemma returns_new_uuids n s : returns (new_uuids n) s.
Proof.
  revert s. induction n as [|n IH]; intros s; cbn; [apply returns_ret|].
  apply returns_bind; [apply returns_new_uuid|]. intros id s1 _.
  apply returns_bind; [apply IH|]. intros; apply returns_ret.
Qed.
Lemma returns_make_task id item name s :
  (qi_attempts item + 1 < u32_modulus)%Z → returns (make_task id item name) s.
Proof.
  intros Hb. unfold make_task. apply returns_bind; [apply returns_now|]. intros n s1 _.
  apply returns_bind; [|intros; apply returns_ret].
  unfold u32_add. destruct (Z.ltb_spec (qi_attempts item + 1) u32_modulus); [|lia].
  apply returns_ret.
Qed.
Lemma returns_make_tasks name ids i items s :
  length items + i ≤ length ids →
  Forall (λ item, (qi_attempts item + 1 < u32_modulus)%Z) items →
  returns (make_tasks name ids i items) s.
Proof.
  revert i s. induction items as [|item items IH]; intros i s Hlen Hb; cbn; [apply returns_ret|].
  inversion_clear Hb. cbn in Hlen.
  destruct (lookup_lt_is_Some_2 ids i) as [id Hid]; [lia|]. rewrite Hid.
  apply returns_bind; [by apply returns_make_task|]. intros t s1 _.
  apply returns_bind; [apply returns_modify|]. intros _ s2 _.
  apply returns_bind; [apply IH; [lia|done]|]. intros; apply returns_ret.
Qed.
Lemma returns_drops ids s : returns (for_each drop_task ids) s.
Proof.
  revert s. induction ids as [|id ids IH]; intros s; cbn; [apply returns_ret|].
  apply returns_bind; [apply returns_modify|]. intros _ s1 _. apply IH.
Qed.
End returning.

#[export] Hint Resolve returns_wal returns_now returns_new_uuid returns_new_uuids returns_drops
  returns_get_mut : oxide.

(** Discharge [returns] of a method by following its code. *)
Ltac ret_step :=
  match goal with
  | |- returns (try_bind _ _) _ => apply returns_try; [|intros ? ? ?]
  | |- returns (_ ≫= _) _ => apply returns_bind; [|intros ? ? ?]
  | |- returns (if ?b then _ else _) _ => destruct b eqn:?
  | |- returns (match ?x with _ => _ end) _ => destruct x eqn:?
  | |- returns _ _ => solve [eauto with oxide]
  end.
Ltac ret := repeat ret_step.

Section total.
Context `{RT : !Runtime} `{CH : !Chrono} `{CD : !WalCodec} `{UL : !UuidLaws} `{DL : !DashLaws}.

Lemma returns_nack id s : returns (nack id) s.
Proof. unfold nack, requeue, get_task, drop_task, put_task, get_queue, put_queue. ret. Qed.

Lemma returns_dequeue name s : attempts_below s → returns (dequeue name) s.
Proof.
  intros Hb. unfold dequeue, put_queue, put_task.
  apply returns_try; [ret|]. intros q s1 [-> Hq]%get_mut_queue_Ok.
  destruct q as [|item rest]; ret.
  apply returns_make_task. eapply Hb; [done|]. set_solver.
Qed.

Lemma returns_dequeue_batch name count s :
  attempts_below s → (count * size_of_QueueItem ≤ isize_max)%Z →
  returns (dequeue_batch name count) s.
Proof.
  intros Hb Hc. unfold dequeue_batch, put_queue.
  apply returns_try; [ret|]. intros q s1 [-> Hq]%get_mut_queue_Ok.
  case_bool_decide; [ret|].
  apply returns_bind.
  { unfold vec_with_capacity. destruct (Z.ltb_spec isize_max (count * size_of_QueueItem)); [lia|ret]. }
  intros _ s2 _. rewrite pop_upto_take_drop.
  apply returns_bind; [ret|]. intros _ s3 _. case_bool_decide; [ret|].
  apply returns_bind; [ret|]. intros ids s4 Hids.
  apply new_uuids_Ret in Hids as (_ & _ & Hlen & _).
  ret. apply returns_make_tasks; [lia|].
  apply Forall_take, Forall_forall. intros item Hin. by eapply Hb.
Qed.

Lemma apply_request_total req s :
  attempts_below s → count_ok req → returns (apply_request req) s.
Proof.
  intros Hb Hc. destruct req; cbn in *;
    unfold create_queue, enqueue, queue_batch, ack, extend_visibility, ack_batch,
      contains_queue, get_queue, put_queue, get_task, put_task, drop_task; ret;
    auto using returns_nack, returns_dequeue, returns_dequeue_batch with oxide.
Qed.
End total.

(** ** Storage whose log refuses nothing

    Without a log, or with one on a disk without faults, the abstract step of a
    command is unique up to identifiers and times. *)

Section unfailing.
Context `{RT : !Runtime} `{CH : !Chrono} `{CD : !WalCodec} `{UL : !UuidLaws} `{DL : !DashLaws}.
Context {ok : Sys → Prop} `{LM : !LogMode false ok}.

Lemma dequeue_nonempty s name item rest :
  node_inv s → ok s → (qi_attempts item + 1 < u32_modulus)%Z →
  queues (store s) !! name = Some (item :: rest) →
  ∃ t s', dequeue name s = (Ret (Ok (Some t)), s') ∧ delivery name item t ∧
    fresh_tasks [t] (abs s) ∧
    abs s' = a_set_task (t_id t) t (a_set_queue name rest (abs s)) ∧
    node_inv s' ∧ ok s'.
Proof.
  intros Hi Hp Hb Hq.
  assert (returns (dequeue name) s) as (r & s' & H).
  { unfold dequeue, put_queue, put_task. apply returns_try; [ret|].
    intros q s1 [-> Hq']%get_mut_queue_Ok. rewrite Hq in Hq'. injection Hq' as <-.
    ret. by apply returns_make_task. }
  pose proof (dequeue_sim _ _ _ _ (proj1 Hi) Hp H) as Hs.
  assert (apply_request (RDequeue name) s =
    (Ret (match r with Ok t => RTask t | Err e => RErr e end), s')) as Ha
    by (cbn; by erewrite bind_step by exact H).
  assert (node_inv s' ∧ ok s') as [? ?]
    by (split; [by eapply node_inv_request|by eapply dequeue_ok]).
  change (queues (store s)) with (a_queues (abs s)) in Hq.
  destruct (spec_dequeue_inv _ _ _ _ _ _ Hs Hq) as (t & Hr & Hd & Hf & Ha').
  destruct r as [[?|]|e]; simplify_eq. eauto 10.
Qed.

Lemma nack_in_flight s id t :
  node_inv s → ok s → in_flight (store s) !! id = Some t →
  ∃ s', nack id s = (Ret (Ok tt), s') ∧ node_inv s' ∧ ok s' ∧
    abs s' =
      (if (max_delivery_attempts <=? t_attempts t)%Z
       then a_set_queue (dlq_name (t_queue_name t))
              (default [] (a_queues (abs s) !! dlq_name (t_queue_name t)) ++ [item_of t])
              (a_del_task id (abs s))
       else a_set_queue (t_queue_name t)
              (item_of t :: default [] (a_queues (abs s) !! t_queue_name t))
              (a_del_task id (abs s))).
Proof.
  intros Hi Hp Ht. destruct (returns_nack id s) as (r & s' & H).
  pose proof (nack_sim _ _ _ _ Hp H) as Hs.
  change (in_flight (store s)) with (a_tasks (abs s)) in Ht.
  destruct (wf_tasks _ (proj2 Hi) _ _ Ht) as [_ [q Hq] _].
  assert (node_inv s') by by eapply node_inv_nack.
  assert (ok s') by by eapply nack_ok.
  destruct (spec_nack_inv _ _ _ _ _ _ Hs Ht Hq) as [Hr Ha].
  exists s'. destruct r as [[]|e]; [|done]. rewrite Hq. by split_and!.
Qed.

(** *** Batch delivery is iterated delivery *)

(** What the consumer sees of a task, apart from the identifier and the time. *)
Definition task_view (t : InFlightTask) : bytes * string * Z :=
  (t_data t, t_queue_name t, t_attempts t).
Definition item_view (name : string) (item : QueueItem) : bytes * string * Z :=
  (qi_data item, name, next_attempt (qi_attempts item)).

Lemma delivery_view name item t : delivery name item t → task_view t = item_view name item.
Proof. intros (H1 & H2 & H3). unfold task_view, item_view. by rewrite H1, H2, H3. Qed.

Lemma deliveries_view name items ts :
  Forall2 (delivery name) items ts → task_view <$> ts = item_view name <$> items.
Proof. induction 1; [done|]. rewrite !fmap_cons. f_equal; [by apply delivery_view|done]. Qed.

(** Up to [n] single deliveries, stopping at the empty queue. *)
Fixpoint dequeue_n (n : nat) (name : string) : M Sys (list InFlightTask) :=
  match n with
  | O => mret []
  | S n' =>
    r ← dequeue name;
    match r with
    | Ok (Some t) => ts ← dequeue_n n' name; mret (t :: ts)
    | _ => mret []
    end
  end.

Lemma dequeue_n_spec n name q s :
  node_inv s → ok s → queues (store s) !! name = Some q →
  Forall (λ item, (qi_attempts item + 1 < u32_modulus)%Z) q →
  ∃ ts s', dequeue_n n name s = (Ret ts, s') ∧
    task_view <$> ts = item_view name <$> take n q ∧
    a_queues (abs s') = <[name := drop n q]> (a_queues (abs s)).
Proof.
  revert q s. induction n as [|n IH]; intros q s Hi Hp Hq Hb.
  { eexists _, s. split_and!; [done|done|]. cbn. by rewrite drop_0, insert_id. }
  destruct q as [|item rest].
  - eexists [], s. split_and!; [|done|].
    + cbn. unfold dequeue, get_mut_queue, get_queue, try_bind, mbind, M_bind, gets. by rewrite Hq.
    + cbn. by rewrite insert_id.
  - inversion_clear Hb as [|? ? Hb1 Hb2].
    destruct (dequeue_nonempty s name item rest) as (t & s1 & Hd & Hdel & _ & Ha & Hi1 & Hp1);
      [done..|].
    destruct (IH rest s1) as (ts & s2 & Hn & Hts & Hqs); [done|done| |done|].
    { change (queues (store s1)) with (a_queues (abs s1)). rewrite Ha. cbn.
      by rewrite lookup_insert_eq. }
    exists (t :: ts), s2. split_and!.
    + cbn. erewrite bind_step by exact Hd. cbv beta iota. by erewrite bind_step by exact Hn.
    + cbn. f_equal; [by apply delivery_view | exact Hts].
    + rewrite Hqs, Ha. cbn. by rewrite insert_insert_eq.
Qed.

Lemma dequeue_batch_spec name count q s :
  node_inv s → ok s → attempts_below s →
  (count * size_of_QueueItem ≤ isize_max)%Z → queues (store s) !! name = Some q →
  ∃ ts s', dequeue_batch name count s = (Ret (Ok ts), s') ∧
    Forall2 (delivery name) (take (Z.to_nat count) q) ts ∧
    a_queues (abs s') = <[name := drop (Z.to_nat count) q]> (a_queues (abs s)).
Proof.
  intros Hi Hp Hb Hc Hq. destruct (returns_dequeue_batch name count s) as (r & s' & H); [done..|].
  pose proof (dequeue_batch_sim _ _ _ _ _ (proj1 Hi) Hp H) as Hs.
  change (queues (store s)) with (a_queues (abs s)) in Hq.
  destruct (spec_dequeue_batch_inv _ _ _ _ _ _ Hs Hq) as (ts & Hr & Hd & _ & Ha).
  destruct r as [ts'|e]; [|done]. injection Hr as ->.
  exists ts, s'. split_and!; [done|done|].
  by rewrite Ha, set_tasks_queues.
Qed.

Lemma queue_batch_spec name ds q s :
  node_inv s → ok s → queues (store s) !! name = Some q →
  ∃ s', queue_batch name ds s = (Ret (Ok tt), s') ∧ node_inv s' ∧ ok s' ∧
    abs s' = a_set_queue name (q ++ new_items ds) (abs s).
Proof.
  intros Hi Hp Hq.
  assert (returns (queue_batch name ds) s) as (r & s' & H).
  { unfold queue_batch, contains_queue, put_queue. ret. }
  pose proof (queue_batch_sim _ _ _ _ _ Hp H) as Hs.
  assert (apply_request (REnqueueBatch name ds) s = (Ret (unit_response r), s')) as Ha
    by (cbn; by erewrite bind_step by exact H).
  change (queues (store s)) with (a_queues (abs s)) in Hq.
  destruct (spec_enqueue_batch_inv _ _ _ _ _ _ Hs Hq) as [Hr Ha'].
  exists s'. destruct r as [[]|e]; [|done]. split_and!; [done| | |done].
  - by eapply node_inv_request.
  - by eapply apply_request_ok.
Qed.
End unfailing.

(** ** A task that always fails *)

(** One attempt of a consumer that rejects whatever it gets. *)
Definition failing_attempt `{!Runtime} `{!Chrono} `{!WalCodec} (name : string) : M Sys unit :=
  r ← dequeue name;
  match r with
  | Ok (Some t) => _ ← nack (t_id t); mret tt
  | _ => mret tt
  end.

Lemma dlq_name_neq name : dlq_name name ≠ name.
Proof.
  unfold dlq_name. intros H. apply (f_equal String.length) in H.
  rewrite string_length_app in H. cbn in H. lia.
Qed.

Section poison.
Context `{RT : !Runtime} `{CH : !Chrono} `{CD : !WalCodec} `{UL : !UuidLaws} `{DL : !DashLaws}.
Context {ok : Sys → Prop} `{LM : !LogMode false ok}.

Lemma del_set_fresh_task t a : fresh_tasks [t] a → a_del_task (t_id t) (a_set_task (t_id t) t a) = a.
Proof.
  intros [_ H]. rewrite Forall_singleton in H. unfold a_del_task, a_set_task. cbn.
  rewrite delete_insert_id by done. by destruct a.
Qed.

Lemma set_queue_twice name q1 q2 a : a_set_queue name q2 (a_set_queue name q1 a) = a_set_queue name q2 a.
Proof. unfold a_set_queue. cbn. by rewrite insert_insert_eq. Qed.

(** One failed attempt on the head of a queue, below and at the limit. *)
Lemma failing_attempt_spec s name d k rest :
  node_inv s → ok s → (0 ≤ k < max_delivery_attempts)%Z →
  queues (store s) !! name = Some (mkQueueItem d k :: rest) →
  ∃ s', failing_attempt name s = (Ret tt, s') ∧ node_inv s' ∧ ok s' ∧
    abs s' = if (max_delivery_attempts <=? k + 1)%Z
             then a_set_queue (dlq_name name)
                    (default [] (a_queues (abs s) !! dlq_name name) ++ [mkQueueItem d (k + 1)])
                    (a_set_queue name rest (abs s))
             else a_set_queue name (mkQueueItem d (k + 1) :: rest) (abs s).
Proof.
  intros Hi Hp Hk Hq. unfold max_delivery_attempts in Hk.
  assert (next_attempt k = k + 1)%Z as Hn.
  { unfold next_attempt, u32_modulus. by rewrite (proj2 (Z.ltb_lt _ _)) by lia. }
  destruct (dequeue_nonempty s name (mkQueueItem d k) rest)
    as (t & s1 & Hd & (Ht1 & Ht2 & Ht3) & Hf & Ha & Hi1 & Hp1);
    [done|done|unfold u32_modulus; cbn; lia|done|].
  cbn in Ht1, Ht3. rewrite Hn in Ht3.
  destruct (nack_in_flight s1 (t_id t) t) as (s2 & Hnk & Hi2 & Hp2 & Ha2); [done|done| |].
  { change (in_flight (store s1)) with (a_tasks (abs s1)). rewrite Ha. cbn.
    by rewrite lookup_insert_eq. }
  exists s2. split_and!; [|done|done|].
  { unfold failing_attempt. erewrite bind_step by exact Hd. cbv beta iota.
    by erewrite bind_step by exact Hnk. }
  rewrite Ha2, Ha. unfold item_of. rewrite Ht1, Ht2, Ht3.
  assert (fresh_tasks [t] (a_set_queue name rest (abs s))) as Hf' by done.
  rewrite (del_set_fresh_task _ _ Hf'). destruct (max_delivery_attempts <=? k + 1)%Z.
  - cbn [a_queues a_set_task a_set_queue]. by rewrite lookup_insert_ne by (intros ?; by eapply dlq_name_neq).
  - cbn [a_queues a_set_task a_set_queue]. rewrite lookup_insert_eq. cbn [default Datatypes.id].
    by rewrite set_queue_twice.
Qed.

Lemma failing_attempts_loop name d rest n : ∀ k s,
  node_inv s → ok s → (0 ≤ k)%Z → (k + Z.of_nat n = 4)%Z →
  queues (store s) !! name = Some (mkQueueItem d k :: rest) →
  ∃ s', for_each failing_attempt (replicate (S n) name) s = (Ret tt, s') ∧
    abs s' = a_set_queue (dlq_name name)
               (default [] (a_queues (abs s) !! dlq_name name) ++ [mkQueueItem d 5])
               (a_set_queue name rest (abs s)).
Proof.
  induction n as [|n IH]; intros k s Hi Hp Hk0 Hk Hq;
    destruct (failing_attempt_spec s name d k rest) as (s1 & Hf & Hi1 & Hp1 & Ha1);
    try done; try (unfold max_delivery_attempts; lia).
  - exists s1. split; [cbn; by erewrite bind_step by exact Hf|].
    rewrite Ha1. by replace k with 4%Z by lia.
  - rewrite (proj2 (Z.leb_gt _ _)) in Ha1 by (unfold max_delivery_attempts; lia).
    destruct (IH (k + 1)%Z s1) as (s2 & Hl & Ha2); [done|done|lia|lia| |].
    { change (queues (store s1)) with (a_queues (abs s1)). rewrite Ha1. cbn.
      by rewrite lookup_insert_eq. }
    exists s2. split; [cbn [for_each replicate]; by erewrite bind_step by exact Hf|].
    rewrite Ha2, Ha1, set_queue_twice. cbn [a_queues a_set_queue].
    by rewrite lookup_insert_ne by (intros ?; by eapply dlq_name_neq).
Qed.

(** C8. Retry limit: a message that is rejected at each delivery is delivered
    exactly five times from its queue, then sits at the end of the dead letter
    queue with its payload, and nothing else in the node has changed, on a node
    whose log, if it has one, refuses no entry. *)
Theorem poison_message_dead_lettered s name d rest :
  node_inv s → ok s →
  queues (store s) !! name = Some (mkQueueItem d 0 :: rest) →
  ∃ s', for_each failing_attempt (replicate 5 name) s = (Ret tt, s') ∧
    abs s' = a_set_queue (dlq_name name)
               (default [] (a_queues (abs s) !! dlq_name name) ++ [mkQueueItem d 5])
               (a_set_queue name rest (abs s)).
Proof. intros Hi Hp Hq. by apply (failing_attempts_loop name d rest 4 0%Z). Qed.
End poison.

(** ** The theorems *)

Section theorems.
Context `{RT : !Runtime} `{CH : !Chrono} `{CD : !WalCodec} `{UL : !UuidLaws} `{DL : !DashLaws}.

(** C9. Totality: on a node whose items are below the end of [u32] and for a
    batch size a vector can hold, every command returns; no branch panics,
    whatever the disk does. *)
Theorem commands_return s req :
  attempts_below s → count_ok req → returns (apply_request req) s.
Proof. apply apply_request_total. Qed.

(** C32. Batch delivery is single delivery repeated: [dequeue_batch] delivers the
    same payloads, in the same order and with the same counts, as [count] calls
    of [dequeue], and leaves the same queues, on a node whose log, if it has one,
    refuses no entry. *)
Theorem dequeue_batch_iterates_dequeue {ok : Sys → Prop} `{LM : !LogMode false ok} s name count q :
  node_inv s → ok s → attempts_below s →
  (count * size_of_QueueItem ≤ isize_max)%Z → queues (store s) !! name = Some q →
  ∃ ts s1 us s2,
    dequeue_batch name count s = (Ret (Ok ts), s1) ∧
    dequeue_n (Z.to_nat count) name s = (Ret us, s2) ∧
    task_view <$> ts = task_view <$> us ∧ a_queues (abs s1) = a_queues (abs s2).
Proof.
  intros Hi Hp Hb Hc Hq.
  destruct (dequeue_batch_spec name count q s) as (ts & s1 & H1 & Hd & Hq1); [done..|].
  destruct (dequeue_n_spec (Z.to_nat count) name q s) as (us & s2 & H2 & Hu & Hq2); [done..| |].
  { apply Forall_forall. intros item Hin. by eapply Hb. }
  exists ts, s1, us, s2. split_and!; [done|done| |congruence].
  by rewrite Hu, (deliveries_view _ _ _ Hd).
Qed.

(** C34. Failed commands change nothing: when a command of a reachable node
    answers an error, the maps are as before, except that an [ack] the log
    refused has removed its task. *)
Theorem failed_command_keeps_maps s req e s' :
  reachable s → apply_request req s = (Ret (RErr e), s') →
  abs s' = abs s ∨
  ∃ id e', req = RAck id ∧ e = wal_failed_msg e' ∧ persistent s = true ∧
           abs s' = a_del_task id (abs s).
Proof.
  intros [Hids Hwf]%reachable_inv H.
  pose proof (apply_request_sim _ _ _ _ Hids H) as Hs. revert Hs.
  generalize (abs s'). intros a' Hs.
  inversion Hs; subst; eauto 10.
  edestruct (wf_tasks _ Hwf) as [_ [q Hq] _]; [eassumption|]. congruence.
Qed.

(** C33. The queue is first in, first out: what a batch enqueue appends comes
    back, after the items already waiting, in the order it was given, each with
    delivery count one, on a node whose log, if it has one, refuses no entry. *)
Theorem enqueued_in_order {ok : Sys → Prop} `{LM : !LogMode false ok} s name q ds :
  node_inv s → ok s → attempts_below s →
  queues (store s) !! name = Some q →
  (Z.of_nat (length q + length ds) * size_of_QueueItem ≤ isize_max)%Z →
  ∃ s1 ts s2,
    queue_batch name ds s = (Ret (Ok tt), s1) ∧
    dequeue_batch name (Z.of_nat (length q + length ds)) s1 = (Ret (Ok ts), s2) ∧
    task_view <$> ts = (item_view name <$> q) ++ ((λ d, (d, name, 1%Z)) <$> ds) ∧
    queues (store s2) !! name = Some [].
Proof.
  intros Hi Hp Hb Hq Hc.
  destruct (queue_batch_spec name ds q s) as (s1 & H1 & Hi1 & Hp1 & Ha1); [done..|].
  assert (queues (store s1) !! name = Some (q ++ new_items ds)) as Hq1.
  { change (queues (store s1)) with (a_queues (abs s1)). rewrite Ha1. cbn.
    by rewrite lookup_insert_eq. }
  destruct (dequeue_batch_spec name (Z.of_nat (length q + length ds)) (q ++ new_items ds) s1)
    as (ts & s2 & H2 & Hd & Hq2); [done|done| |done|exact Hq1|].
  { intros n l item Hl Hin. change (queues (store s1)) with (a_queues (abs s1)) in Hl.
    rewrite Ha1 in Hl. cbn in Hl. apply lookup_insert_Some in Hl as [[<- <-]|[_ Hl]];
      [|by eapply Hb].
    apply elem_of_app in Hin as [Hin|Hin]; [by eapply Hb|].
    apply list_elem_of_fmap in Hin as (d & -> & _). unfold u32_modulus. cbn. lia. }
  assert (length (q ++ new_items ds) = length q + length ds) as Hlen
    by (unfold new_items; by rewrite length_app, length_fmap).
  rewrite Nat2Z.id, take_ge in Hd by lia. rewrite Nat2Z.id, drop_ge in Hq2 by lia.
  exists s1, ts, s2. split_and!; [done|done| |].
  - rewrite (deliveries_view _ _ _ Hd), fmap_app. f_equal.
    unfold new_items. rewrite <- list_fmap_compose. done.
  - change (queues (store s2)) with (a_queues (abs s2)). by rewrite Hq2, lookup_insert_eq.
Qed.

(** A heartbeat ignores the duration it is given: without a log, extending a
    task by any two durations is the same computation. *)
Theorem heartbeat_duration_ignored id d1 d2 s :
  persistent s = false → extend_visibility id d1 s = extend_visibility id d2 s.
Proof.
  intros Hp. unfold extend_visibility, get_task. rewrite !bind_gets.
  destruct (in_flight (store s) !! id) as [t|]; [|done].
  assert (wal (store s) = None) as Hw.
  { unfold persistent in Hp. destruct (wal (store s)); [|done].
    apply bool_decide_eq_false in Hp. by destruct Hp. }
  unfold wal_append, try_bind, mbind, M_bind, gets. by rewrite Hw.
Qed.

(** An oversized batch size panics: on a non-empty queue, a [count] whose
    vector would exceed [isize::MAX] bytes unwinds the call with nothing popped. *)
Theorem dequeue_batch_capacity_panic s name count q :
  queues (store s) !! name = Some q → q ≠ [] → (isize_max < count * size_of_QueueItem)%Z →
  dequeue_batch name count s = (Panic "capacity overflow", s).
Proof.
  intros Hq Hne Hc. unfold dequeue_batch, get_mut_queue, get_queue, try_bind, mbind, M_bind, gets, mret, M_ret.
  rewrite Hq. rewrite bool_decide_false by done.
  unfold vec_with_capacity. by rewrite (proj2 (Z.ltb_lt _ _)) by done.
Qed.
End theorems.

(** ** Examples

    The theorems at the state of [Storage.ex_session]: queue ["q"] holds one item
    and one task is in flight. *)

#[local] Existing Instance ex_runtime.

Lemma attempts_below_check s :
  map_Forall (λ _ q, Forall (λ item, (qi_attempts item + 1 < u32_modulus)%Z) q) (queues (store s)) →
  attempts_below s.
Proof. intros H name q item Hq Hin. by eapply Forall_forall in Hin; [|by eapply H]. Qed.

Lemma ex_attempts : attempts_below ex_state.
Proof. apply attempts_below_check. apply (bool_decide_unpack _). vm_compute. exact I. Qed.

Lemma commands_return_witness :
  count_ok (RDequeueBatch "q" 1000) ∧ returns (apply_request (RDequeueBatch "q" 1000)) ex_state.
Proof.
  split; [vm_compute; discriminate|].
  apply (commands_return ex_state); [exact ex_attempts | vm_compute; discriminate].
Defined.

Lemma dequeue_batch_iterates_dequeue_witness :
  ∃ ts s1 us s2,
    dequeue_batch "q" 3 ex_state = (Ret (Ok ts), s1) ∧ dequeue_n 3 "q" ex_state = (Ret us, s2) ∧
    task_view <$> ts = task_view <$> us ∧ a_queues (abs s1) = a_queues (abs s2).
Proof.
  apply (dequeue_batch_iterates_dequeue (ok := λ s, persistent s = false) ex_state "q" 3 [mkQueueItem [Byte.x62] 0]);
    [exact (reachable_inv _ ex_reachable)|reflexivity|exact ex_attempts|vm_compute; discriminate
    |vm_compute; reflexivity].
Defined.

Lemma failed_command_keeps_maps_witness :
  ∃ s', apply_request (RAck "nobody") ex_state = (Ret (RErr "Task not found"), s') ∧
    (abs s' = abs ex_state ∨
     ∃ id e', RAck "nobody" = RAck id ∧ "Task not found"%string = wal_failed_msg e' ∧
       persistent ex_state = true ∧ abs s' = a_del_task id (abs ex_state)).
Proof.
  eexists. split; [apply exec_Ret; vm_compute; reflexivity|].
  apply (failed_command_keeps_maps ex_state _ _ _ ex_reachable).
  apply exec_Ret. vm_compute. reflexivity.
Defined.

Lemma enqueued_in_order_witness :
  ∃ s1 ts s2,
    queue_batch "q" [[Byte.x63]; [Byte.x64]] ex_state = (Ret (Ok tt), s1) ∧
    dequeue_batch "q" 3 s1 = (Ret (Ok ts), s2) ∧
    task_view <$> ts =
      [([Byte.x62], "q"%string, 1%Z); ([Byte.x63], "q"%string, 1%Z); ([Byte.x64], "q"%string, 1%Z)] ∧
    queues (store s2) !! "q" = Some [].
Proof.
  apply (enqueued_in_order (ok := λ s, persistent s = false) ex_state "q" [mkQueueItem [Byte.x62] 0] [[Byte.x63]; [Byte.x64]]);
    [exact (reachable_inv _ ex_reachable)|reflexivity|exact ex_attempts|vm_compute; reflexivity
    |vm_compute; discriminate].
Defined.

Lemma heartbeat_duration_ignored_witness :
  persistent ex_state = false ∧
  extend_visibility "task-0" 3600 ex_state = extend_visibility "task-0" 0 ex_state.
Proof. split; [reflexivity | apply (heartbeat_duration_ignored "task-0" 3600 0 ex_state); reflexivity]. Defined.

Lemma dequeue_batch_capacity_panic_witness :
  (u64_modulus - 1 < u64_modulus)%Z ∧
  dequeue_batch "q" (u64_modulus - 1) ex_state = (Panic "capacity overflow", ex_state).
Proof.
  split; [reflexivity|].
  apply (dequeue_batch_capacity_panic ex_state "q" _ [mkQueueItem [Byte.x62] 0]);
    [vm_compute; reflexivity | discriminate | vm_compute; reflexivity].
Defined.
