(* ===== verification/Deliveries.v ===== *)
(** * Delivery counts

    The [u32] a message carries counts its deliveries: no operation resets it, skips
    a delivery or counts one twice, and a node that serves fewer than 2^32 commands
    never reaches the end of the type. *)

From stdpp Require Import prelude base gmap gmultiset strings list fin_maps.
From Stdlib Require Import ZArith Lia Strings.Byte.
From S2P Require Import Prelude Types Env Wal Memory Spec Commands Refinement Invariant Models Storage StorageFn.
Local Open Scope oxide_scope.
Set Warnings "-clear-no-such-hyp".

(** ** Bounds *)

(** No delivery count is above [n]. *)
Record counts_below (n : Z) (a : AState) : Prop := {
  below_queues name q : a_queues a !! name = Some q → Forall (λ item, qi_attempts item ≤ n)%Z q;
  below_tasks id t : a_tasks a !! id = Some t → (t_attempts t ≤ n)%Z }.

Lemma below_weaken m n a : (m ≤ n)%Z → counts_below m a → counts_below n a.
Proof.
  intros Hmn [Hq Ht]. split.
  - intros name q Hl. eapply Forall_impl; [by eapply Hq|]. cbn. lia.
  - intros id t Hl. pose proof (Ht id t Hl). lia.
Qed.

Lemma below_set_queue n name q a :
  Forall (λ item, qi_attempts item ≤ n)%Z q → counts_below n a → counts_below n (a_set_queue name q a).
Proof.
  intros Hq [Hqs Ht]. split; [|exact Ht]. intros m q' Hl. cbn in Hl.
  apply lookup_insert_Some in Hl as [[_ <-]|[_ Hl]]; [done|by eapply Hqs].
Qed.
Lemma below_set_task n id t a :
  (t_attempts t ≤ n)%Z → counts_below n a → counts_below n (a_set_task id t a).
Proof.
  intros Ht [Hq Hts]. split; [exact Hq|]. intros i t' Hl. cbn in Hl.
  apply lookup_insert_Some in Hl as [[_ <-]|[_ Hl]]; [done|by eapply Hts].
Qed.
Lemma below_del_task n id a : counts_below n a → counts_below n (a_del_task id a).
Proof.
  intros [Hq Ht]. split; [exact Hq|]. intros i t Hl. cbn in Hl. apply lookup_delete_Some in Hl as [_ Hl]. by eapply Ht.
Qed.
Lemma below_del_tasks n ids a : counts_below n a → counts_below n (a_del_tasks ids a).
Proof. revert a. induction ids as [|id ids IH]; intros a Ha; [done|]. by apply IH, below_del_task. Qed.
Lemma below_queue n name a :
  counts_below n a → Forall (λ item, qi_attempts item ≤ n)%Z (default [] (a_queues a !! name)).
Proof. intros Ha. destruct (a_queues a !! name) eqn:Hl; [by eapply below_queues|apply Forall_nil_2]. Qed.

#[export] Hint Resolve below_set_queue below_set_task below_del_task below_del_tasks below_queue : oxide.

(** One delivery adds one, below the end of [u32]. *)
Lemma next_attempt_below n k : (k ≤ n)%Z → (n + 1 < u32_modulus)%Z → (next_attempt k ≤ n + 1)%Z.
Proof. intros Hk Hn. unfold next_attempt. rewrite (proj2 (Z.ltb_lt _ _)) by lia. lia. Qed.

Lemma below_set_tasks n ts : ∀ a,
  Forall (λ t, t_attempts t ≤ n)%Z ts → counts_below n a → counts_below n (a_set_tasks ts a).
Proof.
  induction ts as [|t ts IH]; intros a Hts Ha; [done|]. apply Forall_cons in Hts as [Ht Hts].
  rewrite set_tasks_cons. by apply IH, below_set_task.
Qed.

Lemma deliveries_below n name items ts :
  (n + 1 < u32_modulus)%Z → Forall (λ item, qi_attempts item ≤ n)%Z items →
  Forall2 (delivery name) items ts → Forall (λ t, t_attempts t ≤ n + 1)%Z ts.
Proof.
  intros Hn Hi. induction 1 as [|item t items ts (_ & _ & Hd) _ IH]; [apply Forall_nil_2|].
  apply Forall_cons in Hi as [Hi His]. constructor; [|by apply IH]. rewrite Hd. by apply next_attempt_below.
Qed.

(** One command raises no count by more than one. *)
Lemma spec_step_below p n req a resp a' :
  (0 ≤ n)%Z → (n + 1 < u32_modulus)%Z → counts_below n a → spec_step p req a resp a' → counts_below (n + 1) a'.
Proof.
  intros H0 Hn Ha Hs. assert (counts_below (n + 1) a) as Ha' by (eapply below_weaken; [|exact Ha]; lia).
  assert (∀ q, Forall (λ item, qi_attempts item ≤ n)%Z q → Forall (λ item, qi_attempts item ≤ n + 1)%Z q) as Hw.
  { intros q Hq. eapply Forall_impl; [exact Hq|]. cbn. lia. }
  destruct Hs; eauto with oxide;
    repeat match goal with
    | H : a_queues a !! _ = Some ?q |- _ => pose proof (below_queues n a Ha _ _ H); clear H
    | H : a_tasks a !! _ = Some ?t |- _ => pose proof (below_tasks n a Ha _ _ H); clear H
    end.
  - apply below_set_queue; [|done]. apply Forall_app_2; [by apply Hw|]. constructor; [cbn; lia|done].
  - match goal with H : Forall _ (_ :: _) |- _ => apply Forall_cons in H as [Hi Hrest] end.
    apply below_set_task; [|apply below_set_queue; [by apply Hw|done]].
    match goal with H : delivery _ _ _ |- _ => destruct H as (_ & _ & ->) end. by apply next_attempt_below.
  - apply below_set_queue; [|by apply below_del_task]. constructor; [cbn; lia|by apply Hw].
  - apply below_set_queue; [|by apply below_del_task]. apply Forall_app_2; [by apply Hw, below_queue|].
    constructor; [cbn; lia|done].
  - apply below_set_task; [cbn; lia|done].
  - apply below_set_queue; [|done]. apply Forall_app_2; [by apply Hw|].
    apply Forall_fmap, Forall_forall. intros d _. cbn. lia.
  - apply below_set_tasks; [|apply below_set_queue; [by apply Forall_drop, Hw|done]].
    eapply deliveries_below; [done| |done]. by apply Forall_take.
Qed.

(** ** The account of deliveries *)

(** The deliveries made so far of the messages in the queues and in flight. *)
Definition item_deliveries (q : list QueueItem) : Z := foldr Z.add 0%Z (qi_attempts <$> q).
Definition queue_deliveries (m : gmap string (list QueueItem)) : Z :=
  map_fold (λ _ q acc, item_deliveries q + acc)%Z 0%Z m.
Definition task_deliveries (m : gmap string InFlightTask) : Z :=
  map_fold (λ _ t acc, t_attempts t + acc)%Z 0%Z m.
Definition deliveries (a : AState) : Z := (queue_deliveries (a_queues a) + task_deliveries (a_tasks a))%Z.

(** Those of the messages a request takes out for good, and the ones it makes. *)
Definition settled_deliveries (a : AState) (req : ClientRequest) (resp : ClientResponse) : Z :=
  foldr Z.add 0%Z (omap (λ id, t_attempts <$> a_tasks a !! id) (retired_ids req resp)).
Definition response_tasks (resp : ClientResponse) : list InFlightTask :=
  match resp with RTask (Some t) => [t] | RTasks ts => ts | _ => [] end.

Lemma item_deliveries_cons i q : item_deliveries (i :: q) = (qi_attempts i + item_deliveries q)%Z.
Proof. done. Qed.
Lemma item_deliveries_app q1 q2 : item_deliveries (q1 ++ q2) = (item_deliveries q1 + item_deliveries q2)%Z.
Proof. induction q1 as [|i q1 IH]; [done|]. cbn [app]. rewrite !item_deliveries_cons, IH. lia. Qed.
Lemma item_deliveries_new ds : item_deliveries ((λ d, mkQueueItem d 0) <$> ds) = 0%Z.
Proof. induction ds as [|d ds IH]; [done|]. rewrite fmap_cons, item_deliveries_cons, IH. done. Qed.

Lemma queue_deliveries_insert_None m name q :
  m !! name = None → queue_deliveries (<[name := q]> m) = (item_deliveries q + queue_deliveries m)%Z.
Proof. intros H. unfold queue_deliveries. rewrite map_fold_insert_L; [done|intros; lia|done]. Qed.
Lemma queue_deliveries_delete m name :
  queue_deliveries m = (item_deliveries (default [] (m !! name)) + queue_deliveries (delete name m))%Z.
Proof.
  destruct (m !! name) as [q|] eqn:Hq; cbn [default]; [|by rewrite delete_id].
  rewrite <- (queue_deliveries_insert_None _ name) by apply lookup_delete_eq. by rewrite insert_delete_id.
Qed.
Lemma task_deliveries_insert_None m id t :
  m !! id = None → task_deliveries (<[id := t]> m) = (t_attempts t + task_deliveries m)%Z.
Proof. intros H. unfold task_deliveries. rewrite map_fold_insert_L; [done|intros; lia|done]. Qed.

(** How the updates change the account. *)
Lemma deliveries_set_queue a name q :
  deliveries (a_set_queue name q a) =
    (deliveries a + item_deliveries q - item_deliveries (default [] (a_queues a !! name)))%Z.
Proof.
  unfold deliveries. cbn [a_queues a_tasks a_set_queue].
  rewrite (queue_deliveries_delete (a_queues a) name), (queue_deliveries_delete (<[name := q]> (a_queues a)) name).
  rewrite lookup_insert_eq, delete_insert_eq. cbn [default Datatypes.id]. lia.
Qed.

Lemma deliveries_set_task a id t :
  a_tasks a !! id = None → deliveries (a_set_task id t a) = (deliveries a + t_attempts t)%Z.
Proof.
  intros H. unfold deliveries. cbn [a_queues a_tasks a_set_task]. rewrite task_deliveries_insert_None by done. lia.
Qed.

Lemma deliveries_del_task a id :
  deliveries (a_del_task id a) = (deliveries a - default 0 (t_attempts <$> a_tasks a !! id))%Z.
Proof.
  unfold deliveries. cbn [a_queues a_tasks a_del_task]. destruct (a_tasks a !! id) as [t|] eqn:Ht; cbn.
  - rewrite <- (insert_delete_id (a_tasks a) id t Ht) at 2.
    rewrite task_deliveries_insert_None by apply lookup_delete_eq. lia.
  - rewrite delete_id by done. lia.
Qed.

Lemma deliveries_update_task a id t t' :
  a_tasks a !! id = Some t → t_attempts t' = t_attempts t → deliveries (a_set_task id t' a) = deliveries a.
Proof.
  intros Ht Hat. assert (a_set_task id t' a = a_set_task id t' (a_del_task id a)) as ->.
  { unfold a_set_task. cbn. by rewrite insert_delete_eq. }
  rewrite deliveries_set_task by apply lookup_delete_eq.
  rewrite deliveries_del_task, Ht. cbn. lia.
Qed.

Lemma deliveries_del_tasks ids a :
  NoDup ids →
  deliveries (a_del_tasks ids a) =
    (deliveries a - foldr Z.add 0 (omap (λ id, t_attempts <$> a_tasks a !! id) ids))%Z.
Proof.
  intros Hnd. revert a. induction Hnd as [|id ids Hid _ IH]; intros a; [change (a_del_tasks [] a) with a; cbn; lia|].
  assert (omap (λ i, t_attempts <$> a_tasks (a_del_task id a) !! i) ids =
          omap (λ i, t_attempts <$> a_tasks a !! i) ids) as Ho.
  { clear IH. induction ids as [|i ids IHi]; [done|]. cbn.
    rewrite lookup_delete_ne by set_solver. destruct (a_tasks a !! i); cbn; [f_equal|]; apply IHi; set_solver. }
  rewrite del_tasks_cons, IH, Ho, deliveries_del_task. cbn [omap list_omap].
  destruct (a_tasks a !! id); cbn; lia.
Qed.

Lemma deliveries_set_tasks ts : ∀ a,
  fresh_tasks ts a → deliveries (a_set_tasks ts a) = (deliveries a + foldr Z.add 0 (t_attempts <$> ts))%Z.
Proof.
  induction ts as [|t ts IH]; intros a [Hnd Hfr]; [change (a_set_tasks [] a) with a; cbn; lia|].
  rewrite fmap_cons in Hnd. apply NoDup_cons in Hnd as [Ht Hnd]. apply Forall_cons in Hfr as [Hft Hfr].
  rewrite set_tasks_cons, IH; [rewrite deliveries_set_task by done; cbn; lia|]. split; [done|].
  apply Forall_forall. intros t' Hin. cbn. rewrite lookup_insert_ne; [by eapply Forall_forall in Hfr|].
  intros Heq. apply Ht. rewrite Heq. by apply list_elem_of_fmap_2.
Qed.

(** Below the end of the type each delivery adds one. *)
Lemma deliveries_made n name items ts :
  (n + 1 < u32_modulus)%Z → Forall (λ item, qi_attempts item ≤ n)%Z items → Forall2 (delivery name) items ts →
  foldr Z.add 0%Z (t_attempts <$> ts) = (item_deliveries items + Z.of_nat (length ts))%Z.
Proof.
  intros Hn Hi. induction 1 as [|item t items ts (_ & _ & Hd) _ IH]; [done|].
  apply Forall_cons in Hi as [Hi His]. rewrite fmap_cons, item_deliveries_cons. cbn [foldr length].
  rewrite IH, Hd by done. unfold next_attempt. rewrite (proj2 (Z.ltb_lt _ _)) by lia. lia.
Qed.

Lemma spec_step_deliveries p n req a resp a' :
  a_wf a → (n + 1 < u32_modulus)%Z → counts_below n a → spec_step p req a resp a' →
  (deliveries a' + settled_deliveries a req resp =
   deliveries a + Z.of_nat (length (response_tasks resp)))%Z.
Proof.
  intros Hwf Hn Ha Hs. unfold settled_deliveries.
  destruct Hs; cbn [retired_ids response_tasks omap list_omap length foldr];
    repeat match goal with H : a_tasks a !! _ = _ |- _ => rewrite ?H end; cbn [fmap option_fmap option_map foldr];
    rewrite ?deliveries_set_queue, ?deliveries_del_task; cbn [a_queues a_del_task a_tasks];
    repeat match goal with H : a_tasks a !! _ = _ |- _ => rewrite ?H end; cbn [fmap option_fmap option_map default Datatypes.id];
    repeat match goal with H : a_queues a !! _ = _ |- _ => rewrite ?H end; cbn [default Datatypes.id];
    rewrite ?item_deliveries_app, ?item_deliveries_cons, ?item_deliveries_new; cbn [item_deliveries fmap list_fmap foldr qi_attempts item_of];
    try lia.
  - destruct H0 as (_ & _ & Hd), H1 as [_ Hfr]. rewrite Forall_singleton in Hfr.
    pose proof (below_queues n a Ha _ _ H) as Hq. apply Forall_cons in Hq as [Hi _].
    rewrite deliveries_set_task, deliveries_set_queue, H, Hd by done. cbn [default Datatypes.id].
    rewrite item_deliveries_cons. unfold next_attempt. rewrite (proj2 (Z.ltb_lt _ _)) by lia. lia.
  - destruct (wf_tasks _ Hwf _ _ H) as [_ [q Hq] _]. congruence.
  - rewrite deliveries_update_task with (t := t) by done. lia.
  - rewrite deliveries_set_tasks, deliveries_set_queue, H by done. cbn [default Datatypes.id].
    rewrite (deliveries_made n name (take (Z.to_nat count) q) ts); [|done| |done].
    + pose proof (item_deliveries_app (take (Z.to_nat count) q) (drop (Z.to_nat count) q)) as Hp.
      rewrite take_drop in Hp. lia.
    + by apply Forall_take, (below_queues n a Ha name).
  - rewrite <- del_tasks_remove_dups, deliveries_del_tasks by apply NoDup_remove_dups. lia.
  - destruct req; try (by destruct (H0 task_id)); cbn; lia.
Qed.

(** ** The deliveries of a session *)

Section sessions.
Context `{RT : !Runtime} `{CH : !Chrono} `{CD : !WalCodec} `{UL : !UuidLaws} `{DL : !DashLaws}.

(** What the commands of a session take out for good, at the states they meet. *)
Fixpoint session_settled (reqs : list ClientRequest) (s : Sys) : Z :=
  match reqs with
  | [] => 0
  | req :: reqs =>
    match apply_request req s with
    | (Ret resp, s1) => settled_deliveries (abs s) req resp + session_settled reqs s1
    | _ => 0
    end
  end%Z.

Lemma below_attempts n s : (n + 1 < u32_modulus)%Z → counts_below n (abs s) → attempts_below s.
Proof.
  intros Hn Ha name q item Hq Hin. pose proof (below_queues n (abs s) Ha name q Hq) as Hf.
  eapply Forall_forall in Hf; [|exact Hin]. cbn in Hf. lia.
Qed.

(** C21. Every delivery is counted once, and the count never wraps: from a node
    whose counts are at most [n], a session of commands that keeps [n] plus its
    length below 2^32 returns, with no overflow panic and whatever the disk does,
    leaves every count at most [n] plus its length, and the counts of the queues
    and of the tasks in flight have grown, together with those of the messages the
    session settled, by exactly the number of tasks it handed out. *)
Theorem deliveries_counted reqs : ∀ s n,
  node_inv s → (0 ≤ n)%Z → counts_below n (abs s) → Forall count_ok reqs →
  (n + Z.of_nat (length reqs) < u32_modulus)%Z →
  ∃ resps s', apply_requests reqs s = (Ret resps, s') ∧
    counts_below (n + Z.of_nat (length reqs)) (abs s') ∧
    (deliveries (abs s') + session_settled reqs s =
     deliveries (abs s) + Z.of_nat (length (resps ≫= response_tasks)))%Z.
Proof.
  induction reqs as [|req reqs IH]; intros s n Hi H0 Hb Hok Hn.
  { exists [], s. cbn [length apply_requests session_settled]. split_and!; [done| |cbn; lia].
    by replace (n + Z.of_nat 0)%Z with n by lia. }
  cbn [length] in Hn. apply Forall_cons in Hok as [Hok Hoks].
  destruct (apply_request_total req s) as (resp & s1 & H); [by apply (below_attempts n); [lia|]|done|].
  pose proof (apply_request_sim _ _ _ _ (proj1 Hi) H) as Hs.
  destruct (IH s1 (n + 1)%Z) as (resps & s' & Hr & Hb' & Hd); [by eapply node_inv_request|lia| |done|lia|].
  { eapply spec_step_below; [done| |done|exact Hs]. lia. }
  exists (resp :: resps), s'. split_and!.
  - cbn [apply_requests]. erewrite bind_step by exact H. by erewrite bind_step by exact Hr.
  - cbn [length]. by replace (n + Z.of_nat (S (length reqs)))%Z with (n + 1 + Z.of_nat (length reqs))%Z by lia.
  - cbn [session_settled]. rewrite H.
    pose proof (spec_step_deliveries _ n _ _ _ _ (proj2 Hi) ltac:(lia) Hb Hs).
    rewrite bind_cons, length_app. lia.
Qed.
End sessions.

(** ** Examples *)

#[local] Existing Instance ex_runtime.

(** Two deliveries of one message, a third of another, the first one settled. *)
Definition ex_delivered : list ClientRequest :=
  [RCreateQueue "q"; REnqueueBatch "q" [[Byte.x61]; [Byte.x62]]; RDequeue "q"; RNack "task-0";
   RDequeueBatch "q" 2; RAck "task-1"].

Example ex_delivered_counts :
  let '(r, s') := apply_requests ex_delivered ex_start in
  (deliveries (abs s'), session_settled ex_delivered ex_start,
   match r with Ret resps => length (resps ≫= response_tasks) | _ => 0 end) = (1%Z, 2%Z, 3).
Proof. vm_compute. reflexivity. Qed.

Lemma deliveries_counted_witness :
  ∃ resps s', apply_requests ex_delivered ex_start = (Ret resps, s') ∧
    counts_below 6 (abs s') ∧
    (deliveries (abs s') + session_settled ex_delivered ex_start =
     deliveries (abs ex_start) + Z.of_nat (length (resps ≫= response_tasks)))%Z.
Proof.
  apply (deliveries_counted ex_delivered ex_start 0%Z);
    [exact (reachable_inv _ (reach_new None fresh_host))|lia| |repeat constructor; vm_compute; discriminate|vm_compute; reflexivity].
  split; intros ? ? H; cbn in H; by rewrite lookup_empty in H.
Defined.
