(* ===== verification/Maintenance.v ===== *)
(** * Expiry and statistics

    [cleanup_expired_tasks] returns exactly the expired tasks, [get_stats]
    reports exactly the two maps, and the timeout arithmetic has the edges a
    [u64] number of seconds gives it. *)

From stdpp Require Import prelude base gmap gmultiset strings list fin_maps.
From Stdlib Require Import ZArith Lia.
From S2P Require Import Prelude Types Env Wal Memory Spec Commands Refinement Invariant Models Storage StorageFn.
Local Open Scope oxide_scope.
Set Warnings "-clear-no-such-hyp".

Section maintenance.
Context `{RT : !Runtime} `{CH : !Chrono} `{CD : !WalCodec} `{UL : !UuidLaws} `{DL : !DashLaws}.

(** ** Cleanup *)

Lemma iter_map_Ret {V} (get : InMemoryStorage → gmap string V) s :
  ∃ l s', iter_map get s = (Ret l, s') ∧ l ≡ₚ map_to_list (get (store s)) ∧ quiet s s' ∧
          store s' = store s.
Proof.
  destruct (dash_iter (get (store s)) (host s)) as [l h] eqn:E.
  assert (iter_map get s = (Ret l, mkSys (store s) h)) as H.
  { unfold iter_map. rewrite bind_gets. unfold on_host. by rewrite E. }
  exists l, (mkSys (store s) h). split_and!; [done| |by eapply iter_map_quiet|done].
  pose proof (dash_iter_perm (get (store s)) (host s)) as Hp. by rewrite E in Hp.
Qed.

Lemma nack_all_spec {ok : Sys → Prop} `{LM : !LogMode false ok} ids n s :
  node_inv s → ok s → NoDup ids →
  (∀ id, id ∈ ids → is_Some (in_flight (store s) !! id)) →
  ∃ s', nack_all ids n s = (Ret (n + Z.of_nat (length ids))%Z, s') ∧
    ∀ i, in_flight (store s') !! i = if decide (i ∈ ids) then None else in_flight (store s) !! i.
Proof.
  revert n s. induction ids as [|id ids IH]; intros n s Hi Hp Hnd Hin.
  { exists s. split; [cbn; by rewrite Z.add_0_r|]. intros i. by rewrite decide_False by set_solver. }
  apply NoDup_cons in Hnd as [Hid Hnd].
  destruct (Hin id) as [t Ht]; [set_solver|].
  destruct (nack_in_flight s id t) as (s1 & Hn & Hi1 & Hp1 & Ha1); [done..|].
  assert (in_flight (store s1) = delete id (in_flight (store s))) as Hfl.
  { change (in_flight (store s1)) with (a_tasks (abs s1)). rewrite Ha1. by case_match. }
  destruct (IH (n + 1)%Z s1) as (s2 & Hall & Hl); [done..| |].
  { intros i Hi'. rewrite Hfl, lookup_delete_ne by set_solver. apply Hin. set_solver. }
  exists s2. split.
  - cbn [nack_all length]. erewrite bind_step by exact Hn. cbv beta iota.
    rewrite Hall. do 2 f_equal. lia.
  - intros i. rewrite Hl, Hfl, lookup_delete. repeat case_decide; set_solver.
Qed.

Lemma scan_expired_Ret timeout d s :
  duration_seconds (u64_as_i64 timeout) = Some d →
  ∃ ids s', scan_expired_tasks timeout s = (Ret ids, s') ∧ quiet s s' ∧ store s' = store s ∧
    ids ≡ₚ (map_to_list (filter (λ kv, expired (utc_now (host s)).1 d kv.2 = true)
                           (in_flight (store s)))).*1.
Proof.
  intros Hd. unfold scan_expired_tasks.
  destruct (utc_now (host s)) as [n h] eqn:Hu.
  assert (now s = (Ret n, mkSys (store s) h)) as Hn by (unfold now, on_host; by rewrite Hu).
  destruct (iter_map_Ret in_flight (mkSys (store s) h)) as (l & s' & Hl & Hperm & Hq & Hst).
  eexists _, s'. split_and!.
  - erewrite bind_step by exact Hn. rewrite Hd. by erewrite bind_step by exact Hl.
  - etrans; [by eapply now_quiet|done].
  - done.
  - cbn [store] in Hperm. by rewrite map_to_list_filter_perm, Hperm.
Qed.

Lemma scan_ok `{LM : !LogMode f ok} timeout s ids s' :
  ok s → scan_expired_tasks timeout s = (Ret ids, s') → ok s'.
Proof.
  unfold scan_expired_tasks. intros Hok H. minv. destruct (duration_seconds _); minv.
  eapply mode_iter; [|eassumption]. by eapply mode_now.
Qed.

Lemma cleanup_keeps_messages timeout s r s' :
  node_inv s → cleanup_expired_tasks timeout s = (Ret r, s') → messages (abs s') = messages (abs s).
Proof.
  intros Hi H.
  assert (node_inv s' ∧ messages (abs s') = messages (abs s)) as [_ ?]; [|done].
  revert H. eapply (cleanup_ind (λ s', node_inv s' ∧ messages (abs s') = messages (abs s)));
    [| |by split].
  - intros id s1 r1 s2 [Hi1 Hm] Hn. split; [by eapply node_inv_nack|]. rewrite <- Hm.
    pose proof (spec_step_messages _ _ _ _ _ (proj2 Hi1) (apply_request_sim _ _ _ _ (proj1 Hi1) (nack_as_request _ _ _ _ Hn))) as Hc.
    unfold consumed, produced in Hc. cbn in Hc. destruct r1; multiset_solver.
  - intros s1 s2 Hq [Hi1 Hm]. split; [by eapply quiet_node_inv|]. by rewrite (proj1 Hq).
Qed.

(** C31. Cleanup: on a node whose log, if it has one, refuses no entry, one pass
    removes from the in-flight map exactly the tasks whose age exceeds the timeout
    at the instant of the scan, counts each of them, and keeps every message of
    the node. *)
Theorem cleanup_exact {ok : Sys → Prop} `{LM : !LogMode false ok} s timeout d :
  node_inv s → ok s → duration_seconds (u64_as_i64 timeout) = Some d →
  let n := (utc_now (host s)).1 in
  ∃ s', cleanup_expired_tasks timeout s =
      (Ret (Ok (Z.of_nat (size (filter (λ kv, expired n d kv.2 = true) (in_flight (store s)))))), s') ∧
    in_flight (store s') = filter (λ kv, expired n d kv.2 = false) (in_flight (store s)) ∧
    messages (abs s') = messages (abs s).
Proof.
  intros Hi Hp Hd n.
  destruct (scan_expired_Ret timeout d s Hd) as (ids & s1 & Hscan & Hq1 & Hst1 & Hids).
  assert (∀ i, i ∈ ids ↔ ∃ t, in_flight (store s) !! i = Some t ∧ expired n d t = true) as Hin.
  { intros i. rewrite Hids, elem_of_map_keys. unfold is_Some.
    setoid_rewrite map_lookup_filter_Some. done. }
  destruct (nack_all_spec ids 0 s1) as (s2 & Hall & Hl).
  - by eapply quiet_node_inv.
  - by eapply scan_ok.
  - rewrite Hids. apply NoDup_fst_map_to_list.
  - intros id (t & Ht & _)%Hin. rewrite Hst1. by exists t.
  - assert (cleanup_expired_tasks timeout s = (Ret (Ok (Z.of_nat (length ids))), s2)) as Hc.
    { unfold cleanup_expired_tasks. erewrite bind_step by exact Hscan.
      by erewrite bind_step by exact Hall. }
    exists s2. rewrite Hc, Hids, length_fmap, length_map_to_list.
    split_and!; [done| |by eapply cleanup_keeps_messages].
    apply map_eq. intros i. rewrite Hl, Hst1. apply option_eq. intros t.
    rewrite map_lookup_filter_Some. cbn. case_decide as Hi'.
    + apply Hin in Hi' as (t' & Ht' & He). split; [done|]. intros [Ht He']. congruence.
    + split; [|by intros []]. intros Ht. split; [done|].
      destruct (expired n d t) eqn:He; [|done]. destruct Hi'. apply Hin. eauto.
Qed.

(** C23. The range of the timeout: a [u64] number of seconds is cast to [i64] and
    made a duration.  Up to [i64::MAX / 1000] it is what it says, and a task expires
    after exactly that time; above, the scan panics; and within the same distance of
    [2^64] it counts as negative, so that every task already delivered has expired. *)
Theorem timeout_edges `{CL : !ChronoLaws} s timeout :
  in_u64 timeout →
  ((timeout ≤ i64_max / 1000)%Z →
     duration_seconds (u64_as_i64 timeout) = Some (timeout * 1000000000)%Z ∧
     ∀ n t, expired n (timeout * 1000000000) t = true ↔
            (t_consumed_at t + timeout * 1000000000 < n)%Z) ∧
  ((i64_max / 1000 < timeout < u64_modulus - i64_max / 1000)%Z →
     (scan_expired_tasks timeout s).1 = Panic "TimeDelta::seconds out of bounds") ∧
  ((u64_modulus - i64_max / 1000 ≤ timeout)%Z →
     duration_seconds (u64_as_i64 timeout) = Some ((timeout - u64_modulus) * 1000000000)%Z ∧
     ∀ n t, (t_consumed_at t ≤ n)%Z → expired n ((timeout - u64_modulus) * 1000000000) t = true).
Proof.
  unfold in_u64, u64_modulus. intros Hr.
  assert (i64_max / 1000 = 9223372036854775)%Z as Hm by reflexivity. rewrite Hm.
  assert ((timeout < 2 ^ 63)%Z → u64_as_i64 timeout = timeout) as Hlo.
  { intros H. unfold u64_as_i64. by rewrite (proj2 (Z.ltb_lt _ _)). }
  assert ((2 ^ 63 ≤ timeout)%Z → u64_as_i64 timeout = timeout - 2 ^ 64)%Z as Hhi.
  { intros H. unfold u64_as_i64. by rewrite (proj2 (Z.ltb_ge _ _)). }
  split_and!; intros H.
  - split; [rewrite Hlo by lia; apply duration_seconds_in_range; lia|]. intros n t.
    unfold expired. rewrite signed_duration_since_spec, Z.ltb_lt. lia.
  - unfold scan_expired_tasks. destruct (now_returns s) as (n & s1 & Hn & _).
    erewrite bind_step by exact Hn. rewrite duration_seconds_out_of_range; [done|].
    destruct (Z.lt_ge_cases timeout (2 ^ 63)); [rewrite Hlo by done|rewrite Hhi by done]; lia.
  - split; [rewrite Hhi by lia; apply duration_seconds_in_range; lia|]. intros n t Ht.
    unfold expired. rewrite signed_duration_since_spec, Z.ltb_lt. unfold u64_modulus. lia.
Qed.

(** ** Statistics *)

(** The tasks in flight from a queue. *)
Definition tasks_from (name : string) (m : gmap string InFlightTask) : nat :=
  length (filter (λ kv : string * InFlightTask, t_queue_name kv.2 = name) (map_to_list m)).

Lemma collect_stats_Ret rs acc s :
  ∃ st s', collect_stats rs acc s = (Ret st, s') ∧ store s' = store s ∧
    (NoDup rs.*1 → ∀ name, st !! name =
      match (list_to_map rs : gmap string (list QueueItem)) !! name with
      | Some q => Some (mkQueueStats (length q) (tasks_from name (in_flight (store s))))
      | None => acc !! name
      end).
Proof.
  revert acc s. induction rs as [|[name q] rs IH]; intros acc s.
  { exists acc, s. split_and!; [done|done|]. intros _ name. cbn. by rewrite lookup_empty. }
  cbn [collect_stats].
  destruct (iter_map_Ret in_flight s) as (l & s1 & Hl & Hperm & _ & Hst1).
  destruct (IH (<[name := mkQueueStats (length q)
    (length (filter (λ kv : string * InFlightTask, t_queue_name kv.2 = name) l))]> acc) s1)
    as (st & s2 & Hc & Hst2 & Hlk).
  exists st, s2. split_and!; [by erewrite bind_step by exact Hl|congruence|].
  rewrite fmap_cons. cbn [fst]. intros [Hn Hnd]%NoDup_cons name'. rewrite Hlk by done. cbn.
  destruct (decide (name = name')) as [<-|Hne].
  - rewrite lookup_insert_eq, (not_elem_of_list_to_map_1 _ _ Hn), lookup_insert_eq.
    unfold tasks_from. by rewrite Hperm.
  - rewrite !lookup_insert_ne by done. by rewrite Hst1.
Qed.

(** Statistics: [get_stats] changes nothing and reports, for each queue,
    its length and the number of in-flight tasks taken from it; the per-queue
    in-flight counts add up to the total, so no task is missing or counted
    twice. *)
Theorem get_stats_correct s :
  reachable s →
  ∃ st s', get_stats s = (Ret (Ok st), s') ∧ store s' = store s ∧
    total_in_flight st = size (in_flight (store s)) ∧
    (∀ name, queue_stats st !! name =
       (λ q, mkQueueStats (length q) (tasks_from name (in_flight (store s))))
         <$> queues (store s) !! name) ∧
    sum_list ((λ name, default 0 (in_flight_count <$> queue_stats st !! name))
              <$> (map_to_list (queues (store s))).*1) = total_in_flight st.
Proof.
  intros [_ Hwf]%reachable_inv. unfold get_stats.
  destruct (iter_map_Ret queues s) as (rs & s1 & Hrs & Hperm & _ & Hst1).
  destruct (collect_stats_Ret rs ∅ s1) as (st & s2 & Hc & Hst2 & Hlk).
  assert (NoDup rs.*1) as Hnd by (rewrite Hperm; apply NoDup_fst_map_to_list).
  assert (∀ name, st !! name =
    (λ q, mkQueueStats (length q) (tasks_from name (in_flight (store s))))
      <$> queues (store s) !! name) as Hst.
  { intros name. rewrite Hlk by done. rewrite (list_to_map_proper _ _ Hnd Hperm).
    rewrite list_to_map_to_list, Hst1. by destruct (queues (store s) !! name). }
  exists (mkStats (size (in_flight (store s))) st), s2. split_and!.
  - rewrite bind_gets. erewrite bind_step by exact Hrs. by erewrite bind_step by exact Hc.
  - congruence.
  - done.
  - exact Hst.
  - cbn [total_in_flight queue_stats]. rewrite <- length_map_to_list.
    rewrite <- (sum_list_partition (λ kv, t_queue_name kv.2) (map_to_list (queues (store s))).*1);
      [|apply NoDup_fst_map_to_list|].
    + f_equal. apply list_fmap_ext. intros _ name Hin%list_elem_of_lookup_2.
      apply elem_of_map_keys in Hin as [q Hq]. by rewrite Hst, Hq.
    + apply Forall_forall. intros [id t] Hin%elem_of_map_to_list. apply elem_of_map_keys.
      by destruct (wf_tasks _ Hwf id t Hin).
Qed.
End maintenance.

(** ** Examples *)

#[local] Existing Instance ex_runtime.

(** A timeout of [u64::MAX] seconds counts as minus one second: the task just
    delivered is expired at once. *)
Lemma cleanup_exact_witness :
  ∃ s', cleanup_expired_tasks (u64_modulus - 1) ex_state = (Ret (Ok 1%Z), s') ∧
    size (in_flight (store s')) = 0 ∧
    messages (abs s') = messages (abs ex_state).
Proof.
  destruct (cleanup_exact (ok := λ s, persistent s = false) ex_state (u64_modulus - 1) (-1000000000))
    as (s' & H & Hfl & Hm); [exact (reachable_inv _ ex_reachable)|reflexivity|vm_compute; reflexivity|].
  exists s'. split; [rewrite H; do 3 f_equal; vm_compute; reflexivity|]. split; [|exact Hm].
  rewrite Hfl. vm_compute. reflexivity.
Defined.

Lemma timeout_edges_witness :
  (scan_expired_tasks (2 ^ 62) ex_state).1 = Panic "TimeDelta::seconds out of bounds" ∧
  duration_seconds (u64_as_i64 (u64_modulus - 1)) = Some (-1000000000)%Z.
Proof.
  split.
  - apply (timeout_edges ex_state (2 ^ 62)); vm_compute; intuition discriminate.
  - apply (timeout_edges ex_state (u64_modulus - 1)); vm_compute; intuition discriminate.
Defined.

Lemma get_stats_correct_witness :
  ∃ st s', get_stats ex_state = (Ret (Ok st), s') ∧ total_in_flight st = 1 ∧
    queue_stats st !! "q" = Some (mkQueueStats 1 1).
Proof.
  destruct (get_stats_correct ex_state ex_reachable) as (st & s' & H & _ & Ht & Hq & _).
  exists st, s'. split; [exact H|]. split; [rewrite Ht | rewrite Hq]; vm_compute; reflexivity.
Defined.
