(* ===== verification/Interface.v ===== *)
(** * The [Storage] trait ([storage/mod.rs])

    The trait is a type class of operations over a state.  [StorageContract] is what
    this development asks of an implementation, and more than the comments of the
    trait say: every command is a step of the abstract queue service on what the
    state shows, a cleanup pass is a run of rejections, the statistics change
    nothing, and no identifier is handed out twice.  Lemmas on clients are proved
    from the contract, [InMemoryStorage] is proved to be an instance of both
    classes, and the theorem is about [InMemoryStorage]. *)

From stdpp Require Import prelude base gmap strings list fin_maps.
From Stdlib Require Import ZArith Lia.
From S2P Require Import Prelude Types Env Wal Memory Spec Commands Refinement Invariant Models Storage Maintenance.
Local Open Scope oxide_scope.
Set Warnings "-clear-no-such-hyp".

(** ** Operations *)

Class Storage (S : Type) := {
  st_create_queue : string → M S (Result unit string);
  st_queue : string → bytes → M S (Result unit string);
  st_dequeue : string → M S (Result (option InFlightTask) string);
  st_ack : string → M S (Result unit string);
  st_nack : string → M S (Result unit string);
  st_extend_visibility : string → Z → M S (Result unit string);
  st_cleanup_expired_tasks : Z → M S (Result Z string);
  st_get_stats : M S (Result Stats string);
  st_queue_batch : string → list bytes → M S (Result unit string);
  st_dequeue_batch : string → Z → M S (Result (list InFlightTask) string);
  st_ack_batch : list string → M S (Result unit string) }.

Section client.
Context {S : Type} `{ST : !Storage S}.

(** A command through the trait, as the state machine of a cluster dispatches it. *)
Definition dispatch (req : ClientRequest) : M S ClientResponse :=
  match req with
  | RCreateQueue name => r ← st_create_queue name; mret (unit_response r)
  | REnqueue name data => r ← st_queue name data; mret (unit_response r)
  | RDequeue name => r ← st_dequeue name; mret (match r with Ok task => RTask task | Err e => RErr e end)
  | RAck id => r ← st_ack id; mret (unit_response r)
  | RNack id => r ← st_nack id; mret (unit_response r)
  | RExtendVisibility id d => r ← st_extend_visibility id d; mret (unit_response r)
  | REnqueueBatch name data => r ← st_queue_batch name data; mret (unit_response r)
  | RDequeueBatch name count =>
    r ← st_dequeue_batch name count; mret (match r with Ok tasks => RTasks tasks | Err e => RErr e end)
  | RAckBatch ids => r ← st_ack_batch ids; mret (unit_response r)
  end.

(** What the program does with a storage: commands, cleanup passes, statistics. *)
Inductive Op := Command (req : ClientRequest) | Cleanup (timeout_seconds : Z) | Stat.
Inductive Answer := Responded (resp : ClientResponse) | Cleaned (r : Result Z string) | Counted (r : Result Stats string).

Definition operate (op : Op) : M S Answer :=
  match op with
  | Command req => resp ← dispatch req; mret (Responded resp)
  | Cleanup timeout => r ← st_cleanup_expired_tasks timeout; mret (Cleaned r)
  | Stat => r ← st_get_stats; mret (Counted r)
  end.

Fixpoint session (ops : list Op) : M S (list Answer) :=
  match ops with
  | [] => mret []
  | op :: ops' => a ← operate op; answers ← session ops'; mret (a :: answers)
  end.
End client.

(** ** The contract

    The laws of the abstract service for an implementation, as an interface between
    the files; the program's only implementation satisfies it below. *)

Class StorageContract (S : Type) `{ST : !Storage S} := {
  valid : S → Prop;
  (** The queues and in-flight tasks a state stands for. *)
  view : S → AState;
  (** Whether it may refuse a command it cannot log. *)
  lossy : S → bool;
  (** The identifiers handed out so far. *)
  known : S → gset string;
  known_tasks s id : valid s → is_Some (a_tasks (view s) !! id) → id ∈ known s;
  command_step s req resp s' :
    valid s → dispatch req s = (Ret resp, s') →
    valid s' ∧ lossy s' = lossy s ∧ spec_step (lossy s) req (view s) resp (view s') ∧
    known s ⊆ known s' ∧ Forall (λ id, id ∈ known s' ∧ id ∉ known s) (response_ids resp);
  cleanup_steps s timeout r s' :
    valid s → st_cleanup_expired_tasks timeout s = (Ret r, s') →
    valid s' ∧ lossy s' = lossy s ∧ known s ⊆ known s' ∧
    ∃ ids resps, spec_run (lossy s) (RNack <$> ids) (view s) resps (view s');
  stats_keep s r s' :
    valid s → st_get_stats s = (Ret r, s') →
    valid s' ∧ lossy s' = lossy s ∧ known s' = known s ∧ view s' = view s }.

(** ** A client of the trait *)

Section contract.
Context {S : Type} `{SC : StorageContract S}.

(** The operation names the task in a way that needs it to be in flight. *)
Definition settles_or_extends (id : string) (op : Op) : Prop :=
  match op with
  | Command (RAck i) | Command (RNack i) | Command (RExtendVisibility i _) => i = id
  | Command (RAckBatch ids) => id ∈ ids
  | _ => False
  end.
Definition refused (a : Answer) : Prop := ∃ e, a = Responded (RErr e).
Definition answer_ids (a : Answer) : list string :=
  match a with Responded resp => response_ids resp | _ => [] end.

(** [id] was handed out and is not in flight any more. *)
Definition retired (id : string) (s : S) : Prop :=
  valid s ∧ id ∈ known s ∧ a_tasks (view s) !! id = None.

Lemma spec_step_absent p req a resp a' id :
  spec_step p req a resp a' → a_tasks a !! id = None → id ∉ response_ids resp → a_tasks a' !! id = None.
Proof.
  intros Hs Hid Hin. apply eq_None_not_Some. intros Hsome.
  destruct (spec_step_tasks _ _ _ _ _ id Hs Hsome) as [[t Ht]|]; [congruence|done].
Qed.

Lemma spec_nack_delivers_none p i a resp a' : spec_step p (RNack i) a resp a' → response_ids resp = [].
Proof. by inversion 1. Qed.

Lemma spec_nacks_absent p ids : ∀ a resps a' id,
  spec_run p (RNack <$> ids) a resps a' → a_tasks a !! id = None → a_tasks a' !! id = None.
Proof.
  induction ids as [|i ids IH]; intros a resps a' id H Hid; inversion H; simplify_eq; [done|].
  eapply IH; [done|]. eapply spec_step_absent; [done..|].
  erewrite spec_nack_delivers_none by done. apply not_elem_of_nil.
Qed.

Lemma spec_step_retired p req a resp a' id :
  spec_step p req a resp a' → a_tasks a !! id = None →
  settles_or_extends id (Command req) → refused (Responded resp).
Proof.
  intros Hs Hid Hop. destruct Hs; cbn in Hop; try done; subst; try congruence; try (by eexists).
  match goal with H : Forall _ _ |- _ => rewrite Forall_forall in H; destruct (H id Hop); congruence end.
Qed.

Lemma operate_retired id op s a s' :
  retired id s → operate op s = (Ret a, s') →
  retired id s' ∧ (id ∉ answer_ids a) ∧ (settles_or_extends id op → refused a).
Proof.
  intros (Hv & Hk & Hid) H. destruct op as [req|timeout|]; cbn in H; minv.
  - match goal with H : dispatch _ _ = _ |- _ => destruct (command_step _ _ _ _ Hv H) as (Hv' & _ & Hs & Hk' & Hnew) end.
    assert (id ∉ response_ids x) as Hn.
    { intros Hin. rewrite Forall_forall in Hnew. by destruct (Hnew id Hin). }
    split; [split_and!; [done|by apply Hk'|by eapply spec_step_absent]|]. split; [done|].
    by apply (spec_step_retired _ _ _ _ _ _ Hs).
  - match goal with H : st_cleanup_expired_tasks _ _ = _ |- _ =>
      destruct (cleanup_steps _ _ _ _ Hv H) as (Hv' & _ & Hk' & ids & resps & Hr) end.
    split; [split_and!; [done|by apply Hk'|by eapply spec_nacks_absent]|]. split; [by apply not_elem_of_nil|done].
  - match goal with H : st_get_stats _ = _ |- _ => destruct (stats_keep _ _ _ Hv H) as (Hv' & _ & Hk' & Hview) end.
    split; [split_and!; [done|by rewrite Hk'|by rewrite Hview]|]. split; [by apply not_elem_of_nil|done].
Qed.

(** The operation that comes too late changes nothing. *)
Lemma spec_step_late p req a resp a' id :
  spec_step p req a resp a' → a_tasks a !! id = None → settles_or_extends id (Command req) → a' = a.
Proof.
  intros Hs Hid Hop. destruct Hs; cbn in Hop; try done; subst; try congruence.
  match goal with H : Forall _ _ |- _ => rewrite Forall_forall in H; destruct (H id Hop); congruence end.
Qed.

Lemma operate_late id op s a s' :
  retired id s → settles_or_extends id op → operate op s = (Ret a, s') → view s' = view s.
Proof.
  intros (Hv & _ & Hid) Hop H. destruct op as [req|timeout|]; cbn in H; minv; try done.
  match goal with H : dispatch _ _ = _ |- _ => destruct (command_step _ _ _ _ Hv H) as (_ & _ & Hs & _) end.
  by eapply spec_step_late.
Qed.

(** The command settles the task when it succeeds. *)
Definition settles (id : string) (req : ClientRequest) : Prop :=
  match req with
  | RAck i | RNack i => i = id
  | RAckBatch ids => id ∈ ids
  | _ => False
  end.

Lemma del_tasks_None ids : ∀ a id, id ∈ ids ∨ a_tasks a !! id = None → a_tasks (a_del_tasks ids a) !! id = None.
Proof.
  induction ids as [|i ids IH]; intros a id H; [destruct H as [?%not_elem_of_nil|]; done|].
  apply IH. cbn. destruct (decide (i = id)) as [->|]; [right; apply lookup_delete_eq|].
  rewrite lookup_delete_ne by done. destruct H as [H|]; [left|by right]. by apply elem_of_cons in H as [<-|].
Qed.

Lemma spec_step_settles f id req a a' :
  spec_step f req a ROk a' → settles id req → is_Some (a_tasks a !! id) ∧ a_tasks a' !! id = None.
Proof.
  intros Hs Hid. inversion Hs; subst; cbn [settles] in Hid; try done; subst;
    cbn [a_tasks a_set_queue a_del_task]; rewrite ?lookup_delete_eq; (split; [|try done]); eauto.
  - match goal with H : Forall _ _ |- _ => rewrite Forall_forall in H; by apply H end.
  - apply del_tasks_None. by left.
Qed.

(** A command that settled a task retires its identifier, and a session keeps it so. *)
Lemma dispatch_retires id req s s1 :
  valid s → settles id req → dispatch req s = (Ret ROk, s1) → retired id s1.
Proof.
  intros Hv Hset H. destruct (command_step _ _ _ _ Hv H) as (Hv1 & _ & Hs & Hk & _).
  destruct (spec_step_settles _ _ _ _ _ Hs Hset) as [Hin Hout]. split_and!; [done| |done].
  by apply Hk, known_tasks.
Qed.

Lemma session_retired id ops : ∀ s answers s',
  retired id s → session ops s = (Ret answers, s') → retired id s'.
Proof.
  induction ops as [|op ops IH]; intros s answers s' Hr H; cbn in H; minv; [done|].
  match goal with H : operate _ _ = _ |- _ => destruct (operate_retired _ _ _ _ _ Hr H) as [Hr' _] end.
  by eapply IH.
Qed.
End contract.

(** ** [InMemoryStorage] keeps the contract *)

Section in_memory.
Context `{RT : !Runtime} `{CH : !Chrono} `{CD : !WalCodec}.

#[export] Instance in_memory_storage : Storage Sys := {
  st_create_queue := create_queue;
  st_queue := enqueue;
  st_dequeue := dequeue;
  st_ack := ack;
  st_nack := nack;
  st_extend_visibility := extend_visibility;
  st_cleanup_expired_tasks := cleanup_expired_tasks;
  st_get_stats := get_stats;
  st_queue_batch := queue_batch;
  st_dequeue_batch := dequeue_batch;
  st_ack_batch := ack_batch }.

(** The state machine's dispatch is the client's. *)
Lemma dispatch_in_memory req : dispatch (S := Sys) req = apply_request req.
Proof. by destruct req. Qed.

Context `{UL : !UuidLaws} `{DL : !DashLaws}.

(** A cleanup pass rejects one task after the other. *)
Lemma nack_all_run `{LM : !LogMode f ok} ids : ∀ n s m s',
  node_inv s → ok s → nack_all ids n s = (Ret m, s') →
  node_inv s' ∧ issues s [] s' ∧ ∃ resps, spec_run f (RNack <$> ids) (abs s) resps (abs s').
Proof.
  induction ids as [|id ids IH]; intros n s m s' Hi Hok H; cbn in H; minv.
  { split_and!; [done|by apply issues_same|]. eexists. constructor. }
  match goal with H : nack _ _ = _ |- _ =>
    pose proof (nack_issues _ _ _ _ H) as (Hp & Hsub & _); pose proof (nack_ok _ _ _ _ Hok H) as Hok1;
    pose proof (node_inv_nack _ _ _ _ Hi H) as Hi1; apply nack_sim in H as Hs; [|done] end.
  match goal with H : nack_all _ _ _ = _ |- _ =>
    destruct (IH _ _ _ _ Hi1 Hok1 H) as (Hi' & (Hp' & Hsub' & _) & resps & Hr) end.
  split_and!; [done|split_and!; [congruence|set_solver|apply Forall_nil_2]|].
  eexists. by econstructor.
Qed.

Lemma cleanup_run `{LM : !LogMode f ok} timeout s r s' :
  node_inv s → ok s → cleanup_expired_tasks timeout s = (Ret r, s') →
  node_inv s' ∧ issues s [] s' ∧ ∃ ids resps, spec_run f (RNack <$> ids) (abs s) resps (abs s').
Proof.
  unfold cleanup_expired_tasks. intros Hi Hok H. minv.
  match goal with H : scan_expired_tasks _ _ = _ |- _ =>
    pose proof (scan_quiet _ _ _ _ H) as (Ha & Hp & Hh); apply scan_ok in H as Hok1; [|done];
    pose proof (quiet_node_inv _ _ (scan_quiet _ _ _ _ H) Hi) as Hi1 end.
  match goal with H : nack_all _ _ _ = _ |- _ =>
    destruct (nack_all_run _ _ _ _ _ Hi1 Hok1 H) as (Hi' & (Hp' & Hsub' & _) & resps & Hr) end.
  split; [done|]. split; [split_and!; [congruence|by rewrite <- Hh|apply Forall_nil_2]|].
  rewrite <- Ha. by eexists _, _.
Qed.

Lemma collect_stats_quiet rs : ∀ acc s m s', collect_stats rs acc s = (Ret m, s') → quiet s s'.
Proof.
  induction rs as [|[name q] rs IH]; intros acc s m s' H; cbn in H; minv; [done|].
  match goal with H : iter_map _ _ = _ |- _ => apply iter_map_quiet in H as (? & ? & ?) end.
  match goal with H : collect_stats _ _ _ = _ |- _ => apply IH in H as (? & ? & ?) end.
  split_and!; congruence.
Qed.

Lemma get_stats_quiet s r s' : get_stats s = (Ret r, s') → quiet s s'.
Proof.
  unfold get_stats. intros H. minv.
  match goal with H : iter_map _ _ = _ |- _ => apply iter_map_quiet in H as (? & ? & ?) end.
  match goal with H : collect_stats _ _ _ = _ |- _ => apply collect_stats_quiet in H as (? & ? & ?) end.
  split_and!; congruence.
Qed.

#[export] Program Instance in_memory_contract : StorageContract Sys := {|
  valid := node_inv;
  view := abs;
  lossy := persistent;
  known s := issued (host s) |}.
Next Obligation. intros s id [Hids _]. apply Hids. Qed.
Next Obligation.
  intros s req resp s' Hi H. rewrite dispatch_in_memory in H.
  destruct (apply_request_issues _ _ _ _ H) as (Hp & Hsub & Hnew).
  split_and!; [by eapply node_inv_request|done|eapply apply_request_sim; [apply Hi|done]|done|done].
Qed.
Next Obligation.
  intros s timeout r s' Hi H.
  destruct (cleanup_run (ok := λ s0, persistent s0 = persistent s) _ _ _ _ Hi eq_refl H)
    as (? & (? & ? & _) & ?). by split_and!.
Qed.
Next Obligation.
  intros s r s' Hi H. cbn in H. apply get_stats_quiet in H as Hq. destruct (Hq) as (Ha & Hp & Hh).
  split_and!; [by eapply quiet_node_inv|done..].
Qed.

(** C19. Settling a task is final: once a node answered success to an [ack], a
    [nack] or an [ack_batch] that names the task, then whatever commands, cleanup
    passes and statistics follow and whatever the disk does, the task is not in
    flight, the next operation does not hand its identifier out, and if that
    operation is an acknowledgement, a rejection, an extension or a batch
    acknowledgement that names it, it is an error and leaves the maps as they are. *)
Theorem settled_is_final id req s s1 ops answers s2 op a s3 :
  reachable s → settles id req → apply_request req s = (Ret ROk, s1) →
  session ops s1 = (Ret answers, s2) → operate op s2 = (Ret a, s3) →
  in_flight (store s2) !! id = None ∧ (id ∉ answer_ids a) ∧
  (settles_or_extends id op → refused a ∧ abs s3 = abs s2).
Proof.
  intros Hs Hset H Hses Hop. rewrite <- dispatch_in_memory in H.
  pose proof (dispatch_retires _ _ _ _ (reachable_inv _ Hs) Hset H) as Hr.
  pose proof (session_retired _ _ _ _ _ Hr Hses) as Hr2.
  destruct (operate_retired _ _ _ _ _ Hr2 Hop) as (_ & Hn & Href).
  split; [apply Hr2|]. split; [done|]. intros Hl. split; [by apply Href|].
  exact (operate_late _ _ _ _ _ Hr2 Hl Hop).
Qed.
End in_memory.

(** ** Example *)

#[local] Existing Instance ex_runtime.

Definition ex_ops : list (Op) :=
  [Command (RNack "task-0"); Cleanup 0; Command (RDequeue "q"); Stat; Command (RAckBatch ["task-1"; "task-0"])].

Lemma settled_is_final_witness :
  ∃ s1 answers s2 a s3,
    apply_request (RAck "task-0") ex_state = (Ret ROk, s1) ∧ session ex_ops s1 = (Ret answers, s2) ∧
    operate (Command (RNack "task-0")) s2 = (Ret a, s3) ∧
    in_flight (store s2) !! "task-0" = None ∧ refused a ∧ abs s3 = abs s2.
Proof.
  set (s1 := exec (apply_request (RAck "task-0")) ex_state).
  assert (apply_request (RAck "task-0") ex_state = (Ret ROk, s1)) as H1 by (apply exec_Ret; vm_compute; reflexivity).
  assert (is_ret (session ex_ops s1).1 = true) as Hret by (vm_compute; reflexivity).
  pose proof (value_Ret (session ex_ops) s1 [] Hret) as H2. set (s2 := exec (session ex_ops) s1) in *.
  assert (is_ret (operate (Command (RNack "task-0")) s2).1 = true) as Hret3 by (vm_compute; reflexivity).
  pose proof (value_Ret (operate (Command (RNack "task-0"))) s2 (Responded ROk) Hret3) as H3.
  destruct (settled_is_final "task-0" (RAck "task-0") ex_state s1 ex_ops _ s2 (Command (RNack "task-0")) _ _
    ex_reachable eq_refl H1 H2 H3) as (Hn & _ & Hl).
  destruct (Hl eq_refl) as [Hr Ha]. eexists s1, _, s2, _, _.
  split; [exact H1|]. split; [exact H2|]. split; [exact H3|]. split; [exact Hn|]. split; [exact Hr|exact Ha].
Defined.
