(* ===== verification/Recovery.v ===== *)
(** * Recovery from the write-ahead log ([InMemoryStorage::new_persistent])

    The replay of a log into a fresh storage, what one entry does to the abstract
    state, and the entries a command logs. *)

From stdpp Require Import prelude base gmap gmultiset strings list fin_maps.
From Stdlib Require Import ZArith Lia.
From S2P Require Import Prelude Types Env Wal Memory Spec Commands Refinement Invariant Models Storage.
Local Open Scope oxide_scope.
Set Warnings "-clear-no-such-hyp".

(** ** The code *)

Section code.
Context `{RT : !Runtime} `{CH : !Chrono} `{CD : !WalCodec}.

(** [for task_id in task_ids { if let Some(item) = q.pop_front() { .. } }], with
    the queue's guard [q] held. *)
Fixpoint replay_pops (queue : string) (task_ids : list string) (q : list QueueItem)
  : M Sys unit :=
  match task_ids with
  | [] => mret tt
  | task_id :: task_ids' =>
    match q with
    | [] => replay_pops queue task_ids' []
    | item :: rest =>
      put_queue queue rest;;
      task ← make_task task_id item queue;
      put_task (t_id task) task;;
      replay_pops queue task_ids' rest
    end
  end.

(** [let _ = c.await] *)
Definition ignore {A} (c : M Sys A) : M Sys unit := _ ← c; mret tt.

(** One iteration of the replay loop of [new_persistent]. *)
Definition replay_op (op : WalOp) : M Sys unit :=
  match op with
  | WCreateQueue name => ignore (create_queue name)
  | WEnqueue queue data => ignore (enqueue queue data)
  | WDequeued queue task_id =>
    q ← get_queue queue;
    match q with Some q => replay_pops queue [task_id] q | None => mret tt end
  | WAck task_id => ignore (ack task_id)
  | WAckBatch task_ids => ignore (ack_batch task_ids)
  | WNack task_id => ignore (nack task_id)
  | WExtendVisibility task_id _ => ignore (extend_visibility task_id 0)
  | WEnqueueBatch queue data => ignore (queue_batch queue data)
  | WDequeuedBatch queue task_ids =>
    q ← get_queue queue;
    match q with Some q => replay_pops queue task_ids q | None => mret tt end
  end.

(** Run storage code on a storage that is still a local variable. *)
Definition run_on {A} (st : InMemoryStorage) (c : M Sys A) : M Host (A * InMemoryStorage) := λ h,
  match c (mkSys st h) with
  | (Ret a, s) => (Ret (a, store s), host s)
  | (Panic msg, s) => (Panic msg, host s)
  end.

(** [Result::unwrap_or_default] *)
Definition unwrap_or_default {A E} (r : Result (list A) E) : list A :=
  match r with Ok l => l | Err _ => [] end.

Definition new_persistent (path : string) : M Host InMemoryStorage :=
  r ← replay path;
  '(_, storage) ← run_on storage_new
    (for_each (λ entry, replay_op (we_op entry)) (unwrap_or_default r));
  manager ← wal_new path;
  mret (mkStorage (queues storage) (in_flight storage) (Some manager)).
End code.

(** ** States up to delivery instants

    A log entry's instant is the one of the append, and replay stamps tasks with
    the instant of the restart: states are compared without [consumed_at]. *)

Definition timeless (t : InFlightTask) : InFlightTask := set_consumed_at 0 t.

#[export] Instance astate_equiv : Equiv AState := λ a b,
  a_queues a = a_queues b ∧ timeless <$> a_tasks a = timeless <$> a_tasks b.

#[export] Instance astate_equivalence : Equivalence (≡@{AState}).
Proof.
  split; [done|by intros ?? []|]. intros a b c [? ?] [? ?]. split; congruence.
Qed.

#[export] Instance a_queues_proper : Proper ((≡) ==> (=)) a_queues.
Proof. by intros ?? []. Qed.
#[export] Instance a_set_queue_proper name q : Proper ((≡) ==> (≡)) (a_set_queue name q).
Proof. intros a b [Hq Ht]. split; cbn; [by rewrite Hq|done]. Qed.
#[export] Instance a_del_task_proper id : Proper ((≡) ==> (≡)) (a_del_task id).
Proof. intros a b [Hq Ht]. split; cbn; [done|]. by rewrite !fmap_delete, Ht. Qed.
#[export] Instance a_set_task_proper id t : Proper ((≡) ==> (≡)) (a_set_task id t).
Proof. intros a b [Hq Ht]. split; cbn; [done|]. by rewrite !fmap_insert, Ht. Qed.
#[export] Instance a_del_tasks_proper ids : Proper ((≡) ==> (≡)) (a_del_tasks ids).
Proof.
  induction ids as [|id ids IH]; intros a b Hab; [done|]. by apply IH, a_del_task_proper.
Qed.

Lemma set_task_timeless id t u a :
  timeless t = timeless u → a_set_task id t a ≡ a_set_task id u a.
Proof. intros H. split; cbn; [done|]. by rewrite !fmap_insert, H. Qed.

Lemma equiv_lookup a b id t :
  a ≡ b → a_tasks a !! id = Some t → ∃ u, a_tasks b !! id = Some u ∧ timeless u = timeless t.
Proof.
  intros [_ H] Ht. apply (f_equal (.!! id)) in H. rewrite !lookup_fmap, Ht in H. cbn in H.
  destruct (a_tasks b !! id) as [u|]; [|done]. apply (inj Some) in H. eauto.
Qed.

Lemma equiv_None a b id : a ≡ b → a_tasks a !! id = None → a_tasks b !! id = None.
Proof.
  intros Hab Ha. destruct (a_tasks b !! id) eqn:Hb; [|done].
  symmetry in Hab. destruct (equiv_lookup _ _ _ _ Hab Hb) as (? & ? & _). congruence.
Qed.

Lemma equiv_is_Some a b id : a ≡ b → is_Some (a_tasks a !! id) ↔ is_Some (a_tasks b !! id).
Proof.
  intros Hab. rewrite <- !not_eq_None_Some. split; intros H ?; apply H; by eapply equiv_None.
Qed.

Lemma timeless_eq t u :
  timeless t = timeless u →
  t_id t = t_id u ∧ t_data t = t_data u ∧ t_queue_name t = t_queue_name u ∧
  t_attempts t = t_attempts u.
Proof. by intros [= ? ? ? ?]. Qed.

Lemma a_wf_equiv a b : a ≡ b → a_wf a → a_wf b.
Proof.
  intros Hab [Hi Ht]. split.
  - intros name q item. rewrite <- (a_queues_proper _ _ Hab). apply Hi.
  - intros id t Hl. symmetry in Hab. destruct (equiv_lookup _ _ _ _ Hab Hl) as (u & Hu & He).
    destruct (Ht id u Hu) as [H1 H2 H3]. destruct (timeless_eq _ _ He) as (E1 & E2 & E3 & E4).
    rewrite E1 in H1. rewrite E3 in H2, H3. rewrite E4 in H3.
    split; [done| |done]. by rewrite (a_queues_proper _ _ Hab).
Qed.

(** ** What one log entry does to the state *)

Fixpoint log_pops (name : string) (ids : list string) (q : list QueueItem) (a : AState) : AState :=
  match ids, q with
  | id :: ids', item :: rest =>
    log_pops name ids' rest
      (a_set_task id (mkTask id (qi_data item) 0 name (next_attempt (qi_attempts item)))
         (a_set_queue name rest a))
  | _, _ => a
  end.

Definition log_append (name : string) (items : list QueueItem) (a : AState) : AState :=
  match a_queues a !! name with
  | Some q => a_set_queue name (q ++ items) a
  | None => a
  end.

Definition log_requeue (t : InFlightTask) (a : AState) : AState :=
  if (max_delivery_attempts <=? t_attempts t)%Z
  then a_set_queue (dlq_name (t_queue_name t))
         (default [] (a_queues a !! dlq_name (t_queue_name t)) ++ [item_of t]) a
  else match a_queues a !! t_queue_name t with
       | Some q => a_set_queue (t_queue_name t) (item_of t :: q) a
       | None => a
       end.

Definition log_step (op : WalOp) (a : AState) : AState :=
  match op with
  | WCreateQueue name =>
    match a_queues a !! name with Some _ => a | None => a_set_queue name [] a end
  | WEnqueue name data => log_append name [mkQueueItem data 0] a
  | WEnqueueBatch name data => log_append name (new_items data) a
  | WDequeued name id => log_pops name [id] (default [] (a_queues a !! name)) a
  | WDequeuedBatch name ids => log_pops name ids (default [] (a_queues a !! name)) a
  | WAck id => a_del_task id a
  | WAckBatch ids =>
    if decide (Forall (λ id, is_Some (a_tasks a !! id)) ids) then a_del_tasks ids a else a
  | WNack id =>
    match a_tasks a !! id with Some t => log_requeue t (a_del_task id a) | None => a end
  | WExtendVisibility _ _ => a
  end.

Definition log_run (ops : list WalOp) (a : AState) : AState := foldl (λ a op, log_step op a) a ops.

Lemma log_run_app ops1 ops2 a : log_run (ops1 ++ ops2) a = log_run ops2 (log_run ops1 a).
Proof. apply foldl_app. Qed.

#[export] Instance log_pops_proper name ids q : Proper ((≡) ==> (≡)) (log_pops name ids q).
Proof.
  revert q. induction ids as [|id ids IH]; intros q a b Hab; [done|].
  destruct q as [|item rest]; [done|]. cbn. by apply IH, a_set_task_proper, a_set_queue_proper.
Qed.

#[export] Instance log_append_proper name items : Proper ((≡) ==> (≡)) (log_append name items).
Proof.
  intros a b Hab. unfold log_append. rewrite (a_queues_proper _ _ Hab).
  destruct (a_queues b !! name); [by apply a_set_queue_proper|done].
Qed.

Lemma log_requeue_proper t u a b :
  timeless t = timeless u → a ≡ b → log_requeue t a ≡ log_requeue u b.
Proof.
  intros (E1 & E2 & E3 & E4)%timeless_eq Hab. unfold log_requeue, item_of.
  rewrite E2, E3, E4, (a_queues_proper _ _ Hab).
  destruct (_ <=? _)%Z; [by apply a_set_queue_proper|].
  destruct (a_queues b !! _); [by apply a_set_queue_proper|done].
Qed.

#[export] Instance log_step_proper op : Proper ((≡) ==> (≡)) (log_step op).
Proof.
  intros a b Hab. pose proof (a_queues_proper _ _ Hab) as Hq. destruct op; cbn [log_step]; rewrite ?Hq.
  - destruct (a_queues b !! name); [done | by apply a_set_queue_proper].
  - by apply log_append_proper.
  - by apply log_append_proper.
  - by apply log_pops_proper.
  - by apply log_pops_proper.
  - by apply a_del_task_proper.
  - rewrite (decide_ext _ (Forall (λ id, is_Some (a_tasks b !! id)) task_ids)).
    2:{ rewrite !Forall_forall. by setoid_rewrite (equiv_is_Some a b). }
    case_decide; [by apply a_del_tasks_proper | done].
  - destruct (a_tasks a !! task_id) as [t|] eqn:Ht.
    + destruct (equiv_lookup _ _ _ _ Hab Ht) as (u & -> & He).
      by apply log_requeue_proper, a_del_task_proper.
    + by rewrite (equiv_None _ _ _ Hab Ht).
  - done.
Qed.

#[export] Instance log_run_proper ops : Proper ((≡) ==> (≡)) (log_run ops).
Proof. induction ops as [|op ops IH]; intros a b Hab; [done|]. by apply IH, log_step_proper. Qed.

(** ** What a command logs *)

Definition log_of (req : ClientRequest) (resp : ClientResponse) : list WalOp :=
  match req, resp with
  | RCreateQueue name, ROk => [WCreateQueue name]
  | REnqueue name data, ROk => [WEnqueue name data]
  | RDequeue name, RTask (Some t) => [WDequeued name (t_id t)]
  | RAck id, ROk => [WAck id]
  | RNack id, ROk => [WNack id]
  | RExtendVisibility id d, ROk => [WExtendVisibility id d]
  | REnqueueBatch name data, ROk => [WEnqueueBatch name data]
  | RDequeueBatch name _, RTasks (t :: ts) => [WDequeuedBatch name (t_id <$> t :: ts)]
  | RAckBatch ids, ROk => [WAckBatch ids]
  | _, _ => []
  end.

Lemma set_queue_id name q a : a_queues a !! name = Some q → a_set_queue name q a = a.
Proof. intros H. unfold a_set_queue. rewrite insert_id by done. by destruct a. Qed.

Lemma set_queue_set_tasks name q ts a :
  a_set_queue name q (a_set_tasks ts a) = a_set_tasks ts (a_set_queue name q a).
Proof.
  revert a. induction ts as [|t ts IH]; intros a; [done|]. exact (IH (a_set_task (t_id t) t a)).
Qed.

#[export] Instance a_set_tasks_proper ts : Proper ((≡) ==> (≡)) (a_set_tasks ts).
Proof. induction ts as [|t ts IH]; intros a b Hab; [done|]. by apply IH, a_set_task_proper. Qed.

Lemma log_pops_deliveries name ts : ∀ q a,
  a_queues a !! name = Some q → Forall2 (delivery name) (take (length ts) q) ts →
  log_pops name (t_id <$> ts) q a ≡ a_set_tasks ts (a_set_queue name (drop (length ts) q) a).
Proof.
  induction ts as [|t ts IH]; intros q a Hq Hd.
  { cbn. by rewrite drop_0, set_queue_id. }
  destruct q as [|item rest]; cbn in Hd; [inversion Hd|].
  inversion_clear Hd as [|? ? ? ? (E1 & E2 & E3) Hds]. cbn [fmap list_fmap log_pops length drop].
  rewrite IH; [|cbn; by rewrite lookup_insert_eq|done].
  rewrite <- set_queue_set_tasks. change (a_set_tasks (t :: ts)) with (λ a, a_set_tasks ts (a_set_task (t_id t) t a)).
  cbv beta. rewrite set_queue_set_tasks. apply a_set_tasks_proper.
  rewrite (set_task_timeless (t_id t) _ t).
  - split; cbn; [by rewrite insert_insert_eq|done].
  - unfold timeless, set_consumed_at. cbn. by rewrite <- E1, <- E2, <- E3.
Qed.

Lemma delivery_length name q n ts :
  Forall2 (delivery name) (take n q) ts →
  take n q = take (length ts) q ∧ drop n q = drop (length ts) q.
Proof.
  intros H%Forall2_length. rewrite length_take in H. destruct (decide (n ≤ length q)).
  - by replace (length ts) with n by lia.
  - by rewrite !take_ge, !drop_ge by lia.
Qed.

(** The entries a command logs redo what the command did. *)
Lemma spec_step_logged p req a resp a' :
  a_wf a → spec_step p req a resp a' →
  (∀ id e, req = RAck id → resp ≠ RErr (wal_failed_msg e)) →
  log_run (log_of req resp) a ≡ a'.
Proof.
  intros Hwf Hs Hack. destruct Hs; cbn [log_of log_run foldl log_step]; try done.
  - by rewrite H.
  - unfold log_append. by rewrite H.
  - rewrite H. change [t_id t] with (t_id <$> [t]). cbn [default Datatypes.id].
    rewrite (log_pops_deliveries name [t] (item :: rest)); [done|done|]. by constructor.
  - edestruct Hack; done.
  - rewrite H. unfold log_requeue. rewrite (proj2 (Z.leb_gt _ _)) by lia. cbn [a_queues a_del_task].
    by rewrite H1.
  - rewrite H. unfold log_requeue. by rewrite (proj2 (Z.leb_le _ _)) by lia.
  - destruct (wf_tasks _ Hwf _ _ H) as [_ [q Hq] _]. congruence.
  - split; [done|]. cbn. rewrite fmap_insert. symmetry. apply insert_id.
    by rewrite lookup_fmap, H.
  - unfold log_append. by rewrite H.
  - destruct (delivery_length _ _ _ _ H0) as [E1 E2]. rewrite E1 in H0. rewrite E2.
    destruct ts as [|t ts]; cbn [log_of log_run foldl log_step].
    + cbn. by rewrite drop_0, set_queue_id.
    + rewrite H. by apply log_pops_deliveries.
  - by rewrite decide_True.
  - by destruct req.
Qed.

(** ** Replaying one entry *)

Section replaying.
Context `{RT : !Runtime} `{CH : !Chrono} `{CD : !WalCodec} `{UL : !UuidLaws} `{FL : !FsLaws}.

(** Counting one more delivery of the item does not panic. *)
Definition no_overflow (item : QueueItem) : Prop :=
  overflow_checks = true → (qi_attempts item + 1 < u32_modulus)%Z.

Definition log_safe (op : WalOp) (a : AState) : Prop :=
  match op with
  | WDequeued name _ => Forall no_overflow (take 1 (default [] (a_queues a !! name)))
  | WDequeuedBatch name ids =>
    Forall no_overflow (take (length ids) (default [] (a_queues a !! name)))
  | _ => True
  end.

(** Steps that write nothing, draw nothing and keep the log handle. *)
Definition still (s s' : Sys) : Prop :=
  wal (store s') = wal (store s) ∧ (∀ p, content p (host s') = content p (host s)) ∧
  issued (host s') = issued (host s).

#[export] Instance still_preorder : PreOrder still.
Proof.
  split; [done|]. intros s1 s2 s3 (?&H1&?) (?&H2&?).
  split_and!; [congruence| |congruence]. intros p. by rewrite H2.
Qed.

Lemma now_still s : ∃ n h, now s = (Ret n, mkSys (store s) h) ∧ still s (mkSys (store s) h).
Proof.
  unfold now, on_host. pose proof (utc_now_issued (host s)). pose proof (utc_now_content (host s)).
  destruct (utc_now (host s)) as [n h]. by exists n, h.
Qed.

Lemma make_task_still id item name s :
  no_overflow item →
  ∃ n h, make_task id item name s =
    (Ret (mkTask id (qi_data item) n name (next_attempt (qi_attempts item))), mkSys (store s) h) ∧
    still s (mkSys (store s) h).
Proof.
  intros Hs. unfold make_task. destruct (now_still s) as (n & h & Hn & Hst).
  exists n, h. split; [|done]. erewrite bind_step by exact Hn.
  unfold u32_add, next_attempt. destruct (Z.ltb_spec (qi_attempts item + 1) u32_modulus); [done|].
  unfold no_overflow in Hs. destruct overflow_checks; [|done]. specialize (Hs eq_refl). lia.
Qed.

Lemma make_task_no_overflow id item name s t s' :
  make_task id item name s = (Ret t, s') → no_overflow item.
Proof.
  unfold make_task. intros H. minv.
  match goal with H : u32_add _ _ _ = _ |- _ => revert H end.
  unfold u32_add, no_overflow. destruct (Z.ltb_spec (qi_attempts item + 1) u32_modulus); [done|].
  by destruct overflow_checks.
Qed.

Lemma replay_pops_spec name ids : ∀ q s,
  Forall no_overflow (take (length ids) q) →
  ∃ s', replay_pops name ids q s = (Ret tt, s') ∧ still s s' ∧
        abs s' ≡ log_pops name ids q (abs s).
Proof.
  induction ids as [|id ids IH]; intros q s Hq; [by exists s|].
  destruct q as [|item rest].
  { destruct (IH [] s) as (s' & H & Hst & Ha); [by rewrite take_nil|].
    exists s'. split_and!; [done|done|]. by destruct ids. }
  cbn in Hq. inversion_clear Hq as [|? ? Hi Hr]. cbn [replay_pops log_pops].
  destruct (make_task_still id item name (set_queues (insert name rest) s)) as (n & h & Hm & Hst1);
    [done|].
  set (s1 := set_in_flight (insert id (mkTask id (qi_data item) n name (next_attempt (qi_attempts item))))
    (mkSys (store (set_queues (insert name rest) s)) h)).
  destruct (IH rest s1) as (s2 & H2 & Hst2 & Ha2); [done|].
  exists s2. split_and!.
  - unfold put_queue. rewrite bind_modify. erewrite bind_step by exact Hm.
    unfold put_task. by rewrite bind_modify.
  - etrans; [|exact Hst2]. exact Hst1.
  - rewrite Ha2. apply log_pops_proper.
    change (abs s1) with (a_set_task id (mkTask id (qi_data item) n name (next_attempt (qi_attempts item)))
      (a_set_queue name rest (abs s))).
    by apply set_task_timeless.
Qed.

Lemma wal_append_off op s : wal (store s) = None → wal_append op s = (Ret (Ok tt), s).
Proof. intros H. unfold wal_append. rewrite bind_gets. by rewrite H. Qed.

Lemma ignore_Ret {A} (c : M Sys A) s r s' : c s = (Ret r, s') → ignore c s = (Ret tt, s').
Proof. intros H. unfold ignore. by erewrite bind_step by exact H. Qed.

Lemma drop_tasks_still ids s :
  ∃ s', for_each drop_task ids s = (Ret tt, s') ∧ still s s' ∧ abs s' = a_del_tasks ids (abs s).
Proof.
  revert s. induction ids as [|id ids IH]; intros s; [by exists s|].
  destruct (IH (set_in_flight (delete id) s)) as (s' & H & Hst & Ha).
  by exists s'.
Qed.

(** Evaluate a method of a storage without a log. *)
Ltac offline Hw :=
  unfold get_mut_queue, get_queue, contains_queue, put_queue, get_task, put_task, drop_task,
    try_bind;
  repeat first [progress cbv beta iota | rewrite bind_gets | rewrite bind_modify
    | erewrite bind_step by (apply wal_append_off; exact Hw)
    | erewrite bind_step by reflexivity].

Lemma replay_append name items s c :
  wal (store s) = None →
  (c = queue_batch name items ∨ ∃ d, items = [d] ∧ c = enqueue name d) →
  ∃ s' r, c s = (Ret r, s') ∧ still s s' ∧ abs s' = log_append name (new_items items) (abs s).
Proof.
  intros Hw Hc. unfold log_append.
  change (a_queues (abs s)) with (queues (store s)).
  destruct (queues (store s) !! name) as [q|] eqn:Hq.
  - exists (set_queues (insert name (q ++ new_items items)) s), (Ok tt). split; [|by split].
    destruct Hc as [->|(d & -> & ->)]; unfold queue_batch, enqueue; offline Hw;
      rewrite bool_decide_true by (by rewrite Hq); cbn [negb]; offline Hw; rewrite Hq; [|done].
    by rewrite queue_batch_foldl.
  - exists s. destruct Hc as [->|(d & -> & ->)]; unfold queue_batch, enqueue; offline Hw;
      rewrite bool_decide_false by (by rewrite Hq; intros []); cbn [negb]; by eexists.
Qed.

Lemma replay_create name s :
  wal (store s) = None →
  ∃ s', replay_op (WCreateQueue name) s = (Ret tt, s') ∧ still s s' ∧
        abs s' = log_step (WCreateQueue name) (abs s).
Proof.
  intros Hw. cbn [log_step]. change (a_queues (abs s)) with (queues (store s)).
  destruct (queues (store s) !! name) as [q|] eqn:Hq.
  - exists s. split; [|done]. eapply ignore_Ret. unfold create_queue; offline Hw.
    rewrite bool_decide_true by (by rewrite Hq). done.
  - exists (set_queues (insert name []) s). split; [|done].
    eapply ignore_Ret. unfold create_queue; offline Hw.
    rewrite bool_decide_false by (by rewrite Hq; intros []). offline Hw. done.
Qed.

Lemma replay_ack id s :
  wal (store s) = None →
  ∃ s', replay_op (WAck id) s = (Ret tt, s') ∧ still s s' ∧ abs s' = a_del_task id (abs s).
Proof.
  intros Hw. destruct (in_flight (store s) !! id) as [t|] eqn:Ht.
  - exists (set_in_flight (delete id) s). split; [|done]. eapply ignore_Ret.
    unfold ack; offline Hw. rewrite Ht. by offline Hw.
  - exists s. split_and!; [|done|].
    + eapply ignore_Ret. unfold ack; offline Hw. by rewrite Ht.
    + unfold a_del_task. cbn. by rewrite delete_id.
Qed.

Lemma replay_ack_batch ids s :
  wal (store s) = None →
  ∃ s', replay_op (WAckBatch ids) s = (Ret tt, s') ∧ still s s' ∧
        abs s' = log_step (WAckBatch ids) (abs s).
Proof.
  intros Hw. cbn [log_step]. change (a_tasks (abs s)) with (in_flight (store s)).
  case_decide as Hall.
  - destruct (drop_tasks_still ids s) as (s' & H & Hst & Ha). exists s'. split; [|done].
    eapply ignore_Ret. unfold ack_batch; offline Hw. rewrite bool_decide_false; [|intros Hne; apply Hne].
    + offline Hw. by erewrite bind_step by exact H.
    + clear -Hall. induction Hall as [|id ids [t Ht] _ IH]; [done|]. rewrite filter_cons, decide_False by congruence.
      done.
  - exists s. split; [|done]. eapply ignore_Ret. unfold ack_batch; offline Hw.
    rewrite bool_decide_true; [done|]. intros He. apply Hall, Forall_forall. intros id Hid.
    apply not_eq_None_Some. intros Hn.
    assert (id ∈ filter (λ id, in_flight (store s) !! id = None) ids) as Hin
      by by apply list_elem_of_filter.
    rewrite He in Hin. by apply not_elem_of_nil in Hin.
Qed.

Lemma requeue_offline t s :
  ∃ s' r, requeue t s = (Ret r, s') ∧ still s s' ∧ abs s' = log_requeue t (abs s).
Proof.
  unfold requeue, log_requeue, get_queue, put_queue. destruct (_ <=? _)%Z.
  - eexists _, _. rewrite bind_gets, bind_modify. by split_and!.
  - rewrite bind_gets. change (a_queues (abs s)) with (queues (store s)).
    destruct (queues (store s) !! t_queue_name t) as [q|]; eexists _, _;
      rewrite ?bind_modify; by split_and!.
Qed.

Lemma replay_nack id s :
  wal (store s) = None →
  ∃ s', replay_op (WNack id) s = (Ret tt, s') ∧ still s s' ∧
        abs s' = log_step (WNack id) (abs s).
Proof.
  intros Hw. cbn [log_step]. change (a_tasks (abs s)) with (in_flight (store s)).
  destruct (in_flight (store s) !! id) as [t|] eqn:Ht.
  - destruct (requeue_offline t (set_in_flight (delete id) s)) as (s' & r & H & Hst & Ha).
    exists s'. split; [|done]. eapply ignore_Ret. unfold nack; offline Hw. rewrite Ht. offline Hw.
    exact H.
  - exists s. split; [|done]. eapply ignore_Ret. unfold nack; offline Hw. by rewrite Ht.
Qed.

Lemma replay_extend id d s :
  wal (store s) = None →
  ∃ s', replay_op (WExtendVisibility id d) s = (Ret tt, s') ∧ still s s' ∧ abs s' ≡ abs s.
Proof.
  intros Hw. destruct (in_flight (store s) !! id) as [t|] eqn:Ht.
  - destruct (now_still s) as (n & h & Hn & Hst).
    exists (set_in_flight (insert id (set_consumed_at n t)) (mkSys (store s) h)).
    split_and!; [|done|].
    + eapply ignore_Ret. unfold extend_visibility; offline Hw. rewrite Ht. offline Hw.
      by erewrite bind_step by exact Hn.
    + split; [done|]. cbn. rewrite fmap_insert. apply insert_id. by rewrite lookup_fmap, Ht.
  - exists s. split_and!; [|done|done]. eapply ignore_Ret. unfold extend_visibility; offline Hw.
    by rewrite Ht.
Qed.

Lemma replay_dequeued name ids s :
  Forall no_overflow (take (length ids) (default [] (queues (store s) !! name))) →
  ∃ s', (q ← get_queue name;
         match q with Some q => replay_pops name ids q | None => mret tt end) s = (Ret tt, s') ∧
    still s s' ∧ abs s' ≡ log_pops name ids (default [] (queues (store s) !! name)) (abs s).
Proof.
  unfold get_queue. intros Hs. rewrite bind_gets. destruct (queues (store s) !! name) as [q|].
  - by apply replay_pops_spec.
  - exists s. split_and!; [done|done|]. by destruct ids.
Qed.

Lemma replay_op_spec op s :
  wal (store s) = None → log_safe op (abs s) →
  ∃ s', replay_op op s = (Ret tt, s') ∧ still s s' ∧ abs s' ≡ log_step op (abs s).
Proof.
  intros Hw Hs. destruct op.
  - destruct (replay_create name s Hw) as (s' & ? & ? & Ha). exists s'. by rewrite Ha.
  - destruct (replay_append queue [data] s (enqueue queue data) Hw) as (s' & r & H & Hst & Ha);
      [by eauto|].
    exists s'. rewrite Ha. split_and!; [by eapply ignore_Ret|done|done].
  - destruct (replay_append queue data s (queue_batch queue data) Hw) as (s' & r & H & Hst & Ha);
      [by eauto|].
    exists s'. rewrite Ha. split_and!; [by eapply ignore_Ret|done|done].
  - by apply replay_dequeued.
  - by apply replay_dequeued.
  - destruct (replay_ack task_id s Hw) as (s' & ? & ? & Ha). exists s'. by rewrite Ha.
  - destruct (replay_ack_batch task_ids s Hw) as (s' & ? & ? & Ha). exists s'. by rewrite Ha.
  - destruct (replay_nack task_id s Hw) as (s' & ? & ? & Ha). exists s'. by rewrite Ha.
  - by apply replay_extend.
Qed.

(** Each entry of the log finds the counters of the items it pops in range. *)
Fixpoint log_run_safe (ops : list WalOp) (a : AState) : Prop :=
  match ops with
  | [] => True
  | op :: ops' => log_safe op a ∧ log_run_safe ops' (log_step op a)
  end.

#[export] Instance log_safe_proper op : Proper ((≡) ==> iff) (log_safe op).
Proof. intros a b Hab. destruct op; cbn; by rewrite ?(a_queues_proper _ _ Hab). Qed.
#[export] Instance log_run_safe_proper ops : Proper ((≡) ==> iff) (log_run_safe ops).
Proof.
  induction ops as [|op ops IH]; intros a b Hab; cbn; [done|].
  by rewrite (log_safe_proper op _ _ Hab), (IH _ _ (log_step_proper op _ _ Hab)).
Qed.

Lemma log_run_safe_app ops1 ops2 a :
  log_run_safe (ops1 ++ ops2) a ↔ log_run_safe ops1 a ∧ log_run_safe ops2 (log_run ops1 a).
Proof. revert a. induction ops1 as [|op ops1 IH]; intros a; cbn; [tauto|]. rewrite IH. tauto. Qed.

Lemma replay_entries es s :
  wal (store s) = None → log_run_safe (we_op <$> es) (abs s) →
  ∃ s', for_each (λ entry, replay_op (we_op entry)) es s = (Ret tt, s') ∧ still s s' ∧
        abs s' ≡ log_run (we_op <$> es) (abs s).
Proof.
  revert s. induction es as [|e es IH]; intros s Hw Hs; [by exists s|].
  destruct Hs as [Hs1 Hs2].
  destruct (replay_op_spec (we_op e) s Hw Hs1) as (s1 & H1 & Hst1 & Ha1).
  destruct (IH s1) as (s2 & H2 & Hst2 & Ha2).
  - by rewrite (proj1 Hst1).
  - by rewrite Ha1.
  - exists s2. split_and!.
    + cbn [for_each]. by erewrite bind_step by exact H1.
    + by etrans.
    + rewrite Ha2, Ha1. done.
Qed.

(** Conversely a replay that returns met no counter at the end of its range. *)
Lemma replay_pops_safe name ids : ∀ q s s',
  replay_pops name ids q s = (Ret tt, s') → Forall no_overflow (take (length ids) q).
Proof.
  induction ids as [|id ids IH]; intros q s s' H; [constructor|]. destruct q as [|item rest]; [constructor|].
  cbn in H. unfold put_queue, put_task in H. minv. cbn [length take].
  match goal with H : make_task _ _ _ _ = _ |- _ => apply make_task_no_overflow in H end.
  constructor; [done|by eapply IH].
Qed.

Lemma replay_op_safe op s s' : replay_op op s = (Ret tt, s') → log_safe op (abs s).
Proof.
  intros H. destruct op; cbn [log_safe]; try done; cbn [replay_op] in H; unfold get_queue in H; minv;
    change (a_queues (abs s)) with (queues (store s)); destruct (queues (store s) !! queue);
    cbn [default Datatypes.id]; rewrite ?take_nil; try constructor;
    exact (replay_pops_safe _ _ _ _ _ H).
Qed.

Lemma replay_entries_safe es : ∀ s s',
  wal (store s) = None → for_each (λ entry, replay_op (we_op entry)) es s = (Ret tt, s') →
  log_run_safe (we_op <$> es) (abs s).
Proof.
  induction es as [|e es IH]; intros s s' Hw H; [done|]. cbn [for_each] in H.
  apply bind_Ret_inv in H as ([] & s1 & H1 & H2). pose proof (replay_op_safe _ _ _ H1) as Hs. split; [done|].
  destruct (replay_op_spec (we_op e) s Hw Hs) as (s1' & H1' & Hst & Ha). rewrite H1 in H1'. injection H1' as <-.
  fold (fmap (M := list) we_op es). rewrite <- Ha. eapply IH; [|done]. by rewrite (proj1 Hst).
Qed.
End replaying.
