(* ===== verification/Durability.v ===== *)
(** * Durability

    What a running node appends to its log, and the theorem that on a disk without
    faults a restart brings back every queue and every in-flight task, up to the
    instants of delivery; and what a torn last line does. *)

From stdpp Require Import prelude base gmap gmultiset strings list fin_maps.
From Stdlib Require Import ZArith Lia Strings.Byte.
From S2P Require Import Prelude Types Env Wal Memory Spec Commands Refinement Invariant Models Storage Recovery.
Local Open Scope oxide_scope.
Set Warnings "-clear-no-such-hyp".

(** ** The log of a running node *)

Section logging.
Context `{RT : !Runtime} `{CH : !Chrono} `{CD : !WalCodec} `{UL : !UuidLaws} `{DL : !DashLaws}
  `{FL : !FsLaws} `{RD : !ReliableDisk} `{CL : !WalCodecLaws}.

(** A file content made of lines. *)
Definition unlines (ls : list string) (tail : string) : string :=
  foldr (λ l acc, l +:+ newline +:+ acc)%string tail ls.

Definition entry_lines (es : list WalEntry) (ls : list string) : Prop :=
  Forall2 (λ e l, wal_to_string e = Ok l) es ls.

(** The node's log is open on file [p], whose lines are the entries [es]. *)
Definition logged (p : string) (s : Sys) (es : list WalEntry) : Prop :=
  ∃ mgr ls, wal (store s) = Some mgr ∧ file_path (wm_file mgr) = p ∧ clean (wm_file mgr) ∧
            entry_lines es ls ∧ content p (host s) = Some (unlines ls "").

Lemma string_assoc (s1 s2 s3 : string) : (s1 +:+ (s2 +:+ s3) = (s1 +:+ s2) +:+ s3)%string.
Proof. apply string_app_assoc. Qed.

Lemma unlines_snoc ls l : (unlines ls "" +:+ (l +:+ newline))%string = unlines (ls ++ [l]) "".
Proof.
  induction ls as [|l' ls IH]; [done|].
  change (unlines (l' :: ls) "") with (l' +:+ newline +:+ unlines ls "")%string.
  change (unlines ((l' :: ls) ++ [l]) "") with (l' +:+ newline +:+ unlines (ls ++ [l]) "")%string.
  rewrite <- IH. by rewrite <- !string_app_assoc.
Qed.

Lemma logged_kept p s s' es :
  wal (store s') = wal (store s) → content p (host s') = content p (host s) →
  logged p s es → logged p s' es.
Proof. intros Hw Hc (mgr & ls & H). exists mgr, ls. by rewrite Hw, Hc. Qed.

Lemma still_logged p s s' es : still s s' → logged p s es → logged p s' es.
Proof. intros (Hw & Hc & _). by apply logged_kept. Qed.

Lemma wal_append_logged p op s es r s' :
  logged p s es → wal_append op s = (Ret r, s') →
  ∃ n, r = Ok tt ∧ logged p s' (es ++ [mkWalEntry op n]) ∧ abs s' = abs s.
Proof.
  intros (mgr & ls & Hw & Hp & Hc & Hls & Hf). unfold wal_append. rewrite bind_gets, Hw.
  destruct (now_still s) as (t & h & Hn & _ & Hh & _). erewrite bind_step by exact Hn.
  unfold append_entry. cbn [store host]. rewrite Hw.
  destruct (wal_codec_total (mkWalEntry op (timestamp_millis t))) as [l Hl].
  unfold append. rewrite Hl. unfold try_bind, mbind, M_bind, on_file, mret, M_ret.
  destruct (write_all_reliable (wm_file mgr) (l +:+ newline)%string h) as (f1 & h1 & Hw1).
  rewrite Hw1. cbn [wm_file]. destruct (flush_reliable f1 h1) as (f2 & h2 & Hf2). rewrite Hf2.
  intros [= <- <-]. exists (timestamp_millis t). split; [done|]. split; [|done].
  destruct (append_ok _ _ _ _ _ _ _ Hc Hw1 Hf2) as (Hcont & Hpath & Hclean).
  exists (mkWalManager f2), (ls ++ [l]). split_and!; [done|cbn; congruence|done| |].
  - apply Forall2_app; [done|]. by constructor.
  - cbn [host]. cbn [host] in Hh. rewrite <- Hp, Hcont, Hh, Hp, Hf. cbn [default Datatypes.id].
    by rewrite unlines_snoc.
Qed.

Lemma now_logged p s es n s' : logged p s es → now s = (Ret n, s') → logged p s' es ∧ abs s' = abs s.
Proof.
  destruct (now_still s) as (n' & h & -> & Hst). intros Hl [= <- <-]. split; [|done].
  by eapply still_logged.
Qed.

Lemma new_uuid_logged p s es id s' : logged p s es → new_uuid s = (Ret id, s') → logged p s' es.
Proof.
  unfold new_uuid, on_host. pose proof (new_v4_content (host s) p) as Hc.
  destruct (new_v4 (host s)) as [i h]. intros Hl [= <- <-]. by apply (logged_kept p s).
Qed.

Lemma new_uuids_logged p n s es ids s' :
  logged p s es → new_uuids n s = (Ret ids, s') → logged p s' es.
Proof.
  revert s ids. induction n as [|n IH]; intros s ids Hl H; cbn in H; minv; [done|].
  eapply IH; [|done]. by eapply new_uuid_logged.
Qed.

Lemma make_task_logged p id item name s es t s' :
  logged p s es → make_task id item name s = (Ret t, s') → logged p s' es.
Proof.
  unfold make_task. intros Hl H. minv. 
  match goal with H : u32_add _ _ _ = _ |- _ => apply u32_add_Ret in H as [_ ->] end.
  by eapply now_logged.
Qed.

Lemma make_tasks_logged p name ids items : ∀ i s es ts s',
  logged p s es → make_tasks name ids i items s = (Ret ts, s') →
  logged p s' es ∧ Forall no_overflow items.
Proof.
  induction items as [|item items IH]; intros i s es ts s' Hl H; cbn in H; minv; [done|].
  destruct (ids !! i) as [id|]; minv. unfold put_task in *. minv.
  match goal with H : make_task _ _ _ _ = _ |- _ =>
    pose proof (make_task_no_overflow _ _ _ _ _ _ H); eapply make_task_logged in H; [|done] end.
  match goal with H : make_tasks _ _ _ _ _ = _ |- _ => eapply IH in H as [? ?]; [|done] end.
  split; [done|]. by constructor.
Qed.

Lemma iter_map_still {V} (get : InMemoryStorage → gmap string V) s l s' :
  iter_map get s = (Ret l, s') → still s s' ∧ abs s' = abs s.
Proof.
  unfold iter_map, on_host. intros H. rewrite bind_gets in H.
  pose proof (dash_iter_issued (get (store s)) (host s)) as Hi.
  pose proof (dash_iter_content (get (store s)) (host s)) as Hc.
  destruct (dash_iter _ _) as [l' h']. injection H as <- <-. by split_and!.
Qed.

(** On a disk without faults the log refuses nothing. *)
#[export] Instance logged_mode p : LogMode false (λ s, ∃ es, logged p s es).
Proof.
  constructor.
  - intros op s r s' [es L] H. destruct (wal_append_logged _ _ _ _ _ _ L H) as (n & -> & L' & _). by eauto.
  - intros s n s' [es L] H. exists es. by eapply now_logged.
  - intros s id s' [es L] H. exists es. by eapply new_uuid_logged.
  - intros V get s l s' [es L] H. exists es. eapply still_logged; [by eapply iter_map_still|done].
  - intros g s [es L]. exists es. by apply (logged_kept p s).
  - intros g s [es L]. exists es. by apply (logged_kept p s).
Qed.

(** Follow a method of a node with a log down to what it appended. *)
Ltac online :=
  repeat match goal with
  | L : logged ?p ?s ?es, H : wal_append _ ?s' = (Ret _, _) |- _ =>
    destruct (wal_append_logged p _ s' es _ _ L H) as (? & ? & ? & ?); clear H; subst
  | L : logged ?p ?s ?es, H : now ?s = (Ret _, _) |- _ =>
    destruct (now_logged p s es _ _ L H); clear H
  | H : Err _ = Ok _ |- _ => discriminate H
  | H : Ok _ = Err _ |- _ => discriminate H
  end.
Ltac logs_nothing := exists []; rewrite app_nil_r; by split.
Ltac logs_entry := eexists; split; [eassumption | reflexivity].
Ltac follow H :=
  unfold get_mut_queue, get_queue, contains_queue, put_queue, get_task, put_task, drop_task in H;
  repeat first [progress minv | progress online | progress cbv beta iota in H].

Definition logs (p : string) (s : Sys) (ops : list WalOp) (s' : Sys) : Prop :=
  ∀ es, logged p s es → ∃ es', logged p s' (es ++ es') ∧ we_op <$> es' = ops.

Lemma create_queue_logs p name s r s' :
  create_queue name s = (Ret r, s') → logs p s (log_of (RCreateQueue name) (unit_response r)) s'.
Proof.
  unfold create_queue. intros H es L. follow H. case_bool_decide; follow H; 
    first [logs_nothing | logs_entry].
Qed.

Lemma enqueue_logs p name data s r s' :
  enqueue name data s = (Ret r, s') → logs p s (log_of (REnqueue name data) (unit_response r)) s'.
Proof.
  unfold enqueue. intros H es L. follow H. case_bool_decide as Hq; cbn in H; follow H;
    try logs_nothing; case_match; follow H; try logs_entry.
  destruct Hq as [q Hq]. abstract_maps. congruence.
Qed.

Lemma queue_batch_logs p name data s r s' :
  queue_batch name data s = (Ret r, s') →
  logs p s (log_of (REnqueueBatch name data) (unit_response r)) s'.
Proof.
  unfold queue_batch. intros H es L. follow H. case_bool_decide as Hq; cbn in H; follow H;
    try logs_nothing; case_match; follow H; try logs_entry.
  destruct Hq as [q Hq]. abstract_maps. congruence.
Qed.

Lemma ack_logs p id s r s' :
  ack id s = (Ret r, s') →
  logs p s (log_of (RAck id) (unit_response r)) s' ∧
  (∀ es, logged p s es → ∀ e, r ≠ Err (wal_failed_msg e)).
Proof.
  unfold ack. intros H. split; intros es L; follow H; case_match; follow H;
    first [logs_nothing | logs_entry | done].
Qed.

Lemma requeue_logged p t s r s' es :
  logged p s es → is_Some (queues (store s) !! t_queue_name t) → requeue t s = (Ret r, s') →
  r = Ok tt ∧ logged p s' es.
Proof.
  unfold requeue. intros L [q Hq] H. case_match; follow H; [done|].
  rewrite Hq in H. follow H. done.
Qed.

Lemma nack_logs p id s r s' :
  node_inv s → nack id s = (Ret r, s') → logs p s (log_of (RNack id) (unit_response r)) s'.
Proof.
  unfold nack. intros [_ Hwf] H es L. follow H.
  destruct (in_flight (store s) !! id) as [t|] eqn:Ht; follow H; [|logs_nothing].
  destruct (wf_tasks _ Hwf _ _ Ht) as [_ Hq _].
  edestruct requeue_logged as [-> Hl]; [eassumption| |exact H|by logs_entry].
  abstract_maps. exact Hq.
Qed.

Lemma extend_visibility_logs p id d s r s' :
  extend_visibility id d s = (Ret r, s') →
  logs p s (log_of (RExtendVisibility id d) (unit_response r)) s'.
Proof.
  unfold extend_visibility. intros H es L. follow H. case_match; follow H;
    first [logs_nothing | logs_entry].
Qed.

Lemma drop_tasks_logged p ids s u s' es :
  logged p s es → for_each drop_task ids s = (Ret u, s') → logged p s' es.
Proof.
  intros L H. destruct (drop_tasks_still ids s) as (s1 & H1 & Hst & _). rewrite H1 in H.
  injection H as _ <-. by eapply still_logged.
Qed.

Lemma ack_batch_logs p ids s r s' :
  ack_batch ids s = (Ret r, s') → logs p s (log_of (RAckBatch ids) (unit_response r)) s'.
Proof.
  unfold ack_batch. intros H es L. follow H. case_bool_decide; follow H; [logs_nothing|].
  match goal with H : for_each _ _ _ = _ |- _ => eapply drop_tasks_logged in H; [|eassumption] end.
  logs_entry.
Qed.

(** The deliveries a request logged had their counters in range. *)
Definition logs_safely (s : Sys) (ops : list WalOp) : Prop :=
  Forall (λ op, log_safe op (abs s)) ops.

Lemma dequeue_logs p name s r s' :
  dequeue name s = (Ret r, s') →
  let ops := log_of (RDequeue name) (match r with Ok t => RTask t | Err e => RErr e end) in
  logs p s ops s' ∧ (∀ es, logged p s es → logs_safely s ops).
Proof.
  unfold dequeue. intros H. split; intros es L; follow H;
    try solve [destruct (queues (store s) !! name); try discriminate; follow H;
               first [logs_nothing | apply Forall_nil_2]];
    destruct (queues (store s) !! name) as [[|item rest]|] eqn:Hq; try discriminate; follow H;
    try first [logs_nothing | apply Forall_nil_2];
    match goal with H : new_uuid _ = _ |- _ => eapply new_uuid_logged in H; [|exact L] end;
    follow H;
    match goal with H : make_task _ _ _ _ = _ |- _ =>
      pose proof (make_task_no_overflow _ _ _ _ _ _ H);
      pose proof (proj1 (proj2 (make_task_Ret _ _ _ _ _ _ H))) as Hid;
      eapply make_task_logged in H; [|eassumption] end.
  - cbn [log_of]. rewrite Hid. logs_entry.
  - cbn [log_of]. constructor; [|done]. cbn. rewrite Hq. by constructor.
Qed.

Lemma dequeue_batch_logs p name count s r s' :
  dequeue_batch name count s = (Ret r, s') →
  let ops := log_of (RDequeueBatch name count)
               (match r with Ok ts => RTasks ts | Err e => RErr e end) in
  logs p s ops s' ∧ (∀ es, logged p s es → logs_safely s ops).
Proof.
  unfold dequeue_batch. intros H. split; intros es L; follow H;
    destruct (queues (store s) !! name) as [q|] eqn:Hq; try discriminate; follow H;
    try first [logs_nothing | apply Forall_nil_2];
    case_bool_decide; follow H; try first [logs_nothing | apply Forall_nil_2];
    match goal with H : vec_with_capacity _ _ _ = _ |- _ =>
      unfold vec_with_capacity in H; destruct (isize_max <? _)%Z; minv end;
    rewrite pop_upto_take_drop in H; follow H;
    case_bool_decide as Hpop; follow H; try first [logs_nothing | apply Forall_nil_2];
    match goal with H : new_uuids _ _ = _ |- _ =>
      pose proof (proj1 (proj2 (proj2 (new_uuids_Ret _ _ _ _ H)))) as Hlen;
      eapply new_uuids_logged in H; [|exact L] end;
    follow H;
    match goal with H : make_tasks _ _ _ _ _ = _ |- _ =>
      pose proof (make_tasks_Ret _ _ _ _ _ _ _ H) as (_ & _ & _ & Hds & Hts);
      eapply make_tasks_logged in H as [Hl Hsafe]; [|eassumption] end;
    rewrite drop_0, take_ge in Hts by lia;
    match type of Hts with _ <$> ?ts = _ => destruct ts as [|t ts] end;
    try (apply Forall2_length in Hds; by destruct (take _ q)); cbn [log_of]; rewrite Hts.
  - logs_entry.
  - constructor; [|done]. cbn [log_safe]. abstract_maps. rewrite Hq, Hlen.
    cbn [default Datatypes.id]. rewrite (Forall2_length _ _ _ Hds).
    by rewrite <- (proj1 (delivery_length _ _ _ _ Hds)).
Qed.

Lemma apply_request_logs p req s resp s' :
  node_inv s → apply_request req s = (Ret resp, s') →
  logs p s (log_of req resp) s' ∧
  (∀ es, logged p s es → logs_safely s (log_of req resp) ∧
     ∀ id e, req = RAck id → resp ≠ RErr (wal_failed_msg e)).
Proof.
  intros Hi. destruct req; cbn [apply_request]; intros H; minv.
  - split; [by apply create_queue_logs|]. destruct x; split; by repeat constructor.
  - split; [by apply enqueue_logs|]. destruct x; split; by repeat constructor.
  - apply dequeue_logs with (p := p) in H0 as [? ?]. split; [done|].
    intros es L. split; by eauto.
  - destruct (ack_logs p _ _ _ _ H0) as [? Hn]. split; [done|]. intros es L.
    split; [destruct x; by repeat constructor|]. intros id e _ Hr. eapply (Hn es L e).
    destruct x; [done|]. by injection Hr as ->.
  - split; [by apply nack_logs|]. destruct x; split; by repeat constructor.
  - split; [by apply extend_visibility_logs|]. destruct x; split; by repeat constructor.
  - split; [by apply queue_batch_logs|]. destruct x; split; by repeat constructor.
  - apply dequeue_batch_logs with (p := p) in H0 as [? ?]. split; [done|].
    intros es L. split; by eauto.
  - split; [by apply ack_batch_logs|]. destruct x; split; by repeat constructor.
Qed.

(** ** The log determines the state *)

Definition a_empty : AState := mkAState ∅ ∅.

Definition durable (p : string) (s : Sys) : Prop :=
  ∃ es, logged p s es ∧ log_run_safe (we_op <$> es) a_empty ∧
        log_run (we_op <$> es) a_empty ≡ abs s.

Lemma log_of_short req resp : length (log_of req resp) ≤ 1.
Proof. destruct req, resp as [| |ts|]; cbn; try lia; try (destruct task; cbn; lia). destruct ts; cbn; lia. Qed.

Lemma safely_run s ops : length ops ≤ 1 → logs_safely s ops → log_run_safe ops (abs s).
Proof.
  destruct ops as [|op [|]]; cbn; [done| |lia]. intros _ Hs. split; [|done].
  by inversion_clear Hs.
Qed.

Lemma durable_request p req s resp s' :
  node_inv s → durable p s → apply_request req s = (Ret resp, s') → durable p s'.
Proof.
  intros Hi (es & L & Hsafe & Ha) H.
  destruct (apply_request_logs p _ _ _ _ Hi H) as [Hl Hs]. destruct (Hs es L) as [Hs' Hack].
  destruct (Hl es L) as (es' & L' & Hops). exists (es ++ es'). split; [done|].
  rewrite fmap_app, Hops, log_run_app, log_run_safe_app, Ha. split.
  - split; [done|]. apply safely_run; [apply log_of_short|done].
  - eapply spec_step_logged; [apply Hi| |done]. by apply apply_request_sim; [apply Hi|].
Qed.

Lemma durable_still p s s' : still s s' → abs s' = abs s → durable p s → durable p s'.
Proof.
  intros Hst Ha (es & L & H). exists es. rewrite Ha. split; [by eapply still_logged|done].
Qed.

Lemma durable_cleanup p timeout s r s' :
  node_inv s → durable p s → cleanup_expired_tasks timeout s = (Ret r, s') → durable p s'.
Proof.
  intros Hi Hd H. unfold cleanup_expired_tasks in H. minv.
  match goal with H : scan_expired_tasks _ _ = _ |- _ =>
    pose proof (scan_quiet _ _ _ _ H) as Hq; unfold scan_expired_tasks in H end.
  minv. destruct (duration_seconds _); minv.
  match goal with H : now s = (Ret _, ?s1) |- _ =>
    destruct (now_still s) as (n & h & Hn & Hst); rewrite Hn in H; injection H as <- <- end.
  match goal with H : iter_map _ _ = _ |- _ => apply iter_map_still in H as [Hst2 Ha2] end.
  match goal with H : nack_all _ _ ?s1 = (Ret _, ?s2) |- _ =>
    enough (node_inv s2 ∧ durable p s2) as [_ ?] by done;
    eapply (nack_all_ind (λ s, node_inv s ∧ durable p s)); [| |exact H] end.
  - intros id s1 r1 s2 [Hi1 Hd1] Hn1. split; [by eapply node_inv_nack|].
    eapply durable_request; [exact Hi1|done|]. by apply nack_as_request.
  - split; [by eapply quiet_node_inv|]. apply (durable_still p s); [by etrans|by rewrite Ha2|done].
Qed.

(** ** The restart *)

Lemma entry_lines_text es ls :
  entry_lines es ls →
  Forall (λ l, has_char (Ascii.ascii_of_nat 10) l = false ∧
               has_char (Ascii.ascii_of_nat 13) l = false ∧ valid_utf8 l = true) ls.
Proof.
  induction 1 as [|e l es ls Hl _ IH]; constructor; [|done].
  destruct (wal_codec_line e l Hl) as (? & ? & _ & ?). done.
Qed.

(** What [replay] returns when the file is absent or holds the lines [ls]. *)
Definition stored (p : string) (h : Host) (ls : list string) (tail : string) : Prop :=
  content p h = Some (unlines ls tail) ∨ content p h = None ∧ ls = [] ∧ tail = "".

Lemma replay_stored p h ls tail :
  Forall (λ l, has_char (Ascii.ascii_of_nat 10) l = false ∧
               has_char (Ascii.ascii_of_nat 13) l = false ∧ valid_utf8 l = true) (ls ++ [tail]) →
  stored p h ls tail →
  ∃ h', replay p h =
      (Ret (replay_loop (Ok <$> (ls ++ if bool_decide (tail = "") then [] else [tail])) []), h') ∧
    (∀ q, content q h' = content q h) ∧ issued h' = issued h.
Proof.
  intros Hls Hst. unfold replay. pose proof (open_lines_issued p h) as Hi.
  pose proof (λ q, open_lines_content p h q) as Hc.
  destruct Hst as [Hc0|(Hc0 & -> & ->)].
  - destruct (open_lines_reliable p h _ Hc0) as [rs Hrs].
    destruct (open_lines_ok p h rs Hrs) as (c & Hc1 & ->).
    rewrite Hc0 in Hc1. injection Hc1 as <-. unfold unlines in Hrs.
    rewrite lines_of_lines in Hrs by done. destruct (open_lines p h) as [r h']. cbn in *. subst r.
    by exists h'.
  - destruct (open_lines_absent p h Hc0) as [e He]. destruct (open_lines p h) as [r h'].
    cbn in *. subst r. by exists h'.
Qed.

Lemma wal_new_spec p h :
  ∃ mgr h', wal_new p h = (Ret mgr, h') ∧ file_path (wm_file mgr) = p ∧ clean (wm_file mgr) ∧
    content p h' = Some (default "" (content p h)) ∧ issued h' = issued h.
Proof.
  unfold wal_new. destruct (open_append_reliable p h) as (f & h' & H).
  pose proof (open_append_issued p h) as Hi. rewrite H in Hi |- *.
  destruct (open_append_ok p h f h' H) as (? & ? & ?). by exists (mkWalManager f), h'.
Qed.

(** A restart on a file replays what [replay] returns, then opens the file. *)
Lemma new_persistent_replays p h h1 es :
  replay p h = (Ret es, h1) → log_run_safe (we_op <$> unwrap_or_default es) a_empty →
  ∃ st h', new_persistent p h = (Ret st, h') ∧
    abs (mkSys st h') ≡ log_run (we_op <$> unwrap_or_default es) a_empty ∧
    (∃ mgr, wal st = Some mgr ∧ file_path (wm_file mgr) = p ∧ clean (wm_file mgr)) ∧
    content p h' = Some (default "" (content p h1)) ∧ issued h' = issued h1.
Proof.
  intros Hr Hsafe.
  destruct (replay_entries (unwrap_or_default es) (mkSys storage_new h1))
    as (s2 & H2 & (Hw & Hc & Hi) & Ha); [done|done|].
  destruct (wal_new_spec p (host s2)) as (mgr & h3 & H3 & Hp & Hcl & Hc3 & Hi3).
  exists (mkStorage (queues (store s2)) (in_flight (store s2)) (Some mgr)), h3. split_and!.
  - unfold new_persistent. erewrite bind_step by exact Hr.
    erewrite bind_step by (unfold run_on; rewrite H2; reflexivity). cbv beta iota.
    by erewrite bind_step by exact H3.
  - exact Ha.
  - by exists mgr.
  - by rewrite Hc3, Hc.
  - by rewrite Hi3, Hi.
Qed.

Lemma recover_stored p h es ls :
  entry_lines es ls → stored p h ls "" → log_run_safe (we_op <$> es) a_empty →
  ∃ st h', new_persistent p h = (Ret st, h') ∧ logged p (mkSys st h') es ∧
    abs (mkSys st h') ≡ log_run (we_op <$> es) a_empty ∧ issued h' = issued h.
Proof.
  intros Hls Hst Hsafe.
  destruct (replay_stored p h ls "") as (h1 & Hr & Hc1 & Hi1); [|done|].
  { apply Forall_app_2; [by eapply entry_lines_text|]. by repeat constructor. }
  rewrite bool_decide_true, app_nil_r, (replay_loop_written es ls) in Hr by done.
  destruct (new_persistent_replays p h h1 (Ok es) Hr Hsafe)
    as (st & h' & H & Ha & (mgr & Hw & Hp & Hcl) & Hc & Hi).
  exists st, h'. split_and!; [done| |done|congruence].
  exists mgr, ls. split_and!; try done. cbn [host]. rewrite Hc, Hc1.
  by destruct Hst as [->|(-> & -> & _)].
Qed.

(** The life of a persistent node: a start on an empty or absent log, requests,
    cleanup passes, and restarts from the log. *)
Inductive lives (p : string) : Sys → Prop :=
| live_start h st h' :
    stored p h [] "" → new_persistent p h = (Ret st, h') → lives p (mkSys st h')
| live_request s req resp s' :
    lives p s → apply_request req s = (Ret resp, s') → lives p s'
| live_cleanup s timeout r s' :
    lives p s → cleanup_expired_tasks timeout s = (Ret r, s') → lives p s'
| live_restart s st h' :
    lives p s → new_persistent p (host s) = (Ret st, h') → lives p (mkSys st h').

Lemma node_inv_equiv s s' :
  abs s' ≡ abs s → issued (host s') = issued (host s) → node_inv s → node_inv s'.
Proof.
  intros Ha Hi [Hids Hwf]. split.
  - intros id. rewrite (equiv_is_Some _ _ id Ha), Hi. apply Hids.
  - by eapply a_wf_equiv.
Qed.

(** A durable node restarts as a durable node in an equivalent state. *)
Lemma durable_restart p s :
  node_inv s → durable p s →
  ∃ st h', new_persistent p (host s) = (Ret st, h') ∧ abs (mkSys st h') ≡ abs s ∧
           node_inv (mkSys st h') ∧ durable p (mkSys st h') ∧ issued h' = issued (host s).
Proof.
  intros Hi (es & L & Hsafe & Ha).
  pose proof L as (mgr & ls & _ & _ & _ & Hls & Hc).
  destruct (recover_stored p (host s) es ls) as (st & h' & H & L' & Ha' & Hiss);
    [done|by left|done|].
  assert (abs (mkSys st h') ≡ abs s) as He by by rewrite Ha'.
  exists st, h'. split_and!; [done|done|by eapply node_inv_equiv| |done].
  exists es. by rewrite He.
Qed.

Lemma lives_inv p s : lives p s → node_inv s ∧ durable p s.
Proof.
  induction 1 as [h st h' Hst H|s req resp s' _ [Hi Hd] H|s timeout r s' _ [Hi Hd] H|s st h' _ [Hi Hd] H].
  - destruct (recover_stored p h [] []) as (st1 & h1 & H1 & L & Ha & Hiss);
      [by constructor|done|done|].
    rewrite H in H1. injection H1 as <- <-. split; [|by exists []].
    apply (node_inv_equiv (mkSys storage_new h)); [exact Ha|done|apply node_inv_new].
  - split; [by eapply node_inv_request | by eapply durable_request].
  - split; [by eapply node_inv_cleanup | by eapply durable_cleanup].
  - destruct (durable_restart p s Hi Hd) as (st1 & h1 & H1 & _ & ? & ? & _).
    rewrite H in H1. by injection H1 as <- <-.
Qed.

Lemma lives_session p reqs s resps s' :
  lives p s → apply_requests reqs s = (Ret resps, s') → lives p s'.
Proof.
  revert s resps. induction reqs as [|req reqs IH]; intros s resps Hs H; cbn in H; minv; [done|].
  eapply IH; [|done]. by eapply live_request.
Qed.

(** C2. Durability: on a disk without faults, at any moment of the life of a
    persistent node a restart succeeds and finds the same queues, items, delivery
    counts and in-flight tasks; only the instants of delivery are new. *)
Theorem restart_recovers p s :
  lives p s →
  ∃ st h', new_persistent p (host s) = (Ret st, h') ∧ abs (mkSys st h') ≡ abs s.
Proof.
  intros [Hi Hd]%lives_inv. destruct (durable_restart p s Hi Hd) as (st & h' & ? & ? & _).
  by exists st, h'.
Qed.

(** A torn last line loses everything: when the log ends in a line that does
    not parse, as after a crash in the middle of a write, the restart answers an
    empty node, whatever the entries before that line. *)
Theorem torn_line_discards_log p h es ls torn e :
  entry_lines es ls → trim_is_empty torn = false → wal_from_str torn = Err e →
  has_char (Ascii.ascii_of_nat 10) torn = false → has_char (Ascii.ascii_of_nat 13) torn = false →
  valid_utf8 torn = true → content p h = Some (unlines ls torn) →
  ∃ st h', new_persistent p h = (Ret st, h') ∧ queues st = ∅ ∧ in_flight st = ∅.
Proof.
  intros Hls Hb Hbad Hn Hr Hu Hc.
  destruct (replay_stored p h ls torn) as (h1 & Hrep & _ & _).
  { apply Forall_app_2; [by eapply entry_lines_text|]. by repeat constructor. }
  { by left. }
  rewrite bool_decide_false, fmap_app in Hrep by (by intros ->). cbn [fmap list_fmap] in Hrep.
  rewrite (replay_loop_corrupt es ls torn [] e Hls Hb Hbad) in Hrep.
  destruct (new_persistent_replays p h h1 (Err e) Hrep I) as (st & h' & H & [Hq Ht] & _).
  exists st, h'. split_and!; [done|exact Hq|]. cbn in Ht. rewrite fmap_empty in Ht.
  by apply fmap_empty_inv in Ht.
Qed.
End logging.

(** ** Examples *)

#[local] Existing Instance ex_runtime.

(** A node with a log on file ["wal"], after the session of [Storage.v]. *)
Definition ex_boot_store : InMemoryStorage := value storage_new (new_persistent "wal" fresh_host).1.
Definition ex_boot : Sys := mkSys ex_boot_store (exec (new_persistent "wal") fresh_host).
Definition ex_logged : Sys := exec (apply_requests ex_session) ex_boot.

Lemma ex_boot_Ret :
  new_persistent "wal" fresh_host = (Ret ex_boot_store, exec (new_persistent "wal") fresh_host).
Proof. refine (value_Ret (new_persistent "wal") fresh_host storage_new _). vm_compute. reflexivity. Qed.

Lemma ex_lives : lives "wal" ex_logged.
Proof.
  apply (lives_session "wal" ex_session ex_boot (value [] (apply_requests ex_session ex_boot).1)).
  - apply (live_start (RT := ex_runtime) "wal" fresh_host); [by right|exact ex_boot_Ret].
  - refine (value_Ret (apply_requests ex_session) ex_boot [] _). vm_compute. reflexivity.
Qed.

Lemma restart_recovers_witness :
  ∃ st h', new_persistent "wal" (host ex_logged) = (Ret st, h') ∧
    queues st !! "q" = Some [mkQueueItem [Byte.x62] 0] ∧ size (in_flight st) = 1.
Proof.
  destruct (restart_recovers "wal" ex_logged ex_lives) as (st & h' & H & Hq & Ht).
  exists st, h'. split; [exact H|]. split.
  - change (queues st) with (a_queues (abs (mkSys st h'))). rewrite Hq. vm_compute. reflexivity.
  - change (in_flight st) with (a_tasks (abs (mkSys st h'))).
    rewrite <- (map_size_fmap timeless), Ht. vm_compute. reflexivity.
Defined.

Definition ex_entry : WalEntry := mkWalEntry (WCreateQueue "q") 0.
Definition ex_line : string := String (Ascii.ascii_of_nat 35) (bits (encode ex_entry)).
Definition ex_torn_host : SimHost := mkHost 0 "task-" 0 {["wal" := unlines [ex_line] "#0"]} 0.

Lemma torn_line_discards_log_witness :
  wal_to_string ex_entry = Ok ex_line ∧
  ∃ st h', new_persistent "wal" ex_torn_host = (Ret st, h') ∧ queues st = ∅ ∧ in_flight st = ∅.
Proof.
  split; [reflexivity|].
  apply (torn_line_discards_log (RT := ex_runtime) "wal" ex_torn_host [ex_entry] [ex_line] "#0" "expected value");
    try (vm_compute; reflexivity).
  repeat constructor.
Defined.
