(* ===== verification/Restarts.v ===== *)
(** * A persistent node across restarts

    The life of a persistent node on a disk without faults, as the trace of the
    commands it answers, its cleanup passes and its restarts.  To its clients the
    restarts do not exist: every trace is one of the abstract service, whose log
    never refuses and which forgets nothing; and what was settled before a restart
    stays settled after it. *)

From stdpp Require Import prelude base gmap gmultiset strings list fin_maps.
From Stdlib Require Import ZArith Lia Strings.Byte.
From S2P Require Import Prelude Types Env Wal Memory Spec Commands Refinement Invariant Models Storage StorageFn Interface Recovery Durability.
Local Open Scope oxide_scope.
Set Warnings "-clear-no-such-hyp".

(** ** Steps of the service and states that differ in delivery instants *)

Lemma lookup_equiv a b id : a ≡ b → a_tasks a !! id = None ↔ a_tasks b !! id = None.
Proof. intros Hab. split; apply equiv_None; by try symmetry. Qed.

Lemma fresh_tasks_equiv ts a b : a ≡ b → fresh_tasks ts a → fresh_tasks ts b.
Proof.
  intros Hab [Hnd Hf]. split; [done|]. eapply Forall_impl; [exact Hf|]. intros t. by apply equiv_None.
Qed.

Lemma item_of_timeless t u : timeless t = timeless u → item_of t = item_of u.
Proof. intros (_ & E1 & _ & E2)%timeless_eq. unfold item_of. by rewrite E1, E2. Qed.

#[export] Hint Extern 5 (_ ≡@{AState} _) => progress repeat f_equiv : oxide.

(** Equivalent states answer alike. *)
Lemma spec_step_equiv f req a b resp a' :
  a ≡ b → spec_step f req a resp a' → ∃ b', spec_step f req b resp b' ∧ a' ≡ b'.
Proof.
  intros Hab Hs. pose proof (a_queues_proper _ _ Hab) as Hq.
  destruct Hs;
    rewrite ?Hq in *;
    repeat match goal with
    | H : a_tasks a !! ?id = Some ?t |- _ =>
      destruct (equiv_lookup _ _ _ _ Hab H) as (u & ? & Hu); clear H;
      destruct (timeless_eq _ _ Hu) as (_ & _ & Hqn & Hat);
      rewrite <- ?Hqn, <- ?Hat, <- ?(item_of_timeless _ _ Hu) in *
    | H : a_tasks a !! ?id = None |- _ => apply (equiv_None _ _ _ Hab) in H
    | H : fresh_tasks _ a |- _ => apply (fresh_tasks_equiv _ _ _ Hab) in H
    end;
    try solve [eexists; split; [solve [econstructor; eauto]|]; eauto with oxide].
  - eexists. split; [by apply (S_extend _ _ _ u _ n)|]. etrans; [by apply a_set_task_proper|].
    apply set_task_timeless. destruct (timeless_eq _ _ Hu) as (E1 & E2 & E3 & E4).
    unfold timeless, set_consumed_at. cbn. by rewrite E1, E2, E3, E4.
  - eexists. split; [apply S_ack_batch|by apply a_del_tasks_proper].
    eapply Forall_impl; [exact H|]. intros id. by apply equiv_is_Some.
  - exists b. split; [|done]. apply S_ack_batch_missing; [done|]. subst missing.
    apply list_filter_iff. intros id. by apply lookup_equiv.
Qed.

Lemma spec_run_equiv f reqs : ∀ a b resps a',
  a ≡ b → spec_run f reqs a resps a' → ∃ b', spec_run f reqs b resps b' ∧ a' ≡ b'.
Proof.
  induction reqs as [|req reqs IH]; intros a b resps a' Hab H; inversion H; simplify_eq.
  { exists b. by split; [constructor|]. }
  edestruct (spec_step_equiv f) as (b1 & Hs & Hab1); [exact Hab|done|].
  edestruct IH as (b2 & Hr & Hab2); [exact Hab1|done|]. exists b2. split; [by econstructor|done].
Qed.

(** ** Traces *)

Inductive Event :=
| Asked (req : ClientRequest) (resp : ClientResponse)
| Passed
| Restarted.

(** The service over a trace: a cleanup pass is some rejections, and a restart is
    nothing. *)
Inductive spec_trace : AState → list Event → AState → Prop :=
| trace_end a : spec_trace a [] a
| trace_asked a req resp a1 evs a2 :
    spec_step false req a resp a1 → spec_trace a1 evs a2 → spec_trace a (Asked req resp :: evs) a2
| trace_passed a ids resps a1 evs a2 :
    spec_run false (RNack <$> ids) a resps a1 → spec_trace a1 evs a2 → spec_trace a (Passed :: evs) a2
| trace_restarted a evs a2 : spec_trace a evs a2 → spec_trace a (Restarted :: evs) a2.

Section restarts.
Context `{RT : !Runtime} `{CH : !Chrono} `{CD : !WalCodec} `{UL : !UuidLaws} `{DL : !DashLaws}
  `{FL : !FsLaws} `{RD : !ReliableDisk} `{CL : !WalCodecLaws}.

(** A node with its log on file [p]: commands are answered, the cleanup passes,
    and the process ends between two calls and is started again. *)
Inductive traced (p : string) : Sys → list Event → Sys → Prop :=
| traced_end s : traced p s [] s
| traced_asked s req resp s1 evs s2 :
    apply_request req s = (Ret resp, s1) → traced p s1 evs s2 → traced p s (Asked req resp :: evs) s2
| traced_passed s timeout r s1 evs s2 :
    cleanup_expired_tasks timeout s = (Ret r, s1) → traced p s1 evs s2 → traced p s (Passed :: evs) s2
| traced_restarted s st h evs s2 :
    new_persistent p (host s) = (Ret st, h) → traced p (mkSys st h) evs s2 →
    traced p s (Restarted :: evs) s2.

Lemma durable_ok p s : durable p s → ∃ es, logged p s es.
Proof. intros (es & L & _). by exists es. Qed.

(** One event of a node, whatever state of the service it is compared with. *)
Lemma traced_sim p s evs s' :
  traced p s evs s' → node_inv s → durable p s →
  ∀ a, a ≡ abs s → ∃ a', spec_trace a evs a' ∧ a' ≡ abs s'.
Proof.
  induction 1 as [s|s req resp s1 evs s2 H _ IH|s timeout r s1 evs s2 H _ IH|s st h evs s2 H _ IH];
    intros Hi Hd a Ha; pose proof (durable_ok _ _ Hd) as Hok.
  - exists a. by split; [constructor|].
  - pose proof (apply_request_mode (LM := logged_mode p) _ _ _ _ (proj1 Hi) Hok H) as Hs.
    edestruct spec_step_equiv as (a1 & Hs1 & Ha1); [symmetry; exact Ha|exact Hs|].
    destruct (IH (node_inv_request _ _ _ _ Hi H) (durable_request _ _ _ _ _ Hi Hd H) a1) as (a' & Ht & Ha');
      [by symmetry|]. exists a'. split; [by econstructor|done].
  - destruct (cleanup_run (LM := logged_mode p) _ _ _ _ Hi Hok H) as (Hi1 & _ & ids & resps & Hr).
    edestruct spec_run_equiv as (a1 & Hr1 & Ha1); [symmetry; exact Ha|exact Hr|].
    destruct (IH Hi1 (durable_cleanup _ _ _ _ _ Hi Hd H) a1) as (a' & Ht & Ha'); [by symmetry|].
    exists a'. split; [by econstructor|done].
  - destruct (durable_restart p s Hi Hd) as (st1 & h1 & H1 & He & Hi1 & Hd1 & _). rewrite H in H1. simplify_eq.
    destruct (IH Hi1 Hd1 a) as (a' & Ht & Ha'); [by rewrite He|]. exists a'. split; [by constructor|done].
Qed.

(** C3. Restarts are invisible: on a disk without faults the answers a persistent
    node gives, through any commands, cleanup passes and restarts, are answers of
    the abstract service to the same commands and passes with the restarts left
    out, and the node ends in the state of the service up to delivery instants. *)
Theorem restarts_invisible p s evs s' :
  lives p s → traced p s evs s' → ∃ a', spec_trace (abs s) evs a' ∧ a' ≡ abs s'.
Proof. intros [Hi Hd]%lives_inv Ht. by eapply traced_sim. Qed.

(** ** Settled tasks stay settled *)

(** The event hands the task out to nobody, and serves no command that needs it. *)
Definition never_again (id : string) (e : Event) : Prop :=
  match e with
  | Asked req resp =>
    (id ∉ response_ids resp) ∧ (settles_or_extends id (Command req) → refused (Responded resp))
  | _ => True
  end.

Lemma traced_retired p id s evs s' :
  traced p s evs s' → durable p s → retired id s →
  retired id s' ∧
  Forall (never_again id) evs.
Proof.
  induction 1 as [s|s req resp s1 evs s2 H _ IH|s timeout r s1 evs s2 H _ IH|s st h evs s2 H _ IH];
    intros Hd Hr; pose proof (proj1 Hr) as Hi; cbn in Hi.
  - by split.
  - assert (operate (S := Sys) (Command req) s = (Ret (Responded resp), s1)) as Ho.
    { cbn [operate]. rewrite dispatch_in_memory. by erewrite bind_step by exact H. }
    destruct (operate_retired _ _ _ _ _ Hr Ho) as (Hr1 & Hn & Hs).
    destruct (IH (durable_request _ _ _ _ _ Hi Hd H) Hr1) as [? ?]. split; [done|]. by constructor.
  - assert (operate (S := Sys) (Cleanup timeout) s = (Ret (Cleaned r), s1)) as Ho.
    { cbn [operate]. by erewrite bind_step by exact H. }
    destruct (operate_retired _ _ _ _ _ Hr Ho) as (Hr1 & _).
    destruct (IH (durable_cleanup _ _ _ _ _ Hi Hd H) Hr1) as [? ?]. split; [done|]. by constructor.
  - destruct (durable_restart p s Hi Hd) as (st1 & h1 & H1 & He & Hi1 & Hd1 & Hiss). rewrite H in H1. simplify_eq.
    destruct Hr as (_ & Hk & Hid). destruct (IH Hd1) as [? ?].
    { split_and!; [done|by cbn; rewrite Hiss|]. cbn [view in_memory_contract]. by eapply equiv_None. }
    split; [done|]. by constructor.
Qed.

(** C20. Settlement survives restarts: once a persistent node answered success to an
    acknowledgement, a rejection or a batch acknowledgement of a task, then through
    any later commands, cleanup passes and restarts the identifier is never handed
    out again, every command that needs the task in flight is an error, and the
    task is not in flight. *)
Theorem settled_stays_settled p id req s s1 evs s2 :
  lives p s → settles id req → apply_request req s = (Ret ROk, s1) → traced p s1 evs s2 →
  in_flight (store s2) !! id = None ∧
  Forall (never_again id) evs.
Proof.
  intros [Hi Hd]%lives_inv Hset H Ht.
  pose proof (apply_request_sim _ _ _ _ (proj1 Hi) H) as Hs.
  destruct (spec_step_settles _ _ _ _ _ Hs Hset) as [Hin Hout].
  destruct (apply_request_issues _ _ _ _ H) as (_ & Hsub & _).
  destruct (traced_retired p id s1 evs s2) as [(_ & _ & ?) ?]; [done|by eapply durable_request| |done].
  split_and!; [by eapply node_inv_request|by apply Hsub, (proj1 Hi)|done].
Qed.
End restarts.

(** ** Examples

    The node of [Durability.ex_logged] acknowledges its task, starts again, is asked
    for the task once more and delivers the other message. *)

#[local] Existing Instance ex_runtime.

Definition ex_acked : Sys := exec (apply_request (RAck "task-0")) ex_logged.
Definition ex_store2 : InMemoryStorage := value storage_new (new_persistent "wal" (host ex_acked)).1.
Definition ex_booted2 : Sys := mkSys ex_store2 (exec (new_persistent "wal") (host ex_acked)).
Definition ex_refused : Sys := exec (apply_request (RAck "task-0")) ex_booted2.
Definition ex_resp : ClientResponse := value ROk (apply_request (RDequeue "q") ex_refused).1.
Definition ex_trace : list Event := [Restarted; Asked (RAck "task-0") (RErr task_not_found_msg); Asked (RDequeue "q") ex_resp].

Lemma ex_acked_Ret : apply_request (RAck "task-0") ex_logged = (Ret ROk, ex_acked).
Proof. refine (exec_Ret (apply_request (RAck "task-0")) ex_logged ROk _). vm_compute. reflexivity. Qed.

Lemma ex_traced : traced "wal" ex_acked ex_trace (exec (apply_request (RDequeue "q")) ex_refused).
Proof.
  eapply (traced_restarted (RT := ex_runtime) "wal" ex_acked ex_store2).
  { refine (value_Ret (new_persistent "wal") (host ex_acked) storage_new _). vm_compute. reflexivity. }
  eapply traced_asked.
  { refine (exec_Ret (apply_request (RAck "task-0")) ex_booted2 (RErr task_not_found_msg) _). vm_compute. reflexivity. }
  eapply traced_asked; [|apply traced_end].
  refine (value_Ret (apply_request (RDequeue "q")) ex_refused ROk _). vm_compute. reflexivity.
Qed.

Lemma restarts_invisible_witness :
  ∃ a, spec_trace (abs ex_logged) (Asked (RAck "task-0") ROk :: ex_trace) a ∧
    a_queues a !! "q" = Some [] ∧ size (a_tasks a) = 1.
Proof.
  destruct (restarts_invisible (RT := ex_runtime) "wal" ex_logged (Asked (RAck "task-0") ROk :: ex_trace)
    (exec (apply_request (RDequeue "q")) ex_refused) ex_lives) as (a & Ha & Hq & Ht).
  { eapply traced_asked; [exact ex_acked_Ret|exact ex_traced]. }
  exists a. split; [exact Ha|]. split; [rewrite Hq; vm_compute; reflexivity|].
  rewrite <- (map_size_fmap timeless), Ht. vm_compute. reflexivity.
Defined.

Lemma settled_stays_settled_witness :
  settles "task-0" (RAck "task-0") ∧ Forall (never_again "task-0") ex_trace.
Proof.
  split; [reflexivity|].
  exact (proj2 (settled_stays_settled (RT := ex_runtime) "wal" "task-0" (RAck "task-0") ex_logged ex_acked ex_trace
    _ ex_lives eq_refl ex_acked_Ret ex_traced)).
Defined.

(** The retry limit on a node with a log. *)
Lemma poison_message_dead_lettered_witness :
  persistent ex_logged = true ∧
  ∃ s', for_each failing_attempt (replicate 5 "q") ex_logged = (Ret tt, s') ∧
    a_queues (abs s') !! "q_dlq" = Some [mkQueueItem [Byte.x62] 5].
Proof.
  split; [vm_compute; reflexivity|].
  destruct (poison_message_dead_lettered (LM := logged_mode "wal") ex_logged "q" [Byte.x62] []) as (s' & H & Ha);
    [exact (proj1 (lives_inv _ _ ex_lives))|exact (durable_ok _ _ (proj2 (lives_inv _ _ ex_lives)))|vm_compute; reflexivity|].
  exists s'. split; [exact H|]. rewrite Ha. vm_compute. reflexivity.
Defined.
