(* ===== verification/Bytes.v ===== *)
(** * Big-endian keys

    [u64::to_be_bytes], [u64::from_be_bytes] and the byte order of a key-value
    store: on keys of the same width the byte order is the order of the numbers,
    which is what lets the Raft log be scanned by index. *)

From stdpp Require Import prelude base list.
From Stdlib Require Import ZArith Lia Strings.Byte.
From S2P Require Import Prelude.

Definition byte_of (z : Z) : Byte.byte := default Byte.x00 (Byte.of_N (Z.to_N z)).

(** The low [n] bytes of [i], most significant first. *)
Fixpoint be_bytes (n : nat) (i : Z) : bytes :=
  match n with
  | O => []
  | S n' => be_bytes n' (i / 256) ++ [byte_of (i mod 256)]
  end.

(** [u64::to_be_bytes] *)
Definition to_be_bytes (i : Z) : bytes := be_bytes 8 i.

Definition be_val (l : bytes) : Z := foldl (λ acc b, acc * 256 + byte_val b)%Z 0%Z l.

(** [key.try_into().unwrap()] to eight bytes, then [u64::from_be_bytes];
    [None] is the failed [unwrap]. *)
Definition from_be_bytes (l : bytes) : option Z :=
  if bool_decide (length l = 8) then Some (be_val l) else None.

(** The order of byte strings: [Ord] on [[u8]]. *)
Fixpoint bytes_leb (a b : bytes) : bool :=
  match a, b with
  | [], _ => true
  | _, [] => false
  | x :: a', y :: b' =>
    if (byte_val x <? byte_val y)%Z then true
    else if (byte_val y <? byte_val x)%Z then false
    else bytes_leb a' b'
  end.
Definition bytes_le (a b : bytes) : Prop := bytes_leb a b = true.
#[export] Instance bytes_le_dec a b : Decision (bytes_le a b).
Proof. unfold bytes_le. apply _. Defined.

(** ** Values *)

Lemma byte_val_range b : (0 ≤ byte_val b < 256)%Z.
Proof.
  unfold byte_val. pose proof (Byte.to_N_bounded b).
  split; [apply N2Z.is_nonneg|]. change 256%Z with (Z.of_N 256). lia.
Qed.

Lemma byte_val_of z : (0 ≤ z < 256)%Z → byte_val (byte_of z) = z.
Proof.
  intros Hz. unfold byte_of, byte_val.
  destruct (Byte.of_N (Z.to_N z)) as [b|] eqn:Hb; cbn.
  - apply Byte.to_of_N in Hb. rewrite Hb. lia.
  - apply of_N_None_iff in Hb. lia.
Qed.

Lemma byte_val_inj a b : byte_val a = byte_val b → a = b.
Proof.
  unfold byte_val. intros H%N2Z.inj. apply (f_equal Byte.of_N) in H.
  rewrite !Byte.of_to_N in H. by injection H.
Qed.

Lemma be_val_snoc l b : be_val (l ++ [b]) = (be_val l * 256 + byte_val b)%Z.
Proof. unfold be_val. by rewrite foldl_app. Qed.

Lemma be_val_cons b l : be_val (b :: l) = (byte_val b * 256 ^ Z.of_nat (length l) + be_val l)%Z.
Proof.
  induction l as [|c l IH] using rev_ind; [cbn; lia|].
  rewrite app_comm_cons, !be_val_snoc, IH, length_app. cbn [length].
  rewrite Nat2Z.inj_add, Z.pow_add_r by lia. change (256 ^ Z.of_nat 1)%Z with 256%Z. ring.
Qed.

Lemma be_val_range l : (0 ≤ be_val l < 256 ^ Z.of_nat (length l))%Z.
Proof.
  induction l as [|b l IH] using rev_ind; [cbn; lia|].
  rewrite be_val_snoc, length_app. cbn [length]. rewrite Nat2Z.inj_add, Z.pow_add_r by lia.
  change (256 ^ Z.of_nat 1)%Z with 256%Z. pose proof (byte_val_range b). lia.
Qed.

Lemma be_bytes_length n i : length (be_bytes n i) = n.
Proof. revert i. induction n as [|n IH]; intros i; cbn; [done|]. rewrite length_app, IH. cbn. lia. Qed.

Lemma be_val_bytes n i : (0 ≤ i < 256 ^ Z.of_nat n)%Z → be_val (be_bytes n i) = i.
Proof.
  revert i. induction n as [|n IH]; intros i Hi; [cbn in *; lia|].
  cbn [be_bytes]. pose proof (Z.mod_pos_bound i 256).
  rewrite be_val_snoc, byte_val_of, IH by
    (rewrite ?Nat2Z.inj_succ, ?Z.pow_succ_r in Hi by lia;
     pose proof (Z.div_mod i 256); split; [apply Z.div_pos|apply Z.div_lt_upper_bound]; lia) || lia.
  pose proof (Z.div_mod i 256). lia.
Qed.

Lemma be_val_inj a b : length a = length b → be_val a = be_val b → a = b.
Proof.
  revert b. induction a as [|x a IH]; intros [|y b]; cbn [length]; try lia; [done|].
  intros [= Hl]. rewrite !be_val_cons, Hl. intros He.
  pose proof (be_val_range a) as Ha. pose proof (be_val_range b) as Hb. rewrite Hl in Ha.
  assert (byte_val x = byte_val y) as Hx by nia.
  rewrite (byte_val_inj _ _ Hx). f_equal. apply IH; [done|]. rewrite Hx in He. lia.
Qed.

(** ** Order *)

Lemma bytes_leb_val a b : length a = length b → bytes_leb a b = (be_val a <=? be_val b)%Z.
Proof.
  revert b. induction a as [|x a IH]; intros [|y b]; cbn [length]; try lia; [done|].
  intros [= Hl]. cbn [bytes_leb]. rewrite !be_val_cons, Hl.
  pose proof (be_val_range a) as Ha. pose proof (be_val_range b) as Hb. rewrite Hl in Ha.
  destruct (Z.ltb_spec (byte_val x) (byte_val y)); [symmetry; apply Z.leb_le; nia|].
  destruct (Z.ltb_spec (byte_val y) (byte_val x)); [symmetry; apply Z.leb_gt; nia|].
  rewrite IH by done. replace (byte_val x) with (byte_val y) by lia.
  destruct (Z.leb_spec (be_val a) (be_val b)); symmetry; [apply Z.leb_le|apply Z.leb_gt]; lia.
Qed.

#[export] Instance bytes_le_trans : Transitive bytes_le.
Proof.
  unfold bytes_le. intros a. induction a as [|x a IH]; [done|].
  intros [|y b] [|z c]; cbn; try done.
  destruct (Z.ltb_spec (byte_val x) (byte_val y)), (Z.ltb_spec (byte_val y) (byte_val z)),
    (Z.ltb_spec (byte_val x) (byte_val z)), (Z.ltb_spec (byte_val y) (byte_val x)),
    (Z.ltb_spec (byte_val z) (byte_val y)), (Z.ltb_spec (byte_val z) (byte_val x));
    try done; try lia. apply IH.
Qed.

#[export] Instance bytes_le_total : Total bytes_le.
Proof.
  unfold bytes_le. intros a. induction a as [|x a IH]; intros [|y b]; cbn; auto.
  destruct (Z.ltb_spec (byte_val x) (byte_val y)), (Z.ltb_spec (byte_val y) (byte_val x)); auto.
Qed.

(** ** Indices *)

Lemma to_be_bytes_length i : length (to_be_bytes i) = 8.
Proof. apply be_bytes_length. Qed.

Lemma from_to_be_bytes i : in_u64 i → from_be_bytes (to_be_bytes i) = Some i.
Proof.
  intros Hi. unfold from_be_bytes, to_be_bytes.
  rewrite bool_decide_true by apply be_bytes_length.
  by rewrite be_val_bytes.
Qed.

Lemma to_be_bytes_inj i j : in_u64 i → in_u64 j → to_be_bytes i = to_be_bytes j → i = j.
Proof.
  intros Hi Hj H. apply (f_equal from_be_bytes) in H.
  rewrite !from_to_be_bytes in H by done. congruence.
Qed.

(** Scanning keys in byte order is scanning indices in order. *)
Lemma to_be_bytes_le i j : in_u64 i → in_u64 j → bytes_le (to_be_bytes i) (to_be_bytes j) ↔ (i ≤ j)%Z.
Proof.
  intros Hi Hj. unfold bytes_le, to_be_bytes.
  rewrite bytes_leb_val by by rewrite !be_bytes_length.
  rewrite !be_val_bytes by done. apply Z.leb_le.
Qed.
