(* ===== verification/RaftLog.v ===== *)
(** * The Raft log store ([replication/combined_storage.rs], the log half)

    [CombinedStorage] keeps the Raft log and the vote in a sled database: the tree
    ["logs"] maps the big-endian index of an entry to its JSON text, the tree
    ["store"] holds the vote and the last purged log id.  sled, serde and the
    types of openraft are parameters; every [expect] and [unwrap] is a panic. *)

From stdpp Require Import prelude base gmap strings list fin_maps sorting.
From Stdlib Require Import ZArith Lia.
From S2P Require Import Prelude Types Bytes.
Local Open Scope oxide_scope.
Set Warnings "-clear-no-such-hyp".

(** ** Interfaces *)

(** The openraft types the program only passes around. *)
Class RaftTypes := {
  LeaderId : Type;
  Vote : Type;
  Membership : Type;
  membership_default : Membership }.

(** [openraft::LogId] and [openraft::Entry] with the program's request type. *)
Record LogId `{!RaftTypes} := mkLogId { leader_id : LeaderId; index : Z }.
Inductive EntryPayload `{!RaftTypes} :=
| Blank
| Normal (req : ClientRequest)
| MembershipChange (m : Membership).
Record Entry `{!RaftTypes} := mkEntry { log_id : LogId; payload : EntryPayload }.
Arguments mkLogId {_} _ _.
Arguments mkEntry {_} _ _.
Arguments Blank {_}.
Arguments Normal {_} _.
Arguments MembershipChange {_} _.

(** serde_json on entries, votes and log ids. *)
Class RaftCodec `{!RaftTypes} := {
  entry_to_vec : Entry → Result bytes string;
  entry_from_slice : bytes → Result Entry string;
  vote_to_vec : Vote → Result bytes string;
  vote_from_slice : bytes → Result Vote string;
  log_id_to_vec : LogId → Result bytes string }.

Class RaftCodecLaws `{RTy : !RaftTypes} `{RC : !RaftCodec} : Prop := {
  entry_total e : ∃ v, entry_to_vec e = Ok v;
  entry_roundtrip e v : entry_to_vec e = Ok v → entry_from_slice v = Ok e;
  vote_total v : ∃ b, vote_to_vec v = Ok b;
  vote_roundtrip v b : vote_to_vec v = Ok b → vote_from_slice b = Ok v;
  log_id_total l : ∃ b, log_id_to_vec l = Ok b }.

(** [sled]: a database of named trees with byte-string keys. *)
Class Sled := {
  Db : Type;
  sled_open_tree : string → Db → Result unit string * Db;
  sled_insert : string → bytes → bytes → Db → Result unit string * Db;
  sled_get : string → bytes → Db → Result (option bytes) string * Db;
  sled_last : string → Db → Result (option (bytes * bytes)) string * Db;
  (** [tree.range(start..)] and [tree.range(..=end)], read to the end. *)
  sled_range_from : string → bytes → Db → list (Result (bytes * bytes) string);
  sled_range_to : string → bytes → Db → list (Result (bytes * bytes) string);
  (** [apply_batch] on a batch of removals. *)
  sled_remove_batch : string → list bytes → Db → Result unit string * Db;
  sled_flush : Db → Result unit string * Db }.

(** A working database: calls succeed and trees are ordered maps. *)
Class SledLaws `{SL : !Sled} := {
  tree : Db → string → gmap bytes bytes;
  open_tree_ok t db : ∃ db', sled_open_tree t db = (Ok tt, db') ∧ tree db' = tree db;
  insert_ok t k v db :
    ∃ db', sled_insert t k v db = (Ok tt, db') ∧
           ∀ t', tree db' t' = if decide (t' = t) then <[k := v]> (tree db t) else tree db t';
  get_ok t k db : ∃ db', sled_get t k db = (Ok (tree db t !! k), db') ∧ tree db' = tree db;
  last_ok t db :
    ∃ r db', sled_last t db = (Ok r, db') ∧ tree db' = tree db ∧
      match r with
      | None => tree db t = ∅
      | Some (k, v) => tree db t !! k = Some v ∧
                       ∀ k', is_Some (tree db t !! k') → bytes_le k' k
      end;
  range_from_ok t k db :
    ∃ l, sled_range_from t k db = Ok <$> l ∧ StronglySorted bytes_le l.*1 ∧ NoDup l.*1 ∧
      ∀ k' v, (k', v) ∈ l ↔ tree db t !! k' = Some v ∧ bytes_le k k';
  range_to_ok t k db :
    ∃ l, sled_range_to t k db = Ok <$> l ∧
      ∀ k' v, (k', v) ∈ l ↔ tree db t !! k' = Some v ∧ bytes_le k' k;
  remove_batch_ok t ks db :
    ∃ db', sled_remove_batch t ks db = (Ok tt, db') ∧
      ∀ t', tree db' t' = if decide (t' = t)
                          then filter (λ kv, kv.1 ∉ ks) (tree db t) else tree db t';
  flush_ok db : ∃ db', sled_flush db = (Ok tt, db') ∧ tree db' = tree db }.

(** ** The code *)

Section code.
Context `{RTy : !RaftTypes} `{RC : !RaftCodec} `{SL : !Sled}.

(** [op.expect(msg)] *)
Definition expect {A} (msg : string) (op : Db → Result A string * Db) : M Db A := λ db,
  match op db with
  | (Ok a, db') => (Ret a, db')
  | (Err _, db') => (Panic msg, db')
  end.
(** [r.expect(msg)] on a value *)
Definition expect_value {A} (msg : string) (r : Result A string) : M Db A :=
  match r with Ok a => mret a | Err _ => panic msg end.

Definition open_logs : M Db unit := expect "failed to open logs tree" (sled_open_tree "logs").
Definition open_store : M Db unit := expect "failed to open store tree" (sled_open_tree "store").

(** [std::ops::Bound] *)
Inductive Bound := Included (i : Z) | Excluded (i : Z) | Unbounded.

(** The [break] guards of the scan. *)
Definition past_end (end_bound : Bound) (index : Z) : bool :=
  match end_bound with
  | Included e => (e <? index)%Z
  | Excluded e => (e <=? index)%Z
  | Unbounded => false
  end.

(** The loop of [try_get_log_entries]. *)
Fixpoint collect_entries (end_bound : Bound) (results : list (Result (bytes * bytes) string))
  (entries : list Entry) : M Db (list Entry) :=
  match results with
  | [] => mret entries
  | result :: results' =>
    '(key, value) ← expect_value "sled error" result;
    match from_be_bytes key with
    | None => panic "called `Result::unwrap()` on an `Err` value"
    | Some index =>
      if past_end end_bound index then mret entries
      else
        entry ← expect_value "deserialize error" (entry_from_slice value);
        collect_entries end_bound results' (entries ++ [entry])
    end
  end.

(** [*i + 1] on [u64], with and without overflow checks. *)
Definition u64_succ (checks : bool) (i : Z) : M Db Z :=
  if (i + 1 <? u64_modulus)%Z then mret (i + 1)%Z
  else if checks then panic "attempt to add with overflow" else mret 0%Z.

Definition try_get_log_entries (checks : bool) (start_bound end_bound : Bound) : M Db (list Entry) :=
  open_logs;;
  start ← match start_bound with
          | Included i => mret i
          | Excluded i => u64_succ checks i
          | Unbounded => mret 0%Z
          end;
  results ← gets (sled_range_from "logs" (to_be_bytes start));
  collect_entries end_bound results [].

(** [LogState]: the last purged and the last log id. *)
Definition get_log_state : M Db (option LogId * option LogId) :=
  open_logs;;
  last ← expect "sled error" (sled_last "logs");
  last_log_id ← match last with
                | Some (_, value) =>
                  entry ← expect_value "deserialize error" (entry_from_slice value);
                  mret (Some (log_id entry))
                | None => mret None
                end;
  mret (None, last_log_id).

Definition vote_key : bytes := as_bytes "vote".
Definition purged_key : bytes := as_bytes "last_purged_log_id".

Definition save_vote (vote : Vote) : M Db unit :=
  open_store;;
  val ← expect_value "called `Result::unwrap()` on an `Err` value" (vote_to_vec vote);
  expect "sled error" (sled_insert "store" vote_key val);;
  expect "flush error" sled_flush.

Definition read_vote : M Db (option Vote) :=
  open_store;;
  val ← expect "sled error" (sled_get "store" vote_key);
  match val with
  | Some val =>
    vote ← expect_value "deserialize error" (vote_from_slice val);
    mret (Some vote)
  | None => mret None
  end.

Definition append_log_entry (entry : Entry) : M Db unit :=
  let key := to_be_bytes (index (log_id entry)) in
  value ← expect_value "called `Result::unwrap()` on an `Err` value" (entry_to_vec entry);
  expect "sled error" (sled_insert "logs" key value).

Definition append_to_log (entries : list Entry) : M Db unit :=
  open_logs;;
  for_each append_log_entry entries;;
  expect "flush error" sled_flush.

(** The loops that fill a batch with the keys of a range. *)
Fixpoint range_keys (results : list (Result (bytes * bytes) string)) : M Db (list bytes) :=
  match results with
  | [] => mret []
  | result :: results' =>
    '(key, _) ← expect_value "sled error" result;
    keys ← range_keys results';
    mret (key :: keys)
  end.

Definition delete_conflict_logs_since (id : LogId) : M Db unit :=
  open_logs;;
  let start := to_be_bytes (index id) in
  results ← gets (sled_range_from "logs" start);
  batch ← range_keys results;
  expect "sled error" (sled_remove_batch "logs" batch);;
  expect "flush error" sled_flush.

Definition purge_logs_upto (id : LogId) : M Db unit :=
  open_logs;;
  results ← gets (sled_range_to "logs" (to_be_bytes (index id)));
  batch ← range_keys results;
  expect "sled error" (sled_remove_batch "logs" batch);;
  open_store;;
  val ← expect_value "called `Result::unwrap()` on an `Err` value" (log_id_to_vec id);
  expect "sled error" (sled_insert "store" purged_key val);;
  expect "flush error" sled_flush.
End code.

(** ** What the store promises *)

Section spec.
Context `{RTy : !RaftTypes}.

Record ALog := mkALog {
  al_entries : gmap Z Entry;
  al_vote : option Vote;
  al_purged : option LogId }.

(** The calls openraft makes, and their answers. *)
Inductive StoreOp :=
| OpAppend (entries : list Entry)
| OpDelete (id : LogId)
| OpPurge (id : LogId)
| OpSaveVote (vote : Vote)
| OpReadVote
| OpState
| OpRead (start_bound end_bound : Bound).

Inductive StoreReply :=
| RepUnit
| RepVote (vote : option Vote)
| RepState (last_purged last : option LogId)
| RepEntries (entries : list Entry).

Definition entry_index (e : Entry) : Z := index (log_id e).

Definition after_start (b : Bound) (i : Z) : Prop :=
  match b with Included s => (s ≤ i)%Z | Excluded s => (s < i)%Z | Unbounded => True end.
Definition before_end (b : Bound) (i : Z) : Prop :=
  match b with Included e => (i ≤ e)%Z | Excluded e => (i < e)%Z | Unbounded => True end.

(** [r] is the id of the entry with the greatest index. *)
Definition last_entry (m : gmap Z Entry) (r : option LogId) : Prop :=
  match r with
  | None => m = ∅
  | Some id => ∃ e, m !! index id = Some e ∧ log_id e = id ∧
                    ∀ j, is_Some (m !! j) → (j ≤ index id)%Z
  end.

Definition put_entries (es : list Entry) (m : gmap Z Entry) : gmap Z Entry :=
  foldl (λ m e, <[entry_index e := e]> m) m es.

Inductive store_step : StoreOp → ALog → StoreReply → ALog → Prop :=
| T_append es m v p :
    store_step (OpAppend es) (mkALog m v p) RepUnit (mkALog (put_entries es m) v p)
| T_delete id m v p :
    store_step (OpDelete id) (mkALog m v p) RepUnit
      (mkALog (filter (λ kv, (kv.1 < index id)%Z) m) v p)
| T_purge id m v p :
    store_step (OpPurge id) (mkALog m v p) RepUnit
      (mkALog (filter (λ kv, (index id < kv.1)%Z) m) v (Some id))
| T_save_vote vote m v p :
    store_step (OpSaveVote vote) (mkALog m v p) RepUnit (mkALog m (Some vote) p)
| T_read_vote a : store_step OpReadVote a (RepVote (al_vote a)) a
| T_state a last :
    last_entry (al_entries a) last → store_step OpState a (RepState None last) a
| T_read lo hi a l :
    StronglySorted Z.lt (entry_index <$> l) →
    (∀ e, e ∈ l ↔ al_entries a !! entry_index e = Some e ∧
                  after_start lo (entry_index e) ∧ before_end hi (entry_index e)) →
    store_step (OpRead lo hi) a (RepEntries l) a.

Inductive store_run : list StoreOp → ALog → list StoreReply → ALog → Prop :=
| U_nil a : store_run [] a [] a
| U_cons op ops a rep a1 reps a2 :
    store_step op a rep a1 → store_run ops a1 reps a2 → store_run (op :: ops) a (rep :: reps) a2.

(** Indices are [u64]; a scan does not start after the last one. *)
Definition op_ok (op : StoreOp) : Prop :=
  match op with
  | OpAppend es => Forall (λ e, in_u64 (entry_index e)) es
  | OpDelete id | OpPurge id => in_u64 (index id)
  | OpRead (Included i) _ => in_u64 i
  | OpRead (Excluded i) _ => (0 ≤ i)%Z ∧ (i + 1 < u64_modulus)%Z
  | _ => True
  end.
End spec.

Section exec.
Context `{RTy : !RaftTypes} `{RC : !RaftCodec} `{SL : !Sled}.

Definition exec_op (checks : bool) (op : StoreOp) : M Db StoreReply :=
  match op with
  | OpAppend es => append_to_log es;; mret RepUnit
  | OpDelete id => delete_conflict_logs_since id;; mret RepUnit
  | OpPurge id => purge_logs_upto id;; mret RepUnit
  | OpSaveVote vote => save_vote vote;; mret RepUnit
  | OpReadVote => v ← read_vote; mret (RepVote v)
  | OpState => '(p, l) ← get_log_state; mret (RepState p l)
  | OpRead lo hi => l ← try_get_log_entries checks lo hi; mret (RepEntries l)
  end.

Fixpoint exec_ops (checks : bool) (ops : list StoreOp) : M Db (list StoreReply) :=
  match ops with
  | [] => mret []
  | op :: ops' => rep ← exec_op checks op; reps ← exec_ops checks ops'; mret (rep :: reps)
  end.
End exec.

(** ** The store keeps its promise *)

Section proofs.
Context `{RTy : !RaftTypes} `{RC : !RaftCodec} `{SL : !Sled} `{LS : !SledLaws} `{CL : !RaftCodecLaws}.

(** A key of the ["store"] tree holds the text of an optional value. *)
Definition holds {A} (to_vec : A → Result bytes string) (r : option bytes) (o : option A) : Prop :=
  match o with None => r = None | Some a => ∃ b, r = Some b ∧ to_vec a = Ok b end.

(** The database represents the log [a]. *)
Record log_rel (db : Db) (a : ALog) : Prop := {
  rel_logs k v : tree db "logs" !! k = Some v ↔
    ∃ e, al_entries a !! entry_index e = Some e ∧ k = to_be_bytes (entry_index e) ∧
         entry_to_vec e = Ok v;
  rel_index i e : al_entries a !! i = Some e → entry_index e = i ∧ in_u64 i;
  rel_vote : holds vote_to_vec (tree db "store" !! vote_key) (al_vote a);
  rel_purged : holds log_id_to_vec (tree db "store" !! purged_key) (al_purged a) }.

Lemma log_rel_tree db db' a : tree db' = tree db → log_rel db a → log_rel db' a.
Proof. intros Ht [H1 H2 H3 H4]. split; by rewrite ?Ht. Qed.

Lemma log_rel_empty db : tree db = (λ _, ∅) → log_rel db (mkALog ∅ None None).
Proof.
  intros Ht. split; cbn; rewrite ?Ht.
  - intros k v. rewrite lookup_empty. split; [done|]. intros (e & H & _).
    by rewrite lookup_empty in H.
  - intros i e H. by rewrite lookup_empty in H.
  - done.
  - done.
Qed.

(** *** Calls that succeed *)

Lemma expect_Ok {A} msg (op : Db → Result A string * Db) db a db' :
  op db = (Ok a, db') → expect msg op db = (Ret a, db').
Proof. intros H. unfold expect. by rewrite H. Qed.

Lemma open_logs_ok db : ∃ db', open_logs db = (Ret tt, db') ∧ tree db' = tree db.
Proof.
  destruct (open_tree_ok "logs" db) as (db' & H & Ht). exists db'. split; [|done].
  by apply expect_Ok.
Qed.
Lemma open_store_ok db : ∃ db', open_store db = (Ret tt, db') ∧ tree db' = tree db.
Proof.
  destruct (open_tree_ok "store" db) as (db' & H & Ht). exists db'. split; [|done].
  by apply expect_Ok.
Qed.

Lemma flushed db msg : ∃ db', expect msg sled_flush db = (Ret tt, db') ∧ tree db' = tree db.
Proof. destruct (flush_ok db) as (db' & H & Ht). exists db'. split; [by apply expect_Ok|done]. Qed.

Lemma range_keys_ok l db :
  range_keys (Ok <$> l) db = (Ret l.*1, db).
Proof.
  induction l as [|[k v] l IH]; [done|]. cbn [range_keys fmap list_fmap expect_value].
  rewrite bind_ret_l. by erewrite bind_step by exact IH.
Qed.

(** *** Updates *)

Lemma log_rel_put db db' a e v :
  log_rel db a → in_u64 (entry_index e) → entry_to_vec e = Ok v →
  (∀ t, tree db' t = if decide (t = "logs"%string) then <[to_be_bytes (entry_index e) := v]> (tree db "logs") else tree db t) →
  log_rel db' (mkALog (<[entry_index e := e]> (al_entries a)) (al_vote a) (al_purged a)).
Proof.
  intros [H1 H2 H3 H4] Hi Hv Ht. split; cbn [al_entries al_vote al_purged];
    rewrite ?Ht, ?decide_True, ?decide_False by done; [|..|done|done].
  - intros k w. rewrite lookup_insert_Some, H1. split.
    + intros [[<- <-]|[Hne (e' & He' & -> & Hw)]].
      * exists e. by rewrite lookup_insert_eq.
      * exists e'. split; [|done]. rewrite lookup_insert_ne; [done|]. intros Heq.
        by rewrite Heq in Hne.
    + intros (e' & He' & -> & Hw). apply lookup_insert_Some in He' as [[Heq <-]|[Hne He']].
      * left. split; [done|congruence].
      * right. split; [|by exists e']. intros Heq. apply Hne.
        apply to_be_bytes_inj; [done| |done]. by apply H2 in He' as [_ ?].
  - intros i e' [[<- <-]|[_ He']]%lookup_insert_Some; [done|by apply H2].
Qed.

Lemma log_rel_filter db db' a (P : Z → Prop) `{HD : !∀ i, Decision (P i)} (ks : list bytes) vo :
  log_rel db a →
  (∀ i e, al_entries a !! i = Some e → to_be_bytes i ∉ ks ↔ P i) →
  (∀ t, tree db' t = if decide (t = "logs"%string) then filter (λ kv, kv.1 ∉ ks) (tree db "logs") else tree db t) →
  vo = al_purged a →
  log_rel db' (mkALog (filter (λ kv, P kv.1) (al_entries a)) (al_vote a) vo).
Proof.
  intros [H1 H2 H3 H4] HP Ht ->. split; cbn [al_entries al_vote al_purged];
    rewrite ?Ht, ?decide_True, ?decide_False by done; [|..|done|done].
  - intros k w. rewrite map_lookup_filter_Some, H1. cbn. split.
    + intros [(e & He & -> & Hw) Hk]. exists e. split; [|done].
      apply map_lookup_filter_Some. split; [done|]. by apply (HP _ e).
    + intros (e & [He Hp]%map_lookup_filter_Some & -> & Hw). split; [by exists e|].
      by apply (HP _ e).
  - intros i e [He _]%map_lookup_filter_Some. by apply H2.
Qed.

Lemma log_rel_put_store db db' a k v vote purged :
  log_rel db a →
  (∀ t, tree db' t = if decide (t = "store"%string) then <[k := v]> (tree db "store") else tree db t) →
  holds vote_to_vec (<[k := v]> (tree db "store") !! vote_key) vote →
  holds log_id_to_vec (<[k := v]> (tree db "store") !! purged_key) purged →
  log_rel db' (mkALog (al_entries a) vote purged).
Proof.
  intros [H1 H2 H3 H4] Ht Hv Hp. split; cbn [al_entries al_vote al_purged]; rewrite ?Ht.
  - by rewrite decide_False.
  - done.
  - by rewrite decide_True.
  - by rewrite decide_True.
Qed.

(** *** Operation by operation *)

Lemma append_entries_ok es : ∀ db a,
  log_rel db a → Forall (λ e, in_u64 (entry_index e)) es →
  ∃ db', for_each append_log_entry es db = (Ret tt, db') ∧
    log_rel db' (mkALog (put_entries es (al_entries a)) (al_vote a) (al_purged a)).
Proof.
  induction es as [|e es IH]; intros db a Hr Hes; [by exists db; destruct a|].
  inversion_clear Hes as [|? ? He Hes'].
  destruct (entry_total e) as [v Hv].
  destruct (insert_ok "logs" (to_be_bytes (entry_index e)) v db) as (db1 & H1 & Ht1).
  destruct (IH db1 (mkALog (<[entry_index e := e]> (al_entries a)) (al_vote a) (al_purged a)))
    as (db2 & H2 & Hr2); [|done|].
  { by eapply log_rel_put. }
  exists db2. split; [|done]. cbn [for_each].
  erewrite bind_step; [exact H2|]. unfold append_log_entry. rewrite Hv. cbn [expect_value].
  rewrite bind_ret_l. by apply expect_Ok.
Qed.

Lemma append_to_log_ok es db a :
  log_rel db a → Forall (λ e, in_u64 (entry_index e)) es →
  ∃ db', append_to_log es db = (Ret tt, db') ∧
    log_rel db' (mkALog (put_entries es (al_entries a)) (al_vote a) (al_purged a)).
Proof.
  intros Hr Hes. destruct (open_logs_ok db) as (db1 & H1 & Ht1).
  destruct (append_entries_ok es db1 a) as (db2 & H2 & Hr2); [by eapply log_rel_tree|done|].
  destruct (flushed db2 "flush error") as (db3 & H3 & Ht3).
  exists db3. split; [|by eapply log_rel_tree]. unfold append_to_log.
  erewrite bind_step by exact H1. by erewrite bind_step by exact H2.
Qed.

(** The keys below or above an index, of a represented log. *)
Lemma range_from_keys db a i l :
  log_rel db a → in_u64 i →
  (∀ k v, (k, v) ∈ l ↔ tree db "logs" !! k = Some v ∧ bytes_le (to_be_bytes i) k) →
  ∀ j e, al_entries a !! j = Some e → to_be_bytes j ∉ l.*1 ↔ (j < i)%Z.
Proof.
  intros Hr Hi Hl j e He. destruct (rel_index _ _ Hr _ _ He) as [<- Hj].
  destruct (entry_total e) as [v Hv].
  assert (to_be_bytes (entry_index e) ∈ l.*1 ↔ (i ≤ entry_index e)%Z) as Hin; [|rewrite Hin; lia].
  rewrite list_elem_of_fmap, <- to_be_bytes_le by done. split.
  - intros ([k w] & -> & [_ ?]%Hl). done.
  - intros Hle. exists (to_be_bytes (entry_index e), v). split; [done|]. apply Hl.
    split; [|done]. apply (rel_logs _ _ Hr). by exists e.
Qed.

Lemma range_to_keys db a i l :
  log_rel db a → in_u64 i →
  (∀ k v, (k, v) ∈ l ↔ tree db "logs" !! k = Some v ∧ bytes_le k (to_be_bytes i)) →
  ∀ j e, al_entries a !! j = Some e → to_be_bytes j ∉ l.*1 ↔ (i < j)%Z.
Proof.
  intros Hr Hi Hl j e He. destruct (rel_index _ _ Hr _ _ He) as [<- Hj].
  destruct (entry_total e) as [v Hv].
  assert (to_be_bytes (entry_index e) ∈ l.*1 ↔ (entry_index e ≤ i)%Z) as Hin; [|rewrite Hin; lia].
  rewrite list_elem_of_fmap, <- to_be_bytes_le by done. split.
  - intros ([k w] & -> & [_ ?]%Hl). done.
  - intros Hle. exists (to_be_bytes (entry_index e), v). split; [done|]. apply Hl.
    split; [|done]. apply (rel_logs _ _ Hr). by exists e.
Qed.

Lemma delete_conflict_ok id db a :
  log_rel db a → in_u64 (index id) →
  ∃ db', delete_conflict_logs_since id db = (Ret tt, db') ∧
    log_rel db' (mkALog (filter (λ kv, (kv.1 < index id)%Z) (al_entries a)) (al_vote a) (al_purged a)).
Proof.
  intros Hr Hi. destruct (open_logs_ok db) as (db1 & H1 & Ht1).
  apply (log_rel_tree _ _ _ Ht1) in Hr.
  destruct (range_from_ok "logs" (to_be_bytes (index id)) db1) as (l & Hl & _ & _ & Hin).
  destruct (remove_batch_ok "logs" l.*1 db1) as (db2 & H2 & Ht2).
  destruct (flushed db2 "flush error") as (db3 & H3 & Ht3).
  exists db3. split.
  - unfold delete_conflict_logs_since. erewrite bind_step by exact H1. rewrite bind_gets, Hl.
    erewrite bind_step by apply range_keys_ok. by erewrite bind_step by (by apply expect_Ok).
  - eapply log_rel_tree; [done|].
    eapply (log_rel_filter _ _ _ (λ i, i < index id)%Z (HD := λ i, Z.lt_dec i (index id))); [done| |exact Ht2|done].
    by eapply range_from_keys.
Qed.

Lemma purge_ok id db a :
  log_rel db a → in_u64 (index id) →
  ∃ db', purge_logs_upto id db = (Ret tt, db') ∧
    log_rel db' (mkALog (filter (λ kv, (index id < kv.1)%Z) (al_entries a)) (al_vote a) (Some id)).
Proof.
  intros Hr Hi. destruct (open_logs_ok db) as (db1 & H1 & Ht1).
  apply (log_rel_tree _ _ _ Ht1) in Hr.
  destruct (range_to_ok "logs" (to_be_bytes (index id)) db1) as (l & Hl & Hin).
  destruct (remove_batch_ok "logs" l.*1 db1) as (db2 & H2 & Ht2).
  destruct (open_store_ok db2) as (db3 & H3 & Ht3).
  destruct (log_id_total id) as [b Hb].
  destruct (insert_ok "store" purged_key b db3) as (db4 & H4 & Ht4).
  destruct (flushed db4 "flush error") as (db5 & H5 & Ht5).
  assert (log_rel db3 (mkALog (filter (λ kv, (index id < kv.1)%Z) (al_entries a)) (al_vote a) (al_purged a)))
    as Hr3.
  { eapply log_rel_tree; [done|].
    eapply (log_rel_filter _ _ _ (λ i, index id < i)%Z (HD := λ i, Z.lt_dec (index id) i)); [done| |exact Ht2|done].
    by eapply range_to_keys. }
  exists db5. split.
  - unfold purge_logs_upto. erewrite bind_step by exact H1. rewrite bind_gets, Hl.
    erewrite bind_step by apply range_keys_ok. erewrite bind_step by (by apply expect_Ok).
    erewrite bind_step by exact H3. rewrite Hb. cbn [expect_value]. rewrite bind_ret_l.
    by erewrite bind_step by (by apply expect_Ok).
  - eapply log_rel_tree; [done|].
    eapply (log_rel_put_store _ _ _ _ _ (al_vote a) (Some id) Hr3 Ht4).
    + rewrite lookup_insert_ne by done. apply (rel_vote _ _ Hr3).
    + rewrite lookup_insert_eq. by exists b.
Qed.

Lemma save_vote_ok vote db a :
  log_rel db a →
  ∃ db', save_vote vote db = (Ret tt, db') ∧
    log_rel db' (mkALog (al_entries a) (Some vote) (al_purged a)).
Proof.
  intros Hr. destruct (open_store_ok db) as (db1 & H1 & Ht1).
  apply (log_rel_tree _ _ _ Ht1) in Hr. destruct (vote_total vote) as [b Hb].
  destruct (insert_ok "store" vote_key b db1) as (db2 & H2 & Ht2).
  destruct (flushed db2 "flush error") as (db3 & H3 & Ht3).
  exists db3. split.
  - unfold save_vote. erewrite bind_step by exact H1. rewrite Hb. cbn [expect_value].
    rewrite bind_ret_l. by erewrite bind_step by (by apply expect_Ok).
  - eapply log_rel_tree; [done|].
    eapply (log_rel_put_store _ _ _ _ _ (Some vote) (al_purged a) Hr Ht2).
    + rewrite lookup_insert_eq. by exists b.
    + rewrite lookup_insert_ne by done. apply (rel_purged _ _ Hr).
Qed.

Lemma read_vote_ok db a :
  log_rel db a → ∃ db', read_vote db = (Ret (al_vote a), db') ∧ log_rel db' a.
Proof.
  intros Hr. destruct (open_store_ok db) as (db1 & H1 & Ht1).
  apply (log_rel_tree _ _ _ Ht1) in Hr.
  destruct (get_ok "store" vote_key db1) as (db2 & H2 & Ht2).
  exists db2. split; [|by eapply log_rel_tree]. unfold read_vote.
  erewrite bind_step by exact H1. erewrite bind_step by (by apply expect_Ok).
  pose proof (rel_vote _ _ Hr) as Hv. destruct (al_vote a) as [v|]; cbn [holds] in Hv.
  - destruct Hv as (b & -> & Hb). rewrite (vote_roundtrip _ _ Hb). done.
  - by rewrite Hv.
Qed.

Lemma get_log_state_ok db a :
  log_rel db a →
  ∃ last db', get_log_state db = (Ret (None, last), db') ∧ log_rel db' a ∧
              last_entry (al_entries a) last.
Proof.
  intros Hr. destruct (open_logs_ok db) as (db1 & H1 & Ht1).
  apply (log_rel_tree _ _ _ Ht1) in Hr.
  destruct (last_ok "logs" db1) as (r & db2 & H2 & Ht2 & Hlast).
  assert (log_rel db2 a) as Hr2 by by eapply log_rel_tree.
  unfold get_log_state. destruct r as [[k v]|].
  - destruct Hlast as [Hk Hmax]. apply (rel_logs _ _ Hr) in Hk as (e & He & -> & Hv).
    exists (Some (log_id e)), db2. split_and!; [|done|].
    + erewrite bind_step by exact H1. erewrite bind_step by (by apply expect_Ok).
      cbv beta iota. by rewrite (entry_roundtrip _ _ Hv).
    + exists e. split_and!; [done|done|]. intros j [e' He'].
      destruct (rel_index _ _ Hr _ _ He) as [_ Hi]. destruct (rel_index _ _ Hr _ _ He') as [<- Hj].
      apply to_be_bytes_le; [done|done|]. apply Hmax. destruct (entry_total e') as [v' Hv'].
      exists v'. apply (rel_logs _ _ Hr). by exists e'.
  - exists None, db2. split_and!; [|done|].
    + erewrite bind_step by exact H1. by erewrite bind_step by (by apply expect_Ok).
    + apply map_eq. intros i. rewrite lookup_empty. apply eq_None_not_Some. intros [e He].
      destruct (rel_index _ _ Hr _ _ He) as [<- _]. destruct (entry_total e) as [v Hv].
      assert (tree db1 "logs" !! to_be_bytes (entry_index e) = Some v) as Hs
        by (apply (rel_logs _ _ Hr); by exists e).
      by rewrite Hlast, lookup_empty in Hs.
Qed.

(** *** Scans *)

(** A stored pair and the entry it is the text of. *)
Definition stores (kv : bytes * bytes) (e : Entry) : Prop :=
  kv.1 = to_be_bytes (entry_index e) ∧ in_u64 (entry_index e) ∧ entry_to_vec e = Ok kv.2.

Lemma past_end_spec hi i : past_end hi i = false ↔ before_end hi i.
Proof.
  destruct hi as [e|e|]; cbn; [|..|done].
  - destruct (Z.ltb_spec e i); split; (done || lia).
  - destruct (Z.leb_spec e i); split; (done || lia).
Qed.
Lemma past_end_mono hi i j : past_end hi i = true → (i < j)%Z → past_end hi j = true.
Proof. destruct hi as [e|e|]; cbn; [| |done]; intros ? ?; [apply Z.ltb_lt|apply Z.leb_le]; lia. Qed.

Lemma filter_none {A} (P : A → Prop) `{!∀ x, Decision (P x)} l : Forall (λ x, ¬ P x) l → filter P l = [].
Proof. induction 1 as [|x l Hx _ IH]; [done|]. by rewrite filter_cons, decide_False. Qed.

Lemma StronglySorted_filter {A B} (R : B → B → Prop) (f : A → B) (P : A → Prop)
  `{!∀ x, Decision (P x)} l :
  StronglySorted R (f <$> l) → StronglySorted R (f <$> filter P l).
Proof.
  induction l as [|x l IH]; [done|]. cbn [fmap list_fmap]. intros Hs.
  inversion_clear Hs as [|? ? Hs' Hx]. rewrite filter_cons. case_decide; [|by apply IH].
  cbn. constructor; [by apply IH|]. rewrite Forall_fmap in Hx |- *.
  apply Forall_forall. intros y [_ Hy]%list_elem_of_filter. by apply (proj1 (Forall_forall _ _) Hx).
Qed.

(** Breaking out of an ordered scan is filtering it. *)
Lemma collect_filter hi l es acc db :
  Forall2 stores l es → StronglySorted Z.lt (entry_index <$> es) →
  collect_entries hi (Ok <$> l) acc db =
    (Ret (acc ++ filter (λ e, past_end hi (entry_index e) = false) es), db).
Proof.
  intros Hl. revert acc. induction Hl as [|[k v] e l es (Hk & Hi & Hv) _ IH]; intros acc Hs.
  { cbn. by rewrite app_nil_r. }
  cbn [fst snd] in Hk, Hv. cbn [fmap list_fmap] in Hs. inversion_clear Hs as [|? ? Hs' Hlt].
  cbn [fmap list_fmap collect_entries expect_value]. rewrite bind_ret_l. cbv beta iota.
  rewrite Hk, from_to_be_bytes by done. rewrite filter_cons.
  destruct (past_end hi (entry_index e)) eqn:Hp.
  - rewrite decide_False by done. rewrite filter_none; [by rewrite app_nil_r|].
    rewrite Forall_fmap in Hlt. eapply Forall_impl; [exact Hlt|]. intros e' He'. cbn in He'.
    by rewrite (past_end_mono _ _ _ Hp He').
  - rewrite decide_True by done. rewrite (entry_roundtrip _ _ Hv). cbn [expect_value].
    rewrite bind_ret_l, IH by done. by rewrite <- app_assoc.
Qed.

(** The pairs of an ordered scan are the texts of entries in index order. *)
Lemma scanned_entries db a l :
  log_rel db a → StronglySorted bytes_le l.*1 → NoDup l.*1 →
  (∀ k v, (k, v) ∈ l → tree db "logs" !! k = Some v) →
  ∃ es, Forall2 stores l es ∧ StronglySorted Z.lt (entry_index <$> es).
Proof.
  intros Hr. induction l as [|[k v] l IH]; intros Hs Hnd Hin.
  { exists []. split; [done|constructor]. }
  cbn [fmap list_fmap fst] in Hs, Hnd. inversion_clear Hs as [|? ? Hs' Hle].
  apply NoDup_cons in Hnd as [Hk Hnd].
  destruct IH as (es & Hes & Hss); [done|done|intros k' v' ?; apply Hin; by right|].
  assert (tree db "logs" !! k = Some v) as Hkv by (apply Hin; left).
  apply (rel_logs _ _ Hr) in Hkv as (e & He & -> & Hv).
  destruct (rel_index _ _ Hr _ _ He) as [_ Hi].
  exists (e :: es). split; [by constructor|]. cbn [fmap list_fmap]. constructor; [done|].
  clear -Hes Hle Hk Hi. induction Hes as [|[k' v'] e' l es (Hk' & Hi' & _) _ IH]; [constructor|].
  cbn [fst] in Hk'. cbn [fmap list_fmap fst] in Hle, Hk. inversion_clear Hle as [|? ? Hle1 Hle2].
  cbn [fmap list_fmap]. constructor; [|apply IH; [set_solver|done]].
  rewrite Hk', to_be_bytes_le in Hle1 by done.
  assert (entry_index e ≠ entry_index e'); [|lia]. intros Heq. apply Hk. rewrite Heq, <- Hk'. left.
Qed.

Lemma scanned_elem l es e :
  Forall2 stores l es → (e ∈ es ↔ ∃ v, (to_be_bytes (entry_index e), v) ∈ l ∧ entry_to_vec e = Ok v).
Proof.
  induction 1 as [|[k v] e' l es (Hk & Hi & Hv) _ IH].
  - split; [by intros ?%not_elem_of_nil|]. by intros (v & ?%not_elem_of_nil & _).
  - cbn in Hk, Hv. subst k. rewrite elem_of_cons, IH. split.
    + intros [->|(w & Hin & Hw)].
      * exists v. split; [left|done].
      * exists w. split; [by right|done].
    + intros (w & [Heq|Hin]%elem_of_cons & Hw).
      * left. apply pair_eq in Heq as [_ ->]. apply entry_roundtrip in Hv, Hw. congruence.
      * right. by exists w.
Qed.

Lemma try_get_ok checks lo hi db a :
  log_rel db a → op_ok (OpRead lo hi) →
  ∃ es db', try_get_log_entries checks lo hi db = (Ret es, db') ∧ log_rel db' a ∧
    StronglySorted Z.lt (entry_index <$> es) ∧
    (∀ e, e ∈ es ↔ al_entries a !! entry_index e = Some e ∧
                   after_start lo (entry_index e) ∧ before_end hi (entry_index e)).
Proof.
  intros Hr Hlo. destruct (open_logs_ok db) as (db1 & H1 & Ht1).
  apply (log_rel_tree _ _ _ Ht1) in Hr.
  assert (∃ start, in_u64 start ∧ (∀ i, in_u64 i → (start ≤ i)%Z ↔ after_start lo i) ∧
    (match lo with Included i => mret i | Excluded i => u64_succ checks i | Unbounded => mret 0%Z end)
      db1 = (Ret start, db1)) as (start & Hst & Hafter & Hstart).
  { destruct lo as [i|i|]; cbn in Hlo.
    - exists i. by split_and!.
    - destruct Hlo. exists (i + 1)%Z. unfold u64_succ. rewrite (proj2 (Z.ltb_lt _ _)) by done.
      split_and!; [split; lia| |done]. intros j _. cbn. lia.
    - exists 0%Z. split_and!; [done| |done]. intros j [? _]. done. }
  destruct (range_from_ok "logs" (to_be_bytes start) db1) as (l & Hl & Hsort & Hnd & Hin).
  destruct (scanned_entries db1 a l Hr Hsort Hnd) as (es & Hes & Hss); [by intros k v [? _]%Hin|].
  exists (filter (λ e, past_end hi (entry_index e) = false) es), db1. split_and!.
  - unfold try_get_log_entries. erewrite bind_step by exact H1. erewrite bind_step by exact Hstart.
    rewrite bind_gets, Hl. by rewrite (collect_filter hi l es [] db1 Hes Hss).
  - done.
  - by apply StronglySorted_filter.
  - intros e. rewrite list_elem_of_filter, past_end_spec, (scanned_elem _ _ _ Hes).
    setoid_rewrite Hin. setoid_rewrite (rel_logs _ _ Hr). split.
    + intros [He (v & [(e' & He' & Heq & Hv') Hle] & Hv)].
      destruct (rel_index _ _ Hr _ _ He') as [_ Hi'].
      assert (e' = e) as -> by (apply entry_roundtrip in Hv, Hv'; congruence).
      split_and!; [done| |done]. apply Hafter; [done|]. by apply to_be_bytes_le in Hle.
    + intros (He & Hlo' & Hhi). destruct (rel_index _ _ Hr _ _ He) as [_ Hi].
      split; [done|]. destruct (entry_total e) as [v Hv]. exists v. split; [|done].
      split; [by exists e|]. apply to_be_bytes_le; [done|done|]. by apply Hafter.
Qed.
End proofs.
