(* ===== verification/Replica.v ===== *)
(** * The replicated state machine ([replication/combined_storage.rs])

    [CombinedStorage] as a replica: it applies the committed entries of the Raft
    log to its [InMemoryStorage], remembers the id of the last one, and builds and
    installs snapshots.  The state of a replica is its database, its storage with
    its host, and [last_applied_log]. *)

From stdpp Require Import prelude base gmap strings list fin_maps pretty.
From Stdlib Require Import ZArith Lia.
From S2P Require Import Prelude Types Env Wal Memory Spec Commands RaftLog.
Local Open Scope oxide_scope.
Set Warnings "-clear-no-such-hyp".

(** serde_json on the snapshot's pair of maps. *)
Class SnapshotCodec := {
  snapshot_to_vec : gmap string (list QueueItem) * gmap string InFlightTask → Result bytes string;
  snapshot_from_slice : bytes → Result (gmap string (list QueueItem) * gmap string InFlightTask) string }.

Class SnapshotCodecLaws `{SC : !SnapshotCodec} : Prop := {
  snapshot_total d : ∃ b, snapshot_to_vec d = Ok b;
  snapshot_roundtrip d b : snapshot_to_vec d = Ok b → snapshot_from_slice b = Ok d }.

Section code.
Context `{RT : !Runtime} `{CH : !Chrono} `{CD : !WalCodec}.
Context `{RTy : !RaftTypes} `{SL : !Sled} `{SC : !SnapshotCodec}.

Record CombinedStorage := mkCombined {
  db : Db;
  state_machine : Sys;
  last_applied_log : option LogId }.

(** A call on the shared [InMemoryStorage]. *)
Definition on_state_machine {A} (c : M Sys A) : M CombinedStorage A := λ r,
  let '(o, s) := c (state_machine r) in (o, mkCombined (db r) s (last_applied_log r)).

Definition set_last_applied (id : option LogId) : M CombinedStorage unit :=
  modify (λ r, mkCombined (db r) (state_machine r) id).

(** [StoredMembership::new(log_id, membership)] *)
Record StoredMembership := mkStoredMembership {
  sm_log_id : option LogId;
  sm_membership : Membership }.

(** [SnapshotMeta] *)
Record SnapshotMeta := mkSnapshotMeta {
  last_log_id : option LogId;
  last_membership : StoredMembership;
  snapshot_id : string }.

(** [Snapshot]: the metadata and the cursor's bytes. *)
Record Snapshot := mkSnapshot { meta : SnapshotMeta; snapshot : bytes }.

(** The body of the loop of [apply_to_state_machine]. *)
Definition apply_payload (p : EntryPayload) : M CombinedStorage ClientResponse :=
  match p with
  | Blank => mret ROk
  | Normal req => on_state_machine (apply_request req)
  | MembershipChange _ => mret ROk
  end.

Fixpoint apply_entries (entries : list Entry) (responses : list ClientResponse)
  : M CombinedStorage (list ClientResponse) :=
  match entries with
  | [] => mret responses
  | entry :: entries' =>
    res ← apply_payload (payload entry);
    set_last_applied (Some (log_id entry));;
    apply_entries entries' (responses ++ [res])
  end.

Definition apply_to_state_machine (entries : list Entry) : M CombinedStorage (list ClientResponse) :=
  apply_entries entries [].

Definition last_applied_state : M CombinedStorage (option LogId * StoredMembership) :=
  log_id ← gets last_applied_log;
  mret (log_id, mkStoredMembership log_id membership_default).

(** [begin_receiving_snapshot], [get_current_snapshot] *)
Definition begin_receiving_snapshot : M CombinedStorage bytes := mret [].
Definition get_current_snapshot : M CombinedStorage (option Snapshot) := mret None.

Definition build_snapshot : M CombinedStorage (Result Snapshot string) :=
  data ← on_state_machine get_snapshot_data;
  match snapshot_to_vec data with
  | Err e => mret (Err e)
  | Ok data =>
    last_log ← gets last_applied_log;
    let meta := mkSnapshotMeta last_log (mkStoredMembership last_log membership_default)
      ("snap-" +:+ pretty (match last_log with Some l => index l | None => 0%Z end))%string in
    mret (Ok (mkSnapshot meta data))
  end.

Definition install_snapshot (meta : SnapshotMeta) (data : bytes)
  : M CombinedStorage (Result unit string) :=
  match snapshot_from_slice data with
  | Err e => mret (Err e)
  | Ok (qs, ts) =>
    on_state_machine (restore_from_snapshot qs ts);;
    set_last_applied (last_log_id meta);;
    mret (Ok tt)
  end.
End code.

(** [CombinedStorage::new]: the database of the path, a given state machine, and
    no applied entry. *)
Definition combined_new `{RT : !Runtime} `{RTy : !RaftTypes} `{SL : !Sled}
  (open : Result Db string) (state_machine : Sys) : Result CombinedStorage string :=
  match open with
  | Ok db => Ok (mkCombined db state_machine None)
  | Err e => Err e
  end.
