(* ===== verification/RaftModels.v ===== *)
(** * Concrete instances of the interfaces of [RaftLog.v] and [Replica.v]

    An ordered map as the database, numbers as votes and leaders, lists of node
    ids as memberships, and a text codec. *)

From stdpp Require Import prelude base gmap strings list fin_maps sorting.
From Stdlib Require Import ZArith Lia Strings.Byte.
From S2P Require Import Prelude Types Bytes Models RaftLog Replica.
Set Warnings "-clear-no-such-hyp".

#[export] Instance sim_raft : RaftTypes := {
  LeaderId := Z;
  Vote := Z * Z;
  Membership := list Z;
  membership_default := [] }.

(** ** The codec *)

#[export] Program Instance ClientRequest_countable : Countable ClientRequest :=
  inj_countable'
    (λ r, match r with
     | RCreateQueue n => inl (inl (inl n))
     | REnqueue q d => inl (inl (inr (q, d)))
     | RDequeue q => inl (inr (inl q))
     | RAck i => inl (inr (inr i))
     | RNack i => inr (inl (inl i))
     | RExtendVisibility i d => inr (inl (inr (i, d)))
     | REnqueueBatch q ds => inr (inr (inl (q, ds)))
     | RDequeueBatch q n => inr (inr (inr (inl (q, n))))
     | RAckBatch ids => inr (inr (inr (inr ids)))
     end)
    (λ c, match c with
     | inl (inl (inl n)) => RCreateQueue n
     | inl (inl (inr (q, d))) => REnqueue q d
     | inl (inr (inl q)) => RDequeue q
     | inl (inr (inr i)) => RAck i
     | inr (inl (inl i)) => RNack i
     | inr (inl (inr (i, d))) => RExtendVisibility i d
     | inr (inr (inl (q, ds))) => REnqueueBatch q ds
     | inr (inr (inr (inl (q, n)))) => RDequeueBatch q n
     | inr (inr (inr (inr ids))) => RAckBatch ids
     end) _.
Next Obligation. by intros []. Qed.

(** An entry as a tuple the generic encoding applies to. *)
Definition entry_tuple (e : Entry) : Z * Z * option (ClientRequest + list Z) :=
  (leader_id (log_id e), index (log_id e),
   match payload e with
   | Blank => None
   | Normal r => Some (inl r)
   | MembershipChange m => Some (inr m)
   end).
Definition tuple_entry (p : Z * Z * option (ClientRequest + list Z)) : Entry :=
  mkEntry (mkLogId p.1.1 p.1.2)
    (match p.2 with None => Blank | Some (inl r) => Normal r | Some (inr m) => MembershipChange m end).

Definition text_of {A} `{Countable A} (a : A) : bytes := as_bytes (bits (encode a)).
Definition of_text {A} `{Countable A} (b : bytes) : Result A string :=
  match unbits (String.string_of_list_byte b) ≫= decode with
  | Some a => Ok a
  | None => Err "expected value"
  end.

Lemma of_text_of {A} `{Countable A} (a : A) : of_text (text_of a) = Ok a.
Proof.
  unfold of_text, text_of, as_bytes. rewrite String.string_of_list_byte_of_string, unbits_bits.
  cbn. by rewrite decode_encode.
Qed.

#[export] Instance sim_raft_codec : RaftCodec := {
  entry_to_vec e := Ok (text_of (entry_tuple e));
  entry_from_slice b := match of_text b with Ok p => Ok (tuple_entry p) | Err e => Err e end;
  vote_to_vec v := Ok (text_of (A := Z * Z) v);
  vote_from_slice b := of_text (A := Z * Z) b;
  log_id_to_vec l := Ok (text_of (A := Z * Z) (leader_id l, index l)) }.

#[export] Instance sim_raft_codec_laws : RaftCodecLaws.
Proof.
  split.
  - intros e. by eexists.
  - intros [[l i] p] v [= <-]. cbn. rewrite of_text_of. by destruct p.
  - intros v. by eexists.
  - intros v b [= <-]. apply of_text_of.
  - intros l. by eexists.
Qed.

(** ** The database *)

Definition pair_le (a b : bytes * bytes) : Prop := bytes_le a.1 b.1.
#[export] Instance pair_le_dec a b : Decision (pair_le a b).
Proof. unfold pair_le. apply _. Defined.
#[export] Instance pair_le_trans : Transitive pair_le.
Proof. intros a b c. apply bytes_le_trans. Qed.
#[export] Instance pair_le_total : Total pair_le.
Proof. intros a b. apply (total bytes_le). Qed.

Definition sorted_pairs (m : gmap bytes bytes) : list (bytes * bytes) :=
  merge_sort pair_le (map_to_list m).

Definition sim_tree (db : gmap string (gmap bytes bytes)) (t : string) : gmap bytes bytes :=
  default ∅ (db !! t).

#[export] Instance sim_sled : Sled := {
  Db := gmap string (gmap bytes bytes);
  sled_open_tree t db := (Ok tt, db);
  sled_insert t k v db := (Ok tt, <[t := <[k := v]> (sim_tree db t)]> db);
  sled_get t k db := (Ok (sim_tree db t !! k), db);
  sled_last t db := (Ok (last (sorted_pairs (sim_tree db t))), db);
  sled_range_from t k db := Ok <$> sorted_pairs (filter (λ kv, bytes_le k kv.1) (sim_tree db t));
  sled_range_to t k db := Ok <$> sorted_pairs (filter (λ kv, bytes_le kv.1 k) (sim_tree db t));
  sled_remove_batch t ks db :=
    (Ok tt, <[t := filter (λ kv, kv.1 ∉ ks) (sim_tree db t)]> db);
  sled_flush db := (Ok tt, db) }.

Lemma sorted_pairs_elem m k v : (k, v) ∈ sorted_pairs m ↔ m !! k = Some v.
Proof. unfold sorted_pairs. by rewrite merge_sort_Permutation, elem_of_map_to_list. Qed.

Lemma sorted_pairs_keys m : StronglySorted bytes_le (sorted_pairs m).*1 ∧ NoDup (sorted_pairs m).*1.
Proof.
  split; [|unfold sorted_pairs; rewrite merge_sort_Permutation; apply NoDup_fst_map_to_list].
  assert (StronglySorted pair_le (sorted_pairs m)) as H by apply (StronglySorted_merge_sort pair_le).
  induction H as [|p l _ IH Hp]; cbn; constructor; [done|]. by apply Forall_fmap.
Qed.

Lemma sorted_last (l : list (bytes * bytes)) p :
  StronglySorted bytes_le l.*1 → last l = Some p → p ∈ l ∧ ∀ q, q ∈ l → bytes_le q.1 p.1.
Proof.
  intros Hs Hl. apply last_Some in Hl as [l' ->]. split; [set_solver|].
  intros q [Hq|Hq]%elem_of_app.
  - rewrite fmap_app in Hs. clear -Hs Hq. induction l' as [|x l' IH]; [by apply not_elem_of_nil in Hq|].
    cbn in Hs. inversion_clear Hs as [|? ? Hs' Hx]. apply elem_of_cons in Hq as [->|Hq]; [|by apply IH].
    apply Forall_app in Hx as [_ Hx]. by inversion Hx.
  - apply list_elem_of_singleton in Hq as ->. by destruct (total bytes_le p.1 p.1).
Qed.

#[export] Program Instance sim_sled_laws : SledLaws := {| tree := sim_tree |}.
Next Obligation. intros t db. by exists db. Qed.
Next Obligation.
  intros t k v db. eexists. split; [done|]. intros t'. unfold sim_tree at 1.
  rewrite lookup_insert. by repeat case_decide; subst.
Qed.
Next Obligation. intros t k db. by exists db. Qed.
Next Obligation.
  intros t db. exists (last (sorted_pairs (sim_tree db t))), db. split_and!; [done|done|].
  destruct (last (sorted_pairs (sim_tree db t))) as [[k v]|] eqn:Hl.
  - apply sorted_last in Hl as [Hin Hmax]; [|apply sorted_pairs_keys].
    split; [by apply sorted_pairs_elem|]. intros k' [v' Hk']. apply (Hmax (k', v')).
    by apply sorted_pairs_elem.
  - apply last_None in Hl. apply map_eq. intros k. rewrite lookup_empty.
    apply eq_None_not_Some. intros [v Hv%sorted_pairs_elem]. rewrite Hl in Hv.
    by apply not_elem_of_nil in Hv.
Qed.
Next Obligation.
  intros t k db. eexists. split; [done|]. split_and!; [apply sorted_pairs_keys..|].
  intros k' v. by rewrite sorted_pairs_elem, map_lookup_filter_Some.
Qed.
Next Obligation.
  intros t k db. eexists. split; [done|].
  intros k' v. by rewrite sorted_pairs_elem, map_lookup_filter_Some.
Qed.
Next Obligation.
  intros t ks db. eexists. split; [done|]. intros t'. unfold sim_tree at 1.
  rewrite lookup_insert. by repeat case_decide; subst.
Qed.
Next Obligation. intros db. by exists db. Qed.

(** ** The snapshot codec *)

#[export] Program Instance QueueItem_countable : Countable QueueItem :=
  inj_countable' (λ i, (qi_data i, qi_attempts i)) (λ p, mkQueueItem p.1 p.2) _.
Next Obligation. by intros []. Qed.
#[export] Program Instance InFlightTask_countable : Countable InFlightTask :=
  inj_countable' (λ t, (t_id t, t_data t, t_consumed_at t, t_queue_name t, t_attempts t))
    (λ p, mkTask p.1.1.1.1 p.1.1.1.2 p.1.1.2 p.1.2 p.2) _.
Next Obligation. by intros []. Qed.

#[export] Instance sim_snapshot_codec : SnapshotCodec := {
  snapshot_to_vec d := Ok (text_of (map_to_list d.1, map_to_list d.2));
  snapshot_from_slice b :=
    match of_text (A := list (string * list QueueItem) * list (string * InFlightTask)) b with
    | Ok p => Ok (list_to_map p.1, list_to_map p.2)
    | Err e => Err e
    end }.

#[export] Instance sim_snapshot_codec_laws : SnapshotCodecLaws.
Proof.
  split; [by eexists|]. intros [qs ts] b [= <-]. cbn. rewrite of_text_of. cbn.
  by rewrite !list_to_map_to_list.
Qed.
