(* ===== verification/RaftStore.v ===== *)
(** * What the Raft log store guarantees

    Any sequence of the calls openraft makes behaves as the abstract log of
    [RaftLog.v]; overwriting a conflicting suffix leaves exactly the new one; and
    a purge is not reported. *)

From stdpp Require Import prelude base gmap strings list fin_maps sorting.
From Stdlib Require Import ZArith Lia.
From S2P Require Import Prelude Types Bytes Models RaftLog RaftModels.
Set Warnings "-clear-no-such-hyp".

Section store.
Context `{RTy : !RaftTypes} `{RC : !RaftCodec} `{SL : !Sled} `{LS : !SledLaws} `{CL : !RaftCodecLaws}.

Lemma exec_op_refines checks op db a :
  log_rel db a → op_ok op →
  ∃ rep db' a', exec_op checks op db = (Ret rep, db') ∧ store_step op a rep a' ∧ log_rel db' a'.
Proof.
  intros Hr Hop. destruct a as [m v p], op as [es|id|id|vote| | |lo hi]; cbn [exec_op op_ok] in *.
  - destruct (append_to_log_ok es db _ Hr Hop) as (db' & H & Hr').
    exists RepUnit, db'. eexists. erewrite bind_step by exact H. split_and!; [done|constructor|done].
  - destruct (delete_conflict_ok id db _ Hr Hop) as (db' & H & Hr').
    exists RepUnit, db'. eexists. erewrite bind_step by exact H. split_and!; [done|constructor|done].
  - destruct (purge_ok id db _ Hr Hop) as (db' & H & Hr').
    exists RepUnit, db'. eexists. erewrite bind_step by exact H. split_and!; [done|constructor|done].
  - destruct (save_vote_ok vote db _ Hr) as (db' & H & Hr').
    exists RepUnit, db'. eexists. erewrite bind_step by exact H. split_and!; [done|constructor|done].
  - destruct (read_vote_ok db _ Hr) as (db' & H & Hr').
    eexists _, db', _. erewrite bind_step by exact H. split_and!; [done|constructor|done].
  - destruct (get_log_state_ok db _ Hr) as (last & db' & H & Hr' & Hl).
    eexists _, db', _. erewrite bind_step by exact H. split_and!; [done|by constructor|done].
  - destruct (try_get_ok checks lo hi db _ Hr Hop) as (es & db' & H & Hr' & Hs & Hin).
    eexists _, db', _. erewrite bind_step by exact H. split_and!; [done|by constructor|done].
Qed.

Lemma sorted_ext {A} (f : A → Z) (l1 l2 : list A) :
  StronglySorted Z.lt (f <$> l1) → StronglySorted Z.lt (f <$> l2) →
  (∀ x, x ∈ l1 ↔ x ∈ l2) → l1 = l2.
Proof.
  revert l2. induction l1 as [|x l1 IH]; intros [|y l2] H1 H2 Hin.
  - done.
  - exfalso. by apply (not_elem_of_nil y), Hin, list_elem_of_here.
  - exfalso. by apply (not_elem_of_nil x), Hin, list_elem_of_here.
  - cbn [fmap list_fmap] in H1, H2.
    inversion_clear H1 as [|? ? H1' Hx]. inversion_clear H2 as [|? ? H2' Hy].
    rewrite Forall_fmap, Forall_forall in Hx, Hy. cbn in Hx, Hy.
    assert (x = y) as <-.
    { assert (x ∈ y :: l2) as [|Hxl]%elem_of_cons by (apply Hin; left); [done|].
      assert (y ∈ x :: l1) as [|Hyl]%elem_of_cons by (apply Hin; left); [done|].
      specialize (Hx _ Hyl). specialize (Hy _ Hxl). lia. }
    f_equal. apply IH; [done..|]. intros z. specialize (Hin z). rewrite !elem_of_cons in Hin.
    split; intros Hz.
    + destruct (proj1 Hin (or_intror Hz)) as [->|]; [|done]. specialize (Hx _ Hz). lia.
    + destruct (proj2 Hin (or_intror Hz)) as [->|]; [|done]. specialize (Hy _ Hz). lia.
Qed.

Lemma put_entries_lookup es m i e :
  StronglySorted Z.lt (entry_index <$> es) →
  put_entries es m !! i = Some e ↔
    (e ∈ es ∧ entry_index e = i) ∨ (m !! i = Some e ∧ i ∉ entry_index <$> es).
Proof.
  revert m. induction es as [|x es IH]; intros m Hs.
  - cbn. split; [|by intros [[?%not_elem_of_nil _]|[? _]]]. intros H. right.
    split; [done|apply not_elem_of_nil].
  - cbn [fmap list_fmap] in Hs. inversion_clear Hs as [|? ? Hs' Hx].
    cbn [put_entries foldl]. change (foldl _ ?m0 es) with (put_entries es m0).
    rewrite IH by done. cbn [fmap list_fmap]. rewrite !elem_of_cons, lookup_insert_Some.
    assert (entry_index x ∉ entry_index <$> es) as Hn.
    { intros Hin. rewrite Forall_forall in Hx. specialize (Hx _ Hin). lia. }
    naive_solver.
Qed.

(** C10. Refinement of the log store: from any represented log, every sequence
    of calls openraft may make returns, with the answers of the abstract log and
    a database that represents the resulting log; scans come back in index order. *)
Theorem raft_store_refines checks ops db a :
  log_rel db a → Forall op_ok ops →
  ∃ reps db' a', exec_ops checks ops db = (Ret reps, db') ∧ store_run ops a reps a' ∧ log_rel db' a'.
Proof.
  intros Hr Hops. revert db a Hr. induction Hops as [|op ops Hop _ IH]; intros db a Hr.
  { exists [], db, a. split_and!; [done|constructor|done]. }
  destruct (exec_op_refines checks op db a Hr Hop) as (rep & db1 & a1 & H1 & Hs1 & Hr1).
  destruct (IH db1 a1 Hr1) as (reps & db2 & a2 & H2 & Hs2 & Hr2).
  exists (rep :: reps), db2, a2. split_and!; [|by econstructor|done].
  cbn [exec_ops]. erewrite bind_step by exact H1. by erewrite bind_step by exact H2.
Qed.

(** Conflict resolution: deleting the log from an index and appending a new
    suffix in index order leaves, from that index on, exactly the new suffix, in
    order, and keeps every entry before it. *)
Theorem conflict_replaced checks id es db a :
  log_rel db a → in_u64 (index id) →
  Forall (λ e, in_u64 (entry_index e) ∧ (index id ≤ entry_index e)%Z) es →
  StronglySorted Z.lt (entry_index <$> es) →
  ∃ db' db'' a', (delete_conflict_logs_since id;; append_to_log es) db = (Ret tt, db') ∧
    try_get_log_entries checks (Included (index id)) Unbounded db' = (Ret es, db'') ∧
    log_rel db'' a' ∧
    (∀ i, (i < index id)%Z → al_entries a' !! i = al_entries a !! i).
Proof.
  intros Hr Hid Hes Hs.
  destruct (delete_conflict_ok id db a Hr Hid) as (db1 & H1 & Hr1).
  destruct (append_to_log_ok es db1 _ Hr1) as (db2 & H2 & Hr2).
  { eapply Forall_impl; [exact Hes|]. by intros e []. }
  destruct (try_get_ok checks (Included (index id)) Unbounded db2 _ Hr2 Hid)
    as (l & db3 & H3 & Hr3 & Hsl & Hl).
  cbn [al_entries after_start before_end] in Hl.
  assert (l = es) as ->.
  { apply (sorted_ext entry_index); [done..|]. intros e. rewrite Hl, put_entries_lookup by done.
    rewrite Forall_forall in Hes. rewrite map_lookup_filter_Some. cbn [fst]. split.
    - intros ([[? _]|[[_ ?] _]] & ? & _); [done|lia].
    - intros He. destruct (Hes _ He). split_and!; auto. }
  exists db2, db3, (mkALog (put_entries es (filter (λ kv, (kv.1 < index id)%Z) (al_entries a)))
    (al_vote a) (al_purged a)).
  split_and!; [by erewrite bind_step by exact H1|exact H3|exact Hr3|].
  intros i Hi. cbn [al_entries]. apply option_eq. intros e.
  rewrite put_entries_lookup by done. rewrite map_lookup_filter_Some. cbn [fst]. split.
  - intros [[He <-]|[[He _] _]]; [|done]. rewrite Forall_forall in Hes.
    destruct (Hes _ He). lia.
  - intros He. right. split; [done|]. intros (e' & -> & He')%list_elem_of_fmap.
    rewrite Forall_forall in Hes. destruct (Hes _ He'). lia.
Qed.

(** A purge is forgotten: after purging a prefix the purged id is stored,
    but [get_log_state] still reports no purged log id; once every entry is
    purged it reports an empty, never purged log. *)
Theorem purge_not_reported id db a :
  log_rel db a → in_u64 (index id) → (∀ i, is_Some (al_entries a !! i) → (i ≤ index id)%Z) →
  ∃ db' db'' b, purge_logs_upto id db = (Ret tt, db') ∧
    log_id_to_vec id = Ok b ∧ tree db' "store" !! purged_key = Some b ∧
    get_log_state db' = (Ret (None, None), db'').
Proof.
  intros Hr Hid Hall. destruct (purge_ok id db a Hr Hid) as (db1 & H1 & Hr1).
  destruct (rel_purged _ _ Hr1) as (b & Hb & Hv).
  destruct (get_log_state_ok db1 _ Hr1) as (last & db2 & H2 & _ & Hl).
  exists db1, db2, b. split_and!; [done..|]. rewrite H2. cbn [al_entries] in Hl.
  destruct last as [l|]; [|done]. destruct Hl as (e & He & _ & _).
  apply map_lookup_filter_Some in He as [He Hlt]. cbn in Hlt.
  specialize (Hall (index l)). rewrite He in Hall. specialize (Hall ltac:(by eexists)). lia.
Qed.
End store.

(** ** Examples *)

Definition ex_id (i : Z) : LogId := @mkLogId sim_raft 1%Z i.
Definition ex_vote : Vote := (3, 7)%Z : @Vote sim_raft.
Definition ex_log_entry (i : Z) : Entry := mkEntry (ex_id i) (Normal (RDequeue "q")).
Definition ex_alog : ALog := mkALog ∅ None None.

Lemma ex_log_rel : log_rel (∅ : Db) ex_alog.
Proof. by apply log_rel_empty. Qed.

Lemma raft_store_refines_witness :
  ∃ reps db' a',
    exec_ops true [OpAppend [ex_log_entry 300; ex_log_entry 1]; OpSaveVote ex_vote; OpReadVote;
                   OpRead Unbounded (Excluded 300)] (∅ : Db) = (Ret reps, db') ∧
    store_run [OpAppend [ex_log_entry 300; ex_log_entry 1]; OpSaveVote ex_vote; OpReadVote;
               OpRead Unbounded (Excluded 300)] ex_alog reps a' ∧ log_rel db' a'.
Proof. apply raft_store_refines; [exact ex_log_rel|]. by repeat constructor. Defined.

Lemma conflict_replaced_witness :
  ∃ db' db'' a',
    (delete_conflict_logs_since (ex_id 255);; append_to_log [ex_log_entry 255; ex_log_entry 256])
      (∅ : Db) = (Ret tt, db') ∧
    try_get_log_entries true (Included 255) Unbounded db'
      = (Ret [ex_log_entry 255; ex_log_entry 256], db'') ∧
    log_rel db'' a' ∧ (∀ i, (i < 255)%Z → al_entries a' !! i = al_entries ex_alog !! i).
Proof.
  apply (conflict_replaced true (ex_id 255) _ (∅ : Db) ex_alog ex_log_rel); by repeat constructor.
Defined.

Lemma purge_not_reported_witness :
  ∃ db db' db'' b, append_to_log [ex_log_entry 8; ex_log_entry 9] (∅ : Db) = (Ret tt, db) ∧
    purge_logs_upto (ex_id 9) db = (Ret tt, db') ∧
    log_id_to_vec (ex_id 9) = Ok b ∧ tree db' "store" !! purged_key = Some b ∧
    get_log_state db' = (Ret (None, None), db'').
Proof.
  destruct (append_to_log_ok [ex_log_entry 8; ex_log_entry 9] (∅ : Db) ex_alog ex_log_rel)
    as (db & H & Hr); [by repeat constructor|].
  destruct (purge_not_reported (ex_id 9) db _ Hr) as (db' & db'' & b & Hp);
    [by repeat constructor| |by exists db, db', db'', b].
  intros i. cbn [al_entries put_entries foldl]. intros [e He].
  apply lookup_insert_Some in He as [[<- _]|[_ He]]; [reflexivity|].
  apply lookup_insert_Some in He as [[<- _]|[_ He]]; [discriminate|].
  cbn in He. by rewrite lookup_empty in He.
Defined.
