(* ===== verification/Replication.v ===== *)
(** * What replication guarantees, and where replicas part

    Applying the log in any batches is applying its commands in order, a snapshot
    carries the whole state, logs without task identifiers keep the queues of all
    replicas equal, and a log that acknowledges a task does not. *)

From stdpp Require Import prelude base gmap gmultiset strings list fin_maps.
From Stdlib Require Import ZArith Lia Strings.Byte.
From S2P Require Import Prelude Types Env Wal Memory Spec Commands Refinement Invariant Models Storage StorageFn Maintenance RaftLog RaftModels Replica.
Local Open Scope oxide_scope.
Set Warnings "-clear-no-such-hyp".

Section replication.
Context `{RT : !Runtime} `{CH : !Chrono} `{CD : !WalCodec} `{UL : !UuidLaws} `{DL : !DashLaws}.
Context `{RTy : !RaftTypes} `{SL : !Sled} `{SC : !SnapshotCodec}.

(** ** Applying the log *)

(** The commands of a log, and the answers of a log whose commands answered [reps]. *)
Definition requests_of (es : list Entry) : list ClientRequest :=
  omap (λ e, match payload e with Normal req => Some req | _ => None end) es.

Fixpoint weave (es : list Entry) (reps : list ClientResponse) : list ClientResponse :=
  match es with
  | [] => []
  | e :: es' =>
    match payload e, reps with
    | Normal _, rep :: reps' => rep :: weave es' reps'
    | Normal _, [] => []
    | _, _ => ROk :: weave es' reps
    end
  end.

Definition last_id (es : list Entry) (id : option LogId) : option LogId :=
  match last es with Some e => Some (log_id e) | None => id end.

Lemma last_id_cons e es id : last_id (e :: es) id = last_id es (Some (log_id e)).
Proof. unfold last_id. rewrite last_cons. by destruct (last es). Qed.

Lemma apply_entries_acc es acc r :
  apply_entries es acc r = (resps ← apply_entries es []; mret (acc ++ resps)) r.
Proof.
  revert acc r. induction es as [|e es IH]; intros acc r.
  { unfold mbind, M_bind. cbn. by rewrite app_nil_r. }
  cbn [apply_entries]. unfold mbind, M_bind.
  destruct (apply_payload (payload e) r) as [[res|msg] r1]; [|done]. cbn.
  rewrite IH, (IH [res]). unfold mbind, M_bind, mret, M_ret.
  destruct (apply_entries es [] _) as [[resps|msg] r2]; [|done].
  by rewrite <- app_assoc.
Qed.

Lemma apply_entry_Ret e r res s :
  apply_payload (payload e) r = (Ret res, mkCombined (db r) s (last_applied_log r)) →
  ∀ es, apply_entries (e :: es) [] r =
    (resps ← apply_entries es []; mret (res :: resps)) (mkCombined (db r) s (Some (log_id e))).
Proof.
  intros H es. cbn [apply_entries]. erewrite bind_step by exact H.
  unfold set_last_applied. rewrite bind_modify. cbn. by rewrite apply_entries_acc.
Qed.

Lemma apply_log_spec es : ∀ r reps s,
  apply_requests (requests_of es) (state_machine r) = (Ret reps, s) →
  apply_to_state_machine es r =
    (Ret (weave es reps), mkCombined (db r) s (last_id es (last_applied_log r))).
Proof.
  unfold apply_to_state_machine. induction es as [|e es IH]; intros r reps s H.
  { cbn in H. injection H as <- <-. by destruct r. }
  rewrite last_id_cons. cbn [weave]. unfold requests_of in H. cbn [omap list_omap] in H.
  destruct (payload e) as [|req|m] eqn:Hp.
  - rewrite (apply_entry_Ret e r ROk (state_machine r)) by (rewrite Hp; by destruct r).
    erewrite bind_step by (by apply (IH (mkCombined _ _ _))). done.
  - cbn [apply_requests] in H. minv.
    match goal with H : apply_request _ _ = (Ret ?x, ?s1) |- _ =>
      rewrite (apply_entry_Ret e r x s1) by (rewrite Hp; cbn; unfold on_state_machine; by rewrite H) end.
    erewrite bind_step by (by apply (IH (mkCombined _ _ _))). done.
  - rewrite (apply_entry_Ret e r ROk (state_machine r)) by (rewrite Hp; by destruct r).
    erewrite bind_step by (by apply (IH (mkCombined _ _ _))). done.
Qed.

Lemma weave_length es reps :
  length reps = length (requests_of es) → length (weave es reps) = length es.
Proof.
  revert reps. induction es as [|e es IH]; intros reps; [done|].
  unfold requests_of. cbn. destruct (payload e); cbn; [intros H; f_equal; by apply IH| |intros H; f_equal; by apply IH].
  destruct reps as [|rep reps]; [done|]. intros [= H]. cbn. f_equal. by apply IH.
Qed.

Lemma apply_requests_length reqs s reps s' :
  apply_requests reqs s = (Ret reps, s') → length reps = length reqs.
Proof.
  revert s reps. induction reqs as [|req reqs IH]; intros s reps H; cbn in H; minv; [done|].
  cbn. f_equal. by eapply IH.
Qed.

(** A replica is its log: when the commands of the log return, applying the
    entries answers exactly one response per entry, runs exactly those commands
    in log order on the state machine, answers Ok to blank and membership
    entries, and records the id of the last entry. *)
Theorem apply_is_log_order es r reps s :
  apply_requests (requests_of es) (state_machine r) = (Ret reps, s) →
  ∃ resps, apply_to_state_machine es r =
      (Ret resps, mkCombined (db r) s (last_id es (last_applied_log r))) ∧
    resps = weave es reps ∧ length resps = length es.
Proof.
  intros H. exists (weave es reps). split_and!; [by apply apply_log_spec|done|].
  by eapply weave_length, apply_requests_length.
Qed.

(** Batching is invisible: applying two batches one after the other is
    applying their concatenation, panics included. *)
Theorem apply_batches es1 es2 r :
  apply_to_state_machine (es1 ++ es2) r =
  (resps1 ← apply_to_state_machine es1; resps2 ← apply_to_state_machine es2;
   mret (resps1 ++ resps2)) r.
Proof.
  unfold apply_to_state_machine. revert r. induction es1 as [|e es1 IH]; intros r.
  { unfold mbind, M_bind. cbn. by destruct (apply_entries es2 [] r) as [[]]. }
  cbn [app apply_entries]. unfold mbind, M_bind.
  destruct (apply_payload (payload e) r) as [[res|msg] r1]; [|done]. cbn.
  rewrite !(apply_entries_acc _ [res]). unfold mbind, M_bind. rewrite IH. unfold mbind, M_bind.
  destruct (apply_entries es1 [] _) as [[l1|] r2]; [|done]. cbn.
  by destruct (apply_entries es2 [] r2) as [[l2|] r3].
Qed.

(** ** Snapshots *)

Lemma snapshot_data_Ret s :
  ∃ s', get_snapshot_data s = (Ret (queues (store s), in_flight (store s)), s') ∧
        store s' = store s ∧ quiet s s'.
Proof.
  unfold get_snapshot_data.
  destruct (iter_map_Ret queues s) as (qs & s1 & Hqs & Hpq & Hq1 & Hst1).
  destruct (iter_map_Ret in_flight s1) as (ts & s2 & Hts & Hpt & Hq2 & Hst2).
  rewrite Hst1 in Hpt.
  exists s2. split; [|split; [congruence|by etrans]]. erewrite bind_step by exact Hqs. erewrite bind_step by exact Hts.
  assert (list_to_map qs = queues (store s)) as ->.
  { rewrite (list_to_map_proper qs (map_to_list (queues (store s)))); [apply list_to_map_to_list| |done].
    rewrite Hpq. apply NoDup_fst_map_to_list. }
  assert (list_to_map ts = in_flight (store s)) as ->; [|done].
  rewrite (list_to_map_proper ts (map_to_list (in_flight (store s)))); [apply list_to_map_to_list| |done].
  rewrite Hpt. apply NoDup_fst_map_to_list.
Qed.

Lemma put_queues_Ret l s :
  NoDup l.*1 →
  for_each (λ '(k, v), put_queue k v) l s =
    (Ret tt, set_queues (λ m, list_to_map l ∪ m) s).
Proof.
  revert s. induction l as [|[k v] l IH]; intros s Hnd.
  - destruct s as [[q f w] h]. cbn. unfold set_queues. cbn. by rewrite (left_id_L ∅ (∪)).
  - apply NoDup_cons in Hnd as [Hk Hnd]. cbn [for_each]. cbv beta iota.
    erewrite bind_step by reflexivity.
    rewrite IH by done. unfold set_queues. cbn.
    rewrite <- insert_union_r, insert_union_l; [done|]. by apply not_elem_of_list_to_map_1.
Qed.

Lemma put_tasks_Ret l s :
  NoDup l.*1 →
  for_each (λ '(k, v), put_task k v) l s =
    (Ret tt, set_in_flight (λ m, list_to_map l ∪ m) s).
Proof.
  revert s. induction l as [|[k v] l IH]; intros s Hnd.
  - destruct s as [[q f w] h]. cbn. unfold set_in_flight. cbn. by rewrite (left_id_L ∅ (∪)).
  - apply NoDup_cons in Hnd as [Hk Hnd]. cbn [for_each]. cbv beta iota.
    erewrite bind_step by reflexivity.
    rewrite IH by done. unfold set_in_flight. cbn.
    rewrite <- insert_union_r, insert_union_l; [done|]. by apply not_elem_of_list_to_map_1.
Qed.

Lemma restore_Ret qs ts s :
  restore_from_snapshot qs ts s = (Ret tt, mkSys (mkStorage qs ts (wal (store s))) (host s)).
Proof.
  unfold restore_from_snapshot. rewrite bind_modify.
  erewrite bind_step by (apply put_queues_Ret, NoDup_fst_map_to_list).
  rewrite bind_modify, put_tasks_Ret by apply NoDup_fst_map_to_list.
  unfold set_queues, set_in_flight. cbn. by rewrite !list_to_map_to_list, !(right_id_L ∅ (∪)).
Qed.

Lemma build_snapshot_Ret `{SCL : !SnapshotCodecLaws} r :
  ∃ data s1, snapshot_to_vec (queues (store (state_machine r)), in_flight (store (state_machine r))) = Ok data ∧
    store s1 = store (state_machine r) ∧ quiet (state_machine r) s1 ∧
    build_snapshot r = (Ret (Ok (mkSnapshot
      (mkSnapshotMeta (last_applied_log r) (mkStoredMembership (last_applied_log r) membership_default)
        ("snap-" +:+ pretty.pretty (match last_applied_log r with Some l => index l | None => 0%Z end))%string)
      data)), mkCombined (db r) s1 (last_applied_log r)).
Proof.
  destruct (snapshot_data_Ret (state_machine r)) as (s1 & H & Hst & Hq).
  destruct (snapshot_total (queues (store (state_machine r)), in_flight (store (state_machine r))))
    as [data Hd].
  exists data, s1. split_and!; [done|done|done|]. unfold build_snapshot.
  erewrite bind_step by (unfold on_state_machine; rewrite H; reflexivity).
  rewrite Hd. by rewrite bind_gets.
Qed.

Lemma install_snapshot_Ret qs ts m data r :
  snapshot_from_slice data = Ok (qs, ts) →
  install_snapshot m data r = (Ret (Ok tt), mkCombined (db r)
    (mkSys (mkStorage qs ts (wal (store (state_machine r)))) (host (state_machine r))) (last_log_id m)).
Proof.
  intros H. unfold install_snapshot. rewrite H.
  erewrite bind_step by (unfold on_state_machine; rewrite restore_Ret; reflexivity).
  unfold set_last_applied. by rewrite bind_modify.
Qed.

(** C27. A snapshot carries the whole state: what one replica builds, another
    installs, whatever it held before, and then has the same queues, in-flight
    tasks and last applied id, while the builder is unchanged. *)
Theorem snapshot_transfers_state `{SCL : !SnapshotCodecLaws} r1 r2 :
  ∃ snap r1' r2', build_snapshot r1 = (Ret (Ok snap), r1') ∧
    install_snapshot (meta snap) (snapshot snap) r2 = (Ret (Ok tt), r2') ∧
    abs (state_machine r2') = abs (state_machine r1) ∧
    last_applied_log r2' = last_applied_log r1 ∧
    abs (state_machine r1') = abs (state_machine r1) ∧ last_applied_log r1' = last_applied_log r1.
Proof.
  destruct (build_snapshot_Ret r1) as (data & s1 & Hd & Hst & _ & Hb).
  eexists _, _, _. split; [exact Hb|]. cbn [snapshot meta]. split.
  { by apply install_snapshot_Ret, snapshot_roundtrip. }
  cbn. split_and!; [done|done| |done]. unfold abs. by rewrite Hst.
Qed.

(** A snapshot that does not parse is refused and changes nothing. *)
Lemma install_refused meta data e r :
  snapshot_from_slice data = Err e → install_snapshot meta data r = (Ret (Err e), r).
Proof. intros H. unfold install_snapshot. by rewrite H. Qed.

(** *** Reading a snapshot while commands are applied

    [get_snapshot_data] reads the queues, then the in-flight tasks, and
    [build_snapshot] reads the last applied id after both; the storage is shared,
    so commands may be applied between the reads. *)

Definition build_snapshot_during (between : M CombinedStorage unit)
  : M CombinedStorage (gmap string (list QueueItem) * gmap string InFlightTask * option LogId) :=
  qs ← on_state_machine (iter_map queues);
  between;;
  ts ← on_state_machine (iter_map in_flight);
  last_log ← gets last_applied_log;
  mret (list_to_map qs, list_to_map ts, last_log).

Lemma undisturbed_snapshot r :
  (s ← build_snapshot_during (mret tt); mret s.1) r = on_state_machine get_snapshot_data r.
Proof.
  unfold build_snapshot_during, on_state_machine, get_snapshot_data, mbind, M_bind, gets, mret, M_ret.
  destruct (iter_map queues (state_machine r)) as [[qs|] s1]; [|done]. cbn.
  by destruct (iter_map in_flight s1) as [[ts|] s2].
Qed.

(** A snapshot taken while a task is returned loses the message: when the
    [Nack] of a task is applied between the two reads, the snapshot holds the
    message in no queue and not in flight, and claims to include the [Nack]. *)
Theorem snapshot_loses_message r id t e :
  reachable (state_machine r) → persistent (state_machine r) = false →
  in_flight (store (state_machine r)) !! id = Some t →
  payload e = Normal (RNack id) →
  ∃ qs ts r', build_snapshot_during (_ ← apply_to_state_machine [e]; mret tt) r
      = (Ret (qs, ts, Some (log_id e)), r') ∧
    messages (mkAState qs ts) ⊎ {[+ t_data t +]} = messages (abs (state_machine r)).
Proof.
  intros Hi%reachable_inv Hp Ht He. unfold build_snapshot_during.
  destruct (iter_map_Ret queues (state_machine r)) as (qs & s1 & Hqs & Hpq & Hq1 & Hst1).
  erewrite bind_step by (unfold on_state_machine; rewrite Hqs; reflexivity).
  destruct (nack_in_flight s1 id t) as (s2 & Hn & Hi2 & Hp2 & Ha2).
  { by eapply quiet_node_inv. }
  { destruct Hq1 as (_ & ? & _). congruence. }
  { by rewrite Hst1. }
  erewrite bind_step.
  2:{ erewrite bind_step; [reflexivity|].
      apply (apply_log_spec [e] (mkCombined _ s1 _) [ROk] s2). unfold requests_of. cbn [omap list_omap].
      rewrite He. cbn [apply_requests]. erewrite bind_step by (cbn; by erewrite bind_step by exact Hn).
      done. }
  cbn [db last_applied_log last_id last].
  destruct (iter_map_Ret in_flight s2) as (ts & s3 & Hts & Hpt & _ & _).
  erewrite bind_step by (unfold on_state_machine; cbn; rewrite Hts; reflexivity).
  rewrite bind_gets. eexists _, _, _. split; [done|].
  assert (list_to_map qs = queues (store (state_machine r))) as ->.
  { rewrite (list_to_map_proper qs (map_to_list (queues (store (state_machine r)))));
      [apply list_to_map_to_list| |done]. rewrite Hpq. apply NoDup_fst_map_to_list. }
  assert (list_to_map ts = delete id (in_flight (store (state_machine r)))) as ->.
  { rewrite (list_to_map_proper ts (map_to_list (in_flight (store s2)))); [| |done].
    - rewrite list_to_map_to_list. change (in_flight (store s2)) with (a_tasks (abs s2)).
      rewrite Ha2. unfold abs. rewrite Hst1. by case_match.
    - rewrite Hpt. apply NoDup_fst_map_to_list. }
  pose proof (messages_del_task (abs (state_machine r)) id t Ht) as Hm.
  rewrite Hm. apply (comm (⊎)).
Qed.

(** ** Two replicas of one log *)

(** Commands that name no task. *)
Definition id_free (req : ClientRequest) : Prop :=
  match req with
  | RCreateQueue _ | REnqueue _ _ | RDequeue _ | REnqueueBatch _ _ | RDequeueBatch _ _ => True
  | _ => False
  end.

(** A response without the identifiers and instants the replica made up. *)
Definition anonymous (t : InFlightTask) : InFlightTask :=
  mkTask "" (t_data t) 0 (t_queue_name t) (t_attempts t).
Definition erase (resp : ClientResponse) : ClientResponse :=
  match resp with
  | RTask t => RTask (anonymous <$> t)
  | RTasks ts => RTasks (anonymous <$> ts)
  | _ => resp
  end.

Lemma deliveries_anonymous name items ts us :
  Forall2 (delivery name) items ts → Forall2 (delivery name) items us →
  anonymous <$> ts = anonymous <$> us.
Proof.
  intros Ht. revert us. induction Ht as [|i t items ts (H1 & H2 & H3) _ IH]; intros us Hu;
    inversion_clear Hu as [|? u ? us' (G1 & G2 & G3) Hu']; [done|].
  rewrite !fmap_cons. f_equal; [|by apply IH].
  unfold anonymous. by rewrite H1, H2, H3, G1, G2, G3.
Qed.

Lemma spec_step_id_free req a b r1 r2 a' b' :
  id_free req → a_queues a = a_queues b →
  spec_step false req a r1 a' → spec_step false req b r2 b' →
  a_queues a' = a_queues b' ∧ erase r1 = erase r2.
Proof.
  intros Hf Hq H1 H2.
  destruct req; try done; inversion H1; subst; inversion H2; subst; rewrite <- Hq in *;
    simplify_eq; cbn [a_queues a_set_queue a_set_task]; rewrite ?set_tasks_queues;
    cbn [a_queues a_set_queue]; rewrite ?Hq;
    try (match goal with H : is_Some (_ !! ?n), G : _ !! ?n = None |- _ =>
           rewrite G in H; by destruct H end); try done.
  - split; [done|]. cbn. do 2 f_equal.
    match goal with H : delivery _ _ t, G : delivery _ _ t0 |- _ =>
      destruct H as (E1 & E2 & E3), G as (F1 & F2 & F3) end.
    unfold anonymous. by rewrite E1, E2, E3, F1, F2, F3.
  - split; [done|]. cbn. f_equal. by eapply deliveries_anonymous.
Qed.

(** Commands that name no task, run by two replicas with equal queues. *)
Lemma id_free_run s1 s2 reqs reps1 reps2 s1' s2' :
  ids_issued s1 → ids_issued s2 → persistent s1 = false → persistent s2 = false →
  Forall id_free reqs → queues (store s1) = queues (store s2) →
  apply_requests reqs s1 = (Ret reps1, s1') → apply_requests reqs s2 = (Ret reps2, s2') →
  erase <$> reps1 = erase <$> reps2 ∧ queues (store s1') = queues (store s2').
Proof.
  intros Hi1 Hi2 Hp1 Hp2 Hf. revert s1 s2 reps1 reps2 Hi1 Hi2 Hp1 Hp2.
  induction Hf as [|req reqs Hreq _ IH]; intros s1 s2 reps1 reps2 Hi1 Hi2 Hp1 Hp2 Hq H1 H2;
    cbn in H1, H2; minv; [done|].
  match goal with
  | G1 : apply_request _ s1 = (Ret ?x1, ?t1), G2 : apply_request _ s2 = (Ret ?x2, ?t2) |- _ =>
    pose proof (apply_request_sim _ _ _ _ Hi1 G1) as S1; pose proof (apply_request_sim _ _ _ _ Hi2 G2) as S2;
    destruct (apply_request_issues _ _ _ _ G1) as (P1 & _);
    destruct (apply_request_issues _ _ _ _ G2) as (P2 & _);
    pose proof (apply_request_ids _ _ _ _ Hi1 G1); pose proof (apply_request_ids _ _ _ _ Hi2 G2)
  end.
  rewrite Hp1 in S1, P1. rewrite Hp2 in S2, P2.
  destruct (spec_step_id_free _ (abs s1) (abs s2) _ _ _ _ Hreq Hq S1 S2) as [Hq' He].
  edestruct IH as [Hr Hs]; [..|eassumption|eassumption|]; try done.
  split; [|done]. rewrite !fmap_cons. by f_equal.
Qed.

(** Agreement: two replicas whose queues are equal, applying the same
    commands that name no task, answer the same up to the identifiers and
    instants each made up, and end with equal queues. *)
Theorem replicas_agree s1 s2 reqs reps1 reps2 s1' s2' :
  reachable s1 → reachable s2 → persistent s1 = false → persistent s2 = false →
  Forall id_free reqs → queues (store s1) = queues (store s2) →
  apply_requests reqs s1 = (Ret reps1, s1') → apply_requests reqs s2 = (Ret reps2, s2') →
  erase <$> reps1 = erase <$> reps2 ∧ queues (store s1') = queues (store s2').
Proof. intros [Hi1 _]%reachable_inv [Hi2 _]%reachable_inv. by apply id_free_run. Qed.

Lemma apply_requests_cons req reqs s resp s1 resps s2 :
  apply_request req s = (Ret resp, s1) → apply_requests reqs s1 = (Ret resps, s2) →
  apply_requests (req :: reqs) s = (Ret (resp :: resps), s2).
Proof.
  intros H1 H2. cbn [apply_requests]. erewrite bind_step by exact H1.
  by erewrite bind_step by exact H2.
Qed.

(** A task identifier another replica drew is unknown here. *)
Lemma foreign_ack s id :
  node_inv s → id ∉ issued (host s) → apply_request (RAck id) s = (Ret (RErr task_not_found_msg), s).
Proof.
  intros [Hids _] Hid. pose proof (ids_issued_fresh _ _ Hids Hid) as Hn. cbn in Hn.
  cbn [apply_request]. unfold ack, get_task, mbind, M_bind, gets. by rewrite Hn.
Qed.

(** Divergence: each replica draws its own task identifiers, so after a
    [Dequeue] and the [Ack] of the task the leader handed out, the leader has
    retired the message while a replica that did not draw that identifier answers
    that there is no such task and still holds the message. *)
Theorem replicas_diverge s1 s2 name t1 t2 s1' s2' :
  reachable s1 → reachable s2 → persistent s1 = false → persistent s2 = false →
  dequeue name s1 = (Ret (Ok (Some t1)), s1') → dequeue name s2 = (Ret (Ok (Some t2)), s2') →
  abs s1 = abs s2 → t_id t1 ∉ issued (host s2') →
  ∃ s1'' s2'', apply_requests [RDequeue name; RAck (t_id t1)] s1 = (Ret [RTask (Some t1); ROk], s1'') ∧
    apply_requests [RDequeue name; RAck (t_id t1)] s2
      = (Ret [RTask (Some t2); RErr task_not_found_msg], s2'') ∧
    messages (abs s1'') ⊎ {[+ t_data t1 +]} = messages (abs s1) ∧
    messages (abs s2'') = messages (abs s1).
Proof.
  intros Hi1%reachable_inv Hi2%reachable_inv Hp1 Hp2 H1 H2 Habs Hid.
  assert (∀ s t s', dequeue name s = (Ret (Ok (Some t)), s') →
    apply_request (RDequeue name) s = (Ret (RTask (Some t)), s')) as Happ.
  { intros s t s' H. cbn. by erewrite bind_step by exact H. }
  pose proof (Happ _ _ _ H1) as A1. pose proof (Happ _ _ _ H2) as A2.
  pose proof (node_inv_request _ _ _ _ Hi1 A1) as Hi1'.
  pose proof (node_inv_request _ _ _ _ Hi2 A2) as Hi2'.
  pose proof (apply_request_sim _ _ _ _ (proj1 Hi1) A1) as S1.
  pose proof (apply_request_sim _ _ _ _ (proj1 Hi2) A2) as S2.
  pose proof (spec_step_messages _ _ _ _ _ (proj2 Hi1) S1) as M1.
  pose proof (spec_step_messages _ _ _ _ _ (proj2 Hi2) S2) as M2.
  assert (in_flight (store s1') !! t_id t1 = Some t1) as Ht1.
  { change (in_flight (store s1')) with (a_tasks (abs s1')). rewrite Hp1 in S1. revert S1.
    generalize (abs s1'). intros a S1. inversion S1; subst. cbn. by rewrite lookup_insert_eq. }
  assert (ack (t_id t1) s1' = (Ret (Ok tt), set_in_flight (delete (t_id t1)) s1')) as K1.
  { unfold ack, get_task, drop_task. rewrite bind_gets, Ht1, bind_modify.
    unfold wal_append. destruct (apply_request_issues _ _ _ _ A1) as (P1 & _).
    rewrite Hp1 in P1. unfold persistent in P1. apply bool_decide_eq_false in P1.
    unfold mbind, M_bind, gets. cbn. destruct (wal (store s1')); [by destruct P1|done]. }
  exists (set_in_flight (delete (t_id t1)) s1'), s2'. split_and!.
  - eapply apply_requests_cons; [exact A1|]. eapply apply_requests_cons; [|done].
    cbn. by erewrite bind_step by exact K1.
  - eapply apply_requests_cons; [exact A2|]. eapply apply_requests_cons; [|done].
    by apply foreign_ack.
  - pose proof (messages_del_task (abs s1') _ _ Ht1) as Hm.
    change (abs (set_in_flight (delete (t_id t1)) s1')) with (a_del_task (t_id t1) (abs s1')).
    unfold consumed, produced in M1. cbn in M1. multiset_solver.
  - unfold consumed, produced in M2. cbn in M2. rewrite Habs. multiset_solver.
Qed.
End replication.

(** ** Examples *)

#[local] Existing Instance ex_runtime.

Definition ex_replica (s : Sys) : CombinedStorage := mkCombined (∅ : @Db sim_sled) s None.
Definition ex_entry (i : Z) (p : EntryPayload) : Entry := mkEntry (@mkLogId sim_raft 1%Z i) p.

(** A second node, whose identifiers start with ["peer-"]. *)
Definition ex_peer : Sys := mkSys (mkStorage ∅ ∅ None) (mkHost 5000 "peer-" 0 ∅ 0).

Definition ex_log : list Entry :=
  [ex_entry 1 Blank; ex_entry 2 (Normal (RCreateQueue "q")); ex_entry 3 (Normal (RCreateQueue "q"))].

Lemma apply_is_log_order_witness :
  ∃ resps s, apply_to_state_machine ex_log (ex_replica ex_start) =
      (Ret resps, mkCombined ∅ s (Some (@mkLogId sim_raft 1%Z 3))) ∧
    resps = [ROk; ROk; RErr "Queue 'q' already exists"].
Proof.
  destruct (apply_is_log_order ex_log (ex_replica ex_start) [ROk; RErr "Queue 'q' already exists"]
    (exec (apply_requests (requests_of ex_log)) ex_start)) as (resps & H & Hr & _).
  - apply exec_Ret. vm_compute. reflexivity.
  - eexists resps, _. split; [exact H|]. rewrite Hr. reflexivity.
Defined.

Lemma snapshot_transfers_state_witness :
  ∃ snap r1' r2', build_snapshot (ex_replica ex_state) = (Ret (Ok snap), r1') ∧
    install_snapshot (meta snap) (snapshot snap) (ex_replica ex_peer) = (Ret (Ok tt), r2') ∧
    abs (state_machine r2') = abs ex_state.
Proof.
  destruct (snapshot_transfers_state (ex_replica ex_state) (ex_replica ex_peer))
    as (snap & r1' & r2' & H1 & H2 & H3 & _).
  exists snap, r1', r2'. split; [exact H1|]. split; [exact H2|exact H3].
Defined.

Definition ex_task : InFlightTask :=
  default (mkTask "" [] 0 "" 0) (in_flight (store ex_state) !! "task-0").

Lemma snapshot_loses_message_witness :
  ∃ qs ts r', build_snapshot_during
      (_ ← apply_to_state_machine [ex_entry 9 (Normal (RNack "task-0"))]; mret tt) (ex_replica ex_state)
      = (Ret (qs, ts, Some (@mkLogId sim_raft 1%Z 9)), r') ∧
    messages (mkAState qs ts) ⊎ {[+ t_data ex_task +]} = messages (abs ex_state).
Proof.
  apply (snapshot_loses_message (ex_replica ex_state) "task-0" ex_task (ex_entry 9 (Normal (RNack "task-0"))));
    [exact ex_reachable|reflexivity|vm_compute; reflexivity|reflexivity].
Defined.

Lemma replicas_agree_witness :
  ∃ reps1 reps2, apply_requests ex_session ex_start = (Ret reps1, exec (apply_requests ex_session) ex_start) ∧
    apply_requests ex_session ex_peer = (Ret reps2, exec (apply_requests ex_session) ex_peer) ∧
    reps1 ≠ reps2 ∧ erase <$> reps1 = erase <$> reps2 ∧
    queues (store (exec (apply_requests ex_session) ex_start))
    = queues (store (exec (apply_requests ex_session) ex_peer)).
Proof.
  exists (value [] (apply_requests ex_session ex_start).1), (value [] (apply_requests ex_session ex_peer).1).
  assert (apply_requests ex_session ex_start = (Ret (value [] (apply_requests ex_session ex_start).1),
    exec (apply_requests ex_session) ex_start)) as H1.
  { refine (value_Ret (apply_requests ex_session) ex_start [] _). vm_compute. reflexivity. }
  assert (apply_requests ex_session ex_peer = (Ret (value [] (apply_requests ex_session ex_peer).1),
    exec (apply_requests ex_session) ex_peer)) as H2.
  { refine (value_Ret (apply_requests ex_session) ex_peer [] _). vm_compute. reflexivity. }
  split; [exact H1|]. split; [exact H2|]. split; [vm_compute; discriminate|].
  apply (replicas_agree ex_start ex_peer ex_session); [apply reach_new|apply reach_new|reflexivity|reflexivity| |reflexivity|exact H1|exact H2].
  by repeat constructor.
Defined.

(** Both nodes after the first two commands of the session. *)
Definition ex_ready (s : Sys) : Sys := exec (apply_requests (take 2 ex_session)) s.
Definition ex_taken (s : Sys) : InFlightTask :=
  match value (Err "") (dequeue "q" (ex_ready s)).1 with
  | Ok (Some t) => t | _ => mkTask "" [] 0 "" 0 end.

Lemma ex_ready_reachable s : s = ex_start ∨ s = ex_peer → reachable (ex_ready s).
Proof.
  intros Hs. eapply (reachable_session (take 2 ex_session) s [ROk; ROk]).
  - destruct Hs as [->| ->]; apply reach_new.
  - apply exec_Ret. destruct Hs as [->| ->]; vm_compute; reflexivity.
Qed.

Lemma replicas_diverge_witness :
  ∃ s1'' s2'', 
    apply_requests [RDequeue "q"; RAck (t_id (ex_taken ex_start))] (ex_ready ex_start)
      = (Ret [RTask (Some (ex_taken ex_start)); ROk], s1'') ∧
    apply_requests [RDequeue "q"; RAck (t_id (ex_taken ex_start))] (ex_ready ex_peer)
      = (Ret [RTask (Some (ex_taken ex_peer)); RErr task_not_found_msg], s2'') ∧
    messages (abs s1'') ⊎ {[+ t_data (ex_taken ex_start) +]} = messages (abs (ex_ready ex_start)) ∧
    messages (abs s2'') = messages (abs (ex_ready ex_start)).
Proof.
  apply (replicas_diverge (ex_ready ex_start) (ex_ready ex_peer) "q" (ex_taken ex_start) (ex_taken ex_peer)
    (exec (dequeue "q") (ex_ready ex_start)) (exec (dequeue "q") (ex_ready ex_peer))).
  - apply ex_ready_reachable. by left.
  - apply ex_ready_reachable. by right.
  - reflexivity.
  - reflexivity.
  - apply exec_Ret. vm_compute. reflexivity.
  - apply exec_Ret. vm_compute. reflexivity.
  - vm_compute. reflexivity.
  - apply (bool_decide_unpack _). vm_compute. exact I.
Defined.
