(* ===== verification/Agreement.v ===== *)
(** * Replicas that start from one snapshot

    A replica that installs a snapshot and then applies the rest of the log, beside
    the one that built it: as long as the commands name only tasks of the snapshot,
    the two return alike, answer alike up to the identifiers and instants each makes
    up, and keep the same queues. *)

From stdpp Require Import prelude base gmap gmultiset strings list fin_maps.
From Stdlib Require Import ZArith Lia Strings.Byte.
From S2P Require Import Prelude Types Env Wal Memory Spec Commands Refinement Invariant Models Storage StorageFn Recovery Restarts RaftLog RaftModels Replica Replication.
Local Open Scope oxide_scope.
Set Warnings "-clear-no-such-hyp".

(** ** When a command returns *)

Section returning.
Context `{RT : !Runtime} `{CH : !Chrono} `{CD : !WalCodec} `{UL : !UuidLaws} `{DL : !DashLaws}.

(** The delivery count of the item has a successor, or wraps silently. *)
Definition add_ok (item : QueueItem) : Prop :=
  (qi_attempts item + 1 < u32_modulus)%Z ∨ overflow_checks = false.

Lemma returns_bind_iff {S A B} (c : M S A) (f : A → M S B) s :
  returns (c ≫= f) s ↔ ∃ a s1, c s = (Ret a, s1) ∧ returns (f a) s1.
Proof.
  unfold returns. split.
  - intros (b & s' & (a & s1 & Hc & Hf)%bind_Ret_inv). by exists a, s1; eauto.
  - intros (a & s1 & Hc & b & s' & Hf). exists b, s'. by erewrite bind_step.
Qed.

Lemma make_task_returns id item name s : returns (make_task id item name) s ↔ add_ok item.
Proof.
  unfold make_task, add_ok. destruct (now_returns s) as (n & s1 & Hn & _).
  rewrite returns_bind_iff. unfold u32_add. split.
  - intros (n' & s2 & _ & H). destruct (Z.ltb_spec (qi_attempts item + 1) u32_modulus); [by left|right].
    apply returns_bind_iff in H as (? & ? & H & _). by destruct overflow_checks.
  - intros H. exists n, s1. split; [done|]. destruct (Z.ltb_spec (qi_attempts item + 1) u32_modulus).
    + by eexists _, _.
    + destruct H as [|Hc]; [lia|]. rewrite Hc. by eexists _, _.
Qed.

Lemma make_tasks_returns name ids items : ∀ i s,
  length items + i ≤ length ids → returns (make_tasks name ids i items) s ↔ Forall add_ok items.
Proof.
  induction items as [|item items IH]; intros i s Hlen; cbn [make_tasks].
  { split; [constructor|]. intros _. by eexists _, _. }
  cbn in Hlen. destruct (lookup_lt_is_Some_2 ids i) as [id Hid]; [lia|]. rewrite Hid, Forall_cons, returns_bind_iff.
  split.
  - intros (t & s1 & Ht & H). split; [apply (make_task_returns id item name s); by exists t, s1|].
    rewrite returns_bind_iff in H. destruct H as (? & s2 & _ & H). rewrite returns_bind_iff in H.
    destruct H as (ts & s3 & H & _). apply (IH (S i) s2); [lia|]. by exists ts, s3.
  - intros [Ha Hall]. apply (make_task_returns id item name s) in Ha as (t & s1 & Ht).
    exists t, s1. split; [done|]. unfold put_task. rewrite returns_bind_iff. eexists tt, _. split; [done|].
    rewrite returns_bind_iff. match goal with |- context [make_tasks _ _ _ _ ?s2] =>
      destruct (proj2 (IH (S i) s2 ltac:(lia)) Hall) as (ts & s3 & H) end.
    exists ts, s3. split; [exact H|]. by eexists _, _.
Qed.

Lemma memory_wal s : persistent s = false → wal (store s) = None.
Proof. unfold persistent. intros H%bool_decide_eq_false. by apply eq_None_not_Some. Qed.

Lemma wal_append_memory op s : wal (store s) = None → wal_append op s = (Ret (Ok tt), s).
Proof. intros H. unfold wal_append. by rewrite bind_gets, H. Qed.

Lemma dequeue_returns name s item rest :
  persistent s = false → queues (store s) !! name = Some (item :: rest) →
  returns (dequeue name) s ↔ add_ok item.
Proof.
  intros Hp%memory_wal Hq.
  assert (∃ id s1, dequeue name s = (task ← make_task id item name; put_task (t_id task) task;;
    mret (Ok (Some task))) s1) as (id & s1 & H).
  { destruct (new_v4 (host s)) as [id h] eqn:Hv. exists id. eexists. unfold dequeue, try_bind.
    erewrite bind_step by (unfold get_mut_queue, get_queue; rewrite bind_gets, Hq; reflexivity).
    cbv beta iota. erewrite bind_step by reflexivity.
    erewrite bind_step by (unfold new_uuid, on_host; cbn; rewrite Hv; reflexivity).
    by erewrite bind_step by (by apply wal_append_memory). }
  unfold returns. rewrite H. rewrite <- (make_task_returns id item name s1). split.
  - intros (r & s' & (t & s2 & Ht & _)%bind_Ret_inv). by exists t, s2.
  - intros (t & s2 & Ht). eexists _, _. by erewrite bind_step by exact Ht.
Qed.

Lemma dequeue_batch_returns name count s q :
  persistent s = false → queues (store s) !! name = Some q → q ≠ [] →
  returns (dequeue_batch name count) s ↔
    (count * size_of_QueueItem ≤ isize_max)%Z ∧ Forall add_ok (take (Z.to_nat count) q).
Proof.
  intros Hp%memory_wal Hq Hne. unfold dequeue_batch, try_bind, returns.
  erewrite bind_step by (unfold get_mut_queue, get_queue; rewrite bind_gets, Hq; reflexivity).
  cbv beta iota. rewrite bool_decide_false by done. unfold vec_with_capacity.
  destruct (Z.ltb_spec isize_max (count * size_of_QueueItem)) as [Hlt|Hle].
  { split; [by intros (? & ? & ?)|]. lia. }
  rewrite bind_ret_l, pop_upto_take_drop. erewrite bind_step by reflexivity.
  set (items := take (Z.to_nat count) q).
  case_bool_decide as He; [rewrite He; split; [done|by eexists _, _]|].
  destruct (returns_new_uuids (length items) (set_queues <[name := drop (Z.to_nat count) q]> s))
    as (ids & s1 & Hids).
  erewrite bind_step by exact Hids. pose proof Hids as Hs.
  apply new_uuids_Ret in Hs as (_ & Hp1 & Hlen & _). cbn in Hp1.
  assert (wal (store s1) = None) as Hw.
  { apply memory_wal. rewrite Hp1. unfold persistent. cbn. rewrite Hp. done. }
  erewrite bind_step by (by apply wal_append_memory). cbv beta iota.
  rewrite <- (make_tasks_returns name ids items 0 s1) by lia. split.
  - intros (r & s' & (ts & s2 & H & _)%bind_Ret_inv). split; [done|by exists ts, s2].
  - intros [_ (ts & s2 & H)]. eexists _, _. by erewrite bind_step by exact H.
Qed.

Lemma dequeue_returns_early name s :
  (∀ item rest, queues (store s) !! name ≠ Some (item :: rest)) → returns (dequeue name) s.
Proof.
  intros Hq. unfold dequeue, try_bind, returns.
  erewrite bind_step by (unfold get_mut_queue, get_queue; rewrite bind_gets; reflexivity).
  destruct (queues (store s) !! name) as [[|item rest]|] eqn:E; [by eexists _, _|by destruct (Hq item rest)|by eexists _, _].
Qed.

Lemma dequeue_batch_returns_early name count s :
  (∀ item rest, queues (store s) !! name ≠ Some (item :: rest)) → returns (dequeue_batch name count) s.
Proof.
  intros Hq. unfold dequeue_batch, try_bind, returns.
  erewrite bind_step by (unfold get_mut_queue, get_queue; rewrite bind_gets; reflexivity).
  destruct (queues (store s) !! name) as [[|item rest]|] eqn:E; [by eexists _, _|by destruct (Hq item rest)|by eexists _, _].
Qed.

Lemma returns_then {S A B} (c : M S A) (f : A → B) s : returns (a ← c; mret (f a)) s ↔ returns c s.
Proof.
  rewrite returns_bind_iff. split; [intros (a & s1 & H & _); by exists a, s1|].
  intros (a & s1 & H). exists a, s1. split; [done|by eexists _, _].
Qed.

(** Whether a command returns depends on the queues alone. *)
Lemma returns_like req s1 s2 :
  persistent s1 = false → persistent s2 = false → queues (store s1) = queues (store s2) →
  returns (apply_request req) s1 → returns (apply_request req) s2.
Proof.
  intros Hp1 Hp2 Hq. destruct req; cbn [apply_request];
    try (intros _; unfold create_queue, enqueue, queue_batch, ack, extend_visibility, ack_batch,
      contains_queue, get_queue, put_queue, get_task, put_task, drop_task; ret;
      auto using returns_nack with oxide; done).
  - rewrite !returns_then. destruct (queues (store s1) !! queue) as [[|item rest]|] eqn:E.
    2: { rewrite (dequeue_returns queue s1 item rest), (dequeue_returns queue s2 item rest); congruence. }
    all: intros _; apply dequeue_returns_early; congruence.
  - rewrite !returns_then. destruct (queues (store s1) !! queue) as [[|item rest]|] eqn:E.
    2: { rewrite (dequeue_batch_returns queue count s1 (item :: rest)),
           (dequeue_batch_returns queue count s2 (item :: rest)); congruence. }
    all: intros _; apply dequeue_batch_returns_early; congruence.
Qed.
End returning.

(** ** Agreement on the tasks of a snapshot *)

(** The tasks a command names. *)
Definition named (req : ClientRequest) : list string :=
  match req with
  | RAck id | RNack id | RExtendVisibility id _ => [id]
  | RAckBatch ids => ids
  | _ => []
  end.

Section agreement.
Context `{RT : !Runtime} `{CH : !Chrono} `{CD : !WalCodec} `{UL : !UuidLaws} `{DL : !DashLaws}.

(** Equal queues, and the tasks of [K] alike up to the instants of delivery. *)
Record agree (K : gset string) (a b : AState) : Prop := {
  agree_queues : a_queues a = a_queues b;
  agree_tasks id : id ∈ K → timeless <$> a_tasks a !! id = timeless <$> a_tasks b !! id }.

Lemma agree_refl K a : agree K a a.
Proof. by split. Qed.

Lemma agree_sym K a b : agree K a b → agree K b a.
Proof. intros [Hq Ht]. split; [done|]. intros id Hid. symmetry. by apply Ht. Qed.

Lemma agree_Some K a b id t :
  agree K a b → id ∈ K → a_tasks a !! id = Some t →
  ∃ u, a_tasks b !! id = Some u ∧ timeless t = timeless u.
Proof.
  intros [_ Ht] Hid Ha. specialize (Ht id Hid). rewrite Ha in Ht.
  destruct (a_tasks b !! id) as [u|]; [|done]. exists u. split; [done|]. exact (inj Some _ _ Ht).
Qed.

Lemma agree_None K a b id : agree K a b → id ∈ K → a_tasks a !! id = None ↔ a_tasks b !! id = None.
Proof.
  intros [_ Ht] Hid. specialize (Ht id Hid).
  by destruct (a_tasks a !! id), (a_tasks b !! id).
Qed.

Lemma agree_set_queue K a b name q : agree K a b → agree K (a_set_queue name q a) (a_set_queue name q b).
Proof. intros [Hq Ht]. split; [cbn; by rewrite Hq|exact Ht]. Qed.

Lemma agree_del_task K a b id : agree K a b → agree K (a_del_task id a) (a_del_task id b).
Proof.
  intros [Hq Ht]. split; [exact Hq|]. intros i Hi. cbn. rewrite !lookup_delete.
  case_decide; [done|by apply Ht].
Qed.

Lemma agree_del_tasks K a b ids : agree K a b → agree K (a_del_tasks ids a) (a_del_tasks ids b).
Proof. revert a b. induction ids as [|id ids IH]; intros a b H; [exact H|]. by apply IH, agree_del_task. Qed.

Lemma agree_update K a b id t u :
  timeless t = timeless u → agree K a b → agree K (a_set_task id t a) (a_set_task id u b).
Proof.
  intros Htu [Hq Ht]. split; [exact Hq|]. intros i Hi. cbn. rewrite !lookup_insert.
  case_decide; [cbn; by rewrite Htu|by apply Ht].
Qed.

(** Deliveries draw identifiers outside [K]. *)
Lemma agree_new K a b ts :
  (∀ id, id ∈ t_id <$> ts → id ∉ K) → agree K a b → agree K (a_set_tasks ts a) b.
Proof.
  revert a. induction ts as [|t ts IH]; intros a Hn Hab; [exact Hab|].
  rewrite set_tasks_cons. apply IH; [set_solver|]. destruct Hab as [Hq Ht].
  split; [exact Hq|]. intros id Hid. cbn. rewrite lookup_insert_ne; [by apply Ht|].
  intros <-. apply (Hn (t_id t)); [set_solver|done].
Qed.

(** The same identifiers are missing on both sides. *)
Lemma agree_missing K a b (ids : list string) :
  agree K a b → (∀ id, id ∈ ids → id ∈ K) →
  filter (λ id, a_tasks a !! id = None) ids = filter (λ id, a_tasks b !! id = None) ids.
Proof.
  intros Hab. induction ids as [|id ids IH]; intros Hin; [done|].
  rewrite !filter_cons, IH by set_solver.
  pose proof (agree_None K a b id Hab (Hin id ltac:(set_solver))). repeat case_decide; tauto.
Qed.

Lemma none_missing a (ids : list string) :
  Forall (λ id, is_Some (a_tasks a !! id)) ids → filter (λ id, a_tasks a !! id = None) ids = [].
Proof.
  induction 1 as [|id ids [t Ht] _ IH]; [done|]. rewrite filter_cons, Ht. by case_decide.
Qed.

Lemma delivery_anonymous name item t u :
  delivery name item t → delivery name item u → anonymous t = anonymous u.
Proof. intros (E1 & E2 & E3) (F1 & F2 & F3). unfold anonymous. by rewrite E1, E2, E3, F1, F2, F3. Qed.

Lemma spec_step_agree K req a b r1 r2 a' b' :
  (∀ id, id ∈ named req → id ∈ K) → agree K a b →
  (∀ id, id ∈ response_ids r1 → id ∉ K) → (∀ id, id ∈ response_ids r2 → id ∉ K) →
  spec_step false req a r1 a' → spec_step false req b r2 b' →
  agree K a' b' ∧ erase r1 = erase r2.
Proof.
  intros Hn Hab Hi1 Hi2 H1 H2.
  assert (Hq := agree_queues _ _ _ Hab).
  destruct H1; try done; inversion H2; subst; cbn [named response_ids] in *;
    repeat match goal with
    | H : a_tasks a !! ?id = Some ?t |- _ =>
      destruct (agree_Some K a _ id t Hab (Hn id ltac:(set_solver)) H) as (? & ? & ?); clear H
    | H : a_tasks a !! ?id = None |- _ =>
      apply (agree_None K a _ id Hab (Hn id ltac:(set_solver))) in H
    end; rewrite ?Hq in *; simplify_eq;
    try (match goal with H : is_Some (_ !! ?n), G : _ !! ?n = None |- _ => rewrite G in H; by destruct H end);
    try (split; [exact Hab|done]);
    try (match goal with Hd : t_data ?t = t_data ?u, Ha : t_attempts ?t = t_attempts ?u,
        Hm : t_queue_name ?t = t_queue_name ?u, Hi : t_id ?t = t_id ?u |- _ =>
      rename Hm into Hname; assert (item_of t = item_of u) as Hitem by (unfold item_of; congruence);
      assert (timeless t = timeless u) as Htime by (unfold timeless, set_consumed_at; cbn; congruence) end);
    try (exfalso; congruence || lia);
    try (split; [auto using agree_set_queue, agree_del_tasks, agree_del_task|done]; done);
    try (match goal with |- context [filter (λ id, a_tasks ?x !! id = None) ?ids] =>
      pose proof (agree_missing K _ _ ids Hab Hn) as Hmiss end).
  - split; [|cbn; by do 2 f_equal; eapply delivery_anonymous].
    apply (agree_new K _ _ [t]); [done|]. apply agree_sym, (agree_new K _ _ [t0]); [done|].
    by apply agree_sym, agree_set_queue.
  - rewrite Hitem, Hname in *. simplify_eq. split; [by apply agree_set_queue, agree_del_task|done].
  - rewrite Hitem, Hname. split; [by apply agree_set_queue, agree_del_task|done].
  - rewrite Hname. split; [by apply agree_del_task|done].
  - split; [by apply agree_update|done].
  - split; [|cbn; f_equal; by eapply deliveries_anonymous].
    apply agree_new; [done|]. apply agree_sym, agree_new; [done|]. by apply agree_sym, agree_set_queue.
  - exfalso. rewrite none_missing in Hmiss by done. by rewrite <- Hmiss in *.
  - exfalso. rewrite (none_missing b) in Hmiss by done. by rewrite Hmiss in *.
  - by rewrite Hmiss.
Qed.

(** Both sides run the same commands. *)
Lemma agree_run K reqs : ∀ s1 s2 reps1 s1',
  node_inv s1 → node_inv s2 → persistent s1 = false → persistent s2 = false →
  K ⊆ issued (host s1) → K ⊆ issued (host s2) → agree K (abs s1) (abs s2) →
  Forall (λ req, list_to_set (named req) ⊆ K) reqs → apply_requests reqs s1 = (Ret reps1, s1') →
  ∃ reps2 s2', apply_requests reqs s2 = (Ret reps2, s2') ∧
    erase <$> reps1 = erase <$> reps2 ∧ agree K (abs s1') (abs s2').
Proof.
  induction reqs as [|req reqs IH]; intros s1 s2 reps1 s1' Hi1 Hi2 Hp1 Hp2 Hk1 Hk2 Hab Hall H1.
  { cbn in H1. minv. by exists [], s2. }
  apply Forall_cons in Hall as [Hn Hall]. cbn [apply_requests] in H1. minv.
  match goal with G : apply_request _ s1 = (Ret ?x, ?t) |- _ =>
    rename x into rep1, t into t1; rename G into G1 end.
  destruct (returns_like req s1 s2 Hp1 Hp2 (agree_queues _ _ _ Hab) ltac:(by eexists _, _))
    as (rep2 & t2 & G2).
  destruct (apply_request_issues _ _ _ _ G1) as (P1 & I1 & F1).
  destruct (apply_request_issues _ _ _ _ G2) as (P2 & I2 & F2).
  pose proof (apply_request_sim _ _ _ _ (proj1 Hi1) G1) as S1. rewrite Hp1 in S1, P1.
  pose proof (apply_request_sim _ _ _ _ (proj1 Hi2) G2) as S2. rewrite Hp2 in S2, P2.
  rewrite Forall_forall in F1, F2.
  destruct (spec_step_agree K req (abs s1) (abs s2) rep1 rep2 (abs t1) (abs t2)) as [Hab' He]; [|done|..|done|done|].
  { clear -Hn. set_solver. }
  { intros id Hid Hin. destruct (F1 id Hid) as [_ []]. by apply Hk1. }
  { intros id Hid Hin. destruct (F2 id Hid) as [_ []]. by apply Hk2. }
  edestruct (IH t1 t2) as (reps2 & s2' & H2 & Her & Hab2); [..|eassumption|]; try done;
    [exact (node_inv_request _ _ _ _ Hi1 G1)|exact (node_inv_request _ _ _ _ Hi2 G2)|by trans (issued (host s1))|by trans (issued (host s2))|].
  exists (rep2 :: reps2), s2'. split_and!; [by eapply apply_requests_cons| |done].
  rewrite !fmap_cons. by f_equal.
Qed.
End agreement.

(** ** Catching up *)

Section catching_up.
Context `{RT : !Runtime} `{CH : !Chrono} `{CD : !WalCodec} `{UL : !UuidLaws} `{DL : !DashLaws}.
Context `{RTy : !RaftTypes} `{SL : !Sled} `{SC : !SnapshotCodec} `{SCL : !SnapshotCodecLaws}.

Lemma erase_weave es reps : erase <$> weave es reps = weave es (erase <$> reps).
Proof.
  revert reps. induction es as [|e es IH]; intros reps; [done|]. cbn [weave].
  destruct (payload e); [|destruct reps as [|rep reps]|]; cbn [fmap list_fmap]; [f_equal; apply IH|done|..];
    cbn; by rewrite <- IH.
Qed.

(** A log that is applied had its commands return. *)
Lemma apply_log_inv es : ∀ r resps r',
  apply_to_state_machine es r = (Ret resps, r') →
  ∃ reps, apply_requests (requests_of es) (state_machine r) = (Ret reps, state_machine r').
Proof.
  unfold apply_to_state_machine. induction es as [|e es IH]; intros r resps r' H; cbn in H; minv.
  { by exists []. }
  rewrite apply_entries_acc in H. minv.
  match goal with G : apply_entries es [] _ = _ |- _ => destruct (IH _ _ _ G) as [reps Hr] end.
  match goal with G : set_last_applied _ _ = _ |- _ => unfold set_last_applied, modify in G; injection G as <- <- end.
  unfold requests_of in *. cbn [omap list_omap state_machine] in *.
  destruct (payload e) as [|req|m]; cbn in *; minv; eauto.
  match goal with G : on_state_machine _ _ = _ |- _ => unfold on_state_machine in G end.
  destruct (apply_request req (state_machine r)) as [[rep|] s1] eqn:E; simplify_eq.
  eexists. erewrite bind_step by exact E. by erewrite bind_step by exact Hr.
Qed.

(** C28. Catching up: a replica that installs a snapshot, whatever it held before, and
    applies the rest of the log, while the builder of the snapshot applies it too.
    When the commands of the rest name only tasks that were in flight in the
    snapshot, whose identifiers the replica cannot draw itself, the replica
    returns where the builder does, gives the same answers up to the identifiers
    and instants of new deliveries, and ends with the same queues and the same
    last applied id. *)
Theorem catch_up r1 r2 es :
  node_inv (state_machine r1) →
  persistent (state_machine r1) = false → persistent (state_machine r2) = false →
  dom (in_flight (store (state_machine r1))) ⊆ issued (host (state_machine r2)) →
  Forall (λ req, list_to_set (named req) ⊆ dom (in_flight (store (state_machine r1)))) (requests_of es) →
  ∃ snap r1b r2b, build_snapshot r1 = (Ret (Ok snap), r1b) ∧
    install_snapshot (meta snap) (snapshot snap) r2 = (Ret (Ok tt), r2b) ∧
    ∀ resps1 r1', apply_to_state_machine es r1b = (Ret resps1, r1') →
    ∃ resps2 r2', apply_to_state_machine es r2b = (Ret resps2, r2') ∧
      erase <$> resps1 = erase <$> resps2 ∧
      queues (store (state_machine r1')) = queues (store (state_machine r2')) ∧
      last_applied_log r1' = last_applied_log r2'.
Proof.
  intros Hi Hp1 Hp2 Hdom Hall.
  destruct (build_snapshot_Ret r1) as (data & s1 & Hd & Hst & Hq & Hb).
  eexists _, _, _. split; [exact Hb|]. cbn [snapshot meta].
  split; [by apply install_snapshot_Ret, snapshot_roundtrip|].
  intros resps1 r1' H1. destruct (apply_log_inv _ _ _ _ H1) as [reps1 R1]. cbn [state_machine] in R1.
  set (s2 := mkSys _ _).
  assert (abs s2 = abs s1) as Habs by (unfold abs; by rewrite Hst).
  assert (node_inv s2) as Hi2.
  { destruct Hi as [_ Hwf]. split; [|rewrite Habs; by rewrite (proj1 Hq)].
    intros id Hid%elem_of_dom. by apply Hdom. }
  rewrite (apply_log_spec es (mkCombined (db r1) s1 (last_applied_log r1)) _ _ R1) in H1.
  injection H1 as <- Hr1.
  destruct (agree_run (dom (in_flight (store (state_machine r1)))) (requests_of es) s1 s2 reps1 (state_machine r1')) as (reps2 & s2' & R2 & He & Ha);
    [by eapply quiet_node_inv|done|by rewrite (proj1 (proj2 Hq))|done| |exact Hdom|
     rewrite Habs; apply agree_refl|exact Hall|exact R1|].
  { rewrite (proj2 (proj2 Hq)). intros id Hid%elem_of_dom. by apply (proj1 Hi). }
  eexists _, _. split; [exact (apply_log_spec es (mkCombined (db r2) s2 (last_applied_log r1)) _ _ R2)|].
  rewrite !erase_weave, He, <- Hr1. split_and!; [done| |done].
  transitivity (queues (store (state_machine r1'))); [by rewrite <- Hr1|exact (agree_queues _ _ _ Ha)].
Qed.
End catching_up.

(** ** Examples *)

#[local] Existing Instance ex_runtime.

(** A replica that holds nothing and cannot draw the task of [ex_state] again. *)
Definition ex_follower : Sys := mkSys (mkStorage ∅ ∅ None) (mkHost 5000 "task-" 8 ∅ 0).

(** The rest of the log: the task of the snapshot goes back, and all is delivered. *)
Definition ex_rest : list Entry :=
  [ex_entry 5 (Normal (RNack "task-0")); ex_entry 6 Blank; ex_entry 7 (Normal (RDequeueBatch "q" 9))].

Lemma catch_up_witness :
  ∃ snap r1b r2b resps1 r1' resps2 r2',
    build_snapshot (ex_replica ex_state) = (Ret (Ok snap), r1b) ∧
    install_snapshot (meta snap) (snapshot snap) (ex_replica ex_follower) = (Ret (Ok tt), r2b) ∧
    apply_to_state_machine ex_rest r1b = (Ret resps1, r1') ∧
    apply_to_state_machine ex_rest r2b = (Ret resps2, r2') ∧
    erase <$> resps1 = erase <$> resps2 ∧
    queues (store (state_machine r1')) = queues (store (state_machine r2')) ∧
    last_applied_log r1' = last_applied_log r2'.
Proof.
  destruct (catch_up (RT := ex_runtime) (ex_replica ex_state) (ex_replica ex_follower) ex_rest)
    as (snap & r1b & r2b & Hb & Hs & H).
  - apply reachable_inv, ex_reachable.
  - reflexivity.
  - reflexivity.
  - apply (bool_decide_unpack _). vm_compute. exact I.
  - repeat constructor; apply (bool_decide_unpack _); vm_compute; exact I.
  - assert (r1b = (build_snapshot (ex_replica ex_state)).2) as Hr1 by (by rewrite Hb).
    assert (is_ret (apply_to_state_machine ex_rest (build_snapshot (ex_replica ex_state)).2).1 = true)
      as Hret by (vm_compute; reflexivity).
    rewrite <- Hr1 in Hret. apply (value_Ret _ _ []) in Hret. destruct (H _ _ Hret) as (resps2 & r2' & H2 & He).
    exists snap, r1b, r2b. eexists _, _, resps2, r2'. split; [exact Hb|]. split; [exact Hs|].
    split; [exact Hret|]. split; [exact H2|exact He].
Defined.
