(* ===== verification/Http.v ===== *)
(** * The HTTP interface ([lib.rs])

    The handlers of the router and the queue-name check, over a node: the storage
    with its host and, in cluster mode, the handle of the Raft instance.  openraft, serde, [subtle] and
    [http] are parameters; axum's routing and extraction happen before a handler
    is called, so a handler takes the extracted values. *)

From stdpp Require Import prelude base gmap strings list fin_maps.
From Stdlib Require Import ZArith Lia Strings.Byte.
From S2P Require Import Prelude Types Env Wal Memory Commands.
Local Open Scope oxide_scope.
Set Warnings "-clear-no-such-hyp".

(** ** Interfaces *)

(** serde_json and rmp_serde on messages; [Value] is [serde_json::Value]. *)
Class Serde := {
  Value : Type;
  Null : Value;
  json_from_slice : bytes → Result Value string;
  json_values_from_slice : bytes → Result (list Value) string;
  json_to_vec : Value → Result bytes string;
  rmp_from_slice : bytes → Result Value string;
  rmp_values_from_slice : bytes → Result (list Value) string;
  rmp_to_vec : Value → Result bytes string;
  rmp_items_to_vec : list (string * Value) → Result bytes string }.

(** The errors of a Raft call the handlers tell apart. *)
Inductive RaftError (BasicNode : Type) :=
| ForwardToLeader (leader_node : option BasicNode)
| OtherError (msg : string).
Arguments ForwardToLeader {_} _.
Arguments OtherError {_} _.

(** [HeaderValue] and the constant-time comparison of [subtle]. *)
Class HttpCrates := {
  header_value_from_str : string → option string;
  header_to_str : bytes → option string;
  ct_eq : bytes → bytes → bool;
  (** The text of axum's rejection of a body that is too long. *)
  length_limit_rejection : string }.

Class HttpLaws `{HC : !HttpCrates} : Prop := {
  ct_eq_spec a b : length a = length b → ct_eq a b = true ↔ a = b }.

(** The Raft handle: calls run on the handle and the shared storage. *)
Class RaftApi `{RT : !Runtime} := {
  OxideRaft : Type;
  BasicNode : Type;
  debug_node : option BasicNode → string;
  RaftJson : Type;
  client_write : ClientRequest → OxideRaft → Sys →
    Result ClientResponse (RaftError BasicNode) * (OxideRaft * Sys);
  ensure_linearizable : OxideRaft → Sys →
    Result unit (RaftError BasicNode) * (OxideRaft * Sys);
  (** [metrics().borrow().state == ServerState::Leader] *)
  is_leader : OxideRaft → bool;
  VoteRequest : Type;
  AppendEntriesRequest : Type;
  InstallSnapshotRequest : Type;
  raft_vote_call : VoteRequest → OxideRaft → Sys → Result RaftJson string * (OxideRaft * Sys);
  raft_append_call : AppendEntriesRequest → OxideRaft → Sys →
    Result RaftJson string * (OxideRaft * Sys);
  raft_snapshot_call : InstallSnapshotRequest → OxideRaft → Sys →
    Result RaftJson string * (OxideRaft * Sys);
  initialize : list (NodeId * BasicNode) → OxideRaft → Sys →
    Result unit string * (OxideRaft * Sys);
  add_learner : NodeId → BasicNode → OxideRaft → Sys → Result RaftJson string * (OxideRaft * Sys);
  change_membership : list NodeId → OxideRaft → Sys → Result RaftJson string * (OxideRaft * Sys);
  metrics : OxideRaft → RaftJson }.

(** ** Queue names *)

Definition MAX_QUEUE_NAME_LENGTH : nat := 128.

(** [c.is_ascii_alphanumeric() || c == '_' || c == '-'] *)
Definition name_char (c : Z) : bool :=
  (((48 <=? c) && (c <=? 57)) || ((65 <=? c) && (c <=? 90)) || ((97 <=? c) && (c <=? 122))
   || (c =? 95) || (c =? 45))%Z.

Definition empty_name_msg : string := "Queue name cannot be empty".
Definition long_name_msg : string := "Queue name exceeds maximum length of 128 characters".
Definition name_chars_msg : string :=
  "Queue name can only contain alphanumeric characters, underscores, and hyphens".

Definition validate_queue_name (name : string) : Result unit string :=
  if bool_decide (name = "") then Err empty_name_msg
  else if bool_decide (MAX_QUEUE_NAME_LENGTH < length (as_bytes name)) then Err long_name_msg
  else if negb (forallb name_char (chars name)) then Err name_chars_msg
  else Ok tt.

Section http.
Context `{RT : !Runtime} `{CH : !Chrono} `{CD : !WalCodec}.
Context `{SD : !Serde} `{HC : !HttpCrates} `{RA : !RaftApi}.

(** ** Responses *)

Inductive Body :=
| BEmpty
| BText (s : string)
| BRaw (b : bytes)
| BStats (st : Stats)
| BItems (items : list (string * Value))
| BHealth (error : option string)
| BRaft (v : RaftJson).

Record Response := mkResponse { status : Z; headers : list (string * string); body : Body }.

Definition OK : Z := 200.
Definition CREATED : Z := 201.
Definition NO_CONTENT : Z := 204.
Definition BAD_REQUEST : Z := 400.
Definition UNAUTHORIZED : Z := 401.
Definition NOT_FOUND : Z := 404.
Definition PAYLOAD_TOO_LARGE : Z := 413.
Definition INTERNAL_SERVER_ERROR : Z := 500.
Definition SERVICE_UNAVAILABLE : Z := 503.

Definition code (st : Z) : Response := mkResponse st [] BEmpty.
Definition text (st : Z) (s : string) : Response := mkResponse st [] (BText s).

(** ** The node *)

Record AppState := mkAppState { password : string; heartbeat_duration : Z }.
Record Node := mkNode { n_sys : Sys; n_raft : option OxideRaft }.

Definition on_storage {A} (c : M Sys A) : M Node A := λ n,
  let '(o, s) := c (n_sys n) in (o, mkNode s (n_raft n)).

Definition on_raft {A E} (raft : OxideRaft)
  (call : OxideRaft → Sys → Result A E * (OxideRaft * Sys)) : M Node (Result A E) := λ n,
  let '(r, (raft', s)) := call raft (n_sys n) in (Ret r, mkNode s (Some raft')).

Definition not_leader (leader_node : option BasicNode) : Response :=
  text SERVICE_UNAVAILABLE ("Not leader. Leader is: " +:+ debug_node leader_node)%string.
Definition invalid_response : Response := text INTERNAL_SERVER_ERROR "Invalid response type".

(** [match raft.client_write(req).await { Ok(resp) => match resp.data {..}, Err(..) => .. }] *)
Definition write (raft : OxideRaft) (req : ClientRequest) (on_data : ClientResponse → M Node Response)
  : M Node Response :=
  r ← on_raft raft (client_write req);
  match r with
  | Ok data => on_data data
  | Err (ForwardToLeader leader_node) => mret (not_leader leader_node)
  | Err (OtherError e) => mret (text INTERNAL_SERVER_ERROR e)
  end.

(** The arms [ClientResponse::Ok => ok, ClientResponse::Err(e) => (err, e), _ => ..]. *)
Definition unit_data (ok err : Z) (data : ClientResponse) : M Node Response :=
  mret (match data with
        | ROk => code ok
        | RErr e => text err e
        | _ => invalid_response
        end).
(** [match result { Ok(_) => ok, Err(e) => (err, e) }] *)
Definition unit_result (ok err : Z) (r : Result unit string) : Response :=
  match r with Ok _ => code ok | Err e => text err e end.

(** ** The handlers *)

Definition create_queue_handler (name : string) : M Node Response :=
  match validate_queue_name name with
  | Err e => mret (text BAD_REQUEST e)
  | Ok _ =>
    raft ← gets n_raft;
    match raft with
    | Some raft => write raft (RCreateQueue name) (unit_data CREATED BAD_REQUEST)
    | None => r ← on_storage (create_queue name); mret (unit_result CREATED BAD_REQUEST r)
    end
  end.

Definition enqueue_handler (queue_name : string) (payload : bytes) : M Node Response :=
  match validate_queue_name queue_name with
  | Err e => mret (text BAD_REQUEST e)
  | Ok _ =>
    raft ← gets n_raft;
    match raft with
    | Some raft => write raft (REnqueue queue_name payload) (unit_data OK NOT_FOUND)
    | None => r ← on_storage (enqueue queue_name payload); mret (unit_result OK NOT_FOUND r)
    end
  end.

(** [Bytes::from(task.data)] with the task id in a header. *)
Definition task_response (task : InFlightTask) : Response :=
  mkResponse OK
    (match header_value_from_str (t_id task) with
     | Some val => [("x-oxideq-task-id"%string, val)]
     | None => []
     end) (BRaw (t_data task)).

Definition dequeue_handler (queue_name : string) : M Node Response :=
  match validate_queue_name queue_name with
  | Err e => mret (text BAD_REQUEST e)
  | Ok _ =>
    raft ← gets n_raft;
    match raft with
    | Some raft => write raft (RDequeue queue_name) (λ data, mret
        (match data with
         | RTask (Some task) => task_response task
         | RTask None => code NO_CONTENT
         | RErr e => text NOT_FOUND e
         | _ => invalid_response
         end))
    | None =>
      r ← on_storage (dequeue queue_name);
      mret (match r with
            | Ok (Some task) => task_response task
            | Ok None => code NO_CONTENT
            | Err e => text NOT_FOUND e
            end)
    end
  end.

Definition ack_task (task_id : string) : M Node Response :=
  raft ← gets n_raft;
  match raft with
  | Some raft => write raft (RAck task_id) (unit_data OK NOT_FOUND)
  | None => r ← on_storage (ack task_id); mret (unit_result OK NOT_FOUND r)
  end.

Definition nack_task (task_id : string) : M Node Response :=
  raft ← gets n_raft;
  match raft with
  | Some raft => write raft (RNack task_id) (unit_data OK NOT_FOUND)
  | None => r ← on_storage (nack task_id); mret (unit_result OK NOT_FOUND r)
  end.

Definition heartbeat_task (st : AppState) (task_id : string) : M Node Response :=
  let duration_seconds := heartbeat_duration st in
  raft ← gets n_raft;
  match raft with
  | Some raft => write raft (RExtendVisibility task_id duration_seconds) (unit_data OK NOT_FOUND)
  | None =>
    r ← on_storage (extend_visibility task_id duration_seconds);
    mret (unit_result OK NOT_FOUND r)
  end.

Definition ack_batch_handler (task_ids : list string) : M Node Response :=
  raft ← gets n_raft;
  match raft with
  | Some raft => write raft (RAckBatch task_ids) (unit_data OK NOT_FOUND)
  | None => r ← on_storage (ack_batch task_ids); mret (unit_result OK NOT_FOUND r)
  end.

Definition stats_response : M Node Response :=
  r ← on_storage get_stats;
  mret (match r with
        | Ok stats => mkResponse OK [] (BStats stats)
        | Err e => text INTERNAL_SERVER_ERROR e
        end).

Definition get_stats_handler : M Node Response :=
  raft ← gets n_raft;
  match raft with
  | Some raft =>
    r ← on_raft raft ensure_linearizable;
    match r with
    | Ok _ => stats_response
    | Err (ForwardToLeader leader_node) => mret (not_leader leader_node)
    | Err (OtherError e) => mret (text INTERNAL_SERVER_ERROR e)
    end
  | None => stats_response
  end.

Definition health_check : M Node Response :=
  r ← on_storage get_stats;
  mret (match r with
        | Ok _ => mkResponse OK [] (BHealth None)
        | Err e => mkResponse INTERNAL_SERVER_ERROR [] (BHealth (Some e))
        end).

(** *** Batches *)

(** [headers.get(name).and_then(|v| v.to_str().ok()).unwrap_or("application/json")] *)
Definition media_type (header : option bytes) : string :=
  default "application/json"%string (header ≫= header_to_str).

(** [values.into_iter().map(|v| to_vec(&v).unwrap()).collect()] *)
Fixpoint encode_all (to_vec : Value → Result bytes string) (values : list Value)
  : M Node (list bytes) :=
  match values with
  | [] => mret []
  | v :: values' =>
    match to_vec v with
    | Err _ => panic "called `Result::unwrap()` on an `Err` value"
    | Ok b => bs ← encode_all to_vec values'; mret (b :: bs)
    end
  end.

Definition queue_batch_handler (queue_name : string) (content_type : option bytes) (body : bytes)
  : M Node Response :=
  match validate_queue_name queue_name with
  | Err e => mret (text BAD_REQUEST e)
  | Ok _ =>
    let '(values, to_vec) :=
      if bool_decide (media_type content_type = "application/msgpack"%string)
      then (rmp_values_from_slice body, rmp_to_vec)
      else (json_values_from_slice body, json_to_vec) in
    match values with
    | Err e => mret (text BAD_REQUEST e)
    | Ok values =>
      items ← encode_all to_vec values;
      raft ← gets n_raft;
      match raft with
      | Some raft => write raft (REnqueueBatch queue_name items) (unit_data OK NOT_FOUND)
      | None => r ← on_storage (queue_batch queue_name items); mret (unit_result OK NOT_FOUND r)
      end
    end
  end.

Definition or_null (r : Result Value string) : Value := match r with Ok v => v | Err _ => Null end.

(** How a payload is read back for a MessagePack reply, and for a JSON reply. *)
Definition msgpack_message (data : bytes) : Value :=
  match data with
  | b :: _ =>
    if ((byte_val b =? 123) || (byte_val b =? 91))%Z then or_null (json_from_slice data)
    else or_null (rmp_from_slice data)
  | [] => or_null (rmp_from_slice data)
  end.
Definition json_message (data : bytes) : Value :=
  match json_from_slice data with Ok v => v | Err _ => or_null (rmp_from_slice data) end.

Definition batch_items (decode : bytes → Value) (tasks : list InFlightTask) : list (string * Value) :=
  (λ task, (t_id task, decode (t_data task))) <$> tasks.

(** The last part of [dequeue_batch]: [match tasks_result { Ok(tasks) => .., Err(e) => .. }]. *)
Definition batch_response (accept : option bytes) (tasks_result : Result (list InFlightTask) string)
  : M Node Response :=
  match tasks_result with
  | Err e => mret (text NOT_FOUND e)
  | Ok tasks =>
    if bool_decide (media_type accept = "application/msgpack"%string) then
      match rmp_items_to_vec (batch_items msgpack_message tasks) with
      | Err _ => panic "called `Result::unwrap()` on an `Err` value"
      | Ok b => mret (mkResponse OK [("content-type"%string, "application/msgpack"%string)] (BRaw b))
      end
    else mret (mkResponse OK [] (BItems (batch_items json_message tasks)))
  end.

Definition dequeue_batch_handler (queue_name : string) (count : option Z) (accept : option bytes)
  : M Node Response :=
  match validate_queue_name queue_name with
  | Err e => mret (text BAD_REQUEST e)
  | Ok _ =>
    let count := default 10%Z count in
    raft ← gets n_raft;
    match raft with
    | Some raft => write raft (RDequeueBatch queue_name count) (λ data,
        batch_response accept
          (match data with
           | RTasks tasks => Ok tasks
           | RErr e => Err e
           | _ => Err "Invalid response type"%string
           end))
    | None => r ← on_storage (dequeue_batch queue_name count); batch_response accept r
    end
  end.

(** *** Raft endpoints *)

(** [if let Some(raft) = &state.raft { match call { Ok(res) => .., Err(e) => (500, format!(..)) } }
    else { (503, "Raft not initialized") }] *)
Definition raft_endpoint {A} (prefix : string)
  (call : OxideRaft → Sys → Result A string * (OxideRaft * Sys)) (ok : A → Response)
  : M Node Response :=
  raft ← gets n_raft;
  match raft with
  | Some raft =>
    r ← on_raft raft call;
    mret (match r with
          | Ok res => ok res
          | Err e => text INTERNAL_SERVER_ERROR (prefix +:+ e)%string
          end)
  | None => mret (text SERVICE_UNAVAILABLE "Raft not initialized")
  end.
Definition json_ok (v : RaftJson) : Response := mkResponse OK [] (BRaft v).

Definition raft_vote (rpc : VoteRequest) : M Node Response :=
  raft_endpoint "Raft vote error: " (raft_vote_call rpc) json_ok.
Definition raft_append (rpc : AppendEntriesRequest) : M Node Response :=
  raft_endpoint "Raft append error: " (raft_append_call rpc) json_ok.
Definition raft_snapshot (rpc : InstallSnapshotRequest) : M Node Response :=
  raft_endpoint "Raft snapshot error: " (raft_snapshot_call rpc) json_ok.
Definition raft_init (nodes : list (NodeId * BasicNode)) : M Node Response :=
  raft_endpoint "Raft init error: " (initialize nodes) (λ _, code OK).
Definition raft_add_learner (node_id : NodeId) (node : BasicNode) : M Node Response :=
  raft_endpoint "Raft add learner error: " (add_learner node_id node) json_ok.
Definition raft_change_membership (members : list NodeId) : M Node Response :=
  raft_endpoint "Raft change membership error: " (change_membership members) json_ok.
Definition raft_metrics : M Node Response :=
  raft ← gets n_raft;
  mret (match raft with
        | Some raft => json_ok (metrics raft)
        | None => text SERVICE_UNAVAILABLE "Raft not initialized"
        end).
End http.
