(* ===== verification/HttpModels.v ===== *)
(** * Concrete instances of the interfaces of [Http.v]

    Messages that are null or a number, a one-node Raft, and the comparison of
    byte strings. *)

From stdpp Require Import prelude base gmap strings list fin_maps.
From Stdlib Require Import ZArith Lia Strings.Byte.
From S2P Require Import Prelude Types Env Wal Memory Commands Bytes Models RaftLog Replica RaftModels Http.
Set Warnings "-clear-no-such-hyp".

Inductive SimValue := VNull | VNum (z : Z).
#[export] Instance SimValue_eq_dec : EqDecision SimValue.
Proof. solve_decision. Defined.
#[export] Program Instance SimValue_countable : Countable SimValue :=
  inj_countable' (λ v, match v with VNull => None | VNum z => Some z end)
    (λ o, match o with None => VNull | Some z => VNum z end) _.
Next Obligation. by intros []. Qed.

(** Digits are one byte; anything else is quoted text. *)
Definition sim_json_to_vec (v : SimValue) : bytes :=
  match v with
  | VNum z => if bool_decide (0 ≤ z < 10)%Z then [byte_of (48 + z)] else Byte.x22 :: Byte.x22 :: text_of v
  | VNull => Byte.x22 :: Byte.x22 :: text_of v
  end.
Definition sim_json_from_slice (b : bytes) : Result SimValue string :=
  match b with
  | [x] => if bool_decide (48 ≤ byte_val x < 58)%Z then Ok (VNum (byte_val x - 48)) else Err "expected value"
  | x :: _ :: l => if bool_decide (x = Byte.x22) then of_text l else Err "expected value"
  | [] => Err "expected value"
  end.
Definition sim_rmp_to_vec (v : SimValue) : bytes :=
  match v with
  | VNum z => if bool_decide (0 ≤ z < 128)%Z then [byte_of z] else Byte.xd9 :: Byte.xd9 :: text_of v
  | VNull => [Byte.xc0]
  end.
Definition sim_rmp_from_slice (b : bytes) : Result SimValue string :=
  match b with
  | [x] => if bool_decide (byte_val x < 128)%Z then Ok (VNum (byte_val x))
           else if bool_decide (x = Byte.xc0) then Ok VNull else Err "invalid marker"
  | x :: _ :: l => if bool_decide (x = Byte.xd9) then of_text l else Err "invalid marker"
  | [] => Err "invalid marker"
  end.

#[export] Instance sim_serde : Serde := {
  Value := SimValue;
  Null := VNull;
  json_from_slice := sim_json_from_slice;
  json_values_from_slice b := of_text (A := list SimValue) b;
  json_to_vec v := Ok (sim_json_to_vec v);
  rmp_from_slice := sim_rmp_from_slice;
  rmp_values_from_slice b := of_text (A := list SimValue) b;
  rmp_to_vec v := Ok (sim_rmp_to_vec v);
  rmp_items_to_vec items := Ok (text_of (A := list (string * SimValue)) items) }.

Lemma sim_json_roundtrip v : sim_json_from_slice (sim_json_to_vec v) = Ok v.
Proof.
  assert (∀ v : SimValue, sim_json_from_slice (Byte.x22 :: Byte.x22 :: text_of v) = Ok v) as Ht.
  { intros w. cbn [sim_json_from_slice]. rewrite bool_decide_true by done. apply of_text_of. }
  destruct v as [|z]; [apply Ht|]. cbn [sim_json_to_vec]. case_bool_decide as Hz; [|apply Ht].
  cbn [sim_json_from_slice]. rewrite byte_val_of by lia. rewrite bool_decide_true by lia.
  by replace (48 + z - 48)%Z with z by lia.
Qed.

(** Headers are ASCII text. *)
#[export] Instance sim_http : HttpCrates := {
  header_value_from_str s := Some s;
  header_to_str b := Some (String.string_of_list_byte b);
  ct_eq a b := bool_decide (a = b);
  length_limit_rejection := "length limit exceeded" }.
#[export] Instance sim_http_laws : HttpLaws.
Proof. split. intros a b _. apply bool_decide_eq_true. Qed.

(** A Raft of one node: [true] when it is the leader. *)
#[export] Instance sim_raft_api `{RT : !Runtime} `{CH : !Chrono} `{CD : !WalCodec} : RaftApi := {
  OxideRaft := bool;
  BasicNode := string;
  debug_node n := match n with Some n => n | None => "None" end;
  RaftJson := unit;
  client_write req raft s :=
    if raft then
      match apply_request req s with
      | (Ret resp, s') => (Ok resp, (raft, s'))
      | (Panic msg, s') => (Err (OtherError msg), (raft, s'))
      end
    else (Err (ForwardToLeader None), (raft, s));
  ensure_linearizable raft s := (if raft then Ok tt else Err (ForwardToLeader None), (raft, s));
  is_leader raft := raft;
  VoteRequest := unit;
  AppendEntriesRequest := unit;
  InstallSnapshotRequest := unit;
  raft_vote_call _ raft s := (Ok tt, (raft, s));
  raft_append_call _ raft s := (Ok tt, (raft, s));
  raft_snapshot_call _ raft s := (Ok tt, (raft, s));
  initialize _ _ s := (Ok tt, (true, s));
  add_learner _ _ raft s := (Ok tt, (raft, s));
  change_membership _ raft s := (Ok tt, (raft, s));
  metrics _ := tt }.
