(* ===== verification/Router.v ===== *)
(** * The application ([lib.rs], [app] and [auth_middleware])

    Which handler serves which route, the password check in front of the routes
    that need it, the limits on bodies, and the background cleanup task. *)

From stdpp Require Import prelude base gmap strings list fin_maps.
From Stdlib Require Import ZArith Lia.
From S2P Require Import Prelude Types Env Wal Memory Commands Http.
Local Open Scope oxide_scope.
Set Warnings "-clear-no-such-hyp".

Section router.
Context `{RT : !Runtime} `{CH : !Chrono} `{CD : !WalCodec}.
Context `{SD : !Serde} `{HC : !HttpCrates} `{RA : !RaftApi}.

(** ** Routes *)

(** A request the router dispatched, with what axum extracted for the handler. *)
Inductive Call :=
| GetRoot
| GetHealth
| PostQueues (name : string)
| PostTask (queue_name : string) (payload : bytes)
| GetTask (queue_name : string)
| PostBatch (queue_name : string) (content_type : option bytes) (body : bytes)
| GetBatch (queue_name : string) (count : option Z) (accept : option bytes)
| PostAckBatch (task_ids : list string)
| PostAck (task_id : string)
| PostNack (task_id : string)
| PostHeartbeat (task_id : string)
| GetStats
| PostRaftVote (rpc : VoteRequest)
| PostRaftAppend (rpc : AppendEntriesRequest)
| PostRaftSnapshot (rpc : InstallSnapshotRequest)
| PostRaftInit (nodes : list (NodeId * BasicNode))
| PostRaftAddLearner (node_id : NodeId) (node : BasicNode)
| PostRaftChangeMembership (members : list NodeId)
| GetRaftMetrics.

(** The method and pattern each call is routed by. *)
Definition route (c : Call) : string * string :=
  match c with
  | GetRoot => ("GET", "/")
  | GetHealth => ("GET", "/health")
  | PostQueues _ => ("POST", "/queues")
  | PostTask _ _ => ("POST", "/queues/{name}/tasks")
  | GetTask _ => ("GET", "/queues/{name}/tasks")
  | PostBatch _ _ _ => ("POST", "/queues/{name}/tasks/batch")
  | GetBatch _ _ _ => ("GET", "/queues/{name}/tasks/batch")
  | PostAckBatch _ => ("POST", "/queues/{name}/tasks/ack/batch")
  | PostAck _ => ("POST", "/queues/{name}/tasks/{task_id}/ack")
  | PostNack _ => ("POST", "/queues/{name}/tasks/{task_id}/nack")
  | PostHeartbeat _ => ("POST", "/queues/{name}/tasks/{task_id}/heartbeat")
  | GetStats => ("GET", "/stats")
  | PostRaftVote _ => ("POST", "/raft/vote")
  | PostRaftAppend _ => ("POST", "/raft/append")
  | PostRaftSnapshot _ => ("POST", "/raft/snapshot")
  | PostRaftInit _ => ("POST", "/raft/init")
  | PostRaftAddLearner _ _ => ("POST", "/raft/add-learner")
  | PostRaftChangeMembership _ => ("POST", "/raft/change-membership")
  | GetRaftMetrics => ("GET", "/raft/metrics")
  end%string.

(** The handler of a route. *)
Definition handle (st : AppState) (c : Call) : M Node Response :=
  match c with
  | GetRoot => mret (text OK "Hello, World!")
  | GetHealth => health_check
  | PostQueues name => create_queue_handler name
  | PostTask queue_name payload => enqueue_handler queue_name payload
  | GetTask queue_name => dequeue_handler queue_name
  | PostBatch queue_name content_type body => queue_batch_handler queue_name content_type body
  | GetBatch queue_name count accept => dequeue_batch_handler queue_name count accept
  | PostAckBatch task_ids => ack_batch_handler task_ids
  | PostAck task_id => ack_task task_id
  | PostNack task_id => nack_task task_id
  | PostHeartbeat task_id => heartbeat_task st task_id
  | GetStats => get_stats_handler
  | PostRaftVote rpc => raft_vote rpc
  | PostRaftAppend rpc => raft_append rpc
  | PostRaftSnapshot rpc => raft_snapshot rpc
  | PostRaftInit nodes => raft_init nodes
  | PostRaftAddLearner node_id node => raft_add_learner node_id node
  | PostRaftChangeMembership members => raft_change_membership members
  | GetRaftMetrics => raft_metrics
  end.

(** The outer router's own routes; every other one is in the merged router, whose
    layer is the password check. *)
Definition open_route (c : Call) : bool :=
  match c with GetRoot | GetHealth => true | _ => false end.

(** [auth_middleware]: [header] is the value of [x-oxideq-password]. *)
Definition auth_middleware (st : AppState) (header : option bytes) (next : M Node Response)
  : M Node (Result Response Z) :=
  match header with
  | Some header_bytes =>
    let password_bytes := as_bytes (password st) in
    if bool_decide (length header_bytes = length password_bytes) && ct_eq header_bytes password_bytes
    then response ← next; mret (Ok response)
    else mret (Err UNAUTHORIZED)
  | None => mret (Err UNAUTHORIZED)
  end.

(** *** Body size limits *)

Definition SINGLE_MESSAGE_LIMIT : Z := 1024 * 1024.
Definition BATCH_MESSAGE_LIMIT : Z := 10 * 1024 * 1024.
(** axum's own limit, for the routes the code gives none. *)
Definition DEFAULT_LIMIT : Z := 2097152.

(** The limit of the extractor of the body, if the handler has one. *)
Definition body_limit (c : Call) : option Z :=
  match c with
  | PostTask _ _ => Some SINGLE_MESSAGE_LIMIT
  | PostBatch _ _ _ => Some BATCH_MESSAGE_LIMIT
  | PostQueues _ | PostAckBatch _ | PostRaftVote _ | PostRaftAppend _ | PostRaftSnapshot _
  | PostRaftInit _ | PostRaftAddLearner _ _ | PostRaftChangeMembership _ => Some DEFAULT_LIMIT
  | _ => None
  end.

(** The bytes of the body: the payload itself, or the JSON text ([json_len]) a
    value was decoded from. *)
Definition body_length (json_len : Z) (c : Call) : Z :=
  match c with
  | PostTask _ payload => Z.of_nat (length payload)
  | PostBatch _ _ body => Z.of_nat (length body)
  | _ => json_len
  end.

Definition too_large (json_len : Z) (c : Call) : bool :=
  match body_limit c with
  | Some limit => (limit <? body_length json_len c)%Z
  | None => false
  end.

(** The extractor, then the handler. *)
Definition extract_and_handle (st : AppState) (json_len : Z) (c : Call) : M Node Response :=
  if too_large json_len c then mret (text PAYLOAD_TOO_LARGE length_limit_rejection)
  else handle st c.

(** A dispatched request through the layers. *)
Definition serve (st : AppState) (header : option bytes) (json_len : Z) (c : Call) : M Node Response :=
  if open_route c then handle st c
  else
    r ← auth_middleware st header (extract_and_handle st json_len c);
    mret (match r with Ok response => response | Err st => code st end).

(** ** The cleanup task *)

(** [for id in expired { if let Err(e) = raft.client_write(Nack).await { log } }] *)
Fixpoint raft_nack_all (ids : list string) : M Node unit :=
  match ids with
  | [] => mret tt
  | id :: ids' =>
    raft ← gets n_raft;
    match raft with
    | Some raft => _ ← on_raft raft (client_write (RNack id)); raft_nack_all ids'
    | None => mret tt
    end
  end.

(** One tick of the interval. *)
Definition cleanup_tick (task_timeout : Z) : M Node unit :=
  raft ← gets n_raft;
  match raft with
  | Some raft =>
    if is_leader raft then
      expired ← on_storage (scan_expired_tasks task_timeout);
      raft_nack_all expired
    else mret tt
  | None =>
    _ ← on_storage (cleanup_expired_tasks task_timeout);
    mret tt
  end.

(** The spawned task: ticks until the token is cancelled, then stops; a panic in
    a tick ends it. *)
Inductive Event := Tick | Cancelled.
Fixpoint cleanup_task (task_timeout : Z) (events : list Event) : M Node unit :=
  match events with
  | [] => mret tt
  | Cancelled :: _ => mret tt
  | Tick :: events' => cleanup_tick task_timeout;; cleanup_task task_timeout events'
  end.

(** What [app] spawns: [tokio::time::interval] panics on a zero period. *)
Definition spawned_cleanup (cleanup_interval task_timeout : Z) (events : list Event) : M Node unit :=
  if (cleanup_interval =? 0)%Z then panic "`period` must be non-zero."
  else cleanup_task task_timeout events.
End router.
