(* ===== verification/Api.v ===== *)
(** * What the HTTP interface guarantees

    The queue-name check, the password check, the handlers as renderings of the
    storage commands in both modes, the batch formats, and the cleanup task. *)

From stdpp Require Import prelude base gmap gmultiset strings list fin_maps.
From Stdlib Require Import ZArith Lia Strings.Byte.
From S2P Require Import Prelude Types Env Wal Memory Spec Commands Refinement Invariant Models Storage StorageFn Bytes RaftLog Replica RaftModels Http HttpModels Router.
Local Open Scope oxide_scope.
Set Warnings "-clear-no-such-hyp".

(** ** Queue names *)

Lemma lor_ge a b : (0 ≤ a)%Z → (0 ≤ b)%Z → (a ≤ Z.lor a b)%Z.
Proof.
  intros Ha Hb.
  assert (Z.lor a b = a + Z.ldiff b a)%Z as ->.
  { rewrite Z.add_nocarry_lxor.
    - apply Z.bits_inj'. intros n Hn. rewrite Z.lor_spec, Z.lxor_spec, Z.ldiff_spec.
      by destruct (Z.testbit a n), (Z.testbit b n).
    - apply Z.bits_inj'. intros n Hn. rewrite Z.land_spec, Z.ldiff_spec, Z.bits_0.
      by destruct (Z.testbit a n), (Z.testbit b n). }
  assert (0 ≤ Z.ldiff b a)%Z by (apply Z.ldiff_nonneg; auto). lia.
Qed.

(** A code point that takes more than one byte is not ASCII. *)
Lemma two_byte_ge b0 b1 :
  (194 ≤ b0 < 224)%Z → (0 ≤ b1)%Z →
  (128 ≤ Z.lor (Z.shiftl (Z.land b0 31) 6) (cont_bits b1))%Z.
Proof.
  intros Hb0 Hb1. change 31%Z with (Z.ones 5). rewrite Z.land_ones, Z.shiftl_mul_pow2 by lia.
  etrans; [|apply lor_ge].
  - pose proof (Z.div_mod b0 (2 ^ 5)). change (2 ^ 5)%Z with 32%Z in *. change (2 ^ 6)%Z with 64%Z.
    pose proof (Z.mod_pos_bound b0 32). assert (b0 / 32 = 6)%Z by (symmetry; apply Z.div_unique with (b0 - 192)%Z; lia).
    lia.
  - pose proof (Z.mod_pos_bound b0 (2 ^ 5)). lia.
  - unfold cont_bits. apply Z.land_nonneg. auto.
Qed.

(** A test that only ASCII characters pass holds of the characters of a string
    if and only if it holds of its bytes. *)
Lemma decode_ascii_test (P : Z → bool) :
  (∀ c, P c = true → (c < 128)%Z) → ∀ n l cs, length l ≤ n → Forall (λ b, 0 ≤ b)%Z l →
  decode_utf8 l = Some cs → forallb P cs = forallb P l.
Proof.
  intros HP. assert (∀ c, (128 ≤ c)%Z → P c = false) as HF.
  { intros c Hc. destruct (P c) eqn:E; [|done]. apply HP in E. lia. }
  induction n as [|n IH]; intros l cs Hn Hl Hd.
  { destruct l; [|cbn in Hn; lia]. by injection Hd as <-. }
  destruct l as [|b0 l]; [by injection Hd as <-|]. cbn in Hn.
  inversion_clear Hl as [|? ? Hb0 Hl']. cbn [decode_utf8] in Hd.
  destruct (Z.ltb_spec b0 128) as [H0|H0].
  { destruct (decode_utf8 l) as [cs'|] eqn:E; [|done]. injection Hd as <-. cbn.
    by rewrite (IH l cs') by (done || lia). }
  assert (forallb P (b0 :: l) = false) as -> by (cbn; by rewrite HF).
  assert (∀ c cs', cs = c :: cs' → (128 ≤ c)%Z → forallb P cs = false) as Hout.
  { intros c cs' -> Hc. cbn. by rewrite HF. }
  destruct l as [|b1 l]; [done|]. inversion_clear Hl' as [|? ? Hb1 Hl].
  destruct (negb (is_cont b1)); [done|].
  destruct (Z.leb_spec 194 b0), (Z.ltb_spec b0 224); cbn [andb] in Hd;
    try (destruct (decode_utf8 l); [|done]; injection Hd as <-; eapply Hout; [done|];
         by apply two_byte_ge);
    (destruct l as [|b2 l]; [done|]); destruct (negb (is_cont b2)); try done;
    destruct ((224 <=? b0) && (b0 <? 240))%Z; cbv zeta in Hd;
    repeat match type of Hd with
    | (if ?b then None else _) = _ => destruct b eqn:?; [done|]
    | (match ?x with _ => _ end) = Some _ => destruct x; try done
    end;
    try (destruct (decode_utf8 _); [|done]); try done; injection Hd as <-; (eapply Hout; [done|]);
    match goal with H : (_ || _)%bool = false |- _ => apply orb_false_iff in H as [Hc _] end;
    apply Z.ltb_ge in Hc; lia.
Qed.

(** The names the check accepts. *)
Definition good_name (name : string) : Prop :=
  1 ≤ length (as_bytes name) ≤ 128 ∧ Forall (λ b, name_char (byte_val b) = true) (as_bytes name).

Lemma name_char_ascii c : name_char c = true → (c < 128)%Z.
Proof. unfold name_char. rewrite !orb_true_iff, !andb_true_iff, !Z.leb_le, !Z.eqb_eq. lia. Qed.

Lemma name_chars_bytes name :
  valid_utf8 name = true →
  forallb name_char (chars name) = true ↔ Forall (λ b, name_char (byte_val b) = true) (as_bytes name).
Proof.
  unfold valid_utf8, chars. intros [cs Hcs]%bool_decide_eq_true. rewrite Hcs. cbn [default Datatypes.id].
  rewrite (decode_ascii_test name_char name_char_ascii (length (str_bytes name)) (str_bytes name) cs);
    [|done| |done].
  - unfold str_bytes. induction (as_bytes name) as [|b l IH]; [by split|].
    cbn [fmap list_fmap forallb]. by rewrite andb_true_iff, Forall_cons, IH.
  - apply Forall_fmap, Forall_forall. intros b _. apply byte_val_range.
Qed.

Lemma as_bytes_empty name : length (as_bytes name) = 0 ↔ name = ""%string.
Proof. by destruct name. Qed.

Lemma validate_good name :
  valid_utf8 name = true → validate_queue_name name = Ok tt ↔ good_name name.
Proof.
  intros Hu. unfold validate_queue_name, good_name. rewrite <- name_chars_bytes by done.
  unfold MAX_QUEUE_NAME_LENGTH. pose proof (as_bytes_empty name) as Hl.
  case_bool_decide as He; [split; [done|]; intros [[? _] _]; apply Hl in He; lia|].
  assert (length (as_bytes name) ≠ 0) by (by intros ?%Hl).
  case_bool_decide as Hlen; [split; [done|]; intros [? _]; lia|].
  destruct (forallb name_char (chars name)); cbn [negb]; split; try done; [|by intros [_ ?]].
  intros _. split; [lia|done].
Qed.

Lemma as_bytes_app s1 s2 : as_bytes (s1 +:+ s2) = as_bytes s1 ++ as_bytes s2.
Proof. induction s1 as [|c s1 IH]; [done|]. exact (f_equal (cons _) IH). Qed.

(** C38. The queue-name check accepts exactly the names of one to 128 bytes whose
    bytes are ASCII letters, digits, underscores and hyphens; an empty and an
    overlong name have their own messages, whatever else is wrong with them. *)
Theorem validate_queue_name_exact name :
  valid_utf8 name = true →
  (validate_queue_name name = Ok tt ↔ good_name name) ∧
  (name = ""%string → validate_queue_name name = Err empty_name_msg) ∧
  (128 < length (as_bytes name) → validate_queue_name name = Err long_name_msg).
Proof.
  intros Hu. split_and!; [by apply validate_good|by intros ->|]. intros Hl.
  unfold validate_queue_name, MAX_QUEUE_NAME_LENGTH. rewrite bool_decide_false, bool_decide_true; [done..|].
  intros ->. cbn in Hl. lia.
Qed.

(** ** Handlers *)

Section api.
Context `{RT : !Runtime} `{CH : !Chrono} `{CD : !WalCodec} `{UL : !UuidLaws} `{DL : !DashLaws}.
Context `{SD : !Serde} `{HC : !HttpCrates} `{RA : !RaftApi}.

(** The dead letter queue of a queue with a name of 125 to 128 bytes cannot
    be reached: its own name is refused by every handler that takes a queue name,
    so the messages that end there can be neither read nor acknowledged. *)
Theorem long_name_dlq_unreachable name n :
  valid_utf8 name = true → validate_queue_name name = Ok tt → 125 ≤ length (as_bytes name) →
  dequeue_handler (dlq_name name) n = (Ret (text BAD_REQUEST long_name_msg), n) ∧
  ∀ count accept, dequeue_batch_handler (dlq_name name) count accept n
    = (Ret (text BAD_REQUEST long_name_msg), n).
Proof.
  intros Hu Hv Hl.
  assert (validate_queue_name (dlq_name name) = Err long_name_msg) as Hd.
  { unfold validate_queue_name, MAX_QUEUE_NAME_LENGTH. rewrite bool_decide_false, bool_decide_true; [done| |].
    - unfold dlq_name. rewrite as_bytes_app, length_app. cbn. lia.
    - unfold dlq_name. intros H. apply (f_equal as_bytes) in H. rewrite as_bytes_app in H.
      by destruct (as_bytes name). }
  split; [|intros count accept]; unfold dequeue_handler, dequeue_batch_handler; by rewrite Hd.
Qed.

(** *** Authentication *)

(** C37. Every route but [/] and [/health] is behind the password: without the
    header, or with any other value than the password's bytes, the request is
    answered 401 and the node is unchanged; with the password it is handled,
    unless its body is longer than 1 MiB for a message, 10 MiB for a batch and
    2 MiB elsewhere, which is answered 413 with the node unchanged. *)
Theorem password_required `{HL : !HttpLaws} st header json_len c n :
  (open_route c = false ↔ route c ≠ ("GET", "/")%string ∧ route c ≠ ("GET", "/health")%string) ∧
  (open_route c = false →
     (header ≠ Some (as_bytes (password st)) → serve st header json_len c n = (Ret (code UNAUTHORIZED), n)) ∧
     (header = Some (as_bytes (password st)) →
        serve st header json_len c n =
          if too_large json_len c then (Ret (text PAYLOAD_TOO_LARGE length_limit_rejection), n)
          else handle st c n)) ∧
  (too_large json_len c = true ↔
     ∃ limit, body_limit c = Some limit ∧ (limit < body_length json_len c)%Z) ∧
  (∀ name payload, too_large json_len (PostTask name payload) = false ↔ (Z.of_nat (length payload) ≤ 2 ^ 20)%Z) ∧
  (∀ name ct body, too_large json_len (PostBatch name ct body) = false ↔ (Z.of_nat (length body) ≤ 10 * 2 ^ 20)%Z).
Proof.
  split. { destruct c; cbn; split; (done || by intros [H1 H2]). }
  split; [|unfold too_large; split_and!;
    [destruct (body_limit c) as [l|]; [rewrite Z.ltb_lt|]; naive_solver
    |intros name payload; cbn [body_limit body_length]; apply Z.ltb_ge
    |intros name ct body; cbn [body_limit body_length]; apply Z.ltb_ge]].
  intros Ho. unfold serve, auth_middleware. rewrite Ho. split.
  - intros Hh. destruct header as [b|]; [|done].
    destruct (bool_decide_reflect (length b = length (as_bytes (password st)))) as [Hl|]; [|done].
    destruct (ct_eq b (as_bytes (password st))) eqn:E; [|done].
    apply ct_eq_spec in E; [|done]. congruence.
  - intros ->. rewrite bool_decide_true by done. rewrite (proj2 (ct_eq_spec _ _ eq_refl) eq_refl).
    cbn [andb]. unfold extract_and_handle, mbind, M_bind.
    destruct (too_large json_len c); [done|]. by destruct (handle st c n) as [[]].
Qed.

(** *** Handlers render commands *)

(** The body of a batch: its values encoded, when it parses. *)
Definition batch_body (content_type : option bytes) (body : bytes) : Result (list Value) string :=
  if bool_decide (media_type content_type = "application/msgpack"%string)
  then rmp_values_from_slice body else json_values_from_slice body.
Definition batch_encoder (content_type : option bytes) : Value → Result bytes string :=
  if bool_decide (media_type content_type = "application/msgpack"%string) then rmp_to_vec else json_to_vec.

(** [values] encode to [items]. *)
Definition encoded (content_type : option bytes) (values : list Value) (items : list bytes) : Prop :=
  Forall2 (λ v b, batch_encoder content_type v = Ok b) values items.

Definition dequeue_data (data : ClientResponse) : M Node Response :=
  mret (match data with
        | RTask (Some task) => task_response task
        | RTask None => code NO_CONTENT
        | RErr e => text NOT_FOUND e
        | _ => invalid_response
        end).
Definition batch_data (accept : option bytes) (data : ClientResponse) : M Node Response :=
  batch_response accept
    (match data with
     | RTasks tasks => Ok tasks
     | RErr e => Err e
     | _ => Err "Invalid response type"%string
     end).

(** The command a request stands for and how its response is rendered. *)
Inductive command (st : AppState) : Call → ClientRequest → (ClientResponse → M Node Response) → Prop :=
| C_create name : validate_queue_name name = Ok tt →
    command st (PostQueues name) (RCreateQueue name) (unit_data CREATED BAD_REQUEST)
| C_enqueue name data : validate_queue_name name = Ok tt →
    command st (PostTask name data) (REnqueue name data) (unit_data OK NOT_FOUND)
| C_dequeue name : validate_queue_name name = Ok tt →
    command st (GetTask name) (RDequeue name) dequeue_data
| C_ack id : command st (PostAck id) (RAck id) (unit_data OK NOT_FOUND)
| C_nack id : command st (PostNack id) (RNack id) (unit_data OK NOT_FOUND)
| C_heartbeat id :
    command st (PostHeartbeat id) (RExtendVisibility id (heartbeat_duration st)) (unit_data OK NOT_FOUND)
| C_batch name ct body values items : validate_queue_name name = Ok tt →
    batch_body ct body = Ok values → encoded ct values items →
    command st (PostBatch name ct body) (REnqueueBatch name items) (unit_data OK NOT_FOUND)
| C_dequeue_batch name count accept : validate_queue_name name = Ok tt →
    command st (GetBatch name count accept) (RDequeueBatch name (default 10%Z count)) (batch_data accept)
| C_ack_batch ids : command st (PostAckBatch ids) (RAckBatch ids) (unit_data OK NOT_FOUND).

Lemma encode_all_ok to_vec values items n :
  Forall2 (λ v b, to_vec v = Ok b) values items → encode_all to_vec values n = (Ret items, n).
Proof.
  induction 1 as [|v b values items Hv _ IH]; [done|]. cbn [encode_all]. rewrite Hv.
  by erewrite bind_step by exact IH.
Qed.

Lemma on_storage_bind {A B} (c : M Sys A) (f : A → B) (k : B → M Node Response) n :
  (r ← on_storage c; k (f r)) n = (b ← on_storage (a ← c; mret (f a)); k b) n.
Proof.
  unfold on_storage, mbind, M_bind. by destruct (c (n_sys n)) as [[a|msg] s].
Qed.

(** Standalone: a handler runs the command on the storage and renders it. *)
Lemma handle_standalone st c req k n :
  command st c req k → n_raft n = None →
  handle st c n = (resp ← on_storage (apply_request req); k resp) n.
Proof.
  intros Hc Hn. destruct Hc; cbn [handle apply_request];
    unfold create_queue_handler, enqueue_handler, dequeue_handler, ack_task, nack_task, heartbeat_task,
      queue_batch_handler, dequeue_batch_handler, ack_batch_handler;
    try match goal with H : validate_queue_name _ = _ |- _ => rewrite H end.
  7:{ unfold batch_body, encoded, batch_encoder in *. case_bool_decide; rewrite H0;
      erewrite bind_step by (by apply encode_all_ok); rewrite bind_gets, Hn, <- on_storage_bind;
      unfold on_storage, mbind, M_bind; by destruct (queue_batch name items (n_sys n)) as [[[]|] s]. }
  all: rewrite bind_gets, Hn, <- on_storage_bind; unfold on_storage, mbind, M_bind;
    match goal with |- (match (let '(_, _) := ?c in _) with _ => _ end) = _ =>
      by destruct c as [[[[]|]|] s] || by destruct c as [[[]|] s] end.
Qed.

(** Cluster mode: a handler proposes the command and renders the answer. *)
Lemma handle_cluster st c req k n raft :
  command st c req k → n_raft n = Some raft → handle st c n = write raft req k n.
Proof.
  intros Hc Hn. destruct Hc; cbn [handle];
    unfold create_queue_handler, enqueue_handler, dequeue_handler, ack_task, nack_task, heartbeat_task,
      queue_batch_handler, dequeue_batch_handler, ack_batch_handler;
    try match goal with H : validate_queue_name _ = _ |- _ => rewrite H end.
  7:{ unfold batch_body, encoded, batch_encoder in *. case_bool_decide; rewrite H0;
      erewrite bind_step by (by apply encode_all_ok); by rewrite bind_gets, Hn. }
  all: by rewrite bind_gets, Hn.
Qed.

(** C12. A standalone node is its storage: a request that stands for a command,
    with the password and a body within its limit, runs exactly that command and renders its answer, with the status codes of
    the interface; nothing else touches the storage. *)
Theorem standalone_renders_commands `{HL : !HttpLaws} st json_len c req k s :
  command st c req k → too_large json_len c = false →
  serve st (Some (as_bytes (password st))) json_len c (mkNode s None) =
    match apply_request req s with
    | (Ret resp, s') => k resp (mkNode s' None)
    | (Panic msg, s') => (Panic msg, mkNode s' None)
    end.
Proof.
  intros Hc Hl. assert (open_route c = false) as Ho by by destruct Hc.
  unfold serve, extract_and_handle. rewrite Ho, Hl. unfold auth_middleware.
  rewrite bool_decide_true by done. rewrite (proj2 (ct_eq_spec _ _ eq_refl) eq_refl). cbn [andb].
  unfold mbind, M_bind. rewrite (handle_standalone st c req k) by done.
  unfold on_storage, mbind, M_bind. cbn [n_sys n_raft].
  destruct (apply_request req s) as [[resp|msg] s']; [|done].
  by destruct (k resp (mkNode s' None)) as [[]].
Qed.

(** ** A cluster's leader

    What openraft documents of a leader: a write returns once its entry has been
    applied to the state machine, with the state machine's answer. *)

Class LeaderLaws := {
  leading : OxideRaft → Prop;
  leading_state raft : leading raft → is_leader raft = true;
  leader_writes req raft s resp s' :
    leading raft → apply_request req s = (Ret resp, s') →
    ∃ raft', client_write req raft s = (Ok resp, (raft', s')) ∧ leading raft';
  leader_reads raft s :
    leading raft → ∃ raft', ensure_linearizable raft s = (Ok tt, (raft', s)) ∧ leading raft' }.

Lemma encode_all_cases to_vec values :
  (∃ items, Forall2 (λ v b, to_vec v = Ok b) values items) ∨
  (∃ msg, ∀ n : Node, encode_all to_vec values n = (Panic msg, n)).
Proof.
  induction values as [|v values IH]; [left; by exists []|].
  destruct (to_vec v) as [b|e] eqn:Hv.
  - destruct IH as [[items Hi]|[msg Hm]].
    + left. exists (b :: items). by constructor.
    + right. exists msg. intros n. cbn. rewrite Hv. unfold mbind, M_bind. by rewrite Hm.
  - right. eexists. intros n. cbn. by rewrite Hv.
Qed.

(** The requests that are answered from the storage. *)
Definition storage_call (c : Call) : bool :=
  match c with
  | PostRaftVote _ | PostRaftAppend _ | PostRaftSnapshot _ | PostRaftInit _
  | PostRaftAddLearner _ _ | PostRaftChangeMembership _ | GetRaftMetrics => false
  | _ => true
  end.

(** The answer does not depend on the node, which is not touched. *)
Definition fixed {A} (c : M Node A) : Prop := ∃ o, ∀ n, c n = (o, n).

Lemma handle_cases st c :
  storage_call c = true →
  (∃ req k, command st c req k) ∨ fixed (handle st c) ∨ c = GetHealth ∨ c = GetStats.
Proof.
  intros Hs. destruct c; try done; try (left; by eexists _, _; constructor); auto;
    try (match goal with |- context [command st (?f ?name)] => idtac | _ => idtac end).
  - right; left. by eexists.
  - destruct (validate_queue_name name) as [[]|e] eqn:Hv; [left; by eexists _, _; constructor|].
    right; left. exists (Ret (text BAD_REQUEST e)). intros n. cbn. unfold create_queue_handler. by rewrite Hv.
  - destruct (validate_queue_name queue_name) as [[]|e] eqn:Hv; [left; by eexists _, _; constructor|].
    right; left. exists (Ret (text BAD_REQUEST e)). intros n. cbn. unfold enqueue_handler. by rewrite Hv.
  - destruct (validate_queue_name queue_name) as [[]|e] eqn:Hv; [left; by eexists _, _; constructor|].
    right; left. exists (Ret (text BAD_REQUEST e)). intros n. cbn. unfold dequeue_handler. by rewrite Hv.
  - destruct (validate_queue_name queue_name) as [[]|e] eqn:Hv.
    2:{ right; left. exists (Ret (text BAD_REQUEST e)). intros n. cbn. unfold queue_batch_handler. by rewrite Hv. }
    destruct (batch_body content_type body) as [values|e] eqn:Hb.
    2:{ right; left. exists (Ret (text BAD_REQUEST e)). intros n. cbn. unfold queue_batch_handler. rewrite Hv.
        unfold batch_body in Hb. case_bool_decide; by rewrite Hb. }
    destruct (encode_all_cases (batch_encoder content_type) values) as [[items Hi]|[msg Hm]].
    + left. eexists _, _. by econstructor.
    + right; left. exists (Panic msg). intros n. cbn. unfold queue_batch_handler. rewrite Hv.
      unfold batch_body, batch_encoder in *. case_bool_decide; rewrite Hb; unfold mbind, M_bind; by rewrite Hm.
  - destruct (validate_queue_name queue_name) as [[]|e] eqn:Hv; [left; by eexists _, _; constructor|].
    right; left. exists (Ret (text BAD_REQUEST e)). intros n. cbn. unfold dequeue_batch_handler. by rewrite Hv.
Qed.

Lemma render_fixed st c req k resp : command st c req k → fixed (k resp).
Proof.
  destruct 1; try by eexists. unfold batch_data, batch_response.
  destruct resp as [| |ts|]; try by eexists. case_bool_decide; [|by eexists].
  destruct (rmp_items_to_vec _); by eexists.
Qed.

Lemma get_stats_returns s :
  ∃ st s', get_stats s = (Ret (Ok st), s').
Proof.
  unfold get_stats. rewrite bind_gets.
  assert (∀ {V} (get : InMemoryStorage → gmap string V) s, ∃ l s', iter_map get s = (Ret l, s')) as Hit.
  { intros V get s0. unfold iter_map, on_host. rewrite bind_gets.
    destruct (dash_iter _ _) as [l h]. by eexists _, _. }
  destruct (Hit _ queues s) as (rs & s1 & Hrs). erewrite bind_step by exact Hrs.
  assert (∀ rs acc s, ∃ st s', collect_stats rs acc s = (Ret st, s')) as Hc.
  { clear -Hit. induction rs as [|[name q] rs IH]; intros acc s; [by eexists _, _|].
    cbn [collect_stats]. destruct (Hit _ in_flight s) as (l & s1 & Hl).
    erewrite bind_step by exact Hl. apply IH. }
  destruct (Hc rs ∅ s1) as (st & s2 & Hst). erewrite bind_step by exact Hst. by eexists _, _.
Qed.

Context `{LL : !LeaderLaws}.

Lemma handle_leader st c s raft resp n' :
  leading raft → storage_call c = true → handle st c (mkNode s None) = (Ret resp, n') →
  ∃ raft', handle st c (mkNode s (Some raft)) = (Ret resp, mkNode (n_sys n') (Some raft')) ∧ leading raft'.
Proof.
  intros Hl Hs H. destruct (handle_cases st c Hs) as [(req & k & Hc)|[[o Ho]|[->| ->]]].
  - rewrite (handle_standalone st c req k) in H by done.
    rewrite (handle_cluster st c req k _ raft) by done.
    unfold on_storage, mbind, M_bind in H. cbn [n_sys n_raft] in H.
    destruct (apply_request req s) as [[data|msg] s'] eqn:Ha; [|done].
    destruct (leader_writes req raft s data s' Hl Ha) as (raft' & Hw & Hl').
    destruct (render_fixed st c req k data Hc) as [o Ho]. rewrite Ho in H. injection H as -> <-.
    exists raft'. split; [|done]. unfold write, on_raft, mbind, M_bind. cbn [n_sys].
    by rewrite Hw, Ho.
  - rewrite Ho in H. injection H as -> <-. exists raft. by rewrite Ho.
  - cbn [handle] in *. unfold health_check, on_storage, mbind, M_bind in *. cbn [n_sys n_raft] in *.
    destruct (get_stats s) as [[[]|] s']; try done; injection H as <- <-; by exists raft.
  - cbn [handle] in *. unfold get_stats_handler in *. rewrite bind_gets in H |- *. cbn [n_raft] in *.
    destruct (leader_reads raft s Hl) as (raft' & Hr & Hl'). exists raft'. split; [|done].
    unfold on_raft at 1, mbind at 1, M_bind at 1. cbn [n_sys]. rewrite Hr.
    unfold stats_response, on_storage, mbind, M_bind in *. cbn [n_sys n_raft] in *.
    by destruct (get_stats s) as [[[]|] s']; try done; injection H as <- <-.
Qed.

(** A standalone node stays standalone. *)
Lemma handle_mode st c s r n1 :
  storage_call c = true → handle st c (mkNode s None) = (Ret r, n1) → n_raft n1 = None.
Proof.
  intros Hs H0. destruct (handle_cases st c Hs) as [(req & k & Hck)|[[o Ho]|[->| ->]]].
  - rewrite (handle_standalone st c req k) in H0 by done.
    unfold on_storage, mbind, M_bind in H0. cbn [n_sys n_raft] in H0.
    destruct (apply_request req s) as [[data|msg] s']; [|done].
    destruct (render_fixed st c req k data Hck) as [o Ho]. rewrite Ho in H0. by injection H0 as _ <-.
  - rewrite Ho in H0. by injection H0 as _ <-.
  - cbn in H0. unfold health_check, on_storage, mbind, M_bind in H0. cbn in H0.
    destruct (get_stats s) as [[[]|] s']; by injection H0 as _ <-.
  - cbn in H0. unfold get_stats_handler, stats_response, on_storage, mbind, M_bind, gets in H0. cbn in H0.
    destruct (get_stats s) as [[[]|] s']; by injection H0 as _ <-.
Qed.

Lemma serve_leader st header json_len c s raft r n1 :
  leading raft → storage_call c = true → serve st header json_len c (mkNode s None) = (Ret r, n1) →
  n_raft n1 = None ∧
  ∃ raft1, serve st header json_len c (mkNode s (Some raft)) = (Ret r, mkNode (n_sys n1) (Some raft1)) ∧
           leading raft1.
Proof.
  intros Hl Hc H1. unfold serve, extract_and_handle, auth_middleware in *. destruct (open_route c).
  { split; [by eapply handle_mode|]. by eapply handle_leader. }
  destruct header as [b|]; [|injection H1 as <- <-; split; [done|]; by exists raft].
  destruct (bool_decide _ && ct_eq _ _); [|injection H1 as <- <-; split; [done|]; by exists raft].
  destruct (too_large json_len c); [injection H1 as <- <-; split; [done|]; by exists raft|].
  minv. split; [by eapply handle_mode|].
  match goal with H : handle _ _ _ = _ |- _ => destruct (handle_leader _ _ _ _ _ _ Hl Hc H) as (raft1 & Hr & ?) end.
  exists raft1. split; [|done]. unfold mbind, M_bind. by rewrite Hr.
Qed.

(** A session of requests, each with its password header and the length of its body. *)
Fixpoint serve_all (st : AppState) (calls : list (option bytes * Z * Call)) : M Node (list Response) :=
  match calls with
  | [] => mret []
  | (header, json_len, c) :: calls' =>
    r ← serve st header json_len c; rs ← serve_all st calls'; mret (r :: rs)
  end.

(** C11. A leader serves like a standalone node: over any session of storage
    requests, with any passwords, the leader of a cluster gives the responses a
    standalone node with the same storage gives, and its storage ends the same. *)
Theorem leader_serves_like_standalone st calls s raft resps n' :
  leading raft → Forall (λ hc, storage_call hc.2 = true) calls →
  serve_all st calls (mkNode s None) = (Ret resps, n') →
  ∃ raft', serve_all st calls (mkNode s (Some raft)) = (Ret resps, mkNode (n_sys n') (Some raft')).
Proof.
  intros Hl Hs. revert s raft resps Hl. induction Hs as [|[[header json_len] c] calls Hc _ IH]; intros s raft resps Hl H.
  { injection H as <- <-. by exists raft. }
  cbn [serve_all] in H |- *. apply bind_Ret_inv in H as (r & n1 & H1 & H).
  apply bind_Ret_inv in H as (rs & n2 & H2 & H). apply mret_Ret_inv in H as [-> ->].
  destruct (serve_leader st header json_len c s raft r n1 Hl Hc H1) as [Hn1 (raft1 & Hr1 & Hl1)].
  destruct n1 as [s1 raft0]. cbn in Hn1. subst raft0. cbn [n_sys] in Hr1.
  destruct (IH s1 raft1 rs Hl1 H2) as (raft2 & Hr2).
  exists raft2. erewrite bind_step by exact Hr1. by erewrite bind_step by exact Hr2.
Qed.

(** ** The cleanup task *)

Lemma raft_nack_all_leader ids : ∀ s raft n,
  leading raft →
  ∃ raft' s' m, raft_nack_all ids (mkNode s (Some raft)) = (Ret tt, mkNode s' (Some raft')) ∧
    nack_all ids n s = (Ret m, s').
Proof.
  induction ids as [|id ids IH]; intros s raft n Hl; [by eexists _, _, _|].
  destruct (returns_nack id s) as (r & s1 & Hn).
  destruct (leader_writes (RNack id) raft s (unit_response r) s1 Hl (nack_as_request _ _ _ _ Hn))
    as (raft1 & Hw & Hl1).
  destruct (IH s1 raft1 (match r with Ok _ => n + 1 | Err _ => n end)%Z Hl1) as (raft2 & s2 & m & H1 & H2).
  exists raft2, s2, m. split.
  - cbn [raft_nack_all]. rewrite bind_gets. cbn [n_raft].
    erewrite bind_step by (unfold on_raft; cbn [n_sys]; rewrite Hw; reflexivity). exact H1.
  - cbn [nack_all]. by erewrite bind_step by exact Hn.
Qed.

(** C40. The cleanup of a cluster is the leader's: a tick on the leader, which
    proposes a [Nack] for each expired task, leaves its storage as the direct
    cleanup of a standalone node would; a tick on any other node does nothing. *)
Theorem cleanup_tick_modes timeout s raft n' :
  (leading raft → cleanup_tick timeout (mkNode s None) = (Ret tt, n') →
   ∃ raft', cleanup_tick timeout (mkNode s (Some raft)) = (Ret tt, mkNode (n_sys n') (Some raft'))) ∧
  (is_leader raft = false →
   cleanup_tick timeout (mkNode s (Some raft)) = (Ret tt, mkNode s (Some raft))).
Proof.
  unfold cleanup_tick. rewrite !bind_gets. cbn [n_raft]. split; [|by intros ->].
  intros Hl H. rewrite leading_state by done.
  apply bind_Ret_inv in H as (r & n1 & H & Hr). apply mret_Ret_inv in Hr as [_ ->].
  unfold on_storage in H |- *. cbn [n_sys n_raft] in *. unfold cleanup_expired_tasks in H.
  unfold mbind at 1, M_bind at 1 in H. unfold mbind at 1, M_bind at 1. cbn [n_sys].
  destruct (scan_expired_tasks timeout s) as [[ids|msg] s1]; [|done].
  destruct (raft_nack_all_leader ids s1 raft 0 Hl) as (raft' & s2 & m & H1 & H2).
  erewrite bind_step in H by exact H2. injection H as <- <-. by exists raft'.
Qed.

(** Settings that start-up accepts kill the cleanup: with an interval of zero
    seconds the task panics before its first tick; with a timeout chrono cannot
    represent, more than [i64::MAX / 1000] seconds and less than the values that
    wrap to a small negative number, its first tick panics.  The task never runs
    again, and the storage keeps its queues and tasks. *)
Theorem cleanup_task_dies `{CL : !ChronoLaws} interval timeout events s :
  interval = 0%Z ∨ (i64_max / 1000 < timeout < u64_modulus - i64_max / 1000)%Z →
  ∃ msg n', spawned_cleanup interval timeout (Tick :: events) (mkNode s None) = (Panic msg, n') ∧
    abs (n_sys n') = abs s.
Proof.
  unfold spawned_cleanup. destruct (Z.eqb_spec interval 0) as [|Hi]; [by eexists _, _|].
  intros [?|Ht]; [done|]. exists "TimeDelta::seconds out of bounds"%string. cbn [cleanup_task]. unfold cleanup_tick, on_storage, cleanup_expired_tasks, scan_expired_tasks.
  unfold mbind, M_bind, gets. cbn [n_raft n_sys].
  destruct (now_returns s) as (n & s1 & Hn & Hq). rewrite Hn.
  assert (i64_max / 1000 = 9223372036854775)%Z as Hm by reflexivity.
  rewrite duration_seconds_out_of_range.
  - eexists. split; [done|]. apply Hq.
  - unfold u64_as_i64, u64_modulus in *. destruct (Z.ltb_spec timeout (2 ^ 63)); lia.
Qed.
End api.

(** ** Batch formats *)

(** What serde_json and rmp_serde document of the values the theorems use: JSON
    text reads back, for the values without floating-point numbers (those need
    serde_json's [float_roundtrip]) and within its recursion limit; MessagePack writes a number below 128 as that one byte; JSON
    reads one digit as its number and no lone bracket at all. *)
Class SerdeLaws `{SD : !Serde} := {
  number : Z → Value;
  number_inj m n : number m = number n → m = n;
  exact_value : Value → Prop;
  json_roundtrip v b : exact_value v → json_to_vec v = Ok b → json_from_slice b = Ok v;
  rmp_small n : (0 ≤ n < 128)%Z → rmp_to_vec (number n) = Ok [byte_of n];
  json_digit n : (0 ≤ n < 10)%Z → json_from_slice [byte_of (48 + n)] = Ok (number n);
  json_bracket n : n = 123%Z ∨ n = 91%Z → ∃ e, json_from_slice [byte_of n] = Err e }.

Section batches.
Context `{RT : !Runtime} `{CH : !Chrono} `{CD : !WalCodec} `{UL : !UuidLaws} `{DL : !DashLaws}.
Context `{SD : !Serde} `{HC : !HttpCrates} `{RA : !RaftApi} `{SLw : !SerdeLaws}.

(** Posting a batch to an empty queue and reading as many messages back. *)
Lemma batch_session st s name ct body values items accept :
  reachable s → persistent s = false → attempts_below s → queues (store s) !! name = Some [] →
  validate_queue_name name = Ok tt → batch_body ct body = Ok values → encoded ct values items →
  (Z.of_nat (length items) * size_of_QueueItem ≤ isize_max)%Z →
  ∃ n1 n2 tasks, handle st (PostBatch name ct body) (mkNode s None) = (Ret (code OK), n1) ∧
    (∀ resp, batch_response accept (Ok tasks) n2 = (Ret resp, n2) →
       handle st (GetBatch name (Some (Z.of_nat (length items))) accept) n1 = (Ret resp, n2)) ∧
    t_data <$> tasks = items ∧ (∀ resp, fixed (batch_response accept resp)).
Proof.
  intros Hr Hp Hb Hq Hv Hbody Henc Hlen.
  destruct (queue_batch_spec name items [] s (reachable_inv _ Hr) Hp Hq) as (s1 & H1 & Hi1 & Hp1 & Ha1).
  assert (queues (store s1) !! name = Some (new_items items)) as Hq1.
  { change (queues (store s1)) with (a_queues (abs s1)). rewrite Ha1. cbn. by rewrite lookup_insert_eq. }
  destruct (dequeue_batch_spec name (Z.of_nat (length items)) (new_items items) s1)
    as (tasks & s2 & H2 & Hd & _); [done|done| |done|done|].
  { intros n l item Hl Hin. change (queues (store s1)) with (a_queues (abs s1)) in Hl.
    rewrite Ha1 in Hl. cbn in Hl. apply lookup_insert_Some in Hl as [[<- <-]|[_ Hl]]; [|by eapply Hb].
    apply list_elem_of_fmap in Hin as (d & -> & _). unfold u32_modulus. cbn. lia. }
  rewrite Nat2Z.id, take_ge in Hd by (unfold new_items; by rewrite length_fmap).
  exists (mkNode s1 None), (mkNode s2 None), tasks. split_and!.
  - rewrite (handle_standalone st _ _ _ _ (C_batch st name ct body values items Hv Hbody Henc)) by done.
    unfold on_storage, mbind, M_bind. cbn [n_sys apply_request n_raft]. unfold mbind, M_bind. by rewrite H1.
  - intros resp Hresp.
    rewrite (handle_standalone st _ _ _ _ (C_dequeue_batch st name (Some (Z.of_nat (length items))) accept Hv)) by done.
    unfold on_storage, mbind, M_bind. cbn [n_sys apply_request n_raft default Datatypes.id].
    unfold mbind, M_bind. rewrite H2. exact Hresp.
  - clear -Hd. revert tasks Hd. induction items as [|d items IH]; intros tasks Hd;
      inversion_clear Hd as [|? t ? ts (Hdata & _) Hds]; [done|].
    rewrite fmap_cons, Hdata. f_equal. by apply IH.
  - intros [tasks'|e]; unfold batch_response; [|by eexists].
    case_bool_decide; [|by eexists]. destruct (rmp_items_to_vec _); by eexists.
Qed.

Lemma encoded_length ct values items : encoded ct values items → length values = length items.
Proof. apply Forall2_length. Qed.

Lemma batch_items_values decode tasks :
  (batch_items decode tasks).*2 = decode <$> (t_data <$> tasks).
Proof. unfold batch_items. by rewrite <- !list_fmap_compose. Qed.

(** C39. JSON batches survive: the values of a JSON batch without floating-point
    numbers posted to an empty queue are the messages a JSON batch of that size
    returns, in order. *)
Theorem json_batch_roundtrip st s name ct body values items accept :
  reachable s → persistent s = false → attempts_below s → queues (store s) !! name = Some [] →
  validate_queue_name name = Ok tt →
  media_type ct ≠ "application/msgpack"%string → media_type accept ≠ "application/msgpack"%string →
  json_values_from_slice body = Ok values → Forall2 (λ v b, json_to_vec v = Ok b) values items →
  Forall exact_value values →
  (Z.of_nat (length items) * size_of_QueueItem ≤ isize_max)%Z →
  ∃ n1 n2 reply, handle st (PostBatch name ct body) (mkNode s None) = (Ret (code OK), n1) ∧
    handle st (GetBatch name (Some (Z.of_nat (length items))) accept) n1
      = (Ret (mkResponse OK [] (BItems reply)), n2) ∧ reply.*2 = values.
Proof.
  intros Hr Hp Hb Hq Hv Hct Hacc Hvals Hitems Hexact Hlen.
  destruct (batch_session st s name ct body values items accept) as (n1 & n2 & tasks & H1 & H2 & Hd & _);
    try done; [by unfold batch_body; rewrite bool_decide_false|
               by unfold encoded, batch_encoder; rewrite bool_decide_false|].
  exists n1, n2, (batch_items json_message tasks). split_and!; [done| |].
  - apply H2. unfold batch_response. by rewrite bool_decide_false.
  - rewrite batch_items_values, Hd. clear -Hitems Hexact SLw.
    induction Hitems as [|v b values items Hv _ IH]; [done|]. inversion_clear Hexact as [|? ? Hx Hxs].
    rewrite fmap_cons, IH by done. f_equal. unfold json_message. by rewrite (json_roundtrip _ _ Hx Hv).
Qed.

(** MessagePack numbers are misread: the number 123 posted in a MessagePack
    batch is returned as null by a MessagePack batch, because its encoding starts
    with the byte the handler takes for JSON; and 49 posted the same way is
    returned as 1 by a JSON batch, because its encoding reads as the digit. *)
Theorem msgpack_numbers_misread st s name ct accept :
  reachable s → persistent s = false → attempts_below s → queues (store s) !! name = Some [] →
  validate_queue_name name = Ok tt → media_type ct = "application/msgpack"%string →
  (∀ body reply, media_type accept = "application/msgpack"%string →
     rmp_values_from_slice body = Ok [number 123] →
     (∀ id, rmp_items_to_vec [(id, Null)] = Ok (reply id)) →
     ∃ n1 n2 id, handle st (PostBatch name ct body) (mkNode s None) = (Ret (code OK), n1) ∧
       handle st (GetBatch name (Some 1%Z) accept) n1 =
         (Ret (mkResponse OK [("content-type"%string, "application/msgpack"%string)] (BRaw (reply id))), n2)) ∧
  (∀ body, media_type accept ≠ "application/msgpack"%string →
     rmp_values_from_slice body = Ok [number 49] →
     ∃ n1 n2 id, handle st (PostBatch name ct body) (mkNode s None) = (Ret (code OK), n1) ∧
       handle st (GetBatch name (Some 1%Z) accept) n1 =
         (Ret (mkResponse OK [] (BItems [(id, number 1)])), n2)) ∧
  number 1 ≠ number 49.
Proof.
  intros Hr Hp Hb Hq Hv Hct.
  assert (∀ n, (0 ≤ n < 128)%Z → encoded ct [number n] [[byte_of n]]) as Henc.
  { intros n Hn. unfold encoded, batch_encoder. rewrite bool_decide_true by done.
    constructor; [by apply rmp_small|done]. }
  split_and!; [| |by intros ?%number_inj].
  - intros body reply Hacc Hbody Hrep.
    destruct (batch_session st s name ct body [number 123] [[byte_of 123]] accept)
      as (n1 & n2 & tasks & H1 & H2 & Hd & _); try done;
      [by unfold batch_body; rewrite bool_decide_true|by apply Henc|].
    destruct tasks as [|t [|]]; try done. injection Hd as Hd.
    exists n1, n2, (t_id t). split; [done|]. apply H2. unfold batch_response. rewrite bool_decide_true by done.
    unfold batch_items. cbn [fmap list_fmap]. rewrite Hd.
    assert (msgpack_message [byte_of 123] = Null) as ->.
    { unfold msgpack_message. rewrite byte_val_of by lia. cbn.
      destruct (json_bracket 123) as [e He]; [by left|]. change (byte_of 123) with Byte.x7b in He.
      by rewrite He. }
    by rewrite Hrep.
  - intros body Hacc Hbody.
    destruct (batch_session st s name ct body [number 49] [[byte_of 49]] accept)
      as (n1 & n2 & tasks & H1 & H2 & Hd & _); try done;
      [by unfold batch_body; rewrite bool_decide_true|by apply Henc|].
    destruct tasks as [|t [|]]; try done. injection Hd as Hd.
    exists n1, n2, (t_id t). split; [done|]. apply H2. unfold batch_response. rewrite bool_decide_false by done.
    unfold batch_items. cbn [fmap list_fmap]. rewrite Hd. unfold json_message.
    by rewrite (json_digit 1) by lia.
Qed.
End batches.

(** ** Examples *)

#[local] Existing Instance ex_runtime.

#[export] Instance sim_leader : LeaderLaws (RT := ex_runtime) (RA := sim_raft_api (RT := ex_runtime)).
Proof.
  unshelve econstructor.
  - exact (λ raft : bool, raft = true).
  - by intros raft.
  - intros req raft s resp s' -> Ha. exists true. cbn. by rewrite Ha.
  - intros raft s ->. by exists true.
Defined.

#[export] Instance sim_serde_laws : SerdeLaws.
Proof.
  unshelve econstructor.
  - exact VNum.
  - exact (λ _, True).
  - by intros m n [=].
  - intros v b _ [= <-]. apply sim_json_roundtrip.
  - intros n Hn. cbn. by rewrite bool_decide_true.
  - intros n Hn. cbn. rewrite byte_val_of by lia. rewrite bool_decide_true by lia.
    by replace (48 + n - 48)%Z with n by lia.
  - intros n [-> | ->]; by eexists.
Defined.

Definition ex_raft : OxideRaft := true.
Lemma ex_leading : leading ex_raft.
Proof. reflexivity. Qed.

Definition ex_app : AppState := mkAppState "secret" 60.
Definition ex_password : option bytes := Some (as_bytes "secret").

Lemma validate_queue_name_exact_witness :
  valid_utf8 "jobs_1" = true ∧ (validate_queue_name "jobs_1" = Ok tt ↔ good_name "jobs_1").
Proof.
  assert (valid_utf8 "jobs_1" = true) as Hu by (vm_compute; reflexivity).
  split; [exact Hu|]. apply (validate_queue_name_exact "jobs_1" Hu).
Defined.

(** A name of 125 bytes. *)
Definition ex_long_name : string := String.concat "" (replicate 125 "a"%string).

Lemma long_name_dlq_unreachable_witness :
  validate_queue_name ex_long_name = Ok tt ∧
  dequeue_handler (dlq_name ex_long_name) (mkNode ex_state None)
    = (Ret (text BAD_REQUEST long_name_msg), mkNode ex_state None).
Proof.
  assert (validate_queue_name ex_long_name = Ok tt) as Hv by (vm_compute; reflexivity).
  split; [exact Hv|].
  apply (long_name_dlq_unreachable ex_long_name (mkNode ex_state None)); [vm_compute; reflexivity|exact Hv|].
  apply Nat.leb_le. vm_compute. reflexivity.
Defined.

Lemma password_required_witness :
  serve ex_app None 0 GetStats (mkNode ex_state None) = (Ret (code UNAUTHORIZED), mkNode ex_state None) ∧
  serve ex_app ex_password 0 GetStats (mkNode ex_state None) = handle ex_app GetStats (mkNode ex_state None).
Proof.
  split; apply (password_required ex_app _ 0 GetStats (mkNode ex_state None)); done.
Defined.

Lemma standalone_renders_commands_witness :
  ∃ s', serve ex_app ex_password 0 (PostAck "nobody") (mkNode ex_state None)
    = (Ret (text NOT_FOUND task_not_found_msg), mkNode s' None).
Proof.
  exists ex_state.
  refine (eq_trans (standalone_renders_commands ex_app 0 _ _ _ ex_state (C_ack ex_app "nobody") eq_refl) _).
  reflexivity.
Defined.

Definition ex_calls : list (option bytes * Z * Call) :=
  [(ex_password, 12%Z, PostQueues "q"); (None, 0%Z, GetStats); (ex_password, 0%Z, PostTask "q" [Byte.x61]);
   (ex_password, 0%Z, GetTask "q"); (None, 0%Z, GetHealth); (ex_password, 2097153%Z, PostAckBatch [])].

Lemma leader_serves_like_standalone_witness :
  ∃ resps n' raft',
    serve_all ex_app ex_calls (mkNode ex_start None) = (Ret resps, n') ∧
    serve_all ex_app ex_calls (mkNode ex_start (Some ex_raft))
      = (Ret resps, mkNode (n_sys n') (Some raft')) ∧
    status <$> resps = [CREATED; UNAUTHORIZED; OK; OK; OK; PAYLOAD_TOO_LARGE].
Proof.
  assert (is_ret (serve_all ex_app ex_calls (mkNode ex_start None)).1 = true) as Hret
    by (vm_compute; reflexivity).
  pose proof (value_Ret (serve_all ex_app ex_calls) (mkNode ex_start None) [] Hret) as H.
  destruct (leader_serves_like_standalone ex_app ex_calls ex_start ex_raft _ _ ex_leading
    ltac:(by repeat constructor) H) as (raft' & H').
  eexists _, _, raft'. split; [exact H|]. split; [exact H'|]. vm_compute. reflexivity.
Defined.

Lemma cleanup_tick_modes_witness :
  ∃ raft', cleanup_tick (u64_modulus - 1) (mkNode ex_state (Some ex_raft))
    = (Ret tt, mkNode (n_sys (exec (cleanup_tick (u64_modulus - 1)) (mkNode ex_state None))) (Some raft')) ∧
  size (in_flight (store (n_sys (exec (cleanup_tick (u64_modulus - 1)) (mkNode ex_state None))))) = 0.
Proof.
  destruct (proj1 (cleanup_tick_modes (u64_modulus - 1) ex_state ex_raft
    (exec (cleanup_tick (u64_modulus - 1)) (mkNode ex_state None))) ex_leading) as (raft' & H).
  - apply exec_Ret. vm_compute. reflexivity.
  - exists raft'. split; [exact H|]. vm_compute. reflexivity.
Defined.

Lemma cleanup_task_dies_witness :
  ∃ msg n', spawned_cleanup 5 (2 ^ 62) [Tick; Tick] (mkNode ex_state None) = (Panic msg, n') ∧
    abs (n_sys n') = abs ex_state.
Proof. apply (cleanup_task_dies 5 (2 ^ 62) [Tick] ex_state). right. vm_compute. split; reflexivity. Defined.

(** A node with one empty queue. *)
Definition ex_ready_queue : Sys := exec (apply_requests [RCreateQueue "q"]) ex_start.

Lemma ex_ready_queue_reachable : reachable ex_ready_queue.
Proof.
  eapply (reachable_session [RCreateQueue "q"] ex_start [ROk]); [apply reach_new|].
  apply exec_Ret. vm_compute. reflexivity.
Qed.

Lemma ex_ready_queue_attempts : attempts_below ex_ready_queue.
Proof. apply attempts_below_check. apply (bool_decide_unpack _). vm_compute. exact I. Qed.

Definition ex_msgpack : option bytes := Some (as_bytes "application/msgpack").

Lemma json_batch_roundtrip_witness :
  ∃ n1 n2 reply,
    handle ex_app (PostBatch "q" None (text_of [VNum 7; VNull])) (mkNode ex_ready_queue None)
      = (Ret (code OK), n1) ∧
    handle ex_app (GetBatch "q" (Some 2%Z) None) n1 = (Ret (mkResponse OK [] (BItems reply)), n2) ∧
    reply.*2 = [VNum 7; VNull].
Proof.
  apply (json_batch_roundtrip (SD := sim_serde) ex_app ex_ready_queue "q" None (text_of [VNum 7; VNull]) [VNum 7; VNull]
    [sim_json_to_vec (VNum 7); sim_json_to_vec VNull] None);
    [exact ex_ready_queue_reachable|reflexivity|exact ex_ready_queue_attempts|vm_compute; reflexivity
    |vm_compute; reflexivity|vm_compute; discriminate|vm_compute; discriminate|vm_compute; reflexivity
    |by repeat constructor|by repeat constructor|vm_compute; discriminate].
Defined.

Lemma msgpack_numbers_misread_witness :
  ∃ n1 n2 id,
    handle ex_app (PostBatch "q" ex_msgpack (text_of [VNum 49])) (mkNode ex_ready_queue None)
      = (Ret (code OK), n1) ∧
    handle ex_app (GetBatch "q" (Some 1%Z) None) n1 = (Ret (mkResponse OK [] (BItems (SD := sim_serde) [(id, VNum 1)])), n2).
Proof.
  destruct (msgpack_numbers_misread (SD := sim_serde) ex_app ex_ready_queue "q" ex_msgpack None)
    as (_ & H & _);
    [exact ex_ready_queue_reachable|reflexivity|exact ex_ready_queue_attempts|vm_compute; reflexivity
    |vm_compute; reflexivity|vm_compute; reflexivity|].
  apply (H (text_of [VNum 49])); [vm_compute; discriminate|vm_compute; reflexivity].
Defined.
