(* ===== verification/Config.v ===== *)
(** * Configuration and start-up ([main.rs], [tls/mod.rs], [telemetry/mod.rs],
      [shutdown/mod.rs], [replication/network.rs])

    Settings are read from the environment, given here as a function from names to
    values ([None] when [std::env::var] fails).  The TLS crates, the HTTP client of
    the Raft network and the constructors main calls are parameters. *)

From stdpp Require Import prelude base gmap strings list.
From Stdlib Require Import ZArith Lia Strings.Byte.
From S2P Require Import Prelude Types Env Wal Memory Recovery.
Local Open Scope oxide_scope.
Set Warnings "-clear-no-such-hyp".

Abbreviation Environment := (string → option string).

(** ** The standard library's conversions *)

(** The digits of [str::parse] on an unsigned integer type, bounded by [max]. *)
Fixpoint parse_digits (max : Z) (s : string) (acc : Z) : option Z :=
  match s with
  | EmptyString => Some acc
  | String c s' =>
    let d := (Z.of_nat (Ascii.nat_of_ascii c) - 48)%Z in
    if ((0 <=? d) && (d <=? 9))%Z then
      let acc' := (acc * 10 + d)%Z in
      if (max <? acc')%Z then None else parse_digits max s' acc'
    else None
  end.

(** [str::parse]: an optional plus sign, then one digit or more. *)
Definition parse_unsigned (max : Z) (s : string) : option Z :=
  match s with
  | EmptyString => None
  | String c s' =>
    if Ascii.eqb c (Ascii.ascii_of_nat 43) then
      match s' with EmptyString => None | _ => parse_digits max s' 0 end
    else parse_digits max s 0
  end.
Definition parse_u64 : string → option Z := parse_unsigned (u64_modulus - 1).
Definition parse_u16 : string → option Z := parse_unsigned 65535.

(** [str::to_lowercase] on ASCII; no other character has an ASCII letter of
    ["true"] or ["json"] as its lowercase. *)
Definition ascii_lower (c : Ascii.ascii) : Ascii.ascii :=
  let n := Ascii.nat_of_ascii c in
  if (65 <=? n) && (n <=? 90) then Ascii.ascii_of_nat (n + 32) else c.
Fixpoint to_lowercase (s : string) : string :=
  match s with
  | EmptyString => EmptyString
  | String c s' => String (ascii_lower c) (to_lowercase s')
  end.

(** [env::var(name).map(|v| v.to_lowercase() == "true").unwrap_or(false)] *)
Definition env_flag (env : Environment) (name : string) : bool :=
  match env name with Some v => bool_decide (to_lowercase v = "true"%string) | None => false end.

(** [opt.expect(msg)]; the outcome monad of code without a state. *)
Definition expect_some {A} (msg : string) (o : option A) : outcome A :=
  match o with Some a => Ret a | None => Panic msg end.
Definition bind_outcome {A B} (o : outcome A) (f : A → outcome B) : outcome B :=
  match o with Ret a => f a | Panic msg => Panic msg end.
Notation "'let?' x := o 'in' k" := (bind_outcome o (λ x, k))
  (at level 10, x name, o at level 100, k at level 200) : oxide_scope.

(** ** TLS *)

Class TlsCrates := {
  Cert : Type;
  PrivateKey : Type;
  ServerConfig : Type;
  (** [File::open], the PEM readers and [with_single_cert]. *)
  open_file : string → option bytes;
  read_certs : bytes → Result (list Cert) string;
  read_private_key : bytes → Result (option PrivateKey) string;
  with_single_cert : list Cert → PrivateKey → Result ServerConfig string }.

Inductive TlsError :=
| CertNotFound (p : string)
| KeyNotFound (p : string)
| InvalidCert (e : string)
| InvalidKey (e : string)
| ConfigError (e : string).

(** [Display for TlsError] *)
Definition tls_error_text (e : TlsError) : string :=
  match e with
  | CertNotFound p => "Certificate file not found: " +:+ p
  | KeyNotFound p => "Private key file not found: " +:+ p
  | InvalidCert e => "Invalid certificate: " +:+ e
  | InvalidKey e => "Invalid private key: " +:+ e
  | ConfigError e => "TLS configuration error: " +:+ e
  end%string.

Section tls.
Context `{TC : !TlsCrates}.

Record TlsConfig := mkTlsConfig { server_config : ServerConfig }.

(** [TlsConfig::load] *)
Definition tls_load (cert_path key_path : string) : Result TlsConfig TlsError :=
  match open_file cert_path with
  | None => Err (CertNotFound cert_path)
  | Some cert_file =>
    match read_certs cert_file with
    | Err e => Err (InvalidCert e)
    | Ok [] => Err (InvalidCert "No certificates found in file")
    | Ok certs =>
      match open_file key_path with
      | None => Err (KeyNotFound key_path)
      | Some key_file =>
        match read_private_key key_file with
        | Err e => Err (InvalidKey e)
        | Ok None => Err (InvalidKey "No private key found in file")
        | Ok (Some key) =>
          match with_single_cert certs key with
          | Err e => Err (ConfigError e)
          | Ok config => Ok (mkTlsConfig config)
          end
        end
      end
    end
  end.

Definition key_missing_msg : string := "OXIDEQ_TLS_KEY must be set when OXIDEQ_TLS_CERT is set".
Definition cert_missing_msg : string := "OXIDEQ_TLS_CERT must be set when OXIDEQ_TLS_KEY is set".

(** [TlsConfig::from_env] *)
Definition tls_from_env (env : Environment) : Result (option TlsConfig) TlsError :=
  match env "OXIDEQ_TLS_CERT"%string, env "OXIDEQ_TLS_KEY"%string with
  | Some cert, Some key =>
    match tls_load cert key with Ok c => Ok (Some c) | Err e => Err e end
  | None, None => Ok None
  | Some _, None => Err (KeyNotFound key_missing_msg)
  | None, Some _ => Err (CertNotFound cert_missing_msg)
  end.
End tls.

Definition is_raft_tls_enabled (env : Environment) : bool := env_flag env "OXIDEQ_RAFT_TLS".

(** ** Telemetry and shutdown *)

Inductive LogFormat := Human | JsonFormat.
Definition log_format_from_env (env : Environment) : LogFormat :=
  if bool_decide (to_lowercase (default "" (env "OXIDEQ_LOG_FORMAT"%string)) = "json"%string)
  then JsonFormat else Human.

Definition DEFAULT_DRAIN_TIMEOUT_SECS : Z := 10.
Definition get_drain_timeout_secs (env : Environment) : Z :=
  default DEFAULT_DRAIN_TIMEOUT_SECS (env "OXIDEQ_DRAIN_TIMEOUT"%string ≫= parse_u64).

(** ** The settings of [main] *)

Record Settings := mkSettings {
  s_password : string;
  s_cleanup_interval : Z;
  s_task_timeout : Z;
  s_heartbeat_duration : Z;
  s_port : Z }.

(** [env::var(name).unwrap_or_else(|_| dflt).parse().expect("name must be a number")] *)
Definition number_setting (env : Environment) (name dflt : string) (parse : string → option Z) : outcome Z :=
  expect_some (name +:+ " must be a number")%string (parse (default dflt (env name))).

Definition load_settings (env : Environment) : outcome Settings :=
  let? password := expect_some "OXIDEQ_PASSWORD must be set" (env "OXIDEQ_PASSWORD"%string) in
  let? cleanup_interval := number_setting env "OXIDEQ_CLEANUP_INTERVAL" "5" parse_u64 in
  let? task_timeout := number_setting env "OXIDEQ_TASK_TIMEOUT" "30" parse_u64 in
  let? heartbeat_duration := number_setting env "OXIDEQ_HEARTBEAT_DURATION" "60" parse_u64 in
  let? port := number_setting env "OXIDEQ_PORT" "8540" parse_u16 in
  Ret (mkSettings password cleanup_interval task_timeout heartbeat_duration port).

(** Cluster mode and what it requires of the environment; the node's database
    directory. *)
Inductive Mode :=
| Standalone (wal_path : option string)
| Cluster (node_id : NodeId) (wal_path : string).

Definition select_mode (env : Environment) (show : Z → string) (create_dir_all : string → bool)
  : outcome Mode :=
  if env_flag env "OXIDEQ_CLUSTER_MODE" then
    let? node_id_str := expect_some "OXIDEQ_NODE_ID required in cluster mode" (env "OXIDEQ_NODE_ID"%string) in
    let? node_id := expect_some "Invalid Node ID" (parse_u64 node_id_str) in
    let? _ := expect_some "OXIDEQ_RAFT_ADDR required in cluster mode" (env "OXIDEQ_RAFT_ADDR"%string) in
    let wal_path := default ("data/node_" +:+ show node_id)%string (env "OXIDEQ_WAL_PATH"%string) in
    if create_dir_all wal_path then Ret (Cluster node_id wal_path)
    else Panic "Failed to create WAL directory"
  else Ret (Standalone (env "OXIDEQ_WAL_PATH"%string)).

(** Everything [main] reads before it builds the node, in its order. *)
Definition main_config `{TC : !TlsCrates} (env : Environment) (show : Z → string)
  (create_dir_all : string → bool) : outcome (Settings * option TlsConfig * Mode) :=
  let? settings := load_settings env in
  let? tls_config :=
    match tls_from_env env with Ok c => Ret c | Err _ => Panic "Failed to load TLS configuration" end in
  let? mode := select_mode env show create_dir_all in
  Ret (settings, tls_config, mode).

(** The storage [main] starts with: only a standalone node with a path logs. *)
Definition initial_storage `{RT : !Runtime} `{CH : !Chrono} `{CD : !WalCodec} (mode : Mode)
  : M Host InMemoryStorage :=
  match mode with
  | Standalone (Some path) => new_persistent path
  | Standalone None => mret storage_new
  | Cluster _ _ => mret storage_new
  end.

(** ** The Raft network *)

(** The HTTP client over the world it reaches: a POST of a value as JSON, with the
    headers set besides [content-type], gives a status and a body, or fails. *)
Class HttpClient := {
  World : Type;
  Rpc : Type;
  RpcReply : Type;
  (** [Client::builder().pool_max_idle_per_host(10).build()] *)
  client_builds : bool;
  post_json : string → list (string * bytes) → Rpc → M World (Result (Z * bytes) string);
  reply_from_json : bytes → Result RpcReply string }.

Section network.
Context `{HCl : !HttpClient}.

Record Network := mkNetwork { use_tls : bool }.
Record NetworkConnection := mkConnection { target : NodeId; target_addr : string; conn_scheme : string }.

Definition network_new (env : Environment) : outcome Network :=
  if client_builds then Ret (mkNetwork (is_raft_tls_enabled env))
  else Panic "Failed to create HTTP client".
Definition scheme (net : Network) : string := if use_tls net then "https" else "http".
Definition new_client (net : Network) (target : NodeId) (addr : string) : NetworkConnection :=
  mkConnection target addr (scheme net).

(** [resp.status().is_success()] *)
Definition is_success (st : Z) : bool := ((200 <=? st) && (st <? 300))%Z.

(** The message of an unsuccessful response; [show] is the [Display] of its status,
    which the [http] crate gives. *)
Definition error_response_msg (show : Z → string) (st : Z) : string := ("Error response: " +:+ show st)%string.

(** The three RPCs differ in their path and types; none sets a header. *)
Definition rpc_call (path : string) (show : Z → string) (conn : NetworkConnection) (rpc : Rpc)
  : M World (Result RpcReply string) :=
  let url := (conn_scheme conn +:+ "://" +:+ target_addr conn +:+ path)%string in
  resp ← post_json url [] rpc;
  mret (match resp with
        | Err e => Err e
        | Ok (st, body) =>
          if negb (is_success st) then Err (error_response_msg show st)
          else reply_from_json body
        end).
Definition append_entries := rpc_call "/raft/append".
Definition install_snapshot_rpc := rpc_call "/raft/snapshot".
Definition vote := rpc_call "/raft/vote".
End network.
