(* ===== verification/Startup.v ===== *)
(** * What start-up guarantees

    The settings are in the ranges of their types, TLS is configured by both files
    or by none, the first storage satisfies the invariant of a running node, and an
    RPC of the Raft network succeeds only on a successful, readable reply. *)

From stdpp Require Import prelude base gmap strings list fin_maps pretty.
From Stdlib Require Import ZArith Lia Strings.Byte.
From S2P Require Import Prelude Types Env Wal Memory Spec Commands Refinement Invariant Models Storage Recovery Durability Config.
Local Open Scope oxide_scope.
Set Warnings "-clear-no-such-hyp".

(** ** Numbers *)

Lemma parse_digits_range max s acc z :
  (0 ≤ acc ≤ max)%Z → parse_digits max s acc = Some z → (0 ≤ z ≤ max)%Z.
Proof.
  revert acc. induction s as [|c s IH]; intros acc Ha; cbn [parse_digits]; [by intros [= <-]|].
  destruct (Z.leb_spec 0 (Z.of_nat (Ascii.nat_of_ascii c) - 48)); [|done].
  destruct (Z.leb_spec (Z.of_nat (Ascii.nat_of_ascii c) - 48) 9); [|done]. cbn [andb].
  destruct (Z.ltb_spec max (acc * 10 + (Z.of_nat (Ascii.nat_of_ascii c) - 48))); [done|].
  apply IH. lia.
Qed.

Lemma parse_unsigned_range max s z :
  (0 ≤ max)%Z → parse_unsigned max s = Some z → (0 ≤ z ≤ max)%Z.
Proof.
  intros Hm. unfold parse_unsigned. destruct s as [|c s]; [done|].
  destruct (Ascii.eqb c _); [|by apply parse_digits_range].
  destruct s; [done|]. by apply parse_digits_range.
Qed.

Lemma bind_outcome_Ret {A B} (o : outcome A) (f : A → outcome B) b :
  bind_outcome o f = Ret b ↔ ∃ a, o = Ret a ∧ f a = Ret b.
Proof. destruct o; cbn; naive_solver. Qed.

Lemma expect_some_Ret {A} msg (o : option A) a : expect_some msg o = Ret a ↔ o = Some a.
Proof. destruct o; cbn; naive_solver. Qed.

(** The value of a setting: its variable, or the default when unset. *)
Definition setting (env : Environment) (name dflt : string) (parse : string → option Z) (z : Z) : Prop :=
  parse (default dflt (env name)) = Some z.

(** Settings: the process starts exactly when the password is set and every
    number parses; each setting then has the value of its variable, or its
    default of 5, 30, 60 seconds and port 8540, and lies in the range of its type. *)
Theorem settings_exact env c :
  load_settings env = Ret c ↔
  env "OXIDEQ_PASSWORD"%string = Some (s_password c) ∧
  setting env "OXIDEQ_CLEANUP_INTERVAL" "5" parse_u64 (s_cleanup_interval c) ∧
  setting env "OXIDEQ_TASK_TIMEOUT" "30" parse_u64 (s_task_timeout c) ∧
  setting env "OXIDEQ_HEARTBEAT_DURATION" "60" parse_u64 (s_heartbeat_duration c) ∧
  setting env "OXIDEQ_PORT" "8540" parse_u16 (s_port c) ∧
  in_u64 (s_cleanup_interval c) ∧ in_u64 (s_task_timeout c) ∧ in_u64 (s_heartbeat_duration c) ∧
  (0 ≤ s_port c ≤ 65535)%Z.
Proof.
  assert (∀ name dflt z, setting env name dflt parse_u64 z → in_u64 z) as Hu.
  { intros name dflt z H. unfold in_u64. apply parse_unsigned_range in H; unfold u64_modulus in *; lia. }
  unfold load_settings, number_setting. repeat setoid_rewrite bind_outcome_Ret.
  setoid_rewrite expect_some_Ret. split.
  - intros (p & Hp & ci & Hci & tt_ & Htt & hd & Hhd & po & Hpo & [= <-]). cbn.
    pose proof (Hu _ _ _ Hci). pose proof (Hu _ _ _ Htt). pose proof (Hu _ _ _ Hhd).
    assert (0 ≤ po ≤ 65535)%Z as [? ?] by (apply parse_unsigned_range in Hpo; lia).
    by split_and!.
  - intros (Hp & Hci & Htt & Hhd & Hpo & _). eexists. split; [done|]. do 4 (eexists; split; [done|]).
    by destruct c.
Qed.

(** ** TLS *)

Section tls.
Context `{TC : !TlsCrates}.

Lemma tls_load_Ok cert_path key_path c :
  tls_load cert_path key_path = Ok c ↔
  ∃ cf kf certs key sc, open_file cert_path = Some cf ∧ open_file key_path = Some kf ∧
    read_certs cf = Ok certs ∧ certs ≠ [] ∧ read_private_key kf = Ok (Some key) ∧
    with_single_cert certs key = Ok sc ∧ c = mkTlsConfig sc.
Proof.
  unfold tls_load. split.
  - destruct (open_file cert_path) as [cf|] eqn:Hc; [|done].
    destruct (read_certs cf) as [[|x certs]|] eqn:Hr; try done.
    destruct (open_file key_path) as [kf|] eqn:Hk; [|done].
    destruct (read_private_key kf) as [[key|]|] eqn:Hkey; try done.
    destruct (with_single_cert (x :: certs) key) as [sc|] eqn:Hw; [|done]. intros [= <-].
    by eexists cf, kf, (x :: certs), key, sc.
  - intros (cf & kf & certs & key & sc & -> & -> & -> & Hne & -> & Hw & ->).
    destruct certs as [|x certs]; [done|]. by rewrite Hw.
Qed.

(** TLS is all or nothing: the server runs without TLS exactly when neither
    variable is set, and with it exactly when both are set, both files open, the
    certificate file holds a certificate, the key file a key, and they fit; one
    variable without the other is an error. *)
Theorem tls_from_env_exact env :
  (tls_from_env env = Ok None ↔
     env "OXIDEQ_TLS_CERT"%string = None ∧ env "OXIDEQ_TLS_KEY"%string = None) ∧
  (∀ c, tls_from_env env = Ok (Some c) ↔
     ∃ cert key cf kf certs k sc,
       env "OXIDEQ_TLS_CERT"%string = Some cert ∧ env "OXIDEQ_TLS_KEY"%string = Some key ∧
       open_file cert = Some cf ∧ open_file key = Some kf ∧ read_certs cf = Ok certs ∧ certs ≠ [] ∧
       read_private_key kf = Ok (Some k) ∧ with_single_cert certs k = Ok sc ∧ c = mkTlsConfig sc) ∧
  (is_Some (env "OXIDEQ_TLS_CERT"%string) → env "OXIDEQ_TLS_KEY"%string = None →
     tls_from_env env = Err (KeyNotFound key_missing_msg)) ∧
  (env "OXIDEQ_TLS_CERT"%string = None → is_Some (env "OXIDEQ_TLS_KEY"%string) →
     tls_from_env env = Err (CertNotFound cert_missing_msg)).
Proof.
  unfold tls_from_env. split_and!.
  - destruct (env "OXIDEQ_TLS_CERT"%string) as [cert|], (env "OXIDEQ_TLS_KEY"%string) as [key|];
      try (split; [done|by intros []]).
    destruct (tls_load cert key); split; (done || by intros []).
  - intros c. split.
    + destruct (env "OXIDEQ_TLS_CERT"%string) as [cert|], (env "OXIDEQ_TLS_KEY"%string) as [key|]; try done.
      destruct (tls_load cert key) as [c'|] eqn:Hl; [|done]. intros [= ->].
      apply tls_load_Ok in Hl as (cf & kf & certs & k & sc & ?). exists cert, key, cf, kf, certs, k, sc.
      naive_solver.
    + intros (cert & key & cf & kf & certs & k & sc & -> & -> & Hrest).
      assert (tls_load cert key = Ok c) as ->; [|done].
      apply tls_load_Ok. exists cf, kf, certs, k, sc. naive_solver.
  - by intros [cert ->] ->.
  - by intros -> [key ->].
Qed.
End tls.

(** ** The first storage *)

Section start.
Context `{RT : !Runtime} `{CH : !Chrono} `{CD : !WalCodec} `{UL : !UuidLaws} `{DL : !DashLaws}.
Context `{FL : !FsLaws}.

(** The entries a start finds in the file: none if it cannot be opened or a line
    does not parse, and those before the first line that cannot be read. *)
Definition found_entries (path : string) (h : Host) : list WalEntry :=
  match (open_lines path h).1 with
  | Ok lines => unwrap_or_default (replay_loop lines [])
  | Err _ => []
  end.
(** The host once they are replayed. *)
Definition replayed_host (path : string) (h : Host) : Host :=
  host (exec (for_each (λ entry, replay_op (we_op entry)) (found_entries path h))
          (mkSys storage_new (open_lines path h).2)).

(** What a start from a log asks: no delivery count of the replay overflows, which
    only a build with overflow checks can notice, and the log opens for appending. *)
Definition log_starts (path : string) (h : Host) : Prop :=
  log_run_safe (we_op <$> found_entries path h) a_empty ∧
  ∃ f h', open_append path (replayed_host path h) = (Ok f, h').

(** It obtains the state of the log's entries and logs to the same file. *)
Definition log_started (path : string) (h : Host) (s : Sys) : Prop :=
  abs s ≡ log_run (we_op <$> found_entries path h) a_empty ∧
  ∃ f, wal (store s) = Some (mkWalManager f) ∧ open_append path (replayed_host path h) = (Ok f, host s).

Lemma new_persistent_starts path h :
  (∀ st h', new_persistent path h = (Ret st, h') → log_started path h (mkSys st h')) ∧
  (returns (new_persistent path) h ↔ log_starts path h).
Proof.
  set (s0 := mkSys storage_new (open_lines path h).2).
  set (loop := for_each (λ entry, replay_op (we_op entry)) (found_entries path h)).
  assert (∀ s, loop s0 = (Ret tt, s) →
    new_persistent path h = (manager ← wal_new path; mret (mkStorage (queues (store s)) (in_flight (store s)) (Some manager)))
      (host s) ∧ host s = replayed_host path h) as Heq.
  { intros s Hs. split; [|unfold replayed_host; by change (host s = host (exec loop s0)); unfold exec; rewrite Hs].
    revert Hs. subst loop s0. unfold new_persistent, found_entries, replay, mbind, M_bind, run_on.
    destruct (open_lines path h) as [[lines|e] h1]; cbn; intros Hs. { by rewrite Hs. } by injection Hs as <-. }
  assert (∀ st h', new_persistent path h = (Ret st, h') → ∃ s, loop s0 = (Ret tt, s)) as Hret.
  { clear Heq. intros st h'. subst loop s0. unfold new_persistent, found_entries, replay, mbind, M_bind, run_on.
    destruct (open_lines path h) as [[lines|e] h1]; cbn; [|intros _; by eexists].
    destruct (for_each _ _ _) as [[[]|msg] s]; [intros _; by eexists|done]. }
  split.
  - intros st h' H. destruct (Hret _ _ H) as [s Hs]. destruct (Heq s Hs) as [Hn Hh]. rewrite Hn in H.
    pose proof (replay_entries_safe _ s0 s eq_refl Hs) as Hsafe.
    destruct (replay_entries _ s0 eq_refl Hsafe) as (s' & Hs' & _ & Ha). change (loop s0 = (Ret tt, s')) in Hs'.
    rewrite Hs in Hs'. injection Hs' as <-. unfold mbind, M_bind, wal_new in H.
    destruct (open_append path (host s)) as [[f|e] h2] eqn:Ho; [|done]. injection H as <- <-.
    split; [exact Ha|]. exists f. split; [done|]. by rewrite <- Hh.
  - split.
    + intros (st & h' & H). destruct (Hret _ _ H) as [s Hs]. destruct (Heq s Hs) as [Hn Hh]. rewrite Hn in H.
      split; [exact (replay_entries_safe _ s0 s eq_refl Hs)|]. rewrite <- Hh. unfold mbind, M_bind, wal_new in H.
      destruct (open_append path (host s)) as [[f|e] h2]; [by eexists _, _|done].
    + intros [Hsafe (f & h' & Ho)]. destruct (replay_entries _ s0 eq_refl Hsafe) as (s & Hs & _ & _).
      destruct (Heq s Hs) as [Hn Hh]. unfold returns. rewrite Hn. unfold mbind, M_bind, wal_new. rewrite Hh, Ho.
      by eexists _, _.
Qed.

Context `{RD : !ReliableDisk} `{CL : !WalCodecLaws}.

(** The first storage: on a disk without faults and with an absent or empty log, [main]
    obtains a storage in every mode; it satisfies the invariant of a running node,
    it is empty, and it logs exactly in standalone mode with a log path. *)
Theorem startup_invariant mode h :
  (∀ path, mode = Standalone (Some path) → stored path h [] "") →
  ∃ st h', initial_storage mode h = (Ret st, h') ∧ node_inv (mkSys st h') ∧
    queues st = ∅ ∧ in_flight st = ∅ ∧
    (persistent (mkSys st h') = true ↔ ∃ path, mode = Standalone (Some path)).
Proof.
  intros Hst. destruct mode as [[path|]|id path]; cbn [initial_storage].
  - destruct (recover_stored path h [] []) as (st & h' & H & (mgr & ls & Hw & _) & [Hq Ht] & _);
      [by constructor|by apply Hst|done|].
    exists st, h'. split_and!; [done| |exact Hq| |].
    + apply (lives_inv path). eapply live_start; [|done]. by apply Hst.
    + cbn in Ht. rewrite fmap_empty in Ht. by apply fmap_empty_inv in Ht.
    + split; [by exists path|]. intros _. unfold persistent. cbn in Hw |- *. rewrite Hw.
      by apply bool_decide_eq_true_2.
  - exists storage_new, h. split_and!; [done|apply node_inv_new|done|done|].
    split; [done|by intros [? ?]].
  - exists storage_new, h. split_and!; [done|apply node_inv_new|done|done|].
    split; [done|by intros [? ?]].
Qed.
End start.

(** ** The Raft network *)

Section network.
Context `{HCl : !HttpClient}.

(** An RPC to a peer goes over HTTPS exactly when [OXIDEQ_RAFT_TLS] says true
    in any case, and succeeds exactly when the peer answers a success status with a
    body that parses; everything else is a network error. *)
Theorem rpc_exact env net target addr path show rpc reply w w' :
  network_new env = Ret net →
  let conn := new_client net target addr in
  (conn_scheme conn = "https"%string ↔
     ∃ v, env "OXIDEQ_RAFT_TLS"%string = Some v ∧ to_lowercase v = "true"%string) ∧
  (rpc_call path show conn rpc w = (Ret (Ok reply), w') ↔
     ∃ st b, post_json (conn_scheme conn +:+ "://" +:+ addr +:+ path)%string [] rpc w = (Ret (Ok (st, b)), w') ∧
       (200 ≤ st < 300)%Z ∧ reply_from_json b = Ok reply).
Proof.
  unfold network_new. destruct client_builds; [intros [= <-]|done]. split.
  - unfold new_client, scheme, is_raft_tls_enabled, env_flag. cbn.
    destruct (env "OXIDEQ_RAFT_TLS"%string) as [v|]; [|split; [done|by intros (? & ? & _)]].
    case_bool_decide; split; naive_solver.
  - unfold rpc_call, mbind, M_bind. cbn [target_addr new_client].
    destruct (post_json _ [] rpc w) as [[[[st b]|e]|msg] w1]; cbn;
      try (split; [done|by intros (? & ? & ? & _)]).
    unfold is_success. destruct (Z.leb_spec 200 st), (Z.ltb_spec st 300); cbn [andb negb]; split.
    2,4,6,8: intros (? & ? & [= <- <- <-] & ? & ?); lia || (unfold mret, M_ret; congruence).
    all: intros [= ? <-]. by eexists _, _.
Qed.
End network.

(** ** Examples *)

Definition ex_env : Environment := λ name,
  if bool_decide (name = "OXIDEQ_PASSWORD"%string) then Some "secret"%string
  else if bool_decide (name = "OXIDEQ_TASK_TIMEOUT"%string) then Some "+45"%string else None.

#[local] Existing Instance ex_runtime.

Lemma startup_invariant_witness :
  ∃ st h', initial_storage (Standalone (Some "wal"%string)) fresh_host = (Ret st, h') ∧
    node_inv (mkSys st h') ∧ queues st = ∅ ∧ in_flight st = ∅ ∧
    (persistent (mkSys st h') = true ↔ ∃ path, Standalone (Some "wal"%string) = Standalone (Some path)).
Proof. apply (startup_invariant (RT := ex_runtime)). intros path _. by right. Defined.
