(* ===== verification/Telemetry.v ===== *)
(** * Logging ([telemetry/mod.rs])

    [init_logging]: the filter comes from the first of two variables that is set
    to valid directives, the format from a third.  tracing_subscriber is a
    parameter; the calls on its layer builder are kept as the list of what they
    set. *)

From stdpp Require Import prelude base gmap strings list.
From S2P Require Import Prelude Types Config.
Local Open Scope oxide_scope.
Set Warnings "-clear-no-such-hyp".

Class TracingCrates := {
  EnvFilter : Type;
  try_from_env : Environment → string → option EnvFilter;
  try_from_default_env : Environment → option EnvFilter;
  filter_new : string → EnvFilter;
  (** The panic of [init] when a subscriber is installed. *)
  already_set_msg : string }.

(** Their documentation: an error when the variable is unset or holds an invalid
    directive; the default variable is RUST_LOG. *)
Class TracingLaws `{TR : !TracingCrates} := {
  filter_parse : string → option EnvFilter;
  try_from_env_spec env name : try_from_env env name = env name ≫= filter_parse;
  try_from_default_env_spec env : try_from_default_env env = try_from_env env "RUST_LOG" }.

Section telemetry.
Context `{TR : !TracingCrates}.

(** The calls on [fmt::layer()]. *)
Inductive LayerCall :=
| Json
| SpanEventsClose
| Target (b : bool)
| ThreadIds (b : bool)
| LogFile (b : bool)
| LineNumber (b : bool).
Record Subscriber := mkSubscriber { sub_filter : EnvFilter; sub_layer : list LayerCall }.

(** [registry().with(filter).with(layer).init()] on the process's subscriber. *)
Definition init_subscriber (s : Subscriber) : M (option Subscriber) unit := λ installed,
  match installed with
  | None => (Ret tt, Some s)
  | Some _ => (Panic already_set_msg, installed)
  end.

Definition init_logging (env : Environment) : M (option Subscriber) unit :=
  let filter :=
    match try_from_env env "OXIDEQ_LOG_LEVEL" with
    | Some f => f
    | None => match try_from_default_env env with Some f => f | None => filter_new "info" end
    end in
  match log_format_from_env env with
  | JsonFormat =>
    init_subscriber (mkSubscriber filter
      [Json; SpanEventsClose; Target true; ThreadIds false; LogFile false; LineNumber false])
  | Human => init_subscriber (mkSubscriber filter [SpanEventsClose; Target true; ThreadIds false])
  end.

(** The directives a variable holds, if it is set and they are valid. *)
Definition directives `{TL : !TracingLaws} (env : Environment) (name : string) : option EnvFilter :=
  env name ≫= filter_parse.

Lemma log_format_json env :
  log_format_from_env env = JsonFormat ↔
    ∃ v, env "OXIDEQ_LOG_FORMAT"%string = Some v ∧ to_lowercase v = "json"%string.
Proof.
  unfold log_format_from_env. destruct (env "OXIDEQ_LOG_FORMAT"%string) as [v|]; cbn [default Datatypes.id].
  - case_bool_decide; split; naive_solver.
  - split; [done|by intros (? & ? & _)].
Qed.

(** Logging: the first call installs one subscriber whose filter is that of
    OXIDEQ_LOG_LEVEL when it is set and valid, else that of RUST_LOG when it is set
    and valid, else ["info"], and which writes JSON exactly when OXIDEQ_LOG_FORMAT
    says json in any case; a second call panics and changes nothing. *)
Theorem logging_exact `{TL : !TracingLaws} env :
  ∃ s, init_logging env None = (Ret tt, Some s) ∧
    sub_filter s = default (default (filter_new "info") (directives env "RUST_LOG"))
                           (directives env "OXIDEQ_LOG_LEVEL") ∧
    (Json ∈ sub_layer s ↔ ∃ v, env "OXIDEQ_LOG_FORMAT"%string = Some v ∧ to_lowercase v = "json"%string) ∧
    SpanEventsClose ∈ sub_layer s ∧
    ∀ s', init_logging env (Some s') = (Panic already_set_msg, Some s').
Proof.
  setoid_rewrite <- log_format_json. unfold init_logging, directives.
  rewrite try_from_default_env_spec, !try_from_env_spec.
  destruct (log_format_from_env env); cbn [init_subscriber];
    (eexists; split; [done|]; cbn [sub_filter sub_layer]; split_and!; [by repeat case_match| |set_solver|done]).
  - split; [set_solver|done].
  - split; [done|set_solver].
Qed.
End telemetry.

(** ** Examples *)

(** Filters that are one level. *)
#[export] Instance sim_tracing : TracingCrates := {
  EnvFilter := string;
  try_from_env env name :=
    v ← env name; if bool_decide (v ∈ ["info"; "debug"; "warn"]%string) then Some v else None;
  try_from_default_env env :=
    v ← env "RUST_LOG"%string; if bool_decide (v ∈ ["info"; "debug"; "warn"]%string) then Some v else None;
  filter_new s := s;
  already_set_msg := "failed to set global default subscriber" }.
#[export] Program Instance sim_tracing_laws : TracingLaws := {
  filter_parse v := if bool_decide (v ∈ ["info"; "debug"; "warn"]%string) then Some v else None }.
Next Obligation. done. Qed.
Next Obligation. done. Qed.

Definition ex_log_env : Environment := λ name,
  if bool_decide (name = "OXIDEQ_LOG_LEVEL"%string) then Some "verbose"%string
  else if bool_decide (name = "RUST_LOG"%string) then Some "debug"%string
  else if bool_decide (name = "OXIDEQ_LOG_FORMAT"%string) then Some "JSON"%string else None.

(** Invalid directives are passed over. *)
Lemma logging_exact_witness :
  ∃ s, init_logging ex_log_env None = (Ret tt, Some s) ∧ sub_filter s = "debug"%string ∧ Json ∈ sub_layer s.
Proof.
  destruct (logging_exact ex_log_env) as (s & H & Hf & Hj & _).
  exists s. split; [exact H|]. split; [rewrite Hf; vm_compute; reflexivity|].
  apply Hj. exists "JSON"%string. split; reflexivity.
Defined.
