(* ===== verification/Cluster.v ===== *)
(** * A cluster over HTTP: the Raft network against the router

    A peer of a cluster is a server that runs the router of [lib.rs]; a remote
    procedure call of [replication/network.rs] is a request to that router.  Here
    the two meet: the HTTP client of the network is instantiated by the delivery of
    the request to the peer at its address, through the layers of [Router.serve]. *)

From stdpp Require Import prelude base gmap strings list fin_maps pretty.
From Stdlib Require Import ZArith Lia Strings.Byte Strings.Ascii.
From S2P Require Import Prelude Types Env Wal Memory Spec Commands Refinement Invariant Models Storage Http HttpModels Router Config.
Local Open Scope oxide_scope.
Set Warnings "-clear-no-such-hyp".

(** ** URLs *)

(** What stands before the first slash, and the rest. *)
Fixpoint split_slash (s : string) : string * string :=
  match s with
  | EmptyString => (EmptyString, EmptyString)
  | String c s' =>
    if Ascii.eqb c "/"%char then (EmptyString, s)
    else let '(a, p) := split_slash s' in (String c a, p)
  end.

(** Scheme, authority and path of an HTTP URL. *)
Definition split_url (url : string) : option (string * string * string) :=
  match url with
  | String "h" (String "t" (String "t" (String "p" (String "s" (String ":" (String "/" (String "/" rest))))))) =>
    let '(a, p) := split_slash rest in Some ("https"%string, a, p)
  | String "h" (String "t" (String "t" (String "p" (String ":" (String "/" (String "/" rest)))))) =>
    let '(a, p) := split_slash rest in Some ("http"%string, a, p)
  | _ => None
  end%char.

Lemma split_slash_app a p :
  has_char "/"%char a = false → split_slash (a +:+ String "/" p)%string = (a, String "/" p).
Proof.
  induction a as [|c a IH]; [done|].
  change (has_char "/" (String c a)) with (Ascii.eqb "/" c || has_char "/" a)%char%bool.
  intros [Hc Ha]%orb_false_iff. rewrite Ascii.eqb_sym in Hc.
  change (String c a +:+ String "/" p)%string with (String c (a +:+ String "/" p)).
  unfold split_slash at 1; fold split_slash. by rewrite Hc, IH.
Qed.

Definition scheme_of (tls : bool) : string := if tls then "https" else "http".
Lemma scheme_scheme_of net : scheme net = scheme_of (use_tls net).
Proof. done. Qed.

Lemma split_url_of tls a p :
  has_char "/"%char a = false →
  split_url (scheme_of tls +:+ "://" +:+ a +:+ String "/" p)%string = Some (scheme_of tls, a, String "/" p).
Proof.
  intros Ha.
  trans (let '(a', p') := split_slash (a +:+ String "/" p)%string in Some (scheme_of tls, a', p')); [by destruct tls|].
  by rewrite split_slash_app.
Qed.

(** ** Peers *)

Section cluster.
Context `{RT : !Runtime} `{CH : !Chrono} `{CD : !WalCodec}.
Context `{SD : !Serde} `{HC : !HttpCrates} `{RA : !RaftApi}.

Inductive RaftRpc :=
| RpcAppend (rpc : AppendEntriesRequest)
| RpcSnapshot (rpc : InstallSnapshotRequest)
| RpcVote (rpc : VoteRequest).

(** The wire: which peers can be reached, the encodings of requests and replies. *)
Class Wire := {
  connects : string → bool;
  json_len : RaftRpc → Z;
  response_bytes : Response → bytes;
  Reply : Type;
  parse_reply : bytes → Result Reply string }.
Context `{WI : !Wire}.

(** A running process: [main] starts it with the TLS configuration it found and
    the router of [app]. *)
Record Server := mkServer { sv_tls : bool; sv_app : AppState; sv_node : Node }.
Abbreviation Servers := (gmap string Server).

(** The request as the peer's router dispatches it; another type of body than the
    handler of the path takes is rejected. *)
Definition raft_call (path : string) (rpc : RaftRpc) : option Call :=
  match rpc with
  | RpcAppend r => if bool_decide (path = "/raft/append"%string) then Some (PostRaftAppend r) else None
  | RpcSnapshot r => if bool_decide (path = "/raft/snapshot"%string) then Some (PostRaftSnapshot r) else None
  | RpcVote r => if bool_decide (path = "/raft/vote"%string) then Some (PostRaftVote r) else None
  end.

Definition header_named (name : string) (headers : list (string * bytes)) : option bytes :=
  snd <$> head (filter (λ h, h.1 = name) headers).

(** A POST as the peer serves it. *)
Definition deliver (url : string) (headers : list (string * bytes)) (rpc : RaftRpc)
  : M Servers (Result (Z * bytes) string) := λ servers,
  match split_url url with
  | None => (Ret (Err "builder error"), servers)
  | Some (sch, authority, path) =>
    match servers !! authority, raft_call path rpc with
    | Some sv, Some c =>
      if connects authority && bool_decide (sch = scheme_of (sv_tls sv)) then
        let '(o, n) := serve (sv_app sv) (header_named "x-oxideq-password" headers) (json_len rpc) c (sv_node sv) in
        (Ret (match o with
              | Ret r => Ok (status r, response_bytes r)
              | Panic _ => Err "connection closed before message completed"
              end),
         <[authority := mkServer (sv_tls sv) (sv_app sv) n]> servers)
      else (Ret (Err "error sending request"), servers)
    | _, _ => (Ret (Err "error sending request"), servers)
    end
  end%string.

#[export] Instance cluster_client : HttpClient := {
  World := Servers;
  Rpc := RaftRpc;
  RpcReply := Reply;
  client_builds := true;
  post_json := deliver;
  reply_from_json := parse_reply }.

(** One call to each of some peers, in turn. *)
Fixpoint call_peers (call : NetworkConnection → M Servers (Result Reply string))
  (conns : list NetworkConnection) : M Servers (list (Result Reply string)) :=
  match conns with
  | [] => mret []
  | conn :: conns' => r ← call conn; rs ← call_peers call conns'; mret (r :: rs)
  end.

(** ** Lemmas *)

Lemma raft_call_closed path rpc c : raft_call path rpc = Some c → open_route c = false.
Proof. destruct rpc; cbn; case_bool_decide; by intros [= <-]. Qed.

Lemma no_header_unauthorized st n json_len c :
  open_route c = false → serve st None json_len c n = (Ret (code UNAUTHORIZED), n).
Proof. intros Ho. unfold serve. by rewrite Ho. Qed.

(** A request without the password header never gets a success. *)
Lemma deliver_refused url rpc servers :
  (∃ e, deliver url [] rpc servers = (Ret (Err e), servers)) ∨
  (∃ b, deliver url [] rpc servers = (Ret (Ok (UNAUTHORIZED, b)), servers)).
Proof.
  unfold deliver. destruct (split_url url) as [[[sch authority] path]|]; [|left; by eexists].
  destruct (servers !! authority) as [sv|] eqn:Hsv; [|left; by eexists].
  destruct (raft_call path rpc) as [c|] eqn:Hc; [|left; by eexists].
  destruct (connects authority && _); [|left; by eexists].
  right. exists (response_bytes (code UNAUTHORIZED)).
  cbn [header_named filter list_filter head fmap option_fmap option_map].
  rewrite no_header_unauthorized by by eapply raft_call_closed.
  f_equal. apply insert_id. rewrite Hsv. by destruct sv.
Qed.

Lemma rpc_refused path show conn rpc servers :
  ∃ e, rpc_call path show conn rpc servers = (Ret (Err e), servers).
Proof.
  unfold rpc_call. cbn [post_json cluster_client].
  set (url := (_ +:+ _)%string).
  destruct (deliver_refused url rpc servers) as [[e H]|[b H]]; erewrite bind_step by exact H; by eexists.
Qed.

Lemma deliver_reaches servers sv tls addr path headers rpc c :
  servers !! addr = Some sv → connects addr = true → sv_tls sv = tls →
  has_char "/"%char addr = false → raft_call (String "/" path) rpc = Some c →
  deliver (scheme_of tls +:+ "://" +:+ addr +:+ String "/" path)%string headers rpc servers =
    let '(o, n) := serve (sv_app sv) (header_named "x-oxideq-password" headers) (json_len rpc) c (sv_node sv) in
    (Ret (match o with
          | Ret r => Ok (status r, response_bytes r)
          | Panic _ => Err "connection closed before message completed"%string
          end),
     <[addr := mkServer (sv_tls sv) (sv_app sv) n]> servers).
Proof.
  intros Hsv Hcon Htls Ha Hc. unfold deliver. rewrite split_url_of by done.
  by rewrite Hsv, Hc, Hcon, Htls, bool_decide_true.
Qed.

Lemma call_peers_refused call conns servers :
  (∀ conn, ∃ e, call conn servers = (Ret (Err e), servers)) →
  ∃ errs, length errs = length conns ∧ call_peers call conns servers = (Ret (Err <$> errs), servers).
Proof.
  intros Hcall. induction conns as [|conn conns (errs & Hl & IH)]; [by exists []|].
  destruct (Hcall conn) as [e He]. exists (e :: errs). split; [cbn; by rewrite Hl|].
  cbn [call_peers]. erewrite bind_step by exact He. by erewrite bind_step by exact IH.
Qed.

(** ** No peer answers *)

(** C24. No two nodes of a cluster ever talk: the calls of the network carry no
    password header and the peers' Raft routes require it, so every vote, append
    and snapshot call to any peers at any addresses fails and leaves every server
    as it was, and a candidate among several nodes gets no vote but its own.  The
    error is the peer's 401; the same request with the peer's password would be
    handled. *)
Theorem raft_rpcs_refused `{HL : !HttpLaws} show conns servers :
  (∀ r, ∃ errs, length errs = length conns ∧
     call_peers (λ conn, vote show conn (RpcVote r)) conns servers = (Ret (Err <$> errs), servers)) ∧
  (∀ r, ∃ errs, length errs = length conns ∧
     call_peers (λ conn, append_entries show conn (RpcAppend r)) conns servers = (Ret (Err <$> errs), servers)) ∧
  (∀ r, ∃ errs, length errs = length conns ∧
     call_peers (λ conn, install_snapshot_rpc show conn (RpcSnapshot r)) conns servers
       = (Ret (Err <$> errs), servers)) ∧
  (∀ net target addr sv r,
     servers !! addr = Some sv → connects addr = true → sv_tls sv = use_tls net →
     has_char "/"%char addr = false → (json_len (RpcVote r) ≤ DEFAULT_LIMIT)%Z →
     vote show (new_client net target addr) (RpcVote r) servers
       = (Ret (Err (error_response_msg show UNAUTHORIZED)), servers) ∧
     ∀ resp n', raft_vote r (sv_node sv) = (Ret resp, n') →
       post_json (scheme net +:+ "://" +:+ addr +:+ "/raft/vote")%string
         [("x-oxideq-password"%string, as_bytes (password (sv_app sv)))] (RpcVote r) servers
       = (Ret (Ok (status resp, response_bytes resp)),
          <[addr := mkServer (sv_tls sv) (sv_app sv) n']> servers)).
Proof.
  split_and!; [intros r; apply call_peers_refused; intros conn; apply rpc_refused..|].
  intros net target addr sv r Hsv Hcon Htls Ha Hlen.
  pose proof (deliver_reaches servers sv (use_tls net) addr "raft/vote" ) as Hd.
  split.
  - unfold vote, rpc_call. cbn [conn_scheme target_addr new_client post_json cluster_client].
    rewrite scheme_scheme_of. erewrite bind_step; [|by erewrite Hd by done].
    cbn. f_equal. apply insert_id. rewrite Hsv. by destruct sv.
  - intros resp n' H. cbn [post_json cluster_client]. rewrite scheme_scheme_of.
    erewrite Hd by done.
    assert (serve (sv_app sv) (Some (as_bytes (password (sv_app sv)))) (json_len (RpcVote r))
      (PostRaftVote r) (sv_node sv) = (Ret resp, n')) as Hs.
    { unfold serve, auth_middleware. cbn [open_route]. rewrite bool_decide_true by done.
      rewrite (proj2 (ct_eq_spec _ _ eq_refl) eq_refl). cbn [andb].
      unfold extract_and_handle, too_large. cbn [body_limit body_length].
      rewrite (proj2 (Z.ltb_ge _ _)) by done. unfold mbind, M_bind. cbn [handle]. by rewrite H. }
    change (header_named _ _) with (Some (as_bytes (password (sv_app sv)))). by rewrite Hs.
Qed.
End cluster.

(** ** Examples *)

#[local] Existing Instance ex_runtime.
#[local] Instance ex_wire : Wire := {
  connects _ := true;
  json_len _ := 10%Z;
  response_bytes _ := [];
  Reply := unit;
  parse_reply _ := Ok tt }.

(** A peer of a cluster, not yet initialized. *)
Definition ex_server : Server :=
  mkServer false (mkAppState "secret" 60) (mkNode (mkSys storage_new fresh_host) (Some false)).
Definition ex_addr : string := "10.0.0.2:8540".
Definition ex_servers : gmap string Server := {[ ex_addr := ex_server ]}.
Definition ex_net : Network := mkNetwork false.

(** How [StatusCode] prints: the code and its canonical reason. *)
Definition ex_status (st : Z) : string :=
  if (st =? UNAUTHORIZED)%Z then "401 Unauthorized"
  else if (st =? 413)%Z then "413 Payload Too Large"
  else (pretty st +:+ " <unknown status code>")%string.

Lemma raft_rpcs_refused_witness :
  vote ex_status (new_client ex_net 2 ex_addr) (RpcVote tt) ex_servers
    = (Ret (Err "Error response: 401 Unauthorized"%string), ex_servers) ∧
  ∃ servers', post_json (scheme ex_net +:+ "://" +:+ ex_addr +:+ "/raft/vote")%string
      [("x-oxideq-password"%string, as_bytes "secret")] (RpcVote tt) ex_servers
    = (Ret (Ok (200%Z, [])), servers').
Proof.
  destruct (raft_rpcs_refused (RT := ex_runtime) ex_status [] ex_servers) as (_ & _ & _ & H).
  destruct (H ex_net 2%Z ex_addr ex_server tt) as [Hv Hp];
    [apply lookup_singleton_eq|reflexivity|reflexivity|vm_compute; reflexivity|vm_compute; discriminate|].
  split; [exact Hv|]. eexists. exact (Hp (mkResponse 200 [] (BRaft tt)) (sv_node ex_server) eq_refl).
Defined.
