(* ===== verification/Lifecycle.v ===== *)
(** * From start to exit ([server/mod.rs], [shutdown/mod.rs], the end of [main.rs])

    [shutdown_signal] completes at SIGINT or SIGTERM; [main]'s shutdown future then
    cancels the token of the cleanup task; [run_server] serves until that future
    completes and its connections are drained.  A future is what polling it gives
    after the signals received so far; a process is polled after each event.  The
    servers of axum and axum_server and tokio's signal handlers are parameters. *)

From stdpp Require Import prelude base gmap strings list.
From Stdlib Require Import ZArith Lia.
From S2P Require Import Prelude Config.
Local Open Scope oxide_scope.
Set Warnings "-clear-no-such-hyp".

Inductive Signal := SIGINT | SIGTERM.
#[export] Instance Signal_eq_dec : EqDecision Signal.
Proof. solve_decision. Defined.

(** tokio's signal handlers, which may fail to install. *)
Class Signals := {
  ctrl_c_installs : bool;
  sigterm_installs : bool }.

(** What the two servers do; times in milliseconds. *)
Class ServerCrates := {
  (** [TcpListener::bind], and the bind of [bind_rustls(..).serve(..)] *)
  bind : Z → Result unit string;
  (** [axum::serve(..).with_graceful_shutdown(signal)] has returned, given whether
      the signal has completed and how many connections are open. *)
  axum_returned : bool → nat → bool;
  (** [axum_server]'s [serve] has returned, given the grace period of
      [graceful_shutdown] and the time since it was called, if it was. *)
  axum_server_returned : option (option Z * Z) → nat → bool }.

(** Their documentation: both wait for the open connections to end, axum_server
    no longer than the grace period. *)
Class ServerLaws `{SC : !ServerCrates} : Prop := {
  axum_drains signalled n : axum_returned signalled n = signalled && (n =? 0);
  axum_server_serves n : axum_server_returned None n = false;
  axum_server_drains grace elapsed n :
    axum_server_returned (Some (Some grace, elapsed)) n = (n =? 0) || (grace <=? elapsed)%Z }.

Section lifecycle.
Context `{SG : !Signals} `{SC : !ServerCrates}.

(** ** [shutdown_signal] *)

Inductive Poll := Ready | Pending.
(** The outcome of polling, given the signals received. *)
Definition Future : Type := list Signal → outcome Poll.

Definition ctrl_c : Future := λ received,
  if ctrl_c_installs then Ret (if bool_decide (SIGINT ∈ received) then Ready else Pending)
  else Panic "Failed to install Ctrl+C handler".
Definition terminate : Future := λ received,
  if sigterm_installs then Ret (if bool_decide (SIGTERM ∈ received) then Ready else Pending)
  else Panic "Failed to install SIGTERM handler".

(** [tokio::select!] of two branches, which are polled in a random order. *)
Definition select (first_left : bool) (l r : Future) : Future := λ received,
  let '(a, b) := if first_left then (l, r) else (r, l) in
  let? p := a received in
  match p with Ready => Ret Ready | Pending => b received end.

Definition shutdown_signal (first_left : bool) : Future := select first_left ctrl_c terminate.

(** ** The process *)

Inductive Status := Serving | Stopped (r : Result unit string).

Record Process := mkProcess {
  p_tls : bool;
  now_ms : Z;
  received : list Signal;
  open_connections : nat;
  (** When [shutdown_future] completed; it cancels the cleanup's token then. *)
  signalled_at : option Z;
  token_cancelled : bool;
  p_status : Status }.

Inductive Event :=
| Received (sg : Signal)
| Opened
| Closed
| Elapsed (ms : N).
#[export] Instance Event_eq_dec : EqDecision Event.
Proof. solve_decision. Defined.

(** [shutdown_future]: once the signal is there, the token is cancelled. *)
Definition poll_shutdown (first_left : bool) (p : Process) : outcome Process :=
  match signalled_at p with
  | Some _ => Ret p
  | None =>
    let? s := shutdown_signal first_left (received p) in
    Ret (match s with
         | Ready => mkProcess (p_tls p) (now_ms p) (received p) (open_connections p) (Some (now_ms p)) true (p_status p)
         | Pending => p
         end)
  end.

Definition GRACE_MS : Z := 10 * 1000.

(** [run_server] up to its last await: with TLS, a spawned task calls
    [graceful_shutdown(Some(10 s))] once the future completes. *)
Definition poll_server (p : Process) : bool :=
  if p_tls p then
    axum_server_returned ((λ t, (Some GRACE_MS, now_ms p - t)%Z) <$> signalled_at p) (open_connections p)
  else axum_returned (bool_decide (is_Some (signalled_at p))) (open_connections p).

(** [run_server(router, addr, tls, shutdown_future)] begins. *)
Definition run_server (port : Z) (tls : bool) : Process :=
  mkProcess tls 0 [] 0 None false
    (match bind port with Ok _ => Serving | Err e => Stopped (Err e) end).

Definition happen (e : Event) (p : Process) : Process :=
  match e with
  | Received sg =>
    mkProcess (p_tls p) (now_ms p) (sg :: received p) (open_connections p) (signalled_at p) (token_cancelled p) (p_status p)
  | Opened =>
    (* both servers stop accepting once they drain *)
    mkProcess (p_tls p) (now_ms p) (received p)
      (match signalled_at p with None => S (open_connections p) | Some _ => open_connections p end)
      (signalled_at p) (token_cancelled p) (p_status p)
  | Closed =>
    mkProcess (p_tls p) (now_ms p) (received p) (pred (open_connections p)) (signalled_at p) (token_cancelled p) (p_status p)
  | Elapsed ms =>
    mkProcess (p_tls p) (now_ms p + Z.of_N ms) (received p) (open_connections p) (signalled_at p) (token_cancelled p) (p_status p)
  end.

Definition process_step (first_left : bool) (e : Event) (p : Process) : outcome Process :=
  match p_status p with
  | Stopped _ => Ret p
  | Serving =>
    let? p' := poll_shutdown first_left (happen e p) in
    Ret (if poll_server p'
         then mkProcess (p_tls p') (now_ms p') (received p') (open_connections p') (signalled_at p') (token_cancelled p')
                (Stopped (Ok tt))
         else p')
  end.

(** The events with the order in which [select!] polled at each. *)
Fixpoint process_run (es : list (bool * Event)) (p : Process) : outcome Process :=
  match es with
  | [] => Ret p
  | (first_left, e) :: es' => let? p' := process_step first_left e p in process_run es' p'
  end.

(** The end of [main]: the exit code, once [run_server] returns. *)
Definition main_exit (p : Process) : option Z :=
  match p_status p with
  | Serving => None
  | Stopped (Ok _) => Some 0%Z
  | Stopped (Err _) => Some 1%Z
  end.
End lifecycle.

(** ** Draining *)

Section drain.
Context `{SG : !Signals} `{SC : !ServerCrates} `{SL : !ServerLaws}.
Context (Hctrl_c : ctrl_c_installs = true) (Hsigterm : sigterm_installs = true).

Definition is_signal (e : Event) : bool := match e with Received _ => true | _ => false end.
Definition no_signal (es : list (bool * Event)) : bool := forallb (λ e, negb (is_signal e.2)) es.
(** The connections that ended, and the time that passed. *)
Definition closes (es : list (bool * Event)) : nat :=
  length (filter (λ e, e.2 = Closed) es).
Fixpoint elapsed (es : list (bool * Event)) : Z :=
  match es with
  | [] => 0
  | (_, Elapsed ms) :: es' => Z.of_N ms + elapsed es'
  | _ :: es' => elapsed es'
  end.
Lemma elapsed_nonneg es : (0 ≤ elapsed es)%Z.
Proof. induction es as [|[b []] es IH]; cbn; lia. Qed.

Lemma shutdown_signal_ready b received :
  shutdown_signal b received = Ret (if bool_decide (received = []) then Pending else Ready).
Proof.
  unfold shutdown_signal, select, ctrl_c, terminate. rewrite Hctrl_c, Hsigterm.
  destruct received as [|[] received], b; cbn; try done; repeat case_bool_decide; set_solver.
Qed.

Lemma process_run_app es1 es2 p :
  process_run (es1 ++ es2) p = bind_outcome (process_run es1 p) (process_run es2).
Proof.
  revert p. induction es1 as [|[b e] es1 IH]; intros p; [done|]. cbn.
  destruct (process_step b e p); [apply IH|done].
Qed.

Lemma process_run_stopped es p r : p_status p = Stopped r → process_run es p = Ret p.
Proof. intros H. induction es as [|[b e] es IH]; [done|]. cbn. unfold process_step. by rewrite H. Qed.

(** A server that got no signal, and one that drains. *)
Definition serving (tls : bool) (now : Z) (n : nat) : Process := mkProcess tls now [] n None false Serving.
Definition draining (tls : bool) (now : Z) (rs : list Signal) (n : nat) (t : Z) : Process :=
  mkProcess tls now rs n (Some t) true Serving.

Lemma run_serving es tls now n :
  no_signal es = true → ∃ now' n', process_run es (serving tls now n) = Ret (serving tls now' n').
Proof.
  revert now n. induction es as [|[b e] es IH]; intros now n; [by eexists _, _|].
  cbn [no_signal forallb snd]. intros [He Hes]%andb_true_iff.
  assert (∃ now' n', process_step b e (serving tls now n) = Ret (serving tls now' n')) as (now' & n' & Hs).
  { destruct e; try done; cbn; unfold poll_shutdown; cbn; rewrite shutdown_signal_ready; cbn;
      unfold poll_server; destruct tls; cbn; rewrite ?axum_server_serves, ?axum_drains; by eexists _, _. }
  cbn [process_run]. rewrite Hs. by apply IH.
Qed.

(** Whether a drain that began [ms] ago with [n] connections left is over. *)
Definition drained (tls : bool) (n : nat) (ms : Z) : bool := (n =? 0) || (tls && (GRACE_MS <=? ms)%Z).

Lemma poll_draining tls now rs n t : poll_server (draining tls now rs n t) = drained tls n (now - t).
Proof.
  unfold poll_server, drained. destruct tls; cbn; [by rewrite axum_server_drains|].
  rewrite axum_drains. by rewrite orb_false_r.
Qed.

Lemma drained_mono tls n m d d' : m ≤ n → (d ≤ d')%Z → drained tls n d = true → drained tls m d' = true.
Proof.
  intros Hm Hd. unfold drained. rewrite !orb_true_iff, !andb_true_iff, !Nat.eqb_eq, !Z.leb_le.
  intros [->|[-> ?]]; [left; lia|right; split; [done|lia]].
Qed.

(** One event of a drain. *)
Lemma draining_step b e tls now rs n t :
  ∃ rs', let n' := match e with Closed => pred n | _ => n end in
    let now' := match e with Elapsed ms => (now + Z.of_N ms)%Z | _ => now end in
    process_step b e (draining tls now rs n t) =
      Ret (if drained tls n' (now' - t)
           then mkProcess tls now' rs' n' (Some t) true (Stopped (Ok tt))
           else draining tls now' rs' n' t).
Proof.
  destruct e as [sg| | |ms]; [exists (sg :: rs)|exists rs..]; unfold process_step; cbn [p_status draining];
    cbn -[poll_server Z.of_N]; unfold poll_shutdown; cbn -[poll_server Z.of_N];
    match goal with |- context [poll_server ?p] =>
      change (poll_server p) with (poll_server (draining (p_tls p) (now_ms p) (received p) (open_connections p) t)) end;
    rewrite poll_draining; cbn; by destruct (drained _ _ _).
Qed.

Lemma run_draining es : ∀ tls now rs n t,
  drained tls n (now - t) = false →
  ∃ p, process_run es (draining tls now rs n t) = Ret p ∧ token_cancelled p = true ∧
    p_status p = if drained tls (n - closes es) (now - t + elapsed es) then Stopped (Ok tt) else Serving.
Proof.
  induction es as [|[b e] es IH]; intros tls now rs n t Hd.
  { eexists. split_and!; [done..|]. cbn. by rewrite Nat.sub_0_r, Z.add_0_r, Hd. }
  destruct (draining_step b e tls now rs n t) as [rs' Hs]. cbn zeta in Hs.
  set (n' := match e with Closed => pred n | _ => n end) in *.
  set (now' := match e with Elapsed ms => (now + Z.of_N ms)%Z | _ => now end) in *.
  assert (n - closes ((b, e) :: es) = n' - closes es) as ->.
  { unfold closes. rewrite filter_cons. unfold n'. case_decide; destruct e; simplify_eq/=; lia. }
  assert (now - t + elapsed ((b, e) :: es) = now' - t + elapsed es)%Z as ->.
  { unfold now'. destruct e; cbn [elapsed]; lia. }
  cbn [process_run]. rewrite Hs. cbn [bind_outcome].
  destruct (drained tls n' (now' - t)) eqn:Hd'; [|by apply IH].
  erewrite process_run_stopped by done. eexists. split_and!; [done..|]. pose proof (elapsed_nonneg es).
  rewrite (drained_mono tls n' _ (now' - t)); [done|lia|lia|done].
Qed.

(** C25. How the process ends.  It serves as long as no signal comes.  The first
    SIGINT or SIGTERM cancels the token of the cleanup task, and [main] then
    returns, with exit code 0, exactly when the connections open at that moment
    have ended or, with TLS only, ten seconds have passed: without TLS a
    connection that stays open keeps the process running for ever. *)
Theorem shutdown_drains port tls es b sg es' :
  bind port = Ok tt → no_signal es = true →
  ∃ p p', process_run es (run_server port tls) = Ret p ∧ main_exit p = None ∧ token_cancelled p = false ∧
    process_run (es ++ (b, Received sg) :: es') (run_server port tls) = Ret p' ∧
    token_cancelled p' = true ∧
    main_exit p' = if (open_connections p <=? closes es') || (tls && (10000 <=? elapsed es')%Z)
                   then Some 0%Z else None.
Proof.
  intros Hb Hes. change (run_server port tls) with
    (mkProcess tls 0 [] 0 None false (match bind port with Ok _ => Serving | Err e => Stopped (Err e) end)).
  rewrite Hb. change (mkProcess tls 0 [] 0 None false Serving) with (serving tls 0 0).
  destruct (run_serving es tls 0 0 Hes) as (now & n & Hp). exists (serving tls now n).
  rewrite process_run_app, Hp. cbn [bind_outcome process_run].
  assert (process_step b (Received sg) (serving tls now n) =
    Ret (if drained tls n 0 then mkProcess tls now [sg] n (Some now) true (Stopped (Ok tt))
         else draining tls now [sg] n now)) as Hs.
  { unfold process_step. cbn -[poll_server shutdown_signal]. unfold poll_shutdown. cbn -[poll_server shutdown_signal].
    rewrite shutdown_signal_ready. cbn -[poll_server].
    change (mkProcess tls now [sg] n (Some now) true Serving) with (draining tls now [sg] n now).
    rewrite poll_draining, Z.sub_diag. by destruct (drained tls n 0). }
  change (open_connections (serving tls now n)) with n.
  assert ((n <=? closes es') || (tls && (10000 <=? elapsed es')%Z)
    = drained tls (n - closes es') (0 + elapsed es')) as ->.
  { unfold drained. f_equal. destruct (Nat.leb_spec n (closes es')), (Nat.eqb_spec (n - closes es') 0); (done || lia). }
  rewrite Hs. cbn [bind_outcome]. destruct (drained tls n 0) eqn:Hd.
  - erewrite process_run_stopped by done. eexists. split_and!; [done..|]. pose proof (elapsed_nonneg es').
    rewrite (drained_mono tls n _ 0); [done|lia|lia|done].
  - destruct (run_draining es' tls now [sg] n now) as (p' & Hr & Ht & Hst); [by rewrite Z.sub_diag|].
    exists p'. split_and!; [done..|]. unfold main_exit. rewrite Hst, Z.sub_diag. clear Hst. by case (drained _ _ _).
Qed.
End drain.

(** ** Examples *)

#[local] Instance ex_signals : Signals := {
  ctrl_c_installs := true;
  sigterm_installs := true }.
#[local] Instance ex_servers : ServerCrates := {
  bind _ := Ok tt;
  axum_returned signalled n := signalled && (n =? 0);
  axum_server_returned s n :=
    match s with
    | None => false
    | Some (Some grace, elapsed) => (n =? 0) || (grace <=? elapsed)%Z
    | Some (None, _) => n =? 0
    end }.
#[local] Instance ex_server_laws : ServerLaws.
Proof. by split. Qed.

(** A connection that outlives the signal by an hour. *)
Definition ex_before : list (bool * Event) := [(true, Opened); (false, Elapsed 5)].
Definition ex_after : list (bool * Event) := [(true, Elapsed 3600000); (true, Opened)].

Lemma shutdown_drains_witness :
  (∃ p', process_run (ex_before ++ (true, Received SIGTERM) :: ex_after) (run_server 8540 true) = Ret p' ∧
     main_exit p' = Some 0%Z) ∧
  (∃ p', process_run (ex_before ++ (true, Received SIGTERM) :: ex_after) (run_server 8540 false) = Ret p' ∧
     main_exit p' = None).
Proof.
  split.
  - destruct (shutdown_drains (SG := ex_signals) (SC := ex_servers) eq_refl eq_refl 8540 true ex_before true SIGTERM ex_after eq_refl eq_refl)
      as (p & p' & _ & _ & _ & Hr & _ & He). exists p'. split; [exact Hr|].
    rewrite He. by rewrite orb_true_r.
  - destruct (shutdown_drains (SG := ex_signals) (SC := ex_servers) eq_refl eq_refl 8540 false ex_before true SIGTERM ex_after eq_refl eq_refl)
      as (p & p' & Hp & _ & _ & Hr & _ & He). exists p'. split; [exact Hr|].
    rewrite He. injection Hp as <-. reflexivity.
Defined.
