(* ===== verification/Threads.v ===== *)
(** * Concurrent calls of the storage ([storage/memory.rs])

    The methods of the storage take [&self] and run concurrently.  Here a call is a
    state machine: a [Thread] is the point it has reached with its local variables,
    one step goes from a point where another call may run to the next such point.
    Those points are the awaits of the log and every acquisition of a shard lock of
    the two [DashMap]s.  A thread holds the locks its guards stand for: [dequeue]
    and [dequeue_batch] keep the lock of the queue's shard, [extend_visibility] that
    of the task's shard, while they wait for the log.  A pool of threads runs under
    an arbitrary schedule; with a bounded number of worker threads, one that waits
    for a shard lock keeps its worker. *)

From stdpp Require Import prelude base gmap strings list fin_maps.
From Stdlib Require Import ZArith Lia.
From S2P Require Import Prelude Types Env Wal Memory Commands.
Local Open Scope oxide_scope.
Set Warnings "-clear-no-such-hyp".

(** The shard of a key, in each of the maps: the hashers are seeded at random. *)
Class Shards := {
  queue_shard : string → nat;
  task_shard : string → nat }.

(** ** Points of a call *)

(** The locks: a shard of [queues], a shard of [in_flight], the log's mutex. *)
Inductive Guard := GQueue (shard : nat) | GTask (shard : nat) | GWal.
#[export] Instance Guard_eq_dec : EqDecision Guard.
Proof. solve_decision. Defined.

(** What a call does once its entry is logged, with its local variables. *)
Inductive Rest :=
| KInsertQueue (name : string)
| KPush (name : string) (items : list bytes)
| KDeliver (name : string) (item : QueueItem) (task_id : string)
| KDeliverBatch (name : string) (popped_items : list QueueItem) (task_ids : list string)
| KAcked
| KRequeue (task_id : string) (task : InFlightTask)
| KStamp (task_id : string)
| KRemove (task_ids : list string).

Inductive Thread :=
| Start (req : ClientRequest)
(** [wal.lock().await] *)
| WaitLog (op : WalOp) (k : Rest)
(** [.append(..).await], with the mutex locked *)
| Appending (op : WalOp) (k : Rest)
| Logged (r : Result unit string) (k : Rest)
(** [self.in_flight.insert(..)] of [dequeue], and of the loop of [dequeue_batch] *)
| InsertTask (name : string) (task : InFlightTask)
| InsertTasks (name : string) (task_ids : list string) (i : nat) (items : list QueueItem)
    (tasks : list InFlightTask)
(** The second half of [nack] *)
| Requeue (task : InFlightTask)
(** The two loops of [ack_batch] *)
| CheckTasks (task_ids todo missing_ids : list string)
| RemoveTasks (task_ids : list string)
| Finished (resp : ClientResponse)
(** The call was cancelled (its future dropped) or panicked. *)
| Dropped.

Section threads.
Context `{RT : !Runtime} `{CH : !Chrono} `{CD : !WalCodec} `{SH : !Shards}.

(** ** One step *)

(** [if let Some(wal) = &self.wal { .. }], on the way to the next await. *)
Definition log (op : WalOp) (k : Rest) : M Sys Thread :=
  w ← gets (λ s, wal (store s));
  mret (match w with Some _ => WaitLog op k | None => Logged (Ok tt) k end).

Definition failed (e : string) : Thread := Finished (RErr e).

(** The first access of each method. *)
Definition start (req : ClientRequest) : M Sys Thread :=
  match req with
  | RCreateQueue name =>
    exists_ ← contains_queue name;
    if (exists_ : bool) then mret (failed (queue_exists_msg name))
    else log (WCreateQueue name) (KInsertQueue name)
  | REnqueue name item =>
    exists_ ← contains_queue name;
    if negb exists_ then mret (failed (queue_not_found_msg name))
    else log (WEnqueue name item) (KPush name [item])
  | REnqueueBatch name items =>
    exists_ ← contains_queue name;
    if negb exists_ then mret (failed (queue_not_found_msg name))
    else log (WEnqueueBatch name items) (KPush name items)
  | RDequeue name =>
    q ← get_queue name;
    match q with
    | None => mret (failed (queue_not_found_msg name))
    | Some [] => mret (Finished (RTask None))
    | Some (item :: rest) =>
      put_queue name rest;;
      task_id ← new_uuid;
      log (WDequeued name task_id) (KDeliver name item task_id)
    end
  | RDequeueBatch name count =>
    q ← get_queue name;
    match q with
    | None => mret (failed (queue_not_found_msg name))
    | Some [] => mret (Finished (RTasks []))
    | Some q =>
      vec_with_capacity count size_of_QueueItem;;
      let '(popped_items, rest) := pop_upto count q in
      put_queue name rest;;
      if bool_decide (popped_items = []) then mret (Finished (RTasks [])) else
      task_ids ← new_uuids (length popped_items);
      log (WDequeuedBatch name task_ids) (KDeliverBatch name popped_items task_ids)
    end
  | RAck id =>
    t ← get_task id;
    match t with
    | None => mret (failed task_not_found_msg)
    | Some _ => drop_task id;; log (WAck id) KAcked
    end
  | RNack id =>
    t ← get_task id;
    match t with
    | None => mret (failed task_not_found_msg)
    | Some task => drop_task id;; log (WNack id) (KRequeue id task)
    end
  | RExtendVisibility id duration =>
    t ← get_task id;
    match t with
    | None => mret (failed task_not_found_msg)
    | Some _ => log (WExtendVisibility id duration) (KStamp id)
    end
  | RAckBatch ids => mret (CheckTasks ids ids [])
  end.

(** Pushing popped items back through the guard of the queue. *)
Definition push_back_front (name : string) (items : list QueueItem) : M Sys unit :=
  q ← get_queue name;
  put_queue name (items ++ default [] q).

(** After the log: the error branch, then the success branch, of each method. *)
Definition log_failed (e : string) (k : Rest) : M Sys Thread :=
  match k with
  | KInsertQueue _ | KPush _ _ | KStamp _ | KRemove _ => mret (failed e)
  | KDeliver name item _ => push_back_front name [item];; mret (failed e)
  | KDeliverBatch name popped_items _ => push_back_front name popped_items;; mret (failed e)
  | KAcked => mret (failed (wal_failed_msg e))
  | KRequeue id task => put_task id task;; mret (failed (wal_failed_msg e))
  end.

Definition log_done (k : Rest) : M Sys Thread :=
  match k with
  | KInsertQueue name => put_queue name [];; mret (Finished ROk)
  | KPush name items =>
    q ← get_queue name;
    match q with
    | None => mret (failed (queue_not_found_msg name))
    | Some q => put_queue name (q ++ ((λ d, mkQueueItem d 0) <$> items));; mret (Finished ROk)
    end
  | KDeliver name item task_id => task ← make_task task_id item name; mret (InsertTask name task)
  | KDeliverBatch name popped_items task_ids => mret (InsertTasks name task_ids 0 popped_items [])
  | KAcked => mret (Finished ROk)
  | KRequeue _ task => mret (Requeue task)
  | KStamp id => n ← now; modify (set_in_flight (alter (set_consumed_at n) id));; mret (Finished ROk)
  | KRemove ids => mret (RemoveTasks ids)
  end.

Definition step (t : Thread) : M Sys Thread :=
  match t with
  | Start req => start req
  | WaitLog op k => mret (Appending op k)
  | Appending op k => r ← wal_append op; mret (Logged r k)
  | Logged (Err e) k => log_failed e k
  | Logged (Ok _) k => log_done k
  | InsertTask _ task => put_task (t_id task) task;; mret (Finished (RTask (Some task)))
  | InsertTasks name task_ids i items tasks =>
    match items with
    | [] => mret (Finished (RTasks tasks))
    | item :: items' =>
      match task_ids !! i with
      | None => panic "index out of bounds"
      | Some task_id =>
        task ← make_task task_id item name;
        put_task task_id task;;
        mret (InsertTasks name task_ids (S i) items' (tasks ++ [task]))
      end
    end
  | Requeue task => r ← requeue task; mret (Finished (unit_response r))
  | CheckTasks ids [] missing =>
    if bool_decide (missing ≠ []) then mret (failed (tasks_not_found_msg missing))
    else log (WAckBatch ids) (KRemove ids)
  | CheckTasks ids (id :: todo) missing =>
    t ← get_task id;
    mret (CheckTasks ids todo (match t with Some _ => missing | None => missing ++ [id] end))
  | RemoveTasks [] => mret (Finished ROk)
  | RemoveTasks (id :: ids) => drop_task id;; mret (RemoveTasks ids)
  | Finished _ | Dropped => mret t
  end.

(** A panic unwinds the call; its guards are released. *)
Definition advance (t : Thread) (s : Sys) : Thread * Sys :=
  match step t s with (Ret t', s') => (t', s') | (Panic _, s') => (Dropped, s') end.

(** ** Locks *)

(** The guards that are alive after the log block of a method. *)
Definition rest_guards (k : Rest) : list Guard :=
  match k with
  | KDeliver name _ _ | KDeliverBatch name _ _ => [GQueue (queue_shard name)]
  | KStamp id => [GTask (task_shard id)]
  | _ => []
  end.
(** The locks a thread holds where it stands. *)
Definition guards (t : Thread) : list Guard :=
  match t with
  | WaitLog _ k | Logged _ k => rest_guards k
  | Appending _ k => GWal :: rest_guards k
  | InsertTask name _ | InsertTasks name _ _ _ _ => [GQueue (queue_shard name)]
  | _ => []
  end.

(** The lock its next step acquires, for the step or for longer. *)
Definition wants (t : Thread) : option Guard :=
  match t with
  | Start (RCreateQueue name) | Start (REnqueue name _) | Start (REnqueueBatch name _)
  | Start (RDequeue name) | Start (RDequeueBatch name _) => Some (GQueue (queue_shard name))
  | Start (RAck id) | Start (RNack id) | Start (RExtendVisibility id _) => Some (GTask (task_shard id))
  | WaitLog _ _ => Some GWal
  | Logged (Ok _) (KInsertQueue name) | Logged (Ok _) (KPush name _) => Some (GQueue (queue_shard name))
  | Logged (Err _) (KRequeue id _) => Some (GTask (task_shard id))
  | InsertTask _ task => Some (GTask (task_shard (t_id task)))
  | InsertTasks _ task_ids i (_ :: _) _ =>
    match task_ids !! i with Some id => Some (GTask (task_shard id)) | None => None end
  | Requeue task =>
    let name := t_queue_name task in
    Some (GQueue (queue_shard (if (max_delivery_attempts <=? t_attempts task)%Z then dlq_name name else name)))
  | CheckTasks _ (id :: _) _ => Some (GTask (task_shard id))
  | RemoveTasks (id :: _) => Some (GTask (task_shard id))
  | _ => None
  end.

Definition done (t : Thread) : bool := match t with Finished _ | Dropped => true | _ => false end.

(** [g] is held by a thread of the pool. *)
Definition held (ts : list Thread) (g : Guard) : bool := existsb (λ t, bool_decide (g ∈ guards t)) ts.
Definition blocked (ts : list Thread) (t : Thread) : bool :=
  match wants t with Some g => held ts g | None => false end.

(** ** Pools and schedules *)

Definition Pool : Type := list Thread * Sys.

(** Thread [i] makes a step, or its future is dropped at an await. *)
Inductive Event := Run (i : nat) | Cancel (i : nat).

Definition awaiting (t : Thread) : bool :=
  match t with WaitLog _ _ | Appending _ _ => true | _ => false end.

Definition pool_event (e : Event) (p : Pool) : option Pool :=
  let '(ts, s) := p in
  match e with
  | Run i =>
    match ts !! i with
    | None => None
    | Some t =>
      if done t || blocked ts t then None
      else let '(t', s') := advance t s in Some (<[i := t']> ts, s')
    end
  | Cancel i =>
    match ts !! i with
    | None => None
    | Some t => if awaiting t then Some (<[i := Dropped]> ts, s) else None
    end
  end.

Fixpoint pool_run (sched : list Event) (p : Pool) : option Pool :=
  match sched with
  | [] => Some p
  | e :: sched' => match pool_event e p with Some p' => pool_run sched' p' | None => None end
  end.

(** ** Worker threads

    tokio runs the tasks on a fixed number of worker threads.  A task gives its
    worker up at an await that is not ready, not while it waits for a shard lock. *)

Record Workers := mkWorkers { running : list nat; pool : Pool }.

Inductive WorkerEvent :=
(** A free worker takes a task that is ready. *)
| Pick (i : nat)
(** A task a worker runs makes a step. *)
| Work (i : nat)
(** A task leaves its worker at an await, or when it is done. *)
| Yield (i : nat).

(** A task waiting for the mutex is woken when the mutex is free. *)
Definition ready (ts : list Thread) (t : Thread) : bool :=
  negb (done t) && match t with WaitLog _ _ => negb (held ts GWal) | _ => true end.
Definition yields (ts : list Thread) (t : Thread) : bool :=
  done t || match t with WaitLog _ _ => held ts GWal | Appending _ _ => true | _ => false end.

Definition worker_event (workers : nat) (e : WorkerEvent) (w : Workers) : option Workers :=
  let '(ts, s) := pool w in
  match e with
  | Pick i =>
    match ts !! i with
    | None => None
    | Some t =>
      if bool_decide (length (running w) < workers) && bool_decide (i ∉ running w) && ready ts t
      then Some (mkWorkers (i :: running w) (pool w)) else None
    end
  | Work i =>
    if bool_decide (i ∈ running w)
    then match pool_event (Run i) (pool w) with Some p => Some (mkWorkers (running w) p) | None => None end
    else None
  | Yield i =>
    match ts !! i with
    | None => None
    | Some t =>
      if bool_decide (i ∈ running w) && yields ts t
      then Some (mkWorkers (filter (λ j, j ≠ i) (running w)) (pool w)) else None
    end
  end.

Fixpoint workers_run (workers : nat) (sched : list WorkerEvent) (w : Workers) : option Workers :=
  match sched with
  | [] => Some w
  | e :: sched' =>
    match worker_event workers e w with Some w' => workers_run workers sched' w' | None => None end
  end.
End threads.
