(* ===== verification/Alone.v ===== *)
(** * A call that runs alone

    The order in which a call takes locks, and the theorem that a thread of
    [Threads.v] that is not interrupted is the method of [Memory.v]. *)

From stdpp Require Import prelude base gmap gmultiset strings list fin_maps.
From Stdlib Require Import ZArith Lia Strings.Byte.
From S2P Require Import Prelude Types Env Wal Memory Spec Commands Refinement Invariant Models Storage Threads.
Local Open Scope oxide_scope.
Set Warnings "-clear-no-such-hyp,-register-all".

(** ** Locks *)

Section locks.
Context `{RT : !Runtime} `{CH : !Chrono} `{CD : !WalCodec} `{SH : !Shards}.

(** Locks are taken in this order. *)
Definition rank (g : Guard) : nat := match g with GQueue _ => 0 | GTask _ => 1 | GWal => 2 end.

Lemma wants_above t g h : wants t = Some g → h ∈ guards t → rank h < rank g.
Proof.
  intros Hw Hh. destruct t as [[]|op []|op []|[] []| |? ? ? []| |? []|[]| |]; cbn in *;
    try case_match; simplify_eq; try (by apply not_elem_of_nil in Hh);
    repeat (apply elem_of_cons in Hh as [->|Hh]); cbn; try lia; by apply not_elem_of_nil in Hh.
Qed.

Lemma held_spec ts g : held ts g = true ↔ ∃ i t, ts !! i = Some t ∧ g ∈ guards t.
Proof.
  unfold held. rewrite existsb_exists. split.
  - intros (t & Hin & Hg%bool_decide_eq_true). apply list_elem_of_In, list_elem_of_lookup in Hin as [i Hi].
    eauto.
  - intros (i & t & Hi & Hg). exists t. split; [|by apply bool_decide_eq_true].
    apply list_elem_of_In, list_elem_of_lookup. eauto.
Qed.

Lemma alone_not_blocked t : blocked [t] t = false.
Proof.
  unfold blocked. destruct (wants t) as [g|] eqn:Hw; [|done]. apply not_true_is_false.
  intros (i & t' & Hi & Hg)%held_spec. destruct i; [|done]. injection Hi as <-.
  pose proof (wants_above _ _ _ Hw Hg). lia.
Qed.
End locks.

(** ** Alone, a thread is its method *)

Section alone.
Context `{RT : !Runtime} `{CH : !Chrono} `{CD : !WalCodec} `{SH : !Shards} `{UL : !UuidLaws}.

(** [t] runs to [t'] without another call in between. *)
Definition alone (t : Thread) (s : Sys) (r : Thread * Sys) : Prop :=
  ∃ n, pool_run (replicate n (Run 0)) ([t], s) = Some ([r.1], r.2).

Lemma alone_refl t s : alone t s (t, s).
Proof. by exists 0. Qed.

Lemma alone_step t s r : done t = false → alone (advance t s).1 (advance t s).2 r → alone t s r.
Proof.
  intros Hd [n Hn]. exists (S n). cbn [replicate pool_run pool_event lookup list_lookup].
  rewrite Hd, alone_not_blocked. cbn [orb]. by destruct (advance t s).
Qed.

Lemma alone_Ret t s t' s' r : done t = false → step t s = (Ret t', s') → alone t' s' r → alone t s r.
Proof. intros Hd Hs Hr. apply alone_step; [done|]. unfold advance. by rewrite Hs. Qed.

Lemma alone_Panic t s msg s' : done t = false → step t s = (Panic msg, s') → alone t s (Dropped, s').
Proof. intros Hd Hs. apply alone_step; [done|]. unfold advance. rewrite Hs. apply alone_refl. Qed.

(** The log block, run to its end. *)
Lemma alone_log op k s :
  ∃ t r s1, wal_append op s = (Ret r, s1) ∧ abs s1 = abs s ∧ log op k s = (Ret t, s) ∧
    ∀ res, alone (Logged r k) s1 res → alone t s res.
Proof.
  destruct (wal_append_returns op s) as (r & s1 & Hw & (Ha & _) & _). unfold log. rewrite bind_gets.
  destruct (wal (store s)) as [mgr|] eqn:Hm; eexists _, r, s1; (split; [done|]); (split; [done|]);
    (split; [reflexivity|]); intros res Hres.
  - eapply alone_Ret; [done|reflexivity|]. eapply alone_Ret; [done| |exact Hres].
    cbn [step]. by erewrite bind_step by exact Hw.
  - unfold wal_append in Hw. rewrite bind_gets, Hm in Hw. by injection Hw as <- <-.
Qed.

(** What a command leaves behind, as the end of a thread. *)
Definition settled (r : outcome ClientResponse * Sys) : Thread * Sys :=
  match r with (Ret resp, s) => (Finished resp, s) | (Panic _, s) => (Dropped, s) end.

Lemma queues_of_abs s s' : abs s' = abs s → queues (store s') = queues (store s).
Proof. intros H. exact (f_equal a_queues H). Qed.
Lemma tasks_of_abs s s' : abs s' = abs s → in_flight (store s') = in_flight (store s).
Proof. intros H. exact (f_equal a_tasks H). Qed.

Lemma alone_create name s : alone (Start (RCreateQueue name)) s (settled (apply_request (RCreateQueue name) s)).
Proof.
  destruct (alone_log (WCreateQueue name) (KInsertQueue name) s) as (t & r & s1 & Hw & _ & Hl & Hr).
  eapply alone_step; [done|]. unfold advance. cbn [step start apply_request].
  unfold create_queue, contains_queue, try_bind, mbind, M_bind, gets, mret, M_ret.
  case_bool_decide; [apply alone_refl|]. rewrite Hl, Hw. apply Hr.
  destruct r as [[]|e]; (eapply alone_Ret; [done|reflexivity|apply alone_refl]).
Qed.

Lemma push_foldl (q : list QueueItem) ds :
  foldl (λ q d, q ++ [mkQueueItem d 0]) q ds = q ++ ((λ d, mkQueueItem d 0) <$> ds).
Proof.
  revert q. induction ds as [|d ds IH]; intros q; [by rewrite app_nil_r|].
  cbn [foldl]. by rewrite IH, <- app_assoc.
Qed.

Lemma alone_enqueue name d s : alone (Start (REnqueue name d)) s (settled (apply_request (REnqueue name d) s)).
Proof.
  destruct (alone_log (WEnqueue name d) (KPush name [d]) s) as (t & r & s1 & Hw & Ha & Hl & Hr).
  eapply alone_step; [done|]. unfold advance. cbn [step start apply_request].
  unfold enqueue, contains_queue, try_bind, mbind, M_bind, gets, mret, M_ret.
  case_bool_decide; cbn [negb]; [|apply alone_refl]. rewrite Hl, Hw. apply Hr.
  destruct r as [[]|e]; [|eapply alone_Ret; [done|reflexivity|apply alone_refl]].
  unfold get_mut_queue, get_queue, mbind, M_bind, gets, mret, M_ret.
  eapply alone_step; [done|]. unfold advance. cbn [step log_done].
  unfold get_queue, mbind, M_bind, gets, mret, M_ret.
  destruct (queues (store s1) !! name); apply alone_refl.
Qed.

Lemma alone_queue_batch name ds s :
  alone (Start (REnqueueBatch name ds)) s (settled (apply_request (REnqueueBatch name ds) s)).
Proof.
  destruct (alone_log (WEnqueueBatch name ds) (KPush name ds) s) as (t & r & s1 & Hw & Ha & Hl & Hr).
  eapply alone_step; [done|]. unfold advance. cbn [step start apply_request].
  unfold queue_batch, contains_queue, try_bind, mbind, M_bind, gets, mret, M_ret.
  case_bool_decide; cbn [negb]; [|apply alone_refl]. rewrite Hl, Hw. apply Hr.
  destruct r as [[]|e]; [|eapply alone_Ret; [done|reflexivity|apply alone_refl]].
  unfold get_mut_queue, get_queue, mbind, M_bind, gets, mret, M_ret.
  eapply alone_step; [done|]. unfold advance. cbn [step log_done].
  unfold get_queue, mbind, M_bind, gets, mret, M_ret.
  destruct (queues (store s1) !! name) as [q|]; [rewrite push_foldl|]; apply alone_refl.
Qed.

Lemma alone_ack id s : alone (Start (RAck id)) s (settled (apply_request (RAck id) s)).
Proof.
  destruct (alone_log (WAck id) KAcked (set_in_flight (delete id) s)) as (t & r & s1 & Hw & _ & Hl & Hr).
  eapply alone_step; [done|]. unfold advance. cbn [step start apply_request].
  unfold ack, get_task, drop_task, modify, mbind, M_bind, gets, mret, M_ret.
  destruct (in_flight (store s) !! id); [|apply alone_refl]. rewrite Hl, Hw. apply Hr.
  destruct r as [[]|e]; (eapply alone_Ret; [done|reflexivity|apply alone_refl]).
Qed.

Lemma requeue_returns task s : ∃ r s', requeue task s = (Ret r, s').
Proof.
  unfold requeue. destruct (_ <=? _)%Z; [by eexists _, _|].
  unfold get_queue, mbind, M_bind, gets. destruct (_ !! _); by eexists _, _.
Qed.

Lemma alone_nack id s : alone (Start (RNack id)) s (settled (apply_request (RNack id) s)).
Proof.
  eapply alone_step; [done|]. unfold advance. cbn [step start apply_request].
  unfold nack, get_task, drop_task, modify, mbind, M_bind, gets, mret, M_ret.
  destruct (in_flight (store s) !! id) as [task|]; [|apply alone_refl].
  destruct (alone_log (WNack id) (KRequeue id task) (set_in_flight (delete id) s))
    as (t & r & s1 & Hw & _ & Hl & Hr).
  rewrite Hl, Hw. apply Hr. destruct r as [[]|e]; [|eapply alone_Ret; [done|reflexivity|apply alone_refl]].
  eapply alone_Ret; [done|reflexivity|]. destruct (requeue_returns task s1) as (r & s2 & Hq). rewrite Hq.
  eapply alone_Ret; [done|cbn [step]; by erewrite bind_step by exact Hq|]. apply alone_refl.
Qed.

Lemma alter_as_insert {V} (f : V → V) id (m : gmap string V) v :
  m !! id = Some v → alter f id m = <[id := f v]> m.
Proof.
  intros H. apply map_eq. intros i. destruct (decide (i = id)) as [->|Hi].
  - by rewrite lookup_alter_eq, lookup_insert_eq, H.
  - by rewrite lookup_alter_ne, lookup_insert_ne.
Qed.

Lemma now_Ret s : ∃ n s', now s = (Ret n, s') ∧ abs s' = abs s.
Proof. destruct (now_returns s) as (n & s' & H & Ha & _). eauto. Qed.

Lemma alone_extend id d s :
  alone (Start (RExtendVisibility id d)) s (settled (apply_request (RExtendVisibility id d) s)).
Proof.
  destruct (alone_log (WExtendVisibility id d) (KStamp id) s) as (t & r & s1 & Hw & Ha & Hl & Hr).
  eapply alone_step; [done|]. unfold advance. cbn [step start apply_request].
  unfold extend_visibility, get_task, try_bind, mbind, M_bind, gets, mret, M_ret.
  destruct (in_flight (store s) !! id) as [task|] eqn:Ht; [|apply alone_refl]. rewrite Hl, Hw. apply Hr.
  destruct r as [[]|e]; [|eapply alone_Ret; [done|reflexivity|apply alone_refl]].
  destruct (now_Ret s1) as (n & s2 & Hn & Ha2). rewrite Hn.
  eapply alone_Ret; [done|cbn [step log_done]; erewrite bind_step by exact Hn; reflexivity|].
  unfold put_task, modify. unfold set_in_flight.
  rewrite (alter_as_insert _ id _ task) by by rewrite (tasks_of_abs _ _ Ha2), (tasks_of_abs _ _ Ha).
  apply alone_refl.
Qed.

(** Tasks made and inserted one by one. *)
Lemma alone_insert name ids items : ∀ i tasks s,
  alone (InsertTasks name ids i items tasks) s
    (settled (let '(o, s') := make_tasks name ids i items s in
      match o with Ret ts => (Ret (RTasks (tasks ++ ts)), s') | Panic msg => (Panic msg, s') end)).
Proof.
  induction items as [|item items IH]; intros i tasks s; (eapply alone_step; [done|]); unfold advance;
    cbn [step make_tasks].
  { unfold mret, M_ret. rewrite app_nil_r. apply alone_refl. }
  destruct (ids !! i) as [id|]; [|apply alone_refl]. unfold mbind, M_bind.
  destruct (make_task id item name s) as [[task|msg] s1]; [|apply alone_refl].
  unfold put_task, modify, mret, M_ret. specialize (IH (S i) (tasks ++ [task]) (set_in_flight (insert id task) s1)).
  destruct (make_tasks _ _ _ _ _) as [[ts|msg] s2]; [|exact IH]. by rewrite <- app_assoc in IH.
Qed.

Lemma set_queue_eq name q q' s s' :
  abs s' = abs (set_queues (insert name q') s) →
  set_queues (insert name (q ++ default [] (queues (store s') !! name))) s'
  = set_queues (insert name (q ++ q')) s'.
Proof. intros H. rewrite (queues_of_abs _ _ H). cbn. by rewrite lookup_insert_eq. Qed.

Lemma push_back_failed e k name items s :
  log_failed e k = (push_back_front name items;; mret (failed e)) →
  step (Logged (Err e) k) s
  = (Ret (failed e), set_queues (insert name (items ++ default [] (queues (store s) !! name))) s).
Proof. intros H. cbn [step]. by rewrite H. Qed.

Lemma alone_dequeue name s : alone (Start (RDequeue name)) s (settled (apply_request (RDequeue name) s)).
Proof.
  eapply alone_step; [done|]. unfold advance. cbn [step start apply_request].
  unfold dequeue, get_mut_queue, get_queue, try_bind, mbind, M_bind, gets, mret, M_ret.
  destruct (queues (store s) !! name) as [[|item rest]|] eqn:Hq; [apply alone_refl| |apply alone_refl].
  unfold put_queue, modify, new_uuid, on_host. destruct (new_v4 _) as [id h] eqn:Hid.
  set (s0 := mkSys _ h).
  destruct (alone_log (WDequeued name id) (KDeliver name item id) s0) as (t & r & s1 & Hw & Ha & Hl & Hr).
  rewrite Hl, Hw. apply Hr. destruct r as [[]|e].
  - eapply alone_step; [done|]. unfold advance. cbn [step log_done]. unfold mbind, M_bind.
    destruct (make_task id item name s1) as [[task|msg] s2]; [|apply alone_refl].
    eapply alone_Ret; [done|reflexivity|apply alone_refl].
  - eapply alone_Ret; [done|by apply (push_back_failed e _ name [item])|].
    rewrite (set_queue_eq name [item] rest s s1) by by rewrite Ha. apply alone_refl.
Qed.

Lemma push_front_foldl (items rest : list QueueItem) :
  foldl (λ q item, item :: q) rest (rev items) = items ++ rest.
Proof.
  revert rest. induction items as [|x items IH] using rev_ind; intros rest; [done|].
  rewrite rev_app_distr. cbn. by rewrite IH, <- app_assoc.
Qed.

Lemma alone_dequeue_batch name count s :
  alone (Start (RDequeueBatch name count)) s (settled (apply_request (RDequeueBatch name count) s)).
Proof.
  eapply alone_step; [done|]. unfold advance. cbn [step start apply_request].
  unfold dequeue_batch, get_mut_queue, get_queue, try_bind, mbind, M_bind, gets, mret, M_ret.
  destruct (queues (store s) !! name) as [[|item0 rest0]|] eqn:Hq; [apply alone_refl| |apply alone_refl].
  rewrite (bool_decide_false (item0 :: rest0 = [])) by done.
  destruct (vec_with_capacity count size_of_QueueItem s) as [[[]|msg] s0]; [|apply alone_refl].
  destruct (pop_upto count (item0 :: rest0)) as [items rest]. unfold put_queue, modify.
  destruct (bool_decide (items = [])); [apply alone_refl|].
  destruct (new_uuids (length items) _) as [[ids|msg] s1] eqn:Hids; [|apply alone_refl].
  apply new_uuids_Ret in Hids as (Ha1 & _).
  destruct (alone_log (WDequeuedBatch name ids) (KDeliverBatch name items ids) s1)
    as (t & r & s2 & Hw & Ha & Hl & Hr).
  rewrite Hl, Hw. apply Hr. destruct r as [[]|e].
  - eapply alone_Ret; [done|reflexivity|]. pose proof (alone_insert name ids items 0 [] s2) as Hi.
    by destruct (make_tasks name ids 0 items s2) as [[ts|msg] s3].
  - eapply alone_Ret; [done|by apply (push_back_failed e _ name items)|].
    rewrite (set_queue_eq name items rest s0 s2) by by rewrite Ha, Ha1. rewrite push_front_foldl. apply alone_refl.
Qed.

Lemma alone_check ids todo missing s r :
  alone (CheckTasks ids [] (missing ++ filter (λ id, in_flight (store s) !! id = None) todo)) s r →
  alone (CheckTasks ids todo missing) s r.
Proof.
  revert missing. induction todo as [|id todo IH]; intros missing; [by rewrite app_nil_r|].
  intros H. eapply alone_Ret; [done|reflexivity|]. apply IH. revert H. cbn [get_task].
  rewrite filter_cons. destruct (in_flight (store s) !! id); case_decide; try done.
  by rewrite <- app_assoc.
Qed.

Lemma alone_remove ids s :
  alone (RemoveTasks ids) s
    (settled (let '(o, s') := for_each drop_task ids s in
      match o with Ret _ => (Ret ROk, s') | Panic msg => (Panic msg, s') end)).
Proof.
  revert s. induction ids as [|id ids IH]; intros s; (eapply alone_Ret; [done|reflexivity|]);
    [apply alone_refl|]. cbn [for_each]. unfold mbind, M_bind, drop_task, modify. apply IH.
Qed.

Lemma alone_ack_batch ids s :
  alone (Start (RAckBatch ids)) s (settled (apply_request (RAckBatch ids) s)).
Proof.
  destruct (alone_log (WAckBatch ids) (KRemove ids) s) as (t & r & s1 & Hw & _ & Hl & Hr).
  eapply alone_Ret; [done|reflexivity|]. apply alone_check. cbn [app].
  eapply alone_step; [done|]. unfold advance. cbn [step apply_request].
  unfold ack_batch, try_bind, mbind, M_bind, gets, mret, M_ret.
  case_bool_decide; [apply alone_refl|]. rewrite Hl, Hw. apply Hr.
  destruct r as [[]|e]; [|eapply alone_Ret; [done|reflexivity|apply alone_refl]].
  eapply alone_Ret; [done|reflexivity|]. pose proof (alone_remove ids s1) as Hi.
  by destruct (for_each drop_task ids s1) as [[[]|msg] s2].
Qed.

Lemma alone_request req s : alone (Start req) s (settled (apply_request req s)).
Proof.
  destruct req; [apply alone_create|apply alone_enqueue|apply alone_dequeue|apply alone_ack|apply alone_nack
    |apply alone_extend|apply alone_queue_batch|apply alone_dequeue_batch|apply alone_ack_batch].
Qed.

(** C13. A thread that runs without interruption is its method: it comes to an end
    with the answer and in the state of the sequential model, panics included. *)
Theorem alone_is_method req s :
  ∃ n, pool_run (replicate n (Run 0)) ([Start req], s)
    = Some ([(settled (apply_request req s)).1], (settled (apply_request req s)).2).
Proof. exact (alone_request req s). Qed.
End alone.

(** Shards by the length of the key, for examples. *)
#[export] Instance sim_shards : Shards := {
  queue_shard := String.length;
  task_shard := String.length }.
