(* ===== verification/Account.v ===== *)
(** * The account of messages under concurrency

    Each step of a thread changes the messages of the maps and the messages the
    thread holds by exactly what it brings in, takes out and loses; the invariant
    that makes it so, and its preservation step by step. *)

From stdpp Require Import prelude base gmap gmultiset strings list fin_maps.
From Stdlib Require Import ZArith Lia Strings.Byte.
From S2P Require Import Prelude Types Env Wal Memory Spec Commands Refinement Invariant Models Storage Threads Alone.
Local Open Scope oxide_scope.
Set Warnings "-clear-no-such-hyp,-register-all".

(** ** The account of messages *)

Section account.
Context `{RT : !Runtime} `{CH : !Chrono} `{CD : !WalCodec} `{SH : !Shards}.

(** The messages a thread has taken out of the maps and not put back. *)
Definition rest_hand (k : Rest) : gmultiset bytes :=
  match k with
  | KDeliver _ item _ => {[+ qi_data item +]}
  | KDeliverBatch _ items _ => payloads items
  | KRequeue _ task => {[+ t_data task +]}
  | _ => ∅
  end.
Definition hand (t : Thread) : gmultiset bytes :=
  match t with
  | WaitLog _ k | Appending _ k | Logged _ k => rest_hand k
  | InsertTask _ task | Requeue task => {[+ t_data task +]}
  | InsertTasks _ _ _ items _ => payloads items
  | _ => ∅
  end.

(** The identifiers it may still put in flight. *)
Definition rest_ids (k : Rest) : list string :=
  match k with
  | KDeliver _ _ id | KRequeue id _ => [id]
  | KDeliverBatch _ _ ids => ids
  | _ => []
  end.
Definition hand_ids (t : Thread) : list string :=
  match t with
  | WaitLog _ k | Appending _ k | Logged _ k => rest_ids k
  | InsertTask _ task => [t_id task]
  | InsertTasks _ ids i _ _ => drop i ids
  | _ => []
  end.

(** What a step brings in: the items of an enqueue whose queue exists. *)
Definition brought (t : Thread) (s : Sys) : gmultiset bytes :=
  match t with
  | Logged (Ok _) (KPush name items) =>
    match queues (store s) !! name with Some _ => list_to_set_disj items | None => ∅ end
  | _ => ∅
  end.

(** What a step takes out for good: the task an acknowledgement removes, and the
    items of a queue that is created again. *)
Definition task_of (id : string) (s : Sys) : gmultiset bytes :=
  match in_flight (store s) !! id with Some t => {[+ t_data t +]} | None => ∅ end.
Definition taken (t : Thread) (s : Sys) : gmultiset bytes :=
  match t with
  | Start (RAck id) => task_of id s
  | RemoveTasks (id :: _) => task_of id s
  | Logged (Ok _) (KInsertQueue name) => payloads (default [] (queues (store s) !! name))
  | _ => ∅
  end.

(** What is lost: the hand of a thread that panics, or that is cancelled. *)
Definition lost (t : Thread) (s : Sys) : gmultiset bytes :=
  match (step t s).1 with Panic _ => hand t | Ret _ => ∅ end.

Record Account := mkAccount {
  a_brought : gmultiset bytes;
  a_taken : gmultiset bytes;
  a_lost : gmultiset bytes }.

Definition event_account (e : Event) (p : Pool) : Account :=
  match e with
  | Run i =>
    match p.1 !! i with
    | Some t => mkAccount (brought t p.2) (taken t p.2) (lost t p.2)
    | None => mkAccount ∅ ∅ ∅
    end
  | Cancel i => mkAccount ∅ ∅ (match p.1 !! i with Some t => hand t | None => ∅ end)
  end.

(** The account of a schedule. *)
Fixpoint run_account (sched : list Event) (p : Pool) : Account :=
  match sched with
  | [] => mkAccount ∅ ∅ ∅
  | e :: sched' =>
    let a := event_account e p in
    let b := match pool_event e p with Some p' => run_account sched' p' | None => mkAccount ∅ ∅ ∅ end in
    mkAccount (a_brought a ⊎ a_brought b) (a_taken a ⊎ a_taken b) (a_lost a ⊎ a_lost b)
  end.

Definition hands (ts : list Thread) : gmultiset bytes := foldr (λ t acc, hand t ⊎ acc) ∅ ts.

(** ** The invariant of a pool *)

Context `{UL : !UuidLaws}.

Definition has_queue (s : Sys) (name : string) : Prop := is_Some (queues (store s) !! name).

(** The queues of the tasks exist, their identifiers were drawn. *)
Definition maps_ok (s : Sys) : Prop :=
  ∀ id t, in_flight (store s) !! id = Some t → has_queue s (t_queue_name t) ∧ id ∈ issued (host s).

Definition rest_ok (k : Rest) (s : Sys) : Prop :=
  match k with
  | KDeliver name _ _ => has_queue s name
  | KDeliverBatch name items ids => has_queue s name ∧ length ids = length items
  | KRequeue _ task => has_queue s (t_queue_name task)
  | _ => True
  end.
Definition point_ok (t : Thread) (s : Sys) : Prop :=
  match t with
  | WaitLog _ k | Appending _ k | Logged _ k => rest_ok k s
  | InsertTask _ task | Requeue task => has_queue s (t_queue_name task)
  | InsertTasks name ids i items _ => has_queue s name ∧ length ids = i + length items
  | _ => True
  end.

(** The identifiers in hand are drawn, and not in flight. *)
Definition ids_apart (ids : list string) (s : Sys) : Prop :=
  ∀ id, id ∈ ids → in_flight (store s) !! id = None ∧ id ∈ issued (host s).

Definition thread_ok (t : Thread) (s : Sys) : Prop :=
  point_ok t s ∧ NoDup (hand_ids t) ∧ ids_apart (hand_ids t) s.

Definition pool_ok (p : Pool) : Prop :=
  maps_ok p.2 ∧ Forall (λ t, thread_ok t p.2) p.1 ∧ NoDup (concat (hand_ids <$> p.1)).

(** Queues are never removed and identifiers never returned. *)
Definition grows (s s' : Sys) : Prop :=
  (∀ name, has_queue s name → has_queue s' name) ∧ issued (host s) ⊆ issued (host s').

#[export] Instance grows_preorder : PreOrder grows.
Proof. split; [by split|]. intros s1 s2 s3 [H1 I1] [H2 I2]. split; [eauto|set_solver]. Qed.

(** Identifiers in hand or in flight after a step were so before, or are new. *)
Definition ids_from (t : Thread) (s : Sys) (t' : Thread) (s' : Sys) : Prop :=
  ∀ id, id ∈ hand_ids t' ∨ is_Some (in_flight (store s') !! id) →
    id ∈ hand_ids t ∨ is_Some (in_flight (store s) !! id) ∨ id ∉ issued (host s).

(** What a step keeps. *)
Record step_keeps (t : Thread) (s : Sys) (t' : Thread) (s' : Sys) : Prop := {
  keeps_maps : maps_ok s';
  keeps_thread : thread_ok t' s';
  keeps_grows : grows s s';
  keeps_ids : ids_from t s t' s';
  keeps_account : messages (abs s') ⊎ hand t' ⊎ taken t s ⊎ lost t s = messages (abs s) ⊎ hand t ⊎ brought t s }.

(** *** Changes of the maps *)

Lemma quiet_grows s s' : quiet s s' → grows s s'.
Proof.
  intros (Ha & _ & Hi). split; [|by rewrite Hi]. intros name. unfold has_queue.
  by rewrite (queues_of_abs _ _ Ha).
Qed.
Lemma quiet_maps s s' : quiet s s' → maps_ok s → maps_ok s'.
Proof.
  intros (Ha & _ & Hi) Hm id t. unfold has_queue.
  rewrite (tasks_of_abs _ _ Ha), (queues_of_abs _ _ Ha), Hi. apply Hm.
Qed.
Lemma quiet_apart ids s s' : quiet s s' → ids_apart ids s → ids_apart ids s'.
Proof. intros (Ha & _ & Hi) H id. rewrite (tasks_of_abs _ _ Ha), Hi. apply H. Qed.

Lemma grows_rest k s s' : grows s s' → rest_ok k s → rest_ok k s'.
Proof. intros [H _]. destruct k; cbn; naive_solver. Qed.
Lemma grows_point t s s' : grows s s' → point_ok t s → point_ok t s'.
Proof.
  intros H. destruct t as [|op k|op k|r k| | | | | | |]; cbn; try (by apply grows_rest);
    destruct H; naive_solver.
Qed.

Lemma put_queue_grows name q s : grows s (set_queues (insert name q) s).
Proof.
  split; [|done]. intros n. unfold has_queue. cbn. rewrite lookup_insert. by case_decide.
Qed.
Lemma put_queue_maps name q s : maps_ok s → maps_ok (set_queues (insert name q) s).
Proof.
  intros Hm id t Ht. destruct (Hm id t Ht) as [Hq Hi]. split; [|exact Hi].
  by apply (put_queue_grows name q s).
Qed.
Lemma drop_task_maps id s : maps_ok s → maps_ok (set_in_flight (delete id) s).
Proof. intros Hm i t Ht. cbn in Ht. apply lookup_delete_Some in Ht as [_ Ht]. exact (Hm i t Ht). Qed.
Lemma put_task_maps id t s :
  has_queue s (t_queue_name t) → id ∈ issued (host s) → maps_ok s → maps_ok (set_in_flight (insert id t) s).
Proof.
  intros Hq Hi Hm i t' Ht. cbn in Ht. apply lookup_insert_Some in Ht as [[<- <-]|[_ Ht]]; [done|exact (Hm i t' Ht)].
Qed.

(** *** Steps that leave the maps alone *)

Lemma lost_Ret t s t' s' : step t s = (Ret t', s') → lost t s = ∅.
Proof. intros H. unfold lost. by rewrite H. Qed.

Lemma keeps_quiet t s t' s' :
  maps_ok s → thread_ok t s → quiet s s' → point_ok t' s' →
  hand t' = hand t → hand_ids t' `sublist_of` hand_ids t → brought t s = ∅ → taken t s = ∅ → lost t s = ∅ →
  step_keeps t s t' s'.
Proof.
  intros Hm (Hp & Hnd & Ha) Hq Hp' Hh Hi Hb Ht Hl. split.
  - by eapply quiet_maps.
  - split; [done|]. split; [by eapply sublist_NoDup|]. eapply quiet_apart; [done|].
    intros id Hid. apply Ha. by eapply elem_of_sublist.
  - by apply quiet_grows.
  - intros id. destruct Hq as (Habs & _). rewrite (tasks_of_abs _ _ Habs).
    pose proof (λ H, elem_of_sublist _ _ id H Hi). tauto.
  - destruct Hq as (Habs & _). rewrite Habs, Hh, Hb, Ht, Hl. multiset_solver.
Qed.

Lemma keeps_panic t s msg s' :
  maps_ok s → step t s = (Panic msg, s') → quiet s s' → brought t s = ∅ → taken t s = ∅ →
  step_keeps t s Dropped s'.
Proof.
  intros Hm Hs Hq Hb Ht. split.
  - by eapply quiet_maps.
  - split; [done|]. split; [apply NoDup_nil_2|]. by intros id ?%not_elem_of_nil.
  - by apply quiet_grows.
  - destruct Hq as (Habs & _). intros id [?%not_elem_of_nil|H]; [done|].
    rewrite (tasks_of_abs _ _ Habs) in H. auto.
  - destruct Hq as (Habs & _). unfold lost. rewrite Habs, Hs, Hb, Ht. cbn [fst hand]. multiset_solver.
Qed.

Lemma log_spec op k s :
  ∃ t, log op k s = (Ret t, s) ∧ hand t = rest_hand k ∧ hand_ids t = rest_ids k ∧
    (point_ok t s ↔ rest_ok k s).
Proof.
  unfold log. rewrite bind_gets. destruct (wal (store s)); by eexists.
Qed.

Lemma vec_with_capacity_cases count size s :
  vec_with_capacity count size s = (Ret tt, s) ∨ ∃ msg, vec_with_capacity count size s = (Panic msg, s).
Proof. unfold vec_with_capacity. destruct (_ <? _)%Z; [right; by eexists|by left]. Qed.

(** *** Taking from a queue or from the tasks *)

Lemma messages_take name q0 q s :
  queues (store s) !! name = Some q0 →
  messages (abs (set_queues (insert name q) s)) ⊎ payloads q0 = messages (abs s) ⊎ payloads q.
Proof.
  intros Hq. pose proof (messages_set_queue (abs s) name q) as H.
  change (a_queues (abs s)) with (queues (store s)) in H. by rewrite Hq in H.
Qed.

Lemma messages_drop id t s :
  in_flight (store s) !! id = Some t →
  messages (abs s) = {[+ t_data t +]} ⊎ messages (abs (set_in_flight (delete id) s)).
Proof. apply (messages_del_task (abs s) id t). Qed.

Lemma messages_put id t s :
  in_flight (store s) !! id = None →
  messages (abs (set_in_flight (insert id t) s)) = {[+ t_data t +]} ⊎ messages (abs s).
Proof. apply (messages_set_task (abs s) id t). Qed.

(** Popping items under new identifiers. *)
Lemma keeps_pop req name items rest ids s s1 t' :
  maps_ok s → queues (store s) !! name = Some (items ++ rest) →
  abs s1 = abs (set_queues (insert name rest) s) →
  NoDup ids → Forall (λ id, id ∉ issued (host s)) ids →
  issued (host s1) = list_to_set ids ∪ issued (host s) →
  hand t' = payloads items → hand_ids t' = ids → (has_queue s1 name → point_ok t' s1) →
  taken (Start req) s = ∅ → lost (Start req) s = ∅ →
  step_keeps (Start req) s t' s1.
Proof.
  intros Hm Hq Ha Hnd Hnew Hi Hh Hids Hp Ht Hl. rewrite Forall_forall in Hnew.
  assert (grows s s1) as Hg.
  { split; [|rewrite Hi; set_solver]. intros n H. unfold has_queue. rewrite (queues_of_abs _ _ Ha).
    by apply (put_queue_grows name rest s). }
  split; [| |done| |].
  - intros id t Hid. rewrite (tasks_of_abs _ _ Ha) in Hid. destruct (Hm id t Hid) as [H1 H2].
    split; [by apply Hg|]. rewrite Hi. set_solver.
  - split; [apply Hp, Hg; by eexists|]. rewrite Hids. split; [done|]. intros id Hid. split.
    + rewrite (tasks_of_abs _ _ Ha). cbn. destruct (in_flight (store s) !! id) as [t|] eqn:E; [|done].
      destruct (Hnew id Hid). by apply (Hm id t).
    + rewrite Hi. set_solver.
  - intros id. rewrite Hids, (tasks_of_abs _ _ Ha). cbn. intros [Hid|?]; [|auto]. right; right. by apply Hnew.
  - rewrite Ha, Hh, Ht, Hl. cbn [hand brought]. pose proof (messages_take name _ rest s Hq) as H.
    rewrite payloads_app in H. multiset_solver.
Qed.

(** Taking a task out. *)
Lemma keeps_drop t id task s t' s1 :
  maps_ok s → in_flight (store s) !! id = Some task → s1 = set_in_flight (delete id) s →
  hand_ids t' = [] ∨ hand_ids t' = [id] → point_ok t' s1 →
  hand t = ∅ → brought t s = ∅ → hand t' ⊎ taken t s ⊎ lost t s = {[+ t_data task +]} →
  step_keeps t s t' s1.
Proof.
  intros Hm Htask -> Hids Hp Hh Hb Hacc. destruct (Hm id task Htask) as [_ Hissued].
  split; [by apply drop_task_maps| |split; [done|set_solver]| |].
  - split; [done|]. split.
    + destruct Hids as [-> | ->]; [apply NoDup_nil_2|apply NoDup_singleton].
    + intros i Hi. assert (i = id) as -> by (destruct Hids as [E|E]; rewrite E in Hi; set_solver).
      split; [apply lookup_delete_eq|done].
  - intros i [Hi|[u Hu]].
    + right; left. destruct Hids as [E|E]; rewrite E in Hi; [by apply not_elem_of_nil in Hi|].
      apply list_elem_of_singleton in Hi as ->. by eexists.
    + cbn in Hu. apply lookup_delete_Some in Hu as [_ Hu]. right; left. by eexists.
  - rewrite (messages_drop id task s Htask), Hh, Hb, <- Hacc. multiset_solver.
Qed.

(** *** Putting into a queue or among the tasks *)

Lemma keeps_put_queue t name q s resp :
  maps_ok s →
  payloads q ⊎ taken t s ⊎ lost t s = payloads (default [] (queues (store s) !! name)) ⊎ hand t ⊎ brought t s →
  step_keeps t s (Finished resp) (set_queues (insert name q) s).
Proof.
  intros Hm Hacc. split.
  - by apply put_queue_maps.
  - split; [done|]. split; [apply NoDup_nil_2|]. by intros id ?%not_elem_of_nil.
  - apply put_queue_grows.
  - intros id [?%not_elem_of_nil|?]; auto.
  - pose proof (messages_set_queue (abs s) name q) as H.
    change (a_set_queue name q (abs s)) with (abs (set_queues (insert name q) s)) in H.
    change (a_queues (abs s)) with (queues (store s)) in H. cbn [hand]. multiset_solver.
Qed.

Lemma keeps_put_task t id task s s1 t' :
  maps_ok s → thread_ok t s → quiet s s1 → has_queue s (t_queue_name task) →
  hand_ids t = id :: hand_ids t' → hand t = {[+ t_data task +]} ⊎ hand t' →
  (grows s (set_in_flight (insert id task) s1) → point_ok t' (set_in_flight (insert id task) s1)) →
  brought t s = ∅ → taken t s = ∅ → lost t s = ∅ →
  step_keeps t s t' (set_in_flight (insert id task) s1).
Proof.
  intros Hm (Hp & Hnd & Ha) Hq Hqueue Hids Hh Hp' Hb Ht Hl. rewrite Hids in Hnd, Ha.
  apply NoDup_cons in Hnd as [Hid Hnd]. pose proof Hq as (Habs & _ & Hi).
  destruct (Ha id) as [Hfree Hissued]; [by left|].
  assert (grows s (set_in_flight (insert id task) s1)) as Hg by exact (quiet_grows s s1 Hq).
  split; [|split_and!|done| |].
  - apply put_task_maps; [by apply (quiet_grows s s1)|by rewrite Hi|by eapply quiet_maps].
  - by apply Hp'.
  - done.
  - intros i Hin. cbn. rewrite lookup_insert_ne by (intros ->; done). rewrite (tasks_of_abs _ _ Habs), Hi.
    apply Ha. by right.
  - intros i. rewrite Hids. cbn. rewrite (tasks_of_abs _ _ Habs). intros [Hin|[u Hu]]; [left; by right|].
    apply lookup_insert_Some in Hu as [[<- _]|[_ Hu]]; [left; by left|]. right; left. by eexists.
  - rewrite (messages_put id task s1) by by rewrite (tasks_of_abs _ _ Habs).
    rewrite Habs, Hb, Ht, Hl, Hh. multiset_solver.
Qed.

Lemma keeps_stamp t id n s s1 resp :
  maps_ok s → quiet s s1 → hand t = ∅ → brought t s = ∅ → taken t s = ∅ → lost t s = ∅ →
  step_keeps t s (Finished resp) (set_in_flight (alter (set_consumed_at n) id) s1).
Proof.
  intros Hm Hq Hh Hb Ht Hl. pose proof Hq as (Habs & _ & Hi).
  assert (∀ i u, in_flight (store (set_in_flight (alter (set_consumed_at n) id) s1)) !! i = Some u →
    ∃ v, in_flight (store s) !! i = Some v ∧ t_queue_name v = t_queue_name u) as Hlook.
  { intros i u Hu. cbn in Hu. rewrite lookup_alter, (tasks_of_abs _ _ Habs) in Hu.
    case_decide; [subst i|by exists u]. destruct (in_flight (store s) !! id) as [v|]; [|done].
    injection Hu as <-. by exists v. }
  split.
  - intros i u (v & Hv & <-)%Hlook. destruct (Hm i v Hv) as [H1 H2].
    split; [by apply (quiet_grows s s1)|]. cbn. by rewrite Hi.
  - split; [done|]. split; [apply NoDup_nil_2|]. by intros i ?%not_elem_of_nil.
  - exact (quiet_grows s s1 Hq).
  - intros i [?%not_elem_of_nil|[u (v & Hv & _)%Hlook]]; [done|]. right; left. by eexists.
  - rewrite Hh, Hb, Ht, Hl, <- Habs. cbn [hand].
    assert (messages (abs (set_in_flight (alter (set_consumed_at n) id) s1)) = messages (abs s1)) as ->;
      [|multiset_solver].
    destruct (in_flight (store s1) !! id) as [v|] eqn:Hv.
    + rewrite <- (messages_update_task (abs s1) id v (set_consumed_at n v)) by done.
      unfold abs, a_set_task. cbn. by rewrite (alter_as_insert _ id _ v).
    + f_equal. unfold abs. cbn. f_equal. apply map_eq. intros i. rewrite lookup_alter.
      case_decide as E; [subst i; by rewrite Hv|done].
Qed.

(** *** One lemma per kind of point *)

(** The step returned: rewrite what it did. *)
Lemma advance_Ret t s t' s' : step t s = (Ret t', s') → advance t s = (t', s').
Proof. intros H. unfold advance. by rewrite H. Qed.
Lemma advance_Panic t s msg s' : step t s = (Panic msg, s') → advance t s = (Dropped, s').
Proof. intros H. unfold advance. by rewrite H. Qed.

Definition keeps (t : Thread) (s : Sys) : Prop := step_keeps t s (advance t s).1 (advance t s).2.

Lemma keeps_Ret t s t' s' :
  step t s = (Ret t', s') → (lost t s = ∅ → step_keeps t s t' s') → keeps t s.
Proof. intros H Hk. unfold keeps. rewrite (advance_Ret _ _ _ _ H). apply Hk. by eapply lost_Ret. Qed.

Lemma keeps_Panic t s msg s' :
  maps_ok s → step t s = (Panic msg, s') → quiet s s' → brought t s = ∅ → taken t s = ∅ → keeps t s.
Proof. intros Hm H ? ? ?. unfold keeps. rewrite (advance_Panic _ _ _ _ H). by eapply keeps_panic. Qed.

(** A step that only moves the thread. *)
Lemma keeps_move t s t' s' :
  maps_ok s → thread_ok t s → step t s = (Ret t', s') → quiet s s' → point_ok t' s' →
  hand t' = hand t → hand_ids t' = hand_ids t → brought t s = ∅ → taken t s = ∅ → keeps t s.
Proof.
  intros ? ? ? ? ? ? Hi ? ?. eapply keeps_Ret; [done|]. intros. apply keeps_quiet; try done. by rewrite Hi.
Qed.

Lemma keeps_log t s op k :
  maps_ok s → thread_ok t s → step t s = log op k s → rest_ok k s →
  hand t = rest_hand k → hand_ids t = rest_ids k → brought t s = ∅ → taken t s = ∅ → keeps t s.
Proof.
  intros Hm Hok Hs Hk Hh Hi Hb Ht. destruct (log_spec op k s) as (t' & Hl & Hh' & Hi' & Hp).
  eapply keeps_move; [done|done|by rewrite Hs|done|by apply Hp|congruence|congruence|done|done].
Qed.

Lemma keeps_start_log req op k s :
  maps_ok s → thread_ok (Start req) s → rest_ok k s → rest_hand k = ∅ → rest_ids k = [] →
  taken (Start req) s = ∅ →
  step (Start req) s = log op k s ∨ (∃ e, step (Start req) s = (Ret (failed e), s)) → keeps (Start req) s.
Proof.
  intros Hm Hok Hk Hh Hi Ht [Hs|[e Hs]]; [by eapply keeps_log|]. by eapply keeps_move.
Qed.

Lemma keeps_start_dequeue name s :
  maps_ok s → thread_ok (Start (RDequeue name)) s → keeps (Start (RDequeue name)) s.
Proof.
  intros Hm Hok. destruct (queues (store s) !! name) as [[|item rest]|] eqn:Hq.
  1,3: eapply keeps_move; [done|done|cbn [step start]; unfold get_queue; rewrite bind_gets, Hq; reflexivity|done..].
  destruct (new_uuid (set_queues (insert name rest) s)) as [[id|msg] s1] eqn:Hn;
    [|unfold new_uuid, on_host in Hn; by destruct (new_v4 _)].
  destruct (log_spec (WDequeued name id) (KDeliver name item id) s1) as (t' & Hl & Hh & Hids & Hp).
  apply new_uuid_Ret in Hn as Hn'. destruct Hn' as (Ha & _ & Hnew & Hi).
  eapply (keeps_Ret _ _ t' s1).
  { cbn [step start]. unfold get_queue. rewrite bind_gets, Hq. unfold put_queue. rewrite bind_modify.
    by erewrite bind_step by exact Hn. }
  intros Hlost. eapply (keeps_pop (RDequeue name) name [item] rest [id]); try done.
  - apply NoDup_singleton.
  - apply Forall_singleton. exact Hnew.
  - rewrite Hi. clear. set_solver.
  - rewrite Hh, payloads_cons, payloads_nil. cbn [rest_hand]. by rewrite gmultiset_disj_union_right_id.
  - intros H. by apply Hp.
Qed.

Lemma pop_upto_app count q : (pop_upto count q).1 ++ (pop_upto count q).2 = q.
Proof.
  revert count. induction q as [|x q IH]; intros count; [done|]. cbn [pop_upto].
  destruct (count <=? 0)%Z; [done|]. specialize (IH (count - 1)%Z).
  destruct (pop_upto (count - 1) q) as [a b]. cbn in *. by rewrite IH.
Qed.

Lemma new_uuids_returns n s : ∃ ids s', new_uuids n s = (Ret ids, s').
Proof.
  revert s. induction n as [|n IH]; intros s; [by eexists _, _|]. cbn [new_uuids].
  unfold new_uuid at 1, on_host at 1, mbind at 1, M_bind at 1. destruct (new_v4 (host s)) as [id h].
  destruct (IH (mkSys (store s) h)) as (ids & s' & H). erewrite bind_step by exact H. by eexists _, _.
Qed.

Lemma keeps_start_dequeue_batch name count s :
  maps_ok s → thread_ok (Start (RDequeueBatch name count)) s → keeps (Start (RDequeueBatch name count)) s.
Proof.
  intros Hm Hok. destruct (queues (store s) !! name) as [[|item0 rest0]|] eqn:Hq.
  1,3: eapply keeps_move; [done|done|cbn [step start]; unfold get_queue; rewrite bind_gets, Hq; reflexivity|done..].
  destruct (vec_with_capacity_cases count size_of_QueueItem s) as [Hv|[msg Hv]].
  2:{ eapply (keeps_Panic _ _ msg s); try done. cbn [step start]. unfold get_queue. rewrite bind_gets, Hq.
      unfold mbind, M_bind. by rewrite Hv. }
  pose proof (pop_upto_app count (item0 :: rest0)) as Happ.
  assert (step (Start (RDequeueBatch name count)) s =
    (let '(popped_items, rest) := pop_upto count (item0 :: rest0) in
     put_queue name rest;;
     if bool_decide (popped_items = []) then mret (Finished (RTasks [])) else
     task_ids ← new_uuids (length popped_items);
     log (WDequeuedBatch name task_ids) (KDeliverBatch name popped_items task_ids)) s) as Hs.
  { cbn [step start]. unfold get_queue. rewrite bind_gets, Hq. by erewrite bind_step by exact Hv. }
  destruct (pop_upto count (item0 :: rest0)) as [items rest]. cbn [fst snd] in Happ.
  unfold put_queue in Hs. rewrite bind_modify in Hs. case_bool_decide as Hempty.
  { eapply keeps_Ret; [exact Hs|]. intros Hlost. eapply (keeps_pop _ name items rest []); try done.
    - by rewrite Happ.
    - apply NoDup_nil_2.
    - set_solver.
    - by subst items. }
  destruct (new_uuids_returns (length items) (set_queues (insert name rest) s)) as (ids & s1 & Hn).
  destruct (log_spec (WDequeuedBatch name ids) (KDeliverBatch name items ids) s1) as (t' & Hl & Hh & Hids & Hp).
  erewrite bind_step in Hs by exact Hn. rewrite Hl in Hs.
  apply new_uuids_Ret in Hn as (Ha & _ & Hlen & Hnd & Hnew & Hi).
  eapply keeps_Ret; [exact Hs|]. intros Hlost. eapply (keeps_pop _ name items rest ids); try done.
  - by rewrite Happ.
  - intros H. by apply Hp.
Qed.

Lemma keeps_start_settle t id task s :
  maps_ok s → in_flight (store s) !! id = Some task →
  (∃ op k, step t s = log op k (set_in_flight (delete id) s) ∧
     (rest_ids k = [] ∨ rest_ids k = [id]) ∧ (has_queue s (t_queue_name task) → rest_ok k s) ∧
     rest_hand k ⊎ taken t s = {[+ t_data task +]}) →
  hand t = ∅ → brought t s = ∅ → keeps t s.
Proof.
  intros Hm Htask (op & k & Hs & Hids & Hk & Hacc) Hh Hb.
  destruct (log_spec op k (set_in_flight (delete id) s)) as (t1 & Hl & Hh1 & Hi1 & Hp1).
  rewrite Hl in Hs. eapply keeps_Ret; [exact Hs|]. intros Hlost.
  eapply (keeps_drop _ id task); try done.
  - by rewrite Hi1.
  - apply Hp1. destruct (Hm id task Htask) as [Hq _]. specialize (Hk Hq). by destruct k.
  - rewrite Hh1, Hlost, <- Hacc. multiset_solver.
Qed.

Lemma contains_step {A} name (k : bool → M Sys A) s :
  (exists_ ← contains_queue name; k exists_) s = k (bool_decide (has_queue s name)) s.
Proof. done. Qed.
Lemma get_task_step {A} id (k : option InFlightTask → M Sys A) s :
  (t ← get_task id; k t) s = k (in_flight (store s) !! id) s.
Proof. done. Qed.
Lemma get_queue_step {A} name (k : option (list QueueItem) → M Sys A) s :
  (q ← get_queue name; k q) s = k (queues (store s) !! name) s.
Proof. done. Qed.

Lemma keeps_start req s : maps_ok s → thread_ok (Start req) s → keeps (Start req) s.
Proof.
  intros Hm Hok.
  destruct req as [name|name d|name|id|id|id d|name ds|name count|ids];
    [| |by apply keeps_start_dequeue|..|by apply keeps_start_dequeue_batch|by eapply keeps_move].
  - eapply (keeps_start_log _ (WCreateQueue name) (KInsertQueue name)); try done.
    cbn [step start]. rewrite contains_step. case_bool_decide; [right; by eexists|by left].
  - eapply (keeps_start_log _ (WEnqueue name d) (KPush name [d])); try done.
    cbn [step start]. rewrite contains_step. case_bool_decide; [by left|right; by eexists].
  - destruct (in_flight (store s) !! id) as [task|] eqn:Ht.
    + eapply (keeps_start_settle _ id task); try done. exists (WAck id), KAcked. split_and!; try done.
      * cbn [step start]. by rewrite get_task_step, Ht.
      * by left.
      * cbn [rest_hand taken]. unfold task_of. rewrite Ht. by rewrite gmultiset_disj_union_left_id.
    + eapply keeps_move; [done|done|cbn [step start]; rewrite get_task_step, Ht; reflexivity|done..|].
      cbn [taken]. unfold task_of. by rewrite Ht.
  - destruct (in_flight (store s) !! id) as [task|] eqn:Ht.
    + eapply (keeps_start_settle _ id task); try done. exists (WNack id), (KRequeue id task). split_and!; try done.
      * cbn [step start]. by rewrite get_task_step, Ht.
      * by right.
      * cbn [rest_hand taken]. by rewrite gmultiset_disj_union_right_id.
    + by eapply keeps_move; [done|done|cbn [step start]; rewrite get_task_step, Ht; reflexivity|..].
  - eapply (keeps_start_log _ (WExtendVisibility id d) (KStamp id)); try done.
    cbn [step start]. rewrite get_task_step. destruct (_ !! _); [by left|right; by eexists].
  - eapply (keeps_start_log _ (WEnqueueBatch name ds) (KPush name ds)); try done.
    cbn [step start]. rewrite contains_step. case_bool_decide; [by left|right; by eexists].
Qed.

Lemma keeps_log_failed e k s :
  maps_ok s → thread_ok (Logged (Err e) k) s → keeps (Logged (Err e) k) s.
Proof.
  intros Hm Hok. destruct k as [name|name items|name item id|name items ids| |id task|id|ids];
    try (by eapply keeps_move).
  - eapply keeps_Ret; [by apply (push_back_failed e _ name [item])|]. intros Hl. apply keeps_put_queue; [done|].
    rewrite Hl, payloads_app, payloads_cons, payloads_nil. cbn [hand rest_hand brought taken].
    clear. multiset_solver.
  - eapply keeps_Ret; [by apply (push_back_failed e _ name items)|]. intros Hl. apply keeps_put_queue; [done|].
    rewrite Hl, payloads_app. cbn [hand rest_hand brought taken]. clear. multiset_solver.
  - eapply keeps_Ret; [reflexivity|]. intros Hl. apply (keeps_put_task _ id task s s); try done.
    + by destruct Hok.
    + cbn [hand rest_hand failed]. by rewrite gmultiset_disj_union_right_id.
Qed.

Lemma make_task_cases id item name s :
  (∃ t s', make_task id item name s = (Ret t, s') ∧ quiet s s' ∧ t_id t = id ∧ delivery name item t) ∨
  (∃ msg s', make_task id item name s = (Panic msg, s') ∧ quiet s s').
Proof.
  destruct (make_task id item name s) as [[t|msg] s'] eqn:H.
  - left. exists t, s'. split; [done|]. by apply make_task_Ret in H.
  - right. exists msg, s'. split; [done|]. revert H. unfold make_task, mbind, M_bind.
    destruct (now_returns s) as (n & s1 & -> & Hq). unfold u32_add.
    destruct (_ <? _)%Z; [done|]. destruct overflow_checks; [|done]. by intros [= _ <-].
Qed.

Lemma keeps_log_done k s : maps_ok s → thread_ok (Logged (Ok tt) k) s → keeps (Logged (Ok tt) k) s.
Proof.
  intros Hm Hok. destruct k as [name|name items|name item id|name items ids| |id task|id|ids];
    try (by eapply keeps_move).
  - eapply keeps_Ret; [reflexivity|]. intros Hl. apply keeps_put_queue; [done|].
    rewrite Hl, payloads_nil. cbn [hand rest_hand brought taken]. clear. multiset_solver.
  - destruct (queues (store s) !! name) as [q|] eqn:Hq.
    + eapply keeps_Ret; [cbn [step log_done]; rewrite get_queue_step, Hq; reflexivity|].
      intros Hl. apply keeps_put_queue; [done|]. rewrite Hl, payloads_app, payloads_new.
      cbn [hand rest_hand brought taken]. rewrite Hq. cbn [default Datatypes.id]. clear. multiset_solver.
    + eapply keeps_move; [done|done|cbn [step log_done]; rewrite get_queue_step, Hq; reflexivity|done..| |done].
      cbn [brought]. by rewrite Hq.
  - destruct (make_task_cases id item name s) as [(t & s1 & Ht & Hquiet & Hid & Hd)|(msg & s1 & Ht & Hquiet)].
    + pose proof Hd as (Hdata & Hname & _).
      eapply keeps_move; [done|done|cbn [step log_done]; by erewrite bind_step by exact Ht|done|..]; try done.
      * cbn [point_ok]. rewrite Hname. destruct Hok as [Hp _]. by apply (quiet_grows s s1 Hquiet).
      * cbn [hand rest_hand]. by rewrite Hdata.
      * cbn [hand_ids rest_ids]. by rewrite Hid.
    + eapply (keeps_Panic _ _ msg s1); try done. cbn [step log_done]. unfold mbind, M_bind. by rewrite Ht.
  - eapply keeps_move; [done|done|reflexivity|done| |done..]. exact (proj1 Hok).
  - eapply keeps_Ret; [reflexivity|]. intros Hl. apply keeps_quiet; try done; [exact (proj1 Hok)|].
    apply sublist_nil_l.
  - destruct (now_returns s) as (n & s1 & Hn & Hq).
    eapply keeps_Ret; [cbn [step log_done]; erewrite bind_step by exact Hn; reflexivity|].
    intros Hl. by apply keeps_stamp.
Qed.

Lemma keeps_insert_tasks name ids i items tasks s :
  maps_ok s → thread_ok (InsertTasks name ids i items tasks) s → keeps (InsertTasks name ids i items tasks) s.
Proof.
  intros Hm Hok. pose proof Hok as ((Hq & Hlen) & Hnd & Ha). destruct items as [|item items].
  { eapply keeps_move; [done|done|reflexivity|done..| |done|done].
    cbn [hand_ids]. rewrite drop_ge; [done|]. cbn in Hlen. lia. }
  cbn [length] in Hlen. destruct (lookup_lt_is_Some_2 ids i) as [id Hid]; [lia|].
  destruct (make_task_cases id item name s) as [(u & s1 & Ht & Hquiet & Hu & Hd)|(msg & s1 & Ht & Hquiet)].
  - pose proof Hd as (Hdata & Hname & _).
    eapply keeps_Ret; [cbn [step]; rewrite Hid; cbv iota; erewrite bind_step by exact Ht; reflexivity|].
    intros Hl. apply (keeps_put_task _ id u s s1); try done.
    + by rewrite Hname.
    + cbn [hand_ids]. by rewrite (drop_S _ id).
    + cbn [hand]. by rewrite payloads_cons, Hdata.
    + intros Hg. split; [by apply Hg|lia].
  - eapply (keeps_Panic _ _ msg s1); try done. cbn [step]. rewrite Hid. unfold mbind, M_bind. by rewrite Ht.
Qed.

Lemma keeps_requeue task s : maps_ok s → thread_ok (Requeue task) s → keeps (Requeue task) s.
Proof.
  intros Hm Hok. pose proof Hok as ([q Hq] & _).
  assert (∃ name q', requeue task s = (Ret (Ok tt), set_queues (insert name q') s) ∧
    payloads q' = payloads (default [] (queues (store s) !! name)) ⊎ {[+ t_data task +]})
    as (name & q' & Hr & Hp).
  { unfold requeue. destruct (_ <=? _)%Z.
    - exists (dlq_name (t_queue_name task)),
        (default [] (queues (store s) !! dlq_name (t_queue_name task)) ++ [mkQueueItem (t_data task) (t_attempts task)]).
      split; [reflexivity|]. by rewrite payloads_app, payloads_cons, payloads_nil, gmultiset_disj_union_right_id.
    - exists (t_queue_name task), (mkQueueItem (t_data task) (t_attempts task) :: q).
      split; [by rewrite get_queue_step, Hq|]. rewrite payloads_cons, Hq. cbn [default Datatypes.id qi_data].
      by rewrite (comm_L (⊎)). }
  eapply keeps_Ret; [cbn [step]; erewrite bind_step by exact Hr; reflexivity|].
  intros Hl. apply keeps_put_queue; [done|]. rewrite Hl, Hp. cbn [hand brought taken]. clear. multiset_solver.
Qed.

(** Every step of a thread of a well-formed pool keeps what it should. *)
Lemma advance_keeps t s : maps_ok s → thread_ok t s → keeps t s.
Proof.
  intros Hm Hok. destruct t as [req|op k|op k|[[]|e] k|name task|name ids i items tasks|task|ids todo missing|ids|resp|].
  - by apply keeps_start.
  - eapply keeps_move; [done|done|reflexivity|done|exact (proj1 Hok)|done..].
  - destruct (wal_append_returns op s) as (r & s1 & Hw & Hq & _).
    eapply keeps_move; [done|done|cbn [step]; by erewrite bind_step by exact Hw|done|..]; try done.
    cbn [point_ok]. destruct Hok as [Hp _]. eapply grows_rest; [by apply quiet_grows|exact Hp].
  - by apply keeps_log_done.
  - by apply keeps_log_failed.
  - eapply keeps_Ret; [reflexivity|]. intros Hl. apply (keeps_put_task _ (t_id task) task s s); try done.
    + by destruct Hok.
    + cbn [hand]. by rewrite gmultiset_disj_union_right_id.
  - by apply keeps_insert_tasks.
  - by apply keeps_requeue.
  - destruct todo as [|id todo]; [|by eapply keeps_move].
    cbn [step] in *. destruct (decide (missing = [])) as [->|Hne].
    + by eapply (keeps_log _ _ (WAckBatch ids) (KRemove ids)).
    + eapply keeps_move; [done|done|cbn [step]; by rewrite bool_decide_true|done..].
  - destruct ids as [|id ids]; [by eapply keeps_move|].
    destruct (in_flight (store s) !! id) as [task|] eqn:Ht.
    + eapply keeps_Ret; [reflexivity|]. intros Hl. eapply (keeps_drop _ id task); try done.
      * by left.
      * rewrite Hl. cbn [hand taken]. unfold task_of. rewrite Ht. clear. multiset_solver.
    + eapply keeps_move; [done|done|reflexivity| |done..|].
      * split; [|done]. unfold abs, set_in_flight. cbn. by rewrite delete_id.
      * cbn [taken]. unfold task_of. by rewrite Ht.
  - by eapply keeps_move.
  - by eapply keeps_move.
Qed.

(** ** Pools *)

Lemma hands_cons t ts : hands (t :: ts) = hand t ⊎ hands ts.
Proof. done. Qed.
Lemma hands_app ts us : hands (ts ++ us) = hands ts ⊎ hands us.
Proof.
  induction ts as [|t ts IH]; [symmetry; apply gmultiset_disj_union_left_id|].
  cbn [app]. by rewrite !hands_cons, IH, (assoc_L (⊎)).
Qed.

(** A pool around one of its threads. *)
Lemma pool_split (ts : list Thread) i t t' :
  ts !! i = Some t → ∃ l k, ts = l ++ t :: k ∧ <[i := t']> ts = l ++ t' :: k.
Proof.
  intros Hi. exists (take i ts), (drop (S i) ts). split; [by rewrite take_drop_middle|].
  by rewrite insert_take_drop by (by eapply lookup_lt_Some).
Qed.

Lemma pool_ids_split l t k :
  NoDup (concat (hand_ids <$> (l ++ t :: k))) ↔
  NoDup (concat (hand_ids <$> (l ++ k))) ∧ NoDup (hand_ids t) ∧
  ∀ id, id ∈ hand_ids t → id ∉ concat (hand_ids <$> (l ++ k)).
Proof.
  rewrite !fmap_app, fmap_cons, !concat_app. cbn [concat].
  rewrite (Permutation_app_swap_app (concat (hand_ids <$> l))), NoDup_app. naive_solver.
Qed.

Lemma elem_of_pool_ids (ts : list Thread) id :
  id ∈ concat (hand_ids <$> ts) ↔ ∃ t, t ∈ ts ∧ id ∈ hand_ids t.
Proof.
  induction ts as [|t ts IH]; cbn.
  - split; [by intros ?%not_elem_of_nil|by intros (t & ?%not_elem_of_nil & _)].
  - rewrite elem_of_app, IH. setoid_rewrite elem_of_cons. naive_solver.
Qed.

(** Another thread is not disturbed by a step. *)
Lemma thread_undisturbed t s t' s' u :
  step_keeps t s t' s' → thread_ok u s → (∀ id, id ∈ hand_ids t → id ∉ hand_ids u) → thread_ok u s'.
Proof.
  intros Hk (Hp & Hnd & Ha) Hdisj. split; [eapply grows_point; [by eapply keeps_grows|exact Hp]|].
  split; [done|]. intros id Hid. destruct (Ha id Hid) as [Hfree Hissued]. split.
  - destruct (in_flight (store s') !! id) as [v|] eqn:E; [|done]. exfalso.
    destruct (keeps_ids _ _ _ _ Hk id) as [H|[[w H]|H]]; [right; by eexists|by eapply Hdisj|congruence|done].
  - destruct (keeps_grows _ _ _ _ Hk) as [_ Hi]. by apply Hi.
Qed.

Lemma pool_step_ok l t k s t' s' :
  pool_ok (l ++ t :: k, s) → step_keeps t s t' s' → pool_ok (l ++ t' :: k, s').
Proof.
  unfold pool_ok. cbn [fst snd]. intros (Hm & Hall & Hnd) Hk.
  apply Forall_app in Hall as [Hl [Ht Hkk]%Forall_cons].
  apply pool_ids_split in Hnd as (Hnd & Hnt & Hdisj).
  assert (∀ u, u ∈ l ++ k → thread_ok u s ∧ ∀ id, id ∈ hand_ids t → id ∉ hand_ids u) as Hothers.
  { intros u Hu. split.
    - rewrite Forall_forall in Hl, Hkk. apply elem_of_app in Hu as [?|?]; auto.
    - intros id Hid Hu'. apply (Hdisj id Hid), elem_of_pool_ids. eauto. }
  split; [by eapply keeps_maps|]. split.
  - apply Forall_app; split; [|constructor; [by eapply keeps_thread|]]; apply Forall_forall; intros u Hu;
      (destruct (Hothers u) as [? ?]; [apply elem_of_app; auto|]); by eapply thread_undisturbed.
  - apply pool_ids_split. split; [done|]. destruct (keeps_thread _ _ _ _ Hk) as (_ & Hnt' & Ha').
    split; [done|]. intros id Hid (u & Hu & Hidu)%elem_of_pool_ids. destruct (Hothers u Hu) as [(_ & _ & Hau) Hd].
    destruct (Hau id Hidu) as [Hfree Hissued].
    destruct (keeps_ids _ _ _ _ Hk id) as [H|[[w H]|H]]; [by left|by eapply Hd|congruence|done].
Qed.

Lemma pool_cancel_ok l t k s : pool_ok (l ++ t :: k, s) → pool_ok (l ++ Dropped :: k, s).
Proof.
  unfold pool_ok. cbn [fst snd]. intros (Hm & Hall & Hnd). apply pool_ids_split in Hnd as (Hnd & _ & _).
  apply Forall_app in Hall as [Hl [_ Hk]%Forall_cons]. split; [done|]. split.
  - apply Forall_app; split; [done|]. constructor; [|done].
    split; [done|]. split; [apply NoDup_nil_2|by intros id ?%not_elem_of_nil].
  - apply pool_ids_split. split; [done|]. split; [apply NoDup_nil_2|by intros id ?%not_elem_of_nil].
Qed.

(** One event: the pool stays well formed, and the account balances. *)
Lemma event_keeps e ts s ts' s' :
  pool_ok (ts, s) → pool_event e (ts, s) = Some (ts', s') →
  pool_ok (ts', s') ∧
  let a := event_account e (ts, s) in
  messages (abs s') ⊎ hands ts' ⊎ a_taken a ⊎ a_lost a = messages (abs s) ⊎ hands ts ⊎ a_brought a.
Proof.
  intros Hok He. destruct e as [i|i]; cbn [pool_event] in He; destruct (ts !! i) as [t|] eqn:Hi; try done;
    cbn [event_account fst snd]; rewrite Hi; cbn [a_taken a_lost a_brought].
  - destruct (done t || blocked ts t); [done|].
    destruct (advance t s) as [t' s1] eqn:Ha. injection He as <- <-.
    destruct (pool_split ts i t t' Hi) as (l & k & Hts & ->). rewrite Hts in Hok |- *.
    assert (step_keeps t s t' s1) as Hk.
    { pose proof Hok as (Hm & Hall & _). apply Forall_app in Hall as [_ [Ht _]%Forall_cons].
      pose proof (advance_keeps t s Hm Ht) as H. unfold keeps in H. by rewrite Ha in H. }
    split; [by eapply pool_step_ok|]. pose proof (keeps_account _ _ _ _ Hk) as Hacc.
    rewrite !hands_app, !hands_cons. clear -Hacc. multiset_solver.
  - destruct (awaiting t); [|done]. injection He as <- <-.
    destruct (pool_split ts i t Dropped Hi) as (l & k & Hts & ->). rewrite Hts in Hok |- *.
    split; [by eapply pool_cancel_ok|]. rewrite !hands_app, !hands_cons. cbn [hand].
    clear. multiset_solver.
Qed.
End account.
