(* ===== verification/Progress.v ===== *)
(** * Do calls come to their end?

    With a worker for every call they do: every schedule is finite, and while a
    call is unfinished some call can step, because locks are taken in one order.
    With the fixed number of workers of the runtime they may not: a call that waits
    for a shard lock keeps its worker, and the lock's holder waits for the log. *)

From stdpp Require Import prelude base gmap strings list fin_maps.
From Stdlib Require Import ZArith Lia Strings.Byte.
From S2P Require Import Prelude Types Env Wal Memory Spec Commands Refinement Invariant Models Storage Recovery Durability Threads Alone.
Local Open Scope oxide_scope.
Set Warnings "-clear-no-such-hyp,-register-all".

(** ** Well-founded steps *)

(** Pairs in lexicographic order. *)
Definition lex_lt (p q : nat * nat) : Prop := p.1 < q.1 ∨ p.1 = q.1 ∧ p.2 < q.2.

Ltac lexi := (left; cbn; lia) || (right; cbn; lia).

Lemma lex_lt_wf : well_founded lex_lt.
Proof.
  intros [a b]. revert b. induction (lt_wf a) as [a _ IHa]. intros b. induction (lt_wf b) as [b _ IHb].
  constructor. intros [a' b'] [H|[H1 H2]]; cbn in *; [by apply IHa|]. subst a'. by apply IHb.
Qed.

(** One element of a list makes a step. *)
Inductive one_steps {A} (R : A → A → Prop) : list A → list A → Prop :=
| one_steps_intro l x y k : R y x → one_steps R (l ++ y :: k) (l ++ x :: k).

Lemma one_steps_wf {A} (R : A → A → Prop) : well_founded R → well_founded (one_steps R).
Proof.
  intros HR l. induction l as [|x l IHl].
  { constructor. intros l' H. inversion H as [k x y k' HR0 Hl0 Hk]. by destruct k. }
  revert l IHl. induction (HR x) as [x _ IHx]. intros l Hl. induction Hl as [l Hl IHl].
  constructor. intros l' H. inversion H as [k x' y k' Hyx Hl' Hk]; subst.
  destruct k as [|z k]; cbn in Hk; injection Hk as -> <-.
  - apply IHx; [done|]. by constructor.
  - apply IHl. by constructor.
Qed.

Section progress.
Context `{RT : !Runtime} `{CH : !Chrono} `{CD : !WalCodec} `{SH : !Shards}.

(** What is left of a call: the stage, then the elements of its loop. *)
Definition left_of (t : Thread) : nat * nat :=
  match t with
  | Start _ => (7, 0)
  | CheckTasks _ todo _ => (6, length todo)
  | WaitLog _ _ => (5, 0)
  | Appending _ _ => (4, 0)
  | Logged _ _ => (3, 0)
  | InsertTask _ _ | Requeue _ => (2, 0)
  | InsertTasks _ _ _ items _ => (2, length items)
  | RemoveTasks ids => (2, length ids)
  | Finished _ | Dropped => (0, 0)
  end.

Lemma log_left op k s t' s' : log op k s = (Ret t', s') → (left_of t').1 ≤ 5.
Proof. unfold log. rewrite bind_gets. intros [= <- <-]. destruct (wal (store s)); cbn; lia. Qed.

Lemma start_left req s t' s' : start req s = (Ret t', s') → (left_of t').1 < 7.
Proof.
  intros H.
  destruct req; cbn [start] in H; minv; repeat case_match; minv; cbn; try lia;
    match goal with H : log _ _ _ = _ |- _ => apply log_left in H; lia end.
Qed.

Lemma step_left t s t' s' : done t = false → step t s = (Ret t', s') → lex_lt (left_of t') (left_of t).
Proof.
  intros Hd H.
  destruct t as [r|op k|op k|[[]|e] k|name task|name ids i [|item items] tasks|task|ids [|id todo] missing|[|id ids]|resp|];
    try done; cbn [step] in H.
  - left. by apply start_left in H.
  - minv. lexi.
  - minv. lexi.
  - destruct k; cbn [log_done] in H; minv; repeat case_match; minv; lexi.
  - destruct k; cbn [log_failed] in H; minv; lexi.
  - minv. lexi.
  - minv. lexi.
  - case_match; minv. lexi.
  - minv. lexi.
  - case_bool_decide; [minv; lexi|]. left. apply log_left in H. cbn. lia.
  - minv. lexi.
  - minv. lexi.
  - minv. lexi.
Qed.

Lemma advance_left t s : done t = false → lex_lt (left_of (advance t s).1) (left_of t).
Proof.
  intros Hd. unfold advance. destruct (step t s) as [[t'|msg] s'] eqn:H; [by eapply step_left|].
  destruct t; try done; left; cbn; lia.
Qed.

(** ** Some call can step *)

Lemma blocked_spec ts t :
  blocked ts t = true ↔ ∃ g i u, wants t = Some g ∧ ts !! i = Some u ∧ g ∈ guards u.
Proof.
  unfold blocked. destruct (wants t) as [g|]; [|split; [done|by intros (? & ? & ? & ? & _)]].
  rewrite held_spec. split; [intros (i & u & ? & ?); by exists g, i, u|].
  intros (g' & i & u & [= ->] & ? & ?). eauto.
Qed.

Lemma guards_not_done t g : g ∈ guards t → done t = false.
Proof. destruct t; try done; by intros ?%not_elem_of_nil. Qed.

(** A blocked call waits for a holder of a higher lock, and so on: the last one runs. *)
Lemma unblocked_exists ts n : ∀ i t,
  ts !! i = Some t → done t = false → (∀ g, wants t = Some g → 3 - rank g ≤ n) →
  ∃ j u, ts !! j = Some u ∧ done u = false ∧ blocked ts u = false.
Proof.
  induction n as [|n IH]; intros i t Hi Hd Hn;
    (destruct (blocked ts t) eqn:Hb; [|by exists i, t]);
    apply blocked_spec in Hb as (g & j & u & Hw & Hj & Hg); specialize (Hn g Hw).
  - destruct g; cbn in Hn; lia.
  - apply (IH j u); [done|by eapply guards_not_done|]. intros h Hh.
    pose proof (wants_above u h g Hh Hg). lia.
Qed.

(** A step of some call of a pool. *)
Definition steps_to (p' p : Pool) : Prop := ∃ i, pool_event (Run i) p = Some p'.

Lemma steps_to_left ts' s' ts s :
  steps_to (ts', s') (ts, s) → one_steps lex_lt (left_of <$> ts') (left_of <$> ts).
Proof.
  intros [i H]. cbn [pool_event] in H. destruct (ts !! i) as [t|] eqn:Hi; [|done].
  destruct (done t || blocked ts t) eqn:Hb; [done|]. apply orb_false_iff in Hb as [Hd _].
  destruct (advance t s) as [t' s1] eqn:Ha. injection H as <- <-.
  pose proof (advance_left t s Hd) as Hlt. rewrite Ha in Hlt.
  pose proof (take_drop_middle ts i t Hi) as Hts.
  rewrite insert_take_drop by (by eapply lookup_lt_Some). rewrite <- Hts at 3.
  rewrite !fmap_app, !fmap_cons. by constructor.
Qed.

Lemma all_done_or_step p : forallb done p.1 = true ∨ ∃ p', steps_to p' p.
Proof.
  destruct p as [ts s]. cbn [fst]. destruct (forallb done ts) eqn:Hall; [by left|]. right.
  assert (∃ i t, ts !! i = Some t ∧ done t = false) as (i & t & Hi & Hd).
  { clear -Hall. induction ts as [|t ts IH]; [done|]. cbn in Hall.
    apply andb_false_iff in Hall as [H|H]; [by exists 0, t|]. destruct (IH H) as (i & u & ? & ?).
    by exists (S i), u. }
  destruct (unblocked_exists ts 3 i t Hi Hd) as (j & u & Hj & Hdu & Hb); [intros g _; lia|].
  destruct (advance u s) as [u' s'] eqn:Ha. exists (<[j:=u']> ts, s'), j. cbn [pool_event].
  by rewrite Hj, Hdu, Hb, Ha.
Qed.

(** Every call comes to its end: no schedule steps forever, and as long as a
    call is unfinished some call can step, so from any pool, however it was
    reached, the calls can be run until all are done. *)
Theorem calls_complete p :
  Acc steps_to p ∧
  (forallb done p.1 = true ∨ ∃ p', steps_to p' p) ∧
  ∃ idx p', pool_run (Run <$> idx) p = Some p' ∧ forallb done p'.1 = true.
Proof.
  assert (Acc steps_to p) as Hacc.
  { destruct p as [ts s].
    assert (∀ l, Acc (one_steps lex_lt) l → ∀ ts s, l = left_of <$> ts → Acc steps_to (ts, s)) as H.
    { intros l Hl. induction Hl as [l _ IH]. intros us u ->. constructor. intros [us' u'] Hs.
      eapply IH; [by eapply steps_to_left|done]. }
    by eapply H; [apply one_steps_wf, lex_lt_wf|]. }
  split; [done|]. split; [apply all_done_or_step|].
  induction Hacc as [p _ IH]. destruct (all_done_or_step p) as [Hd|[p1 Hs]]; [by exists [], p|].
  destruct (IH p1 Hs) as (idx & p2 & Hrun & Hd). destruct Hs as [i Hi].
  exists (i :: idx), p2. split; [|done]. cbn [fmap list_fmap pool_run]. by rewrite Hi.
Qed.
End progress.

(** ** A bounded number of workers *)

Section workers.
Context `{RT : !Runtime} `{CH : !Chrono} `{CD : !WalCodec} `{SH : !Shards} `{UL : !UuidLaws}.

(** Nothing can happen any more. *)
Definition stuck (workers : nat) (w : Workers) : Prop := ∀ e, worker_event workers e w = None.

(** What the workers run are distinct tasks of the pool. *)
Definition workers_ok (w : Workers) : Prop :=
  NoDup (running w) ∧ Forall (λ i, i < length (pool w).1) (running w).

(** With a worker for each call the workers never get stuck. *)
Lemma workers_suffice workers w :
  workers_ok w → length (pool w).1 ≤ workers → forallb done (pool w).1 = false → ¬ stuck workers w.
Proof.
  destruct w as [run [ts s]]. unfold workers_ok. cbn [running pool fst].
  intros [Hnd Hrun] Hlen Hd Hstuck. destruct (all_done_or_step (ts, s)) as [H|[p' [i Hi]]]; [cbn [fst] in H; congruence|].
  destruct (decide (i ∈ run)) as [Hin|Hout].
  { specialize (Hstuck (Work i)). cbn [worker_event pool running] in Hstuck.
    by rewrite bool_decide_true, Hi in Hstuck. }
  cbn [pool_event] in Hi. destruct (ts !! i) as [t|] eqn:Ht; [|done].
  destruct (done t || blocked ts t) eqn:Hb; [done|]. apply orb_false_iff in Hb as [Hdt Hb].
  specialize (Hstuck (Pick i)). cbn [worker_event pool running] in Hstuck. rewrite Ht in Hstuck.
  assert (ready ts t = true) as Hr.
  { unfold ready. rewrite Hdt. cbn [negb andb]. destruct t; try done.
    unfold blocked in Hb. cbn [wants] in Hb. by rewrite Hb. }
  assert (length (i :: run) ≤ length (seq 0 (length ts))) as Hl.
  { apply submseteq_length, NoDup_submseteq; [by constructor|]. intros j Hj. apply elem_of_seq.
    apply elem_of_cons in Hj as [->|Hj]; [apply lookup_lt_Some in Ht; lia|].
    rewrite Forall_forall in Hrun. specialize (Hrun j Hj). lia. }
  rewrite length_seq in Hl. cbn in Hl.
  by rewrite Hr, bool_decide_true, bool_decide_true in Hstuck by (done || lia).
Qed.

Lemma workers_run_app workers l k w :
  workers_run workers (l ++ k) w =
    match workers_run workers l w with Some w' => workers_run workers k w' | None => None end.
Proof.
  revert w. induction l as [|e l IH]; intros w; [done|]. cbn [app workers_run].
  by destruct (worker_event workers e w).
Qed.

(** Free workers take fresh calls one after the other. *)
Lemma pick_starts workers ts s n k :
  n ≤ workers → (∀ j, k ≤ j < k + n → ∃ req, ts !! j = Some (Start req)) →
  workers_run workers (Pick <$> seq k n) (mkWorkers [] (ts, s)) = Some (mkWorkers (rev (seq k n)) (ts, s)).
Proof.
  intros Hn Hts. induction n as [|n IH]; [done|].
  rewrite seq_S, fmap_app, workers_run_app, IH; [|lia|intros j Hj; apply Hts; lia].
  cbn [fmap list_fmap workers_run worker_event pool running].
  destruct (Hts (k + n)) as [req ->]; [lia|].
  rewrite bool_decide_true by (rewrite length_rev, length_seq; lia).
  rewrite bool_decide_true by (intros Hin; apply list_elem_of_In, in_rev, in_seq in Hin; lia).
  cbn [ready done negb andb]. by rewrite rev_app_distr.
Qed.

(** The log block of a persistent node waits for the log. *)
Lemma log_waits op k s : persistent s = true → log op k s = (Ret (WaitLog op k), s).
Proof.
  intros Hp. unfold log. rewrite bind_gets. unfold persistent in Hp. by destruct (wal (store s)).
Qed.

Lemma enqueue_starts name d s :
  persistent s = true → is_Some (queues (store s) !! name) →
  advance (Start (REnqueue name d)) s = (WaitLog (WEnqueue name d) (KPush name [d]), s).
Proof.
  intros Hp Hq. unfold advance. cbn [step start]. unfold contains_queue. rewrite bind_gets, bool_decide_true by done.
  cbn [negb]. by rewrite log_waits.
Qed.

Lemma dequeue_starts name item rest s :
  persistent s = true → queues (store s) !! name = Some (item :: rest) →
  ∃ id s1, advance (Start (RDequeue name)) s = (WaitLog (WDequeued name id) (KDeliver name item id), s1) ∧
    abs s1 = a_set_queue name rest (abs s).
Proof.
  intros Hp Hq. unfold advance. cbn [step start]. unfold get_queue. rewrite bind_gets, Hq.
  unfold put_queue. rewrite bind_modify.
  destruct (new_uuid (set_queues (insert name rest) s)) as [[id|msg] s1] eqn:Hn;
    [|unfold new_uuid, on_host in Hn; by destruct (new_v4 _)].
  erewrite bind_step by exact Hn. apply new_uuid_Ret in Hn as (Ha & Hp1 & _).
  exists id, s1. rewrite log_waits; [done|]. rewrite Hp1. exact Hp.
Qed.

(** *** Single events *)

Lemma workers_step workers e sched w w1 w' :
  worker_event workers e w = Some w1 → workers_run workers sched w1 = Some w' →
  workers_run workers (e :: sched) w = Some w'.
Proof. intros H. cbn [workers_run]. by rewrite H. Qed.

Lemma pick_event workers run ts s i t :
  ts !! i = Some t → length run < workers → i ∉ run → ready ts t = true →
  worker_event workers (Pick i) (mkWorkers run (ts, s)) = Some (mkWorkers (i :: run) (ts, s)).
Proof. intros Hi Hl Hr Ht. cbn [worker_event pool running]. by rewrite Hi, !bool_decide_true, Ht by done. Qed.

Lemma work_event workers run ts s i t t' s' :
  i ∈ run → ts !! i = Some t → done t = false → blocked ts t = false → advance t s = (t', s') →
  worker_event workers (Work i) (mkWorkers run (ts, s)) = Some (mkWorkers run (<[i:=t']> ts, s')).
Proof.
  intros Hi Ht Hd Hb Ha. cbn [worker_event pool running pool_event].
  by rewrite bool_decide_true, Ht, Hd, Hb, Ha by done.
Qed.

Lemma yield_event workers run ts s i t :
  i ∈ run → ts !! i = Some t → yields ts t = true →
  worker_event workers (Yield i) (mkWorkers run (ts, s)) = Some (mkWorkers (filter (λ j, j ≠ i) run) (ts, s)).
Proof. intros Hi Ht Hy. cbn [worker_event pool running]. by rewrite Ht, bool_decide_true, Hy by done. Qed.

Lemma held_cons t ts g : held (t :: ts) g = bool_decide (g ∈ guards t) || held ts g.
Proof. done. Qed.

Lemma held_starts n req g : held (replicate n (Start req)) g = false.
Proof. by induction n. Qed.

Lemma not_held t g : guards t = [] → bool_decide (g ∈ guards t) = false.
Proof. intros ->. apply bool_decide_false, not_elem_of_nil. Qed.

(** The calls of the deadlock: one that appends to the log, one that holds the
    queue's shard and waits for the log, and enough to occupy the workers. *)
Definition starving (workers : nat) (name : string) (d : bytes) : list ClientRequest :=
  REnqueue name d :: RDequeue name :: replicate workers (REnqueue name d).

Definition starve_schedule (workers : nat) : list WorkerEvent :=
  [Pick 0; Work 0; Work 0; Yield 0; Pick 1; Work 1; Yield 1] ++ (Pick <$> seq 2 workers).

(** The runtime can deadlock: on a persistent node with any number of worker
    threads, a dequeue and that many enqueues and one more on the same queue reach
    a state where no worker can do anything and no call is done: each worker waits
    for the shard lock of the dequeue, which waits for the log, whose holder waits
    for a worker.  A pool with at most as many calls as workers never gets stuck. *)
Theorem workers_starve workers name d item rest s :
  0 < workers → persistent s = true → queues (store s) !! name = Some (item :: rest) →
  (∃ w, workers_run workers (starve_schedule workers)
      (mkWorkers [] (Start <$> starving workers name d, s)) = Some w ∧
    stuck workers w ∧ existsb done (pool w).1 = false) ∧
  ∀ w, workers_ok w → length (pool w).1 ≤ workers → forallb done (pool w).1 = false → ¬ stuck workers w.
Proof.
  intros Hw Hp Hq. split; [|intros w; by apply workers_suffice].
  destruct (dequeue_starts name item rest s Hp Hq) as (id & s1 & Hdeq & _).
  set (t0 := Appending (WEnqueue name d) (KPush name [d])).
  set (t1 := WaitLog (WDequeued name id) (KDeliver name item id)).
  set (ts := t0 :: t1 :: replicate workers (Start (REnqueue name d))).
  assert (∀ j, 2 ≤ j < 2 + workers → ts !! j = Some (Start (REnqueue name d))) as Hstart.
  { intros j Hj. destruct j as [|[|j]]; [lia..|]. apply lookup_replicate_2. lia. }
  assert (∀ g u v, guards u = [] → guards v = [] → held (u :: v :: replicate workers (Start (REnqueue name d))) g = false)
    as Hfree.
  { intros g u v Hu Hv. by rewrite !held_cons, !not_held, held_starts. }
  assert (workers_run workers [Pick 0; Work 0; Work 0; Yield 0; Pick 1; Work 1; Yield 1]
      (mkWorkers [] (Start <$> starving workers name d, s)) = Some (mkWorkers [] (ts, s1))) as Hfirst.
  { unfold starving. rewrite !fmap_cons, fmap_replicate.
    eapply workers_step; [by apply (pick_event _ _ _ _ 0 (Start (REnqueue name d))); try done; apply not_elem_of_nil|].
    eapply workers_step.
    { eapply (work_event _ _ _ _ 0); [by left|done|done| |by apply enqueue_starts; [|eexists]].
      cbn [blocked wants]. by apply Hfree. }
    eapply workers_step.
    { eapply (work_event _ _ _ _ 0); [by left|done|done| |reflexivity]. cbn [blocked wants]. by apply Hfree. }
    eapply workers_step; [by eapply (yield_event _ _ _ _ 0); [left|..]|].
    eapply workers_step; [by apply (pick_event _ _ _ _ 1 (Start (RDequeue name))); try done; apply not_elem_of_nil|].
    eapply workers_step.
    { eapply (work_event _ _ _ _ 1); [by left|done|done| |exact Hdeq].
      cbn -[held]. rewrite !held_cons, held_starts. cbn [guards rest_guards].
      rewrite !bool_decide_false; [done|by apply not_elem_of_nil|].
      by intros [?|?%not_elem_of_nil]%elem_of_cons. }
    eapply workers_step; [eapply (yield_event _ _ _ _ 1); [by left|done|]|reflexivity].
    cbn -[held]. rewrite held_cons, bool_decide_true; [done|by left]. }
  exists (mkWorkers (rev (seq 2 workers)) (ts, s1)). split_and!.
  - unfold starve_schedule. rewrite workers_run_app, Hfirst. apply pick_starts; [done|].
    intros j Hj. eexists. apply Hstart. lia.
  - assert (∀ i, i ∈ rev (seq 2 workers) → ts !! i = Some (Start (REnqueue name d))) as Hrun.
    { intros i Hi%list_elem_of_In%in_rev%in_seq. apply Hstart. lia. }
    intros [i|i|i]; cbn [worker_event pool running].
    + rewrite (bool_decide_false (length _ < _)); [by destruct (ts !! i)|]. rewrite length_rev, length_seq. lia.
    + case_bool_decide as Hi; [|done]. cbn [pool_event]. rewrite (Hrun i Hi). cbn [done orb blocked wants].
      unfold ts at 1. rewrite !held_cons. cbn [guards rest_guards t0 t1].
      rewrite (bool_decide_true (GQueue (queue_shard name) ∈ [GQueue (queue_shard name)])) by by left.
      by rewrite orb_true_r.
    + destruct (ts !! i) as [t|] eqn:Ht; [|done]. case_bool_decide as Hi; [|done].
      rewrite (Hrun i Hi) in Ht. by injection Ht as <-.
  - cbn [pool fst ts existsb done t0 t1 orb]. clear. by induction workers.
Qed.
End workers.

(** ** Examples *)

#[local] Existing Instance ex_runtime.

Lemma workers_starve_witness :
  ∃ w, workers_run 2 (starve_schedule 2)
      (mkWorkers [] (Start <$> starving 2 "q" [Byte.x63], ex_logged)) = Some w ∧
    stuck 2 w ∧ existsb done (pool w).1 = false.
Proof.
  apply (workers_starve (RT := ex_runtime) 2 "q" [Byte.x63] (mkQueueItem [Byte.x62] 0) [] ex_logged);
    [lia|vm_compute; reflexivity|vm_compute; reflexivity].
Defined.
