(* ===== verification/Interleave.v ===== *)
(** * What concurrent calls guarantee

    Under every schedule messages are conserved up to an exact account of what
    enters, leaves and is lost; what goes wrong when a future is dropped at an
    await and when two calls create a queue; and how the log may order
    enqueues differently from the queue. *)

From stdpp Require Import prelude base gmap gmultiset strings list fin_maps.
From Stdlib Require Import ZArith Lia Strings.Byte.
From S2P Require Import Prelude Types Env Wal Memory Spec Commands Refinement Invariant Models Storage Recovery Durability Threads Alone Account Progress.
Local Open Scope oxide_scope.
Set Warnings "-clear-no-such-hyp,-register-all".

(** ** Conservation *)

Section conservation.
Context `{RT : !Runtime} `{CH : !Chrono} `{CD : !WalCodec} `{SH : !Shards} `{UL : !UuidLaws}.

Definition calls (reqs : list ClientRequest) : list Thread := Start <$> reqs.

Lemma pool_ok_calls reqs s : node_inv s → pool_ok (calls reqs, s).
Proof.
  intros [Hids Hwf]. split; [|split].
  - intros id t Ht. split; [|by apply Hids; exists t].
    destruct (wf_tasks _ Hwf id t Ht) as [_ Hq _]. exact Hq.
  - apply Forall_fmap, Forall_true. intros req. split; [done|]. split; [apply NoDup_nil_2|].
    by intros id ?%not_elem_of_nil.
  - cbn [fst]. induction reqs as [|req reqs IH]; [apply NoDup_nil_2|exact IH].
Qed.

Lemma hands_calls reqs : hands (calls reqs) = ∅.
Proof.
  induction reqs as [|req reqs IH]; [done|]. change (hand (Start req) ⊎ hands (calls reqs) = ∅).
  rewrite IH. apply gmultiset_disj_union_left_id.
Qed.

Lemma run_balances sched : ∀ ts s ts' s',
  pool_ok (ts, s) → pool_run sched (ts, s) = Some (ts', s') →
  let a := run_account sched (ts, s) in
  messages (abs s') ⊎ hands ts' ⊎ a_taken a ⊎ a_lost a = messages (abs s) ⊎ hands ts ⊎ a_brought a.
Proof.
  induction sched as [|e sched IH]; intros ts s ts' s' Hok Hrun; cbn [pool_run run_account] in *.
  { injection Hrun as <- <-. cbn. clear. multiset_solver. }
  destruct (pool_event e (ts, s)) as [[ts1 s1]|] eqn:He; [|done].
  destruct (event_keeps _ _ _ _ _ Hok He) as [Hok1 Hacc]. specialize (IH _ _ _ _ Hok1 Hrun).
  cbn zeta in *. cbn [a_taken a_lost a_brought]. clear -IH Hacc. multiset_solver.
Qed.

(** *** What enters is what the calls enqueued *)

Definition items_of (req : ClientRequest) : option (list bytes) :=
  match req with REnqueue _ d => Some [d] | REnqueueBatch _ ds => Some ds | _ => None end.

(** The points a call can be at, as far as pushing is concerned. *)
Definition rest_of (req : ClientRequest) (k : Rest) : Prop :=
  match k with KPush _ items => items_of req = Some items | _ => items_of req = None end.
Definition point_of (req : ClientRequest) (t : Thread) : Prop :=
  match t with
  | Start r => r = req
  | WaitLog _ k | Appending _ k | Logged _ k => rest_of req k
  | Finished _ | Dropped => True
  | _ => items_of req = None
  end.

(** What a call has enqueued when it stands at [t]. *)
Definition credit (req : ClientRequest) (t : Thread) : gmultiset bytes :=
  match t with Finished resp => produced req resp | _ => ∅ end.

Lemma produced_items req resp :
  produced req resp =
    match items_of req, resp with Some items, ROk => list_to_set_disj items | _, _ => ∅ end.
Proof.
  destruct req, resp; try done. symmetry. apply gmultiset_disj_union_right_id.
Qed.

(** A step that neither pushes nor finishes with success. *)
Definition stays (req : ClientRequest) (t' : Thread) : Prop :=
  point_of req t' ∧ (items_of req = None ∨ t' ≠ Finished ROk).
Lemma stays_credit req t' : stays req t' → credit req t' = ∅.
Proof.
  intros [_ H]. destruct t' as [| | | | | | | | |resp|]; try done. cbn. rewrite produced_items.
  destruct H as [->|H]; [done|]. by destruct (items_of req), resp.
Qed.

Lemma log_stays req op k s t' s' : log op k s = (Ret t', s') → rest_of req k → stays req t'.
Proof.
  unfold log. rewrite bind_gets. intros [= <- <-] Hk. destruct (wal (store s)); (split; [done|by right]).
Qed.

Lemma failed_stays req e : stays req (failed e).
Proof. split; [done|by right]. Qed.

Lemma finished_stays req resp : items_of req = None → stays req (Finished resp).
Proof. intros H. split; [done|by left]. Qed.

Hint Resolve failed_stays finished_stays : core.

Lemma start_stays req s t' s' : start req s = (Ret t', s') → stays req t'.
Proof.
  intros H. destruct req; cbn [start] in H; minv; repeat case_match; minv; eauto using log_stays;
    try (by eapply log_stays); by split; [|left].
Qed.

Lemma log_failed_stays req e k s t' s' :
  log_failed e k s = (Ret t', s') → stays req t'.
Proof. intros H. destruct k; cbn in H; minv; auto. Qed.

Lemma log_done_credit req k s t' s' :
  rest_of req k → log_done k s = (Ret t', s') →
  point_of req t' ∧ credit req t' = brought (Logged (Ok tt) k) s.
Proof.
  intros Hk H. destruct k as [name|name items|name item id|name items ids| |id task|id|ids];
    cbn [rest_of] in Hk.
  2:{ cbn [log_done] in H. rewrite get_queue_step in H. cbn [brought].
      destruct (queues (store s) !! name); minv; (split; [done|]); cbn [credit failed]; by rewrite produced_items, Hk. }
  all: cbn [log_done] in H; minv; split; try done; cbn [credit failed]; rewrite ?produced_items, ?Hk; done.
Qed.

Lemma step_credit req t s t' s' :
  point_of req t → done t = false → step t s = (Ret t', s') →
  point_of req t' ∧ credit req t' = brought t s.
Proof.
  intros Hp Hd H.
  assert (stays req t' → brought t s = ∅ → point_of req t' ∧ credit req t' = brought t s) as Hst.
  { intros Hs ->. split; [apply Hs|by apply stays_credit]. }
  destruct t as [r|op k|op k|[[]|e] k|name task|name ids i items tasks|task|ids [|id todo] missing|[|id ids]|resp|];
    try done; cbn [step point_of] in *.
  - subst r. apply Hst; [by eapply start_stays|done].
  - minv. apply Hst; [split; [done|by right]|done].
  - minv. apply Hst; [split; [done|by right]|]. done.
  - by apply (log_done_credit req k s t' s').
  - apply Hst; [by eapply log_failed_stays|done].
  - minv. apply Hst; [auto|done].
  - apply Hst; [|done]. destruct items as [|item items]; [minv; auto|].
    destruct (ids !! i); minv. split; [done|by right].
  - minv. apply Hst; [auto|done].
  - case_bool_decide; [minv; apply Hst; [auto|done]|]. apply Hst; [|done]. by eapply log_stays.
  - minv. apply Hst; [split; [done|by right]|done].
  - minv. apply Hst; [auto|done].
  - minv. apply Hst; [split; [done|by right]|done].
Qed.

Lemma step_panic_brought t s msg s' : step t s = (Panic msg, s') → brought t s = ∅.
Proof.
  destruct t as [| | |[[]|e] []| | | | | | |]; try done. cbn [step log_done brought]. rewrite get_queue_step.
  by destruct (queues (store s) !! name).
Qed.

(** The credits of all calls. *)
Definition credits (reqs : list ClientRequest) (ts : list Thread) : gmultiset bytes :=
  foldr (⊎) ∅ (zip_with credit reqs ts).

Lemma credits_app reqs1 reqs2 ts1 ts2 :
  length reqs1 = length ts1 → credits (reqs1 ++ reqs2) (ts1 ++ ts2) = credits reqs1 ts1 ⊎ credits reqs2 ts2.
Proof.
  intros Hl. unfold credits. rewrite zip_with_app by done. clear Hl.
  induction (zip_with credit reqs1 ts1) as [|x l IH]; cbn [app foldr]; [by rewrite gmultiset_disj_union_left_id|].
  by rewrite IH, (assoc_L (⊎)).
Qed.

Lemma credits_middle rl req rk l t k :
  length rl = length l →
  credits (rl ++ req :: rk) (l ++ t :: k) = credits rl l ⊎ (credit req t ⊎ credits rk k).
Proof. intros Hl. by rewrite credits_app. Qed.

Lemma credits_calls reqs : credits reqs (calls reqs) = ∅.
Proof.
  induction reqs as [|req reqs IH]; [done|]. change (∅ ⊎ credits reqs (calls reqs) = ∅). by rewrite IH.
Qed.

(** Finished calls hold nothing. *)
Lemma done_hands ts : forallb done ts = true → hands ts = ∅.
Proof.
  induction ts as [|t ts IH]; [done|]. cbn [forallb]. intros [Ht Hts]%andb_true_iff.
  rewrite hands_cons, (IH Hts). by destruct t.
Qed.

Lemma not_done_credit req t : done t = false → credit req t = ∅.
Proof. by destruct t. Qed.

Lemma event_credits reqs e ts s ts' s' :
  Forall2 point_of reqs ts → pool_event e (ts, s) = Some (ts', s') →
  Forall2 point_of reqs ts' ∧ credits reqs ts' = credits reqs ts ⊎ a_brought (event_account e (ts, s)).
Proof.
  intros Hall He. destruct e as [i|i]; cbn [pool_event] in He; destruct (ts !! i) as [t|] eqn:Hi; try done.
  all: match type of He with (if ?b then _ else _) = _ => destruct b eqn:Hb; try done end.
  1: apply orb_false_iff in Hb as [Hd _]; destruct (advance t s) as [t' s1] eqn:Ha; injection He as <- <-.
  2: injection He as <- <-; set (t' := Dropped); assert (done t = false) as Hd by by destruct t.
  all: destruct (pool_split ts i t t' Hi) as (l & k & -> & ->);
    apply Forall2_app_inv_r in Hall as (rl & rk' & Hl & Hk & ->);
    apply Forall2_cons_inv_r in Hk as (req & rk & Hp & Hk & ->);
    cbn [event_account fst snd a_brought]; rewrite ?Hi; cbn [a_brought];
    rewrite !credits_middle by (by eapply Forall2_length); rewrite (not_done_credit req t) by done.
  - unfold advance in Ha. destruct (step t s) as [[t2|msg] s2] eqn:Hs; injection Ha as <- <-.
    + destruct (step_credit req t s t2 s2 Hp Hd Hs) as [Hp' ->].
      split; [by apply Forall2_app; [|constructor]|]. clear. multiset_solver.
    + rewrite (step_panic_brought _ _ _ _ Hs). split; [by apply Forall2_app; [|constructor]|].
      cbn [credit]. clear. multiset_solver.
  - split; [by apply Forall2_app; [|constructor]|]. cbn [credit t']. clear. multiset_solver.
Qed.

Lemma run_credits reqs sched : ∀ ts s ts' s',
  Forall2 point_of reqs ts → pool_run sched (ts, s) = Some (ts', s') →
  credits reqs ts' = credits reqs ts ⊎ a_brought (run_account sched (ts, s)).
Proof.
  induction sched as [|e sched IH]; intros ts s ts' s' Hall Hrun; cbn [pool_run run_account] in *.
  { injection Hrun as <- <-. symmetry. apply gmultiset_disj_union_right_id. }
  destruct (pool_event e (ts, s)) as [[ts1 s1]|] eqn:He; [|done].
  destruct (event_credits _ _ _ _ _ _ Hall He) as [Hall1 Hc]. rewrite (IH _ _ _ _ Hall1 Hrun), Hc.
  cbn zeta. cbn [a_brought]. by rewrite (assoc_L (⊎)).
Qed.

(** *** Nothing is lost without a cancellation *)

Lemma make_task_wraps id item name s :
  overflow_checks = false → ∃ t s', make_task id item name s = (Ret t, s').
Proof.
  intros Hc. unfold make_task, mbind, M_bind. destruct (now_returns s) as (n & s1 & -> & _).
  unfold u32_add. rewrite Hc. destruct (_ <? _)%Z; by eexists _, _.
Qed.

Lemma lost_nothing t s : overflow_checks = false → thread_ok t s → lost t s = ∅.
Proof.
  intros Hc (Hp & _). unfold lost. destruct (step t s) as [[t'|msg] s'] eqn:H; [done|]. cbn [fst].
  destruct t as [req|op k|op k|[[]|e] k|name task|name ids i items tasks|task|ids todo missing|ids|resp|];
    cbn [step] in H; try done.
  - destruct (wal_append_returns op s) as (r & s1 & Hw & _). by rewrite (bind_step _ _ _ _ _ Hw) in H.
  - destruct k; cbn [log_done] in H; try done.
    destruct (make_task_wraps task_id item name s Hc) as (t & s1 & Ht). by rewrite (bind_step _ _ _ _ _ Ht) in H.
  - by destruct k.
  - destruct items as [|item items]; [done|]. destruct Hp as [_ Hlen]. cbn [length] in Hlen.
    destruct (lookup_lt_is_Some_2 ids i) as [id Hid]; [lia|]. rewrite Hid in H. cbv iota in H.
    destruct (make_task_wraps id item name s Hc) as (t & s1 & Ht). by rewrite (bind_step _ _ _ _ _ Ht) in H.
  - destruct (requeue_returns task s) as (r & s1 & Hr). by rewrite (bind_step _ _ _ _ _ Hr) in H.
Qed.

Definition cancels (e : Event) : bool := match e with Cancel _ => true | Run _ => false end.

Lemma run_loses_nothing sched : ∀ ts s ts' s',
  overflow_checks = false → existsb cancels sched = false →
  pool_ok (ts, s) → pool_run sched (ts, s) = Some (ts', s') → a_lost (run_account sched (ts, s)) = ∅.
Proof.
  induction sched as [|e sched IH]; intros ts s ts' s' Hc Hs Hok Hrun; cbn [pool_run run_account] in *; [done|].
  cbn [existsb] in Hs. apply orb_false_iff in Hs as [He Hs].
  destruct (pool_event e (ts, s)) as [[ts1 s1]|] eqn:Hev; [|done]. cbn zeta. cbn [a_lost].
  rewrite (IH ts1 s1 ts' s') by (done || by eapply event_keeps).
  destruct e as [i|]; [|done]. cbn [event_account fst snd pool_event] in *.
  destruct (ts !! i) as [t|] eqn:Hi; [|done]. cbn [a_lost].
  rewrite lost_nothing; [done|done|]. destruct Hok as (_ & Hall & _). by eapply Forall_lookup_1 in Hall.
Qed.

(** Conservation under concurrency: whatever the schedule of any calls, with
    futures dropped at awaits and failures of the disk, the messages in the maps
    and in the hands of the calls are those of the start and those the successful
    enqueues brought, less those taken out, by acknowledgements and by creating a
    queue again, and those lost; without a dropped future, and with wrapping
    arithmetic, nothing is lost. *)
Theorem concurrent_conservation reqs s sched ts' s' :
  node_inv s → pool_run sched (calls reqs, s) = Some (ts', s') →
  let a := run_account sched (calls reqs, s) in
  messages (abs s') ⊎ hands ts' ⊎ a_taken a ⊎ a_lost a = messages (abs s) ⊎ a_brought a ∧
  a_brought a = credits reqs ts' ∧
  (forallb done ts' = true → hands ts' = ∅) ∧
  (overflow_checks = false → existsb cancels sched = false → a_lost a = ∅).
Proof.
  intros Hi Hrun a. pose proof (pool_ok_calls reqs s Hi) as Hok. split_and!.
  - pose proof (run_balances _ _ _ _ _ Hok Hrun) as H. cbn zeta in H. fold a in H.
    by rewrite hands_calls, gmultiset_disj_union_right_id in H.
  - assert (Forall2 point_of reqs (calls reqs)) as Hall.
    { unfold calls. apply Forall2_fmap_r, Forall_Forall2_diag, Forall_forall. done. }
    rewrite (run_credits _ _ _ _ _ _ Hall Hrun), credits_calls. by rewrite gmultiset_disj_union_left_id.
  - apply done_hands.
  - intros Hc Hs. by eapply run_loses_nothing.
Qed.
End conservation.

(** ** Dropped futures *)

Section cancellation.
Context `{RT : !Runtime} `{CH : !Chrono} `{CD : !WalCodec} `{SH : !Shards} `{UL : !UuidLaws}.

(** One call, cancelled at its first await. *)
Lemma cancelled_at_log req s op k s1 :
  node_inv s → step (Start req) s = (Ret (WaitLog op k), s1) → wants (Start req) ≠ None →
  taken (Start req) s = ∅ →
  pool_run [Run 0; Cancel 0] ([Start req], s) = Some ([Dropped], s1) ∧
  messages (abs s1) ⊎ rest_hand k = messages (abs s).
Proof.
  intros Hi Hs _ Ht.
  assert (pool_run [Run 0; Cancel 0] ([Start req], s) = Some ([Dropped], s1)) as Hrun.
  { cbn [pool_run pool_event lookup list_lookup done orb]. rewrite alone_not_blocked.
    unfold advance. by rewrite Hs. }
  split; [exact Hrun|].
  pose proof (event_keeps (Run 0) [Start req] s [WaitLog op k] s1 (pool_ok_calls [req] s Hi)) as He.
  destruct He as [_ Hacc].
  { cbn [pool_event lookup list_lookup done orb]. rewrite alone_not_blocked. unfold advance. by rewrite Hs. }
  cbn [event_account fst snd lookup list_lookup a_taken a_lost a_brought hands foldr hand] in Hacc.
  rewrite Ht in Hacc. unfold lost in Hacc. rewrite Hs in Hacc. cbn [fst brought] in Hacc.
  clear -Hacc. multiset_solver.
Qed.

(** Dropping the future of a [dequeue] or a [nack] while it waits for the log,
    as the server does when the client disconnects, loses the message: it is
    neither in a queue nor in flight any more. *)
Theorem cancel_loses_message s :
  node_inv s → persistent s = true →
  (∀ name item rest, queues (store s) !! name = Some (item :: rest) →
     ∃ s', pool_run [Run 0; Cancel 0] ([Start (RDequeue name)], s) = Some ([Dropped], s') ∧
       messages (abs s') ⊎ {[+ qi_data item +]} = messages (abs s)) ∧
  (∀ id task, in_flight (store s) !! id = Some task →
     ∃ s', pool_run [Run 0; Cancel 0] ([Start (RNack id)], s) = Some ([Dropped], s') ∧
       messages (abs s') ⊎ {[+ t_data task +]} = messages (abs s)).
Proof.
  intros Hi Hp. split.
  - intros name item rest Hq. destruct (dequeue_starts name item rest s Hp Hq) as (id & s1 & Hs & _).
    exists s1. apply (cancelled_at_log _ _ (WDequeued name id) (KDeliver name item id)); try done.
    unfold advance in Hs. destruct (step _ s) as [[t|msg] s2]; [|done]. by injection Hs as -> ->.
  - intros id task Ht. exists (set_in_flight (delete id) s).
    apply (cancelled_at_log _ _ (WNack id) (KRequeue id task)); try done.
    cbn [step start]. rewrite get_task_step, Ht. unfold drop_task. rewrite bind_modify. by rewrite log_waits.
Qed.
End cancellation.

(** ** Acknowledging and rejecting the same task *)

Section settling.
Context `{RT : !Runtime} `{CH : !Chrono} `{CD : !WalCodec} `{SH : !Shards} `{UL : !UuidLaws}.

(** The call finished with success. *)
Definition succeeded (t : Thread) : bool := match t with Finished ROk => true | _ => false end.

Definition settles (id : string) (req : ClientRequest) : Prop := req = RAck id ∨ req = RNack id.

(** Where such a call can be, and whether it has the task. *)
Definition settling (id : string) (t : Thread) : Prop :=
  match t with
  | Start req => settles id req
  | WaitLog _ k | Appending _ k | Logged _ k =>
    match k with KAcked => True | KRequeue i _ => i = id | _ => False end
  | Requeue _ | Finished _ | Dropped => True
  | _ => False
  end.
Definition owns (t : Thread) : nat :=
  match t with
  | WaitLog _ _ | Appending _ _ | Logged _ _ | Requeue _ | Finished ROk => 1
  | _ => 0
  end.
Definition is_in_flight (id : string) (s : Sys) : nat :=
  match in_flight (store s) !! id with Some _ => 1 | None => 0 end.
Definition owners (ts : list Thread) : nat := sum_list_with owns ts.

Lemma log_settling id op k s t' s' :
  log op k s = (Ret t', s') → settling id (WaitLog op k) → s' = s ∧ settling id t' ∧ owns t' = 1.
Proof. unfold log. rewrite bind_gets. intros [= <- <-] Hk. by destruct (wal (store s)). Qed.

Lemma requeue_keeps_tasks task s r s' :
  requeue task s = (Ret r, s') → in_flight (store s') = in_flight (store s).
Proof.
  unfold requeue. destruct (_ <=? _)%Z; rewrite get_queue_step; [by intros [= _ <-]|].
  destruct (_ !! _); by intros [= _ <-].
Qed.

(** A task is owned by the map or by one call. *)
Lemma step_settling id t s t' s' :
  settling id t → done t = false → advance t s = (t', s') →
  settling id t' ∧ is_in_flight id s' + owns t' ≤ is_in_flight id s + owns t.
Proof.
  intros Hst Hd H. unfold advance in H. destruct (step t s) as [[t1|msg] s1] eqn:Hs; injection H as <- <-.
  2:{ split; [done|]. destruct t as [req|op k|op k|[[]|e] k| | |task| | | |]; try done; cbn [settling step] in *.
      - destruct Hst as [-> | ->]; cbn [start] in Hs; rewrite get_task_step in Hs;
          destruct (_ !! _); try done; unfold drop_task in Hs; rewrite bind_modify in Hs; discriminate Hs.
      - destruct (wal_append_returns op s) as (r & s2 & Hw & _). by rewrite (bind_step _ _ _ _ _ Hw) in Hs.
      - by destruct k.
      - by destruct k.
      - destruct (requeue_returns task s) as (r & s2 & Hr). by rewrite (bind_step _ _ _ _ _ Hr) in Hs. }
  destruct t as [req|op k|op k|[[]|e] k| | |task| | | |]; try done; cbn [settling step] in *.
  - destruct Hst as [-> | ->]; cbn [start] in Hs; rewrite get_task_step in Hs;
      unfold is_in_flight; destruct (in_flight (store s) !! id) as [task|] eqn:Ht;
      try (minv; rewrite Ht; split; [done|cbn; lia]);
      unfold drop_task in Hs; rewrite bind_modify in Hs; apply (log_settling id) in Hs as (-> & ? & Ho); try done;
      (split; [done|]); cbn [set_in_flight store in_flight]; rewrite lookup_delete_eq, Ho; cbn; lia.
  - minv. split; [done|cbn; lia].
  - minv. match goal with H : wal_append _ _ = _ |- _ => apply wal_append_quiet in H as [(Ha & _) _] end.
    split; [done|]. unfold is_in_flight. rewrite (tasks_of_abs _ _ Ha). cbn; lia.
  - destruct k; try done; cbn [log_done] in Hs; minv; (split; [done|cbn; lia]).
  - destruct k as [| | | | |i task| |]; try done; cbn [log_failed] in Hs; minv; (split; [done|]); [cbn; lia|].
    match goal with H : put_task _ _ _ = _ |- _ => unfold put_task in H; minv end.
    unfold is_in_flight. cbn [set_in_flight store in_flight]. rewrite lookup_insert_eq.
    cbn. destruct (in_flight (store s) !! id); lia.
  - minv. match goal with H : requeue _ _ = _ |- _ => apply requeue_keeps_tasks in H as Ht end.
    split; [done|]. unfold is_in_flight. rewrite Ht. cbn. destruct (unit_response _); lia.
Qed.

Lemma owners_middle l t k : owners (l ++ t :: k) = owners (l ++ k) + owns t.
Proof. unfold owners. rewrite !sum_list_with_app. cbn. lia. Qed.

Lemma event_settling id e ts s ts' s' :
  Forall (settling id) ts → pool_event e (ts, s) = Some (ts', s') →
  Forall (settling id) ts' ∧ is_in_flight id s' + owners ts' ≤ is_in_flight id s + owners ts.
Proof.
  intros Hall He. destruct e as [i|i]; cbn [pool_event] in He; destruct (ts !! i) as [t|] eqn:Hi; try done.
  all: match type of He with (if ?b then _ else _) = _ => destruct b eqn:Hb; try done end.
  - apply orb_false_iff in Hb as [Hd _]. destruct (advance t s) as [t' s1] eqn:Ha. injection He as <- <-.
    destruct (pool_split ts i t t' Hi) as (l & k & -> & ->).
    apply Forall_app in Hall as [Hl [Ht Hk]%Forall_cons].
    destruct (step_settling id t s t' s1 Ht Hd Ha) as [Ht' Ho]. rewrite !owners_middle.
    split; [by apply Forall_app_2; [|constructor]|]. lia.
  - injection He as <- <-. destruct (pool_split ts i t Dropped Hi) as (l & k & -> & ->).
    apply Forall_app in Hall as [Hl [_ Hk]%Forall_cons]. rewrite !owners_middle. cbn [owns].
    split; [apply Forall_app; split; [done|by constructor]|]. lia.
Qed.

(** C35. A task is settled once: of any number of concurrent acknowledgements and
    rejections of one task, whatever the schedule, the failures of the log and the
    dropped futures, at most one succeeds. *)
Theorem settled_at_most_once id reqs s sched ts' s' :
  Forall (settles id) reqs → pool_run sched (calls reqs, s) = Some (ts', s') →
  length (filter (λ t, succeeded t = true) ts') ≤ 1.
Proof.
  intros Hreqs Hrun.
  assert (Forall (settling id) (calls reqs)) as Hall by by apply Forall_fmap.
  assert (owners (calls reqs) = 0) as H0.
  { clear. induction reqs as [|req reqs IH]; [done|exact IH]. }
  assert (∀ sched ts s, Forall (settling id) ts → pool_run sched (ts, s) = Some (ts', s') →
    is_in_flight id s' + owners ts' ≤ is_in_flight id s + owners ts) as Hle.
  { clear -UL. induction sched as [|e sched IH]; intros ts s Hts H; cbn [pool_run] in H; [injection H as <- <-; lia|].
    destruct (pool_event e (ts, s)) as [[ts1 s1]|] eqn:He; [|done].
    destruct (event_settling _ _ _ _ _ _ Hts He) as [Hts1 ?]. specialize (IH _ _ Hts1 H). lia. }
  specialize (Hle _ _ _ Hall Hrun). rewrite H0 in Hle.
  assert (length (filter (λ t, succeeded t = true) ts') ≤ owners ts') as Hlen.
  { clear. unfold owners. induction ts' as [|t ts IH]; [done|]. rewrite filter_cons. cbn [sum_list_with].
    case_decide as Ht; [destruct t as [| | | | | | | | |[]|]; try done; cbn [length owns]|]; lia. }
  unfold is_in_flight in Hle. destruct (in_flight (store s) !! id), (in_flight (store s') !! id); lia.
Qed.
End settling.

(** ** Concurrent enqueues *)

Section enqueues.
Context `{RT : !Runtime} `{CH : !Chrono} `{CD : !WalCodec} `{SH : !Shards} `{UL : !UuidLaws}.

(** Where a call that enqueues [d] can be. *)
Definition enqueueing (name : string) (d : bytes) (t : Thread) : Prop :=
  match t with
  | Start req => req = REnqueue name d
  | WaitLog _ k | Appending _ k | Logged _ k => k = KPush name [d]
  | Finished _ | Dropped => True
  | _ => False
  end.

(** The items of the calls that succeeded. *)
Fixpoint accepted (ds : list bytes) (ts : list Thread) : list QueueItem :=
  match ds, ts with
  | d :: ds', t :: ts' =>
    if succeeded t then mkQueueItem d 0 :: accepted ds' ts' else accepted ds' ts'
  | _, _ => []
  end.

Lemma accepted_start name ds : accepted ds (calls (REnqueue name <$> ds)) = [].
Proof. induction ds as [|d ds IH]; [done|exact IH]. Qed.

Lemma accepted_middle dl d dk l t k :
  length dl = length l →
  accepted (dl ++ d :: dk) (l ++ t :: k) ≡ₚ
    (if succeeded t then [mkQueueItem d 0] else []) ++ accepted (dl ++ dk) (l ++ k).
Proof.
  revert l. induction dl as [|e dl IH]; intros [|u l] Hl; try done; [by cbn; destruct (succeeded t)|].
  injection Hl as Hl. cbn [app accepted]. destruct (succeeded u); rewrite (IH l Hl); [|done].
  by rewrite Permutation_middle.
Qed.

(** A step of such a call changes nothing but the queue, at its end. *)
Lemma step_enqueueing name d t s t' s' q :
  enqueueing name d t → done t = false → queues (store s) !! name = Some q → advance t s = (t', s') →
  enqueueing name d t' ∧
  abs s' = a_set_queue name (q ++ if succeeded t' then [mkQueueItem d 0] else []) (abs s).
Proof.
  intros He Hd Hq H.
  assert (abs s = a_set_queue name (q ++ []) (abs s)) as Hsame.
  { rewrite app_nil_r. unfold a_set_queue. change (queues (store s)) with (a_queues (abs s)) in Hq.
    rewrite insert_id by done. by destruct (abs s). }
  unfold advance in H. destruct t as [req|op k|op k|[[]|e] k| | | | | | |]; try done; cbn [enqueueing] in He; subst.
  - cbn [step start] in H. unfold contains_queue in H. rewrite bind_gets, bool_decide_true in H by by eexists.
    cbn [negb] in H. unfold log in H. rewrite bind_gets in H.
    destruct (wal (store s)); injection H as <- <-; (split; [done|exact Hsame]).
  - injection H as <- <-. split; [done|exact Hsame].
  - destruct (wal_append_returns op s) as (r & s1 & Hw & (Ha & _) & _).
    cbn [step] in H. rewrite (bind_step _ _ _ _ _ Hw) in H. injection H as <- <-. split; [done|].
    rewrite Ha. exact Hsame.
  - cbn [step log_done] in H. unfold get_queue in H. rewrite bind_gets, Hq in H. injection H as <- <-.
    split; done.
  - injection H as <- <-. split; [done|exact Hsame].
Qed.

Lemma event_enqueueing name ds e ts s ts' s' q :
  Forall2 (enqueueing name) ds ts → pool_event e (ts, s) = Some (ts', s') →
  queues (store s) !! name = Some q →
  Forall2 (enqueueing name) ds ts' ∧
  ∃ q', abs s' = a_set_queue name (q ++ q') (abs s) ∧ accepted ds ts' ≡ₚ accepted ds ts ++ q'.
Proof.
  intros Hall He Hq. destruct e as [i|i]; cbn [pool_event] in He; destruct (ts !! i) as [t|] eqn:Hi; try done.
  all: match type of He with (if ?b then _ else _) = _ => destruct b eqn:Hb; try done end.
  1: apply orb_false_iff in Hb as [Hd _]; destruct (advance t s) as [t' s1] eqn:Ha; injection He as <- <-.
  2: injection He as <- <-; set (t' := Dropped); assert (done t = false) as Hd by by destruct t.
  all: destruct (pool_split ts i t t' Hi) as (l & k & -> & ->);
    apply Forall2_app_inv_r in Hall as (dl & dk' & Hl & Hk & ->);
    apply Forall2_cons_inv_r in Hk as (d & dk & Hp & Hk & ->);
    pose proof (Forall2_length _ _ _ Hl) as Hlen; setoid_rewrite (accepted_middle _ _ _ _ _ _ Hlen);
    assert (succeeded t = false) as -> by by destruct t.
  - destruct (step_enqueueing name d t s t' s1 q Hp Hd Hq Ha) as [Hp' Habs].
    split; [by apply Forall2_app; [|constructor]|]. eexists. split; [exact Habs|].
    by rewrite Permutation_app_comm.
  - split; [by apply Forall2_app; [|constructor]|]. exists []. split; [|by rewrite app_nil_r].
    rewrite app_nil_r. change (queues (store s)) with (a_queues (abs s)) in Hq.
    unfold a_set_queue. rewrite insert_id by done. by destruct (abs s).
Qed.

(** C36. Concurrent enqueues lose nothing: whatever the schedule, whatever the log
    does and whichever futures are dropped, a queue keeps what it held, in order,
    followed by exactly the items of the calls that succeeded, each once; nothing
    else in the maps changes. *)
Theorem concurrent_enqueues_keep_all name ds q s sched ts' s' :
  queues (store s) !! name = Some q →
  pool_run sched (calls (REnqueue name <$> ds), s) = Some (ts', s') →
  ∃ q', abs s' = a_set_queue name (q ++ q') (abs s) ∧ q' ≡ₚ accepted ds ts'.
Proof.
  intros Hq Hrun.
  assert (∀ sched ts s q, Forall2 (enqueueing name) ds ts → queues (store s) !! name = Some q →
    pool_run sched (ts, s) = Some (ts', s') →
    ∃ q', abs s' = a_set_queue name (q ++ q') (abs s) ∧ accepted ds ts' ≡ₚ accepted ds ts ++ q') as Hgen.
  { clear -UL. induction sched as [|e sched IH]; intros ts s q Hf Hq Hrun; cbn [pool_run] in Hrun.
    - injection Hrun as -> ->. exists []. rewrite !app_nil_r. split; [|done].
      change (queues (store s')) with (a_queues (abs s')) in Hq.
      unfold a_set_queue. rewrite insert_id by done. by destruct (abs s').
    - destruct (pool_event e (ts, s)) as [[ts1 s1]|] eqn:He; [|done].
      destruct (event_enqueueing _ _ _ _ _ _ _ _ Hf He Hq) as (Hf1 & q1 & Ha1 & Hacc1).
      destruct (IH ts1 s1 (q ++ q1) Hf1) as (q2 & Ha2 & Hacc2); [|done|].
      { change (queues (store s1)) with (a_queues (abs s1)). rewrite Ha1. cbn. by rewrite lookup_insert_eq. }
      exists (q1 ++ q2). split.
      + rewrite Ha2, Ha1. unfold a_set_queue. cbn. by rewrite insert_insert_eq, app_assoc.
      + by rewrite Hacc2, Hacc1, app_assoc. }
  destruct (Hgen sched (calls (REnqueue name <$> ds)) s q) as (q' & Ha & Hacc); [|done|done|].
  { clear. induction ds as [|d ds IH]; [constructor|]. by constructor. }
  exists q'. split; [done|]. by rewrite accepted_start in Hacc.
Qed.
End enqueues.

(** ** Races *)

Section races.
Context `{RT : !Runtime} `{CH : !Chrono} `{CD : !WalCodec} `{SH : !Shards} `{UL : !UuidLaws}.

Lemma run_event i t t' s' sched ts s r :
  ts !! i = Some t → done t = false → blocked ts t = false → advance t s = (t', s') →
  pool_run sched (<[i := t']> ts, s') = r → pool_run (Run i :: sched) (ts, s) = r.
Proof. intros Hi Hd Hb Ha Hr. cbn [pool_run pool_event]. by rewrite Hi, Hd, Hb, Ha. Qed.

Lemma log_off op k s : persistent s = false → log op k s = (Ret (Logged (Ok tt) k), s).
Proof.
  intros Hp. unfold log. rewrite bind_gets. unfold persistent in Hp.
  destruct (wal (store s)); [|done]. apply bool_decide_eq_false in Hp. by destruct Hp.
Qed.

Lemma create_starts name s :
  persistent s = false → queues (store s) !! name = None →
  advance (Start (RCreateQueue name)) s = (Logged (Ok tt) (KInsertQueue name), s).
Proof.
  intros Hp Hq. unfold advance. cbn [step start]. unfold contains_queue.
  rewrite bind_gets, bool_decide_false by (rewrite Hq; by intros []). by rewrite log_off.
Qed.

Lemma enqueue_goes name d s :
  persistent s = false → is_Some (queues (store s) !! name) →
  advance (Start (REnqueue name d)) s = (Logged (Ok tt) (KPush name [d]), s).
Proof.
  intros Hp Hq. unfold advance. cbn [step start]. unfold contains_queue.
  rewrite bind_gets, bool_decide_true by done. cbn [negb]. by rewrite log_off.
Qed.

Lemma push_goes name ds q s :
  queues (store s) !! name = Some q →
  advance (Logged (Ok tt) (KPush name ds)) s
  = (Finished ROk, set_queues (insert name (q ++ ((λ d, mkQueueItem d 0) <$> ds))) s).
Proof. intros Hq. unfold advance. cbn [step log_done]. by rewrite get_queue_step, Hq. Qed.

(** Run thread [i] by one step. *)
Ltac run_thread i := eapply (run_event i); [reflexivity|reflexivity|reflexivity| |].

(** Concurrent creations lose a message: of two calls that create the same
    queue both can succeed, and the second one to finish replaces the queue by an
    empty one after an enqueue in between was acknowledged. *)
Theorem create_race_loses_message s name d :
  persistent s = false → queues (store s) !! name = None →
  ∃ sched s', pool_run sched (calls [RCreateQueue name; RCreateQueue name; REnqueue name d], s)
      = Some ([Finished ROk; Finished ROk; Finished ROk], s') ∧
    queues (store s') !! name = Some [] ∧ in_flight (store s') = in_flight (store s).
Proof.
  intros Hp Hq. set (s1 := set_queues (insert name []) s).
  set (s2 := set_queues (insert name ([] ++ [mkQueueItem d 0])) s1).
  exists [Run 0; Run 1; Run 0; Run 2; Run 2; Run 1], (set_queues (insert name []) s2).
  assert (queues (store s1) !! name = Some []) as Hq1 by (cbn; by rewrite lookup_insert_eq).
  split; [|split; [cbn; by rewrite lookup_insert_eq|done]]. unfold calls. cbn [fmap list_fmap].
  run_thread 0; [by apply create_starts|]. run_thread 1; [by apply create_starts|].
  run_thread 0; [reflexivity|]. run_thread 2; [by apply enqueue_goes|].
  run_thread 2; [by apply push_goes|]. run_thread 1; [reflexivity|]. reflexivity.
Qed.

(** A batch acknowledgement does not own its tasks: it checks them and removes
    them later, so it can succeed for a task that a rejection (or the cleanup) has
    returned to its queue in between, and the message is delivered again. *)
Theorem acked_batch_redelivered s id task q :
  persistent s = false → in_flight (store s) !! id = Some task →
  (t_attempts task < max_delivery_attempts)%Z → queues (store s) !! t_queue_name task = Some q →
  ∃ sched s', pool_run sched (calls [RAckBatch [id]; RNack id], s)
      = Some ([Finished ROk; Finished ROk], s') ∧
    queues (store s') !! t_queue_name task = Some (mkQueueItem (t_data task) (t_attempts task) :: q).
Proof.
  intros Hp Ht Ha Hq. set (s1 := set_in_flight (delete id) s).
  set (s2 := set_queues (insert (t_queue_name task) (mkQueueItem (t_data task) (t_attempts task) :: q)) s1).
  exists [Run 0; Run 0; Run 1; Run 1; Run 1; Run 0; Run 0; Run 0; Run 0], (set_in_flight (delete id) s2).
  split; [|cbn; by rewrite lookup_insert_eq]. unfold calls. cbn [fmap list_fmap].
  run_thread 0; [reflexivity|].
  run_thread 0; [unfold advance; cbn [step]; rewrite get_task_step, Ht; reflexivity|].
  run_thread 1; [unfold advance; cbn [step start]; rewrite get_task_step, Ht; unfold drop_task;
                 rewrite bind_modify, log_off by done; reflexivity|].
  run_thread 1; [reflexivity|].
  eapply (run_event 1); [reflexivity|reflexivity| | |].
  { cbn [list_insert]. unfold blocked. destruct (wants (Requeue task)); [|done]. reflexivity. }
  { unfold advance. cbn [step]. unfold requeue. rewrite (proj2 (Z.leb_gt _ _)) by done.
    unfold mbind at 1, M_bind at 1. rewrite get_queue_step. cbn [set_in_flight store queues s1]. rewrite Hq. reflexivity. }
  run_thread 0; [unfold advance; cbn [step]; rewrite bool_decide_false by (by intros []);
                 rewrite log_off by done; reflexivity|].
  run_thread 0; [reflexivity|]. run_thread 0; [reflexivity|]. run_thread 0; [reflexivity|]. reflexivity.
Qed.
End races.

(** *** The order of the log *)

Section log_order.
Context `{RT : !Runtime} `{CH : !Chrono} `{CD : !WalCodec} `{SH : !Shards} `{UL : !UuidLaws} `{DL : !DashLaws}
  `{FL : !FsLaws} `{RD : !ReliableDisk} `{CL : !WalCodecLaws}.

Lemma wal_append_on p op s es :
  logged p s es →
  ∃ n s', wal_append op s = (Ret (Ok tt), s') ∧ logged p s' (es ++ [mkWalEntry op n]) ∧ abs s' = abs s.
Proof.
  intros L. destruct (wal_append_returns op s) as (r & s' & H & _ & _).
  destruct (wal_append_logged p op s es r s' L H) as (n & -> & L' & Ha). by exists n, s'.
Qed.

Lemma logged_persistent p s es : logged p s es → persistent s = true.
Proof. intros (mgr & ls & Hw & _). unfold persistent. by rewrite Hw, bool_decide_true. Qed.

Lemma append_goes op k s r s' :
  wal_append op s = (Ret r, s') → advance (Appending op k) s = (Logged r k, s').
Proof. intros H. unfold advance. cbn [step]. by rewrite (bind_step _ _ _ _ _ H). Qed.

(** The log may order concurrent enqueues otherwise than the queue: two calls
    append to the log one way and push the other way, so the restart of a durable
    node delivers them in the order it did not have before. *)
Theorem log_order_differs p s name q a b :
  lives p s → queues (store s) !! name = Some q →
  ∃ sched s' st h',
    pool_run sched (calls [REnqueue name a; REnqueue name b], s) = Some ([Finished ROk; Finished ROk], s') ∧
    queues (store s') !! name = Some (q ++ new_items [b; a]) ∧
    new_persistent p (host s') = (Ret st, h') ∧
    queues st !! name = Some (q ++ new_items [a; b]).
Proof.
  intros [_ (es & L & Hsafe & Ha)]%lives_inv Hq.
  pose proof (logged_persistent _ _ _ L) as Hp.
  destruct (wal_append_on p (WEnqueue name a) s es L) as (n1 & s1 & H1 & L1 & Ha1).
  destruct (wal_append_on p (WEnqueue name b) s1 _ L1) as (n2 & s2 & H2 & L2 & Ha2).
  assert (queues (store s2) !! name = Some q) as Hq2.
  { change (queues (store s2)) with (a_queues (abs s2)). by rewrite Ha2, Ha1. }
  set (s3 := set_queues (insert name (q ++ [mkQueueItem b 0])) s2).
  set (s4 := set_queues (insert name ((q ++ [mkQueueItem b 0]) ++ [mkQueueItem a 0])) s3).
  rewrite <- app_assoc in L2.
  pose proof L2 as (mgr & ls & _ & _ & _ & Hls & Hc).
  destruct (recover_stored p (host s2) _ ls Hls) as (st & h' & H & _ & Hst & _); [by left| |].
  { rewrite fmap_app, log_run_safe_app. split; [done|]. by repeat split. }
  exists [Run 0; Run 1; Run 0; Run 0; Run 1; Run 1; Run 1; Run 0], s4, st, h'. split_and!.
  - unfold calls. cbn [fmap list_fmap].
    assert (is_Some (queues (store s) !! name)) as Hsome by by eexists.
    eapply (run_event 0); [reflexivity|reflexivity|reflexivity|by apply enqueue_starts|].
    eapply (run_event 1); [reflexivity|reflexivity|reflexivity|by apply enqueue_starts|].
    eapply (run_event 0); [reflexivity|reflexivity|reflexivity|reflexivity|].
    eapply (run_event 0); [reflexivity|reflexivity|reflexivity|by apply append_goes|].
    eapply (run_event 1); [reflexivity|reflexivity|reflexivity|reflexivity|].
    eapply (run_event 1); [reflexivity|reflexivity|reflexivity|by apply append_goes|].
    eapply (run_event 1); [reflexivity|reflexivity|reflexivity|by apply push_goes|].
    eapply (run_event 0); [reflexivity|reflexivity|reflexivity|apply push_goes; cbn; by rewrite lookup_insert_eq|].
    reflexivity.
  - cbn. rewrite lookup_insert_eq. by rewrite <- app_assoc.
  - exact H.
  - change (queues st) with (a_queues (abs (mkSys st h'))).
    rewrite (a_queues_proper _ _ Hst), fmap_app, log_run_app.
    change (queues (store s)) with (a_queues (abs s)) in Hq.
    rewrite <- (a_queues_proper _ _ Ha) in Hq. revert Hq.
    generalize (log_run (we_op <$> es) a_empty). intros c Hq.
    unfold log_run. cbn. unfold log_append. rewrite Hq. cbn. rewrite lookup_insert_eq. cbn.
    by rewrite lookup_insert_eq, <- app_assoc.
Qed.
End log_order.

(** ** Examples *)

#[local] Existing Instance ex_runtime.

(** A run given by its schedule. *)
Definition ran (sched : list Event) (p : Pool) : Pool := default p (pool_run sched p).
Definition runs (sched : list Event) (p : Pool) : bool :=
  match pool_run sched p with Some _ => true | None => false end.
Lemma ran_Some sched p : runs sched p = true → pool_run sched p = Some ((ran sched p).1, (ran sched p).2).
Proof. unfold runs, ran. destruct (pool_run sched p) as [[ts s]|]; [done|done]. Qed.

Definition ex_reqs : list ClientRequest := [REnqueue "q" [Byte.x63]; RDequeue "q"; RAck "task-0"].
Definition ex_short : list Event := [Run 0; Run 1; Run 2; Run 2; Run 1; Run 1; Run 0].

Lemma concurrent_conservation_witness :
  let a := run_account ex_short (calls ex_reqs, ex_state) in
  forallb done (ran ex_short (calls ex_reqs, ex_state)).1 = true ∧
  messages (abs (ran ex_short (calls ex_reqs, ex_state)).2) ⊎ hands (ran ex_short (calls ex_reqs, ex_state)).1
    ⊎ a_taken a ⊎ a_lost a = messages (abs ex_state) ⊎ a_brought a.
Proof.
  assert (runs ex_short (calls ex_reqs, ex_state) = true) as Hruns by (vm_compute; reflexivity).
  split; [vm_compute; reflexivity|].
  destruct (concurrent_conservation (RT := ex_runtime) ex_reqs ex_state ex_short _ _
    (reachable_inv _ ex_reachable) (ran_Some _ _ Hruns)) as (H & _). exact H.
Defined.

Lemma cancel_loses_message_witness :
  (∃ s', pool_run [Run 0; Cancel 0] ([Start (RDequeue "q")], ex_logged) = Some ([Dropped], s') ∧
     messages (abs s') ⊎ {[+ [Byte.x62] +]} = messages (abs ex_logged)) ∧
  (∃ s', pool_run [Run 0; Cancel 0] ([Start (RNack "task-0")], ex_logged) = Some ([Dropped], s')).
Proof.
  destruct (lives_inv "wal" ex_logged ex_lives) as [Hi _].
  destruct (cancel_loses_message (RT := ex_runtime) ex_logged Hi ltac:(vm_compute; reflexivity)) as [H1 H2].
  split.
  - apply (H1 "q"%string (mkQueueItem [Byte.x62] 0) []). vm_compute. reflexivity.
  - destruct (in_flight (store ex_logged) !! "task-0"%string) as [task|] eqn:Ht.
    + destruct (H2 _ _ Ht) as (s' & H & _). by exists s'.
    + exfalso. assert (match in_flight (store ex_logged) !! "task-0"%string with Some _ => true | None => false end = true)
        as Hs by (vm_compute; reflexivity). by rewrite Ht in Hs.
Defined.

Definition ex_settlers : list ClientRequest := [RAck "task-0"; RNack "task-0"; RAck "task-0"].
Definition ex_settle : list Event := [Run 0; Run 1; Run 2; Run 0; Run 0].

Lemma settled_at_most_once_witness :
  runs ex_settle (calls ex_settlers, ex_state) = false ∧
  runs [Run 0; Run 1; Run 2; Run 0] (calls ex_settlers, ex_state) = true ∧
  length (filter (λ t, succeeded t = true) (ran [Run 0; Run 1; Run 2; Run 0] (calls ex_settlers, ex_state)).1) ≤ 1.
Proof.
  assert (runs [Run 0; Run 1; Run 2; Run 0] (calls ex_settlers, ex_state) = true) as Hruns by (vm_compute; reflexivity).
  split; [vm_compute; reflexivity|]. split; [exact Hruns|].
  apply (settled_at_most_once (RT := ex_runtime) "task-0" ex_settlers ex_state [Run 0; Run 1; Run 2; Run 0] _
    (ran [Run 0; Run 1; Run 2; Run 0] (calls ex_settlers, ex_state)).2); [|by apply ran_Some].
  unfold ex_settlers, settles. rewrite !Forall_cons. auto.
Defined.

Lemma create_race_loses_message_witness :
  ∃ sched s', pool_run sched (calls [RCreateQueue "q"; RCreateQueue "q"; REnqueue "q" [Byte.x61]], ex_start)
      = Some ([Finished ROk; Finished ROk; Finished ROk], s') ∧
    queues (store s') !! "q" = Some [] ∧ in_flight (store s') = in_flight (store ex_start).
Proof. apply (create_race_loses_message (RT := ex_runtime) ex_start "q" [Byte.x61]); vm_compute; reflexivity. Defined.

Lemma acked_batch_redelivered_witness :
  ∃ sched s', pool_run sched (calls [RAckBatch ["task-0"]; RNack "task-0"], ex_state)
      = Some ([Finished ROk; Finished ROk], s') ∧
    queues (store s') !! "q" = Some [mkQueueItem [Byte.x61] 1; mkQueueItem [Byte.x62] 0].
Proof.
  apply (acked_batch_redelivered (RT := ex_runtime) ex_state "task-0"
    (mkTask "task-0" [Byte.x61] 0 "q" 1) [mkQueueItem [Byte.x62] 0]); vm_compute; reflexivity.
Defined.

Definition ex_enqueues : list Event := [Run 0; Run 1; Run 1; Run 0].

Lemma concurrent_enqueues_keep_all_witness :
  runs ex_enqueues (calls (REnqueue "q" <$> [[Byte.x63]; [Byte.x64]]), ex_state) = true ∧
  ∃ q', abs (ran ex_enqueues (calls (REnqueue "q" <$> [[Byte.x63]; [Byte.x64]]), ex_state)).2
      = a_set_queue "q" ([mkQueueItem [Byte.x62] 0] ++ q') (abs ex_state) ∧
    q' ≡ₚ [mkQueueItem [Byte.x63] 0; mkQueueItem [Byte.x64] 0].
Proof.
  assert (runs ex_enqueues (calls (REnqueue "q" <$> [[Byte.x63]; [Byte.x64]]), ex_state) = true) as Hruns
    by (vm_compute; reflexivity).
  split; [exact Hruns|].
  destruct (concurrent_enqueues_keep_all (RT := ex_runtime) "q" [[Byte.x63]; [Byte.x64]] [mkQueueItem [Byte.x62] 0]
    ex_state ex_enqueues _ _ ltac:(vm_compute; reflexivity) (ran_Some _ _ Hruns)) as (q' & Ha & Hq').
  exists q'. split; [exact Ha|]. etransitivity; [exact Hq'|]. vm_compute. reflexivity.
Defined.

Lemma log_order_differs_witness :
  ∃ sched s' st h',
    pool_run sched (calls [REnqueue "q" [Byte.x63]; REnqueue "q" [Byte.x64]], ex_logged)
      = Some ([Finished ROk; Finished ROk], s') ∧
    queues (store s') !! "q" = Some ([mkQueueItem [Byte.x62] 0] ++ new_items [[Byte.x64]; [Byte.x63]]) ∧
    new_persistent "wal" (host s') = (Ret st, h') ∧
    queues st !! "q" = Some ([mkQueueItem [Byte.x62] 0] ++ new_items [[Byte.x63]; [Byte.x64]]).
Proof.
  apply (log_order_differs (RT := ex_runtime) "wal" ex_logged "q" [mkQueueItem [Byte.x62] 0] [Byte.x63] [Byte.x64]);
    [exact ex_lives|vm_compute; reflexivity].
Defined.
