(* ===== verification/Sweep.v ===== *)
(** * The cleanup pass among concurrent calls

    [cleanup_expired_tasks] reads the clock, reads the in-flight map one shard
    after the other, and then rejects the tasks it found expired, one after the
    other, without looking at them again.  Here the pass is a state machine beside
    a pool of calls: it reads a shard when no call holds its lock, and each of its
    rejections is a call in the first place of the pool. *)

From stdpp Require Import prelude base gmap gmultiset strings list fin_maps.
From Stdlib Require Import ZArith Lia Strings.Byte.
From S2P Require Import Prelude Types Env Wal Memory Spec Commands Refinement Invariant Models Storage Maintenance Threads Alone Account Progress Interleave.
Local Open Scope oxide_scope.
Set Warnings "-clear-no-such-hyp,-register-all".

(** ** The pass *)

Inductive Sweep :=
| SweepStart
(** Shards below [shard] are read; [ids] are the tasks expired at [n]. *)
| Scanning (n timeout : Z) (shard : nat) (ids : list string)
(** [in_call]: the call in the first place is a rejection of this pass. *)
| Nacking (in_call : bool) (ids : list string) (count : Z)
| Swept (count : Z)
| SweepPanicked.

Section sweep.
Context `{RT : !Runtime} `{CH : !Chrono} `{CD : !WalCodec} `{SH : !Shards}.
Context (shards : nat) (timeout_seconds : Z).

(** A call that panicked: the pass unwinds with it. *)
Definition dropped (t : Thread) : bool := match t with Dropped => true | _ => false end.

(** The entries of one shard, in the order of its iterator. *)
Definition iter_shard (shard : nat) : M Sys (list (string * InFlightTask)) :=
  iter_map (λ st, filter (λ kv, task_shard kv.1 = shard) (in_flight st)).

Definition sweep_step (w : Sweep) (p : Pool) : option (Sweep * Pool) :=
  let '(ts, s) := p in
  match w with
  | SweepStart =>
    match now s with
    | (Ret n, s') =>
      match duration_seconds (u64_as_i64 timeout_seconds) with
      | Some timeout => Some (Scanning n timeout 0 [], (ts, s'))
      | None => Some (SweepPanicked, (ts, s'))
      end
    | (Panic _, s') => Some (SweepPanicked, (ts, s'))
    end
  | Scanning n timeout shard ids =>
    if shard <? shards then
      if held ts (GTask shard) then None
      else
        match iter_shard shard s with
        | (Ret entries, s') =>
          Some (Scanning n timeout (S shard) (ids ++ (filter (λ kv, expired n timeout kv.2 = true) entries).*1), (ts, s'))
        | (Panic _, s') => Some (SweepPanicked, (ts, s'))
        end
    else Some (Nacking false ids 0, p)
  | Nacking in_call ids count =>
    match ts !! 0 with
    | None => None
    | Some t =>
      if negb (done t) then None
      else if in_call && dropped t
      then Some (SweepPanicked, p)
      else
        let count' := if in_call && succeeded t then (count + 1)%Z else count in
        match ids with
        | [] => Some (Swept count', p)
        | id :: ids' => Some (Nacking true ids' count', (<[0 := Start (RNack id)]> ts, s))
        end
    end
  | Swept _ | SweepPanicked => None
  end.

(** A step of the pass, or an event of the calls; the pass is not dropped at an
    await. *)
Inductive NodeEvent := OfSweep | OfCalls (e : Event).

Definition node_event (e : NodeEvent) (np : Sweep * Pool) : option (Sweep * Pool) :=
  match e with
  | OfSweep => sweep_step np.1 np.2
  | OfCalls (Cancel 0) => None
  | OfCalls e => match pool_event e np.2 with Some p' => Some (np.1, p') | None => None end
  end.

Fixpoint node_run (sched : list NodeEvent) (np : Sweep * Pool) : option (Sweep * Pool) :=
  match sched with
  | [] => Some np
  | e :: sched' => match node_event e np with Some np' => node_run sched' np' | None => None end
  end.

(** The account of a schedule: the pass itself moves no message. *)
Definition node_event_account (e : NodeEvent) (p : Pool) : Account :=
  match e with OfSweep => mkAccount ∅ ∅ ∅ | OfCalls e => event_account e p end.
Fixpoint node_account (sched : list NodeEvent) (np : Sweep * Pool) : Account :=
  match sched with
  | [] => mkAccount ∅ ∅ ∅
  | e :: sched' =>
    let a := node_event_account e np.2 in
    let b := match node_event e np with Some np' => node_account sched' np' | None => mkAccount ∅ ∅ ∅ end in
    mkAccount (a_brought a ⊎ a_brought b) (a_taken a ⊎ a_taken b) (a_lost a ⊎ a_lost b)
  end.

(** A pass and calls about to start; the first place is the pass's. *)
Definition node_calls (reqs : list ClientRequest) (s : Sys) : Sweep * Pool :=
  (SweepStart, (Dropped :: calls reqs, s)).

(** ** Conservation *)

Context `{UL : !UuidLaws}.

Lemma pool_ok_quiet ts s s' : quiet s s' → pool_ok (ts, s) → pool_ok (ts, s').
Proof.
  intros Hq (Hm & Hall & Hnd). split; [by eapply quiet_maps|]. split; [|done].
  eapply Forall_impl; [exact Hall|]. intros t (Hp & Hn & Ha).
  split; [eapply grows_point; [by apply quiet_grows|done]|]. split; [done|by eapply quiet_apart].
Qed.

Lemma done_holds_nothing t : done t = true → hand t = ∅ ∧ hand_ids t = [].
Proof. by destruct t. Qed.

Lemma pool_ok_replace t ts s req : done t = true → pool_ok (t :: ts, s) → pool_ok (Start req :: ts, s).
Proof.
  intros Hd (Hm & [_ Hall]%Forall_cons & Hnd). destruct (done_holds_nothing t Hd) as [_ Hi].
  split; [done|]. cbn [fst snd fmap list_fmap concat] in *. rewrite Hi in Hnd. split; [|exact Hnd].
  constructor; [|done]. split; [done|]. split; [apply NoDup_nil_2|by intros id ?%not_elem_of_nil].
Qed.

(** What a step of the pass does to the pool. *)
Lemma sweep_step_spec w ts s w' ts' s' :
  sweep_step w (ts, s) = Some (w', (ts', s')) →
  quiet s s' ∧ (ts' = ts ∨ ∃ t rest id, ts = t :: rest ∧ done t = true ∧ ts' = Start (RNack id) :: rest).
Proof.
  intros H. destruct w as [|n d k ids|in_call ids c|c|]; cbn [sweep_step] in H; try done.
  - destruct (now s) as [[n|msg] s1] eqn:Hn; [|destruct (now_returns s) as (? & ? & ? & _); congruence].
    apply now_quiet in Hn. destruct (duration_seconds _); injection H as <- <- <-; (split; [done|by left]).
  - destruct (k <? shards); [|injection H as <- <- <-; split; [done|by left]].
    destruct (held ts _); [done|]. unfold iter_shard in H.
    destruct (iter_map _ s) as [[l|msg] s1] eqn:Hl; injection H as <- <- <-; (split; [|by left]).
    + by eapply iter_map_quiet.
    + unfold iter_map in Hl. rewrite bind_gets in Hl. unfold on_host in Hl. by destruct (dash_iter _ _).
  - destruct ts as [|t ts]; [done|]. cbn [lookup list_lookup] in H. destruct (done t) eqn:Hd; [|done].
    cbn [negb] in H. destruct (in_call && _); [injection H as <- <- <-; split; [done|by left]|].
    destruct ids as [|id ids]; injection H as <- <- <-; (split; [done|]); [by left|]. right. by eexists _, _, _.
Qed.

Lemma of_calls_event e w ts s w' ts' s' :
  node_event (OfCalls e) (w, (ts, s)) = Some (w', (ts', s')) → pool_event e (ts, s) = Some (ts', s').
Proof.
  intros H. cbn [node_event fst snd] in H. destruct e as [i|[|i]]; try done;
    match type of H with match ?x with _ => _ end = _ => destruct x as [p'|] eqn:Hp end; try done;
    by injection H as <- ->.
Qed.

Lemma node_event_keeps e w ts s w' ts' s' :
  pool_ok (ts, s) → node_event e (w, (ts, s)) = Some (w', (ts', s')) →
  pool_ok (ts', s') ∧
  let a := node_event_account e (ts, s) in
  messages (abs s') ⊎ hands ts' ⊎ a_taken a ⊎ a_lost a = messages (abs s) ⊎ hands ts ⊎ a_brought a.
Proof.
  intros Hok H. destruct e as [|e].
  - apply sweep_step_spec in H as [Hq Hts]. pose proof (pool_ok_quiet _ _ _ Hq Hok) as Hok'.
    destruct Hq as [Ha _]. rewrite Ha. cbn zeta. cbn [node_event_account a_taken a_lost a_brought].
    destruct Hts as [->|(t & rest & id & -> & Hd & ->)].
    + split; [done|]. by rewrite !gmultiset_disj_union_right_id.
    + split; [by eapply pool_ok_replace|]. rewrite !hands_cons. destruct (done_holds_nothing t Hd) as [-> _].
      cbn [hand]. by rewrite !gmultiset_disj_union_right_id.
  - apply event_keeps; [done|]. by eapply of_calls_event.
Qed.

Lemma node_balances sched : ∀ w ts s w' ts' s',
  pool_ok (ts, s) → node_run sched (w, (ts, s)) = Some (w', (ts', s')) →
  pool_ok (ts', s') ∧
  let a := node_account sched (w, (ts, s)) in
  messages (abs s') ⊎ hands ts' ⊎ a_taken a ⊎ a_lost a = messages (abs s) ⊎ hands ts ⊎ a_brought a.
Proof.
  induction sched as [|e sched IH]; intros w ts s w' ts' s' Hok Hrun; cbn [node_run node_account] in *.
  { injection Hrun as <- <- <-. split; [done|]. cbn [a_taken a_lost a_brought].
    by rewrite !gmultiset_disj_union_right_id. }
  destruct (node_event e (w, (ts, s))) as [[w1 [ts1 s1]]|] eqn:He; [|done].
  destruct (node_event_keeps _ _ _ _ _ _ _ Hok He) as [Hok1 Hacc].
  destruct (IH _ _ _ _ _ _ Hok1 Hrun) as [Hok' Hb]. split; [done|].
  cbn zeta in *. cbn [a_taken a_lost a_brought fst snd]. unfold Pool in *.
  revert Hb Hacc. generalize (node_event_account e (ts, s)), (node_account sched (w1, (ts1, s1))).
  intros a b Hb Hacc. clear -Hb Hacc. multiset_solver.
Qed.

(** *** What enters, and that nothing is lost *)

(** The calls with the rejection in the first place. *)
Definition places (reqs : list ClientRequest) (ts : list Thread) : Prop :=
  ∃ r0, items_of r0 = None ∧ Forall2 point_of (r0 :: reqs) ts.

Lemma credit_none r0 t : items_of r0 = None → credit r0 t = ∅.
Proof. intros H. destruct t; try done. cbn [credit]. by rewrite produced_items, H. Qed.

Lemma credits_places r0 reqs t ts : items_of r0 = None → credits (r0 :: reqs) (t :: ts) = credits reqs ts.
Proof. intros H. change (credit r0 t ⊎ credits reqs ts = credits reqs ts). by rewrite credit_none, gmultiset_disj_union_left_id. Qed.

Lemma places_credits r0 reqs ts :
  items_of r0 = None → Forall2 point_of (r0 :: reqs) ts → credits (r0 :: reqs) ts = credits reqs (tail ts).
Proof. intros Hr Hall. apply Forall2_cons_inv_l in Hall as (t & ts' & _ & _ & ->). by apply credits_places. Qed.

Lemma node_event_credits reqs e w ts s w' ts' s' :
  places reqs ts → node_event e (w, (ts, s)) = Some (w', (ts', s')) →
  places reqs ts' ∧ credits reqs (tail ts') = credits reqs (tail ts) ⊎ a_brought (node_event_account e (ts, s)).
Proof.
  intros (r0 & Hr0 & Hall) H. destruct e as [|e].
  - apply sweep_step_spec in H as [_ Hts]. cbn [node_event_account a_brought].
    rewrite gmultiset_disj_union_right_id. destruct Hts as [->|(t & rest & id & -> & Hd & ->)]; [by split; [exists r0|]|].
    apply Forall2_cons in Hall as [_ Hall]. split; [|done]. exists (RNack id). by split; [|constructor].
  - assert (pool_event e (ts, s) = Some (ts', s')) as He by by eapply of_calls_event.
    destruct (event_credits _ _ _ _ _ _ Hall He) as [Hall' Hc].
    rewrite !places_credits in Hc by done. split; [by exists r0|exact Hc].
Qed.

Lemma event_loses_nothing e ts s ts' s' :
  overflow_checks = false → cancels e = false → pool_ok (ts, s) →
  pool_event e (ts, s) = Some (ts', s') → a_lost (event_account e (ts, s)) = ∅.
Proof.
  intros Hc Hs Hok He. pose proof (run_loses_nothing [e] ts s ts' s' Hc) as H. cbn [existsb pool_run] in H.
  rewrite Hs, He in H. specialize (H eq_refl Hok eq_refl). cbn [run_account] in H. rewrite He in H.
  cbn [a_lost run_account] in H. by rewrite gmultiset_disj_union_right_id in H.
Qed.

Definition drops (e : NodeEvent) : bool := match e with OfCalls e => cancels e | OfSweep => false end.

Lemma node_loses_nothing sched : ∀ w ts s w' ts' s',
  overflow_checks = false → existsb drops sched = false → pool_ok (ts, s) →
  node_run sched (w, (ts, s)) = Some (w', (ts', s')) → a_lost (node_account sched (w, (ts, s))) = ∅.
Proof.
  induction sched as [|e sched IH]; intros w ts s w' ts' s' Hc Hs Hok Hrun; cbn [node_run node_account] in *; [done|].
  cbn [existsb] in Hs. apply orb_false_iff in Hs as [Hd Hs].
  destruct (node_event e (w, (ts, s))) as [[w1 [ts1 s1]]|] eqn:He; [|done]. cbn zeta. cbn [a_lost snd]. unfold Pool in *.
  rewrite (IH w1 ts1 s1 w' ts' s') by (done || by eapply node_event_keeps).
  rewrite gmultiset_disj_union_right_id. destruct e as [|e]; [done|].
  cbn [node_event_account]. eapply event_loses_nothing; [done..|]. by eapply of_calls_event.
Qed.

Lemma node_credits reqs sched : ∀ w ts s w' ts' s',
  places reqs ts → node_run sched (w, (ts, s)) = Some (w', (ts', s')) →
  credits reqs (tail ts') = credits reqs (tail ts) ⊎ a_brought (node_account sched (w, (ts, s))).
Proof.
  induction sched as [|e sched IH]; intros w ts s w' ts' s' Hp Hrun; cbn [node_run node_account] in *.
  { injection Hrun as <- <- <-. symmetry. apply gmultiset_disj_union_right_id. }
  destruct (node_event e (w, (ts, s))) as [[w1 [ts1 s1]]|] eqn:He; [|done].
  destruct (node_event_credits _ _ _ _ _ _ _ _ Hp He) as [Hp1 Hc]. unfold Pool in *. rewrite (IH _ _ _ _ _ _ Hp1 Hrun), Hc.
  cbn zeta. cbn [a_brought snd]. by rewrite (assoc_L (⊎)).
Qed.

(** C14. Conservation under concurrency: whatever the schedule of a cleanup pass and
    of any calls, with futures dropped at awaits and failures of the disk, the
    messages in the maps and in the hands of the calls are those of the start and
    those the successful enqueues brought, less those taken out, by
    acknowledgements and by creating a queue again, and those lost; without a
    dropped future, and with wrapping arithmetic, nothing is lost. *)
Theorem node_conservation reqs s sched w' ts' s' :
  node_inv s → node_run sched (node_calls reqs s) = Some (w', (ts', s')) →
  let a := node_account sched (node_calls reqs s) in
  messages (abs s') ⊎ hands ts' ⊎ a_taken a ⊎ a_lost a = messages (abs s) ⊎ a_brought a ∧
  a_brought a = credits reqs (tail ts') ∧
  (forallb done ts' = true → hands ts' = ∅) ∧
  (overflow_checks = false → existsb drops sched = false → a_lost a = ∅).
Proof.
  intros Hi Hrun a. unfold node_calls in *.
  assert (pool_ok (Dropped :: calls reqs, s)) as Hok.
  { destruct (pool_ok_calls reqs s Hi) as (Hm & Hall & Hnd). split; [done|]. split; [|exact Hnd].
    constructor; [|done]. split; [done|]. split; [apply NoDup_nil_2|by intros id ?%not_elem_of_nil]. }
  assert (hands (Dropped :: calls reqs) = ∅) as Hh.
  { rewrite hands_cons, hands_calls. apply gmultiset_disj_union_left_id. }
  split_and!.
  - destruct (node_balances _ _ _ _ _ _ _ Hok Hrun) as [_ H]. cbn zeta in H. fold a in H.
    by rewrite Hh, gmultiset_disj_union_right_id in H.
  - assert (places reqs (Dropped :: calls reqs)) as Hp.
    { exists (RNack ""). split; [done|]. constructor; [done|].
      unfold calls. apply Forall2_fmap_r, Forall_Forall2_diag, Forall_forall. done. }
    rewrite (node_credits _ _ _ _ _ _ _ _ Hp Hrun). cbn [tail]. rewrite credits_calls.
    by rewrite gmultiset_disj_union_left_id.
  - apply done_hands.
  - intros Hc Hs. by eapply node_loses_nothing.
Qed.

(** ** A heartbeat after the scan *)

Lemma node_run_app sched1 sched2 np :
  node_run (sched1 ++ sched2) np = match node_run sched1 np with Some np' => node_run sched2 np' | None => None end.
Proof.
  revert np. induction sched1 as [|e sched1 IH]; intros np; [done|]. cbn [app node_run].
  destruct (node_event e np); [apply IH|done].
Qed.

Lemma node_run_part sched1 sched2 np np' :
  node_run sched1 np = Some np' → node_run (sched1 ++ sched2) np = node_run sched2 np'.
Proof. intros H. by rewrite node_run_app, H. Qed.

(** A schedule of the calls alone. *)
Lemma node_run_calls sched : ∀ w p p',
  existsb cancels sched = false → pool_run sched p = Some p' → node_run (OfCalls <$> sched) (w, p) = Some (w, p').
Proof.
  induction sched as [|e sched IH]; intros w p p' Hc H; [by injection H as <-|].
  cbn [existsb] in Hc. apply orb_false_iff in Hc as [He Hc]. cbn [pool_run] in H.
  destruct (pool_event e p) as [p1|] eqn:Hp; [|done].
  assert (node_event (OfCalls e) (w, p) = Some (w, p1)) as Hn by (destruct e; [cbn; by rewrite Hp|done]).
  cbn [fmap list_fmap node_run]. rewrite Hn. by apply IH.
Qed.

Context `{DL : !DashLaws}.

(** The pass over the shards of a map with one task, no lock being held. *)
Lemma scan_shards n timeout id task ts j : ∀ k ids s,
  k + j = shards → (∀ g, held ts g = false) → in_flight (store s) = {[id := task]} →
  expired n timeout task = true →
  ∃ s', node_run (replicate j OfSweep) (Scanning n timeout k ids, (ts, s))
      = Some (Scanning n timeout shards (ids ++ if (k <=? task_shard id) && (task_shard id <? shards) then [id] else []), (ts, s')) ∧
    store s' = store s.
Proof.
  induction j as [|j IH]; intros k ids s Hk Hh Hs He.
  { exists s. replace shards with k by lia. split; [|done].
    assert ((k <=? task_shard id) && (task_shard id <? k) = false) as ->; [|by rewrite app_nil_r].
    apply andb_false_iff. rewrite Nat.leb_gt, Nat.ltb_ge. lia. }
  destruct (iter_map_Ret (λ st, filter (λ kv, task_shard kv.1 = k) (in_flight st)) s) as (l & s1 & Hl & Hp & _ & Hst).
  cbv beta in Hp. rewrite Hs in Hp.
  destruct (IH (S k) (ids ++ (filter (λ kv, expired n timeout kv.2 = true) l).*1) s1) as (s' & Hrun & Hst');
    [lia|done|by rewrite Hst|done|].
  exists s'. split; [|congruence]. cbn [replicate node_run node_event fst snd sweep_step].
  rewrite (proj2 (Nat.ltb_lt _ _)) by lia. rewrite Hh. unfold iter_shard. rewrite Hl, Hrun.
  do 3 f_equal. rewrite <- app_assoc. f_equal. destruct (decide (task_shard id = k)) as [<-|Hne].
  - rewrite map_filter_singleton_True, map_to_list_singleton in Hp by done. apply Permutation_singleton_r in Hp as ->.
    rewrite filter_cons_True by done.
    destruct (Nat.leb_spec (task_shard id) (task_shard id)), (Nat.leb_spec (S (task_shard id)) (task_shard id)),
      (Nat.ltb_spec (task_shard id) shards); (done || lia).
  - rewrite map_filter_singleton_False, map_to_list_empty in Hp by done. apply Permutation_nil_r in Hp as ->.
    destruct (Nat.leb_spec k (task_shard id)), (Nat.leb_spec (S k) (task_shard id)); (done || lia).
Qed.

(** The heartbeat, and the rejection, on a node without a log. *)
Lemma heartbeat_runs u s id d task :
  persistent s = false → in_flight (store s) !! id = Some task → guards u = [] →
  ∃ n s', pool_run [Run 1; Run 1] ([u; Start (RExtendVisibility id d)], s) = Some ([u; Finished ROk], s') ∧
    persistent s' = false ∧ queues (store s') = queues (store s) ∧
    in_flight (store s') !! id = Some (set_consumed_at n task).
Proof.
  intros Hp Ht Hu. destruct (now_returns s) as (n & s1 & Hn & Ha & Hp1 & _).
  exists n, (set_in_flight (alter (set_consumed_at n) id) s1). split_and!.
  - eapply (run_event 1); [reflexivity|reflexivity| | |].
    { unfold blocked. cbn [wants]. by rewrite held_cons, not_held. }
    { unfold advance. cbn [step start]. by rewrite get_task_step, Ht, log_off. }
    eapply (run_event 1); [reflexivity|reflexivity|reflexivity| |reflexivity].
    unfold advance. cbn [step log_done]. by rewrite (bind_step _ _ _ _ _ Hn).
  - by rewrite <- Hp1 in Hp.
  - exact (queues_of_abs _ _ Ha).
  - cbn. rewrite (tasks_of_abs _ _ Ha), lookup_alter_eq, Ht. reflexivity.
Qed.

Lemma nack_runs u s id task q :
  persistent s = false → in_flight (store s) !! id = Some task → guards u = [] →
  (t_attempts task < max_delivery_attempts)%Z → queues (store s) !! t_queue_name task = Some q →
  ∃ s', pool_run [Run 0; Run 0; Run 0] ([Start (RNack id); u], s) = Some ([Finished ROk; u], s') ∧
    in_flight (store s') !! id = None ∧
    queues (store s') !! t_queue_name task = Some (mkQueueItem (t_data task) (t_attempts task) :: q).
Proof.
  intros Hp Ht Hu Ha Hq.
  assert (∀ t, guards t = [] → ∀ g, held [t; u] g = false) as Hfree.
  { intros t Hg g. by rewrite !held_cons, !not_held. }
  assert (∀ t, guards t = [] → blocked [t; u] t = false) as Hnb.
  { intros t Hg. unfold blocked. destruct (wants t); [by apply Hfree|done]. }
  set (s1 := set_in_flight (delete id) s).
  exists (set_queues (insert (t_queue_name task) (mkQueueItem (t_data task) (t_attempts task) :: q)) s1). split_and!.
  - eapply (run_event 0); [reflexivity|reflexivity|by apply Hnb| |].
    { unfold advance. cbn [step start]. rewrite get_task_step, Ht. unfold drop_task.
      rewrite bind_modify, log_off by done. reflexivity. }
    eapply (run_event 0); [reflexivity|reflexivity|by apply Hnb|reflexivity|].
    eapply (run_event 0); [reflexivity|reflexivity|by apply Hnb| |reflexivity].
    unfold advance. cbn [step]. unfold requeue. rewrite (proj2 (Z.leb_gt _ _)) by done.
    unfold mbind at 1, M_bind at 1. rewrite get_queue_step.
    change (queues (store (set_in_flight (delete id) s))) with (queues (store s)). rewrite Hq. reflexivity.
  - apply lookup_delete_eq.
  - apply lookup_insert_eq.
Qed.

(** A heartbeat that comes after the scan does not keep its task: the pass
    reads the map while the task is overdue, then the heartbeat succeeds, and then
    the pass rejects the task all the same; it is back at the head of its queue,
    to be delivered again while the consumer that sent the heartbeat works on it. *)
Theorem heartbeat_race s s0 id d task q n timeout :
  persistent s = false → in_flight (store s) = {[id := task]} → task_shard id < shards →
  (t_attempts task < max_delivery_attempts)%Z → queues (store s) !! t_queue_name task = Some q →
  duration_seconds (u64_as_i64 timeout_seconds) = Some timeout → now s = (Ret n, s0) →
  expired n timeout task = true →
  ∃ sched s', node_run sched (node_calls [RExtendVisibility id d] s)
      = Some (Swept 1, ([Finished ROk; Finished ROk], s')) ∧
    in_flight (store s') !! id = None ∧
    queues (store s') !! t_queue_name task = Some (mkQueueItem (t_data task) (t_attempts task) :: q).
Proof.
  intros Hp Ht Hsh Ha Hq Htime Hn He.
  assert (store s0 = store s) as Hst0.
  { unfold now, on_host in Hn. destruct (utc_now _). by injection Hn as _ <-. }
  destruct (scan_shards n timeout id task [Dropped; Start (RExtendVisibility id d)] shards 0 [] s0)
    as (s1 & Hscan & Hst1); [lia|by intros []|by rewrite Hst0|done|].
  rewrite (proj2 (Nat.ltb_lt (task_shard id) shards)) in Hscan by done. cbn [Nat.leb andb app] in Hscan.
  assert (persistent s1 = false) as Hp1 by (unfold persistent; by rewrite Hst1, Hst0).
  destruct (heartbeat_runs Dropped s1 id d task Hp1) as (n' & s2 & Hbeat & Hp2 & Hq2 & Ht2); [|done|].
  { rewrite Hst1, Hst0, Ht. apply lookup_singleton_eq. }
  destruct (nack_runs (Finished ROk) s2 id (set_consumed_at n' task) q Hp2 Ht2) as (s3 & Hnack & Hnone & Hback);
    [done|done|by rewrite Hq2, Hst1, Hst0|].
  exists ([OfSweep] ++ replicate shards OfSweep ++ [OfSweep] ++ (OfCalls <$> [Run 1; Run 1]) ++ [OfSweep] ++
    (OfCalls <$> [Run 0; Run 0; Run 0]) ++ [OfSweep]), s3.
  split; [|by split]. unfold node_calls, calls. cbn [fmap list_fmap].
  set (ts := [Dropped; Start (RExtendVisibility id d)]) in *.
  rewrite (node_run_part [OfSweep] _ _ (Scanning n timeout 0 [], (ts, s0)))
    by (cbn [node_run node_event fst snd sweep_step]; by rewrite Hn, Htime).
  rewrite (node_run_part _ _ _ _ Hscan).
  rewrite (node_run_part [OfSweep] _ _ (Nacking false [id] 0, (ts, s1)))
    by (cbn [node_run node_event fst snd sweep_step]; by rewrite Nat.ltb_irrefl).
  rewrite (node_run_part _ _ _ _ (node_run_calls [Run 1; Run 1] _ _ _ eq_refl Hbeat)).
  rewrite (node_run_part [OfSweep] _ _ (Nacking true [] 0, ([Start (RNack id); Finished ROk], s2))) by reflexivity.
  rewrite (node_run_part _ _ _ _ (node_run_calls [Run 0; Run 0; Run 0] _ _ _ eq_refl Hnack)). reflexivity.
Qed.

(** ** Completion *)

Definition over (w : Sweep) : bool := match w with Swept _ | SweepPanicked => true | _ => false end.

(** Everything can be completed from here. *)
Definition completes (w : Sweep) (p : Pool) : Prop :=
  ∃ sched w' p', node_run sched (w, p) = Some (w', p') ∧ over w' = true ∧ forallb done p'.1 = true.

Lemma completes_step e w p w1 p1 : node_event e (w, p) = Some (w1, p1) → completes w1 p1 → completes w p.
Proof. intros He (sched & w' & p' & Hrun & H). exists (e :: sched), w', p'. split; [|done]. cbn [node_run]. by rewrite He. Qed.

Lemma pool_event_length i ts s ts' s' : pool_event (Run i) (ts, s) = Some (ts', s') → length ts' = length ts.
Proof.
  cbn [pool_event]. destruct (ts !! i); [|done]. destruct (done _ || _); [done|]. destruct (advance _ _).
  intros [= <- _]. apply length_insert.
Qed.

Lemma pool_run_length idx : ∀ ts s ts' s', pool_run (Run <$> idx) (ts, s) = Some (ts', s') → length ts' = length ts.
Proof.
  induction idx as [|i idx IH]; intros ts s ts' s' H; [by injection H as <-|].
  cbn [fmap list_fmap] in H. unfold pool_run in H; fold pool_run in H.
  destruct (pool_event (Run i) (ts, s)) as [[ts1 s1]|] eqn:He; [|done].
  by rewrite (IH _ _ _ _ H), (pool_event_length _ _ _ _ _ He).
Qed.

(** It is enough to complete from pools whose calls are done. *)
Lemma completes_done w ts s :
  (∀ ts' s', length ts' = length ts → forallb done ts' = true → completes w (ts', s')) → completes w (ts, s).
Proof.
  intros H. destruct (calls_complete (ts, s)) as (_ & _ & idx & [ts1 s1] & Hrun & Hd).
  destruct (H ts1 s1) as (sched & w' & p' & Hrun' & Hend); [by eapply pool_run_length|done|].
  exists ((OfCalls <$> (Run <$> idx)) ++ sched), w', p'. split; [|done].
  rewrite (node_run_part _ _ _ (w, (ts1, s1))); [exact Hrun'|]. apply node_run_calls; [|done].
  clear. by induction idx.
Qed.

Lemma done_first ts : ts ≠ [] → forallb done ts = true → ∃ t rest, ts = t :: rest ∧ done t = true.
Proof. destruct ts as [|t rest]; [done|]. intros _ [? _]%andb_true_iff. by exists t, rest. Qed.

Lemma done_not_held ts g : forallb done ts = true → held ts g = false.
Proof.
  induction ts as [|t ts IH]; [done|]. cbn [forallb]. intros [Ht Hts]%andb_true_iff.
  rewrite held_cons, IH by done. by rewrite not_held by by destruct t.
Qed.

Lemma nacking_completes ids : ∀ b c ts s, ts ≠ [] → completes (Nacking b ids c) (ts, s).
Proof.
  induction ids as [|id ids IH]; intros b c ts s Hne; apply completes_done; intros ts' s' Hl Hd;
    (destruct (done_first ts') as (t & rest & -> & Ht); [by destruct ts, ts'|done|]);
    destruct (b && dropped t) eqn:Hb;
    (eapply (completes_step OfSweep);
      [cbn [node_event fst snd sweep_step lookup list_lookup]; rewrite Ht, Hb; reflexivity|]);
    try (by eexists [], _, _; split; [reflexivity|]).
  by apply IH.
Qed.

Lemma scanning_completes n d j : ∀ k ids ts s,
  shards - k = j → ts ≠ [] → completes (Scanning n d k ids) (ts, s).
Proof.
  induction j as [|j IH]; intros k ids ts s Hk Hne; apply completes_done; intros ts' s' Hl Hd;
    assert (ts' ≠ []) as Hne' by (by destruct ts, ts').
  - eapply (completes_step OfSweep); [|by apply (nacking_completes ids false 0 ts' s')].
    cbn [node_event fst snd sweep_step]. by rewrite (proj2 (Nat.ltb_ge _ _)) by lia.
  - destruct (iter_map_Ret (λ st, filter (λ kv, task_shard kv.1 = k) (in_flight st)) s') as (l & s1 & Hi & _).
    eapply (completes_step OfSweep); [|apply (IH (S k) (ids ++ (filter (λ kv, expired n d kv.2 = true) l).*1) ts' s1); [lia|done]].
    cbn [node_event fst snd sweep_step]. rewrite (proj2 (Nat.ltb_lt _ _)) by lia.
    rewrite done_not_held by done. unfold iter_shard. by rewrite Hi.
Qed.

(** C15. Everything comes to its end: no schedule lets the calls step for ever, and
    from any state of a cleanup pass and of any calls, however it was reached,
    there is a schedule that completes the pass and all the calls. *)
Theorem node_completes w t ts s :
  Acc steps_to (t :: ts, s) ∧ completes w (t :: ts, s).
Proof.
  split; [apply calls_complete|]. assert (t :: ts ≠ []) as Hne by done. revert Hne.
  generalize (t :: ts). clear t ts. intros ts Hne. destruct w as [|n d k ids|b ids c|c|].
  - destruct (now_returns s) as (n & s1 & Hn & _).
    destruct (duration_seconds (u64_as_i64 timeout_seconds)) as [d|] eqn:Hd.
    + eapply (completes_step OfSweep); [|by apply (scanning_completes n d (shards - 0) 0 [] ts s1)].
      cbn [node_event fst snd sweep_step]. by rewrite Hn, Hd.
    + eapply (completes_step OfSweep); [cbn [node_event fst snd sweep_step]; rewrite Hn, Hd; reflexivity|].
      apply completes_done. intros ts' s' _ Hdone. by exists [], SweepPanicked, (ts', s').
  - by eapply scanning_completes.
  - by apply nacking_completes.
  - apply completes_done. intros ts' s' _ Hdone. by exists [], (Swept c), (ts', s').
  - apply completes_done. intros ts' s' _ Hdone. by exists [], SweepPanicked, (ts', s').
Qed.
End sweep.

(** ** Examples *)

#[local] Existing Instance ex_runtime.

Definition ex_node : Sweep * Pool := node_calls [RExtendVisibility "task-0" 60; RDequeue "q"] ex_state.
(** The pass scans, the calls go between its rejection. *)
Definition ex_sched : list NodeEvent :=
  replicate 8 OfSweep ++ [OfCalls (Run 2)] ++ replicate 5 OfSweep ++ [OfCalls (Run 0); OfCalls (Run 2); OfCalls (Run 1)] ++
  [OfCalls (Run 2); OfCalls (Run 0); OfCalls (Run 0); OfSweep].

Definition ex_end : Sweep * Pool := default ex_node (node_run 10 0 ex_sched ex_node).

Lemma node_conservation_witness :
  (ex_end.1 = Swept 1) ∧ forallb done ex_end.2.1 = true ∧
  messages (abs ex_end.2.2) ⊎ a_taken (node_account 10 0 ex_sched ex_node)
    ⊎ a_lost (node_account 10 0 ex_sched ex_node)
  = messages (abs ex_state) ⊎ a_brought (node_account 10 0 ex_sched ex_node).
Proof.
  assert (forallb done ex_end.2.1 = true) as Hd by (vm_compute; reflexivity).
  split; [vm_compute; reflexivity|]. split; [exact Hd|].
  assert (match node_run 10 0 ex_sched ex_node with Some _ => true | None => false end = true) as Hr by (vm_compute; reflexivity).
  destruct (node_conservation (RT := ex_runtime) 10 0 [RExtendVisibility "task-0" 60; RDequeue "q"] ex_state ex_sched
    ex_end.1 ex_end.2.1 ex_end.2.2 (reachable_inv _ ex_reachable)) as (H & _ & Hh & _).
  - fold ex_node. unfold ex_end. destruct (node_run 10 0 ex_sched ex_node) as [[w [ts s]]|]; [reflexivity|discriminate Hr].
  - rewrite (Hh Hd), gmultiset_disj_union_right_id in H. exact H.
Defined.

Lemma heartbeat_race_witness :
  ∃ sched s', node_run 10 0 sched (node_calls [RExtendVisibility "task-0" 60] ex_state)
      = Some (Swept 1, ([Finished ROk; Finished ROk], s')) ∧
    queues (store s') !! "q" = Some [mkQueueItem [Byte.x61] 1; mkQueueItem [Byte.x62] 0].
Proof.
  destruct (heartbeat_race (RT := ex_runtime) 10 0 ex_state (exec now ex_state) "task-0" 60
    (mkTask "task-0" [Byte.x61] 0 "q" 1) [mkQueueItem [Byte.x62] 0] (value 0%Z (now ex_state).1) 0)
    as (sched & s' & Hrun & _ & Hq); [vm_compute; reflexivity|vm_compute; reflexivity|vm_compute; lia|
    vm_compute; reflexivity|vm_compute; reflexivity|vm_compute; reflexivity|apply value_Ret; vm_compute; reflexivity|
    vm_compute; reflexivity|].
  exists sched, s'. split; [exact Hrun|exact Hq].
Defined.

Lemma node_completes_witness :
  Acc steps_to ([Start (RExtendVisibility "task-0" 60); Start (RDequeue "q")], ex_state) ∧
  completes 10 0 SweepStart ([Start (RExtendVisibility "task-0" 60); Start (RDequeue "q")], ex_state).
Proof.
  exact (node_completes (RT := ex_runtime) 10 0 SweepStart (Start (RExtendVisibility "task-0" 60))
    [Start (RDequeue "q")] ex_state).
Defined.
