(* ===== verification/Readers.v ===== *)
(** * Reading the maps while calls run

    [get_snapshot_data] and [get_stats] iterate the maps shard after shard, and
    calls run between two shards.  A reader is a state machine that reads one shard
    per step, when no call holds its lock, beside a pool of calls.  It sees each key
    as the map had it at some moment of the reading, which is all an iteration of a
    [DashMap] promises; undisturbed it sees the whole map. *)

From stdpp Require Import prelude base gmap strings list fin_maps.
From Stdlib Require Import ZArith Lia Strings.Byte.
From S2P Require Import Prelude Types Env Wal Memory Spec Commands Refinement Invariant Models Storage Maintenance Threads Alone Account Progress Interleave Sweep.
Local Open Scope oxide_scope.
Set Warnings "-clear-no-such-hyp,-register-all".

(** ** Readers *)

Section run.
Context `{RT : !Runtime} `{CH : !Chrono} `{CD : !WalCodec} `{SH : !Shards}.
Context {R : Type} (lock : R → option Guard) (read : R → M Sys R).

Inductive ReadEvent := OfReader | OfPool (e : Event).

Definition read_event (e : ReadEvent) (rp : R * Pool) : option (R * Pool) :=
  let '(r, (ts, s)) := rp in
  match e with
  | OfReader =>
    if match lock r with Some g => held ts g | None => false end then None
    else match read r s with
         | (Ret r', s') => Some (r', (ts, s'))
         | (Panic _, _) => None
         end
  | OfPool e => match pool_event e (ts, s) with Some p => Some (r, p) | None => None end
  end.

Fixpoint read_run (sched : list ReadEvent) (rp : R * Pool) : option (R * Pool) :=
  match sched with
  | [] => Some rp
  | e :: sched' => match read_event e rp with Some rp' => read_run sched' rp' | None => None end
  end.

(** The states of the storage along a schedule. *)
Fixpoint moments (sched : list ReadEvent) (rp : R * Pool) : list Sys :=
  rp.2.2 ::
  match sched with
  | [] => []
  | e :: sched' => match read_event e rp with Some rp' => moments sched' rp' | None => [] end
  end.

(** What a reader knows of the moments it has seen is kept along a schedule. *)
Lemma read_run_inv (I : list Sys → R → Prop) :
  (∀ seen seen' r, seen ⊆ seen' → I seen r → I seen' r) →
  (∀ seen r s r' s', I seen r → s ∈ seen → read r s = (Ret r', s') → I seen r') →
  ∀ sched r p r' p' seen, I seen r →
  read_run sched (r, p) = Some (r', p') → I (moments sched (r, p) ++ seen) r'.
Proof.
  intros Hmono Hstep sched. induction sched as [|e sched IH]; intros r p r' p' seen Hi H.
  { injection H as <- _. eapply Hmono; [|done]. set_solver. }
  cbn [read_run moments] in *. destruct (read_event e (r, p)) as [[r1 p1]|] eqn:He; [|done].
  assert (I (p.2 :: seen) r1) as Hi1.
  { destruct p as [ts s]. cbn [snd]. destruct e as [|e]; cbn [read_event] in He.
    - destruct (match lock r with Some g => held ts g | None => false end); [done|].
      destruct (read r s) as [[r2|] s2] eqn:Hr; [|done]. injection He as <- <-.
      eapply (Hstep (s :: seen)); [eapply Hmono; [|done]; set_solver|apply list_elem_of_here|exact Hr].
    - destruct (pool_event e (ts, s)) as [p2|]; [|done]. injection He as <- <-.
      eapply Hmono; [|done]. set_solver. }
  apply (IH _ _ _ _ _ Hi1) in H. eapply Hmono; [|exact H]. cbn [fst snd]. set_solver.
Qed.

(** A reader that runs alone sees one state. *)
Lemma moments_alone sched : (∀ r s r' s', read r s = (Ret r', s') → store s' = store s) →
  Forall (λ e, e = OfReader) sched → ∀ r p s', s' ∈ moments sched (r, p) → store s' = store p.2.
Proof.
  intros Hst. induction 1 as [|e sched -> _ IH]; intros r [ts s] s'; cbn [moments snd].
  { by intros ->%list_elem_of_singleton. }
  intros [->|Hin]%elem_of_cons; [done|]. cbn [read_event] in Hin.
  destruct (match lock r with Some g => held ts g | None => false end); [by apply not_elem_of_nil in Hin|].
  destruct (read r s) as [[r1|] s1] eqn:Hr; [|by apply not_elem_of_nil in Hin].
  apply IH in Hin. cbn [snd] in Hin. by rewrite Hin, (Hst _ _ _ _ Hr).
Qed.

(** A reader whose steps return and lower a rank comes to its end when no
    call holds a lock. *)
Lemma read_completes (final : R → Prop) (rank : R → nat * nat) ts :
  (∀ r s, final r ∨ ∃ r' s', read r s = (Ret r', s') ∧ lex_lt (rank r') (rank r)) →
  (∀ g, held ts g = false) →
  ∀ r s, ∃ sched r' s', Forall (λ e, e = OfReader) sched ∧ final r' ∧
    read_run sched (r, (ts, s)) = Some (r', (ts, s')).
Proof.
  intros Hstep Hfree r. remember (rank r) as n eqn:Hn. revert r Hn.
  induction n as [n IH] using (well_founded_ind lex_lt_wf). intros r -> s.
  destruct (Hstep r s) as [Hf|(r1 & s1 & Hr & Hlt)]; [by exists [], r, s|].
  destruct (IH _ Hlt r1 eq_refl s1) as (sched & r' & s' & Hall & Hf & Hrun).
  exists (OfReader :: sched), r', s'. split_and!; [by constructor|done|].
  cbn [read_run read_event]. rewrite Hr.
  destruct (lock r) as [g|]; [rewrite Hfree|]; exact Hrun.
Qed.
End run.

(** ** One map, shard by shard *)

Section shards.
Context `{RT : !Runtime} {V : Type} (shard_of : string → nat) (get : InMemoryStorage → gmap string V).

(** [l] are the entries of the shards below [n], each key as it was at a moment of
    [seen]. *)
Definition read_below (seen : list Sys) (n : nat) (l : list (string * V)) : Prop :=
  NoDup l.*1 ∧ Forall (λ kv, shard_of kv.1 < n) l ∧
  ∀ k, shard_of k < n →
    ∃ s, s ∈ seen ∧ (list_to_map l : gmap string V) !! k = get (store s) !! k.

Lemma read_below_nil seen : read_below seen 0 [].
Proof. split_and!; [constructor|constructor|]. intros k Hk. lia. Qed.

Lemma read_below_mono seen seen' n l : seen ⊆ seen' → read_below seen n l → read_below seen' n l.
Proof.
  intros Hs (Hnd & Hall & Hk). split_and!; [done..|]. intros k Hlt.
  destruct (Hk k Hlt) as (s & Hin & Heq). exists s. split; [by apply Hs|done].
Qed.

(** Reading the next shard at a moment. *)
Lemma read_below_next seen n l s entries :
  read_below seen n l → s ∈ seen →
  entries ≡ₚ map_to_list (filter (λ kv, shard_of kv.1 = n) (get (store s))) →
  read_below seen (S n) (l ++ entries).
Proof.
  intros (Hnd & Hall & Hk) Hs Hp.
  assert (∀ kv, kv ∈ entries → shard_of kv.1 = n) as He.
  { intros [k v] Hin. rewrite Hp in Hin. apply elem_of_map_to_list, map_lookup_filter_Some in Hin as [_ Hn].
    exact Hn. }
  assert (∀ k, k ∈ l.*1 → shard_of k < n) as Hl.
  { intros k (kv & -> & Hin)%list_elem_of_fmap. by apply (proj1 (Forall_forall _ _) Hall). }
  assert (NoDup entries.*1) as Hne by (rewrite Hp; apply NoDup_fst_map_to_list).
  split_and!.
  - rewrite fmap_app. apply NoDup_app. split_and!; [done| |done].
    intros k Hkl (kv & -> & Hin)%list_elem_of_fmap. specialize (Hl _ Hkl). rewrite (He _ Hin) in Hl. lia.
  - apply Forall_app. split; [eapply Forall_impl; [exact Hall|]; cbn; lia|].
    apply Forall_forall. intros kv Hin. rewrite (He _ Hin). lia.
  - intros k Hlt. rewrite list_to_map_app. destruct (decide (shard_of k = n)) as [Hn|Hn].
    + exists s. split; [done|]. rewrite lookup_union_r.
      * rewrite (list_to_map_proper entries (map_to_list (filter (λ kv, shard_of kv.1 = n) (get (store s))))) by done.
        rewrite list_to_map_to_list. destruct (get (store s) !! k) as [v|] eqn:E.
        -- by apply map_lookup_filter_Some.
        -- apply map_lookup_filter_None. by left.
      * apply not_elem_of_list_to_map_1. intros Hin. specialize (Hl _ Hin). lia.
    + destruct (Hk k) as (s' & Hin & Heq); [lia|]. exists s'. split; [done|].
      rewrite lookup_union_l; [done|]. apply not_elem_of_list_to_map_1.
      intros (kv & -> & Hkv)%list_elem_of_fmap. by specialize (He _ Hkv).
Qed.

(** The whole map. *)
Lemma read_below_all seen n l k :
  (∀ k, shard_of k < n) → read_below seen n l →
  ∃ s, s ∈ seen ∧ (list_to_map l : gmap string V) !! k = get (store s) !! k.
Proof. intros Hn (_ & _ & H). apply H, Hn. Qed.
End shards.

(** ** Snapshots: [get_snapshot_data] *)

Section copying.
Context `{RT : !Runtime} `{CH : !Chrono} `{CD : !WalCodec} `{SH : !Shards} (shards : nat).

(** The entries of one shard of the queues, in the order of its iterator. *)
Definition iter_queue_shard (shard : nat) : M Sys (list (string * list QueueItem)) :=
  iter_map (λ st, filter (λ kv, queue_shard kv.1 = shard) (queues st)).

Inductive Copying :=
| CopyQueues (shard : nat) (qs : list (string * list QueueItem))
| CopyTasks (qs : gmap string (list QueueItem)) (shard : nat) (ts : list (string * InFlightTask))
| Copied (qs : gmap string (list QueueItem)) (ts : gmap string InFlightTask).

Definition copy_lock (r : Copying) : option Guard :=
  match r with
  | CopyQueues shard _ => if shard <? shards then Some (GQueue shard) else None
  | CopyTasks _ shard _ => if shard <? shards then Some (GTask shard) else None
  | Copied _ _ => None
  end.

Definition copy_step (r : Copying) : M Sys Copying :=
  match r with
  | CopyQueues shard qs =>
    if shard <? shards then
      entries ← iter_queue_shard shard;
      mret (CopyQueues (S shard) (qs ++ entries))
    else mret (CopyTasks (list_to_map qs) 0 [])
  | CopyTasks qs shard ts =>
    if shard <? shards then
      entries ← iter_shard shard;
      mret (CopyTasks qs (S shard) (ts ++ entries))
    else mret (Copied qs (list_to_map ts))
  | Copied _ _ => mret r
  end.

Context `{DL : !DashLaws} `{UL : !UuidLaws}.
Hypothesis queue_shards : ∀ k, queue_shard k < shards.
Hypothesis task_shards : ∀ k, task_shard k < shards.

(** Each key of a copied map is as it was at a moment of [seen]. *)
Definition copied_at {V} (get : InMemoryStorage → gmap string V) (seen : list Sys) (m : gmap string V) : Prop :=
  ∀ k, ∃ s, s ∈ seen ∧ m !! k = get (store s) !! k.

Definition copy_inv (seen : list Sys) (r : Copying) : Prop :=
  match r with
  | CopyQueues shard qs => shard ≤ shards ∧ read_below queue_shard queues seen shard qs
  | CopyTasks qs shard ts =>
    copied_at queues seen qs ∧ shard ≤ shards ∧ read_below task_shard in_flight seen shard ts
  | Copied qs ts => copied_at queues seen qs ∧ copied_at in_flight seen ts
  end.

Lemma copied_at_mono {V} (get : InMemoryStorage → gmap string V) seen seen' m :
  seen ⊆ seen' → copied_at get seen m → copied_at get seen' m.
Proof. intros Hs H k. destruct (H k) as (s & ? & ?). exists s. split; [by apply Hs|done]. Qed.

Lemma copy_inv_mono seen seen' r : seen ⊆ seen' → copy_inv seen r → copy_inv seen' r.
Proof.
  intros Hs. destruct r; cbn [copy_inv]; intros; destruct_and!; split_and!;
    eauto using copied_at_mono, read_below_mono.
Qed.

Lemma iter_shard_entries {V} (shard_of : string → nat) (get : InMemoryStorage → gmap string V) n s l s' :
  iter_map (λ st, filter (λ kv, shard_of kv.1 = n) (get st)) s = (Ret l, s') →
  l ≡ₚ map_to_list (filter (λ kv, shard_of kv.1 = n) (get (store s))) ∧ store s' = store s.
Proof.
  intros H. destruct (iter_map_Ret (λ st, filter (λ kv, shard_of kv.1 = n) (get st)) s)
    as (l' & s1 & H1 & Hp & _ & Hst). rewrite H in H1. by injection H1 as -> ->.
Qed.

Lemma copy_step_inv seen r s r' s' :
  copy_inv seen r → s ∈ seen → copy_step r s = (Ret r', s') → copy_inv seen r'.
Proof.
  intros Hi Hs H. destruct r as [shard qs|qs shard ts|qs ts]; cbn [copy_step copy_inv] in *; [| |by minv].
  - destruct Hi as [Hle Hr]. destruct (Nat.ltb_spec shard shards); minv; cbn [copy_inv].
    + match goal with H : iter_queue_shard _ _ = _ |- _ => apply iter_shard_entries in H as [Hp _] end.
      split; [lia|]. by eapply read_below_next.
    + split_and!; [|lia|apply read_below_nil]. intros k. eapply read_below_all; [|done].
      intros k'. specialize (queue_shards k'). lia.
  - destruct Hi as (Hq & Hle & Hr). destruct (Nat.ltb_spec shard shards); minv; cbn [copy_inv].
    + match goal with H : iter_shard _ _ = _ |- _ => apply iter_shard_entries in H as [Hp _] end.
      split_and!; [done|lia|]. by eapply read_below_next.
    + split; [done|]. intros k. eapply read_below_all; [|done].
      intros k'. specialize (task_shards k'). lia.
Qed.

Lemma copy_step_store r s r' s' : copy_step r s = (Ret r', s') → store s' = store s.
Proof.
  intros H. destruct r as [shard qs|qs shard ts|qs ts]; cbn [copy_step] in H; [| |by minv];
    destruct (shard <? shards); minv; try done;
    match goal with
    | H : iter_queue_shard _ _ = _ |- _ => by apply iter_shard_entries in H as [_ ?]
    | H : iter_shard _ _ = _ |- _ => by apply iter_shard_entries in H as [_ ?]
    end.
Qed.

(** Each step of the copy returns and brings it nearer to its end. *)
Definition copy_rank (r : Copying) : nat * nat :=
  match r with
  | CopyQueues shard _ => (2, shards - shard)
  | CopyTasks _ shard _ => (1, shards - shard)
  | Copied _ _ => (0, 0)
  end.
Definition is_copied (r : Copying) : Prop := match r with Copied _ _ => True | _ => False end.

Lemma copy_step_next r s :
  is_copied r ∨ ∃ r' s', copy_step r s = (Ret r', s') ∧ lex_lt (copy_rank r') (copy_rank r).
Proof.
  destruct r as [shard l|qs shard l|]; [right|right|by left]; cbn [copy_step];
    destruct (Nat.ltb_spec shard shards); try (do 2 eexists; split; [done|lexi]).
  - destruct (iter_map_Ret (λ st, filter (λ kv, queue_shard kv.1 = shard) (queues st)) s) as (l' & s1 & Hit & _).
    do 2 eexists. split; [by erewrite bind_step by exact Hit|lexi].
  - destruct (iter_map_Ret (λ st, filter (λ kv, task_shard kv.1 = shard) (in_flight st)) s) as (l' & s1 & Hit & _).
    do 2 eexists. split; [by erewrite bind_step by exact Hit|lexi].
Qed.

(** When no call holds a lock the copy is made. *)
Lemma copy_completes ts s : (∀ g, held ts g = false) → ∃ sched qs fl s',
  Forall (λ e, e = OfReader) sched ∧
  read_run copy_lock copy_step sched (CopyQueues 0 [], (ts, s)) = Some (Copied qs fl, (ts, s')).
Proof.
  intros Hfree.
  destruct (read_completes copy_lock copy_step is_copied copy_rank ts copy_step_next Hfree (CopyQueues 0 []) s)
    as (sched & r' & s' & Hall & Hf & Hrun).
  destruct r' as [| |qs fl]; try done. by exists sched, qs, fl, s'.
Qed.

(** C16. A snapshot read among running calls: under every schedule, each queue and
    each in-flight task of the copy, present or absent, is as the storage had it at
    some moment of the reading; one that no call touched is copied as it is, and
    with no call in between the copy is the whole storage. *)
Theorem snapshot_by_key sched ts s qs fl p' :
  read_run copy_lock copy_step sched (CopyQueues 0 [], (ts, s)) = Some (Copied qs fl, p') →
  let seen := moments copy_lock copy_step sched (CopyQueues 0 [], (ts, s)) in
  (∀ name, ∃ s', s' ∈ seen ∧ qs !! name = queues (store s') !! name) ∧
  (∀ id, ∃ s', s' ∈ seen ∧ fl !! id = in_flight (store s') !! id) ∧
  (∀ name q, (∀ s', s' ∈ seen → queues (store s') !! name = q) → qs !! name = q) ∧
  (∀ id t, (∀ s', s' ∈ seen → in_flight (store s') !! id = t) → fl !! id = t) ∧
  (Forall (λ e, e = OfReader) sched → qs = queues (store s) ∧ fl = in_flight (store s)).
Proof.
  intros H seen.
  assert (copy_inv (seen ++ []) (Copied qs fl)) as [Hq Ht].
  { eapply (read_run_inv copy_lock copy_step copy_inv copy_inv_mono copy_step_inv); [|exact H].
    split; [lia|apply read_below_nil]. }
  rewrite app_nil_r in Hq, Ht. split_and!; [exact Hq|exact Ht| | |].
  - intros name q Hall. destruct (Hq name) as (s' & Hin & ->). by apply Hall.
  - intros id t Hall. destruct (Ht id) as (s' & Hin & ->). by apply Hall.
  - intros Hs. pose proof (moments_alone copy_lock copy_step sched copy_step_store Hs (CopyQueues 0 []) (ts, s)) as Hm.
    split; apply map_eq.
    + intros name. destruct (Hq name) as (s' & Hin & ->). by rewrite (Hm _ Hin).
    + intros id. destruct (Ht id) as (s' & Hin & ->). by rewrite (Hm _ Hin).
Qed.
End copying.

(** ** Statistics: [get_stats]

    The total is read shard after shard, then the queues; for each queue of a shard
    the in-flight map is iterated once more.  The lock of the queue's shard, which
    the code holds meanwhile, is not in the model: it allows more schedules. *)

Section counting.
Context `{RT : !Runtime} `{CH : !Chrono} `{CD : !WalCodec} `{SH : !Shards} (shards : nat).

Inductive Counting :=
(** [self.in_flight.len()] *)
| CountTotal (shard total : nat)
(** the next shard of [self.queues.iter()] *)
| CountQueues (total shard : nat) (acc : list (string * QueueStats))
(** the count of one queue: [pending] is [queue.len()], [count] that of the shards
    below [shard]; [rest] and [next] are what is left of the queues *)
| CountTasks (total : nat) (acc : list (string * QueueStats)) (name : string) (pending shard count : nat)
    (rest : list (string * list QueueItem)) (next : nat)
| Counted (stats : Stats).

Definition count_lock (r : Counting) : option Guard :=
  match r with
  | CountTotal shard _ | CountTasks _ _ _ _ shard _ _ _ => if shard <? shards then Some (GTask shard) else None
  | CountQueues _ shard _ => if shard <? shards then Some (GQueue shard) else None
  | Counted _ => None
  end.

Definition next_queue (total : nat) (acc : list (string * QueueStats))
  (rest : list (string * list QueueItem)) (next : nat) : Counting :=
  match rest with
  | [] => CountQueues total next acc
  | (name, queue) :: rest' => CountTasks total acc name (length queue) 0 0 rest' next
  end.

Definition count_step (r : Counting) : M Sys Counting :=
  match r with
  | CountTotal shard total =>
    if shard <? shards then
      entries ← iter_shard shard;
      mret (CountTotal (S shard) (total + length entries))
    else mret (CountQueues total 0 [])
  | CountQueues total shard acc =>
    if shard <? shards then
      entries ← iter_queue_shard shard;
      mret (next_queue total acc entries (S shard))
    else mret (Counted (mkStats total (list_to_map acc)))
  | CountTasks total acc name pending shard count rest next =>
    if shard <? shards then
      entries ← iter_shard shard;
      mret (CountTasks total acc name pending (S shard)
        (count + length (filter (λ kv : string * InFlightTask, t_queue_name kv.2 = name) entries)) rest next)
    else mret (next_queue total (acc ++ [(name, mkQueueStats pending count)]) rest next)
  | Counted _ => mret r
  end.

Context `{DL : !DashLaws} `{UL : !UuidLaws}.
Hypothesis queue_shards : ∀ k, queue_shard k < shards.
Hypothesis task_shards : ∀ k, task_shard k < shards.

(** *** Counting a map by its shards *)

Definition count_below (P : string * InFlightTask → Prop) `{!∀ kv, Decision (P kv)} (n : nat)
  (m : gmap string InFlightTask) : nat :=
  length (filter (λ kv, P kv ∧ task_shard kv.1 < n) (map_to_list m)).

Lemma map_to_list_filter {V} (P : string * V → Prop) `{!∀ kv, Decision (P kv)} (m : gmap string V) :
  map_to_list (filter P m) ≡ₚ filter P (map_to_list m).
Proof.
  apply NoDup_Permutation; [apply NoDup_map_to_list|apply NoDup_filter, NoDup_map_to_list|].
  intros [k v]. rewrite list_elem_of_filter, !elem_of_map_to_list, map_lookup_filter_Some. tauto.
Qed.

Lemma filter_all {A} (l : list A) : filter (λ _, True) l = l.
Proof. induction l as [|x l IH]; [done|]. by rewrite filter_cons_True, IH. Qed.

Lemma count_below_0 P `{!∀ kv, Decision (P kv)} m : count_below P 0 m = 0.
Proof. unfold count_below. induction (map_to_list m) as [|kv l IH]; [done|]. rewrite filter_cons_False; [done|lia]. Qed.

Lemma count_below_next P `{!∀ kv, Decision (P kv)} n m entries :
  entries ≡ₚ map_to_list (filter (λ kv, task_shard kv.1 = n) m) →
  count_below P n m + length (filter P entries) = count_below P (S n) m.
Proof.
  intros ->. rewrite map_to_list_filter. unfold count_below.
  induction (map_to_list m) as [|kv l IH]; [done|].
  rewrite !(filter_cons _ kv). repeat case_decide; cbn [length]; rewrite ?(filter_cons _ kv);
    repeat case_decide; cbn [length]; try lia; exfalso; intuition lia.
Qed.

Lemma count_below_all P `{!∀ kv, Decision (P kv)} m :
  count_below P shards m = length (filter P (map_to_list m)).
Proof.
  unfold count_below. f_equal. apply list_filter_iff. intros kv. specialize (task_shards kv.1). tauto.
Qed.

(** *** What a count knows *)

Definition in_flight_is (seen : list Sys) (m : gmap string InFlightTask) : Prop :=
  ∀ s, s ∈ seen → in_flight (store s) = m.

Definition counted (seen : list Sys) (kv : string * list QueueItem) (e : string * QueueStats) : Prop :=
  e.1 = kv.1 ∧ pending_count e.2 = length kv.2 ∧
  ∀ m, in_flight_is seen m → in_flight_count e.2 = tasks_from kv.1 m.

Definition total_is (seen : list Sys) (total : nat) : Prop :=
  ∀ m, in_flight_is seen m → total = size m.

Definition count_inv (seen : list Sys) (r : Counting) : Prop :=
  match r with
  | CountTotal shard total =>
    shard ≤ shards ∧ ∀ m, in_flight_is seen m → total = count_below (λ _, True) shard m
  | CountQueues total shard acc =>
    shard ≤ shards ∧ total_is seen total ∧
    ∃ l, read_below queue_shard queues seen shard l ∧ Forall2 (counted seen) l acc
  | CountTasks total acc name pending shard count rest next =>
    shard ≤ shards ∧ next ≤ shards ∧ total_is seen total ∧
    (∀ m, in_flight_is seen m → count = count_below (λ kv, t_queue_name kv.2 = name) shard m) ∧
    ∃ l q, read_below queue_shard queues seen next (l ++ (name, q) :: rest) ∧
      pending = length q ∧ Forall2 (counted seen) l acc
  | Counted st =>
    total_is seen (total_in_flight st) ∧
    ∃ l acc, read_below queue_shard queues seen shards l ∧ Forall2 (counted seen) l acc ∧
      queue_stats st = list_to_map acc
  end.

Lemma in_flight_is_mono seen seen' m : seen ⊆ seen' → in_flight_is seen' m → in_flight_is seen m.
Proof. intros Hs H s Hin. by apply H, Hs. Qed.

Lemma counted_mono seen seen' l acc :
  seen ⊆ seen' → Forall2 (counted seen) l acc → Forall2 (counted seen') l acc.
Proof.
  intros Hs Hl. eapply Forall2_impl; [exact Hl|]. intros kv e (H1 & H2 & H3). split_and!; [done..|].
  intros m Hm. apply H3. by eapply in_flight_is_mono.
Qed.

Lemma count_inv_mono seen seen' r : seen ⊆ seen' → count_inv seen r → count_inv seen' r.
Proof.
  intros Hs. unfold total_is. destruct r; cbn [count_inv]; unfold total_is; intros; destruct_and?;
    repeat match goal with H : ∃ _, _ |- _ => destruct H | H : _ ∧ _ |- _ => destruct H end;
    split_and!; eauto 10 using in_flight_is_mono, counted_mono, read_below_mono.
Qed.

(** The next queue of the shard, or the next shard. *)
Lemma next_queue_inv seen total acc rest next l :
  total_is seen total → next ≤ shards → read_below queue_shard queues seen next (l ++ rest) →
  Forall2 (counted seen) l acc → count_inv seen (next_queue total acc rest next).
Proof.
  intros Ht Hn Hr Hl. destruct rest as [|[name q] rest]; cbn [next_queue count_inv].
  - rewrite app_nil_r in Hr. split_and!; [done|done|by exists l].
  - split_and!; [lia|done|done| |by exists l, q]. intros m _. by rewrite count_below_0.
Qed.

Lemma count_step_inv seen r s r' s' :
  count_inv seen r → s ∈ seen → count_step r s = (Ret r', s') → count_inv seen r'.
Proof.
  intros Hi Hs H. destruct r as [shard total|total shard acc|total acc name pending shard count rest next|st];
    cbn [count_step count_inv] in *; [| | |by minv].
  - destruct Hi as [Hle Ht]. destruct (Nat.ltb_spec shard shards); minv; cbn [count_inv].
    + match goal with H : iter_shard _ _ = _ |- _ => apply iter_shard_entries in H as [Hp _] end.
      split; [lia|]. intros m Hm. rewrite (Hm _ Hs) in Hp. rewrite <- (count_below_next _ shard m _ Hp), (Ht m Hm).
      by rewrite filter_all.
    + split_and!; [lia| |exists []; split; [apply read_below_nil|constructor]]. intros m Hm.
      assert (shard = shards) as -> by lia. rewrite (Ht m Hm), count_below_all, filter_all.
      apply length_map_to_list.
  - destruct Hi as (Hle & Ht & l & Hr & Hl). destruct (Nat.ltb_spec shard shards); minv; cbn [count_inv].
    + match goal with H : iter_queue_shard _ _ = _ |- _ => apply iter_shard_entries in H as [Hp _] end.
      apply (next_queue_inv _ _ _ _ _ l); [done|lia| |done]. by eapply read_below_next.
    + split; [done|]. exists l, acc. assert (shard = shards) as -> by lia. by split_and!.
  - destruct Hi as (Hle & Hnext & Ht & Hc & l & q & Hr & Hp & Hl).
    destruct (Nat.ltb_spec shard shards); minv; cbn [count_inv].
    + match goal with H : iter_shard _ _ = _ |- _ => apply iter_shard_entries in H as [He _] end.
      split_and!; [lia|done|done| |by exists l, q]. intros m Hm. rewrite (Hm _ Hs) in He.
      by rewrite <- (count_below_next _ shard m _ He), (Hc m Hm).
    + apply (next_queue_inv _ _ _ _ _ (l ++ [(name, q)])); [done|done|by rewrite <- app_assoc|].
      apply Forall2_app; [done|]. constructor; [|constructor]. split_and!; [done|done|].
      intros m Hm. cbn. assert (shard = shards) as -> by lia. by rewrite (Hc m Hm), count_below_all.
Qed.

Lemma counted_lookup seen l acc name :
  Forall2 (counted seen) l acc →
  match (list_to_map acc : gmap string QueueStats) !! name with
  | Some x => ∃ q, (list_to_map l : gmap string (list QueueItem)) !! name = Some q ∧ counted seen (name, q) (name, x)
  | None => (list_to_map l : gmap string (list QueueItem)) !! name = None
  end.
Proof.
  induction 1 as [|[k q] [k' x] l acc Hc _ IH]; [done|]. destruct Hc as (Hk & Hp & Hm). cbn in Hk. subst k'.
  cbn [list_to_map foldr uncurry fst snd]. destruct (decide (k = name)) as [->|Hne].
  - rewrite !lookup_insert_eq. by exists q.
  - by rewrite !lookup_insert_ne.
Qed.

(** When no call holds a lock the statistics are made. *)
Lemma count_completes ts s : (∀ g, held ts g = false) → ∃ sched st s',
  Forall (λ e, e = OfReader) sched ∧
  read_run count_lock count_step sched (CountTotal 0 0, (ts, s)) = Some (Counted st, (ts, s')).
Proof.
  intros Hfree.
  destruct (read_completes count_lock count_step (λ r, match r with Counted _ => True | _ => False end)
    (λ r, match r with
          | CountTotal shard _ => (2 + shards, shards - shard)
          | CountQueues _ shard _ => (1 + (shards - shard), 0)
          | CountTasks _ _ _ _ shard _ rest next =>
            (1 + (shards - next), 1 + length rest * (shards + 2) + (shards - shard))
          | Counted _ => (0, 0)
          end) ts) with (r := CountTotal 0 0) (s := s) as (sched & r' & s' & Hall & Hf & Hrun);
    [|done|destruct r' as [| | |st]; try done; by exists sched, st, s'].
  intros r s0.
  destruct r as [shard total|total shard acc|total acc name pending shard count rest next|]; [right..|by left];
    cbn [count_step]; destruct (Nat.ltb_spec shard shards).
  - destruct (iter_map_Ret (λ st, filter (λ kv, task_shard kv.1 = shard) (in_flight st)) s0) as (l & s1 & Hit & _).
    do 2 eexists. split; [by erewrite bind_step by exact Hit|lexi].
  - do 2 eexists. split; [done|lexi].
  - destruct (iter_map_Ret (λ st, filter (λ kv, queue_shard kv.1 = shard) (queues st)) s0) as (l & s1 & Hit & _).
    do 2 eexists. split; [by erewrite bind_step by exact Hit|]. destruct l as [|[k q] l]; lexi.
  - do 2 eexists. split; [done|lexi].
  - destruct (iter_map_Ret (λ st, filter (λ kv, task_shard kv.1 = shard) (in_flight st)) s0) as (l & s1 & Hit & _).
    do 2 eexists. split; [by erewrite bind_step by exact Hit|lexi].
  - do 2 eexists. split; [done|]. destruct rest as [|[k q] rest]; lexi.
Qed.

Lemma count_step_store r s r' s' : count_step r s = (Ret r', s') → store s' = store s.
Proof.
  intros H. destruct r as [shard ?|? shard ?|? ? ? ? shard ? ? ?|]; cbn [count_step] in H; [| | |by minv];
    destruct (shard <? shards); minv; try done;
    match goal with
    | H : iter_queue_shard _ _ = _ |- _ => by apply iter_shard_entries in H as [_ ?]
    | H : iter_shard _ _ = _ |- _ => by apply iter_shard_entries in H as [_ ?]
    end.
Qed.

(** C17. Statistics among running calls: under every schedule, each queue is
    reported with the length it had at some moment of the reading, and one is left
    out only if at some moment it was not there; if no call touches the in-flight
    tasks meanwhile, the total and the count of every queue reported are exact; with
    no call in between the statistics are those of the storage. *)
Theorem stats_by_key sched ts s st p' :
  read_run count_lock count_step sched (CountTotal 0 0, (ts, s)) = Some (Counted st, p') →
  let seen := moments count_lock count_step sched (CountTotal 0 0, (ts, s)) in
  (∀ name, match queue_stats st !! name with
           | Some x => ∃ s' q, s' ∈ seen ∧ queues (store s') !! name = Some q ∧ pending_count x = length q
           | None => ∃ s', s' ∈ seen ∧ queues (store s') !! name = None
           end) ∧
  (∀ m, (∀ s', s' ∈ seen → in_flight (store s') = m) →
     total_in_flight st = size m ∧
     ∀ name x, queue_stats st !! name = Some x → in_flight_count x = tasks_from name m) ∧
  (Forall (λ e, e = OfReader) sched →
     total_in_flight st = size (in_flight (store s)) ∧
     ∀ name, queue_stats st !! name =
       (λ q, mkQueueStats (length q) (tasks_from name (in_flight (store s)))) <$> queues (store s) !! name).
Proof.
  intros H seen.
  assert (count_inv (seen ++ []) (Counted st)) as (Ht & l & acc & Hr & Hl & Hst).
  { eapply (read_run_inv _ _ count_inv count_inv_mono count_step_inv); [|exact H].
    split; [lia|]. intros m _. by rewrite count_below_0. }
  rewrite app_nil_r in Ht, Hr, Hl. rewrite Hst. split_and!.
  - intros name. pose proof (counted_lookup seen l acc name Hl) as Hc.
    destruct (read_below_all queue_shard queues seen shards l name queue_shards Hr) as (s' & Hin & Heq).
    destruct (list_to_map acc !! name) as [x|].
    + destruct Hc as (q & Hq & _ & Hp & _). exists s', q. by rewrite <- Heq.
    + exists s'. by rewrite <- Heq.
  - intros m Hm. split; [by apply Ht|]. intros name x Hx.
    pose proof (counted_lookup seen l acc name Hl) as Hc. rewrite Hx in Hc.
    destruct Hc as (q & _ & _ & _ & Hc). by apply Hc.
  - intros Hs. pose proof (moments_alone count_lock count_step sched count_step_store Hs (CountTotal 0 0) (ts, s)) as Hm.
    assert (in_flight_is seen (in_flight (store s))) as Hfl by (intros s' Hin; by rewrite (Hm _ Hin)).
    split; [by apply Ht|]. intros name. pose proof (counted_lookup seen l acc name Hl) as Hc.
    destruct (read_below_all queue_shard queues seen shards l name queue_shards Hr) as (s' & Hin & Heq).
    rewrite (Hm _ Hin) in Heq. cbn [snd] in Heq. rewrite <- Heq.
    destruct (list_to_map acc !! name) as [[n c]|]; [|by rewrite Hc].
    destruct Hc as (q & -> & _ & Hp & Hc). specialize (Hc _ Hfl). cbn in Hp, Hc |- *. by rewrite Hp, Hc.
Qed.
End counting.

(** ** Examples *)

#[local] Existing Instance ex_runtime.

(** Four shards per map. *)
#[local] Instance ex_shards : Shards := {
  queue_shard k := String.length k mod 4;
  task_shard k := String.length k mod 4 }.
Lemma ex_shard_below k : String.length k mod 4 < 4.
Proof. by apply Nat.mod_upper_bound. Qed.

(** The node of [Storage.v] holds ["task-0"] of queue ["q"]; a [Nack] of it runs between
    the shards of the two maps. *)
Definition ex_pool : Pool := (calls [RNack "task-0"], ex_state).
Definition ex_disturbed : list ReadEvent :=
  replicate 4 OfReader ++ [OfPool (Run 0); OfPool (Run 0); OfReader; OfPool (Run 0)] ++ replicate 5 OfReader.
Definition ex_copy : Copying * Pool :=
  default (CopyQueues 0 [], ex_pool) (read_run (copy_lock 4) (copy_step 4) ex_disturbed (CopyQueues 0 [], ex_pool)).
Definition ex_queues : gmap string (list QueueItem) := match ex_copy.1 with Copied qs _ => qs | _ => ∅ end.
Definition ex_tasks : gmap string InFlightTask := match ex_copy.1 with Copied _ ts => ts | _ => ∅ end.

Lemma ex_copied :
  read_run (copy_lock 4) (copy_step 4) ex_disturbed (CopyQueues 0 [], ex_pool) = Some (Copied ex_queues ex_tasks, ex_copy.2).
Proof.
  assert (match read_run (copy_lock 4) (copy_step 4) ex_disturbed (CopyQueues 0 [], ex_pool) with
          | Some (Copied _ _, _) => true | _ => false end = true) as H by (vm_compute; reflexivity).
  unfold ex_queues, ex_tasks, ex_copy.
  destruct (read_run (copy_lock 4) (copy_step 4) ex_disturbed (CopyQueues 0 [], ex_pool)) as [[[| |qs ts] p]|];
    [discriminate H|discriminate H|reflexivity|discriminate H].
Qed.

(** The queue is copied before the message is back in it, the tasks after it left. *)
Lemma snapshot_by_key_witness :
  ex_queues !! "q" = Some [mkQueueItem [Byte.x62] 0] ∧ ex_tasks = ∅ ∧
  ∃ s', s' ∈ moments (copy_lock 4) (copy_step 4) ex_disturbed (CopyQueues 0 [], ex_pool) ∧
    ex_queues !! "q" = queues (store s') !! "q".
Proof.
  destruct (snapshot_by_key (RT := ex_runtime) (SH := ex_shards) 4 ex_shard_below ex_shard_below ex_disturbed (calls [RNack "task-0"]) ex_state
    ex_queues ex_tasks ex_copy.2 ex_copied) as (Hq & _).
  split; [vm_compute; reflexivity|]. split; [vm_compute; reflexivity|exact (Hq "q")].
Defined.

(** An enqueue between the shards. *)
Definition ex_counting : Counting * Pool := (CountTotal 0 0, (calls [REnqueue "q" [Byte.x63]], ex_state)).
Definition ex_interrupted : list ReadEvent :=
  replicate 6 OfReader ++ [OfPool (Run 0); OfPool (Run 0)] ++ replicate 9 OfReader.
Definition ex_count : Counting * Pool :=
  default ex_counting (read_run (count_lock 4) (count_step 4) ex_interrupted ex_counting).
Definition ex_stats : Stats := match ex_count.1 with Counted st => st | _ => mkStats 0 ∅ end.

Lemma ex_counted :
  read_run (count_lock 4) (count_step 4) ex_interrupted ex_counting = Some (Counted ex_stats, ex_count.2).
Proof.
  assert (match read_run (count_lock 4) (count_step 4) ex_interrupted ex_counting with
          | Some (Counted _, _) => true | _ => false end = true) as H by (vm_compute; reflexivity).
  unfold ex_stats, ex_count.
  destruct (read_run (count_lock 4) (count_step 4) ex_interrupted ex_counting) as [[[| | |st] p]|];
    [discriminate H|discriminate H|discriminate H|reflexivity|discriminate H].
Qed.

Lemma stats_by_key_witness :
  queue_stats ex_stats !! "q" = Some (mkQueueStats 2 1) ∧
  ∃ s' q, s' ∈ moments (count_lock 4) (count_step 4) ex_interrupted ex_counting ∧
    queues (store s') !! "q" = Some q ∧ length q = 2.
Proof.
  destruct (stats_by_key (RT := ex_runtime) (SH := ex_shards) 4 ex_shard_below ex_shard_below ex_interrupted
    (calls [REnqueue "q" [Byte.x63]]) ex_state ex_stats ex_count.2 ex_counted) as (Hq & _).
  specialize (Hq "q"). assert (queue_stats ex_stats !! "q" = Some (mkQueueStats 2 1)) as Hx by (vm_compute; reflexivity).
  rewrite Hx in Hq. destruct Hq as (s' & q & Hin & Hl & Hp). split; [exact Hx|].
  exists s', q. split; [exact Hin|]. split; [exact Hl|exact (eq_sym Hp)].
Defined.
