(* ===== verification/Applying.v ===== *)
(** * The apply loop beside its readers

    [apply_to_state_machine] shares the storage with whatever reads it: the snapshot
    builder openraft runs in a task of its own, the statistics handler, the scan of
    the cleanup.  Here the loop is a state machine that stops wherever a command
    does ([Threads.v]) and before it records the applied id, and a reader runs
    beside it.  Readers do not disturb the loop: under every schedule it is the
    abstract service run on the log.  The snapshot builder is disturbed by the loop:
    what it copies need not be the state of the id it claims. *)

From stdpp Require Import prelude base gmap gmultiset strings list fin_maps.
From Stdlib Require Import ZArith Lia Strings.Byte.
From S2P Require Import Prelude Types Env Wal Memory Spec Commands Refinement Invariant Models Storage StorageFn Maintenance Recovery RaftLog RaftModels Replica Replication Agreement Threads Alone Account Progress Interleave Sweep Readers.
Local Open Scope oxide_scope.
Set Warnings "-clear-no-such-hyp,-register-all".

(** ** The loop *)

Inductive Applying `{RTy : !RaftTypes} :=
(** the head of [for entry in entries] *)
| NextEntry (es : list Entry) (responses : list ClientResponse)
(** a method of the state machine is being awaited *)
| InCommand (e : Entry) (es : list Entry) (responses : list ClientResponse) (t : Thread)
(** [self.last_applied_log.write().await] *)
| Recording (e : Entry) (es : list Entry) (responses : list ClientResponse)
| Applied (responses : list ClientResponse)
| ApplyPanicked.

Section loop.
Context `{RT : !Runtime} `{CH : !Chrono} `{CD : !WalCodec} `{SH : !Shards}.
Context `{RTy : !RaftTypes} `{SL : !Sled}.

Definition with_machine (r : CombinedStorage) (s : Sys) : CombinedStorage :=
  mkCombined (db r) s (last_applied_log r).

Definition apply_point (a : Applying) (r : CombinedStorage) : option (Applying * CombinedStorage) :=
  match a with
  | NextEntry [] responses => Some (Applied responses, r)
  | NextEntry (e :: es) responses =>
    match payload e with
    | Blank | MembershipChange _ => Some (Recording e es (responses ++ [ROk]), r)
    | Normal req => Some (InCommand e es responses (Start req), r)
    end
  | InCommand e es responses (Finished res) => Some (Recording e es (responses ++ [res]), r)
  | InCommand _ _ _ Dropped => Some (ApplyPanicked, r)
  | InCommand e es responses t =>
    let '(t', s') := advance t (state_machine r) in Some (InCommand e es responses t', with_machine r s')
  | Recording e es responses =>
    Some (NextEntry es responses, mkCombined (db r) (state_machine r) (Some (log_id e)))
  | Applied _ | ApplyPanicked => None
  end.

(** The locks the loop holds where it stands. *)
Definition apply_holds (a : Applying) (g : Guard) : bool :=
  match a with InCommand _ _ _ t => held [t] g | _ => false end.

(** ** A reader beside it *)

Context {R : Type} (lock : R → option Guard) (read : R → M CombinedStorage R).

Inductive ApplyEvent := OfLoop | OfReading.

Definition apply_event (ev : ApplyEvent) (n : Applying * R * CombinedStorage)
  : option (Applying * R * CombinedStorage) :=
  let '(a, b, r) := n in
  match ev with
  | OfLoop => match apply_point a r with Some (a', r') => Some (a', b, r') | None => None end
  | OfReading =>
    if match lock b with Some g => apply_holds a g | None => false end then None
    else match read b r with
         | (Ret b', r') => Some (a, b', r')
         | (Panic _, _) => None
         end
  end.

Fixpoint apply_run (sched : list ApplyEvent) (n : Applying * R * CombinedStorage)
  : option (Applying * R * CombinedStorage) :=
  match sched with
  | [] => Some n
  | ev :: sched' => match apply_event ev n with Some n' => apply_run sched' n' | None => None end
  end.

Lemma apply_run_app l k n :
  apply_run (l ++ k) n = match apply_run l n with Some n' => apply_run k n' | None => None end.
Proof. revert n. induction l as [|ev l IH]; intros n; [done|]. cbn. by destruct (apply_event ev n). Qed.

(** The loop reaches a state with no reader in between. *)
Definition loops (a : Applying) (r : CombinedStorage) (a' : Applying) (r' : CombinedStorage) : Prop :=
  ∀ b, ∃ n, apply_run (replicate n OfLoop) (a, b, r) = Some (a', b, r').

Lemma loops_refl a r : loops a r a r.
Proof. intros b. by exists 0. Qed.

Lemma loops_trans a r a1 r1 a2 r2 : loops a r a1 r1 → loops a1 r1 a2 r2 → loops a r a2 r2.
Proof.
  intros H1 H2 b. destruct (H1 b) as [n Hn], (H2 b) as [m Hm]. exists (n + m).
  by rewrite replicate_add, apply_run_app, Hn.
Qed.

Lemma loops_step a r a1 r1 a2 r2 : apply_point a r = Some (a1, r1) → loops a1 r1 a2 r2 → loops a r a2 r2.
Proof. intros H1 H2 b. destruct (H2 b) as [n Hn]. exists (S n). cbn. by rewrite H1. Qed.

(** A command that is not disturbed. *)
Lemma loops_alone e es resps t s t' s' r :
  alone t s (t', s') →
  loops (InCommand e es resps t) (with_machine r s) (InCommand e es resps t') (with_machine r s').
Proof.
  intros [n Hn]. revert t s Hn. induction n as [|n IH]; intros t s Hn.
  { injection Hn as -> ->. apply loops_refl. }
  cbn [replicate pool_run pool_event lookup list_lookup] in Hn.
  destruct (done t || blocked [t] t) eqn:Hd; [done|]. apply orb_false_iff in Hd as [Hd _].
  destruct (advance t s) as [t1 s1] eqn:Ha. cbn in Hn. eapply loops_step; [|by apply IH].
  cbn [apply_point state_machine with_machine]. destruct t; try done; by rewrite Ha.
Qed.
End loop.

(** ** The loop alone *)

Section loop_alone.
Context `{RT : !Runtime} `{CH : !Chrono} `{CD : !WalCodec} `{UL : !UuidLaws} `{SH : !Shards}.
Context `{RTy : !RaftTypes} `{SL : !Sled}.
Context {R : Type} (lock : R → option Guard) (read : R → M CombinedStorage R).

Definition loop_end (o : outcome (list ClientResponse)) : Applying :=
  match o with Ret responses => Applied responses | Panic _ => ApplyPanicked end.

Lemma command_alone e es resps req r :
  let '(o, s') := apply_request req (state_machine r) in
  loops lock read (InCommand e es resps (Start req)) r
    (match o with Ret res => Recording e es (resps ++ [res]) | Panic _ => ApplyPanicked end)
    (with_machine r s').
Proof.
  pose proof (alone_request req (state_machine r)) as H.
  destruct (apply_request req (state_machine r)) as [o s'].
  assert (∀ t, alone (Start req) (state_machine r) (t, s') →
    loops lock read (InCommand e es resps (Start req)) r (InCommand e es resps t) (with_machine r s')) as Hl.
  { intros t Ht. apply (loops_alone lock read e es resps _ _ _ _ r) in Ht. by destruct r. }
  destruct o; (eapply loops_trans; [exact (Hl _ H)|]); (eapply loops_step; [reflexivity|apply loops_refl]).
Qed.

(** With no reader in between the loop is [apply_to_state_machine], panics included. *)
Theorem apply_alone es : ∀ responses r,
  loops lock read (NextEntry es responses) r
    (loop_end (apply_entries es responses r).1) (apply_entries es responses r).2.
Proof.
  induction es as [|e es IH]; intros responses r.
  { eapply loops_step; [done|]. apply loops_refl. }
  cbn [apply_entries]. destruct (payload e) as [|req|m] eqn:Hp; cbn [apply_payload];
    (eapply loops_step; [cbn [apply_point]; by rewrite Hp|]).
  1, 3: rewrite bind_ret_l; unfold set_last_applied; rewrite bind_modify; (eapply loops_step; [reflexivity|]); apply IH.
  pose proof (command_alone e es responses req r) as Hc. unfold on_state_machine, mbind, M_bind.
  destruct (apply_request req (state_machine r)) as [[res|msg] s']; [|exact Hc].
  eapply loops_trans; [exact Hc|]. eapply loops_step; [reflexivity|]. cbn. apply IH.
Qed.

(** Wherever it stands, the loop comes to its end. *)
Definition loop_done (a : Applying) : Prop :=
  match a with Applied _ | ApplyPanicked => True | _ => False end.

Lemma command_ends e es resps t r :
  ∃ t' s', done t' = true ∧
    loops lock read (InCommand e es resps t) r (InCommand e es resps t') (with_machine r s').
Proof.
  remember (left_of t) as n eqn:Hn. revert t r Hn.
  induction n as [n IH] using (well_founded_ind lex_lt_wf). intros t r ->.
  destruct (done t) eqn:Hd.
  { exists t, (state_machine r). split; [done|]. destruct r. apply loops_refl. }
  pose proof (advance_left t (state_machine r) Hd) as Hlt.
  destruct (advance t (state_machine r)) as [t1 s1] eqn:Ha.
  destruct (IH _ Hlt t1 (with_machine r s1) eq_refl) as (t' & s' & Hd' & H).
  exists t', s'. split; [done|]. eapply loops_step; [|exact H].
  cbn [apply_point]. destruct t; try done; by rewrite Ha.
Qed.

Theorem apply_ends a r : ∃ a' r', loop_done a' ∧ loops lock read a r a' r'.
Proof.
  assert (∀ es resps r, ∃ a' r', loop_done a' ∧ loops lock read (NextEntry es resps) r a' r') as Hnext.
  { intros es resps r0. destruct (apply_entries es resps r0) as [o r'] eqn:E.
    exists (loop_end o), r'. split; [by destruct o|]. pose proof (apply_alone es resps r0) as H. by rewrite E in H. }
  assert (∀ e es resps r, ∃ a' r', loop_done a' ∧ loops lock read (Recording e es resps) r a' r') as Hrec.
  { intros e es resps r0. destruct (Hnext es resps (mkCombined (db r0) (state_machine r0) (Some (log_id e))))
      as (a' & r' & Hd & H). exists a', r'. split; [done|]. by eapply loops_step. }
  destruct a as [es resps|e es resps t|e es resps|resps|]; [apply Hnext| |apply Hrec|..].
  2, 3: do 2 eexists; (split; [|apply loops_refl]); done.
  destruct (command_ends e es resps t r) as (t' & s' & Hd & H). destruct t' as [| | | | | | | | |res|]; try done.
  - destruct (Hrec e es (resps ++ [res]) (with_machine r s')) as (a' & r' & Hd' & H').
    exists a', r'. split; [done|]. eapply loops_trans; [exact H|]. by eapply loops_step.
  - exists ApplyPanicked, (with_machine r s'). split; [done|]. eapply loops_trans; [exact H|].
    eapply loops_step; [reflexivity|apply loops_refl].
Qed.
End loop_alone.

(** ** A command among readers

    [doing a req t b]: the command [req] was started on the maps [a], stands at [t],
    and has made of them [b]. *)

Section doing.
Context `{RT : !Runtime} `{CH : !Chrono} `{CD : !WalCodec} `{UL : !UuidLaws} `{SH : !Shards}.

(** Identifiers drawn for the items a batch took. *)
Definition drawn (ids : list string) (a : AState) : Prop :=
  NoDup ids ∧ Forall (λ id, a_tasks a !! id = None) ids.

Definition doing_rest (a : AState) (req : ClientRequest) (k : Rest) (b : AState) : Prop :=
  match k with
  | KInsertQueue name => req = RCreateQueue name ∧ a_queues a !! name = None ∧ b = a
  | KPush name items =>
    (req = REnqueueBatch name items ∨ ∃ d, req = REnqueue name d ∧ items = [d]) ∧
    is_Some (a_queues a !! name) ∧ b = a
  | KDeliver name item id => ∃ rest, req = RDequeue name ∧ a_queues a !! name = Some (item :: rest) ∧
      drawn [id] a ∧ b = a_set_queue name rest a
  | KDeliverBatch name items ids => ∃ count q, req = RDequeueBatch name count ∧ a_queues a !! name = Some q ∧
      items = take (Z.to_nat count) q ∧ length ids = length items ∧ drawn ids a ∧
      b = a_set_queue name (drop (Z.to_nat count) q) a
  | KAcked => ∃ id, req = RAck id ∧ is_Some (a_tasks a !! id) ∧ b = a_del_task id a
  | KRequeue id task => req = RNack id ∧ a_tasks a !! id = Some task ∧ b = a_del_task id a
  | KStamp id => ∃ d, req = RExtendVisibility id d ∧ is_Some (a_tasks a !! id) ∧ b = a
  | KRemove ids => req = RAckBatch ids ∧ Forall (λ id, is_Some (a_tasks a !! id)) ids ∧ b = a
  end.

Definition doing (a : AState) (req : ClientRequest) (t : Thread) (b : AState) : Prop :=
  match t with
  | Start req' => req' = req ∧ b = a
  | Logged (Ok _) k => doing_rest a req k b
  | InsertTask name task => ∃ item rest, req = RDequeue name ∧ a_queues a !! name = Some (item :: rest) ∧
      delivery name item task ∧ drawn [t_id task] a ∧ b = a_set_queue name rest a
  | InsertTasks name ids i items tasks => ∃ count q made, req = RDequeueBatch name count ∧
      a_queues a !! name = Some q ∧ take (Z.to_nat count) q = made ++ items ∧
      length ids = length (made ++ items) ∧ drawn ids a ∧
      Forall2 (delivery name) made tasks ∧ t_id <$> tasks = take i ids ∧ i = length made ∧
      b = a_set_tasks tasks (a_set_queue name (drop (Z.to_nat count) q) a)
  | Requeue task => ∃ id, req = RNack id ∧ a_tasks a !! id = Some task ∧ b = a_del_task id a
  | CheckTasks ids todo missing => ∃ checked, req = RAckBatch ids ∧ ids = checked ++ todo ∧
      missing = filter (λ id, a_tasks a !! id = None) checked ∧ b = a
  | RemoveTasks todo => ∃ ids removed, req = RAckBatch ids ∧ ids = removed ++ todo ∧
      Forall (λ id, is_Some (a_tasks a !! id)) ids ∧ b = a_del_tasks removed a
  | Finished resp => spec_step false req a resp b
  | Dropped => True
  | WaitLog _ _ | Appending _ _ | Logged (Err _) _ => False
  end.

Lemma maps_ok_issued s : maps_ok s → ids_issued s.
Proof. intros Hm id [t Ht]. by apply (Hm id t). Qed.

(** A batch that takes nothing. *)
Lemma batch_nothing a name count q :
  a_queues a !! name = Some q → take (Z.to_nat count) q = [] →
  spec_step false (RDequeueBatch name count) a (RTasks []) (a_set_queue name (drop (Z.to_nat count) q) a).
Proof.
  intros Hq Ht. apply (S_dequeue_batch _ _ _ _ q []); [done|by rewrite Ht|].
  split; [apply NoDup_nil_2|apply Forall_nil_2].
Qed.

Lemma doing_log req op k s t' s' a :
  persistent s = false → log op k s = (Ret t', s') → doing_rest a req k (abs s) → doing a req t' (abs s').
Proof. intros Hp H. rewrite log_off in H by done. by injection H as <- <-. Qed.

Lemma doing_start_take req s t' s' :
  ids_issued s → persistent s = false → start req s = (Ret t', s') →
  match req with RDequeue _ | RDequeueBatch _ _ => True | _ => False end → doing (abs s) req t' (abs s').
Proof.
  intros Hm Hp H. destruct req as [| |name| | | | |name count|]; try done; intros _; cbn [start] in H; run H.
  - destruct (queues (store s) !! name) as [[|item rest]|] eqn:Hq; run H;
      [by apply S_dequeue_empty| |by apply S_dequeue_missing].
    match goal with G : new_uuid _ = _ |- _ => apply new_uuid_Ret in G as (Ha & Hp1 & Hnew & _) end.
    eapply doing_log; [|exact H|]; [by rewrite Hp1|]. rewrite Ha. cbn [doing_rest]. exists rest.
    split_and!; [done|done| |done]. split; [apply NoDup_singleton|].
    constructor; [by apply ids_issued_fresh|done].
  - destruct (queues (store s) !! name) as [[|item rest]|] eqn:Hq; [| |run H; by apply S_dequeue_batch_missing].
    { run H. pose proof (batch_nothing (abs s) name count [] Hq) as Hn. rewrite take_nil, drop_nil in Hn.
      rewrite (set_queue_id name [] (abs s) Hq) in Hn. by apply Hn. }
    set (q := item :: rest) in *. rewrite pop_upto_take_drop in H.
    minv. match goal with G : vec_with_capacity _ _ _ = _ |- _ =>
      unfold vec_with_capacity in G; destruct (isize_max <? _)%Z; minv end.
    run H. case_bool_decide as He; run H; [by apply batch_nothing|].
    match goal with G : new_uuids _ _ = _ |- _ =>
      apply new_uuids_Ret in G as (Ha & Hp1 & Hlen & Hnd & Hnew & _) end.
    eapply doing_log; [|exact H|]; [by rewrite Hp1|]. rewrite Ha. cbn [doing_rest]. exists count, q.
    split_and!; try done. split; [done|]. eapply Forall_impl; [exact Hnew|]. intros id. exact (ids_issued_fresh s id Hm).
Qed.

Lemma doing_start req s t' s' :
  maps_ok s → persistent s = false → start req s = (Ret t', s') → doing (abs s) req t' (abs s').
Proof.
  intros Hm%maps_ok_issued Hp H.
  destruct req as [name|name d|name|id|id|id d|name ds|name count|ids];
    try (by eapply doing_start_take); cbn [start] in H; run H.
  - case_bool_decide; run H; [by apply S_create_exists|]. eapply doing_log; [exact Hp|exact H|].
    split_and!; [done| |done]. by apply eq_None_not_Some.
  - case_bool_decide as Hq; cbn [negb] in H; run H; [|by apply S_enqueue_missing, eq_None_not_Some].
    eapply doing_log; [exact Hp|exact H|]. split_and!; [right; eauto|done..].
  - destruct (in_flight (store s) !! id) as [task|] eqn:Ht; run H; [|by apply S_ack_missing].
    eapply doing_log; [|exact H|]; [exact Hp|]. exists id. by split_and!; [|exists task|].
  - destruct (in_flight (store s) !! id) as [task|] eqn:Ht; run H; [|by apply S_nack_missing].
    eapply doing_log; [|exact H|]; [exact Hp|]. by split_and!.
  - destruct (in_flight (store s) !! id) as [task|] eqn:Ht; run H; [|by apply S_extend_missing].
    eapply doing_log; [exact Hp|exact H|]. exists d. by split_and!; [|exists task|].
  - case_bool_decide as Hq; cbn [negb] in H; run H; [|by apply S_enqueue_batch_missing, eq_None_not_Some].
    eapply doing_log; [exact Hp|exact H|]. by split_and!; [left|..].
  - by exists [].
Qed.

Lemma set_tasks_snoc ts t a : a_set_tasks (ts ++ [t]) a = a_set_task (t_id t) t (a_set_tasks ts a).
Proof. unfold a_set_tasks. by rewrite foldl_app. Qed.
Lemma del_tasks_snoc ids id a : a_del_tasks (ids ++ [id]) a = a_del_task id (a_del_tasks ids a).
Proof. unfold a_del_tasks. by rewrite foldl_app. Qed.

Lemma doing_log_done a req k s t' s' :
  doing_rest a req k (abs s) → log_done k s = (Ret t', s') → doing a req t' (abs s').
Proof.
  intros Hd H. destruct k as [name|name items|name item id|name items ids| |id task|id|ids];
    cbn [log_done doing_rest] in *; run H.
  - destruct Hd as (-> & Hq & Ha). cbn [doing]. abstract_maps. by apply S_create.
  - destruct Hd as (Hreq & [q Hq] & Ha). abstract_maps. rewrite Hq in H. run H. cbn [doing]. abstract_maps.
    destruct Hreq as [->|(d & -> & ->)]; [by apply S_enqueue_batch|by apply S_enqueue].
  - destruct Hd as (rest & -> & Hq & Hdr & Ha).
    match goal with G : make_task _ _ _ _ = _ |- _ => apply make_task_Ret in G as ((Ha' & _) & <- & Hdel) end.
    exists item, rest. by rewrite Ha', Ha.
  - destruct Hd as (count & q & -> & Hq & -> & Hlen & Hdr & Ha). exists count, q, [].
    by split_and!.
  - destruct Hd as (id & -> & [t Ht] & Ha). cbn [doing]. rewrite Ha. by eapply S_ack.
  - destruct Hd as (-> & Ht & Ha). by exists id.
  - destruct Hd as (d & -> & [t Ht] & Ha). cbn [doing].
    match goal with |- spec_step _ _ _ _ (abs (set_in_flight (alter ?f id) ?s1)) =>
      assert (abs (set_in_flight (alter f id) s1) = a_set_task id (f t) a) as -> end; [|by apply S_extend].
    subst a. match goal with G : abs _ = abs s |- _ => pose proof (queues_of_abs _ _ G) as Hq;
      pose proof (tasks_of_abs _ _ G) as Hts end.
    unfold abs, set_in_flight, a_set_task. cbn. by rewrite Hq, Hts, (alter_as_insert _ _ _ t).
  - destruct Hd as (-> & Hall & Ha). by exists ids, [].
Qed.

Lemma doing_insert_tasks a req name ids i items tasks s t' s' :
  doing a req (InsertTasks name ids i items tasks) (abs s) →
  step (InsertTasks name ids i items tasks) s = (Ret t', s') → doing a req t' (abs s').
Proof.
  cbn [doing]. intros (count & q & made & -> & Hq & Htake & Hlen & [Hnd Hnew] & Hdel & Hids & -> & Ha) H.
  destruct items as [|item items]; cbn [step] in H; run H.
  - cbn [doing]. rewrite Ha. rewrite app_nil_r in *.
    assert (t_id <$> tasks = ids) as Hall by (rewrite Hids, take_ge; [done|lia]).
    apply S_dequeue_batch; [done|by rewrite Htake|]. split; [by rewrite Hall|].
    rewrite <- Hall in Hnew. by apply Forall_fmap in Hnew.
  - destruct (ids !! length made) as [id|] eqn:Hid; run H.
    match goal with G : make_task _ _ _ _ = _ |- _ => apply make_task_Ret in G as ((Ha' & _) & Hti & Hde) end.
    exists count, q, (made ++ [item]). rewrite <- app_assoc. split_and!; try done.
    + by apply Forall2_app; [|constructor].
    + by rewrite fmap_app, (take_S_r _ _ _ Hid), Hids; cbn; rewrite Hti.
    + rewrite length_app. cbn. lia.
    + rewrite set_tasks_snoc, Hti, <- Ha, <- Ha'. done.
Qed.

(** Each step of a command that nothing else disturbs. *)
Lemma doing_step a req t s t' s' :
  maps_ok s → persistent s = false → done t = false →
  doing a req t (abs s) → step t s = (Ret t', s') → doing a req t' (abs s').
Proof.
  intros Hm Hp Hdone Hd H.
  destruct t as [req'|op k|op k|[[]|e] k|name task|name ids i items tasks|task|ids [|id todo] missing|[|id todo]|resp|];
    try done; try (by eapply doing_insert_tasks); cbn [step] in H.
  - destruct Hd as [-> Ha]. rewrite <- Ha. by eapply doing_start.
  - by eapply doing_log_done.
  - destruct Hd as (item & rest & -> & Hq & Hdel & [Hnd Hnew] & Ha). run H. cbn [doing]. abstract_maps.
    apply S_dequeue with item; [done..|]. split; [done|]. by inversion_clear Hnew; constructor.
  - destruct Hd as (id & -> & Ht & Ha). run H. cbn [doing].
    by eapply (requeue_sim (f := false) (ok := λ s, persistent s = false)).
  - destruct Hd as (checked & -> & Hids & -> & Ha). rewrite app_nil_r in Hids. subst checked a.
    case_bool_decide as Hmiss; run H; [by eapply S_ack_batch_missing|].
    eapply doing_log; [exact Hp|exact H|]. split_and!; [done| |done].
    apply Forall_forall. intros id Hin. apply not_eq_None_Some. intros Hn.
    apply (not_elem_of_nil id). rewrite <- Hmiss. by apply list_elem_of_filter.
  - destruct Hd as (checked & -> & -> & -> & Ha). run H. exists (checked ++ [id]).
    split_and!; [done|by rewrite <- app_assoc| |done]. rewrite filter_app, filter_cons, filter_nil.
    abstract_maps. destruct (a_tasks (abs s) !! id); case_decide; try done; by rewrite app_nil_r.
  - destruct Hd as (ids & removed & -> & Hids & Hall & Ha). rewrite app_nil_r in Hids. subst removed.
    run H. cbn [doing]. rewrite Ha. by apply S_ack_batch.
  - destruct Hd as (ids & removed & -> & -> & Hall & Ha). run H. exists (removed ++ id :: todo), (removed ++ [id]).
    split_and!; [done|by rewrite <- app_assoc|done|]. rewrite del_tasks_snoc. by abstract_maps.
Qed.

(** A node without a log stays without one. *)
Definition memory (s : Sys) : Prop := persistent s = false.

Lemma vec_memory count size s x s' : vec_with_capacity count size s = (Ret x, s') → s' = s.
Proof. unfold vec_with_capacity. case_match; [done|]. by intros [= _ <-]. Qed.

Lemma step_memory t s t' s' : memory s → step t s = (Ret t', s') → memory s'.
Proof.
  unfold memory. intros Hp H.
  destruct t as [[]|op k|op k|[[]|e] []|name task|name ids i [|item items] tasks|task|ids [|id todo] missing|[|id todo]|resp|];
    cbn [step start log_done log_failed] in H; unfold push_back_front, requeue in H;
    run H; repeat (case_match; run H);
    repeat match goal with
    | G : vec_with_capacity _ _ _ = _ |- _ => apply vec_memory in G; subst
    | G : new_uuid _ = _ |- _ => apply new_uuid_Ret in G as (_ & G & _)
    | G : new_uuids _ _ = _ |- _ => apply new_uuids_Ret in G as (_ & G & _)
    | G : make_task _ _ _ _ = _ |- _ => apply make_task_Ret in G as ((_ & G & _) & _)
    | G : log _ _ ?s0 = _ |- _ =>
      rewrite log_off in G by (unfold persistent in *; cbn in *; congruence); injection G as <- <-
    end; unfold persistent in *; cbn in *; congruence.
Qed.
End doing.

(** ** The loop among readers *)

Section beside.
Context `{RT : !Runtime} `{CH : !Chrono} `{CD : !WalCodec} `{UL : !UuidLaws} `{SH : !Shards}.
Context `{RTy : !RaftTypes} `{SL : !Sled}.
Context {R : Type} (lock : R → option Guard) (read : R → M CombinedStorage R).

(** A reader changes no map and not the applied id. *)
Definition only_reads : Prop := ∀ b r b' r', read b r = (Ret b', r') →
  quiet (state_machine r) (state_machine r') ∧ last_applied_log r' = last_applied_log r.

Lemma requests_app es1 es2 : requests_of (es1 ++ es2) = requests_of es1 ++ requests_of es2.
Proof. apply omap_app. Qed.

Lemma weave_app es1 es2 reps1 reps2 :
  length reps1 = length (requests_of es1) → weave (es1 ++ es2) (reps1 ++ reps2) = weave es1 reps1 ++ weave es2 reps2.
Proof.
  revert reps1. induction es1 as [|e es1 IH]; intros reps1 Hlen; [by destruct reps1|].
  unfold requests_of in Hlen. cbn [app weave omap list_omap] in *.
  destruct (payload e); [|destruct reps1 as [|rep reps1]; [done|]; injection Hlen as Hlen|];
    cbn [app]; f_equal; by apply IH.
Qed.

Lemma spec_run_length f reqs a reps a' : spec_run f reqs a reps a' → length reps = length reqs.
Proof. induction 1; cbn; congruence. Qed.

Lemma spec_run_snoc f reqs req a reps a1 rep a2 :
  spec_run f reqs a reps a1 → spec_step f req a1 rep a2 → spec_run f (reqs ++ [req]) a (reps ++ [rep]) a2.
Proof.
  induction 1 as [a|req' reqs a rep' a1 reps a3 H1 H2 IH]; intros H; cbn [app].
  - econstructor; [exact H|constructor].
  - econstructor; [exact H1|]. by apply IH.
Qed.

Context (log0 : list Entry) (a0 : AState) (last0 : option LogId).

(** The entries [past] were applied, from the maps [a0] to [a]. *)
Definition applied (past : list Entry) (responses : list ClientResponse) (a : AState) : Prop :=
  ∃ reps, spec_run false (requests_of past) a0 reps a ∧ responses = weave past reps.

Definition follows (n : Applying) (r : CombinedStorage) : Prop :=
  match n with
  | NextEntry es responses => ∃ past, log0 = past ++ es ∧
      applied past responses (abs (state_machine r)) ∧ last_applied_log r = last_id past last0
  | InCommand e es responses t => ∃ past req a, log0 = past ++ e :: es ∧ payload e = Normal req ∧
      applied past responses a ∧ last_applied_log r = last_id past last0 ∧
      doing a req t (abs (state_machine r)) ∧ thread_ok t (state_machine r)
  | Recording e es responses => ∃ past, log0 = past ++ e :: es ∧
      applied (past ++ [e]) responses (abs (state_machine r)) ∧ last_applied_log r = last_id past last0
  | Applied responses => applied log0 responses (abs (state_machine r)) ∧ last_applied_log r = last_id log0 last0
  | ApplyPanicked => True
  end.

Lemma applied_start : applied [] [] a0.
Proof. exists []. split; [constructor|done]. Qed.

Lemma applied_plain past e responses a :
  applied past responses a → (∀ req, payload e ≠ Normal req) → applied (past ++ [e]) (responses ++ [ROk]) a.
Proof.
  intros (reps & Hrun & ->) He. pose proof (spec_run_length _ _ _ _ _ Hrun) as Hlen.
  assert (requests_of [e] = [] ∧ weave [e] [] = [ROk]) as [Hreq Hw].
  { unfold requests_of. cbn. by destruct (payload e) as [|req|m] eqn:E; [|by destruct (He req)|]. }
  exists reps. rewrite requests_app, Hreq, app_nil_r. split; [done|].
  rewrite <- (app_nil_r reps) at 2. by rewrite weave_app, Hw.
Qed.

Lemma applied_command past e req responses a resp a' :
  applied past responses a → payload e = Normal req → spec_step false req a resp a' →
  applied (past ++ [e]) (responses ++ [resp]) a'.
Proof.
  intros (reps & Hrun & ->) He Hs. pose proof (spec_run_length _ _ _ _ _ Hrun) as Hlen.
  assert (requests_of [e] = [req] ∧ weave [e] [resp] = [resp]) as [Hreq Hw].
  { unfold requests_of. cbn. by rewrite He. }
  exists (reps ++ [resp]). rewrite requests_app, Hreq. split; [by eapply spec_run_snoc|].
  by rewrite weave_app, Hw.
Qed.

Lemma last_id_snoc past e id : last_id (past ++ [e]) id = Some (log_id e).
Proof. unfold last_id. by rewrite last_snoc. Qed.

(** The invariant of a node: its maps are in order, and it has no log. *)
Definition node_ok (s : Sys) : Prop := maps_ok s ∧ memory s.

Lemma start_ok req s : thread_ok (Start req) s.
Proof. split; [done|]. split; [apply NoDup_nil_2|]. by intros id ?%not_elem_of_nil. Qed.

(** A step of the command. *)
Lemma follows_step e es resps t r t' s' :
  node_ok (state_machine r) → follows (InCommand e es resps t) r → done t = false →
  advance t (state_machine r) = (t', s') →
  follows (InCommand e es resps t') (with_machine r s') ∧ (t' = Dropped ∨ node_ok s').
Proof.
  intros [Hm Hp] (past & req & a & Hlog & He & Ha & Hl & Hd & Ht) Hdone Hadv.
  destruct (advance_keeps _ _ Hm Ht) as [Hm' Ht' _ _ _]. rewrite Hadv in Hm', Ht'. cbn [fst snd] in *.
  assert (doing a req t' (abs s') ∧ (t' = Dropped ∨ memory s')) as [Hd' Hmem].
  { unfold advance in Hadv. destruct (step t (state_machine r)) as [[t1|msg] s1] eqn:Hs; injection Hadv as <- <-.
    - split; [exact (doing_step _ _ _ _ _ _ Hm Hp Hdone Hd Hs)|right; exact (step_memory _ _ _ _ Hp Hs)].
    - by split; [|left]. }
  split; [|by destruct Hmem as [->|]; [left|right]]. by exists past, req, a.
Qed.

(** The loop has panicked, or is about to. *)
Definition doomed (n : Applying) : bool :=
  match n with InCommand _ _ _ Dropped | ApplyPanicked => true | _ => false end.

Lemma follows_point n r n' r' :
  node_ok (state_machine r) → follows n r → apply_point n r = Some (n', r') →
  follows n' r' ∧ (doomed n' = true ∨ node_ok (state_machine r')).
Proof.
  intros Hok Hf H. destruct n as [[|e es] resps|e es resps t|e es resps|resps|]; cbn [apply_point] in H; try done.
  - injection H as <- <-. destruct Hf as (past & Hlog & Ha & Hl). rewrite app_nil_r in Hlog.
    subst past. by split; [|right].
  - destruct Hf as (past & Hlog & Ha & Hl). destruct (payload e) as [|req|m] eqn:Hp; injection H as <- <-;
      (split; [|by right]); cbn [follows].
    1, 3: exists past; split_and!; [done| |done]; apply applied_plain; [done|intros req; by rewrite Hp].
    exists past, req, (abs (state_machine r)). split_and!; try done; apply start_ok.
  - destruct (done t) eqn:Hd.
    + destruct t as [| | | | | | | | |resp|]; try done; injection H as <- <-; [|by split; [|left]].
      destruct Hf as (past & req & a & Hlog & He & Ha & Hl & Hs & _). split; [|by right].
      exists past. split_and!; [done| |done]. by eapply applied_command.
    + destruct (advance t (state_machine r)) as [t' s'] eqn:Ha.
      destruct (follows_step _ _ _ _ _ _ _ Hok Hf Hd Ha) as [Hf' Hok'].
      assert (n' = InCommand e es resps t' ∧ r' = with_machine r s') as [-> ->].
      { destruct t; try done; by injection H as <- <-. }
      split; [exact Hf'|]. destruct Hok' as [->|]; [by left|by right].
  - destruct Hf as (past & Hlog & Ha & Hl). injection H as <- <-. split; [|by right].
    exists (past ++ [e]). rewrite <- app_assoc, last_id_snoc. by split_and!.
Qed.

Lemma doomed_point n r n' r' : doomed n = true → apply_point n r = Some (n', r') → doomed n' = true.
Proof. destruct n as [| ? ? ? []| | |]; try done. by intros _ [= <- _]. Qed.

Lemma thread_ok_quiet t s s' : quiet s s' → thread_ok t s → thread_ok t s'.
Proof.
  intros Hq (Hp & Hnd & Ha). split; [eapply grows_point; [by apply quiet_grows|done]|].
  split; [done|by eapply quiet_apart].
Qed.

Lemma follows_quiet n r r' :
  quiet (state_machine r) (state_machine r') → last_applied_log r' = last_applied_log r →
  follows n r → follows n r'.
Proof.
  intros Hq Hl. destruct n as [es resps|e es resps t|e es resps|resps|]; cbn [follows];
    rewrite ?(proj1 Hq), ?Hl; try done.
  intros (past & req & a & Hlog & He & Ha & Hla & Hd & Ht).
  exists past, req, a. split_and!; try done. by eapply thread_ok_quiet.
Qed.

Lemma node_ok_quiet s s' : quiet s s' → node_ok s → node_ok s'.
Proof. intros Hq [Hm Hp]. split; [by eapply quiet_maps|]. destruct Hq as (_ & H & _). unfold memory. congruence. Qed.

(** Whatever has run, the node follows its log. *)
Lemma follows_run sched : only_reads → ∀ n b r n' b' r',
  doomed n = true ∨ follows n r ∧ node_ok (state_machine r) →
  apply_run lock read sched (n, b, r) = Some (n', b', r') →
  doomed n' = true ∨ follows n' r' ∧ node_ok (state_machine r').
Proof.
  intros Hr. induction sched as [|ev sched IH]; intros n b r n' b' r' Hf H.
  { by injection H as <- <- <-. }
  cbn [apply_run] in H. destruct (apply_event lock read ev (n, b, r)) as [[[n1 b1] r1]|] eqn:He; [|done].
  refine (IH _ _ _ _ _ _ _ H). destruct ev; cbn [apply_event] in He.
  - destruct (apply_point n r) as [[n2 r2]|] eqn:Hp; [|done]. injection He as <- <- <-.
    destruct Hf as [Hd|[Hf Hok]]; [left; by eapply doomed_point|].
    destruct (follows_point _ _ _ _ Hok Hf Hp) as [Hf' [Hd|Hok']]; [by left|by right].
  - destruct (match lock b with Some g => apply_holds n g | None => false end); [done|].
    destruct (read b r) as [[b2|] r2] eqn:Hb; [|done]. injection He as <- <- <-.
    destruct (Hr _ _ _ _ Hb) as [Hq Hl]. destruct Hf as [Hd|[Hf Hok]]; [by left|right].
    split; [by eapply follows_quiet|by eapply node_ok_quiet].
Qed.
End beside.

Section refinement.
Context `{RT : !Runtime} `{CH : !Chrono} `{CD : !WalCodec} `{UL : !UuidLaws} `{SH : !Shards}.
Context `{RTy : !RaftTypes} `{SL : !Sled}.
Context {R : Type} (lock : R → option Guard) (read : R → M CombinedStorage R).

Lemma node_inv_ok s : node_inv s → persistent s = false → node_ok s.
Proof. intros Hi Hp. split; [exact (proj1 (pool_ok_calls [] s Hi))|exact Hp]. Qed.

Lemma follows_start es r : follows es (abs (state_machine r)) (last_applied_log r) (NextEntry es []) r.
Proof. exists []. split_and!; [done|apply applied_start|done]. Qed.

(** C26. Refinement of the loop among readers: whatever reads the maps beside it, under
    every schedule in which the loop ends without a panic it has answered and done
    what the abstract queue service answers and does to the commands of the log in
    order, answered Ok to the other entries, and recorded the id of the last one. *)
Theorem apply_refines_service es b r sched responses b' r' :
  only_reads read → node_inv (state_machine r) → persistent (state_machine r) = false →
  apply_run lock read sched (NextEntry es [], b, r) = Some (Applied responses, b', r') →
  ∃ reps, spec_run false (requests_of es) (abs (state_machine r)) reps (abs (state_machine r')) ∧
    responses = weave es reps ∧ last_applied_log r' = last_id es (last_applied_log r).
Proof.
  intros Hr Hi Hp H.
  destruct (follows_run lock read _ _ _ sched Hr _ _ _ _ _ _
    (or_intror (conj (follows_start es r) (node_inv_ok _ Hi Hp))) H) as [?|[[(reps & Hrun & Hre) Hl] _]];
    [done|by exists reps].
Qed.
End refinement.

(** ** The snapshot builder beside the loop *)

Inductive Building `{RTy : !RaftTypes} :=
| BuildCopy (c : Copying)
(** [self.last_applied_log.read().await] *)
| BuildReadId (data : bytes)
| Built (result : Result Snapshot string).

Section building.
Context `{RT : !Runtime} `{CH : !Chrono} `{CD : !WalCodec} `{UL : !UuidLaws} `{DL : !DashLaws} `{SH : !Shards}.
Context `{RTy : !RaftTypes} `{SL : !Sled} `{SC : !SnapshotCodec}.
Context (shards : nat).

Definition build_step (b : Building) : M CombinedStorage Building :=
  match b with
  | BuildCopy (Copied qs ts) =>
    match snapshot_to_vec (qs, ts) with
    | Err e => mret (Built (Err e))
    | Ok data => mret (BuildReadId data)
    end
  | BuildCopy c => c' ← on_state_machine (copy_step shards c); mret (BuildCopy c')
  | BuildReadId data =>
    last_log ← gets last_applied_log;
    let meta := mkSnapshotMeta last_log (mkStoredMembership last_log membership_default)
      ("snap-" +:+ pretty.pretty (match last_log with Some l => index l | None => 0%Z end))%string in
    mret (Built (Ok (mkSnapshot meta data)))
  | Built _ => mret b
  end.

Definition build_lock (b : Building) : option Guard :=
  match b with BuildCopy c => copy_lock shards c | _ => None end.

Definition build_start : Building := BuildCopy (CopyQueues 0 []).

(** *** It only reads *)

Lemma iter_queue_shard_quiet n s l s' : iter_queue_shard n s = (Ret l, s') → quiet s s'.
Proof. apply iter_map_quiet. Qed.
Lemma iter_shard_quiet n s l s' : iter_shard n s = (Ret l, s') → quiet s s'.
Proof. apply iter_map_quiet. Qed.

Lemma copy_step_quiet c s c' s' : copy_step shards c s = (Ret c', s') → quiet s s'.
Proof.
  intros H. destruct c as [n qs|qs n ts|qs ts]; cbn [copy_step] in H; [| |by minv];
    destruct (n <? shards); minv; eauto using iter_queue_shard_quiet, iter_shard_quiet; done.
Qed.

Lemma count_step_quiet c s c' s' : count_step shards c s = (Ret c', s') → quiet s s'.
Proof.
  intros H. destruct c; cbn [count_step] in H; [| | |by minv];
    case_match; minv; eauto using iter_queue_shard_quiet, iter_shard_quiet; done.
Qed.

Lemma on_machine_only_reads {R} (step : R → M Sys R) :
  (∀ b s b' s', step b s = (Ret b', s') → quiet s s') → only_reads (λ b, on_state_machine (step b)).
Proof.
  intros Hq b r b' r' H. unfold on_state_machine in H.
  destruct (step b (state_machine r)) as [o s'] eqn:Hs. injection H as -> <-. split; [by eapply Hq|done].
Qed.

Lemma build_only_reads : only_reads build_step.
Proof.
  intros b r b' r' H. destruct b as [c|data|res]; cbn [build_step] in H; [|by minv|by minv].
  destruct c as [n qs|qs n ts|qs ts]; [| |by case_match; minv]; minv;
    match goal with G : on_state_machine _ _ = _ |- _ =>
      by apply (on_machine_only_reads (copy_step shards) copy_step_quiet _ _ _ _ G) end.
Qed.

(** The statistics handler and any other walk over the maps are such readers too. *)
Lemma count_only_reads : only_reads (λ c, on_state_machine (count_step shards c)).
Proof. apply on_machine_only_reads, count_step_quiet. Qed.

(** *** Undisturbed it is [build_snapshot] *)

Hypothesis queue_shards : ∀ k, queue_shard k < shards.
Hypothesis task_shards : ∀ k, task_shard k < shards.

Lemma build_copy_step c r c1 s1 :
  copy_step shards c (state_machine r) = (Ret c1, s1) → ¬ is_copied c →
  build_step (BuildCopy c) r = (Ret (BuildCopy c1), with_machine r s1).
Proof.
  intros H Hc. destruct c; try (by destruct Hc); cbn [build_step];
    by erewrite bind_step by (unfold on_state_machine; rewrite H; reflexivity).
Qed.

Definition maps_of (r : CombinedStorage) : gmap string (list QueueItem) * gmap string InFlightTask :=
  (queues (store (state_machine r)), in_flight (store (state_machine r))).

Lemma copies a c : ∀ r seen, (∀ g, apply_holds a g = false) → copy_inv shards seen c →
  (∀ s, s ∈ seen → store s = store (state_machine r)) →
  ∃ n s', apply_run build_lock build_step (replicate n OfReading) (a, BuildCopy c, r)
      = Some (a, BuildCopy (Copied (maps_of r).1 (maps_of r).2), with_machine r s') ∧
    store s' = store (state_machine r).
Proof.
  remember (copy_rank shards c) as k eqn:Hk. revert c Hk.
  induction k as [k IH] using (well_founded_ind lex_lt_wf). intros c -> r seen Ha Hi Hseen.
  destruct (copy_step_next shards c (state_machine r)) as [Hc|(c1 & s1 & Hs & Hlt)].
  - destruct c as [| |qs ts]; try done. destruct Hi as [Hq Ht].
    exists 0, (state_machine r). split; [|done]. cbn. destruct r as [d s l]. cbn [maps_of with_machine fst snd].
    do 3 f_equal. cbn in *.
    + do 3 f_equal; apply map_eq; intros i.
      * destruct (Hq i) as (s' & Hin & ->). by rewrite (Hseen _ Hin).
      * destruct (Ht i) as (s' & Hin & ->). by rewrite (Hseen _ Hin).
  - assert (¬ is_copied c) as Hc by (destruct c; [tauto..|cbn in Hs; minv; destruct Hlt; cbn in *; lia]).
    pose proof (copy_step_store shards _ _ _ _ Hs) as Hst.
    destruct (IH _ Hlt c1 eq_refl (with_machine r s1) (state_machine r :: seen) Ha) as (n & s' & Hrun & Hs').
    { eapply (copy_step_inv shards); [exact queue_shards|exact task_shards|..|exact Hs]; [|apply list_elem_of_here].
      eapply copy_inv_mono; [|exact Hi]. set_solver. }
    { cbn [state_machine with_machine]. rewrite Hst. intros s [->|Hin]%elem_of_cons; [done|by apply Hseen]. }
    exists (S n), s'. split; [|cbn in Hs'; congruence].
    cbn [replicate apply_run apply_event build_lock]. rewrite (build_copy_step _ _ _ _ Hs Hc).
    unfold maps_of in *. cbn [state_machine with_machine] in *. rewrite Hst in Hrun.
    destruct (copy_lock shards c) as [g|]; [rewrite Ha|]; exact Hrun.
Qed.

Context `{SCL : !SnapshotCodecLaws}.

(** Between two steps of the loop the maps are copied whole. *)
Lemma builds a r : (∀ g, apply_holds a g = false) →
  ∃ n data s', apply_run build_lock build_step (replicate n OfReading) (a, build_start, r)
      = Some (a, BuildReadId data, with_machine r s') ∧
    store s' = store (state_machine r) ∧ snapshot_from_slice data = Ok (maps_of r).
Proof.
  intros Ha. destruct (copies a (CopyQueues 0 []) r [] Ha) as (n & s' & Hrun & Hs).
  { split; [lia|apply read_below_nil]. }
  { by intros s ?%not_elem_of_nil. }
  destruct (snapshot_total (maps_of r)) as [data Hd]. exists (n + 1), data, s'.
  split_and!; [|done|by apply snapshot_roundtrip].
  rewrite replicate_add, apply_run_app. unfold build_start. rewrite Hrun.
  cbn [replicate apply_run apply_event build_lock copy_lock build_step]. change ((maps_of r).1, (maps_of r).2) with (maps_of r). by rewrite Hd.
Qed.
End building.

(** *** What a snapshot claims *)

Section claims.
Context `{RT : !Runtime} `{CH : !Chrono} `{CD : !WalCodec} `{UL : !UuidLaws} `{DL : !DashLaws} `{SH : !Shards}.
Context `{RTy : !RaftTypes} `{SL : !Sled} `{SC : !SnapshotCodec} `{SCL : !SnapshotCodecLaws}.
Context (shards : nat).
Hypothesis queue_shards : ∀ k, queue_shard k < shards.
Hypothesis task_shards : ∀ k, task_shard k < shards.

Lemma enqueue_memory name d q s :
  persistent s = false → queues (store s) !! name = Some q →
  apply_request (REnqueue name d) s = (Ret ROk, set_queues (insert name (q ++ [mkQueueItem d 0])) s).
Proof.
  intros Hp Hq. assert (enqueue name d s = (Ret (Ok tt), set_queues (insert name (q ++ [mkQueueItem d 0])) s)) as H;
    [|cbn [apply_request]; by erewrite bind_step by exact H].
  unfold enqueue, try_bind.
  unfold contains_queue. rewrite bind_gets, Hq, bool_decide_true by done. cbn [negb].
  erewrite bind_step by (by apply wal_append_memory, memory_wal). cbv beta iota.
  erewrite bind_step by (unfold get_mut_queue, get_queue; rewrite bind_gets, Hq; reflexivity). done.
Qed.

Lemma apply_enqueue e name d q r :
  payload e = Normal (REnqueue name d) → persistent (state_machine r) = false →
  queues (store (state_machine r)) !! name = Some q →
  apply_to_state_machine [e] r = (Ret [ROk],
    mkCombined (db r) (set_queues (insert name (q ++ [mkQueueItem d 0])) (state_machine r)) (Some (log_id e))).
Proof.
  intros He Hp Hq. assert (weave [e] [ROk] = [ROk]) as Hw by (cbn; by rewrite He).
  rewrite <- Hw. apply (apply_log_spec [e] r [ROk]). unfold requests_of. cbn. rewrite He. cbn [apply_requests].
  by erewrite bind_step by (by apply enqueue_memory).
Qed.

(** A snapshot built while an entry is applied can be of either side of the entry.
    Its copy may be taken before the entry while the id is read after it: a replica
    that installs it never sees the message.  Or the copy is taken after the command
    and the id read before it is recorded: a replica that installs it and goes on
    from there has the message twice. *)
Theorem snapshot_either_side r r2 e name d q :
  persistent (state_machine r) = false → persistent (state_machine r2) = false →
  queues (store (state_machine r)) !! name = Some q → payload e = Normal (REnqueue name d) →
  let run sched := apply_run (build_lock shards) (build_step shards) sched (NextEntry [e] [], build_start, r) in
  (∃ sched snap r' r2', run sched = Some (Applied [ROk], Built (Ok snap), r') ∧
     queues (store (state_machine r')) !! name = Some (q ++ [mkQueueItem d 0]) ∧
     install_snapshot (meta snap) (snapshot snap) r2 = (Ret (Ok tt), r2') ∧
     last_applied_log r2' = last_applied_log r' ∧
     queues (store (state_machine r2')) !! name = Some q) ∧
  (∃ sched snap r' r2' r2'', run sched = Some (Applied [ROk], Built (Ok snap), r') ∧
     queues (store (state_machine r')) !! name = Some (q ++ [mkQueueItem d 0]) ∧
     install_snapshot (meta snap) (snapshot snap) r2 = (Ret (Ok tt), r2') ∧
     last_applied_log r2' = last_applied_log r ∧
     apply_to_state_machine [e] r2' = (Ret [ROk], r2'') ∧
     last_applied_log r2'' = last_applied_log r' ∧
     queues (store (state_machine r2'')) !! name = Some (q ++ [mkQueueItem d 0; mkQueueItem d 0])).
Proof.
  intros Hp Hp2 Hq He run. split.
  - destruct (builds shards queue_shards task_shards (NextEntry [e] []) r) as (n & data & s1 & Hb & Hs1 & Hd); [done|].
    destruct (apply_alone (build_lock shards) (build_step shards) [e] [] (with_machine r s1) (BuildReadId data))
      as [m Hm].
    change (apply_entries [e] []) with (apply_to_state_machine [e]) in Hm.
    rewrite (apply_enqueue e name d q) in Hm; [|done|by unfold persistent in *; cbn; rewrite Hs1|by cbn; rewrite Hs1].
    cbn [fst snd loop_end] in Hm.
    exists (replicate n OfReading ++ replicate m OfLoop ++ [OfReading]). do 3 eexists. split.
    { unfold run. rewrite !apply_run_app, Hb, apply_run_app, Hm. reflexivity. }
    cbn. split; [by rewrite lookup_insert_eq|]. split; [by apply install_snapshot_Ret|]. done.
  - pose proof (command_alone (build_lock shards) (build_step shards) e [] [] (REnqueue name d) r) as Hc.
    rewrite (enqueue_memory name d q) in Hc by done. destruct (Hc build_start) as [m Hm].
    set (s1 := set_queues _ _) in *.
    destruct (builds shards queue_shards task_shards (Recording e [] [ROk]) (with_machine r s1))
      as (n & data & s2 & Hb & Hs2 & Hd); [done|].
    assert (queues (store s2) !! name = Some (q ++ [mkQueueItem d 0])) as Hq2.
    { rewrite Hs2. cbn. by rewrite lookup_insert_eq. }
    exists (OfLoop :: replicate m OfLoop ++ replicate n OfReading ++ [OfReading; OfLoop; OfLoop]). do 4 eexists. split.
    { unfold run. cbn [apply_run apply_event apply_point]. rewrite He, apply_run_app, Hm. cbn [app].
      rewrite apply_run_app, Hb. reflexivity. }
    cbn. split; [exact Hq2|]. split; [by apply install_snapshot_Ret|]. split; [done|].
    split; [apply (apply_enqueue e name d (q ++ [mkQueueItem d 0]))|]; [done|done|by apply lookup_insert_eq|].
    split; [done|]. cbn. by rewrite lookup_insert_eq, <- app_assoc.
Qed.
End claims.

(** ** Examples *)

#[local] Existing Instance ex_runtime.
#[local] Existing Instance Readers.ex_shards.

Definition ex_worklog : list Entry :=
  [ex_entry 1 Blank; ex_entry 2 (Normal (RCreateQueue "q")); ex_entry 3 (Normal (REnqueue "q" [x61]));
   ex_entry 4 (Normal (RDequeue "q")); ex_entry 5 (Normal (RNack "task-0"))].
Definition ex_node : Applying * Building * CombinedStorage := (NextEntry ex_worklog [], build_start, ex_replica ex_start).
(** A step of the snapshot builder after every third of the loop. *)
Definition ex_both : list ApplyEvent :=
  concat (replicate 8 [OfLoop; OfLoop; OfReading; OfLoop]) ++ [OfLoop] ++ replicate 4 OfReading.
Definition ex_end : option (Applying * Building * CombinedStorage) :=
  apply_run (build_lock 4) (build_step 4) ex_both ex_node.
Definition ex_responses : list ClientResponse :=
  match ex_end with Some (Applied responses, _, _) => responses | _ => [] end.
Definition ex_built : option Snapshot :=
  match ex_end with Some (_, Built (Ok snap), _) => Some snap | _ => None end.

(** The snapshot has the empty queue of the beginning and claims the whole log. *)
Lemma apply_refines_service_witness :
  ∃ b' r' reps, apply_run (build_lock 4) (build_step 4) ex_both ex_node = Some (Applied ex_responses, b', r') ∧
    spec_run false (requests_of ex_worklog) (abs ex_start) reps (abs (state_machine r')) ∧
    ex_responses = weave ex_worklog reps ∧ last_applied_log r' = Some (@mkLogId sim_raft 1%Z 5) ∧
    length ex_responses = 5 ∧ (last_log_id ∘ meta) <$> ex_built = Some (Some (@mkLogId sim_raft 1%Z 5)).
Proof.
  assert (match ex_end with Some (Applied _, _, _) => true | _ => false end = true) as H by (vm_compute; reflexivity).
  assert (length ex_responses = 5) as Hlen by (vm_compute; reflexivity).
  assert ((last_log_id ∘ meta) <$> ex_built = Some (Some (@mkLogId sim_raft 1%Z 5))) as Hb by (vm_compute; reflexivity).
  destruct ex_end as [[[a b'] r']|] eqn:E; [|discriminate H].
  destruct a as [| | |responses|]; try discriminate H.
  assert (ex_responses = responses) as Hr by (unfold ex_responses; rewrite E; reflexivity).
  destruct (apply_refines_service (RT := ex_runtime) (SH := ex_shards) (build_lock 4) (build_step 4) ex_worklog build_start
    (ex_replica ex_start) ex_both responses b' r') as (reps & Hrun & Hre & Hl).
  - exact (build_only_reads 4).
  - apply reachable_inv, reach_new.
  - reflexivity.
  - exact E.
  - exists b', r', reps. rewrite Hr in Hlen |- *. split; [exact E|]. split; [exact Hrun|]. split; [exact Hre|].
    split; [exact Hl|]. split; [exact Hlen|exact Hb].
Defined.

Lemma snapshot_either_side_witness :
  ∃ sched snap r' r2', apply_run (build_lock 4) (build_step 4) sched
      (NextEntry [ex_entry 9 (Normal (REnqueue "q" [x63]))] [], build_start, ex_replica ex_state)
      = Some (Applied [ROk], Built (Ok snap), r') ∧
    install_snapshot (meta snap) (snapshot snap) (ex_replica ex_peer) = (Ret (Ok tt), r2') ∧
    last_applied_log r2' = last_applied_log r' ∧
    queues (store (state_machine r')) !! "q" = Some [mkQueueItem [x62] 0; mkQueueItem [x63] 0] ∧
    queues (store (state_machine r2')) !! "q" = Some [mkQueueItem [x62] 0].
Proof.
  destruct (snapshot_either_side (RT := ex_runtime) (SH := ex_shards) 4 ex_shard_below ex_shard_below
    (ex_replica ex_state) (ex_replica ex_peer) (ex_entry 9 (Normal (REnqueue "q" [x63]))) "q" [x63]
    [mkQueueItem [x62] 0]) as [(sched & snap & r' & r2' & H1 & H2 & H3 & H4 & H5) _];
    [reflexivity|reflexivity|vm_compute; reflexivity|reflexivity|].
  exists sched, snap, r', r2'. split; [exact H1|]. split; [exact H3|]. split; [exact H4|]. split; [exact H2|exact H5].
Defined.
