(* ===== verification/Crash.v ===== *)
(** * A process that ends in the middle of concurrent calls

    What is in the log of a persistent node at any moment of any schedule of
    concurrent calls, and so what a restart after a crash at that moment finds:
    every call that answered success is in the log once, every call that answered
    an error is not, and of the others at most one entry is.  The counters of a
    log that is not longer than a [u32] can count never overflow in the replay. *)

From stdpp Require Import prelude base gmap strings list fin_maps.
From Stdlib Require Import ZArith Lia Strings.Byte.
From S2P Require Import Prelude Types Env Wal Memory Spec Commands Refinement Invariant Models Storage StorageFn Deliveries Recovery Durability Threads Alone Account Interleave.
Local Open Scope oxide_scope.
Set Warnings "-clear-no-such-hyp,-register-all".

(** ** Counters in the replay *)

Lemma log_pops_below n name ids : ∀ q a,
  (n + 1 < u32_modulus)%Z → Forall (λ item, qi_attempts item ≤ n)%Z q → counts_below (n + 1) a →
  counts_below (n + 1) (log_pops name ids q a).
Proof.
  induction ids as [|id ids IH]; intros [|item q] a Hn Hq Ha; try done.
  apply Forall_cons in Hq as [Hi Hq]. cbn. apply IH; [done..|].
  apply below_set_task; [cbn; by apply next_attempt_below|]. apply below_set_queue; [|done].
  eapply Forall_impl; [exact Hq|]. cbn. lia.
Qed.

Lemma log_append_below n name items a :
  Forall (λ item, qi_attempts item ≤ n)%Z items → counts_below n a → counts_below n (log_append name items a).
Proof.
  intros Hi Ha. unfold log_append. destruct (a_queues a !! name) as [q|] eqn:Hq; [|done].
  apply below_set_queue; [|done]. apply Forall_app_2; [by eapply below_queues|done].
Qed.

Lemma log_requeue_below n t a : (t_attempts t ≤ n)%Z → counts_below n a → counts_below n (log_requeue t a).
Proof.
  intros Ht Ha. unfold log_requeue. case_match.
  - apply below_set_queue; [|done]. apply Forall_app_2; [by apply below_queue|by apply Forall_singleton].
  - destruct (a_queues a !! t_queue_name t) as [q|] eqn:Hq; [|done].
    apply below_set_queue; [|done]. constructor; [done|by eapply below_queues].
Qed.

Lemma log_step_below n op a :
  (0 ≤ n)%Z → (n + 1 < u32_modulus)%Z → counts_below n a → counts_below (n + 1) (log_step op a).
Proof.
  intros Hn0 Hn Ha. pose proof (below_weaken n (n + 1) a ltac:(lia) Ha) as Ha1.
  destruct op; cbn [log_step]; try (by case_match; auto with oxide); auto with oxide.
  - apply log_append_below; [apply Forall_singleton; cbn; lia|done].
  - apply log_append_below; [|done]. apply Forall_fmap, Forall_forall. intros d _. cbn. lia.
  - apply (log_pops_below n); auto with oxide.
  - apply (log_pops_below n); auto with oxide.
  - match goal with |- context [a_tasks a !! ?id] => destruct (a_tasks a !! id) eqn:Ht; [|done] end.
    apply log_requeue_below; [|by apply below_del_task]. by eapply (below_tasks (n + 1)).
Qed.

Section counts.
Context `{RT : !Runtime}.

Lemma no_overflow_below n q :
  (n + 1 < u32_modulus)%Z → Forall (λ item, qi_attempts item ≤ n)%Z q → Forall no_overflow q.
Proof. intros Hn Hq. eapply Forall_impl; [exact Hq|]. intros item ? _. cbn in *. lia. Qed.

Lemma log_safe_below n op a : (n + 1 < u32_modulus)%Z → counts_below n a → log_safe op a.
Proof.
  intros Hn Ha. destruct op; cbn [log_safe]; try done; apply Forall_take;
    (eapply no_overflow_below; [done|by apply below_queue]).
Qed.

(** A log of fewer entries than a [u32] counts replays without overflow. *)
Lemma short_log_safe ops : ∀ n a,
  (0 ≤ n)%Z → (n + Z.of_nat (length ops) < u32_modulus)%Z → counts_below n a → log_run_safe ops a.
Proof.
  induction ops as [|op ops IH]; intros n a Hn Hl Ha; [done|]. cbn [length] in Hl. split.
  - apply (log_safe_below n); [lia|done].
  - apply (IH (n + 1)%Z); [lia|lia|]. apply log_step_below; [lia|lia|done].
Qed.

Lemma short_log_safe_empty ops : (Z.of_nat (length ops) < u32_modulus)%Z → log_run_safe ops a_empty.
Proof.
  intros Hl. apply (short_log_safe ops 0); [lia|lia|].
  split; intros ? ? H; cbn in H; by rewrite lookup_empty in H.
Qed.
End counts.

(** ** What a call has written *)

(** The entry a command writes, and what is left of the call after it. *)
Definition writes (req : ClientRequest) (op : WalOp) (k : Rest) : Prop :=
  match req, k with
  | RCreateQueue name, KInsertQueue n => n = name ∧ op = WCreateQueue name
  | REnqueue name d, KPush n ds => n = name ∧ ds = [d] ∧ op = WEnqueue name d
  | REnqueueBatch name items, KPush n ds => n = name ∧ ds = items ∧ op = WEnqueueBatch name items
  | RDequeue name, KDeliver n _ id => n = name ∧ op = WDequeued name id
  | RDequeueBatch name _, KDeliverBatch n items ids =>
    n = name ∧ op = WDequeuedBatch name ids ∧ ids ≠ [] ∧ length ids = length items
  | RAck id, KAcked => op = WAck id
  | RNack id, KRequeue i _ => i = id ∧ op = WNack id
  | RExtendVisibility id d, KStamp i => i = id ∧ op = WExtendVisibility id d
  | RAckBatch ids, KRemove l => l = ids ∧ op = WAckBatch ids
  | _, _ => False
  end.

(** An entry the command may have written. *)
Definition entry_of (req : ClientRequest) (op : WalOp) : Prop := ∃ resp, log_of req resp = [op].

Lemma writes_entry req op k : writes req op k → entry_of req op.
Proof.
  destruct req, k; cbn; try done; intros H; destruct_and?; subst; try (by exists ROk).
  - by exists (RTask (Some (mkTask task_id [] 0 queue 0))).
  - destruct task_ids as [|id ids]; [done|].
    exists (RTasks ((λ i, mkTask i [] 0 queue 0) <$> id :: ids)). cbn. do 3 f_equal.
    rewrite <- list_fmap_compose. cbn. by rewrite list_fmap_id.
Qed.

Section crash.
Context `{RT : !Runtime} `{CH : !Chrono} `{CD : !WalCodec} `{SH : !Shards} `{UL : !UuidLaws}.

(** The queue an enqueue appends to is still there. *)
Definition push_ok (k : Rest) (s : Sys) : Prop :=
  match k with KPush name _ => has_queue s name | _ => True end.

(** The call of [req] at [t] has written [ops] to the log. *)
Definition wrote (req : ClientRequest) (t : Thread) (ops : list WalOp) (s : Sys) : Prop :=
  match t with
  | Start r => r = req ∧ ops = []
  | WaitLog op k | Appending op k => writes req op k ∧ push_ok k s ∧ ops = []
  | Logged (Ok _) k => push_ok k s ∧ ∃ op, writes req op k ∧ ops = [op]
  | Logged (Err _) _ => False
  | InsertTask name task => req = RDequeue name ∧ ops = [WDequeued name (t_id task)]
  | InsertTasks name ids i items tasks =>
    ∃ count, req = RDequeueBatch name count ∧ ops = [WDequeuedBatch name ids] ∧ ids ≠ [] ∧
      length ids = i + length items ∧ t_id <$> tasks = take i ids
  | Requeue task => has_queue s (t_queue_name task) ∧ ∃ id, req = RNack id ∧ ops = [WNack id]
  | CheckTasks ids _ _ => req = RAckBatch ids ∧ ops = []
  | RemoveTasks _ => ∃ ids, req = RAckBatch ids ∧ ops = [WAckBatch ids]
  | Finished resp => ops = log_of req resp
  | Dropped => ops = [] ∨ ∃ op, entry_of req op ∧ ops = [op]
  end.

Lemma wrote_grows req t ops s s' : grows s s' → wrote req t ops s → wrote req t ops s'.
Proof.
  intros [H _]. destruct t as [|op k|op k|[] k| | | | | | |]; cbn; try done;
    try (destruct k; cbn; naive_solver). naive_solver.
Qed.

(** Whatever becomes of the call, it wrote at most one entry. *)
Lemma wrote_once req t ops s : wrote req t ops s → ops = [] ∨ ∃ op, entry_of req op ∧ ops = [op].
Proof.
  destruct t as [|op k|op k|[] k| | | | | | |]; cbn; try naive_solver eauto using writes_entry.
  - intros [-> ->]. right. eexists. split; [|done]. by exists (RTask (Some task)).
  - intros (count & -> & -> & Hne & Hl & _). right. eexists. split; [|done].
    apply (writes_entry _ _ (KDeliverBatch name (replicate (length task_ids) (mkQueueItem [] 0)) task_ids)).
    cbn. by rewrite length_replicate.
  - intros (_ & id & -> & ->). right. eexists. split; [|done]. by exists ROk.
  - intros (ids & -> & ->). right. eexists. split; [|done]. by exists ROk.
  - intros ->. destruct (log_of req resp) as [|op [|]] eqn:Hl; [by left| |].
    + right. exists op. split; [by exists resp|done].
    + pose proof (log_of_short req resp) as H. rewrite Hl in H. cbn in H. lia.
Qed.

Context `{DL : !DashLaws} `{FL : !FsLaws} `{RD : !ReliableDisk} `{CL : !WalCodecLaws}.

(** Code that leaves the log alone, whether it returns or panics. *)
Definition no_log {A} (c : M Sys A) : Prop := ∀ p s es, logged p s es → logged p (c s).2 es.

Lemma no_log_ret {A} (a : A) : no_log (mret a).
Proof. by intros p s es. Qed.
Lemma no_log_panic {A} msg : no_log (panic msg : M Sys A).
Proof. by intros p s es. Qed.
Lemma no_log_gets {A} (f : Sys → A) : no_log (gets f).
Proof. by intros p s es. Qed.
Lemma no_log_bind {A B} (c : M Sys A) (k : A → M Sys B) : no_log c → (∀ a, no_log (k a)) → no_log (c ≫= k).
Proof.
  intros Hc Hk p s es L. unfold mbind, M_bind. specialize (Hc p s es L).
  destruct (c s) as [[a|msg] s1]; [by apply Hk|done].
Qed.
Lemma no_log_queues g : no_log (modify (set_queues g)).
Proof. intros p s es L. by apply (logged_kept p s). Qed.
Lemma no_log_in_flight g : no_log (modify (set_in_flight g)).
Proof. intros p s es L. by apply (logged_kept p s). Qed.
Lemma no_log_now : no_log now.
Proof.
  intros p s es L. destruct (now_still s) as (n & h & H & Hst). rewrite H. by eapply still_logged.
Qed.
Lemma no_log_uuid : no_log new_uuid.
Proof.
  intros p s es L. destruct (new_uuid s) as [[id|msg] s1] eqn:H; [by eapply new_uuid_logged|].
  unfold new_uuid, on_host in H. by destruct (new_v4 _).
Qed.
Lemma no_log_uuids n : no_log (new_uuids n).
Proof.
  intros p s es L. destruct (new_uuids_returns n s) as (ids & s1 & H). rewrite H. by eapply new_uuids_logged.
Qed.

#[local] Hint Resolve no_log_ret no_log_panic no_log_gets no_log_queues no_log_in_flight no_log_now no_log_uuid
  no_log_uuids : oxide.
Ltac no_log :=
  repeat first [solve [auto with oxide] | apply no_log_bind; [|intros ?] | case_match].

Lemma no_log_u32_add a b : no_log (u32_add a b).
Proof. unfold u32_add. no_log. Qed.
#[local] Hint Resolve no_log_u32_add : oxide.
Lemma no_log_make_task id item name : no_log (make_task id item name).
Proof. unfold make_task. no_log. Qed.
Lemma no_log_requeue task : no_log (requeue task).
Proof. unfold requeue, get_queue, put_queue. no_log. Qed.
#[local] Hint Resolve no_log_make_task no_log_requeue : oxide.

(** Only the step that holds the log's mutex writes. *)
Lemma step_no_log t : (∀ op k, t ≠ Appending op k) → no_log (step t).
Proof.
  intros Ht. destruct t as [req|op k|op k|[[]|e] k|name task|name ids i items tasks|task|ids todo missing|ids|resp|];
    cbn [step].
  3:{ by destruct (Ht op k). }
  1: destruct req; cbn [start].
  all: try (destruct k; cbn [log_done log_failed]).
  all: unfold push_back_front, contains_queue, get_queue, get_task, put_queue, put_task, drop_task, vec_with_capacity, log;
    no_log.
Qed.

(** *** One step *)

Lemma log_online op k s t s' : persistent s = true → log op k s = (Ret t, s') → t = WaitLog op k ∧ s' = s.
Proof.
  intros Hp H. unfold log in H. rewrite bind_gets in H. unfold persistent in Hp.
  destruct (wal (store s)); [by injection H as <- <-|]. by apply bool_decide_eq_true in Hp as [? ?].
Qed.

Lemma start_wrote req s t s' :
  persistent s = true → grows s s' → start req s = (Ret t, s') → wrote req t [] s'.
Proof.
  intros Hp [Hg _] H. destruct req as [name|name d|name|id|id|id d|name ds|name count|ids]; cbn [start] in H.
  - rewrite contains_step in H. case_bool_decide; minv; [done|]. by apply log_online in H as [-> ->].
  - rewrite contains_step in H. case_bool_decide; cbn [negb] in H; minv; [|done].
    apply log_online in H as [-> ->]; [|done]. by split_and!.
  - rewrite get_queue_step in H. destruct (_ !! name) as [[|item rest]|]; [by minv| |by minv].
    unfold put_queue in H. rewrite bind_modify in H. minv.
    match goal with H : new_uuid _ = _ |- _ => apply new_uuid_Ret in H as (_ & Hp1 & _) end.
    apply log_online in H as [-> ->]; [|rewrite Hp1; exact Hp]. by split_and!.
  - rewrite get_task_step in H. destruct (_ !! id); minv; [|done]. unfold drop_task in *. minv.
    by apply log_online in H as [-> ->].
  - rewrite get_task_step in H. destruct (_ !! id); minv; [|done]. unfold drop_task in *. minv.
    by apply log_online in H as [-> ->].
  - rewrite get_task_step in H. destruct (_ !! id); minv; [|done]. by apply log_online in H as [-> ->].
  - rewrite contains_step in H. case_bool_decide; cbn [negb] in H; minv; [|done].
    apply log_online in H as [-> ->]; [|done]. by split_and!.
  - rewrite get_queue_step in H. destruct (_ !! name) as [[|item rest]|]; [by minv| |by minv].
    unfold vec_with_capacity in H. destruct (_ <? _)%Z; minv.
    rewrite pop_upto_take_drop in H. unfold put_queue in H. rewrite bind_modify in H.
    case_bool_decide as Hne; minv; [done|].
    match goal with H : new_uuids _ _ = _ |- _ => apply new_uuids_Ret in H as (_ & Hp1 & Hlen & _) end.
    apply log_online in H as [-> ->]; [|rewrite Hp1; exact Hp]. split_and!; try done.
    split_and!; try done. intros ->. by destruct (take _ _).
  - by minv.
Qed.

Lemma log_done_wrote req op k s t s' :
  thread_ok (Logged (Ok tt) k) s → grows s s' → push_ok k s → writes req op k →
  log_done k s = (Ret t, s') → wrote req t [op] s'.
Proof.
  intros [Hok _] [Hg _] Hpush Hw H. destruct k; cbn [log_done] in H; destruct req; try done; cbn [writes] in Hw;
    destruct_and?; subst; unfold put_queue in H.
  - by minv.
  - rewrite get_queue_step in H. destruct Hpush as [q Hq]. rewrite Hq in H. by minv.
  - rewrite get_queue_step in H. destruct Hpush as [q Hq]. rewrite Hq in H. by minv.
  - minv. match goal with H : make_task _ _ _ _ = _ |- _ => apply make_task_Ret in H as (_ & <- & _) end. done.
  - minv. eexists. by split_and!.
  - by minv.
  - minv. split; [by apply Hg|]. by eexists.
  - minv. done.
  - minv. by eexists.
Qed.

Lemma requeue_Ok task s r s' : has_queue s (t_queue_name task) → requeue task s = (Ret r, s') → r = Ok tt.
Proof.
  intros [q Hq] H. unfold requeue in H. destruct (_ <=? _)%Z; [by minv|].
  rewrite get_queue_step, Hq in H. by minv.
Qed.

Lemma step_wrote req t ops s t' s' :
  persistent s = true → thread_ok t s → grows s s' → (∀ op k, t ≠ Appending op k) →
  wrote req t ops s → step t s = (Ret t', s') → wrote req t' ops s'.
Proof.
  intros Hp Hok Hg Hna Hw H.
  destruct t as [r|op k|op k|[[]|e] k|name task|name ids i items tasks|task|ids todo missing|ids|resp|]; cbn [step] in H.
  - destruct Hw as [-> ->]. by eapply start_wrote.
  - minv. exact Hw.
  - by destruct (Hna op k).
  - destruct Hw as (Hpush & op & Hw & ->). by eapply log_done_wrote.
  - done.
  - destruct Hw as [-> ->]. by minv.
  - destruct Hw as (count & -> & -> & Hne & Hlen & Hts). destruct items as [|item items]; minv.
    + cbn [length] in Hlen. rewrite take_ge in Hts by lia. cbn [wrote log_of].
      rewrite <- Hts in Hne |- *. by destruct tasks.
    + destruct (ids !! i) as [id|] eqn:Hid; [|done]. minv. unfold put_task in *. minv.
      match goal with H : make_task _ _ _ _ = _ |- _ => apply make_task_Ret in H as (_ & <- & _) end.
      exists count. cbn [length] in Hlen. split_and!; [done..|lia|].
      by rewrite fmap_app, Hts, (take_S_r _ _ _ Hid).
  - destruct Hw as (Hq & id & -> & ->). apply bind_Ret_inv in H as (r & s1 & Hr & H).
    apply requeue_Ok in Hr as ->; [|done]. by minv.
  - destruct Hw as [-> ->]. destruct todo as [|id todo].
    + case_bool_decide; minv; [done|]. by apply log_online in H as [-> ->].
    + rewrite get_task_step in H. by minv.
  - destruct ids as [|id ids]; unfold drop_task in *; minv; [|exact Hw]. by destruct Hw as (l & -> & ->).
  - by minv.
  - by minv.
Qed.

Lemma advance_wrote p req t ops s es t' s' :
  logged p s es → maps_ok s → thread_ok t s → wrote req t ops s → advance t s = (t', s') →
  ∃ es', logged p s' (es ++ es') ∧ wrote req t' (ops ++ (we_op <$> es')) s' ∧ grows s s'.
Proof.
  intros L Hm Hok Hw Ha. pose proof (advance_keeps t s Hm Hok) as Hk. unfold keeps in Hk. rewrite Ha in Hk.
  pose proof (keeps_grows _ _ _ _ Hk) as Hg. pose proof (logged_persistent _ _ _ L) as Hp.
  assert ((∀ op k, t ≠ Appending op k) →
    ∃ es', logged p s' (es ++ es') ∧ wrote req t' (ops ++ (we_op <$> es')) s' ∧ grows s s') as Hother.
  { intros Hna. exists []. rewrite !app_nil_r. pose proof (step_no_log t Hna p s es L) as L'.
    unfold advance in Ha. destruct (step t s) as [[u|msg] s1] eqn:Hs; injection Ha as <- <-; (split; [exact L'|]).
    - split; [by eapply step_wrote|done].
    - split; [by eapply (wrote_once _ t)|done]. }
  destruct t as [req'|op k|op k|r k|name task|name ids i items tasks|task|ids todo missing|ids|resp|];
    try (by apply Hother). clear Hother. destruct Hw as (Hw & Hpush & ->).
  destruct (wal_append_on p op s es L) as (n & s1 & Happ & L1 & Habs).
  rewrite (append_goes _ _ _ _ _ Happ) in Ha. injection Ha as <- <-.
  exists [mkWalEntry op n]. split; [done|]. split; [|done]. split; [|by exists op].
  destruct k; try done. by apply Hg.
Qed.

(** ** Pools *)

(** Each call with what it has written. *)
Definition Journal : Type := list (ClientRequest * list WalOp).
Definition journal (cs : Journal) (p : Pool) : Prop := Forall2 (λ c t, wrote c.1 t c.2 p.2) cs p.1.

Lemma journal_start reqs s : journal ((λ req, (req, [])) <$> reqs) (calls reqs, s).
Proof. unfold journal, calls. cbn [fst snd]. induction reqs as [|req reqs IH]; [constructor|]. by constructor. Qed.

Lemma journal_grows cs ts s s' : grows s s' → Forall2 (λ c t, wrote c.1 t c.2 s) cs ts →
  Forall2 (λ c t, wrote c.1 t c.2 s') cs ts.
Proof. intros Hg Hj. eapply Forall2_impl; [exact Hj|]. intros c t. by apply wrote_grows. Qed.

Lemma event_journal p e ts s ts' s' cs es :
  pool_ok (ts, s) → logged p s es → journal cs (ts, s) → pool_event e (ts, s) = Some (ts', s') →
  ∃ cs' es', logged p s' (es ++ es') ∧ journal cs' (ts', s') ∧ cs'.*1 = cs.*1 ∧
    concat cs'.*2 ≡ₚ concat cs.*2 ++ (we_op <$> es').
Proof.
  intros Hok L Hj He. pose proof Hok as (Hm & Hall & _). unfold journal in Hj; cbn [fst snd] in Hj, Hall, Hm.
  destruct e as [i|i]; cbn [pool_event] in He; destruct (ts !! i) as [t|] eqn:Hi; try done.
  all: match type of He with (if ?b then _ else _) = _ => destruct b eqn:Hb; try done end.
  1: destruct (advance t s) as [t' s1] eqn:Ha; injection He as <- <-.
  2: injection He as <- <-; set (t' := Dropped).
  all: destruct (pool_split ts i t t' Hi) as (l & k & -> & ->);
    apply Forall2_app_inv_r in Hj as (cl & ck' & Hl & Hk & ->);
    apply Forall2_cons_inv_r in Hk as ([req ops] & ck & Hw & Hk & ->); cbn [fst snd] in Hw.
  - apply Forall_app in Hall as [_ [Ht _]%Forall_cons].
    destruct (advance_wrote p req t ops s es t' s1 L Hm Ht Hw Ha) as (es' & L' & Hw' & Hg).
    exists (cl ++ (req, ops ++ (we_op <$> es')) :: ck), es'. split; [done|]. split.
    { apply Forall2_app; [by eapply journal_grows|]. constructor; [done|by eapply journal_grows]. }
    rewrite !fmap_app, !fmap_cons, !concat_app. cbn [fst snd concat]. split; [done|].
    rewrite <- !app_assoc. do 2 f_equiv. apply Permutation_app_comm.
  - exists (cl ++ (req, ops) :: ck), []. rewrite !app_nil_r. split; [done|]. split; [|by rewrite !fmap_app, !fmap_cons].
    apply Forall2_app; [done|]. constructor; [|done]. by eapply (wrote_once _ t).
Qed.

Lemma run_journal p sched : ∀ ts s ts' s' cs es,
  pool_ok (ts, s) → logged p s es → journal cs (ts, s) → pool_run sched (ts, s) = Some (ts', s') →
  ∃ cs' es', logged p s' (es ++ es') ∧ journal cs' (ts', s') ∧ cs'.*1 = cs.*1 ∧
    concat cs'.*2 ≡ₚ concat cs.*2 ++ (we_op <$> es').
Proof.
  induction sched as [|e sched IH]; intros ts s ts' s' cs es Hok L Hj Hrun; cbn [pool_run] in Hrun.
  { injection Hrun as -> ->. exists cs, []. by rewrite !app_nil_r. }
  destruct (pool_event e (ts, s)) as [[ts1 s1]|] eqn:He; [|done].
  destruct (event_journal p e ts s ts1 s1 cs es Hok L Hj He) as (cs1 & es1 & L1 & Hj1 & Hr1 & Hc1).
  destruct (event_keeps e ts s ts1 s1 Hok He) as [Hok1 _].
  destruct (IH ts1 s1 ts' s' cs1 _ Hok1 L1 Hj1 Hrun) as (cs2 & es2 & L2 & Hj2 & Hr2 & Hc2).
  exists cs2, (es1 ++ es2). rewrite app_assoc. split; [done|]. split; [done|]. split; [congruence|].
  by rewrite Hc2, Hc1, fmap_app, app_assoc.
Qed.

(** ** The log of a node is known *)

Lemma unlines_inj ls1 ls2 es1 es2 :
  entry_lines es1 ls1 → entry_lines es2 ls2 → unlines ls1 "" = unlines ls2 "" → ls1 = ls2.
Proof.
  intros H1%entry_lines_text H2%entry_lines_text Heq. apply (f_equal lines_of) in Heq.
  assert (Inj (=) (=) (@Ok string string)) by by intros ?? [= ->].
  unfold unlines in Heq. rewrite !lines_of_lines, !app_nil_r in Heq; [by apply (inj (fmap Ok)) in Heq|..];
    (apply Forall_app_2; [done|by apply Forall_singleton]).
Qed.

Lemma logged_inj p s es1 es2 : logged p s es1 → logged p s es2 → es1 = es2.
Proof.
  intros (_ & ls1 & _ & _ & _ & H1 & C1) (_ & ls2 & _ & _ & _ & H2 & C2).
  rewrite C1 in C2. injection C2 as C. pose proof (unlines_inj _ _ _ _ H1 H2 C) as <-. clear C1 C.
  revert es2 H2. induction H1 as [|e l es ls Hl _ IH]; intros es2 H2; inversion H2; simplify_eq; [done|].
  f_equal; [|by apply IH].
  match goal with H : wal_to_string ?e' = Ok l |- _ =>
    apply wal_codec_roundtrip in H; apply wal_codec_roundtrip in Hl; congruence end.
Qed.

Lemma lives_logged p s es : lives p s → logged p s es → node_inv s ∧ log_run (we_op <$> es) a_empty ≡ abs s.
Proof. intros [Hi (es1 & L1 & _ & Ha)]%lives_inv L. by rewrite (logged_inj _ _ _ _ L L1). Qed.

(** A restart on a log runs it on the state before its last entries. *)
Lemma recover_after p s s' es es' :
  lives p s → logged p s es → logged p s' (es ++ es') →
  (Z.of_nat (length es + length es') < u32_modulus)%Z →
  ∃ st h', new_persistent p (host s') = (Ret st, h') ∧ abs (mkSys st h') ≡ log_run (we_op <$> es') (abs s).
Proof.
  intros Hl L L' Hlen. destruct (lives_logged _ _ _ Hl L) as [_ Ha].
  pose proof L' as (mgr & ls & _ & _ & _ & Hls & Hc).
  destruct (recover_stored p (host s') (es ++ es') ls Hls) as (st & h' & H & _ & Hst & _); [by left| |].
  { apply short_log_safe_empty. by rewrite length_fmap, length_app. }
  exists st, h'. split; [done|]. by rewrite Hst, fmap_app, log_run_app, Ha.
Qed.

(** What a client and the log can say of a call: an answer says what is in the log,
    without an answer there may be an entry or none. *)
Definition reported (c : ClientRequest * list WalOp) (t : Thread) : Prop :=
  match t with
  | Finished resp => c.2 = log_of c.1 resp
  | _ => c.2 = [] ∨ ∃ op, entry_of c.1 op ∧ c.2 = [op]
  end.

Lemma wrote_reported c t s : wrote c.1 t c.2 s → reported c t.
Proof. intros H. destruct t; try (by eapply wrote_once). exact H. Qed.

Lemma reported_once c t : reported c t → length c.2 ≤ 1.
Proof.
  intros H. assert (c.2 = [] ∨ ∃ op, c.2 = [op]) as [-> | [op ->]]; [|cbn; lia..].
  destruct t; cbn in H; try naive_solver. rewrite H. pose proof (log_of_short c.1 resp).
  destruct (log_of c.1 resp) as [|op [|]]; cbn in *; [by left|right; by eexists|lia].
Qed.

Lemma crash_run_logged p s es reqs sched ts' s' :
  lives p s → logged p s es → pool_run sched (calls reqs, s) = Some (ts', s') →
  (Z.of_nat (length es + length reqs) < u32_modulus)%Z →
  ∃ es' (written : Journal) st h',
    logged p s' (es ++ es') ∧
    new_persistent p (host s') = (Ret st, h') ∧ abs (mkSys st h') ≡ log_run (we_op <$> es') (abs s) ∧
    we_op <$> es' ≡ₚ concat written.*2 ∧ written.*1 = reqs ∧ Forall2 reported written ts'.
Proof.
  intros Hl L Hrun Hlen. destruct (lives_logged _ _ _ Hl L) as [Hi _].
  destruct (run_journal p sched _ _ _ _ _ es (pool_ok_calls reqs s Hi) L (journal_start reqs s) Hrun)
    as (cs & es' & L' & Hj & Hr & Hc).
  assert (written_nil : concat ((λ req, (req, [] : list WalOp)) <$> reqs).*2 = []).
  { clear. by induction reqs. }
  rewrite written_nil in Hc. cbn [app] in Hc.
  assert (Forall2 reported cs ts') as Hrep.
  { eapply Forall2_impl; [exact Hj|]. intros c t. apply wrote_reported. }
  assert (cs.*1 = reqs) as Hreqs.
  { rewrite Hr, <- list_fmap_compose. apply list_fmap_id. }
  assert (length es' ≤ length reqs) as Hshort.
  { rewrite <- (length_fmap we_op), <- Hc, <- Hreqs, length_fmap. clear -Hrep.
    induction Hrep as [|c t cs ts H%reported_once _ IH]; [done|]. rewrite fmap_cons. cbn [concat].
    rewrite length_app. cbn [length]. lia. }
  destruct (recover_after p s s' es es') as (st & h' & Hnew & Ha); [done..|lia|].
  exists es', cs, st, h'. by split_and!.
Qed.

Lemma crash_run p s es reqs sched ts' s' :
  lives p s → logged p s es → pool_run sched (calls reqs, s) = Some (ts', s') →
  (Z.of_nat (length es + length reqs) < u32_modulus)%Z →
  ∃ ops (written : Journal) st h',
    new_persistent p (host s') = (Ret st, h') ∧ abs (mkSys st h') ≡ log_run ops (abs s) ∧
    ops ≡ₚ concat written.*2 ∧ written.*1 = reqs ∧ Forall2 reported written ts'.
Proof.
  intros Hl L Hrun Hlen. destruct (crash_run_logged p s es reqs sched ts' s' Hl L Hrun Hlen)
    as (es' & written & st & h' & _ & H). by exists (we_op <$> es'), written, st, h'.
Qed.

(** C5. A crash under concurrency: when the process ends at any moment of any
    schedule of concurrent calls, some of them cancelled, then on a disk without
    faults a restart succeeds, and it finds the state the calls started from with
    the entries of the log run on it, in which each call that was answered has
    exactly the entry of its answer, each call that was refused has none, and each
    call without an answer at most one. *)
Theorem crash_recovers p s es reqs sched ts' s' :
  lives p s → logged p s es → pool_run sched (calls reqs, s) = Some (ts', s') →
  (Z.of_nat (length es + length reqs) < u32_modulus)%Z →
  ∃ ops (written : Journal) st h',
    new_persistent p (host s') = (Ret st, h') ∧ abs (mkSys st h') ≡ log_run ops (abs s) ∧
    ops ≡ₚ concat written.*2 ∧ written.*1 = reqs ∧ Forall2 reported written ts'.
Proof. apply crash_run. Qed.

(** ** One call *)

(** Runs of one thread by itself follow each other. *)
Lemma run_one_path n m t s t1 s1 p2 :
  done t1 = true → pool_run (replicate n (Run 0)) ([t], s) = Some p2 →
  pool_run (replicate m (Run 0)) ([t], s) = Some ([t1], s1) →
  ∃ k, pool_run (replicate k (Run 0)) p2 = Some ([t1], s1).
Proof.
  intros Hd. revert m t s. induction n as [|n IH]; intros m t s Hn Hm; cbn [replicate pool_run] in Hn.
  { injection Hn as <-. by exists m. }
  destruct m as [|m]; cbn [replicate pool_run] in Hm.
  - injection Hm as -> ->. cbn [pool_event lookup list_lookup] in Hn. by rewrite Hd in Hn.
  - destruct (pool_event (Run 0) ([t], s)) as [[ts s2]|] eqn:He; [|done].
    assert (∃ t2, ts = [t2]) as [t2 ->].
    { cbn [pool_event lookup list_lookup] in He. destruct (done t || _); [done|].
      destruct (advance t s). injection He as <- <-. by eexists. }
    by eapply IH.
Qed.

(** A schedule of one thread is a run, or a run and then a cancellation. *)
Lemma run_one_cases sched : ∀ t s ts' s',
  pool_run sched ([t], s) = Some (ts', s') →
  ∃ n t', pool_run (replicate n (Run 0)) ([t], s) = Some ([t'], s') ∧
    (ts' = [t'] ∨ ts' = [Dropped] ∧ awaiting t' = true).
Proof.
  induction sched as [|e sched IH]; intros t s ts' s' H; cbn [pool_run] in H.
  { injection H as <- <-. exists 0, t. split; [done|by left]. }
  destruct e as [[|i]|[|i]]; try done.
  - destruct (pool_event (Run 0) ([t], s)) as [[ts s2]|] eqn:He; [|done].
    assert (∃ t2, ts = [t2]) as [t2 ->].
    { cbn [pool_event lookup list_lookup] in He. destruct (done t || _); [done|].
      destruct (advance t s). injection He as <- <-. by eexists. }
    destruct (IH _ _ _ _ H) as (n & t' & Hn & Hend). exists (S n), t'. split; [|done].
    cbn [replicate pool_run]. by rewrite He.
  - cbn [pool_event lookup list_lookup] in H. destruct (awaiting t) eqn:Hw; [|done]. cbn in H.
    assert (sched = []) as ->.
    { destruct sched as [|[[|i]|[|i]] sched]; try done. }
    injection H as <- <-. exists 0, t. split; [done|]. by right.
Qed.

Lemma run_pool_ok sched : ∀ q q', pool_ok q → pool_run sched q = Some q' → pool_ok q'.
Proof.
  induction sched as [|e sched IH]; intros [ts s] q' Hok Hrun; cbn [pool_run] in Hrun; [by injection Hrun as <-|].
  destruct (pool_event e (ts, s)) as [[ts1 s1]|] eqn:He; [|done].
  eapply IH; [|done]. by destruct (event_keeps _ _ _ _ _ Hok He).
Qed.

Lemma journal_one cs req t s : journal cs ([t], s) → cs.*1 = [req] → ∃ ops, cs = [(req, ops)] ∧ wrote req t ops s.
Proof.
  unfold journal. cbn [fst snd]. intros Hj Hr. apply Forall2_cons_inv_r in Hj as ([r ops] & cs' & Hw & Hn & ->).
  apply Forall2_nil_inv_r in Hn as ->. injection Hr as ->. by exists ops.
Qed.

(** A command is atomic under crashes: when the process ends at any moment of
    a command that would return, or of its cancelled future, a restart finds the
    state before the command or the state after it. *)
Theorem crash_atomic p s es req resp s1 sched ts' s' :
  lives p s → logged p s es → (Z.of_nat (S (length es)) < u32_modulus)%Z →
  apply_request req s = (Ret resp, s1) → pool_run sched ([Start req], s) = Some (ts', s') →
  ∃ st h', new_persistent p (host s') = (Ret st, h') ∧
    (abs (mkSys st h') ≡ abs s ∨ abs (mkSys st h') ≡ abs s1).
Proof.
  intros Hl L Hlen Hreq Hrun. destruct (lives_logged _ _ _ Hl L) as [Hi Ha].
  destruct (run_one_cases _ _ _ _ _ Hrun) as (n & t' & Hn & _).
  pose proof (alone_request req s) as [m Hm]. rewrite Hreq in Hm. cbn [settled fst snd] in Hm.
  destruct (run_one_path n m _ _ (Finished resp) _ _ eq_refl Hn Hm) as [k Hk].
  pose proof (pool_ok_calls [req] s Hi) as Hok.
  destruct (run_journal p _ _ _ _ _ [(req, [])] es Hok L (journal_start [req] s) Hn) as (cs1 & es1 & L1 & Hj1 & Hr1 & Hc1).
  pose proof (run_pool_ok _ _ _ Hok Hn) as Hok1.
  destruct (run_journal p _ _ _ _ _ cs1 _ Hok1 L1 Hj1 Hk) as (cs2 & es2 & L2 & Hj2 & Hr2 & Hc2).
  destruct (journal_one _ _ _ _ Hj1 Hr1) as (ops1 & -> & Hw1).
  destruct (journal_one _ _ _ _ Hj2 Hr2) as (ops2 & -> & ->). cbn in Hc1, Hc2. rewrite app_nil_r in Hc1, Hc2.
  rewrite app_nil_r in Hc2.
  assert (we_op <$> es1 = ops1) as Hops.
  { destruct (wrote_once _ _ _ _ Hw1) as [->|(op & _ & ->)]; symmetry in Hc1;
      [by apply Permutation_nil_r in Hc1|by apply Permutation_singleton_r in Hc1]. }
  assert (length ops1 ≤ 1) as Hshort by by destruct (wrote_once _ _ _ _ Hw1) as [->|(op & _ & ->)]; cbn; lia.
  destruct (recover_after p s s' es es1) as (st & h' & Hnew & Hst); [done..| |].
  { rewrite <- (length_fmap we_op es1), Hops. lia. }
  exists st, h'. split; [done|]. rewrite Hst, Hops.
  destruct (wrote_once _ _ _ _ Hw1) as [->|(op & _ & ->)]; [by left|right].
  assert (log_of req resp = [op]) as <-.
  { pose proof (log_of_short req resp) as H. destruct es2; [by apply Permutation_singleton_r in Hc2|].
    apply Permutation_length in Hc2. cbn in *. lia. }
  destruct (apply_request_logs p _ _ _ _ Hi Hreq) as [_ Hack].
  eapply spec_step_logged; [apply Hi|by eapply apply_request_sim; [apply Hi|]|]. by apply (Hack es L).
Qed.

(** ** Concurrent enqueues *)

(** The items of the calls that have not answered. *)
Fixpoint unanswered (ds : list bytes) (ts : list Thread) : list QueueItem :=
  match ds, ts with
  | d :: ds', t :: ts' =>
    match t with Finished _ => unanswered ds' ts' | _ => mkQueueItem d 0 :: unanswered ds' ts' end
  | _, _ => []
  end.

Lemma enqueue_entry name d op : entry_of (REnqueue name d) op → op = WEnqueue name d.
Proof. intros [[] H]; cbn in H; try done. by injection H as <-. Qed.

(** What concurrent enqueues have written: the items that were accepted, and some
    of those without an answer. *)
Lemma enqueues_written name ds : ∀ (written : Journal) ts,
  Forall2 reported written ts → written.*1 = REnqueue name <$> ds →
  ∃ items extra, concat written.*2 ≡ₚ WEnqueue name <$> items ∧
    new_items items ≡ₚ accepted ds ts ++ extra ∧ extra `sublist_of` unanswered ds ts.
Proof.
  induction ds as [|d ds IH]; intros written ts Hrep Hr.
  { destruct written; [|done]. apply Forall2_nil_inv_l in Hrep as ->. exists [], []. by split_and!. }
  destruct written as [|[req ops] written]; [done|]. injection Hr as -> Hr.
  apply Forall2_cons_inv_l in Hrep as (t & ts' & Ht & Hrep & ->).
  destruct (IH written ts' Hrep Hr) as (items & extra & Hops & Hitems & Hextra).
  rewrite fmap_cons. cbn [concat snd accepted unanswered].
  assert (ops = [] ∨ ops = [WEnqueue name d]) as Hcases.
  { destruct t as [| | | | | | | | |resp|]; cbn in Ht;
      try (destruct Ht as [-> | (? & ->%enqueue_entry & ->)]; [by left|by right]).
    rewrite Ht. destruct resp; cbn; auto. }
  destruct Hcases as [-> | ->].
  - exists items, extra. split; [done|].
    assert (succeeded t = false) as Hs.
    { destruct t as [| | | | | | | | |[]|]; try done. }
    rewrite Hs. split; [done|]. destruct t; try (by apply sublist_cons). done.
  - exists (d :: items). destruct (succeeded t) eqn:Hs.
    + exists extra. split; [by cbn; rewrite Hops|]. split; [by cbn; rewrite Hitems|].
      by destruct t as [| | | | | | | | |[]|].
    + exists (mkQueueItem d 0 :: extra). split; [by cbn; rewrite Hops|].
      split; [cbn; rewrite Hitems; by rewrite <- Permutation_middle|].
      destruct t as [| | | | | | | | |[]|]; try (by apply sublist_skip); try done.
Qed.

Lemma log_run_enqueues name items : ∀ q a,
  a_queues a !! name = Some q →
  log_run (WEnqueue name <$> items) a = a_set_queue name (q ++ new_items items) a.
Proof.
  induction items as [|d items IH]; intros q a Hq; [cbn; by rewrite app_nil_r, set_queue_id|].
  rewrite fmap_cons. change (log_run (WEnqueue name d :: ?ops) a) with (log_run ops (log_step (WEnqueue name d) a)).
  cbn [log_step]. unfold log_append. rewrite Hq.
  rewrite (IH (q ++ [mkQueueItem d 0])) by (cbn; by rewrite lookup_insert_eq).
  rewrite <- app_assoc. unfold a_set_queue. cbn. by rewrite insert_insert_eq.
Qed.

(** When the process ends at any moment of any schedule of concurrent enqueues on
    one queue, a restart finds in the queue what it held before, in order, then
    every message whose enqueue was accepted and some of those whose enqueue had no
    answer, each once, none of a refused enqueue; the rest of the node is as it was. *)
Theorem enqueues_survive_crash p s es name ds q sched ts' s' :
  lives p s → logged p s es → queues (store s) !! name = Some q →
  pool_run sched (calls (REnqueue name <$> ds), s) = Some (ts', s') →
  (Z.of_nat (length es + length ds) < u32_modulus)%Z →
  ∃ st h' q' extra,
    new_persistent p (host s') = (Ret st, h') ∧ abs (mkSys st h') ≡ a_set_queue name (q ++ q') (abs s) ∧
    q' ≡ₚ accepted ds ts' ++ extra ∧ extra `sublist_of` unanswered ds ts'.
Proof.
  intros Hl L Hq Hrun Hlen.
  destruct (crash_run p s es _ _ _ _ Hl L Hrun) as (ops & written & st & h' & Hnew & Hst & Hops & Hreqs & Hrep);
    [by rewrite length_fmap|].
  destruct (enqueues_written name ds written ts' Hrep Hreqs) as (items & extra & Hw & Hi & Hx).
  rewrite Hw in Hops. apply Permutation_map_inv in Hops as (items' & -> & Hperm).
  exists st, h', (new_items items'), extra. split; [done|]. split; [|split; [|done]].
  - rewrite Hst. apply reflexive_eq, (log_run_enqueues name items' q). exact Hq.
  - rewrite <- Hi. unfold new_items. by rewrite <- Hperm.
Qed.
End crash.

(** ** Examples

    The node of [Durability.ex_logged] dies while calls are under way. *)

#[local] Existing Instance ex_runtime.

Lemma short_session `{RT : !Runtime} `{CH : !Chrono} `{CD : !WalCodec} `{UL : !UuidLaws} `{DL : !DashLaws}
  `{FL : !FsLaws} `{RD : !ReliableDisk} `{CL : !WalCodecLaws} p reqs : ∀ s es resps s',
  node_inv s → logged p s es → apply_requests reqs s = (Ret resps, s') →
  ∃ es', logged p s' (es ++ es') ∧ length es' ≤ length reqs.
Proof.
  induction reqs as [|req reqs IH]; intros s es resps s' Hi L H; cbn in H; minv.
  { exists []. by rewrite app_nil_r. }
  match goal with H : apply_request _ _ = _ |- _ =>
    destruct (proj1 (apply_request_logs p _ _ _ _ Hi H) es L) as (es1 & L1 & Hops); pose proof (node_inv_request _ _ _ _ Hi H) end.
  match goal with H : apply_requests _ _ = _ |- _ => eapply IH in H as (es2 & L2 & Hlen); [|done|exact L1] end.
  exists (es1 ++ es2). rewrite app_assoc. split; [done|]. rewrite length_app. cbn [length].
  pose proof (log_of_short req x) as Hs. rewrite <- Hops, length_fmap in Hs. lia.
Qed.

Lemma ex_boot_lives : lives "wal" ex_boot.
Proof. eapply (live_start (RT := ex_runtime) "wal" fresh_host ex_boot_store); [by right|exact ex_boot_Ret]. Qed.

Lemma ex_log : ∃ es, logged "wal" ex_logged es ∧ length es ≤ 4.
Proof.
  destruct (recover_stored (RT := ex_runtime) "wal" fresh_host [] []) as (st & h & H & L & Ha & Hi);
    [by constructor|by right|done|].
  rewrite ex_boot_Ret in H. injection H as <- <-.
  assert (is_ret (apply_requests ex_session ex_boot).1 = true) as Hret by (vm_compute; reflexivity).
  apply (value_Ret (apply_requests ex_session) ex_boot []) in Hret as H.
  destruct (short_session "wal" _ _ [] _ _ (proj1 (lives_inv _ _ ex_boot_lives)) L H) as (es & L' & Hlen).
  exists es. split; [exact L'|exact Hlen].
Qed.

(** An enqueue is logged but not pushed, a dequeue has popped, an acknowledgement
    has answered. *)
Definition ex_calls : list ClientRequest := [REnqueue "q" [Byte.x63]; RDequeue "q"; RAck "task-0"].
Definition ex_crash : list Event := [Run 0; Run 0; Run 0; Run 1; Run 2; Run 2; Run 2; Run 2].

Lemma crash_recovers_witness :
  ∃ st h', new_persistent "wal" (host (ran ex_crash (calls ex_calls, ex_logged)).2) = (Ret st, h') ∧
    ∃ ops (written : Journal), abs (mkSys st h') ≡ log_run ops (abs ex_logged) ∧
      ops ≡ₚ concat written.*2 ∧ written.*1 = ex_calls ∧ WAck "task-0" ∈ ops.
Proof.
  destruct ex_log as (es & L & Hlen).
  destruct (crash_recovers (RT := ex_runtime) "wal" ex_logged es ex_calls ex_crash _ _ ex_lives L
    (ran_Some ex_crash (calls ex_calls, ex_logged) ltac:(vm_compute; reflexivity)))
    as (ops & written & st & h' & Hnew & Hst & Hops & Hreqs & Hrep); [cbn; unfold u32_modulus; lia|].
  exists st, h'. split; [exact Hnew|]. exists ops, written. split_and!; [exact Hst|exact Hops|exact Hreqs|].
  assert (from_option succeeded false ((ran ex_crash (calls ex_calls, ex_logged)).1 !! 2) = true) as Hdone
    by (vm_compute; reflexivity).
  revert Hrep Hdone. generalize (ran ex_crash (calls ex_calls, ex_logged)).1. intros ts Hrep Hdone.
  destruct (ts !! 2) as [t|] eqn:Ht; [|done].
  assert (t = Finished ROk) as -> by (destruct t as [| | | | | | | | |[]|]; done).
  rewrite Hops. apply (Forall2_lookup_r _ _ _ 2 (Finished ROk) Hrep) in Ht as ([req w] & Hw & Hr).
  assert (req = RAck "task-0") as ->.
  { apply (f_equal (λ l, l !! 2)) in Hreqs. rewrite list_lookup_fmap, Hw in Hreqs. by injection Hreqs. }
  cbn in Hr. subst w. apply list_elem_of_In, in_concat. exists [WAck "task-0"]. split; [|by left].
  apply list_elem_of_In, list_elem_of_fmap. exists (RAck "task-0", [WAck "task-0"]). split; [done|].
  by eapply list_elem_of_lookup_2.
Defined.

(** The process ends after the entry of a dequeue is in the log. *)
Definition ex_halfway : list Event := [Run 0; Run 0; Run 0].

Lemma crash_atomic_witness :
  ∃ st h', new_persistent "wal" (host (ran ex_halfway ([Start (RDequeue "q")], ex_logged)).2) = (Ret st, h') ∧
    (abs (mkSys st h') ≡ abs ex_logged ∨
     abs (mkSys st h') ≡ abs (exec (apply_request (RDequeue "q")) ex_logged)).
Proof.
  destruct ex_log as (es & L & Hlen).
  assert (is_ret (apply_request (RDequeue "q") ex_logged).1 = true) as Hreq by (vm_compute; reflexivity).
  apply (value_Ret _ _ ROk) in Hreq.
  assert (runs ex_halfway ([Start (RDequeue "q")], ex_logged) = true) as Hrun by (vm_compute; reflexivity).
  apply ran_Some in Hrun.
  assert (Z.of_nat (S (length es)) < u32_modulus)%Z as Hshort by (unfold u32_modulus; lia).
  exact (crash_atomic (RT := ex_runtime) "wal" ex_logged es (RDequeue "q")
    (value ROk (apply_request (RDequeue "q") ex_logged).1) (exec (apply_request (RDequeue "q")) ex_logged) ex_halfway
    (ran ex_halfway ([Start (RDequeue "q")], ex_logged)).1 (ran ex_halfway ([Start (RDequeue "q")], ex_logged)).2
    ex_lives L Hshort Hreq Hrun).
Defined.

(** The first enqueue is accepted, the second is in the log, the third is cancelled. *)
Definition ex_arrivals : list bytes := [[Byte.x63]; [Byte.x64]; [Byte.x65]].
Definition ex_arriving : list Event :=
  [Run 0; Run 1; Run 2; Run 0; Run 0; Run 0; Cancel 2; Run 1; Run 1].
Definition ex_arrived : Pool := ran ex_arriving (calls (REnqueue "q" <$> ex_arrivals), ex_logged).

Lemma enqueues_survive_crash_witness :
  ∃ st h' q', new_persistent "wal" (host ex_arrived.2) = (Ret st, h') ∧
    queues st !! "q" = Some (mkQueueItem [Byte.x62] 0 :: q') ∧ mkQueueItem [Byte.x63] 0 ∈ q'.
Proof.
  destruct ex_log as (es & L & Hlen).
  destruct (enqueues_survive_crash (RT := ex_runtime) "wal" ex_logged es "q" ex_arrivals [mkQueueItem [Byte.x62] 0]
    ex_arriving ex_arrived.1 ex_arrived.2 ex_lives L) as (st & h' & q' & extra & Hnew & [Hq _] & Hperm & _).
  - vm_compute. reflexivity.
  - apply ran_Some. vm_compute. reflexivity.
  - cbn. unfold u32_modulus. lia.
  - exists st, h', q'. split; [exact Hnew|]. split.
    + change (queues st) with (a_queues (abs (mkSys st h'))). rewrite Hq. apply lookup_insert_eq.
    + rewrite Hperm. assert (accepted ex_arrivals ex_arrived.1 = [mkQueueItem [Byte.x63] 0]) as -> by (vm_compute; reflexivity).
      left.
Defined.
