(* ===== verification/Survival.v ===== *)
(** * What a crash leaves of the messages

    The log entries of a schedule of concurrent calls deliver under identifiers
    never used before, so the replay after a crash loses no message: the account of
    the messages of a node that ended in the middle of any calls and started again. *)

From stdpp Require Import prelude base gmap gmultiset strings list fin_maps.
From Stdlib Require Import ZArith Lia Strings.Byte.
From S2P Require Import Prelude Types Env Wal Memory Spec Commands Refinement Invariant Models Storage StorageFn Deliveries Recovery Durability Threads Alone Account Interleave Crash.
Local Open Scope oxide_scope.
Set Warnings "-clear-no-such-hyp,-register-all".

(** ** The account of a log entry *)

(** The identifiers an entry puts in flight, and those it acknowledges. *)
Definition popped_ids (op : WalOp) : list string :=
  match op with WDequeued _ id => [id] | WDequeuedBatch _ ids => ids | _ => [] end.
Definition acked_ids (op : WalOp) : list string :=
  match op with WAck id => [id] | WAckBatch ids => ids | _ => [] end.
(** The queue and the messages of an enqueue. *)
Definition pushed (op : WalOp) : option (string * list bytes) :=
  match op with WEnqueue name d => Some (name, [d]) | WEnqueueBatch name ds => Some (name, ds) | _ => None end.

(** What it brings in and what it takes out. *)
Definition op_brings (op : WalOp) (a : AState) : gmultiset bytes :=
  match pushed op with
  | Some (name, ds) => match a_queues a !! name with Some _ => list_to_set_disj ds | None => ∅ end
  | None => ∅
  end.
Definition op_takes (op : WalOp) (a : AState) : gmultiset bytes :=
  list_to_set_disj (omap (λ id, t_data <$> a_tasks a !! id)
    match op with
    | WAck id => [id]
    | WAckBatch ids => if decide (Forall (λ id, is_Some (a_tasks a !! id)) ids) then remove_dups ids else []
    | _ => []
    end).

(** The queues of the tasks exist. *)
Definition queued (a : AState) : Prop :=
  ∀ id t, a_tasks a !! id = Some t → is_Some (a_queues a !! t_queue_name t).

Lemma log_append_messages name items q a :
  a_queues a !! name = Some q → messages (log_append name items a) = messages a ⊎ payloads items.
Proof.
  intros Hq. unfold log_append. rewrite Hq. pose proof (messages_set_queue a name (q ++ items)) as H.
  rewrite Hq in H. cbn [default Datatypes.id] in H. rewrite payloads_app in H. multiset_solver.
Qed.

Lemma log_pops_messages name ids : ∀ q a,
  a_queues a !! name = Some q → NoDup ids → Forall (λ id, a_tasks a !! id = None) ids →
  messages (log_pops name ids q a) = messages a.
Proof.
  induction ids as [|id ids IH]; intros [|item q] a Hq Hnd Hids; try done.
  apply NoDup_cons in Hnd as [Hid Hnd]. apply Forall_cons in Hids as [Hfree Hids]. cbn [log_pops].
  rewrite IH; [|cbn; by rewrite lookup_insert_eq|done|].
  - rewrite messages_set_task by done. pose proof (messages_set_queue a name q) as H.
    rewrite Hq in H. cbn [default Datatypes.id] in H. rewrite payloads_cons in H. cbn [t_data]. multiset_solver.
  - apply Forall_forall. intros i Hi. cbn. rewrite lookup_insert_ne by (intros ->; done).
    by eapply Forall_forall in Hids.
Qed.

Lemma log_requeue_messages t a :
  is_Some (a_queues a !! t_queue_name t) → messages (log_requeue t a) = {[+ t_data t +]} ⊎ messages a.
Proof.
  intros [q Hq]. unfold log_requeue. destruct (_ <=? _)%Z.
  - match goal with |- context [a_set_queue ?n ?l a] => pose proof (messages_set_queue a n l) as H end.
    rewrite payloads_app, payloads_cons, payloads_nil in H. cbn [qi_data item_of] in H. multiset_solver.
  - rewrite Hq. pose proof (messages_set_queue a (t_queue_name t) (item_of t :: q)) as H.
    rewrite Hq in H. cbn [default Datatypes.id] in H. rewrite payloads_cons in H. cbn [qi_data item_of] in H.
    multiset_solver.
Qed.

(** An entry that delivers under new identifiers keeps the account. *)
Lemma log_step_messages op a :
  queued a → NoDup (popped_ids op) → Forall (λ id, a_tasks a !! id = None) (popped_ids op) →
  messages (log_step op a) ⊎ op_takes op a = messages a ⊎ op_brings op a.
Proof.
  intros Hq Hnd Hids. unfold op_takes, op_brings.
  assert (∀ name ids, NoDup ids → Forall (λ id, a_tasks a !! id = None) ids →
    messages (log_pops name ids (default [] (a_queues a !! name)) a) = messages a) as Hpops.
  { intros name ids Hn Hf. destruct (a_queues a !! name) eqn:He; [by apply log_pops_messages|by destruct ids]. }
  destruct op as [name|name d|name ds|name id|name ids|id|ids|id|id d];
    cbn [log_step pushed omap list_omap list_to_set_disj popped_ids] in *.
  - destruct (a_queues a !! name) eqn:He; [multiset_solver|].
    pose proof (messages_set_queue a name []) as H. rewrite He in H. cbn [default Datatypes.id] in H.
    rewrite payloads_nil in H. multiset_solver.
  - destruct (a_queues a !! name) eqn:He; [erewrite log_append_messages by done; unfold payloads; cbn; multiset_solver|].
    unfold log_append. rewrite He. multiset_solver.
  - destruct (a_queues a !! name) eqn:He.
    + erewrite log_append_messages by done. unfold new_items. rewrite payloads_new. multiset_solver.
    + unfold log_append. rewrite He. multiset_solver.
  - rewrite Hpops by done. multiset_solver.
  - rewrite Hpops by done. multiset_solver.
  - destruct (a_tasks a !! id) as [t|] eqn:Ht; cbn [fmap option_fmap option_map].
    + rewrite (messages_del_task _ _ _ Ht), list_to_set_disj_cons. clear. multiset_solver.
    + unfold messages, a_del_task. cbn [a_queues a_tasks]. rewrite delete_id by done. clear. multiset_solver.
  - case_decide; [|multiset_solver]. rewrite <- del_tasks_remove_dups.
    rewrite (messages_del_tasks (remove_dups ids) a) by apply NoDup_remove_dups. multiset_solver.
  - destruct (a_tasks a !! id) as [t|] eqn:Ht; [|multiset_solver].
    rewrite log_requeue_messages by (by eapply Hq). rewrite (messages_del_task _ _ _ Ht). multiset_solver.
  - multiset_solver.
Qed.

(** What an entry does to the domains of the maps. *)
Lemma log_pops_maps name ids : ∀ q a,
  (is_Some (a_queues a !! name)) →
  (∀ n, is_Some (a_queues (log_pops name ids q a) !! n) ↔ is_Some (a_queues a !! n)) ∧
  (∀ id t, a_tasks (log_pops name ids q a) !! id = Some t → a_tasks a !! id = Some t ∨ (id ∈ ids ∧ t_queue_name t = name)).
Proof.
  induction ids as [|id ids IH]; intros [|item q] a Hq; [by split; auto..|]. cbn [log_pops].
  match goal with |- context [log_pops name ids q ?b] => destruct (IH q b) as [Hqs Hts] end;
    [cbn; by rewrite lookup_insert_eq|]. split.
  - intros n. rewrite Hqs. cbn. rewrite lookup_insert. case_decide; [subst; naive_solver|done].
  - intros i t Hl. apply Hts in Hl as [Hl|[Hi ?]]; [|right; set_solver]. cbn in Hl.
    apply lookup_insert_Some in Hl as [[<- <-]|[_ Hl]]; [right; set_solver|by left].
Qed.

Lemma log_step_queues op a n : is_Some (a_queues a !! n) → is_Some (a_queues (log_step op a) !! n).
Proof.
  intros Hn.
  assert (∀ m q, is_Some (a_queues (a_set_queue m q a) !! n)) as Hset
    by (intros m q; cbn; rewrite lookup_insert; by case_decide).
  assert (∀ m items, is_Some (a_queues (log_append m items a) !! n)) as Happ
    by (intros m items; unfold log_append; destruct (a_queues a !! m); auto).
  assert (∀ m ids, is_Some (a_queues (log_pops m ids (default [] (a_queues a !! m)) a) !! n)) as Hpops.
  { intros m ids. destruct (a_queues a !! m) eqn:He; [|by destruct ids]. apply log_pops_maps; [by eexists|done]. }
  destruct op as [name|name d|name ds|name id|name ids|id|ids|id|id d]; cbn [log_step]; auto.
  - destruct (a_queues a !! name); auto.
  - case_decide; [|done]. by rewrite del_tasks_queues.
  - destruct (a_tasks a !! id) as [t|]; [|done]. unfold log_requeue. destruct (_ <=? _)%Z.
    + cbn. rewrite lookup_insert. by case_decide.
    + destruct (a_queues (a_del_task id a) !! _); [|done]. cbn. rewrite lookup_insert. by case_decide.
Qed.

Lemma log_step_tasks op a id t :
  a_tasks (log_step op a) !! id = Some t →
  a_tasks a !! id = Some t ∨ (id ∈ popped_ids op ∧ is_Some (a_queues a !! t_queue_name t)).
Proof.
  assert (∀ m ids, a_tasks (log_pops m ids (default [] (a_queues a !! m)) a) !! id = Some t →
    a_tasks a !! id = Some t ∨ (id ∈ ids ∧ is_Some (a_queues a !! t_queue_name t))) as Hpops.
  { intros m ids. destruct (a_queues a !! m) eqn:He; [|destruct ids; by left].
    intros H. apply log_pops_maps in H as [H|[H Hm]]; [by left|right; split; [done|by rewrite Hm, He]|by eexists]. }
  destruct op as [name|name d|name ds|name i|name ids|i|ids|i|i d]; cbn [log_step popped_ids]; auto.
  - destruct (a_queues a !! name); auto.
  - unfold log_append. destruct (a_queues a !! name); auto.
  - unfold log_append. destruct (a_queues a !! name); auto.
  - apply (Hpops name [i]).
  - apply Hpops.
  - cbn. intros [_ H]%lookup_delete_Some. auto.
  - case_decide; [|auto]. rewrite del_tasks_lookup. case_decide; [done|auto].
  - destruct (a_tasks a !! i) as [u|]; [|auto]. intros H. left.
    assert (a_tasks (a_del_task i a) !! id = Some t) as H'.
    { revert H. unfold log_requeue. repeat case_match; intros Hl; exact Hl. }
    cbn in H'. by apply lookup_delete_Some in H' as [_ H'].
Qed.

Lemma log_step_queued op a : queued a → queued (log_step op a).
Proof.
  intros Hq id t [H|[_ H]]%log_step_tasks; apply log_step_queues; [by eapply Hq|done].
Qed.

(** *** A run of entries *)

(** The messages entries bring to the queues of [names], and to others. *)
Definition brought_to (names : gset string) (ops : list WalOp) : gmultiset bytes :=
  list_to_set_disj (ops ≫= λ op,
    match pushed op with Some (name, ds) => if decide (name ∈ names) then ds else [] | None => [] end).
Definition brought_elsewhere (names : gset string) (ops : list WalOp) : gmultiset bytes :=
  list_to_set_disj (ops ≫= λ op,
    match pushed op with Some (name, ds) => if decide (name ∈ names) then [] else ds | None => [] end).

Lemma brought_to_cons names op ops : brought_to names (op :: ops) = brought_to names [op] ⊎ brought_to names ops.
Proof. unfold brought_to. rewrite !bind_cons. cbn [mbind list_bind]. by rewrite app_nil_r, list_to_set_disj_app. Qed.
Lemma brought_elsewhere_cons names op ops :
  brought_elsewhere names (op :: ops) = brought_elsewhere names [op] ⊎ brought_elsewhere names ops.
Proof. unfold brought_elsewhere. rewrite !bind_cons. cbn [mbind list_bind]. by rewrite app_nil_r, list_to_set_disj_app. Qed.

Lemma op_brings_split names op a :
  (∀ n, n ∈ names → is_Some (a_queues a !! n)) →
  ∃ extra, op_brings op a = brought_to names [op] ⊎ extra ∧ extra ⊆ brought_elsewhere names [op].
Proof.
  intros Hn. unfold op_brings, brought_to, brought_elsewhere. cbn [mbind list_bind].
  destruct (pushed op) as [[name ds]|]; [|exists ∅; by split].
  rewrite !app_nil_r. case_decide as Hin.
  - destruct (Hn name Hin) as [q Hq]. rewrite Hq. exists ∅. clear. cbn. split; multiset_solver.
  - destruct (a_queues a !! name); eexists; (split; [symmetry; apply gmultiset_disj_union_left_id|]); multiset_solver.
Qed.

Lemma size_omap_le {A} (f : string → option A) ids : length (omap f ids) ≤ length ids.
Proof. induction ids as [|id ids IH]; [done|]. cbn. destruct (f id); cbn; lia. Qed.

Lemma size_payloads (ds : list bytes) : size (list_to_set_disj ds : gmultiset bytes) = length ds.
Proof.
  induction ds as [|d ds IH]; [apply gmultiset_size_empty|].
  by rewrite list_to_set_disj_cons, gmultiset_size_disj_union, gmultiset_size_singleton, IH.
Qed.

Lemma op_takes_size op a : size (op_takes op a) ≤ length (acked_ids op).
Proof.
  unfold op_takes. rewrite size_payloads. etrans; [apply size_omap_le|].
  destruct op; cbn; try lia. case_decide; [|cbn; lia]. clear. induction task_ids as [|id ids IH]; [done|].
  cbn. case_decide; cbn; lia.
Qed.

Lemma log_run_messages names ops : ∀ a,
  queued a → (∀ n, n ∈ names → is_Some (a_queues a !! n)) →
  NoDup (ops ≫= popped_ids) → Forall (λ id, a_tasks a !! id = None) (ops ≫= popped_ids) →
  ∃ gone extra,
    messages (log_run ops a) ⊎ gone = messages a ⊎ brought_to names ops ⊎ extra ∧
    size gone ≤ length (ops ≫= acked_ids) ∧ extra ⊆ brought_elsewhere names ops.
Proof.
  induction ops as [|op ops IH]; intros a Hq Hn Hnd Hfree.
  { exists ∅, ∅. unfold brought_to, brought_elsewhere. cbn. split_and!; [clear; multiset_solver|done|clear; multiset_solver]. }
  rewrite !bind_cons in Hnd, Hfree. apply NoDup_app in Hnd as (Hnd & Hdisj & Hnds).
  apply Forall_app in Hfree as [Hf Hfs].
  destruct (IH (log_step op a)) as (gone & extra & Hm & Hg & Hx);
    [by apply log_step_queued|intros n ?; by apply log_step_queues, Hn|done| |].
  { apply Forall_forall. intros id Hid. apply eq_None_not_Some. intros [t [H|[H _]]%log_step_tasks].
    - eapply Forall_forall in Hfs; [|exact Hid]. congruence.
    - by apply (Hdisj id). }
  pose proof (log_step_messages op a Hq Hnd Hf) as Hs.
  destruct (op_brings_split names op a Hn) as (x & Hb & Hxs). pose proof (op_takes_size op a) as Ht.
  exists (op_takes op a ⊎ gone), (x ⊎ extra). change (log_run (op :: ops) a) with (log_run ops (log_step op a)).
  rewrite brought_to_cons, brought_elsewhere_cons, bind_cons, length_app, gmultiset_size_disj_union.
  rewrite Hb in Hs. split_and!; [|lia|clear -Hx Hxs; multiset_solver].
  clear -Hs Hm. multiset_solver.
Qed.

Lemma task_msgs_timeless m : task_msgs (timeless <$> m) = task_msgs m.
Proof.
  induction m as [|id t m Hid IH] using map_ind; [by rewrite fmap_empty|].
  rewrite fmap_insert, !task_msgs_insert_None, IH; [done|done|by rewrite lookup_fmap, Hid].
Qed.
#[export] Instance messages_proper : Proper ((≡) ==> (=)) messages.
Proof. intros a b [Hq Ht]. unfold messages. by rewrite Hq, <- task_msgs_timeless, Ht, task_msgs_timeless. Qed.

(** ** Identifiers are logged once *)

Section drawn.
Context `{RT : !Runtime} `{CH : !Chrono} `{CD : !WalCodec} `{SH : !Shards} `{UL : !UuidLaws}.
Context `{DL : !DashLaws} `{FL : !FsLaws} `{RD : !ReliableDisk} `{CL : !WalCodecLaws}.

(** The identifiers a call is about to log. *)
Definition draw_ids (t : Thread) : list string :=
  match t with WaitLog op _ | Appending op _ => popped_ids op | _ => [] end.

Definition new_ids (s s' : Sys) (ids : list string) : Prop :=
  NoDup ids ∧ Forall (λ id, id ∈ issued (host s') ∧ id ∉ issued (host s)) ids.

(** The identifiers logged since [s0], and those about to be, were not drawn then. *)
Definition drawn (s0 : Sys) (ts : list Thread) (s : Sys) (ops : list WalOp) : Prop :=
  new_ids s0 s ((ts ≫= draw_ids) ++ (ops ≫= popped_ids)).

Lemma new_ids_nil s s' : new_ids s s' [].
Proof. split; [apply NoDup_nil_2|apply Forall_nil_2]. Qed.
Lemma new_ids_perm s s' ids ids' : ids ≡ₚ ids' → new_ids s s' ids → new_ids s s' ids'.
Proof. intros Hp [? ?]. split; [by rewrite <- Hp|by rewrite <- Hp]. Qed.
Lemma new_ids_sublist s s' ids ids' : ids' `sublist_of` ids → new_ids s s' ids → new_ids s s' ids'.
Proof.
  intros Hs [? H]. split; [by eapply sublist_NoDup|]. apply Forall_forall. intros id Hid.
  eapply Forall_forall in H; [exact H|]. by eapply elem_of_sublist.
Qed.
Lemma new_ids_weaken s0 s s' ids : issued (host s) ⊆ issued (host s') → new_ids s0 s ids → new_ids s0 s' ids.
Proof. intros Hg [? H]. split; [done|]. eapply Forall_impl; [exact H|]. cbn. set_solver. Qed.
Lemma new_ids_app s0 s s' ids ids' :
  issued (host s0) ⊆ issued (host s) → issued (host s) ⊆ issued (host s') →
  new_ids s0 s ids → new_ids s s' ids' → new_ids s0 s' (ids' ++ ids).
Proof.
  intros H0 Hg [Hnd Hi] [Hnd' Hi']. split.
  - apply NoDup_app. split_and!; [done| |done]. intros id Hid' Hid.
    eapply Forall_forall in Hi as [? _]; [|exact Hid]. eapply Forall_forall in Hi' as [_ ?]; [|exact Hid']. done.
  - apply Forall_app. split; [eapply Forall_impl; [exact Hi'|]|eapply Forall_impl; [exact Hi|]]; cbn; set_solver.
Qed.

Lemma log_draws op k s t s' : log op k s = (Ret t, s') → s' = s ∧ (draw_ids t = [] ∨ draw_ids t = popped_ids op).
Proof.
  unfold log. rewrite bind_gets. destruct (wal (store s)); intros [= <- <-]; (split; [done|]); [by right|by left].
Qed.

Lemma start_draws req s t s' : start req s = (Ret t, s') → new_ids s s' (draw_ids t).
Proof.
  assert (∀ op k u v, popped_ids op = [] → log op k u = (Ret t, v) → new_ids s v (draw_ids t)) as Hnone.
  { intros op k u v Hop [_ [-> | ->]]%log_draws; rewrite ?Hop; apply new_ids_nil. }
  intros H. destruct req as [name|name d|name|id|id|id d|name ds|name count|ids]; cbn [start] in H.
  - rewrite contains_step in H. case_bool_decide; minv; [apply new_ids_nil|solve [eapply Hnone; [|eassumption]; done]].
  - rewrite contains_step in H. case_bool_decide; cbn [negb] in H; minv; [solve [eapply Hnone; [|eassumption]; done]|apply new_ids_nil].
  - rewrite get_queue_step in H. destruct (_ !! name) as [[|item rest]|]; [minv; apply new_ids_nil| |minv; apply new_ids_nil].
    unfold put_queue in H. rewrite bind_modify in H. minv.
    match goal with H : new_uuid _ = _ |- _ => apply new_uuid_Ret in H as (_ & _ & Hnew & Hi) end.
    apply log_draws in H as [-> [-> | ->]]; [apply new_ids_nil|]. cbn. split; [apply NoDup_singleton|].
    apply Forall_singleton. cbn in Hnew, Hi. set_solver.
  - rewrite get_task_step in H. destruct (_ !! id); unfold drop_task in *; minv; [solve [eapply Hnone; [|eassumption]; done]|apply new_ids_nil].
  - rewrite get_task_step in H. destruct (_ !! id); unfold drop_task in *; minv; [solve [eapply Hnone; [|eassumption]; done]|apply new_ids_nil].
  - rewrite get_task_step in H. destruct (_ !! id); minv; [solve [eapply Hnone; [|eassumption]; done]|apply new_ids_nil].
  - rewrite contains_step in H. case_bool_decide; cbn [negb] in H; minv; [solve [eapply Hnone; [|eassumption]; done]|apply new_ids_nil].
  - rewrite get_queue_step in H. destruct (_ !! name) as [[|item rest]|]; [minv; apply new_ids_nil| |minv; apply new_ids_nil].
    unfold vec_with_capacity in H. destruct (_ <? _)%Z; minv.
    rewrite pop_upto_take_drop in H. unfold put_queue in H. rewrite bind_modify in H.
    case_bool_decide; minv; [apply new_ids_nil|].
    match goal with H : new_uuids _ _ = _ |- _ => apply new_uuids_Ret in H as (_ & _ & _ & Hnd & Hnew & Hi) end.
    apply log_draws in H as [-> [-> | ->]]; [apply new_ids_nil|]. cbn. split; [done|].
    apply Forall_forall. intros id Hid. eapply Forall_forall in Hnew; [|exact Hid]. cbn in Hnew, Hi. set_solver.
  - minv. apply new_ids_nil.
Qed.

Lemma step_draws t s t' s' :
  (∀ op k, t ≠ Appending op k) → step t s = (Ret t', s') → draw_ids t' = draw_ids t ∨ new_ids s s' (draw_ids t').
Proof.
  intros Hna H.
  destruct t as [r|op k|op k|[[]|e] k|name task|name ids i items tasks|task|ids todo missing|ids|resp|]; cbn [step] in H.
  - right. by eapply start_draws.
  - minv. by left.
  - by destruct (Hna op k).
  - left. destruct k; cbn [log_done] in H; repeat (case_match || minv); done.
  - left. destruct k; cbn [log_failed] in H; repeat (case_match || minv); done.
  - minv. by left.
  - left. repeat (case_match || minv); done.
  - minv. by left.
  - left. destruct todo; [|by minv]. case_bool_decide; minv; [done|]. by apply log_draws in H as [_ [-> | ->]].
  - left. destruct ids; by minv.
  - minv. by left.
  - minv. by left.
Qed.

Lemma drawn_step s0 ts s ops l t k t' s' :
  ts = l ++ t :: k → issued (host s0) ⊆ issued (host s) → issued (host s) ⊆ issued (host s') →
  drawn s0 ts s ops → draw_ids t' = draw_ids t ∨ new_ids s s' (draw_ids t') → drawn s0 (l ++ t' :: k) s' ops.
Proof.
  intros -> H0 Hg Hd Ht. unfold drawn in Hd |- *. rewrite bind_app, bind_cons in Hd |- *.
  destruct Ht as [->|Hn]; [by eapply new_ids_weaken|].
  eapply (new_ids_perm _ _ (draw_ids t' ++ ((l ≫= draw_ids) ++ (k ≫= draw_ids)) ++ (ops ≫= popped_ids)));
    [solve_Permutation|].
  eapply (new_ids_app s0 s s'); [done|done| |done]. eapply new_ids_sublist; [|exact Hd].
  apply sublist_app; [|done]. apply sublist_app; [done|]. by apply sublist_inserts_l.
Qed.

Lemma event_drawn p s0 e ts s ts' s' es ops :
  pool_ok (ts, s) → logged p s es → issued (host s0) ⊆ issued (host s) → drawn s0 ts s ops →
  pool_event e (ts, s) = Some (ts', s') →
  ∃ es', logged p s' (es ++ es') ∧ issued (host s) ⊆ issued (host s') ∧ drawn s0 ts' s' (ops ++ (we_op <$> es')).
Proof.
  intros Hok L H0 Hd He. pose proof Hok as (Hm & Hall & _). cbn [fst snd] in Hm, Hall.
  destruct e as [i|i]; cbn [pool_event] in He; destruct (ts !! i) as [t|] eqn:Hi; try done.
  all: match type of He with (if ?b then _ else _) = _ => destruct b eqn:Hb; try done end.
  - destruct (advance t s) as [t' s1] eqn:Ha. injection He as <- <-.
    destruct (pool_split ts i t t' Hi) as (l & k & Hts & ->).
    assert (thread_ok t s) as Ht by (eapply Forall_forall in Hall; [exact Hall|by eapply list_elem_of_lookup_2]).
    pose proof (advance_keeps t s Hm Ht) as Hk. unfold keeps in Hk. rewrite Ha in Hk.
    destruct (keeps_grows _ _ _ _ Hk) as [_ Hg].
    assert ((∀ op k, t ≠ Appending op k) → ∃ es', logged p s1 (es ++ es') ∧ issued (host s) ⊆ issued (host s1) ∧
      drawn s0 (l ++ t' :: k) s1 (ops ++ (we_op <$> es'))) as Hother.
    { intros Hna. exists []. rewrite !app_nil_r. pose proof (step_no_log t Hna p s es L) as L'.
      unfold advance in Ha. destruct (step t s) as [[u|msg] s2] eqn:Hs; injection Ha as <- <-;
        (split; [exact L'|]); (split; [done|]); (eapply drawn_step; [done|done|done|done|]).
      - by eapply step_draws.
      - right. apply new_ids_nil. }
    destruct t as [req'|op r|op r|? ?|? ?|? ? ? ? ?|?|? ? ?|?|?|]; try (by apply Hother). clear Hother.
    destruct (wal_append_on p op s es L) as (n & s2 & Happ & L1 & _).
    rewrite (append_goes _ _ _ _ _ Happ) in Ha. injection Ha as <- <-.
    exists [mkWalEntry op n]. split; [done|]. split; [done|]. subst ts. unfold drawn in Hd |- *.
    rewrite bind_app, bind_cons in Hd. rewrite !bind_app, bind_cons. cbn [draw_ids fmap list_fmap we_op] in *.
    rewrite bind_cons. cbn [mbind list_bind] in *. rewrite app_nil_r. eapply new_ids_weaken; [done|].
    eapply new_ids_perm; [|exact Hd]. solve_Permutation.
  - injection He as <- <-. destruct (pool_split ts i t Dropped Hi) as (l & k & Hts & ->).
    exists []. rewrite !app_nil_r. split; [done|]. split; [done|].
    eapply drawn_step; [done|done|done|done|]. right. apply new_ids_nil.
Qed.

Lemma run_drawn p s0 sched : ∀ ts s ts' s' es ops,
  pool_ok (ts, s) → logged p s es → issued (host s0) ⊆ issued (host s) → drawn s0 ts s ops →
  pool_run sched (ts, s) = Some (ts', s') →
  ∃ es', logged p s' (es ++ es') ∧ drawn s0 ts' s' (ops ++ (we_op <$> es')).
Proof.
  induction sched as [|e sched IH]; intros ts s ts' s' es ops Hok L H0 Hd Hrun; cbn [pool_run] in Hrun.
  { injection Hrun as -> ->. exists []. by rewrite !app_nil_r. }
  destruct (pool_event e (ts, s)) as [[ts1 s1]|] eqn:He; [|done].
  destruct (event_drawn p s0 e ts s ts1 s1 es ops Hok L H0 Hd He) as (es1 & L1 & Hg & Hd1).
  destruct (event_keeps e ts s ts1 s1 Hok He) as [Hok1 _].
  destruct (IH ts1 s1 ts' s' _ _ Hok1 L1 ltac:(set_solver) Hd1 Hrun) as (es2 & L2 & Hd2).
  exists (es1 ++ es2). by rewrite fmap_app, !app_assoc.
Qed.

(** ** Concurrent calls and a crash *)

(** The queue and the messages of a call that enqueues. *)
Definition enqueues (req : ClientRequest) : option (string * list bytes) :=
  match req with
  | REnqueue name d => Some (name, [d])
  | REnqueueBatch name ds => Some (name, ds)
  | _ => None
  end.
Definition answered_error (t : Thread) : bool := match t with Finished (RErr _) => true | _ => false end.

(** Of a call that stands at [t]: the messages it was answered to have enqueued on
    one of the queues [names]; the other messages it may have enqueued; the tasks it
    may have acknowledged. *)
Definition call_accepted (names : gset string) (req : ClientRequest) (t : Thread) : list bytes :=
  match enqueues req with
  | Some (name, ds) => if succeeded t && bool_decide (name ∈ names) then ds else []
  | None => []
  end.
Definition call_open (names : gset string) (req : ClientRequest) (t : Thread) : list bytes :=
  match enqueues req with
  | Some (name, ds) => if answered_error t || succeeded t && bool_decide (name ∈ names) then [] else ds
  | None => []
  end.
Definition call_acks (req : ClientRequest) (t : Thread) : list string :=
  if answered_error t then []
  else match req with RAck id => [id] | RAckBatch ids => ids | _ => [] end.

Definition accepted_messages (names : gset string) (reqs : list ClientRequest) (ts : list Thread) : gmultiset bytes :=
  list_to_set_disj (concat (zip_with (call_accepted names) reqs ts)).
Definition open_messages (names : gset string) (reqs : list ClientRequest) (ts : list Thread) : gmultiset bytes :=
  list_to_set_disj (concat (zip_with (call_open names) reqs ts)).
Definition acks (reqs : list ClientRequest) (ts : list Thread) : list string :=
  concat (zip_with call_acks reqs ts).

Lemma entry_pushed req op : entry_of req op → pushed op = enqueues req.
Proof. intros [resp H]. destruct req, resp; cbn in H; repeat case_match; simplify_eq; done. Qed.
Lemma entry_acked req op : entry_of req op →
  acked_ids op = match req with RAck id => [id] | RAckBatch ids => ids | _ => [] end.
Proof. intros [resp H]. destruct req, resp; cbn in H; repeat case_match; simplify_eq; done. Qed.

Lemma reported_cases c t :
  reported c t →
  (c.2 = [] ∧ (enqueues c.1 ≠ None → succeeded t = false)) ∨
  (answered_error t = false ∧ ∃ op, entry_of c.1 op ∧ c.2 = [op]).
Proof.
  destruct c as [req ops]. destruct t as [| | | | | | | | |resp|]; cbn [reported fst snd answered_error];
    try (by intros [-> | H]; [left|right]).
  intros ->. destruct (log_of req resp) as [|op ops'] eqn:Hl.
  - left. split; [done|]. intros He. destruct req; cbn in He; try done; destruct resp; try done; by cbn in Hl.
  - right. pose proof (log_of_short req resp) as Hs. rewrite Hl in Hs.
    assert (ops' = []) as -> by (destruct ops'; [done|cbn in Hs; lia]). split; [|exists op; by split; [exists resp|]].
    destruct resp; try done. by destruct req.
Qed.

Lemma call_account names req ops t :
  reported (req, ops) t →
  ∃ x, brought_to names ops = list_to_set_disj (call_accepted names req t) ⊎ x ∧
    x ⊎ brought_elsewhere names ops ⊆ list_to_set_disj (call_open names req t) ∧
    length (ops ≫= acked_ids) ≤ length (call_acks req t).
Proof.
  intros [[H Hs]|[He (op & Hop & H)]]%reported_cases; cbn [fst snd] in *; subst ops;
    unfold brought_to, brought_elsewhere, call_accepted, call_open, call_acks; cbn [mbind list_bind].
  - exists ∅. destruct (enqueues req) as [[name ds]|]; [rewrite Hs by done|]; cbn [andb list_to_set_disj length];
      split_and!; try lia; clear; multiset_solver.
  - rewrite (entry_pushed _ _ Hop), (entry_acked _ _ Hop), He, !app_nil_r. cbn [orb].
    destruct (enqueues req) as [[name ds]|]; [|exists ∅; cbn [list_to_set_disj]; split_and!; [clear; multiset_solver..|done]].
    destruct (decide (name ∈ names)) as [Hn|Hn].
    + rewrite bool_decide_true by done. destruct (succeeded t); cbn [andb].
      * exists ∅. split_and!; [clear; multiset_solver..|done].
      * exists (list_to_set_disj ds). split_and!; [clear; multiset_solver..|done].
    + rewrite bool_decide_false, andb_false_r by done. exists ∅. split_and!; [clear; multiset_solver..|done].
Qed.

Lemma written_account names : ∀ (written : Journal) ts,
  Forall2 reported written ts →
  ∃ x, brought_to names (concat written.*2) = accepted_messages names written.*1 ts ⊎ x ∧
    x ⊎ brought_elsewhere names (concat written.*2) ⊆ open_messages names written.*1 ts ∧
    length (concat written.*2 ≫= acked_ids) ≤ length (acks written.*1 ts).
Proof.
  unfold accepted_messages, open_messages, acks.
  induction 1 as [|[req ops] t written ts Hr _ (x & Hb & Hx & Ha)].
  { exists ∅. unfold brought_to, brought_elsewhere. cbn [fmap list_fmap concat mbind list_bind list_to_set_disj zip_with].
    split_and!; [clear; multiset_solver..|done]. }
  destruct (call_account names req ops t Hr) as (y & Hb' & Hy & Ha').
  exists (y ⊎ x). rewrite !fmap_cons. cbn [fst snd zip_with concat].
  assert (brought_to names (ops ++ concat written.*2) = brought_to names ops ⊎ brought_to names (concat written.*2))
    as -> by (unfold brought_to; by rewrite bind_app, list_to_set_disj_app).
  assert (brought_elsewhere names (ops ++ concat written.*2) =
    brought_elsewhere names ops ⊎ brought_elsewhere names (concat written.*2))
    as -> by (unfold brought_elsewhere; by rewrite bind_app, list_to_set_disj_app).
  rewrite !list_to_set_disj_app, bind_app, !length_app, Hb', Hb.
  split_and!; [clear; multiset_solver|clear -Hx Hy; multiset_solver|lia].
Qed.

Lemma drawn_calls s reqs : drawn s (calls reqs) s [].
Proof.
  unfold drawn. assert (calls reqs ≫= draw_ids = []) as -> by (by induction reqs). apply new_ids_nil.
Qed.

(** C18. An accepted message survives a crash: when the process ends at any moment
    of any schedule of concurrent calls of the storage, some of them cancelled, then
    on a disk without faults a restart holds the messages the node held at the start
    and every message whose enqueue, single or batch, on a queue of the start was
    answered with success, except at most one message for each task named by an
    acknowledgement that was not refused; what it holds besides are messages of
    enqueues without an answer, or on queues created during the schedule. *)
Theorem accepted_survive_crash p s es reqs sched ts' s' :
  lives p s → logged p s es → pool_run sched (calls reqs, s) = Some (ts', s') →
  (Z.of_nat (length es + length reqs) < u32_modulus)%Z →
  let names := dom (queues (store s)) in
  ∃ st h' gone extra,
    new_persistent p (host s') = (Ret st, h') ∧
    messages (abs (mkSys st h')) ⊎ gone = messages (abs s) ⊎ accepted_messages names reqs ts' ⊎ extra ∧
    size gone ≤ length (acks reqs ts') ∧ extra ⊆ open_messages names reqs ts'.
Proof.
  intros Hl L Hrun Hlen names. destruct (lives_logged _ _ _ Hl L) as [[Hids Hwf] _].
  destruct (crash_run_logged p s es _ _ _ _ Hl L Hrun Hlen)
    as (es' & written & st & h' & L' & Hnew & Hst & Hops & <- & Hrep).
  destruct (run_drawn p s sched _ _ _ _ es [] (pool_ok_calls written.*1 s (conj Hids Hwf)) L ltac:(done)
    (drawn_calls s written.*1) Hrun) as (es2 & L2 & Hd).
  pose proof (app_inv_head _ _ _ (logged_inj _ _ _ _ L2 L')) as ->.
  eapply (new_ids_sublist _ _ _ ((we_op <$> es') ≫= popped_ids)) in Hd as [Hnd Hfresh]; [|by apply sublist_inserts_l].
  destruct (log_run_messages names (we_op <$> es') (abs s)) as (gone & extra & Hm & Hg & Hx).
  - intros id t Ht. by destruct (wf_tasks _ Hwf id t Ht).
  - intros n Hn. by apply elem_of_dom in Hn.
  - done.
  - eapply Forall_impl; [exact Hfresh|]. intros id [_ Hid]. apply eq_None_not_Some. intros Hs. by apply Hid, Hids.
  - destruct (written_account names written ts' Hrep) as (x & Hb & Hxo & Ha).
    assert (brought_to names (we_op <$> es') = brought_to names (concat written.*2)) as Hb1
      by (unfold brought_to; by rewrite Hops).
    assert (brought_elsewhere names (we_op <$> es') = brought_elsewhere names (concat written.*2)) as Hb2
      by (unfold brought_elsewhere; by rewrite Hops).
    exists st, h', gone, (x ⊎ extra). split; [done|]. rewrite Hst, Hm, Hb1, Hb. rewrite Hb2 in Hx.
    split_and!; [clear; multiset_solver| |clear -Hx Hxo; multiset_solver].
    etrans; [exact Hg|]. by rewrite Hops.
Qed.
End drawn.

(** ** Example

    An enqueue has been answered; a dequeue and a rejection are in the log and not in
    the maps when the process ends. *)

#[local] Existing Instance ex_runtime.

Definition ex_three : list ClientRequest := [REnqueue "q" [Byte.x63]; RDequeue "q"; RNack "task-0"].
Definition ex_ended : list Event :=
  [Run 0; Run 0; Run 0; Run 0; Run 1; Run 1; Run 1; Run 2; Run 2; Run 2].
Definition ex_dead : Pool := ran ex_ended (calls ex_three, ex_logged).

Lemma accepted_survive_crash_witness :
  ∃ st h', new_persistent "wal" (host ex_dead.2) = (Ret st, h') ∧ [Byte.x63] ∈ messages (abs (mkSys st h')).
Proof.
  destruct ex_log as (es & L & Hlen).
  destruct (accepted_survive_crash (RT := ex_runtime) "wal" ex_logged es ex_three ex_ended ex_dead.1 ex_dead.2 ex_lives L)
    as (st & h' & gone & extra & Hnew & Hm & Hg & _).
  - apply ran_Some. vm_compute. reflexivity.
  - cbn. unfold u32_modulus. lia.
  - exists st, h'. split; [exact Hnew|].
    assert (accepted_messages (dom (queues (store ex_logged))) ex_three ex_dead.1 = list_to_set_disj [[Byte.x63]]) as Ha
      by (unfold accepted_messages; f_equal; vm_compute; reflexivity).
    assert (length (acks ex_three ex_dead.1) = 0) as Hn by (vm_compute; reflexivity).
    rewrite Hn in Hg. assert (gone = ∅) as -> by (apply gmultiset_size_empty_inv; lia).
    rewrite Ha, gmultiset_disj_union_right_id in Hm. rewrite Hm, !gmultiset_elem_of_disj_union.
    left. right. by apply elem_of_list_to_set_disj; left.
Defined.
