(* ===== verification/ClusterRestart.v ===== *)
(** * A cluster node across restarts

    [main] gives a cluster node an empty state machine and [CombinedStorage::new]
    an empty last applied id; what survives is the log in sled.  A restarted node
    is its log from the first entry: the commands that name no task rebuild the
    queues, but the replay draws new task identifiers, so every acknowledgement of
    the first life is refused and every acknowledged message is back; and what was
    purged from the log is gone, because no snapshot is kept. *)

From stdpp Require Import prelude base gmap gmultiset strings list fin_maps sorting.
From Stdlib Require Import ZArith Lia Strings.Byte.
From S2P Require Import Prelude Types Bytes Env Wal Memory Spec Commands Refinement Invariant Models Storage StorageFn RaftLog RaftModels RaftStore Replica Replication Agreement.
Local Open Scope oxide_scope.
Set Warnings "-clear-no-such-hyp".

(** ** Starting a node on its log *)

Section logs.
Context `{RTy : !RaftTypes} `{RC : !RaftCodec} `{SL : !Sled} `{LS : !SledLaws} `{CL : !RaftCodecLaws}.

(** Entries in index order, with [u64] indexes. *)
Definition in_order (es : list Entry) : Prop :=
  StronglySorted Z.lt (entry_index <$> es) ∧ Forall (λ e, in_u64 (entry_index e)) es.

(** The database holds exactly these log entries. *)
Definition log_holds (d : Db) (es : list Entry) : Prop :=
  in_order es ∧ ∃ a, log_rel d a ∧ al_entries a = put_entries es ∅.

Lemma log_holds_empty d : tree d = (λ _, ∅) → log_holds d [].
Proof.
  intros Ht. split; [split; constructor|]. exists (mkALog ∅ None None). by split; [apply log_rel_empty|].
Qed.

(** Appending in index order lengthens the list. *)
Lemma log_holds_append d es1 es2 :
  log_holds d es1 → in_order (es1 ++ es2) →
  ∃ d', append_to_log es2 d = (Ret tt, d') ∧ log_holds d' (es1 ++ es2).
Proof.
  intros [_ (a & Hr & Ha)] Hord.
  destruct (append_to_log_ok es2 d a Hr) as (d' & H & Hr').
  { destruct Hord as [_ Hu]. by apply Forall_app in Hu as [_ ?]. }
  exists d'. split; [exact H|]. split; [exact Hord|]. eexists. split; [exact Hr'|]. cbn [al_entries].
  rewrite Ha. unfold put_entries. by rewrite foldl_app.
Qed.

Lemma put_empty_lookup es i e :
  StronglySorted Z.lt (entry_index <$> es) →
  put_entries es ∅ !! i = Some e ↔ e ∈ es ∧ entry_index e = i.
Proof.
  intros Hs. rewrite put_entries_lookup by done. rewrite lookup_empty. naive_solver.
Qed.

(** An unbounded scan reads the whole log. *)
Lemma read_whole_log checks d es :
  log_holds d es →
  ∃ d', try_get_log_entries checks Unbounded Unbounded d = (Ret es, d') ∧ log_holds d' es.
Proof.
  intros [[Hs Hu] (a & Hr & Ha)].
  destruct (try_get_ok checks Unbounded Unbounded d a Hr I) as (l & d' & H & Hr' & Hsl & Hl).
  assert (l = es) as ->.
  { apply (sorted_ext entry_index); [done..|]. intros e. rewrite Hl, Ha, put_empty_lookup by done.
    cbn [after_start before_end]. naive_solver. }
  exists d'. split; [exact H|]. split; [by split|by exists a].
Qed.

(** A purge up to the last entry of a prefix leaves the suffix. *)
Lemma purge_leaves d es1 e es2 :
  log_holds d (es1 ++ e :: es2) →
  ∃ d', purge_logs_upto (log_id e) d = (Ret tt, d') ∧ log_holds d' es2.
Proof.
  intros [[Hs Hu] (a & Hr & Ha)].
  assert (in_u64 (index (log_id e))) as He
    by (rewrite Forall_app, Forall_cons in Hu; by destruct Hu as (_ & ? & _)).
  destruct (purge_ok (log_id e) d a Hr He) as (d' & H & Hr').
  assert (StronglySorted Z.lt (entry_index <$> es2) ∧
    (∀ x, x ∈ es1 ++ [e] → entry_index x ≤ entry_index e)%Z ∧
    (∀ x, x ∈ es2 → entry_index e < entry_index x)%Z) as (Hs2 & Hle & Hlt).
  { clear -Hs. induction es1 as [|y es1 IH]; cbn [app fmap list_fmap] in Hs;
      inversion_clear Hs as [|? ? Hs' Hall]; rewrite Forall_fmap, Forall_forall in Hall; cbn in Hall.
    - split_and!; [exact Hs'| |exact Hall]. intros x Hx. apply list_elem_of_singleton in Hx as ->. lia.
    - destruct (IH Hs') as (H1 & H2 & H3). split_and!; [exact H1| |exact H3].
      intros x [->|Hx]%elem_of_cons; [|by apply H2]. assert (e ∈ es1 ++ e :: es2) by set_solver.
      specialize (Hall e ltac:(done)). lia. }
  exists d'. split; [exact H|]. split.
  { split; [exact Hs2|]. rewrite Forall_app, Forall_cons in Hu. by destruct Hu as (_ & _ & ?). }
  eexists. split; [exact Hr'|]. cbn [al_entries]. apply map_eq. intros i. apply option_eq. intros x.
  rewrite Ha, map_lookup_filter_Some, !put_empty_lookup by done. cbn [fst].
  change (index (log_id e)) with (entry_index e). split.
  - intros [[Hx <-] Hi]. split; [|done].
    assert (x ∈ es1 ++ [e] ∨ x ∈ es2) as [Hx'|?] by set_solver; [|done].
    specialize (Hle _ Hx'). lia.
  - intros [Hx <-]. split; [split; [set_solver|done]|by apply Hlt].
Qed.
End logs.

(** ** The second life of a machine *)

Section lives.
Context `{RT : !Runtime} `{CH : !Chrono} `{CD : !WalCodec} `{UL : !UuidLaws} `{DL : !DashLaws}.

Definition is_err (resp : ClientResponse) : Prop :=
  match resp with RErr _ => True | _ => False end.

(** A command that names a task is refused. *)
Definition refused (req : ClientRequest) (resp : ClientResponse) : Prop :=
  named req ≠ [] → is_err resp.

(** The payloads a session brought in, and those it retired. *)
Fixpoint brought_in (reqs : list ClientRequest) (reps : list ClientResponse) : gmultiset bytes :=
  match reqs, reps with
  | req :: reqs', rep :: reps' => produced req rep ⊎ brought_in reqs' reps'
  | _, _ => ∅
  end.

Fixpoint retired (reqs : list ClientRequest) (s : Sys) : gmultiset bytes :=
  match reqs with
  | [] => ∅
  | req :: reqs' =>
    match apply_request req s with
    | (Ret rep, s') => consumed (abs s) req rep ⊎ retired reqs' s'
    | (Panic _, _) => ∅
    end
  end.

Lemma session_messages reqs : ∀ s reps s',
  node_inv s → apply_requests reqs s = (Ret reps, s') →
  messages (abs s') ⊎ retired reqs s = messages (abs s) ⊎ brought_in reqs reps.
Proof.
  induction reqs as [|req reqs IH]; intros s reps s' Hi H; cbn in H; minv; [done|].
  match goal with H1 : apply_request _ s = (Ret ?rep, ?s1), H2 : apply_requests _ _ = _ |- _ =>
    pose proof (spec_step_messages _ _ _ _ _ (proj2 Hi) (apply_request_sim _ _ _ _ (proj1 Hi) H1)) as Hm;
    pose proof (IH _ _ _ (node_inv_request _ _ _ _ Hi H1) H2) as Hrest; cbn [retired brought_in];
    rewrite H1
  end.
  revert Hm Hrest. clear. intros Hm Hrest. multiset_solver.
Qed.

(** No item was ever returned. *)
Definition untried (m : gmap string (list QueueItem)) : Prop :=
  ∀ name q, m !! name = Some q → Forall (λ i, qi_attempts i = 0%Z) q.

Lemma untried_insert m name q :
  untried m → Forall (λ i, qi_attempts i = 0%Z) q → untried (<[name := q]> m).
Proof. intros Hm Hq n q'. intros [[_ <-]|[_ H]]%lookup_insert_Some; [done|by eapply Hm]. Qed.

Lemma untried_new ds : Forall (λ i, qi_attempts i = 0%Z) (new_items ds).
Proof. unfold new_items. apply Forall_fmap, Forall_forall. done. Qed.

(** Naming no task at hand, a command settles nothing. *)
Lemma untried_step req a resp a' :
  (∀ id, id ∈ named req → a_tasks a !! id = None) → untried (a_queues a) →
  spec_step false req a resp a' →
  refused req resp ∧ consumed a req resp = ∅ ∧ untried (a_queues a').
Proof.
  intros Hn Hz Hs. unfold refused, consumed.
  destruct Hs; cbn [named retired_ids] in *;
    try (match goal with H : a_tasks a !! ?id = Some _ |- _ => rewrite (Hn id) in H by set_solver; done end);
    try (match goal with H : a_queues a !! ?name = Some _ |- _ => pose proof (Hz _ _ H) as Hq end).
  all: cbn [a_queues a_set_queue a_set_task is_err]; rewrite ?set_tasks_queues, ?del_tasks_queues;
    cbn [a_queues a_set_queue].
  all: try solve [split_and!; [by intros []|done|]; (exact Hz ||
    (apply untried_insert; [exact Hz|]; first [by constructor|by inversion_clear Hq
      |apply Forall_app; split; [exact Hq|first [apply untried_new|by repeat constructor]]|by apply Forall_drop]))].
  all: try solve [split_and!; done].
  - cbn. by rewrite H.
  - destruct ids as [|id ids]; [by split_and!|].
    apply Forall_cons in H as [[t Ht] _]. rewrite (Hn id) in Ht by left. done.
Qed.

(** What a replay sees: no item ever returned, and no task of the first life.
    [old] are the identifiers the log may name. *)
Record second_life (old : gset string) (s : Sys) : Prop := {
  second_inv : node_inv s;
  second_memory : persistent s = false;
  second_old : old ⊆ issued (host s);
  second_apart id : id ∈ old → a_tasks (abs s) !! id = None;
  second_untried : untried (a_queues (abs s)) }.

Lemma second_life_new old h : old ⊆ issued h → second_life old (mkSys storage_new h).
Proof.
  intros Hold. split; [apply node_inv_new|done|done| |].
  - intros id _. apply lookup_empty.
  - intros name q Hq. cbn in Hq. by rewrite lookup_empty in Hq.
Qed.

Lemma untried_returns req s :
  untried (queues (store s)) → count_ok req → returns (apply_request req) s.
Proof.
  intros Hz Hc. apply apply_request_total; [|done]. intros name q item Hq Hin.
  pose proof (proj1 (Forall_forall _ _) (Hz _ _ Hq) _ Hin) as ->. done.
Qed.

Lemma second_life_step old req s :
  second_life old s → list_to_set (named req) ⊆ old → count_ok req →
  ∃ rep s', apply_request req s = (Ret rep, s') ∧ second_life old s' ∧ refused req rep ∧
            messages (abs s') = messages (abs s) ⊎ produced req rep.
Proof.
  intros [Hi Hp Hold Hapart Hz] Hn Hc.
  destruct (untried_returns req s Hz Hc) as (rep & s' & H).
  pose proof (apply_request_sim _ _ _ _ (proj1 Hi) H) as Hs. rewrite Hp in Hs.
  destruct (apply_request_issues _ _ _ _ H) as (Hp' & Hsub & Hnew).
  destruct (untried_step req (abs s) rep (abs s')) as (Href & Hcons & Hz'); [|done|done|].
  { intros id Hid. apply Hapart. set_solver. }
  pose proof (spec_step_messages _ _ _ _ _ (proj2 Hi) Hs) as Hm. rewrite Hcons in Hm.
  exists rep, s'. split; [exact H|]. split; [|split; [exact Href|]].
  - split; [by eapply node_inv_request|congruence|set_solver| |exact Hz'].
    intros id Hid. apply eq_None_not_Some. intros Hsome.
    destruct (spec_step_tasks _ _ _ _ _ _ Hs Hsome) as [[t Ht]|Hin].
    + by rewrite Hapart in Ht.
    + rewrite Forall_forall in Hnew. destruct (Hnew _ Hin) as [_ []]. by apply Hold.
  - revert Hm. clear. intros Hm. multiset_solver.
Qed.

(** The replay returns, refuses every command that names a task, and holds all
    that was ever brought in. *)
Lemma second_life_run old reqs : ∀ s,
  second_life old s → Forall (λ req, list_to_set (named req) ⊆ old ∧ count_ok req) reqs →
  ∃ reps s', apply_requests reqs s = (Ret reps, s') ∧ second_life old s' ∧
    Forall2 refused reqs reps ∧ messages (abs s') = messages (abs s) ⊎ brought_in reqs reps.
Proof.
  induction reqs as [|req reqs IH]; intros s Hs Hall.
  { exists [], s. split_and!; [done|done|constructor|]. cbn [brought_in]. clear. multiset_solver. }
  apply Forall_cons in Hall as [[Hn Hc] Hall].
  destruct (second_life_step old req s Hs Hn Hc) as (rep & s1 & H1 & Hs1 & Hr1 & Hm1).
  destruct (IH s1 Hs1 Hall) as (reps & s2 & H2 & Hs2 & Hr2 & Hm2).
  exists (rep :: reps), s2. split_and!; [by eapply apply_requests_cons|done|by constructor|].
  cbn [brought_in]. rewrite Hm2, Hm1. clear. multiset_solver.
Qed.

(** *** Which enqueues are accepted

    Without a [Nack] the set of queues changes by [CreateQueue] alone, so the two
    lives accept the same messages. *)

Definition returns_nothing (req : ClientRequest) : Prop :=
  match req with RNack _ => False | _ => True end.

Lemma same_queues req a b r1 r2 a' b' :
  returns_nothing req → dom (a_queues a) = dom (a_queues b) →
  spec_step false req a r1 a' → spec_step false req b r2 b' →
  dom (a_queues a') = dom (a_queues b') ∧ produced req r1 = produced req r2.
Proof.
  intros Hr Hd H1 H2.
  assert (∀ n q, a_queues a !! n = Some q → a_queues b !! n = None → False) as Hab.
  { intros n q Hq Hn%not_elem_of_dom. apply Hn. rewrite <- Hd. by eapply elem_of_dom_2. }
  assert (∀ n q, a_queues b !! n = Some q → a_queues a !! n = None → False) as Hba.
  { intros n q Hq Hn%not_elem_of_dom. apply Hn. rewrite Hd. by eapply elem_of_dom_2. }
  destruct H1; try done; inversion H2; simplify_eq;
    repeat match goal with H : is_Some _ |- _ => destruct H end;
    try solve [exfalso; eauto];
    cbn [a_queues a_set_queue a_set_task a_del_task];
    rewrite ?set_tasks_queues, ?del_tasks_queues; cbn [a_queues a_set_queue];
    rewrite ?dom_insert_L; split; try done; try (by rewrite Hd);
    match goal with H : a_queues _ !! ?n = Some _, G : a_queues _ !! ?n = Some _ |- _ =>
      apply elem_of_dom_2 in H, G; set_solver end.
Qed.

Lemma same_brought_in reqs : ∀ s1 s2 reps1 reps2 s1' s2',
  node_inv s1 → node_inv s2 → persistent s1 = false → persistent s2 = false →
  Forall returns_nothing reqs → dom (queues (store s1)) = dom (queues (store s2)) →
  apply_requests reqs s1 = (Ret reps1, s1') → apply_requests reqs s2 = (Ret reps2, s2') →
  brought_in reqs reps1 = brought_in reqs reps2.
Proof.
  induction reqs as [|req reqs IH]; intros s1 s2 reps1 reps2 s1' s2' Hi1 Hi2 Hp1 Hp2 Hf Hd H1 H2;
    cbn in H1, H2; minv; [done|]. apply Forall_cons in Hf as [Hreq Hf].
  match goal with
  | G1 : apply_request _ s1 = (Ret ?x1, ?t1), G2 : apply_request _ s2 = (Ret ?x2, ?t2) |- _ =>
    pose proof (apply_request_sim _ _ _ _ (proj1 Hi1) G1) as S1;
    pose proof (apply_request_sim _ _ _ _ (proj1 Hi2) G2) as S2;
    destruct (apply_request_issues _ _ _ _ G1) as (P1 & _);
    destruct (apply_request_issues _ _ _ _ G2) as (P2 & _);
    pose proof (node_inv_request _ _ _ _ Hi1 G1); pose proof (node_inv_request _ _ _ _ Hi2 G2)
  end.
  rewrite Hp1 in S1, P1. rewrite Hp2 in S2, P2.
  destruct (same_queues _ (abs s1) (abs s2) _ _ _ _ Hreq Hd S1 S2) as [Hd' He].
  cbn [brought_in]. rewrite He. f_equal. eapply IH; [..|eassumption|eassumption]; done.
Qed.
End lives.

(** ** The node *)

Section nodes.
Context `{RT : !Runtime} `{CH : !Chrono} `{CD : !WalCodec} `{UL : !UuidLaws} `{DL : !DashLaws}.
Context `{RTy : !RaftTypes} `{RC : !RaftCodec} `{SL : !Sled} `{LS : !SledLaws} `{CL : !RaftCodecLaws}.

(** A call of the log store on the node. *)
Definition on_log {A} (c : M Db A) : M CombinedStorage A := λ r,
  let '(o, d) := c (db r) in (o, mkCombined d (state_machine r) (last_applied_log r)).

(** What a node without an applied id and without a snapshot is brought up from:
    the log from its first entry.  This is openraft's doing, not the program's: it
    calls [try_get_log_entries] and [apply_to_state_machine]. *)
Definition reapply (checks : bool) : M CombinedStorage (list ClientResponse) :=
  es ← on_log (try_get_log_entries checks Unbounded Unbounded);
  apply_to_state_machine es.

Lemma reapply_spec checks d es s reps s' :
  log_holds d es → apply_requests (requests_of es) s = (Ret reps, s') →
  ∃ d', reapply checks (mkCombined d s None) =
    (Ret (weave es reps), mkCombined d' s' (last_id es None)) ∧ log_holds d' es.
Proof.
  intros Hd H. destruct (read_whole_log checks d es Hd) as (d' & Hr & Hd').
  exists d'. split; [|exact Hd']. unfold reapply.
  erewrite bind_step by (unfold on_log; cbn [db]; rewrite Hr; reflexivity).
  by apply (apply_log_spec es (mkCombined d' s None)).
Qed.

(** A restarted cluster node is its log: it reports no applied entry and no
    snapshot, and reading its log and applying it runs the commands of all its
    entries, from the first one, on an empty state machine. *)
Theorem restart_is_log checks d es h r reps s :
  log_holds d es → combined_new (Ok d) (mkSys storage_new h) = Ok r →
  apply_requests (requests_of es) (mkSys storage_new h) = (Ret reps, s) →
  last_applied_state r = (Ret (None, mkStoredMembership None membership_default), r) ∧
  get_current_snapshot r = (Ret None, r) ∧
  ∃ d', reapply checks r = (Ret (weave es reps), mkCombined d' s (last_id es None)) ∧
        log_holds d' es.
Proof. intros Hd [= <-] H. split_and!; [done|done|by apply reapply_spec]. Qed.

(** C29. Recovery of a cluster node: when the commands of the log name no task and
    ask for batches a vector can hold, a node that is brought up from its log, read
    from the first entry and applied in one go ([reapply], which stands for what
    openraft does at its start), has the queues the first life ended with, having
    given the same answers up to the identifiers and instants drawn. *)
Theorem restart_rebuilds_queues checks d0 d es h1 h2 r1 r2 :
  log_holds d es → Forall (λ req, id_free req ∧ count_ok req) (requests_of es) →
  combined_new (Ok d0) (mkSys storage_new h1) = Ok r1 →
  combined_new (Ok d) (mkSys storage_new h2) = Ok r2 →
  ∃ resps1 r1' resps2 r2',
    apply_to_state_machine es r1 = (Ret resps1, r1') ∧ reapply checks r2 = (Ret resps2, r2') ∧
    erase <$> resps1 = erase <$> resps2 ∧
    queues (store (state_machine r1')) = queues (store (state_machine r2')) ∧
    last_applied_log r1' = last_applied_log r2'.
Proof.
  intros Hd Hall [= <-] [= <-]. apply Forall_and in Hall as [Hf Hc].
  assert (Forall (λ req, list_to_set (named req) ⊆ (∅ : gset string) ∧ count_ok req) (requests_of es)) as Hold.
  { apply Forall_and. split; [|done]. eapply Forall_impl; [exact Hf|]. by intros []. }
  destruct (second_life_run ∅ _ _ (second_life_new ∅ h1 ltac:(set_solver)) Hold) as (reps1 & s1 & H1 & _).
  destruct (second_life_run ∅ _ _ (second_life_new ∅ h2 ltac:(set_solver)) Hold) as (reps2 & s2 & H2 & _).
  destruct (reapply_spec checks d es _ _ _ Hd H2) as (d' & Hr & _).
  pose proof (apply_log_spec es (mkCombined d0 (mkSys storage_new h1) None) _ _ H1) as Ha.
  destruct (id_free_run _ _ _ _ _ _ _ (proj1 (node_inv_new None h1)) (proj1 (node_inv_new None h2))
    eq_refl eq_refl Hf eq_refl H1 H2) as [He Hq].
  do 4 eexists. split; [exact Ha|]. split; [exact Hr|]. cbn. rewrite !erase_weave, He. by split_and!.
Qed.

(** C30. A restart undoes every acknowledgement: when the log holds no [Nack], its
    batches fit a vector and the task identifiers it names cannot be drawn again,
    since they were issued before the restart, then the replay of the log from its
    first entry ([reapply], which stands for what openraft does at its start)
    refuses every command that names a task, and the node holds its messages of
    before the restart and besides every message its clients had acknowledged. *)
Theorem restart_undoes_acks checks d0 d es h1 h2 r1 r2 reps1 s1 :
  log_holds d es →
  Forall (λ req, returns_nothing req ∧ list_to_set (named req) ⊆ issued h2 ∧ count_ok req)
    (requests_of es) →
  combined_new (Ok d0) (mkSys storage_new h1) = Ok r1 →
  combined_new (Ok d) (mkSys storage_new h2) = Ok r2 →
  apply_requests (requests_of es) (state_machine r1) = (Ret reps1, s1) →
  ∃ reps2 r2', reapply checks r2 = (Ret (weave es reps2), r2') ∧
    Forall2 refused (requests_of es) reps2 ∧
    messages (abs (state_machine r2')) =
      messages (abs s1) ⊎ retired (requests_of es) (state_machine r1).
Proof.
  intros Hd Hall [= <-] [= <-] H1. apply Forall_and in Hall as [Hf Hold]. cbn [state_machine] in H1.
  destruct (second_life_run (issued h2) _ _ (second_life_new _ h2 ltac:(done)) Hold)
    as (reps2 & s2 & H2 & _ & Href & Hm2).
  destruct (reapply_spec checks d es _ _ _ Hd H2) as (d' & Hr & _).
  do 2 eexists. split; [exact Hr|]. split; [exact Href|]. cbn [state_machine].
  pose proof (session_messages _ _ _ _ (node_inv_new None h1) H1) as Hm1.
  rewrite (same_brought_in _ _ _ _ _ _ _ (node_inv_new None h1) (node_inv_new None h2)
    eq_refl eq_refl Hf eq_refl H1 H2) in Hm1.
  rewrite Hm2. exact (eq_sym Hm1).
Qed.

(** *** Purging *)

Definition creates (req : ClientRequest) : bool :=
  match req with RCreateQueue _ => true | _ => false end.

Lemma empty_step req resp a' :
  creates req = false → spec_step false req (mkAState ∅ ∅) resp a' → a' = mkAState ∅ ∅.
Proof.
  intros Hc Hs. inversion Hs; subst; try done;
    try match goal with H : _ !! _ = Some _ |- _ => cbn in H; by rewrite lookup_empty in H end.
  match goal with H : Forall _ ?ids |- _ => destruct ids as [|id ids']; [done|];
    apply Forall_cons in H as [[t Ht] _]; cbn in Ht; by rewrite lookup_empty in Ht end.
Qed.

Lemma empty_run reqs : ∀ s,
  node_inv s → persistent s = false → abs s = mkAState ∅ ∅ →
  Forall (λ req, creates req = false ∧ count_ok req) reqs →
  ∃ reps s', apply_requests reqs s = (Ret reps, s') ∧ abs s' = mkAState ∅ ∅.
Proof.
  induction reqs as [|req reqs IH]; intros s Hi Hp Ha Hall; [by exists [], s|].
  apply Forall_cons in Hall as [[Hn Hc] Hall].
  destruct (untried_returns req s) as (rep & s1 & H1); [|done|].
  { intros n q Hq. change (queues (store s)) with (a_queues (abs s)) in Hq. rewrite Ha in Hq. cbn in Hq.
    by rewrite lookup_empty in Hq. }
  pose proof (apply_request_sim _ _ _ _ (proj1 Hi) H1) as Hs. rewrite Hp, Ha in Hs.
  destruct (apply_request_issues _ _ _ _ H1) as (Hp1 & _).
  destruct (IH s1) as (reps & s2 & H2 & Ha2);
    [by eapply node_inv_request|congruence|by eapply empty_step|done|].
  exists (rep :: reps), s2. split; [by eapply apply_requests_cons|done].
Qed.

(** A purged log does not rebuild the node: after purging a prefix that holds
    every [CreateQueue] of the log, a restart comes up with no queue and no task,
    and the node records the log's last entry as applied. *)
Theorem purged_node_restarts_empty checks d es1 e es2 :
  log_holds d (es1 ++ e :: es2) →
  Forall (λ req, creates req = false ∧ count_ok req) (requests_of es2) →
  ∃ d', purge_logs_upto (log_id e) d = (Ret tt, d') ∧
    ∀ h r, combined_new (Ok d') (mkSys storage_new h) = Ok r →
    ∃ resps r', reapply checks r = (Ret resps, r') ∧
      queues (store (state_machine r')) = ∅ ∧ in_flight (store (state_machine r')) = ∅ ∧
      last_applied_log r' = last_id es2 None.
Proof.
  intros Hd Hall. destruct (purge_leaves d es1 e es2 Hd) as (d' & Hp & Hd').
  exists d'. split; [exact Hp|]. intros h r [= <-].
  destruct (empty_run (requests_of es2) (mkSys storage_new h)) as (reps & s & H & Ha);
    [apply node_inv_new|done|done|done|].
  destruct (reapply_spec checks d' es2 _ _ _ Hd' H) as (d'' & Hr & _).
  do 2 eexists. split; [exact Hr|]. cbn. by injection Ha as -> ->.
Qed.
End nodes.

(** ** Examples *)

#[local] Existing Instance ex_runtime.

(** A session of the first life; the tasks of [fresh_host] are ["task-0"], .... *)
Definition ex_life : list Entry :=
  [ex_entry 1 Blank; ex_entry 2 (Normal (RCreateQueue "q")); ex_entry 3 (Normal (REnqueue "q" [x61]));
   ex_entry 4 (Normal (REnqueue "q" [x62])); ex_entry 5 (Normal (RDequeue "q"));
   ex_entry 6 (Normal (RAck "task-0"))].
Definition ex_life_reqs : list ClientRequest := requests_of ex_life.
Definition ex_first_host : @Host ex_runtime := fresh_host.
Definition ex_first : Sys := mkSys storage_new ex_first_host.
Definition ex_second_host : Host := host (exec (apply_requests ex_life_reqs) ex_first).

Lemma ex_in_order n : in_order (take n ex_life).
Proof.
  assert (in_order ex_life) as [Hs Hu].
  { split; [|by repeat constructor]. unfold ex_life. cbn. repeat constructor. }
  split; [|by apply Forall_take]. rewrite fmap_take.
  revert n Hs. generalize (entry_index <$> ex_life). intros l n. revert l.
  induction n as [|n IH]; intros [|x l] Hs; try constructor; inversion_clear Hs; [by apply IH|by apply Forall_take].
Qed.

(** A database that holds the first entries of [ex_life]. *)
Lemma ex_life_held n : ∃ d : @Db sim_sled, log_holds d (take n ex_life).
Proof.
  destruct (log_holds_append (∅ : @Db sim_sled) [] (take n ex_life)) as (d & _ & H);
    [by apply log_holds_empty|apply ex_in_order|by exists d].
Qed.

Lemma ex_life_runs (h : @Host ex_runtime) : h = ex_first_host ∨ h = ex_second_host →
  ∃ reps, apply_requests ex_life_reqs (mkSys storage_new h) =
    (Ret reps, exec (apply_requests ex_life_reqs) (mkSys storage_new h)).
Proof.
  intros Hh. exists (value [] (apply_requests ex_life_reqs (mkSys storage_new h)).1).
  apply value_Ret. destruct Hh as [->| ->]; vm_compute; reflexivity.
Qed.

Lemma restart_is_log_witness :
  ∃ (d : @Db sim_sled) r s reps, log_holds d ex_life ∧ combined_new (Ok d) ex_first = Ok r ∧
    ∃ d', reapply true r = (Ret (weave ex_life reps), mkCombined d' s (last_id ex_life None)) ∧
          log_holds d' ex_life.
Proof.
  destruct (ex_life_held 6) as [d Hd]. destruct (ex_life_runs ex_first_host) as [reps H]; [by left|].
  destruct (restart_is_log true d ex_life ex_first_host (mkCombined d ex_first None) reps _ Hd eq_refl H)
    as (_ & _ & Hr).
  exists d, (mkCombined d ex_first None), (exec (apply_requests ex_life_reqs) ex_first), reps.
  split; [exact Hd|]. split; [reflexivity|exact Hr].
Defined.

Lemma restart_rebuilds_queues_witness :
  ∃ (d : @Db sim_sled) resps1 r1' resps2 r2',
    apply_to_state_machine (take 5 ex_life) (mkCombined d ex_first None) = (Ret resps1, r1') ∧
    reapply true (mkCombined d (mkSys storage_new ex_second_host) None) = (Ret resps2, r2') ∧
    erase <$> resps1 = erase <$> resps2 ∧
    queues (store (state_machine r1')) = queues (store (state_machine r2')) ∧
    last_applied_log r1' = last_applied_log r2'.
Proof.
  destruct (ex_life_held 5) as [d Hd]. exists d.
  apply (restart_rebuilds_queues true d d (take 5 ex_life) ex_first_host ex_second_host
    (mkCombined d ex_first None) (mkCombined d (mkSys storage_new ex_second_host) None));
    [exact Hd| |reflexivity|reflexivity].
  by repeat constructor.
Defined.

Lemma restart_undoes_acks_witness :
  ∃ (d : @Db sim_sled) reps2 r2',
    reapply true (mkCombined d (mkSys storage_new ex_second_host) None) = (Ret (weave ex_life reps2), r2') ∧
    Forall2 refused ex_life_reqs reps2 ∧
    messages (abs (state_machine r2')) =
      messages (abs (exec (apply_requests ex_life_reqs) ex_first)) ⊎ retired ex_life_reqs ex_first ∧
    retired ex_life_reqs ex_first = {[+ [x61] +]}.
Proof.
  destruct (ex_life_held 6) as [d Hd]. destruct (ex_life_runs ex_first_host) as [reps1 H]; [by left|].
  destruct (restart_undoes_acks true d d ex_life ex_first_host ex_second_host (mkCombined d ex_first None)
    (mkCombined d (mkSys storage_new ex_second_host) None) reps1
    (exec (apply_requests ex_life_reqs) ex_first) Hd) as (reps2 & r2' & Hr & Href & Hm);
    [|reflexivity|reflexivity|exact H|].
  - assert (list_to_set (C := gset string) ["task-0"] ⊆ issued ex_second_host) as Hs.
    { apply (bool_decide_unpack _). vm_compute. exact I. }
    repeat (apply Forall_cons; split; [split; [exact I|split; [first [exact Hs|exact (empty_subseteq _)]|exact I]]|]).
    apply Forall_nil_2.
  - exists d, reps2, r2'. split; [exact Hr|]. split; [exact Href|]. split; [exact Hm|]. vm_compute. reflexivity.
Defined.

Lemma purged_node_restarts_empty_witness :
  ∃ d d' : @Db sim_sled, purge_logs_upto (@mkLogId sim_raft 1%Z 4) d = (Ret tt, d') ∧
    ∃ resps r', reapply true (mkCombined d' (mkSys storage_new ex_second_host) None) = (Ret resps, r') ∧
      queues (store (state_machine r')) = ∅ ∧ in_flight (store (state_machine r')) = ∅ ∧
      last_applied_log r' = Some (@mkLogId sim_raft 1%Z 6).
Proof.
  destruct (ex_life_held 6) as [d Hd].
  destruct (purged_node_restarts_empty true d (take 3 ex_life) (ex_entry 4 (Normal (REnqueue "q" [x62])))
    (drop 4 ex_life) Hd) as (d' & Hp & Hr); [by repeat constructor|].
  exists d, d'. split; [exact Hp|]. exact (Hr ex_second_host _ eq_refl).
Defined.

(** With a [Nack] the two lives can differ in their queues: the fifth rejection of a
    message creates the dead letter queue, the replay refuses the rejection, and
    a message that a client enqueued there is refused with it. *)
Definition ex_retry (id : string) : list ClientRequest := [RDequeue "q"; RNack id].
Definition ex_dead_letters : list ClientRequest :=
  [RCreateQueue "q"; REnqueue "q" [x61]]
  ++ (["task-0"; "task-1"; "task-2"; "task-3"; "task-4"] ≫= ex_retry) ++ [REnqueue "q_dlq" [x62]].
Definition ex_dead_first : Sys := exec (apply_requests ex_dead_letters) ex_first.
Definition ex_dead_second : Sys := exec (apply_requests ex_dead_letters) (mkSys storage_new (host ex_dead_first)).

Example dead_letter_enqueue_lost :
  queues (store ex_dead_first) !! "q_dlq" = Some [mkQueueItem [x61] 5; mkQueueItem [x62] 0] ∧
  queues (store ex_dead_second) !! "q_dlq" = None ∧ size (in_flight (store ex_dead_second)) = 1.
Proof. vm_compute. by split_and!. Qed.
