(* ===== verification/Program.v ===== *)
(** * The program from its first line ([main.rs], [app] of [lib.rs])

    [main] composed of its parts: the environment and [dotenv], logging, settings,
    TLS, the node of the chosen mode, [app] with the cleanup task it spawns, and the
    server.  The theorems say when a process comes up and with what, that a
    standalone node is only ever changed by commands of the storage and cleanup
    passes, and that a persistent program run again in the same environment finds
    what it had. *)

From stdpp Require Import prelude base gmap strings list fin_maps pretty.
From Stdlib Require Import ZArith Lia Strings.Byte.
From S2P Require Import Prelude Types Env Wal Memory Spec Commands Refinement Invariant Models Storage Interface Recovery Durability RaftLog Replica RaftModels Http HttpModels Router Api Config Startup Telemetry Lifecycle.
Local Open Scope oxide_scope.
Set Warnings "-clear-no-such-hyp".

(** [openraft::Config], the fields the code sets. *)
Record RaftConfig := mkRaftConfig {
  heartbeat_interval : Z;
  election_timeout_min : Z;
  election_timeout_max : Z }.
Definition raft_config : RaftConfig := mkRaftConfig 500 1500 3000.

(** The crates [main] calls: dotenvy, the file system, sled and openraft.  [Raft::new]
    may call the storage it is given. *)
Class StartCrates `{RT : !Runtime} `{RTy : !RaftTypes} `{SL : !Sled} `{RA : !RaftApi} := {
  dotenv : Environment → Environment;
  create_dir_all : string → bool;
  sled_open : string → Result Db string;
  raft_new : NodeId → RaftConfig → Network → CombinedStorage → Result OxideRaft string * Sys }.

Section program.
Context `{RT : !Runtime} `{CH : !Chrono} `{CD : !WalCodec}.
Context `{SD : !Serde} `{HC : !HttpCrates} `{RTy : !RaftTypes} `{SL : !Sled} `{RA : !RaftApi}.
Context `{TR : !TracingCrates} `{TC : !TlsCrates} `{HCl : !HttpClient} `{SG : !Signals} `{SC : !ServerCrates}.
Context `{ST : !StartCrates}.

(** A process before it has a node. *)
Record Proc := mkProc { p_host : Host; p_subscriber : option Subscriber }.

Definition on_subscriber {A} (c : M (option Subscriber) A) : M Proc A := λ p,
  let '(o, s) := c (p_subscriber p) in (o, mkProc (p_host p) s).
Definition on_proc_host {A} (c : M Host A) : M Proc A := λ p,
  let '(o, h) := c (p_host p) in (o, mkProc h (p_subscriber p)).
Definition lift {S A} (o : outcome A) : M S A := λ s, (o, s).

(** What runs once [main] serves: the router's state, the node, the spawned cleanup
    task and the server. *)
Record Program := mkProgram {
  pr_app : AppState;
  pr_node : Node;
  pr_cleanup : list Router.Event → M Node unit;
  pr_process : Process }.

(** The node of the mode. *)
Definition build_node (env : Environment) (mode : Mode) : M Proc Node :=
  storage ← on_proc_host (initial_storage mode);
  h ← gets p_host;
  match mode with
  | Cluster node_id wal_path =>
    combined_storage ← lift
      match combined_new (sled_open wal_path) (mkSys storage h) with
      | Ok c => Ret c
      | Err _ => Panic "Failed to create combined storage"
      end;
    network ← lift (network_new env);
    let '(r, s) := raft_new node_id raft_config network combined_storage in
    match r with
    | Ok raft => mret (mkNode s (Some raft))
    | Err _ => panic "Failed to create Raft"
    end
  | Standalone _ => mret (mkNode (mkSys storage h) None)
  end.

(** [app]: the state of the router and the cleanup task it spawns. *)
Definition app (password : string) (cleanup_interval task_timeout heartbeat_duration : Z)
  : AppState * (list Router.Event → M Node unit) :=
  (mkAppState password heartbeat_duration, spawned_cleanup cleanup_interval task_timeout).

Definition main (env0 : Environment) : M Proc Program :=
  let env := dotenv env0 in
  on_subscriber (init_logging env);;
  '(settings, tls_config, mode) ← lift (main_config env pretty create_dir_all);
  node ← build_node env mode;
  let '(state, cleanup) := app (s_password settings) (s_cleanup_interval settings)
    (s_task_timeout settings) (s_heartbeat_duration settings) in
  mret (mkProgram state node cleanup
    (run_server (s_port settings) (bool_decide (is_Some tls_config)))).

(** ** Coming up *)

(** What cluster mode asks of the environment. *)
Definition cluster_env (env : Environment) (node_id : NodeId) (wal_path : string) : Prop :=
  (∃ s, env "OXIDEQ_NODE_ID"%string = Some s ∧ parse_u64 s = Some node_id) ∧
  is_Some (env "OXIDEQ_RAFT_ADDR"%string) ∧
  wal_path = default ("data/node_" +:+ pretty node_id)%string (env "OXIDEQ_WAL_PATH"%string) ∧
  create_dir_all wal_path = true.

Lemma select_mode_Ret env mode :
  select_mode env pretty create_dir_all = Ret mode ↔
  if env_flag env "OXIDEQ_CLUSTER_MODE"
  then ∃ node_id wal_path, mode = Cluster node_id wal_path ∧ cluster_env env node_id wal_path
  else mode = Standalone (env "OXIDEQ_WAL_PATH"%string).
Proof.
  unfold select_mode, cluster_env. destruct (env_flag env "OXIDEQ_CLUSTER_MODE"); [|naive_solver].
  rewrite bind_outcome_Ret. setoid_rewrite expect_some_Ret. setoid_rewrite bind_outcome_Ret.
  setoid_rewrite expect_some_Ret. setoid_rewrite bind_outcome_Ret. setoid_rewrite expect_some_Ret.
  split.
  - intros (s & Hs & id & Hid & a & Ha & H). cbv zeta in H. destruct (create_dir_all _) eqn:Hc; [|done].
    injection H as <-. eexists _, _. split; [done|]. split_and!; [by exists s|by exists a|done|done].
  - intros (id & path & -> & (s & Hs & Hid) & [a Ha] & -> & Hc). exists s. split; [done|].
    exists id. split; [done|]. exists a. split; [done|]. by rewrite Hc.
Qed.

Lemma main_config_Ret env c tls mode :
  main_config env pretty create_dir_all = Ret (c, tls, mode) ↔
  load_settings env = Ret c ∧ tls_from_env env = Ok tls ∧ select_mode env pretty create_dir_all = Ret mode.
Proof.
  unfold main_config. rewrite bind_outcome_Ret. setoid_rewrite bind_outcome_Ret.
  setoid_rewrite bind_outcome_Ret. destruct (tls_from_env env); naive_solver.
Qed.

Context `{UL : !UuidLaws} `{DL : !DashLaws} `{FL : !FsLaws}.

(** What the crates and the log have to give for the node of a mode. *)
Definition node_builds (env : Environment) (h : Host) (mode : Mode) : Prop :=
  match mode with
  | Standalone None => True
  | Standalone (Some path) => log_starts path h
  | Cluster node_id wal_path =>
    ∃ db raft, sled_open wal_path = Ok db ∧ client_builds = true ∧
      (raft_new node_id raft_config (mkNetwork (is_raft_tls_enabled env))
        (mkCombined db (mkSys storage_new h) None)).1 = Ok raft
  end.

(** The storage, or the Raft instance, of the mode. *)
Definition node_of (env : Environment) (h : Host) (mode : Mode) (n : Node) : Prop :=
  match mode with
  | Standalone None => n = mkNode (mkSys storage_new h) None
  | Standalone (Some path) => n_raft n = None ∧ log_started path h (n_sys n)
  | Cluster node_id wal_path =>
    ∃ db raft, sled_open wal_path = Ok db ∧ client_builds = true ∧
      raft_new node_id raft_config (mkNetwork (is_raft_tls_enabled env))
        (mkCombined db (mkSys storage_new h) None) = (Ok raft, n_sys n) ∧
      n_raft n = Some raft
  end.

Lemma build_node_spec env mode p :
  (∀ n p', build_node env mode p = (Ret n, p') → node_of env (p_host p) mode n) ∧
  (returns (build_node env mode) p ↔ node_builds env (p_host p) mode).
Proof.
  unfold build_node. destruct mode as [[path|]|node_id wal_path].
  - destruct (new_persistent_starts path (p_host p)) as [Hst Hret]. cbn [node_builds node_of initial_storage].
    rewrite <- Hret. unfold on_proc_host, returns, mbind, M_bind, gets.
    destruct (new_persistent path (p_host p)) as [[st|msg] h] eqn:Hn; cbn.
    + split; [intros n p' [= <- _]; split; [done|by apply Hst]|]. split; intros _; by eexists _, _.
    + split; [done|]. by split; intros (? & ? & ?).
  - split; [by intros n p' [= <- _]|]. split; [done|]. intros _. by eexists _, _.
  - assert (on_proc_host (initial_storage (Cluster node_id wal_path)) p
      = (Ret storage_new, mkProc (p_host p) (p_subscriber p))) as H' by done.
    unfold returns. erewrite bind_step by exact H'. rewrite bind_gets.
    cbn [p_host node_builds node_of]. unfold lift, network_new, mbind, M_bind.
    destruct (sled_open wal_path) as [db|e] eqn:Hdb; cbn [combined_new];
      [|split; [done|split; [by intros (? & ? & ?)|by intros (? & ? & ? & _)]]].
    destruct client_builds eqn:Hc;
      [|split; [done|split; [by intros (? & ? & ?)|by intros (? & ? & _ & ? & _)]]].
    destruct (raft_new _ _ _ _) as [[raft|e] s] eqn:Hr; cbn; split.
    + intros n p' [= <- _]. by exists db, raft.
    + split; [|by eexists _, _]. intros _. exists db, raft. by rewrite Hr.
    + done.
    + split; [by intros (? & ? & ?)|]. intros (db' & raft & [= <-] & _ & Hb). by rewrite Hr in Hb.
Qed.

(** C22. Start-up: a process comes up exactly when the password is set, the numbers
    parse, TLS is configured or off, in standalone mode with a log path the replay
    of whatever is in the file overflows no count and the log then opens for
    appending, and in cluster mode the node's id, address, directory, database,
    HTTP client and Raft instance are there; otherwise [main] panics.  It then
    serves with the settings' password and extension on the settings' port, with
    TLS if configured and the cleanup task on the settings' periods; a standalone
    node without a log starts empty, one with a log in the state of the entries
    found in the file, to which it appends, and a cluster node from an empty
    storage and the database of its path. *)
Theorem main_starts env0 p :
  p_subscriber p = None →
  (∀ prog p', main env0 p = (Ret prog, p') →
     ∃ c tls mode, main_config (dotenv env0) pretty create_dir_all = Ret (c, tls, mode) ∧
       pr_app prog = mkAppState (s_password c) (s_heartbeat_duration c) ∧
       node_of (dotenv env0) (p_host p) mode (pr_node prog) ∧
       pr_cleanup prog = spawned_cleanup (s_cleanup_interval c) (s_task_timeout c) ∧
       pr_process prog = run_server (s_port c) (bool_decide (is_Some tls))) ∧
  (returns (main env0) p ↔
     (∃ c, load_settings (dotenv env0) = Ret c) ∧ (∃ tls, tls_from_env (dotenv env0) = Ok tls) ∧
     ∃ mode, node_builds (dotenv env0) (p_host p) mode ∧
       if env_flag (dotenv env0) "OXIDEQ_CLUSTER_MODE"
       then ∃ node_id wal_path, mode = Cluster node_id wal_path ∧
              cluster_env (dotenv env0) node_id wal_path
       else mode = Standalone (dotenv env0 "OXIDEQ_WAL_PATH"%string)).
Proof.
  intros Hs. set (env := dotenv env0) in *.
  assert (∃ s, on_subscriber (init_logging env) p = (Ret tt, mkProc (p_host p) (Some s))) as [s H1].
  { unfold on_subscriber. rewrite Hs. unfold init_logging. destruct (log_format_from_env env); by eexists. }
  unfold main, returns. fold env. split.
  - intros prog p'. erewrite bind_step by exact H1. intros (((c & tls) & mode) & p1 & H2 & H3)%bind_Ret_inv.
    injection H2 as H2 <-. apply bind_Ret_inv in H3 as (n & p2 & H3 & [= <- _]).
    exists c, tls, mode. split_and!; [done|done| |done|done]. cbn [pr_node].
    by apply (build_node_spec env mode (mkProc (p_host p) (Some s))) in H3.
  - setoid_rewrite <- select_mode_Ret. split.
    + intros (prog & p' & H). erewrite bind_step in H by exact H1.
      apply bind_Ret_inv in H as (((c & tls) & mode) & p1 & H2 & H3). injection H2 as H2 <-.
      apply bind_Ret_inv in H3 as (n & p2 & H3 & _). apply main_config_Ret in H2 as (Hc & Ht & Hm).
      split_and!; [by exists c|by exists tls|]. exists mode. split; [|done].
      apply (build_node_spec env mode (mkProc (p_host p) (Some s))). by exists n, p2.
    + intros ([c Hc] & [tls Ht] & mode & Hb & Hm).
      apply (build_node_spec env mode (mkProc (p_host p) (Some s))) in Hb as (n & p2 & Hn).
      eexists _, _. erewrite bind_step by exact H1.
      erewrite bind_step by (unfold lift; rewrite (proj2 (main_config_Ret env c tls mode)); [reflexivity|done]).
      cbv beta iota. by erewrite bind_step by exact Hn.
Qed.

(** ** Serving: a standalone node changes by commands of its storage *)

Lemma on_storage_Ret {A} (c : M Sys A) n a n' :
  on_storage c n = (Ret a, n') → c (n_sys n) = (Ret a, n_sys n') ∧ n_raft n' = n_raft n.
Proof. unfold on_storage. destruct (c (n_sys n)) as [o s]. by intros [= -> <-]. Qed.

(** What a request can do to the storage of a standalone node. *)
Inductive touches (s : Sys) : Sys → Prop :=
| touches_not : touches s s
| touches_command req resp s' : apply_request req s = (Ret resp, s') → touches s s'
| touches_stats r s' : get_stats s = (Ret r, s') → touches s s'.

Lemma encode_all_same to_vec values : ∀ n items n',
  encode_all to_vec values n = (Ret items, n') → n' = n.
Proof.
  induction values as [|v values IH]; intros n items n' H; cbn in H; minv; [done|].
  destruct (to_vec v); minv. by eapply IH.
Qed.

Lemma batch_response_same accept r n resp n' :
  batch_response accept r n = (Ret resp, n') → n' = n.
Proof. unfold batch_response. intros H. repeat (case_match; minv); done. Qed.

(** The command a call of the storage is. *)
Ltac as_command :=
  match goal with
  | H : get_stats _ = _ |- _ => by eapply touches_stats
  | H : create_queue ?q _ = _ |- _ => eapply (touches_command _ (RCreateQueue q))
  | H : enqueue ?q ?d _ = _ |- _ => eapply (touches_command _ (REnqueue q d))
  | H : dequeue ?q _ = _ |- _ => eapply (touches_command _ (RDequeue q))
  | H : ack ?i _ = _ |- _ => eapply (touches_command _ (RAck i))
  | H : nack ?i _ = _ |- _ => eapply (touches_command _ (RNack i))
  | H : extend_visibility ?i ?d _ = _ |- _ => eapply (touches_command _ (RExtendVisibility i d))
  | H : queue_batch ?q ?d _ = _ |- _ => eapply (touches_command _ (REnqueueBatch q d))
  | H : dequeue_batch ?q ?c _ = _ |- _ => eapply (touches_command _ (RDequeueBatch q c))
  | H : ack_batch ?ids _ = _ |- _ => eapply (touches_command _ (RAckBatch ids))
  end; cbn [apply_request]; by erewrite bind_step by eassumption.

Lemma handle_touches st c n r n' :
  n_raft n = None → handle st c n = (Ret r, n') → n_raft n' = None ∧ touches (n_sys n) (n_sys n').
Proof.
  intros Hn. destruct c; cbn [handle];
    unfold create_queue_handler, enqueue_handler, dequeue_handler, ack_task, nack_task, heartbeat_task,
      queue_batch_handler, dequeue_batch_handler, ack_batch_handler, get_stats_handler, stats_response,
      health_check, raft_vote, raft_append, raft_snapshot, raft_init, raft_add_learner,
      raft_change_membership, raft_metrics, raft_endpoint;
    intros H; minv; try (by split; [|constructor]);
    repeat (case_match; minv; try (by split; [|constructor])); try congruence.
  all: repeat match goal with H : encode_all _ _ _ = _ |- _ => apply encode_all_same in H; subst end.
  all: try match goal with H : batch_response _ _ _ = _ |- _ => apply batch_response_same in H as -> end.
  all: try congruence; match goal with H : on_storage _ _ = (Ret _, _) |- _ => apply on_storage_Ret in H as [H ?] end.
  all: split; [congruence|as_command].
Qed.

Lemma serve_touches st header json_len c s r n' :
  serve st header json_len c (mkNode s None) = (Ret r, n') → n_raft n' = None ∧ touches s (n_sys n').
Proof.
  unfold serve, auth_middleware, extract_and_handle. intros H.
  destruct (open_route c); [by apply handle_touches in H|]. minv.
  destruct header as [b|]; [|minv; by split; [|constructor]].
  destruct (bool_decide _ && _); [|minv; by split; [|constructor]].
  destruct (too_large json_len c); minv; [by split; [|constructor]|].
  match goal with H : handle _ _ _ = _ |- _ => by apply handle_touches in H end.
Qed.

(** *** A persistent program run again *)

Context `{RD : !ReliableDisk} `{CL : !WalCodecLaws}.

(** The same program, run, served and run again in one environment. *)
Inductive operates (env0 : Environment) (path : string) : AppState → Node → Prop :=
| op_first p prog p' :
    p_subscriber p = None → stored path (p_host p) [] "" → main env0 p = (Ret prog, p') →
    operates env0 path (pr_app prog) (pr_node prog)
| op_request st n header json_len c r n' :
    operates env0 path st n → serve st header json_len c n = (Ret r, n') → operates env0 path st n'
| op_cleanup st n timeout n' :
    operates env0 path st n → cleanup_tick timeout n = (Ret tt, n') → operates env0 path st n'
| op_again st n prog p' :
    operates env0 path st n → main env0 (mkProc (host (n_sys n)) None) = (Ret prog, p') →
    operates env0 path (pr_app prog) (pr_node prog).

Lemma collect_stats_still rs : ∀ acc s m s',
  collect_stats rs acc s = (Ret m, s') → still s s' ∧ abs s' = abs s.
Proof.
  induction rs as [|[name q] rs IH]; intros acc s m s' H; cbn in H; minv; [done|].
  match goal with H : iter_map _ _ = _ |- _ => apply iter_map_still in H as [? ?] end.
  match goal with H : collect_stats _ _ _ = _ |- _ => apply IH in H as [? ?] end.
  split; [by etrans|congruence].
Qed.

Lemma get_stats_still s r s' : get_stats s = (Ret r, s') → still s s' ∧ abs s' = abs s.
Proof.
  unfold get_stats. intros H. minv.
  match goal with H : iter_map _ _ = _ |- _ => apply iter_map_still in H as [? ?] end.
  match goal with H : collect_stats _ _ _ = _ |- _ => apply collect_stats_still in H as [? ?] end.
  split; [by etrans|congruence].
Qed.

Lemma touches_durable p s s' :
  touches s s' → node_inv s → durable p s → node_inv s' ∧ durable p s'.
Proof.
  intros Ht Hi Hd. destruct Ht as [|req resp s' H|r s' H]; [done| |].
  - split; [by eapply node_inv_request|by eapply durable_request].
  - pose proof (get_stats_quiet _ _ _ H). apply get_stats_still in H as [? ?].
    split; [by eapply quiet_node_inv|by eapply durable_still].
Qed.

Lemma cleanup_touches timeout n n' :
  n_raft n = None → cleanup_tick timeout n = (Ret tt, n') →
  n_raft n' = None ∧ ∃ r, cleanup_expired_tasks timeout (n_sys n) = (Ret r, n_sys n').
Proof.
  intros Hn H. unfold cleanup_tick in H. rewrite bind_gets, Hn in H. minv.
  match goal with H : on_storage _ _ = _ |- _ => apply on_storage_Ret in H as [? ?] end.
  split; [congruence|by eexists].
Qed.

Section persistent.
Context (env0 : Environment) (path : string).
Hypothesis standalone : env_flag (dotenv env0) "OXIDEQ_CLUSTER_MODE" = false.
Hypothesis logs_to : dotenv env0 "OXIDEQ_WAL_PATH"%string = Some path.

(** What [main] makes of a recovered storage. *)
Definition program_on (c : Settings) (tls : option TlsConfig) (s : Sys) : Program :=
  mkProgram (mkAppState (s_password c) (s_heartbeat_duration c)) (mkNode s None)
    (spawned_cleanup (s_cleanup_interval c) (s_task_timeout c))
    (run_server (s_port c) (bool_decide (is_Some tls))).

Lemma main_recovers p :
  p_subscriber p = None →
  (∀ prog p', main env0 p = (Ret prog, p') → ∃ c tls st h,
     load_settings (dotenv env0) = Ret c ∧ tls_from_env (dotenv env0) = Ok tls ∧
     new_persistent path (p_host p) = (Ret st, h) ∧ prog = program_on c tls (mkSys st h)) ∧
  (∀ c tls st h, load_settings (dotenv env0) = Ret c → tls_from_env (dotenv env0) = Ok tls →
     new_persistent path (p_host p) = (Ret st, h) →
     ∃ p', main env0 p = (Ret (program_on c tls (mkSys st h)), p')).
Proof.
  intros Hs.
  assert (∃ s, on_subscriber (init_logging (dotenv env0)) p = (Ret tt, mkProc (p_host p) (Some s))) as [s H1].
  { unfold on_subscriber. rewrite Hs. unfold init_logging.
    destruct (log_format_from_env (dotenv env0)); by eexists. }
  assert (select_mode (dotenv env0) pretty create_dir_all = Ret (Standalone (Some path))) as Hm.
  { apply select_mode_Ret. rewrite standalone. by rewrite logs_to. }
  unfold main. split.
  - intros prog p'. erewrite bind_step by exact H1. intros (((c & tls) & mode) & p1 & H2 & H3)%bind_Ret_inv.
    injection H2 as H2 <-. apply main_config_Ret in H2 as (Hc & Ht & Hm'). rewrite Hm in Hm'.
    injection Hm' as <-. apply bind_Ret_inv in H3 as (n & p2 & H3 & [= <- _]).
    unfold build_node in H3. apply bind_Ret_inv in H3 as (st & p3 & H3 & H4).
    rewrite bind_gets in H4. injection H4 as <- _.
    unfold on_proc_host in H3. cbn [initial_storage p_host] in H3.
    destruct (new_persistent path (p_host p)) as [o h] eqn:Hn. injection H3 as -> <-.
    by exists c, tls, st, h.
  - intros c tls st h Hc Ht Hn. eexists. erewrite bind_step by exact H1.
    erewrite bind_step by (unfold lift; rewrite (proj2 (main_config_Ret (dotenv env0) c tls (Standalone (Some path)))); [reflexivity|done]).
    cbv beta iota. erewrite bind_step; [reflexivity|]. unfold build_node.
    erewrite bind_step by (unfold on_proc_host; cbn [initial_storage p_host]; rewrite Hn; reflexivity).
    by rewrite bind_gets.
Qed.

Lemma operates_inv st n :
  operates env0 path st n →
  node_inv (n_sys n) ∧ durable path (n_sys n) ∧ n_raft n = None ∧
  ∃ c tls, load_settings (dotenv env0) = Ret c ∧ tls_from_env (dotenv env0) = Ok tls ∧
           st = mkAppState (s_password c) (s_heartbeat_duration c).
Proof.
  induction 1 as [p prog p' Hs Hst H|st n header json_len c r n' _ (Hi & Hd & Hn & Hc) H
                 |st n timeout n' _ (Hi & Hd & Hn & Hc) H|st n prog p' _ (Hi & Hd & _) H].
  - apply (main_recovers p Hs) in H as (c & tls & st & h & Hc & Ht & H & ->). cbn.
    destruct (lives_inv path (mkSys st h)) as [Hi Hd]; [by eapply live_start|].
    split_and!; [done|done|done|by exists c, tls].
  - destruct n as [s raft]. cbn in Hn. subst raft. apply serve_touches in H as [Hn Ht].
    destruct (touches_durable path s _ Ht Hi Hd). by split_and!.
  - destruct (cleanup_touches timeout n n' Hn H) as [Hn' [r Hr]].
    split_and!; [by eapply node_inv_cleanup|by eapply durable_cleanup|done|done].
  - apply (main_recovers (mkProc _ None) eq_refl) in H as (c & tls & st' & h & Hc & Ht & H & ->). cbn in *.
    destruct (durable_restart path _ Hi Hd) as (st1 & h1 & H1 & _ & Hi1 & Hd1 & _).
    rewrite H in H1. injection H1 as <- <-. split_and!; [done|done|done|by exists c, tls].
Qed.

(** C4. Run again: a standalone program that logs, started on an absent or empty
    log, serving any requests and cleanup ticks and run again any number of times,
    can be ended and run again at any of these moments: [main] comes up, with the
    same password, and holds the queues, items, delivery counts and in-flight tasks
    it had. *)
Theorem main_again st n :
  operates env0 path st n →
  ∃ prog p', main env0 (mkProc (host (n_sys n)) None) = (Ret prog, p') ∧ pr_app prog = st ∧
    abs (n_sys (pr_node prog)) ≡ abs (n_sys n).
Proof.
  intros (Hi & Hd & _ & c & tls & Hc & Ht & ->)%operates_inv.
  destruct (durable_restart path _ Hi Hd) as (st' & h & H & Ha & _).
  destruct (proj2 (main_recovers (mkProc (host (n_sys n)) None) eq_refl) c tls st' h Hc Ht H) as [p' Hp].
  by exists (program_on c tls (mkSys st' h)), p'.
Qed.
End persistent.
End program.

(** ** Examples *)

#[local] Existing Instance ex_runtime.
#[local] Existing Instance ex_signals.
#[local] Existing Instance ex_servers.
#[local] Instance ex_tls_crates : TlsCrates := {
  Cert := unit; PrivateKey := unit; ServerConfig := unit;
  open_file _ := None;
  read_certs _ := Ok [tt];
  read_private_key _ := Ok (Some tt);
  with_single_cert _ _ := Ok tt }.
#[local] Instance ex_http_client : HttpClient := {
  World := unit; Rpc := unit; RpcReply := unit;
  client_builds := true;
  post_json _ _ _ := mret (Err "unreachable"%string);
  reply_from_json _ := Ok tt }.

(** A [.env] file that sets the password. *)
#[local] Instance ex_start_crates `{RT : !Runtime} : StartCrates := {
  dotenv env name :=
    match env name with
    | Some v => Some v
    | None => if bool_decide (name = "OXIDEQ_PASSWORD"%string) then Some "secret"%string else None
    end;
  create_dir_all _ := true;
  sled_open _ := Ok (∅ : @Db sim_sled);
  raft_new _ _ _ c := (Ok false, state_machine c) }.

Definition ex_proc (h : Host) : Proc := mkProc h None.
Definition ex_wal_env : Environment := λ name,
  if bool_decide (name = "OXIDEQ_WAL_PATH"%string) then Some "wal"%string else None.
Definition ex_cluster_env : Environment := λ name,
  if bool_decide (name = "OXIDEQ_CLUSTER_MODE"%string) then Some "TRUE"%string
  else if bool_decide (name = "OXIDEQ_NODE_ID"%string) then Some "2"%string
  else if bool_decide (name = "OXIDEQ_RAFT_ADDR"%string) then Some "10.0.0.2:9000"%string else None.

(** The second disk call, the opening of the log for appending, fails. *)
Definition ex_read_only : Runtime :=
  sim_runtime true (λ n, if bool_decide (n = 1) then Some (mkFault 0 "Read-only file system") else None).

(** A cluster node comes up with a node id and not without one, and a standalone
    node does not come up on a log it cannot open. *)
Lemma main_starts_witness :
  returns (main ex_cluster_env) (ex_proc fresh_host) ∧
  ¬ returns (main (λ name, if bool_decide (name = "OXIDEQ_NODE_ID"%string) then None else ex_cluster_env name))
      (ex_proc fresh_host) ∧
  ¬ returns (main (RT := ex_read_only) ex_wal_env) (@mkProc ex_read_only _ fresh_host None).
Proof.
  split_and!.
  - apply (main_starts (RT := ex_runtime) ex_cluster_env (ex_proc fresh_host)); [reflexivity|].
    split; [eexists; vm_compute; reflexivity|]. split; [eexists; vm_compute; reflexivity|].
    exists (Cluster 2 "data/node_2"). split.
    + exists ∅, false. split; [reflexivity|]. split; reflexivity.
    + change (env_flag (dotenv ex_cluster_env) "OXIDEQ_CLUSTER_MODE") with true.
      exists 2%Z, "data/node_2"%string. split; [reflexivity|]. split_and!;
        [exists "2"%string; split; reflexivity|eexists; reflexivity|reflexivity|reflexivity].
  - intros H. apply (main_starts (RT := ex_runtime) _ (ex_proc fresh_host)) in H as (_ & _ & mode & _ & H);
      [|reflexivity].
    change (env_flag _ "OXIDEQ_CLUSTER_MODE") with true in H.
    destruct H as (id & path & _ & (s & Hs & _) & _). vm_compute in Hs. discriminate.
  - intros H. apply (main_starts (RT := ex_read_only) ex_wal_env) in H as (_ & _ & mode & Hb & H); [|reflexivity].
    change (env_flag _ "OXIDEQ_CLUSTER_MODE") with false in H. cbv iota in H. subst mode.
    destruct Hb as (_ & f & h' & Ho). vm_compute in Ho. discriminate.
Defined.

(** A program with a log on file ["wal"], after two requests. *)
Definition ex_none : Program :=
  mkProgram (mkAppState "" 0) (mkNode (mkSys storage_new fresh_host) None) (λ _, mret tt) (run_server 0 false).
Definition ex_program : Program := value ex_none (main ex_wal_env (ex_proc fresh_host)).1.
Definition ex_call (c : Call) : M Node Response := serve (pr_app ex_program) (Some (as_bytes "secret")) 9 c.
Definition ex_created : Node := exec (ex_call (PostQueues "q")) (pr_node ex_program).
Definition ex_enqueued : Node := exec (ex_call (PostTask "q" [Byte.x61])) ex_created.

Lemma ex_operates : operates ex_wal_env "wal" (pr_app ex_program) ex_enqueued.
Proof.
  eapply op_request with (header := Some (as_bytes "secret")) (json_len := 9%Z).
  - eapply op_request with (header := Some (as_bytes "secret")) (json_len := 9%Z).
    + apply (op_first ex_wal_env "wal" (ex_proc fresh_host) ex_program
        (exec (main ex_wal_env) (ex_proc fresh_host))); [reflexivity|by right|].
      apply value_Ret. vm_compute. reflexivity.
    + apply (value_Ret (ex_call (PostQueues "q")) _ (code 0)). vm_compute. reflexivity.
  - apply (value_Ret (ex_call (PostTask "q" [Byte.x61])) _ (code 0)). vm_compute. reflexivity.
Qed.

Lemma main_again_witness :
  ∃ prog p', main ex_wal_env (mkProc (host (n_sys ex_enqueued)) None) = (Ret prog, p') ∧
    password (pr_app prog) = "secret"%string ∧
    queues (store (n_sys (pr_node prog))) !! "q" = Some [mkQueueItem [Byte.x61] 0].
Proof.
  assert (env_flag (dotenv ex_wal_env) "OXIDEQ_CLUSTER_MODE" = false) as Hc by reflexivity.
  assert (dotenv ex_wal_env "OXIDEQ_WAL_PATH"%string = Some "wal"%string) as Hw by reflexivity.
  destruct (main_again (RT := ex_runtime) ex_wal_env "wal" Hc Hw (pr_app ex_program) ex_enqueued ex_operates)
    as (prog & p' & H & Happ & Hq & _).
  exists prog, p'. split; [exact H|]. split; [rewrite Happ; vm_compute; reflexivity|].
  change (queues (store (n_sys (pr_node prog)))) with (a_queues (abs (n_sys (pr_node prog)))).
  rewrite Hq. vm_compute. reflexivity.
Defined.
